(* ===== verification/_CoqProject ===== *)
-Q . S2P
Prelude.v
Strconv.v
Bitset.v
PorcModel.v
PorcList.v
PorcCheck.v
PorcSpec.v
PorcCorrect.v
PorcTop.v
PorcPartial.v
PorcOrder.v
PorcVis.v
JsNum.v
VisLayout.v
VisScan.v
VisOptimal.v
VisDraw.v
VisUi.v
VisPage.v
VisCheck.v
PorcEvents.v
PorcKv.v
RaftUtil.v
RaftNode.v
RaftCodec.v
RaftInv.v
RaftCluster.v
RaftClusterInv.v
RaftElection.v
RaftSafety.v
RaftReplication.v
RaftLogs.v
RaftCommit.v
RaftMachine.v
RaftApply.v
MrMaster.v
MrJob.v
MrRace.v
MrServe.v
MrWorker.v
MrReduce.v
MrFiles.v
MrPipeline.v
MrAlone.v
MrApps.v
MrTiming.v
MrMain.v
Labrpc.v
TestRand.v
RaftTester.v
RaftTesterCheck.v
RaftNet.v
RaftNetSim.v
RaftNetCalls.v
RaftNetTester.v
RaftStack.v
RaftStackCheck.v
Shard.v
Skeleton.v
ServiceTester.v
ServicePartition.v
ServiceRestart.v
ShardTester.v
Labgob.v
Commands.v
