(* ===== verification/Prelude.v ===== *)
(** * Verification of the MIT 6.824 labs

    The repository holds one student's course work in Go (6.824lab/src): a MapReduce system, Raft, the
    test infrastructure both stand on (a simulated RPC network, a linearizability checker, a tester per lab)
    and clients of a sharded store whose servers are still skeletons.  This development models the parts
    that carry logic of their own and proves what makes them correct.  Paths below are relative to
    6.824lab/src.

    ** The parts and their files

    - Prelude (this file): outcomes of Go functions ([res]: a value, or a panic or [log.Fatalf] with its
      reason), machine integers, slices with their index panics, counting loops ([go_for]), list lemmas, the
      tactic [inv_res].  Strconv: what the code uses of strconv and fmt.Sscanf on numbers.

    - The linearizability checker, porcupine/.  Bitset: bitset.go, words as 64-bit [Z].  PorcModel: the types
      of model.go and the defaults of [fillDefault].  PorcList: the doubly linked list of checker.go on an
      explicit heap of nodes, [lift] and [unlift] with every pointer write.  PorcCheck: [makeEntries],
      [renumber], [convertEntries], the search [checkSingle] as a loop over an explicit configuration,
      [checkParallel] and the entry points of porcupine.go.  PorcSpec: what linearizable means, and the same
      search on lists and sets (the abstract specification).  PorcCorrect: the loop on the heap refines that
      search, which decides linearizability.  PorcTop: the same for the entry points on timed operations, in
      terms of real time.  PorcPartial, PorcOrder: the partial linearizations a verbose check collects,
      which are runs of the model in the order of real time.  PorcVis:
      visualization.go, from these to the data of the page.  PorcEvents: the entry points on events, through
      [renumber].  PorcKv: models/kv.go.

    - The page that visualization.go writes: the script in its constant [html].  JsNum: numbers of JavaScript, exact
      or NaN.  VisLayout: from the data to the places of things: the ids and moved ends of operations, the tables of
      linearization points, the scan over the timestamps.  VisScan: the scan finds the least places that meet its
      demands; VisOptimal: what the demands mean for the page ([spaced]), on any history that can be drawn
      ([drawable]).  VisDraw: the drawing as lists of shapes.  VisUi: the handlers of mouse events, on the classes of
      elements and the variables they keep; VisPage: the handlers on the page drawn from data; VisCheck: the data of
      a check can be drawn.

    - Raft, raft/.  RaftUtil: util.go, which prints nothing.  RaftNode: persister.go and raft.go, one function per critical section (what runs between
      a Lock and its Unlock).  RaftCodec: a concrete instance of the encoding interface.  RaftInv:
      invariants of a server and what each section does.  RaftCluster: a cluster as a transition system; the
      loops [Run], [runFollower], [runCandidate] and [sendHearbeat] are program counters, the goroutines
      they start are threads, a remote call is the thread's step at the called server; a crash replaces a
      server by [Make] on its persister.  RaftClusterInv: the invariants of reachable clusters.
      RaftElection, RaftSafety, RaftReplication: the theorems on elections, servers and heartbeats.
      RaftLogs, RaftCommit, RaftMachine: log matching, completeness of leaders and state machine safety,
      each on the history variables of the one before.  RaftApply: the order of applied entries.

    - Raft on the network, under its tester.  RaftNet: servers at addresses of a heap, whose goroutines call
      each other through ends of Labrpc ([sendRequestVote], [sendAppendEntries]: encoded, looked up, delayed or
      dropped, dispatched by name, executed, decoded), made, connected, crashed and started by RaftTester;
      crashed servers go on at their address.  RaftNetSim: the relation of such a system to a cluster, and
      the steps of the servers; RaftNetCalls: the steps of the network; RaftNetTester: the steps of the
      tester; RaftStack: the simulation, its theorems, and a test of three servers that runs; RaftStackCheck: the
      checker of the tester on what these servers apply.

    - The testers.  TestRand: the random names of the network's ends, and the shuffle of the clerks' ends.  RaftTester: raft/config.go, with
      servers and persisters as objects on heaps, since a crashed server keeps running on the persister
      it had.  RaftTesterCheck: what its checks say about a cluster.  ServiceTester: kvraft/config.go and
      shardmaster/config.go, which are one program over the interface [RaftService] of a server with a
      Raft inside, and the two servers that implement it; ServicePartition and ServiceRestart: its theorems, for
      any such server.  ShardTester: shardkv/config.go and the start of shardkv/server.go.

    - MapReduce, mr/, main/mrsequential.go and mrapps/.  MrMaster: the master's queues, and its handlers and
      collector as functions, which is what they do alone.  MrJob: a job with these as events (asking, reporting,
      collecting) and its invariant.  MrRace: the calls and the collector access by access, as net/rpc and the
      scheduler interleave them, since master.go locks a queue for one access only.  MrServe: calls and turns of the
      collector that run one at a time ([one_at_a_time]) refine the job.  MrWorker:
      [workerMap], [workerReduce] and the sequential version on a file system of names and contents, with
      interfaces for encoding/json and sort.  MrReduce, MrFiles: the reduce loop as a grouping, the file
      names.  MrPipeline: workers, the served master and files together ([computation]), and the refinement of the
      same with whole handlers ([world]).  MrAlone: one worker, access by access, with the collector in between.
      MrApps: the applications, concrete instances of the interfaces and the witnesses that need them.  MrTiming:
      mtiming.go and rtiming.go, processes that count each other by files in a directory.  MrMain: mrmaster, mrworker and mrsequential as commands, the loading of
      plugins and the calls over the master's socket.

    - Labrpc: labrpc/labrpc.go, the simulated network.  Labgob: labgob/labgob.go, the checks of types and
      values around gob.  Shard: shardmaster/client.go and shardkv/client.go, the retrying clerks.  Skeleton: the
      handlers and operations that are still empty in kvraft, shardmaster and shardkv.  Commands: the commands of
      earlier labs in main/, of which only the arguments matter, as the packages they start are not in the
      repository.

    The parts meet in these places: RaftNet puts RaftNode, Labrpc and RaftTester together, and RaftStackCheck lets the tester's checker read what it
    applies; VisCheck takes what PorcCheck reports to the page; the testers run
    [Make] and the persister of RaftNode and wire Labrpc's ends; RaftTesterCheck states the checks of the tester over executions of RaftCluster; ShardTester joins
    groups through the clerk of Shard; PorcKv instantiates the checker; MrPipeline runs workers against
    the master of MrRace, and MrMain starts both from command lines.

    ** What the theorems show

    - The checker: [checkSingle] ends and decides linearizability, hash collisions and pointer surgery
      included, if the model's [Equal] is sound; killed early, its yes is still right.  [CheckOperations],
      [CheckEvents] and the variant with a time limit give right verdicts under every schedule; with
      [KvModel], key by key.  The data of a visualization show the history and runs of the model.  A bitset
      is a set.
    - The page of a check: the scan never reads a place that is not set, what it places meets the constraints its
      comment states, and nothing can be further to the left; every point is drawn in the box of its operation and
      boxes are in the order of real time; no sequence of mouse events makes a handler fail, a click on the
      background undoes a selection, and a tooltip says what the data says.
    - Raft, in every execution: servers keep their promises (terms and votes never go back, over restarts),
      persist what they must, restart to the state they had, apply in order, and panic in log replication
      only; [AppendEntries] meets its contract; repeated heartbeats bring a follower's log to the leader's, if the
      leader's nextIndex is in range and they agree on what is committed ([can_replicate]).
    - Raft, in executions that raft.go does not enforce but a well-timed network gives: a term has one leader
      ([timely]: a vote is asked for and counted in the term it was meant for), logs match ([orderly]:
      [Start] appends in the term it read) and no two servers apply different commands at an index
      ([disciplined]: acknowledgements are used in their own term, by a server that still leads, and a new
      leader has none from before).  The conditions are those raft.go lacks tests for: theorems exhibit
      executions that go wrong without them, with two leaders in a term (after a delayed request,
      [stale_vote_two_leaders], and after a delayed reply, [stale_reply_two_leaders]), a panic, and two servers
      that apply different commands.
    - Raft as it is run: over the simulated network, under the tester, with lost, delayed and reordered calls,
      partitions, crashes and restarts, and with crashed servers that go on, the running servers are those of
      a reachable cluster ([stack_refines_cluster]); so if their steps are well-timed ([well_timed], the
      condition [disciplined] on the servers that run) they elect one leader a term and apply the same
      commands ([stack_safe]), and the tester's checker of applied commands accepts them
      ([stack_checker_accepts]).
    - The testers: an end is enabled exactly between connected servers, whatever was connected, crashed and
      started; the checker of applied commands counts right;
      [checkOneLeader] finds the leader; [one] ends, with an index only if enough servers agree; a
      partition cuts the servers in two, the leader in the minority; a restart keeps what was saved; the tester of
      the sharded store needs as many servers in a group as masters.
    - MapReduce, if the calls of the master's handlers and the turns of its collector run one at a time: when the
      master says the job is done it is; the outputs together are those of the sequential program, whatever times
      out, dies or is done twice, for a Reduce that does not depend on the order of its values and pairs that
      survive the JSON encoding; the commands started on one plugin agree.  Without that condition, which
      master.go does not enforce, two calls can end the job early or panic ([ask_races]).  A single worker whose
      turns take at most ten seconds ends the job, with the collector's accesses anywhere in between.  What
      [nparallel] counts are the processes in it, if other programs keep away from its names and pids are not
      reused while a file is left ([orderly] of MrTiming).
    - The network executes a call at most once, cuts off disabled ends, never lets a deleted server answer,
      and returns the reply of a reliable call.  The gob checks visit every part of a type once and end.  The
      clerks return only what an owner of the shard said, and return once the system is stable (the masters agree
      on one configuration, and no server of the owning group refuses).

    ** Bounds and fuel

    Loops that are not structural take fuel, and totality theorems say how much is enough: [check_cost] in
    PorcCheck (the number of search nodes of a history), the length of the list or queue in [length_list],
    [remove_loop], [timeout_loop], [decode_loop] and [reduce_loop], one call per task and one more in
    [Worker], 6 and NReduce + 5 accesses in a call of [AskTask] and [TaskDone] ([bound]), the number of types in
    [check_fuel].  The testers' loops are bounded in the code (10 rounds in
    [checkOneLeader], 30 in [wait]) or by the clock: [one] gives up after ten seconds and its turns
    sleep, which makes 614 turns enough; mrmaster's loop ([poll]) ends with the turn that finds the job done.  The retry loops of the clerks run for ever by design: their
    fuel is a number of rounds.  Go's [int] is 64 bits; terms and counters wrap around where the code adds
    to them without a bound, and the invariants of Raft assume terms below 2^63-1 ([terms_small], [terms_below]).

    ** What is assumed and what is left out

    - A slice is the list of its elements: [go_slice] checks the upper bound against the length where Go
      allows up to the capacity, and aliasing of backing arrays is not modelled; in particular the entries
      handed to Raft's apply goroutine are a copy.
    - A critical section is one step; what raft.go reads outside its lock ([rf.me], [rf.peers]) is never
      written.
    - encoding/gob and encoding/json are interfaces with round-trip laws ([CodecLaws], [RpcCodecLaws],
      [JsonLaws]);
      sort.Sort permutes and orders, and is not stable ([SortLaws], [sorts_byTime]); sort.Slice and a range
      over a map permute; unicode tables, fmt of arbitrary values and strings.FieldsFunc are parameters.
      Concrete instances show that the laws can hold.
    - A test connects only servers that run ([allowed]); connecting a crashed one would enable its old ends.
    - [TaskQueue.Size] reads a length without the lock; here it is an access like those under the lock.  The work of
      a worker on the files of one task is one step.
    - What a crashed server may still send on its old apply channel is not read in RaftStackCheck.
    - JavaScript's numbers are exact rationals or NaN: timestamps, which the script averages once, are not rounded
      to 53 bits.  The width of a text is a parameter, as is the text of a number.
    - In the testers the clock, random numbers and what other goroutines answer are arguments.
    - File operations of the workers succeed, except that opening a missing file is fatal, as in the code.
    - Not modelled: the markup and the style sheet of the page and the four functions of its script that hand
      attributes to the browser, the statistics the testers print, and the seeding of math/rand.

    ** What could come next

    Progress of a tester's [one] against a cluster whose leader stays; the messages that crashed servers still send.
    What is left of the sources besides is imports, comments, markup and printing. *)

From stdpp Require Import base list gmap strings fin_maps sorting.
From Stdlib Require Import ZArith Lia.

Open Scope Z_scope.

(** ** Outcomes of a Go function

    A Go function returns, or stops the goroutine with a run-time panic (index out of range, nil
    dereference, an explicit [panic]) or the process with [log.Fatalf].  [res] keeps the reason. *)

Inductive go_error :=
  | EIndex                 (* index or slice bounds out of range *)
  | ENil                   (* nil pointer dereference *)
  | EPanic (msg : string)  (* panic(msg) *)
  | EFatal (msg : string)  (* log.Fatalf(msg) *).

#[export] Instance go_error_eq_dec : EqDecision go_error.
Proof. solve_decision. Defined.

Inductive res (A : Type) :=
  | Val (a : A)
  | Err (e : go_error).
Arguments Val {A} _.
Arguments Err {A} _.

#[export] Instance res_ret : MRet res := fun _ a => Val a.
#[export] Instance res_bind : MBind res :=
  fun _ _ f m => match m with Val a => f a | Err e => Err e end.
#[export] Instance res_fmap : FMap res :=
  fun _ _ f m => match m with Val a => Val (f a) | Err e => Err e end.

Definition is_val {A} (m : res A) : bool := match m with Val _ => true | Err _ => false end.

(** The value, or [d] after a panic *)
Definition val_or {A} (d : A) (r : res A) : A := match r with Val a => a | Err _ => d end.

Lemma is_val_or {A} (r : res A) (d : A) : is_val r = true -> r = Val (val_or d r).
Proof. by destruct r. Qed.

Lemma bind_val {A B} (m : res A) (f : A -> res B) b :
  m ≫= f = Val b <-> exists a, m = Val a /\ f a = Val b.
Proof. destruct m; simpl; split; [eauto | intros (? & [= ->] & ?); done | done | naive_solver]. Qed.

Definition of_option {A} (e : go_error) (o : option A) : res A :=
  match o with Some a => Val a | None => Err e end.

Lemma of_option_val {A} e (o : option A) a : of_option e o = Val a <-> o = Some a.
Proof. destruct o; simpl; split; congruence. Qed.

(** [inv_res] opens every successful bind among the hypotheses. *)
Ltac inv_res :=
  repeat match goal with
  | H : _ ≫= _ = Val _ |- _ =>
      let a := fresh "a" in let Ha := fresh "Ha" in
      apply bind_val in H; destruct H as (a & Ha & H)
  | H : mret _ = Val _ |- _ => unfold mret, res_ret in H
  | H : Val _ = Val _ |- _ => injection H as H; try subst
  | H : Err _ = Val _ |- _ => discriminate H
  | H : Val _ = Err _ |- _ => discriminate H
  | H : of_option _ _ = Val _ |- _ => apply of_option_val in H
  end.

(** ** Machine integers *)

Definition two64 : Z := 2 ^ 64.
Definition min_int : Z := - 2 ^ 63.
Definition max_int : Z := 2 ^ 63 - 1.

(** Two's complement wrap-around of Go's [int] (64 bits on the platforms the labs run on). *)
Definition wrap64 (z : Z) : Z := (z + 2 ^ 63) mod two64 - 2 ^ 63.

Lemma wrap64_small z : min_int <= z <= max_int -> wrap64 z = z.
Proof. unfold wrap64, min_int, max_int, two64. intros. rewrite Z.mod_small; lia. Qed.

Lemma wrap64_range z : min_int <= wrap64 z <= max_int.
Proof.
  unfold wrap64, min_int, max_int, two64.
  pose proof (Z.mod_pos_bound (z + 2 ^ 63) (2 ^ 64) ltac:(lia)). lia.
Qed.

Lemma wrap64_le z : min_int <= z -> wrap64 z <= z.
Proof.
  unfold wrap64, min_int, two64. intros Hz.
  pose proof (Z.mod_le (z + 2 ^ 63) (2 ^ 64) ltac:(lia) ltac:(lia)). lia.
Qed.

(** ... and of [int32]. *)
Definition wrap32 (z : Z) : Z := (z + 2 ^ 31) mod 2 ^ 32 - 2 ^ 31.

(** ** Slices

    A Go slice is modelled by the list of its elements; an [int] index is a [Z].  Reading or
    writing outside the bounds panics. *)

Definition len {A} (l : list A) : Z := Z.of_nat (length l).

Definition go_index {A} (l : list A) (i : Z) : res A :=
  if 0 <=? i then of_option EIndex (l !! Z.to_nat i) else Err EIndex.

Definition go_update {A} (l : list A) (i : Z) (x : A) : res (list A) :=
  if (0 <=? i) && (i <? len l) then Val (<[Z.to_nat i := x]> l) else Err EIndex.

(** [l[a:b]] *)
Definition go_slice {A} (l : list A) (a b : Z) : res (list A) :=
  if (0 <=? a) && (a <=? b) && (b <=? len l)
  then Val (take (Z.to_nat (b - a)) (drop (Z.to_nat a) l)) else Err EIndex.

Lemma len_nonneg {A} (l : list A) : 0 <= len l.
Proof. unfold len. lia. Qed.

Lemma len_app {A} (l k : list A) : len (l ++ k) = len l + len k.
Proof. unfold len. rewrite length_app. lia. Qed.

Lemma go_index_val {A} (l : list A) i x :
  go_index l i = Val x <-> 0 <= i /\ l !! Z.to_nat i = Some x.
Proof.
  unfold go_index. destruct (Z.leb_spec 0 i); [|split; [done|lia]].
  rewrite of_option_val. naive_solver.
Qed.

Lemma go_index_nat {A} (l : list A) (i : nat) x :
  l !! i = Some x -> go_index l (Z.of_nat i) = Val x.
Proof. intros. apply go_index_val. rewrite Nat2Z.id. split; [lia|done]. Qed.

Lemma go_index_in_range {A} (l : list A) i :
  0 <= i < len l -> exists x, go_index l i = Val x.
Proof.
  intros [H1 H2]. unfold len in H2.
  destruct (lookup_lt_is_Some_2 l (Z.to_nat i)) as [x Hx]; [lia|].
  exists x. apply go_index_val. auto.
Qed.

Lemma go_index_bounds {A} (l : list A) i x : go_index l i = Val x -> 0 <= i < len l.
Proof.
  rewrite go_index_val. intros [H1 H2]. apply lookup_lt_Some in H2. unfold len. lia.
Qed.

Lemma go_index_of_nat {A} (l : list A) i x : go_index l (Z.of_nat i) = Val x <-> l !! i = Some x.
Proof. rewrite go_index_val, Nat2Z.id. naive_solver lia. Qed.

Lemma go_update_val {A} (l : list A) i x l' :
  go_update l i x = Val l' <-> 0 <= i < len l /\ l' = <[Z.to_nat i := x]> l.
Proof.
  unfold go_update.
  destruct (Z.leb_spec 0 i), (Z.ltb_spec i (len l)); simpl; naive_solver lia.
Qed.

Lemma go_slice_val {A} (l : list A) a b l' :
  go_slice l a b = Val l' <->
  0 <= a /\ a <= b /\ b <= len l /\ l' = take (Z.to_nat (b - a)) (drop (Z.to_nat a) l).
Proof.
  unfold go_slice.
  destruct (Z.leb_spec 0 a), (Z.leb_spec a b), (Z.leb_spec b (len l)); simpl; naive_solver lia.
Qed.

(** ** Lists *)

Lemma filter_all {A} (P : A -> Prop) `{forall x, Decision (P x)} (l : list A) :
  (forall x, x ∈ l -> P x) -> filter P l = l.
Proof.
  induction l as [|x l IH]; intros HP; [done|].
  rewrite filter_cons_True by (apply HP; set_solver). f_equal. apply IH. set_solver.
Qed.

Lemma filter_none {A} (P : A -> Prop) `{forall x, Decision (P x)} (l : list A) :
  (forall x, x ∈ l -> ~ P x) -> filter P l = [].
Proof.
  induction l as [|x l IH]; intros HP; [done|].
  rewrite filter_cons_False by (apply HP; set_solver). apply IH. set_solver.
Qed.

(** A loop that builds one value per index *)
Lemma mapM_seq_val {A} (f : nat -> res A) (P : nat -> A -> Prop) k m xs :
  (forall i x, (k <= i < k + m)%nat -> f i = Val x -> P i x) ->
  mapM f (seq k m) = Val xs ->
  length xs = m /\ forall i x, xs !! i = Some x -> P (k + i)%nat x.
Proof.
  revert k xs. induction m as [|m IH]; intros k xs HP; simpl; [by intros [= <-]|].
  intros (x & Hx & (xs' & Hxs' & [= <-])%bind_val)%bind_val.
  destruct (IH (S k) xs') as [Hlen Hall]; [intros; apply HP; [lia|done]|done|].
  split; [simpl; lia|]. intros [|i] y; simpl.
  - intros [= <-]. rewrite Nat.add_0_r. apply HP; [lia|done].
  - intros Hi. replace (k + S i)%nat with (S k + i)%nat by lia. by apply Hall.
Qed.

(** A loop over a list none of whose turns panics *)
Lemma mapM_val {A B} (f : A -> res B) (l : list A) :
  (forall x, x ∈ l -> exists y, f x = Val y) ->
  exists ys, mapM f l = Val ys /\ Forall2 (fun x y => f x = Val y) l ys.
Proof.
  induction l as [|x l IH]; intros Hl; simpl; [by exists []|].
  destruct (Hl x) as [y Hy]; [set_solver|]. destruct IH as (ys & Hys & HF); [intros; apply Hl; set_solver|].
  exists (y :: ys). rewrite Hy. simpl. rewrite Hys. split; [done|]. by constructor.
Qed.

Lemma mapM_val_inv {A B} (f : A -> res B) (l : list A) ys : mapM f l = Val ys -> Forall2 (fun x y => f x = Val y) l ys.
Proof.
  revert ys. induction l as [|x l IH]; intros ys; simpl; [by intros [= <-]|].
  intros (y & Hy & (ys' & Hys & [= <-])%bind_val)%bind_val. constructor; auto.
Qed.

(** ** Loops *)

(** [for j := i; j < i+m; j++ { f }] *)
Fixpoint go_for {A} (i m : nat) (f : nat -> A -> res A) (a : A) : res A :=
  match m with
  | O => mret a
  | S m' => a' ← f i a; go_for (S i) m' f a'
  end.

Lemma go_for_inv {A} (P : nat -> A -> Prop) i m f a a' :
  P i a -> (forall j x x', (i <= j < i + m)%nat -> P j x -> f j x = Val x' -> P (S j) x') ->
  go_for i m f a = Val a' -> P (i + m)%nat a'.
Proof.
  revert i a. induction m as [|m IH]; intros i a Ha Hf; simpl.
  - intros [= <-]. by rewrite Nat.add_0_r.
  - intros (a1 & Ha1 & Hr)%bind_val. replace (i + S m)%nat with (S i + m)%nat by lia.
    eapply IH; [| |exact Hr]; [eapply (Hf i); [lia|done|done]|]. intros j x x' Hj. apply Hf. lia.
Qed.

(** ... in which no turn fails *)
Lemma go_for_total {A} (P : nat -> A -> Prop) i m f a :
  P i a -> (forall j x, (i <= j < i + m)%nat -> P j x -> exists x', f j x = Val x' /\ P (S j) x') ->
  exists a', go_for i m f a = Val a' /\ P (i + m)%nat a'.
Proof.
  revert i a. induction m as [|m IH]; intros i a Ha Hf; simpl.
  - exists a. by rewrite Nat.add_0_r.
  - destruct (Hf i a) as (a1 & -> & Ha1); [lia|done|]. simpl. replace (i + S m)%nat with (S i + m)%nat by lia.
    apply IH; [done|]. intros j x Hj. apply Hf. lia.
Qed.

Create HintDb go.
#[export] Hint Resolve len_nonneg : go.
