(* ===== verification/Strconv.v ===== *)
(** * Numbers as text (what the programs use of Go's strconv and fmt)

    [ParseInt], [Atoi] and [ParseBool] of strconv, with the values they return beside an error, which the
    callers of main/diskvd.go use, and the part of fmt.Sscanf that reads one integer behind a literal, as
    the timing applications use it.  Strings are sequences of bytes; of the spaces that Sscanf skips,
    those of ASCII are modelled. *)

From stdpp Require Import base list strings pretty.
From Stdlib Require Import ZArith Lia Ascii.
From S2P Require Import Prelude.

Open Scope Z_scope.

Module Strconv.

Inductive num_error := ErrSyntax | ErrRange.

(** The value of a decimal digit *)
Definition digit (c : ascii) : option Z :=
  let n := Z.of_N (N_of_ascii c) in
  if (48 <=? n) && (n <=? 57) then Some (n - 48) else None.

Definition max_uint64 : Z := 2 ^ 64 - 1.

(** The loop of [ParseUint], base 10 and 64 bits: [n] is what has been read. *)
Fixpoint uint_loop (s : string) (n : Z) : Z * option num_error :=
  match s with
  | EmptyString => (n, None)
  | String c s' =>
      match digit c with
      | None => (0, Some ErrSyntax)
      | Some d =>
          if max_uint64 / 10 + 1 <=? n then (max_uint64, Some ErrRange)
          else if max_uint64 <? n * 10 + d then (max_uint64, Some ErrRange)
          else uint_loop s' (n * 10 + d)
      end
  end.

Definition ParseUint (s : string) : Z * option num_error :=
  match s with EmptyString => (0, Some ErrSyntax) | _ => uint_loop s 0 end.

(** The sign of a number and what follows it *)
Definition split_sign (s : string) : bool * string :=
  match s with
  | String "+" s' => (false, s')
  | String "-" s' => (true, s')
  | _ => (false, s)
  end.

(** strconv.ParseInt(s, 10, 64) *)
Definition ParseInt (s : string) : Z * option num_error :=
  match s with
  | EmptyString => (0, Some ErrSyntax)
  | _ =>
      let '(neg, s') := split_sign s in
      match ParseUint s' with
      | (_, Some ErrSyntax) => (0, Some ErrSyntax)
      | (un, _) =>
          if negb neg && (2 ^ 63 <=? un) then (max_int, Some ErrRange)
          else if neg && (2 ^ 63 <? un) then (min_int, Some ErrRange)
          else (if neg then - un else un, None)
      end
  end.

(** strconv.Atoi, which is ParseInt(s, 10, 0) converted to [int] *)
Definition Atoi (s : string) : Z * option num_error := ParseInt s.

Definition ParseBool (s : string) : bool * option num_error :=
  if bool_decide (s ∈ ["1"; "t"; "T"; "true"; "TRUE"; "True"]) then (true, None)
  else if bool_decide (s ∈ ["0"; "f"; "F"; "false"; "FALSE"; "False"]) then (false, None)
  else (false, Some ErrSyntax).

(** ** Sscanf with a literal and one integer *)

(** The input behind the literal *)
Fixpoint strip_prefix (pre s : string) : option string :=
  match pre, s with
  | EmptyString, _ => Some s
  | String a pre', String b s' => if Ascii.eqb a b then strip_prefix pre' s' else None
  | String _ _, EmptyString => None
  end.

Definition is_blank (c : ascii) : bool :=
  let n := N_of_ascii c in ((n =? 9) || (n =? 11) || (n =? 12) || (n =? 13) || (n =? 32))%N.

(** [SkipSpace]; a newline is an error. *)
Fixpoint skip_space (s : string) : option string :=
  match s with
  | EmptyString => Some EmptyString
  | String c s' =>
      if (N_of_ascii c =? 10)%N then None
      else if is_blank c then skip_space s'
      else Some s
  end.

(** The longest sequence of digits at the front *)
Fixpoint take_digits (s : string) : string :=
  match s with
  | EmptyString => EmptyString
  | String c s' => match digit c with Some _ => String c (take_digits s') | None => EmptyString end
  end.

(** The token of an integer: a sign, if any, and digits *)
Definition int_token (s : string) : string :=
  match s with
  | String "+" s' => String "+" (take_digits s')
  | String "-" s' => String "-" (take_digits s')
  | _ => take_digits s
  end.

(** [n, err := fmt.Sscanf(s, lit + "%d", &x)]: [Some x] if [n == 1 && err == nil].  What follows the
    number is not looked at. *)
Definition Sscanf_d (lit s : string) : option Z :=
  s1 ← strip_prefix lit s;
  s2 ← skip_space s1;
  match ParseInt (int_token s2) with
  | (x, None) => Some x
  | _ => None
  end.

(** ** Reading what has been printed *)

Fixpoint all_digits (s : string) : bool :=
  match s with EmptyString => true | String c s' => bool_decide (is_Some (digit c)) && all_digits s' end.

Lemma digit_char d : (d < 10)%N -> digit (pretty_N_char d) = Some (Z.of_N d).
Proof.
  intros Hd. assert (d = 0 \/ d = 1 \/ d = 2 \/ d = 3 \/ d = 4 \/ d = 5 \/ d = 6 \/ d = 7 \/ d = 8 \/ d = 9)%N
    as Hc by lia. repeat (destruct Hc as [->|Hc]; [reflexivity|]). by subst d.
Qed.

(** A printed number as the digits in front of it and its last digit *)
Lemma pretty_go_ind (P : N -> string -> Prop) :
  (forall s, P 0%N s) ->
  (forall x s, (0 < x)%N -> P (x `div` 10)%N (String (pretty_N_char (x `mod` 10)) s) -> P x s) ->
  forall x s, P x s.
Proof.
  intros H0 HS x. induction (N.lt_wf_0 x) as [x _ IH]. intros s.
  destruct (decide (x = 0%N)) as [->|Hx]; [apply H0|]. apply HS; [lia|]. apply IH. apply N.div_lt; lia.
Qed.

Lemma uint_pretty_go x s :
  Z.of_N x <= max_uint64 -> uint_loop (pretty_N_go x s) 0 = uint_loop s (Z.of_N x).
Proof.
  revert x s. refine (pretty_go_ind _ _ _); [by intros s _; rewrite pretty_N_go_0|].
  intros x s Hx IH Hm. rewrite pretty_N_go_step by done.
  assert (Z.of_N (x `div` 10) = Z.of_N x `div` 10) as Hd by apply N2Z.inj_div.
  assert (Z.of_N (x `mod` 10) = Z.of_N x `mod` 10) as Hr by apply N2Z.inj_mod.
  pose proof (Z.div_mod (Z.of_N x) 10 ltac:(lia)) as Hdm. pose proof (Z.mod_pos_bound (Z.of_N x) 10 ltac:(lia)) as Hb.
  unfold max_uint64 in *. rewrite IH by (rewrite Hd; lia). simpl. rewrite digit_char by (apply N.mod_lt; lia).
  rewrite Hd, Hr. unfold max_uint64. change ((2 ^ 64 - 1) / 10 + 1) with 1844674407370955162.
  destruct (Z.leb_spec 1844674407370955162 (Z.of_N x `div` 10)); [lia|].
  destruct (Z.ltb_spec (2 ^ 64 - 1) (Z.of_N x `div` 10 * 10 + Z.of_N x `mod` 10)); [lia|]. f_equal. lia.
Qed.

Lemma digits_pretty_go x s : all_digits s = true -> all_digits (pretty_N_go x s) = true.
Proof.
  revert x s. refine (pretty_go_ind _ _ _); [by intros s; rewrite pretty_N_go_0|].
  intros x s Hx IH Hs. rewrite pretty_N_go_step by done. apply IH. simpl.
  rewrite digit_char by (apply N.mod_lt; lia). by rewrite bool_decide_eq_true_2.
Qed.

Lemma pretty_go_nonempty x s : (0 < x)%N \/ s <> EmptyString -> pretty_N_go x s <> EmptyString.
Proof.
  revert x s. refine (pretty_go_ind _ _ _); [intros s [?|?]; [lia|by rewrite pretty_N_go_0]|].
  intros x s Hx IH _. rewrite pretty_N_go_step by done. apply IH. by right.
Qed.

Lemma pretty_N_digits (x : N) : all_digits (pretty x) = true.
Proof. unfold pretty, pretty_N. destruct (decide _); [done|]. by apply digits_pretty_go. Qed.

Lemma pretty_N_nonempty (x : N) : pretty x <> EmptyString.
Proof. unfold pretty, pretty_N. destruct (decide _); [done|]. apply pretty_go_nonempty. left. lia. Qed.

Lemma ParseUint_pretty (x : N) : Z.of_N x <= max_uint64 -> ParseUint (pretty x) = (Z.of_N x, None).
Proof.
  intros Hx. assert (uint_loop (pretty x) 0 = (Z.of_N x, None)) as E.
  { unfold pretty, pretty_N. destruct (decide _) as [->|]; [done|]. by rewrite uint_pretty_go. }
  unfold ParseUint. destruct (pretty x) eqn:Ep; [by destruct (pretty_N_nonempty x)|exact E].
Qed.

(** Digits do not begin with a sign. *)
Lemma split_sign_digits s : all_digits s = true -> split_sign s = (false, s).
Proof.
  destruct s as [|c s]; [done|]. simpl. intros [Hc%bool_decide_eq_true _]%andb_true_iff.
  destruct c as [[] [] [] [] [] [] [] []]; try reflexivity; by destruct Hc.
Qed.

Lemma int_token_digits s : all_digits s = true -> int_token s = take_digits s.
Proof.
  destruct s as [|c s]; [done|]. simpl. intros [Hc%bool_decide_eq_true _]%andb_true_iff.
  destruct c as [[] [] [] [] [] [] [] []]; try reflexivity; by destruct Hc.
Qed.

Lemma take_digits_all s : all_digits s = true -> take_digits s = s.
Proof.
  induction s as [|c s IH]; [done|]. simpl. intros [Hc%bool_decide_eq_true Hs]%andb_true_iff.
  destruct Hc as [d ->]. by rewrite IH.
Qed.

Lemma skip_space_digits s : all_digits s = true -> skip_space s = Some s.
Proof.
  destruct s as [|c s]; [done|]. simpl. intros [Hc%bool_decide_eq_true _]%andb_true_iff.
  destruct c as [[] [] [] [] [] [] [] []]; try reflexivity; by destruct Hc.
Qed.

(** What Itoa prints, ParseInt reads. *)
Lemma ParseInt_pretty z : min_int <= z <= max_int -> ParseInt (pretty z) = (z, None).
Proof.
  unfold min_int, max_int. intros Hz. destruct z as [|p|p]; [reflexivity| |].
  - change (pretty (Z.pos p)) with (pretty (N.pos p)). unfold ParseInt.
    rewrite split_sign_digits by apply pretty_N_digits. rewrite ParseUint_pretty by (unfold max_uint64; lia).
    destruct (pretty (N.pos p)) eqn:Ep; [by destruct (pretty_N_nonempty (N.pos p))|]. simpl.
    destruct (Z.leb_spec (2 ^ 63) (Z.pos p)); [lia|done].
  - change (pretty (Z.neg p)) with (String "-" (pretty (N.pos p))). unfold ParseInt, split_sign.
    rewrite ParseUint_pretty by (unfold max_uint64; lia). simpl.
    destruct (Z.ltb_spec (2 ^ 63) (Z.pos p)); [lia|done].
Qed.

Lemma strip_prefix_app pre s : strip_prefix pre (pre +:+ s) = Some s.
Proof.
  induction pre as [|c pre IH]; [done|].
  change (String c pre +:+ s) with (String c (pre +:+ s)). simpl. by rewrite Ascii.eqb_refl.
Qed.

Lemma strip_prefix_Some pre s r : strip_prefix pre s = Some r -> s = pre +:+ r.
Proof.
  revert s. induction pre as [|c pre IH]; intros s; simpl; [by intros [= ->]|].
  destruct s as [|b s]; [done|]. destruct (Ascii.eqb_spec c b) as [->|]; [|done]. intros ->%IH. reflexivity.
Qed.

(** A printed number is read back behind any literal. *)
Lemma Sscanf_pretty lit z : 0 <= z <= max_int -> Sscanf_d lit (lit +:+ pretty z) = Some z.
Proof.
  intros Hz. unfold Sscanf_d. rewrite strip_prefix_app. simpl.
  assert (exists x : N, pretty z = pretty x) as [x Hx].
  { destruct z as [|p|p]; [by exists 0%N|by exists (N.pos p)|lia]. }
  pose proof (ParseInt_pretty z ltac:(unfold min_int; lia)) as HP. rewrite Hx in *.
  rewrite skip_space_digits by apply pretty_N_digits. simpl.
  by rewrite int_token_digits, take_digits_all, HP by apply pretty_N_digits.
Qed.

End Strconv.
