(* ===== verification/Bitset.v ===== *)
(** * The bit sets of the linearizability checker (porcupine/bitset.go)

    A [bitset] is a slice of [uint64] words: bits 0-63 are in word 0, the next ones in word 1, and
    so on.  The operations below are the methods of the Go type; [holds] relates a bitset to the
    finite set of positions it stands for, and the theorems say that every operation implements
    the set operation of that name. *)

From stdpp Require Import base list gmap.
From Stdlib Require Import ZArith Lia.
From S2P Require Import Prelude.

Open Scope Z_scope.

Module Bitset.

Notation bitset := (list Z) (only parsing).

Definition newBitset (bits : Z) : bitset :=
  let extra := if negb (bits mod 64 =? 0) then 1 else 0 in
  let chunks := bits / 64 + extra in
  replicate (Z.to_nat chunks) 0.

Definition clone (b : bitset) : bitset := b.

Definition bitsetIndex (pos : Z) : Z * Z := (pos / 64, pos mod 64).

(** [1 << minor] at 64 bits. *)
Definition shl1 (minor : Z) : Z := Z.shiftl 1 minor mod two64.

Definition set (b : bitset) (pos : Z) : res bitset :=
  let '(major, minor) := bitsetIndex pos in
  w ← go_index b major;
  go_update b major (Z.lor w (shl1 minor)).

Definition clear (b : bitset) (pos : Z) : res bitset :=
  let '(major, minor) := bitsetIndex pos in
  w ← go_index b major;
  go_update b major (Z.ldiff w (shl1 minor)).

Definition get (b : bitset) (pos : Z) : res bool :=
  let '(major, minor) := bitsetIndex pos in
  w ← go_index b major;
  mret (negb (Z.land w (shl1 minor) =? 0)).

(** [bits.OnesCount64] *)
Definition word_bits (w : Z) : list nat :=
  filter (fun i : nat => Z.testbit w (Z.of_nat i) = true) (seq 0 64).

Definition OnesCount64 (w : Z) : Z := Z.of_nat (length (word_bits w)).

Definition popcnt (b : bitset) : Z :=
  foldl (fun total v => wrap64 (total + OnesCount64 v)) 0 b mod two64.

Definition hash (b : bitset) : Z :=
  foldl (fun h v => Z.lxor h v) (popcnt b) b.

Fixpoint equals_loop (b b2 : bitset) (i n : nat) : res bool :=
  match n with
  | O => mret true
  | S n' =>
      x ← go_index b (Z.of_nat i);
      y ← go_index b2 (Z.of_nat i);
      if negb (x =? y) then mret false else equals_loop b b2 (S i) n'
  end.

Definition equals (b b2 : bitset) : res bool :=
  if negb (len b =? len b2) then mret false else equals_loop b b2 0 (length b).

(** ** The set a bitset stands for *)

Definition word_ok (w : Z) : Prop := 0 <= w < two64.

Definition bit (b : bitset) (pos : Z) : bool :=
  Z.testbit (default 0 (b !! Z.to_nat (pos / 64))) (pos mod 64).

(** [holds n S b]: [b] has the capacity [newBitset n] allocates, its words are 64 bits wide, and its
    bits are exactly the positions of [S]. *)
Record holds (n : Z) (S : gset Z) (b : bitset) : Prop := {
  holds_len : len b = len (newBitset n);
  holds_words : Forall word_ok b;
  holds_bit : forall pos, 0 <= pos -> bit b pos = bool_decide (pos ∈ S);
  holds_dom : forall pos, pos ∈ S -> 0 <= pos < n }.

(** ** Words *)

Lemma word_bits_high w i : word_ok w -> 64 <= i -> Z.testbit w i = false.
Proof.
  intros [H1 H2] Hi. unfold two64 in H2.
  destruct (Z.eq_dec w 0) as [->|]; [apply Z.bits_0|].
  apply Z.bits_above_log2; [lia|].
  apply Z.log2_lt_pow2 in H2; lia.
Qed.

Lemma word_ok_bits w : 0 <= w -> (forall i, 64 <= i -> Z.testbit w i = false) -> word_ok w.
Proof.
  intros Hw Hb.
  assert (w = w mod 2 ^ 64) as ->; [|unfold word_ok, two64; apply Z.mod_pos_bound; lia].
  apply Z.bits_inj'. intros i Hi. destruct (decide (i < 64)).
  - by rewrite Z.mod_pow2_bits_low.
  - rewrite Z.mod_pow2_bits_high by lia. apply Hb. lia.
Qed.

Lemma shl1_spec minor : 0 <= minor < 64 -> shl1 minor = 2 ^ minor.
Proof.
  intros Hm. unfold shl1, two64. rewrite Z.shiftl_mul_pow2, Z.mul_1_l by lia.
  apply Z.mod_small. split; [lia|]. apply Z.pow_lt_mono_r; lia.
Qed.

Lemma testbit_pow2 m i : 0 <= m -> 0 <= i -> Z.testbit (2 ^ m) i = bool_decide (i = m).
Proof.
  intros. case_bool_decide; subst.
  - by apply Z.pow2_bits_true.
  - by apply Z.pow2_bits_false.
Qed.

Lemma lor_pow2_ok w m : word_ok w -> 0 <= m < 64 -> word_ok (Z.lor w (2 ^ m)).
Proof.
  intros Hw Hm. apply word_ok_bits.
  - apply Z.lor_nonneg. destruct Hw. split; [lia|]. lia.
  - intros i Hi. rewrite Z.lor_spec, (word_bits_high w i), testbit_pow2 by (done || lia).
    by rewrite bool_decide_eq_false_2 by lia.
Qed.

Lemma ldiff_pow2_ok w m : word_ok w -> 0 <= m < 64 -> word_ok (Z.ldiff w (2 ^ m)).
Proof.
  intros Hw Hm. apply word_ok_bits.
  - apply Z.ldiff_nonneg. left. by destruct Hw.
  - intros i Hi. by rewrite Z.ldiff_spec, (word_bits_high w i).
Qed.

Lemma land_pow2_nonzero w m : 0 <= m -> (Z.land w (2 ^ m) =? 0) = negb (Z.testbit w m).
Proof.
  intros Hm. destruct (Z.testbit w m) eqn:E; simpl.
  - apply Z.eqb_neq. intros H0. apply (f_equal (fun z => Z.testbit z m)) in H0.
    rewrite Z.land_spec, E, testbit_pow2, Z.bits_0, bool_decide_eq_true_2 in H0 by done. done.
  - apply Z.eqb_eq. apply Z.bits_inj'. intros i Hi.
    rewrite Z.land_spec, testbit_pow2, Z.bits_0 by done.
    case_bool_decide; subst; [by rewrite E|apply andb_false_r].
Qed.

(** Splitting a position into word and bit is injective. *)
Lemma pos_split p q :
  0 <= p -> 0 <= q -> p / 64 = q / 64 -> p mod 64 = q mod 64 -> p = q.
Proof. intros. rewrite (Z.div_mod p 64), (Z.div_mod q 64) by lia. congruence. Qed.

Lemma newBitset_len n : 0 <= n -> len (newBitset n) = (n + 63) / 64.
Proof.
  intros Hn. unfold newBitset, len. rewrite length_replicate.
  pose proof (Z.div_mod n 64 ltac:(lia)) as Hd.
  pose proof (Z.mod_pos_bound n 64 ltac:(lia)) as Hb.
  assert (0 <= n / 64) by (apply Z.div_pos; lia).
  destruct (Z.eqb_spec (n mod 64) 0) as [E|E]; simpl.
  - rewrite Z2Nat.id by lia. apply Z.div_unique with (r := 63); lia.
  - rewrite Z2Nat.id by lia.
    apply Z.div_unique with (r := n mod 64 - 1); lia.
Qed.

Lemma major_in_range n (b : bitset) pos :
  0 <= pos < n -> len b = len (newBitset n) -> 0 <= pos / 64 < len b.
Proof.
  intros Hp ->. rewrite newBitset_len by lia. split; [apply Z.div_pos; lia|].
  apply Z.div_lt_upper_bound; [lia|].
  pose proof (Z.div_mod (n + 63) 64 ltac:(lia)).
  pose proof (Z.mod_pos_bound (n + 63) 64 ltac:(lia)). lia.
Qed.

(** One word of a bitset is replaced: the other positions keep their bits. *)
Lemma bit_insert (b : bitset) pos w q :
  0 <= pos -> 0 <= q -> pos / 64 < len b ->
  bit (<[Z.to_nat (pos / 64) := w]> b) q =
  if decide (q / 64 = pos / 64) then Z.testbit w (q mod 64) else bit b q.
Proof.
  intros Hp Hq Hlen. unfold bit.
  pose proof (Z.div_pos pos 64 Hp ltac:(lia)). pose proof (Z.div_pos q 64 Hq ltac:(lia)).
  unfold len in Hlen. destruct (decide (q / 64 = pos / 64)) as [->|Hne].
  - rewrite list_lookup_insert_eq by lia. done.
  - rewrite list_lookup_insert_ne by lia. done.
Qed.

(** Writing bit [pos] through [f] (set it, clear it) changes that position alone. *)
Lemma write_bit n S (b : bitset) pos (f : Z -> Z) v S' :
  holds n S b -> 0 <= pos < n ->
  (forall w, word_ok w -> word_ok (f w)) ->
  (forall w i, 0 <= i < 64 ->
     Z.testbit (f w) i = if decide (i = pos mod 64) then v else Z.testbit w i) ->
  (forall q, q ∈ S' <-> if decide (q = pos) then v = true else q ∈ S) ->
  exists w b',
    go_index b (pos / 64) = Val w /\ go_update b (pos / 64) (f w) = Val b' /\ holds n S' b'.
Proof.
  intros [Hlen Hw Hbit Hdom] Hp Hok Hf HS.
  pose proof (major_in_range n b pos Hp Hlen) as Hmaj.
  destruct (go_index_in_range b (pos / 64) Hmaj) as [w Hgw].
  exists w, (<[Z.to_nat (pos / 64) := f w]> b).
  split; [done|]. split; [apply go_update_val; done|].
  apply go_index_val in Hgw as [_ Hgw].
  constructor.
  - unfold len in *. by rewrite length_insert.
  - apply Forall_insert; [done|]. apply Hok. by eapply Forall_lookup_1 in Hw.
  - intros q Hq. rewrite bit_insert by lia.
    destruct (decide (q / 64 = pos / 64)) as [E|E].
    + rewrite Hf by (apply Z.mod_pos_bound; lia). destruct (decide (q mod 64 = pos mod 64)) as [E'|E'].
      * assert (q = pos) as -> by (apply pos_split; lia).
        specialize (HS pos). rewrite decide_True in HS by done.
        destruct v; case_bool_decide; naive_solver.
      * assert (q <> pos) by congruence.
        specialize (HS q). rewrite decide_False in HS by done.
        rewrite <- (bool_decide_ext _ _ (symmetry HS)).
        rewrite <- Hbit by done. unfold bit. by rewrite E, Hgw.
    + assert (q <> pos) by congruence. rewrite Hbit by done.
      apply bool_decide_ext. specialize (HS q). rewrite decide_False in HS by done. by rewrite HS.
  - intros q Hq. apply HS in Hq. destruct (decide (q = pos)); [by subst|auto].
Qed.

(** ** The operations implement the set operations *)

Lemma holds_new n : 0 <= n -> holds n ∅ (newBitset n).
Proof.
  intros Hn. constructor.
  - done.
  - apply Forall_forall. intros w Hw. apply elem_of_replicate in Hw as [-> _].
    unfold word_ok, two64. lia.
  - intros pos Hp. unfold bit, newBitset.
    rewrite bool_decide_eq_false_2 by set_solver.
    destruct (replicate _ 0 !! _) as [w|] eqn:E; simpl; [|apply Z.bits_0].
    apply lookup_replicate in E as [-> _]. apply Z.bits_0.
  - set_solver.
Qed.

Lemma holds_set n S b pos :
  holds n S b -> 0 <= pos < n -> exists b', set b pos = Val b' /\ holds n ({[pos]} ∪ S) b'.
Proof.
  intros Hb Hp. pose proof (Z.mod_pos_bound pos 64 ltac:(lia)) as Hm.
  edestruct (write_bit n S b pos (fun w => Z.lor w (shl1 (pos mod 64))) true ({[pos]} ∪ S))
    as (w & b' & Hw & Hb' & Hh); try done.
  - intros w Hw. rewrite shl1_spec by lia. by apply lor_pow2_ok.
  - intros w i Hi. rewrite shl1_spec, Z.lor_spec, testbit_pow2 by lia.
    case_bool_decide; case_decide; try done; [apply orb_true_r|apply orb_false_r].
  - intros q. destruct (decide (q = pos)); set_solver.
  - exists b'. split; [|done]. unfold set, bitsetIndex. rewrite Hw. simpl. done.
Qed.

Lemma holds_clear n S b pos :
  holds n S b -> 0 <= pos < n -> exists b', clear b pos = Val b' /\ holds n (S ∖ {[pos]}) b'.
Proof.
  intros Hb Hp. pose proof (Z.mod_pos_bound pos 64 ltac:(lia)) as Hm.
  edestruct (write_bit n S b pos (fun w => Z.ldiff w (shl1 (pos mod 64))) false (S ∖ {[pos]}))
    as (w & b' & Hw & Hb' & Hh); try done.
  - intros w Hw. rewrite shl1_spec by lia. by apply ldiff_pow2_ok.
  - intros w i Hi. rewrite shl1_spec, Z.ldiff_spec, testbit_pow2 by lia.
    case_bool_decide; case_decide; try done; [apply andb_false_r|apply andb_true_r].
  - intros q. destruct (decide (q = pos)); set_solver.
  - exists b'. split; [|done]. unfold clear, bitsetIndex. rewrite Hw. simpl. done.
Qed.

Lemma holds_get n S b pos :
  holds n S b -> 0 <= pos < n -> get b pos = Val (bool_decide (pos ∈ S)).
Proof.
  intros [Hlen Hw Hbit Hdom] Hp. pose proof (Z.mod_pos_bound pos 64 ltac:(lia)) as Hm.
  destruct (go_index_in_range b (pos / 64)) as [w Hgw]; [by eapply major_in_range|].
  unfold get, bitsetIndex. rewrite Hgw. simpl. unfold mret, res_ret.
  rewrite shl1_spec, land_pow2_nonzero, negb_involutive by lia.
  rewrite <- Hbit by lia. unfold bit. apply go_index_val in Hgw as [_ Hgw]. by rewrite Hgw.
Qed.

(** A bitset is determined by the set it stands for. *)
Lemma holds_inj n S b b' : holds n S b -> holds n S b' -> b = b'.
Proof.
  intros [L1 W1 B1 _] [L2 W2 B2 _]. unfold len in *.
  apply list_eq_same_length with (n := length b); [lia|lia|].
  intros i w w' Hi H1 H2.
  apply Z.bits_inj'. intros j Hj.
  destruct (decide (j < 64)) as [Hj'|Hj'].
  - specialize (B1 (64 * Z.of_nat i + j) ltac:(lia)). specialize (B2 (64 * Z.of_nat i + j) ltac:(lia)).
    unfold bit in B1, B2.
    replace ((64 * Z.of_nat i + j) / 64) with (Z.of_nat i) in B1, B2
      by (apply Z.div_unique with (r := j); lia).
    replace ((64 * Z.of_nat i + j) mod 64) with j in B1, B2
      by (apply Z.mod_unique with (q := Z.of_nat i); lia).
    rewrite Nat2Z.id in B1, B2. rewrite H1 in B1. rewrite H2 in B2. simpl in *. congruence.
  - rewrite (word_bits_high w j), (word_bits_high w' j); [done|..]; try lia.
    + eapply Forall_lookup_1; [exact W2|exact H2].
    + eapply Forall_lookup_1; [exact W1|exact H1].
Qed.

Lemma holds_set_inj n S T b : holds n S b -> holds n T b -> S = T.
Proof.
  intros [_ _ B1 D1] [_ _ B2 D2]. apply set_eq. intros q. split; intros Hq.
  - specialize (D1 q Hq). specialize (B1 q ltac:(lia)). specialize (B2 q ltac:(lia)).
    rewrite B1 in B2. rewrite bool_decide_eq_true_2 in B2 by done.
    symmetry in B2. by apply bool_decide_eq_true in B2.
  - specialize (D2 q Hq). specialize (B1 q ltac:(lia)). specialize (B2 q ltac:(lia)).
    rewrite B2 in B1. rewrite bool_decide_eq_true_2 in B1 by done.
    symmetry in B1. by apply bool_decide_eq_true in B1.
Qed.

Lemma equals_loop_spec b b2 n i :
  (i + n = length b)%nat -> length b = length b2 ->
  equals_loop b b2 i n = Val (bool_decide (drop i b = drop i b2)).
Proof.
  revert i. induction n as [|n IH]; intros i Hi Hl; simpl.
  - rewrite !drop_ge by lia. done.
  - destruct (lookup_lt_is_Some_2 b i) as [x Hx]; [lia|].
    destruct (lookup_lt_is_Some_2 b2 i) as [y Hy]; [lia|].
    rewrite (go_index_nat _ _ _ Hx), (go_index_nat _ _ _ Hy). simpl.
    rewrite (drop_S _ _ _ Hx), (drop_S _ _ _ Hy).
    destruct (Z.eqb_spec x y) as [->|Hne]; simpl.
    + rewrite IH by lia. f_equal. apply bool_decide_ext. split; congruence.
    + rewrite bool_decide_eq_false_2 by congruence. done.
Qed.

Lemma equals_spec b b2 : equals b b2 = Val (bool_decide (b = b2)).
Proof.
  unfold equals, len. destruct (Z.eqb_spec (Z.of_nat (length b)) (Z.of_nat (length b2))) as [E|E]; simpl.
  - rewrite equals_loop_spec by lia. done.
  - rewrite bool_decide_eq_false_2; [done|]. intros ->. lia.
Qed.

Lemma word_bits_length w : (length (word_bits w) <= 64)%nat.
Proof. unfold word_bits. etrans; [apply length_filter|]. by rewrite length_seq. Qed.

Lemma word_bits_NoDup w : NoDup (word_bits w).
Proof. apply NoDup_filter, NoDup_seq. Qed.

(** The positions of the set bits, word by word from word [k] on. *)
Fixpoint positions (k : Z) (b : bitset) : list Z :=
  match b with
  | [] => []
  | w :: b' =>
      ((fun j : nat => 64 * k + Z.of_nat j) <$> word_bits w) ++ positions (k + 1) b'
  end.

Lemma elem_of_word_positions k w p :
  p ∈ ((fun j : nat => 64 * k + Z.of_nat j) <$> word_bits w) <->
  64 * k <= p < 64 * k + 64 /\ Z.testbit w (p - 64 * k) = true.
Proof.
  rewrite list_elem_of_fmap. split.
  - intros (j & -> & [Hj Hin]%list_elem_of_filter). apply elem_of_seq in Hin.
    replace (64 * k + Z.of_nat j - 64 * k) with (Z.of_nat j) by lia. split; [lia|done].
  - intros [Hp Ht]. exists (Z.to_nat (p - 64 * k)). split; [lia|].
    apply list_elem_of_filter. rewrite Z2Nat.id by lia. split; [done|].
    apply elem_of_seq. lia.
Qed.

Lemma positions_ge k b p : p ∈ positions k b -> 64 * k <= p.
Proof.
  revert k. induction b as [|w b IH]; intros k; simpl; [by intros ?%elem_of_nil|].
  rewrite elem_of_app, elem_of_word_positions. intros [?|H]; [lia|].
  apply IH in H. lia.
Qed.

Lemma elem_of_positions k b p :
  p ∈ positions k b <-> 64 * k <= p /\ bit b (p - 64 * k) = true.
Proof.
  revert k. induction b as [|w b IH]; intros k; simpl.
  - unfold bit. rewrite lookup_nil. simpl. rewrite Z.bits_0. set_solver.
  - rewrite elem_of_app, elem_of_word_positions, IH. unfold bit.
    split.
    + intros [[Hp Ht]|[Hp Ht]].
      * split; [lia|]. rewrite Z.div_small, Z.mod_small by lia. done.
      * split; [lia|]. replace (p - 64 * k) with (p - 64 * (k + 1) + 1 * 64) by lia.
        rewrite Z.div_add, Z_mod_plus_full, Z.add_1_r by lia.
        rewrite Z2Nat.inj_succ by (apply Z.div_pos; lia). done.
    + intros [Hp Ht]. destruct (decide (p < 64 * k + 64)) as [Hlt|Hge].
      * left. rewrite Z.div_small, Z.mod_small in Ht by lia. split; [lia|done].
      * right. split; [lia|].
        replace (p - 64 * k) with (p - 64 * (k + 1) + 1 * 64) in Ht by lia.
        rewrite Z.div_add, Z_mod_plus_full, Z.add_1_r in Ht by lia.
        rewrite Z2Nat.inj_succ in Ht by (apply Z.div_pos; lia). done.
Qed.

Lemma positions_NoDup k b : NoDup (positions k b).
Proof.
  revert k. induction b as [|w b IH]; intros k; simpl; [constructor|].
  apply NoDup_app. split; [|split; [|done]].
  - apply NoDup_fmap_2; [intros ???; lia|]. apply word_bits_NoDup.
  - intros p Hp%elem_of_word_positions Hq%positions_ge. lia.
Qed.

Lemma positions_length_bound k b : (length (positions k b) <= 64 * length b)%nat.
Proof.
  revert k. induction b as [|w b IH]; intros k; simpl; [lia|].
  rewrite length_app, length_fmap. specialize (IH (k + 1)).
  pose proof (word_bits_length w). lia.
Qed.

Lemma popcnt_positions k b acc :
  0 <= acc -> acc + 64 * len b <= max_int ->
  foldl (fun total v => wrap64 (total + OnesCount64 v)) acc b =
  acc + Z.of_nat (length (positions k b)).
Proof.
  revert k acc. induction b as [|w b IH]; intros k acc Ha Hb; simpl; [lia|].
  unfold len in *. simpl in Hb.
  pose proof (word_bits_length w).
  assert (0 <= OnesCount64 w <= 64) as Hc by (unfold OnesCount64; lia).
  rewrite wrap64_small by (unfold min_int; lia).
  rewrite (IH (k + 1)) by lia. rewrite length_app, length_fmap. unfold OnesCount64. lia.
Qed.

Lemma holds_popcnt n S b :
  holds n S b -> 0 <= n -> 64 * len b <= max_int -> popcnt b = Z.of_nat (size S).
Proof.
  intros [Hlen Hw Hbit Hdom] Hn Hmax. unfold popcnt.
  rewrite (popcnt_positions 0) by (unfold max_int in *; lia).
  pose proof (positions_length_bound 0 b) as Hpl.
  assert (S = list_to_set (positions 0 b)) as HS.
  { apply set_eq. intros p. rewrite elem_of_list_to_set, elem_of_positions.
    rewrite Z.mul_0_r, Z.sub_0_r. split.
    - intros Hp. specialize (Hdom p Hp). split; [lia|].
      rewrite Hbit by lia. by rewrite bool_decide_eq_true_2.
    - intros [Hp Hb]. rewrite Hbit in Hb by done. by apply bool_decide_eq_true in Hb. }
  rewrite HS at 1. rewrite size_list_to_set by apply positions_NoDup.
  apply Z.mod_small. unfold len, max_int, two64 in *. lia.
Qed.

(** [set] then [clear] of a position that was not in the set gives the bitset back. *)
Lemma clear_set n S b pos b' :
  holds n S b -> 0 <= pos < n -> pos ∉ S -> set b pos = Val b' -> clear b' pos = Val b.
Proof.
  intros Hb Hp Hn Hs. destruct (holds_set n S b pos Hb Hp) as (b1 & Hs1 & Hb1).
  rewrite Hs in Hs1. injection Hs1 as <-.
  destruct (holds_clear n _ b' pos Hb1 Hp) as (b2 & Hc & Hb2). rewrite Hc. f_equal.
  eapply holds_inj; [exact Hb2|]. replace (({[pos]} ∪ S) ∖ {[pos]}) with S by set_solver. done.
Qed.

(** ** Programs on bitsets *)

Inductive bop := BSet (pos : Z) | BClear (pos : Z).

Definition bop_pos (o : bop) : Z := match o with BSet p | BClear p => p end.

Fixpoint run_bitset (b : bitset) (ops : list bop) : res bitset :=
  match ops with
  | [] => mret b
  | BSet p :: ops' => b' ← set b p; run_bitset b' ops'
  | BClear p :: ops' => b' ← clear b p; run_bitset b' ops'
  end.

Fixpoint run_set (S : gset Z) (ops : list bop) : gset Z :=
  match ops with
  | [] => S
  | BSet p :: ops' => run_set ({[ p ]} ∪ S) ops'
  | BClear p :: ops' => run_set (S ∖ {[ p ]}) ops'
  end.

Definition in_range (n : Z) (ops : list bop) : Prop := Forall (fun o => 0 <= bop_pos o < n) ops.

Lemma run_holds n S b ops :
  holds n S b -> in_range n ops -> exists b', run_bitset b ops = Val b' /\ holds n (run_set S ops) b'.
Proof.
  intros Hb Hr. revert S b Hb. induction Hr as [|[p|p] ops Hp _ IH]; intros S b Hb; simpl; [by exists b| |].
  - destruct (holds_set n S b p Hb Hp) as (b' & -> & Hb'). by apply IH.
  - destruct (holds_clear n S b p Hb Hp) as (b' & -> & Hb'). by apply IH.
Qed.

(** C33: A bitset of capacity [n] implements sets of positions below [n]: any sequence of [set] and [clear] in range
    succeeds, and afterwards [get] answers membership, [popcnt] the number of elements, and [equals] of two
    bitsets reached by different sequences tells whether they stand for the same set, in which case
    their hashes agree. *)
Theorem bitset_refines_set n ops ops2 :
  0 <= n -> 64 * ((n + 63) / 64) <= max_int -> in_range n ops -> in_range n ops2 ->
  exists b b2, run_bitset (newBitset n) ops = Val b /\ run_bitset (newBitset n) ops2 = Val b2 /\
    (forall pos, 0 <= pos < n -> get b pos = Val (bool_decide (pos ∈ run_set ∅ ops))) /\
    popcnt b = Z.of_nat (size (run_set ∅ ops)) /\
    equals b b2 = Val (bool_decide (run_set ∅ ops = run_set ∅ ops2)) /\
    (run_set ∅ ops = run_set ∅ ops2 -> hash b = hash b2).
Proof.
  intros Hn Hmax Hr Hr2. pose proof (holds_new n Hn) as H0.
  destruct (run_holds n ∅ _ ops H0 Hr) as (b & E & Hb). destruct (run_holds n ∅ _ ops2 H0 Hr2) as (b2 & E2 & Hb2).
  exists b, b2. split_and!; [done|done| | | |].
  - intros pos Hp. by apply (holds_get n).
  - apply (holds_popcnt n); [done|done|]. rewrite (holds_len _ _ _ Hb), newBitset_len by done. done.
  - rewrite equals_spec. f_equal. apply bool_decide_ext. split; [|intros Eq].
    + intros ->. by eapply holds_set_inj.
    + rewrite Eq in Hb. by eapply holds_inj.
  - intros Eq. rewrite Eq in Hb. by rewrite (holds_inj n _ b b2 Hb Hb2).
Qed.

Lemma bitset_refines_set_witness :
  exists b b2, run_bitset (newBitset 70) [BSet 69; BSet 3; BClear 3] = Val b /\
    run_bitset (newBitset 70) [BSet 69] = Val b2 /\ hash b = hash b2.
Proof.
  destruct (bitset_refines_set 70 [BSet 69; BSet 3; BClear 3] [BSet 69]) as (b & b2 & E & E2 & _ & _ & _ & Hh).
  - lia.
  - vm_compute. discriminate.
  - repeat constructor; vm_compute; discriminate.
  - repeat constructor; vm_compute; discriminate.
  - exists b, b2. split; [exact E|]. split; [exact E2|]. apply Hh. vm_compute. reflexivity.
Defined.

End Bitset.
