(* ===== verification/PorcModel.v ===== *)
(** * Histories and models of the linearizability checker (porcupine/model.go)

    Inputs and outputs of operations have types [I] and [O], states of the modelled system have type
    [St].  Go carries the first two in [interface{}]: [value] is that dynamic type, and a use of a
    value at the wrong dynamic type is the type-assertion panic of the model's functions. *)

From stdpp Require Import base list strings.
From Stdlib Require Import ZArith Lia.
From S2P Require Import Prelude.

Open Scope Z_scope.

Inductive value (I O : Type) :=
  | VIn (i : I)
  | VOut (o : O).
Arguments VIn {I O} _.
Arguments VOut {I O} _.

Record Operation (I O : Type) := mkOperation {
  op_ClientId : Z;
  op_Input : I;
  op_Call : Z;      (* invocation time *)
  op_Output : O;
  op_Return : Z     (* response time *) }.
Arguments mkOperation {I O} _ _ _ _ _.
Arguments op_ClientId {I O} _.
Arguments op_Input {I O} _.
Arguments op_Call {I O} _.
Arguments op_Output {I O} _.
Arguments op_Return {I O} _.

(** [EventKind] and [entryKind] are booleans in the source: false is a call, true a return. *)
Definition CallEvent : bool := false.
Definition ReturnEvent : bool := true.

Record Event (I O : Type) := mkEvent {
  ev_ClientId : Z;
  ev_Kind : bool;
  ev_Value : value I O;
  ev_Id : Z }.
Arguments mkEvent {I O} _ _ _ _.
Arguments ev_ClientId {I O} _.
Arguments ev_Kind {I O} _.
Arguments ev_Value {I O} _.
Arguments ev_Id {I O} _.

(** The fields a user may leave nil are options; [fillDefault] supplies the defaults. *)
Record Model (I O St : Type) := mkModel {
  Partition : option (list (Operation I O) -> list (list (Operation I O)));
  PartitionEvent : option (list (Event I O) -> list (list (Event I O)));
  Init : St;
  Step : St -> I -> O -> bool * St;
  Equal : option (St -> St -> bool);
  DescribeOperation : option (I -> O -> string);
  DescribeState : option (St -> string) }.
Arguments mkModel {I O St} _ _ _ _ _ _ _.
Arguments Partition {I O St} _.
Arguments PartitionEvent {I O St} _.
Arguments Init {I O St} _.
Arguments Step {I O St} _ _ _ _.
Arguments Equal {I O St} _.
Arguments DescribeOperation {I O St} _.
Arguments DescribeState {I O St} _.

Definition NoPartition {I O} (history : list (Operation I O)) : list (list (Operation I O)) :=
  [history].

Definition NoPartitionEvent {I O} (history : list (Event I O)) : list (list (Event I O)) :=
  [history].

(** [state1 == state2] on interfaces that hold comparable values *)
Definition ShallowEqual {St} `{EqDecision St} (state1 state2 : St) : bool :=
  bool_decide (state1 = state2).

Inductive CheckResult := Unknown | Ok | Illegal.

#[export] Instance CheckResult_eq_dec : EqDecision CheckResult.
Proof. solve_decision. Defined.

Section fillDefault.
Context {I O St : Type} `{EqDecision St}.

(** [fmt.Sprintf("%v -> %v", ...)] and [fmt.Sprintf("%v", ...)] of the defaults depend on Go's
    formatting of arbitrary values. *)
Variable DefaultDescribeOperation : I -> O -> string.
Variable DefaultDescribeState : St -> string.

Definition fillDefault (m : Model I O St) : Model I O St :=
  mkModel
    (Some (default NoPartition (Partition m)))
    (Some (default NoPartitionEvent (PartitionEvent m)))
    (Init m)
    (Step m)
    (Some (default ShallowEqual (Equal m)))
    (Some (default DefaultDescribeOperation (DescribeOperation m)))
    (Some (default DefaultDescribeState (DescribeState m))).

End fillDefault.
