(* ===== verification/PorcList.v ===== *)
(** * The doubly linked list of history entries (porcupine/checker.go, [node] to [unlift])

    Nodes live in a heap; a pointer is an address, nil is [None].  [dseg] says that a heap holds a
    doubly linked segment through a list of addresses.  The main facts: [makeLinkedEntries] builds
    the list of the history, [lift] takes a call and its return out of the list, and [unlift] gives
    the very same heap back. *)

From stdpp Require Import base list gmap strings.
From Stdlib Require Import ZArith Lia.
From S2P Require Import Prelude PorcModel.

Open Scope Z_scope.

Module PorcList.

Section PorcList.
Context {Inp Out : Type}.

Record entry := mkEntry {
  kind : bool;
  evalue : value Inp Out;
  id : Z;
  time : Z;
  clientId : Z }.

Notation loc := nat (only parsing).

Record node := mkNode {
  nvalue : option (value Inp Out);  (* nil in the head node *)
  nmatch : option loc;          (* call if match is nil, otherwise return, says the source *)
  nid : Z;
  nnext : option loc;
  nprev : option loc }.

(** [cells] maps addresses to nodes, [brk] is the next free address. *)
Record heap := mkHeap {
  cells : gmap nat node;
  brk : nat }.

Definition empty_heap : heap := mkHeap ∅ 0.

Definition load (h : heap) (p : option loc) : res node :=
  match p with
  | None => Err ENil
  | Some l => of_option ENil (cells h !! l)
  end.

#[local] Arguments load : simpl never.

Definition store (h : heap) (l : loc) (nd : node) : heap := mkHeap (<[l := nd]> (cells h)) (brk h).

Definition alloc (h : heap) (nd : node) : heap * loc :=
  (mkHeap (<[brk h := nd]> (cells h)) (S (brk h)), brk h).

Definition with_next (nd : node) (n : option loc) : node :=
  mkNode (nvalue nd) (nmatch nd) (nid nd) n (nprev nd).
Definition with_prev (nd : node) (p : option loc) : node :=
  mkNode (nvalue nd) (nmatch nd) (nid nd) (nnext nd) p.

(** [p.next = n] and [q.prev = p] *)
Definition set_next (h : heap) (p : option loc) (n : option loc) : res heap :=
  nd ← load h p;
  match p with Some l => mret (store h l (with_next nd n)) | None => Err ENil end.
Definition set_prev (h : heap) (q : option loc) (p : option loc) : res heap :=
  nd ← load h q;
  match q with Some l => mret (store h l (with_prev nd p)) | None => Err ENil end.

Definition insertBefore (h : heap) (n : loc) (mark : option loc) : res heap :=
  match mark with
  | None => mret h
  | Some _ =>
      mnd ← load h mark;
      let beforeMark := nprev mnd in
      h1 ← set_prev h mark (Some n);
      h2 ← set_next h1 (Some n) mark;
      match beforeMark with
      | None => mret h2
      | Some _ => h3 ← set_prev h2 (Some n) beforeMark; set_next h3 beforeMark (Some n)
      end
  end.

(** [length]: the walk visits at most [fuel] nodes. *)
Fixpoint length_loop (fuel : nat) (h : heap) (n : option loc) (l : Z) : res Z :=
  match n with
  | None => mret l
  | Some _ =>
      match fuel with
      | O => Err (EPanic "fuel")
      | S fuel' => nd ← load h n; length_loop fuel' h (nnext nd) (wrap64 (l + 1))
      end
  end.

Definition length_list (h : heap) (n : option loc) : res Z := length_loop (brk h) h n 0.

(** The loop of [makeLinkedEntries] runs over the entries from the last to the first: it is given
    the entries in that order. *)
Fixpoint makeLinked_loop (es_rev : list entry) (h : heap) (root : option loc)
    (mtch : gmap Z nat) : res (heap * option loc) :=
  match es_rev with
  | [] => mret (h, root)
  | elem :: es' =>
      if kind elem then
        let '(h1, n) := alloc h (mkNode (Some (evalue elem)) None (id elem) None None) in
        let mtch1 := <[id elem := n]> mtch in
        h2 ← insertBefore h1 n root;
        makeLinked_loop es' h2 (Some n) mtch1
      else
        let '(h1, n) :=
          alloc h (mkNode (Some (evalue elem)) (mtch !! id elem) (id elem) None None) in
        h2 ← insertBefore h1 n root;
        makeLinked_loop es' h2 (Some n) mtch
  end.

Definition makeLinkedEntries (h : heap) (entries : list entry) : res (heap * option loc) :=
  makeLinked_loop (reverse entries) h None ∅.

Definition next_of (h : heap) (p : option loc) : res (option loc) := nnext <$> load h p.
Definition prev_of (h : heap) (p : option loc) : res (option loc) := nprev <$> load h p.
Definition match_of (h : heap) (p : option loc) : res (option loc) := nmatch <$> load h p.

(** [x.prev.next = x.next] *)
Definition skip_next (h : heap) (x : option loc) : res heap :=
  p ← prev_of h x; n ← next_of h x; set_next h p n.
(** [x.next.prev = x.prev] *)
Definition skip_prev (h : heap) (x : option loc) : res heap :=
  n ← next_of h x; p ← prev_of h x; set_prev h n p.
(** [x.prev.next = x] *)
Definition join_next (h : heap) (x : option loc) : res heap :=
  p ← prev_of h x; set_next h p x.
(** [x.next.prev = x] *)
Definition join_prev (h : heap) (x : option loc) : res heap :=
  n ← next_of h x; set_prev h n x.

Definition lift (h : heap) (entry : option loc) : res heap :=
  h1 ← skip_next h entry;
  h2 ← skip_prev h1 entry;
  mtch ← match_of h2 entry;
  h3 ← skip_next h2 mtch;
  n ← next_of h3 mtch;
  match n with
  | Some _ => skip_prev h3 mtch
  | None => mret h3
  end.

Definition unlift (h : heap) (entry : option loc) : res heap :=
  mtch ← match_of h entry;
  h1 ← join_next h mtch;
  n ← next_of h1 mtch;
  h2 ← match n with
       | Some _ => join_prev h1 mtch
       | None => mret h1
       end;
  h3 ← join_next h2 entry;
  join_prev h3 entry.

(** ** Doubly linked segments

    [dseg c p L n]: the cells [c] hold the nodes of [L] in this order, linked in both directions;
    the node before the segment is [p], the one after it [n]. *)

Definition hd_or (n : option loc) (L : list loc) : option loc :=
  match L with [] => n | l :: _ => Some l end.

Fixpoint last_or (p : option loc) (L : list loc) : option loc :=
  match L with [] => p | l :: L' => last_or (Some l) L' end.

Fixpoint dseg (c : gmap nat node) (p : option loc) (L : list loc) (n : option loc) : Prop :=
  match L with
  | [] => True
  | l :: L' =>
      exists nd, c !! l = Some nd /\ nprev nd = p /\ nnext nd = hd_or n L' /\ dseg c (Some l) L' n
  end.

Lemma last_or_snoc p L l : last_or p (L ++ [l]) = Some l.
Proof. revert p. induction L; intros p; simpl; auto. Qed.

Lemma last_or_app p L1 L2 : last_or p (L1 ++ L2) = last_or (last_or p L1) L2.
Proof. revert p. induction L1; intros p; simpl; auto. Qed.

Lemma hd_or_app n L1 L2 : hd_or n (L1 ++ L2) = hd_or (hd_or n L2) L1.
Proof. by destruct L1. Qed.

Lemma dseg_app c p L1 L2 n :
  dseg c p (L1 ++ L2) n <-> dseg c p L1 (hd_or n L2) /\ dseg c (last_or p L1) L2 n.
Proof.
  revert p. induction L1 as [|l L1 IH]; intros p; simpl; [tauto|].
  setoid_rewrite IH. rewrite hd_or_app. naive_solver.
Qed.

Lemma dseg_lookup c p L n l : dseg c p L n -> l ∈ L -> exists nd, c !! l = Some nd.
Proof.
  revert p. induction L as [|x L IH]; intros p; simpl; [by intros _ ?%elem_of_nil|].
  intros (nd & Hl & _ & _ & H) [->|Hin]%elem_of_cons; eauto.
Qed.

(** A segment only depends on its own cells. *)
Lemma dseg_ext c c' p L n :
  (forall l, l ∈ L -> c' !! l = c !! l) -> dseg c p L n -> dseg c' p L n.
Proof.
  revert p. induction L as [|x L IH]; intros p Hc; simpl; [done|].
  intros (nd & Hl & Hp & Hn & H). exists nd. rewrite Hc by set_solver.
  split_and!; [done..|]. apply IH; [|done]. intros. apply Hc. set_solver.
Qed.

(** [stat nd]: the fields the list operations never change *)
Definition stat (nd : node) := (nvalue nd, nmatch nd, nid nd).

Definition same_stat (h h' : heap) : Prop :=
  brk h' = brk h /\ forall l, stat <$> cells h' !! l = stat <$> cells h !! l.

#[local] Instance same_stat_refl : Reflexive same_stat.
Proof. by intros h. Qed.
#[local] Instance same_stat_trans : Transitive same_stat.
Proof. intros h1 h2 h3 [B1 S1] [B2 S2]. split; [congruence|]. intros. by rewrite S2, S1. Qed.

Lemma same_stat_store h l nd nd' :
  cells h !! l = Some nd -> stat nd' = stat nd -> same_stat h (store h l nd').
Proof.
  intros Hl Hs. split; [done|]. intros k. simpl. destruct (decide (k = l)) as [->|].
  - rewrite lookup_insert_eq, Hl. simpl. by rewrite Hs.
  - by rewrite lookup_insert_ne.
Qed.

(** ** Taking one node out of the list and putting it back *)

Definition unlink (h : heap) (x : loc) : res heap :=
  h1 ← skip_next h (Some x);
  n ← next_of h1 (Some x);
  match n with Some _ => skip_prev h1 (Some x) | None => mret h1 end.

Definition relink (h : heap) (x : loc) : res heap :=
  h1 ← join_next h (Some x);
  n ← next_of h1 (Some x);
  match n with Some _ => join_prev h1 (Some x) | None => mret h1 end.

Lemma load_some h l nd : cells h !! l = Some nd -> load h (Some l) = Val nd.
Proof. intros H. unfold load. by rewrite H. Qed.

Lemma load_store h l nd : load (store h l nd) (Some l) = Val nd.
Proof. unfold load. simpl. by rewrite lookup_insert_eq. Qed.

Lemma load_store_ne h l k nd : k <> l -> load (store h l nd) (Some k) = load h (Some k).
Proof. intros. unfold load. simpl. by rewrite lookup_insert_ne. Qed.

Lemma with_next_id nd n : nnext nd = n -> with_next nd n = nd.
Proof. by destruct nd; intros <-. Qed.
Lemma with_prev_id nd p : nprev nd = p -> with_prev nd p = nd.
Proof. by destruct nd; intros <-. Qed.

Lemma store_store h l nd nd' : store (store h l nd) l nd' = store h l nd'.
Proof. unfold store. simpl. f_equal. apply insert_insert_eq. Qed.

Lemma store_comm h l k nd nd' : l <> k -> store (store h l nd) k nd' = store (store h k nd') l nd.
Proof. intros. unfold store. simpl. f_equal. by apply insert_insert_ne. Qed.

Lemma store_id h l nd : cells h !! l = Some nd -> store h l nd = h.
Proof. intros. destruct h. unfold store. simpl in *. f_equal. by apply insert_id. Qed.

Lemma unlink_last h A a x :
  dseg (cells h) None (A ++ [a; x]) None -> NoDup (A ++ [a; x]) ->
  exists h',
    unlink h x = Val h' /\ relink h' x = Val h /\ same_stat h h' /\
    dseg (cells h') None (A ++ [a]) None /\
    (forall l, l <> a -> cells h' !! l = cells h !! l).
Proof.
  intros Hd Hn. apply dseg_app in Hd as [HdA (nda & Ha & Hpa & Hna & (ndx & Hx & Hpx & Hnx & _))].
  simpl in Hna, Hpa, Hnx. apply NoDup_app in Hn as (_ & HA & Hax).
  assert (a <> x) by (inversion_clear Hax; set_solver).
  exists (store h a (with_next nda None)).
  assert (cells (store h a (with_next nda None)) !! x = Some ndx) as Hx'
    by (simpl; by rewrite lookup_insert_ne).
  split_and!.
  - unfold unlink, skip_next, prev_of, next_of, set_next.
    rewrite (load_some _ _ _ Hx). simpl. rewrite Hpx, Hnx. rewrite (load_some _ _ _ Ha). simpl.
    rewrite (load_some _ _ _ Hx'). simpl. by rewrite Hnx.
  - unfold relink, join_next, prev_of, next_of, set_next.
    rewrite (load_some _ _ _ Hx'). simpl. rewrite Hpx, load_store. simpl.
    rewrite store_store. assert (with_next (with_next nda None) (Some x) = nda) as ->.
    { destruct nda; simpl in *. by subst. }
    rewrite (store_id _ _ _ Ha). rewrite (load_some _ _ _ Hx). simpl. by rewrite Hnx.
  - by eapply same_stat_store.
  - apply dseg_app. split.
    + eapply dseg_ext; [|exact HdA]. intros l Hl. simpl. rewrite lookup_insert_ne; [done|].
      intros ->. eapply HA; [done|]. set_solver.
    + exists (with_next nda None). simpl. rewrite lookup_insert_eq. done.
  - intros l Hl. simpl. by rewrite lookup_insert_ne.
Qed.

Lemma unlink_mid h A a x b B :
  dseg (cells h) None (A ++ a :: x :: b :: B) None -> NoDup (A ++ a :: x :: b :: B) ->
  exists h',
    unlink h x = Val h' /\ relink h' x = Val h /\ same_stat h h' /\
    (h1 ← skip_next h (Some x); skip_prev h1 (Some x)) = Val h' /\
    (h1 ← join_next h' (Some x); join_prev h1 (Some x)) = Val h /\
    dseg (cells h') None (A ++ a :: b :: B) None /\
    (forall l, l <> a -> l <> b -> cells h' !! l = cells h !! l).
Proof.
  intros Hd Hn. apply dseg_app in Hd as [HdA (nda & Ha & Hpa & Hna & (ndx & Hx & Hpx & Hnx & Hd))].
  destruct Hd as (ndb & Hb & Hpb & Hnb & HdB).
  simpl in Hna, Hpa, Hnx. apply NoDup_app in Hn as (_ & HA & Hrest).
  apply NoDup_cons in Hrest as [Har Hrest]. apply NoDup_cons in Hrest as [Hxr Hrest].
  apply NoDup_cons in Hrest as [Hbr _].
  assert (a <> x) by set_solver. assert (a <> b) by set_solver. assert (x <> b) by set_solver.
  set (na := with_next nda (Some b)). set (nb := with_prev ndb (Some a)).
  set (h1 := store h a na). set (h' := store h1 b nb).
  assert (load h1 (Some x) = Val ndx) as Hx1.
  { unfold h1. rewrite load_store_ne by congruence. by apply load_some. }
  assert (load h1 (Some b) = Val ndb) as Hb1.
  { unfold h1. rewrite load_store_ne by congruence. by apply load_some. }
  assert (load h' (Some x) = Val ndx) as Hx'.
  { unfold h'. by rewrite load_store_ne by congruence. }
  assert (load h' (Some a) = Val na) as Ha'.
  { unfold h', h1. rewrite load_store_ne by congruence. apply load_store. }
  assert (skip_next h (Some x) = Val h1) as Hsn.
  { unfold skip_next, prev_of, next_of, set_next. rewrite (load_some _ _ _ Hx). simpl.
    rewrite Hpx, Hnx, (load_some _ _ _ Ha). done. }
  assert (skip_prev h1 (Some x) = Val h') as Hsp.
  { unfold skip_prev, prev_of, next_of, set_prev. rewrite Hx1. simpl.
    rewrite Hnx, Hpx, Hb1. done. }
  assert (store h' a nda = store h b nb) as Hst.
  { unfold h', h1. rewrite (store_comm _ b a) by congruence. rewrite store_store.
    by rewrite (store_id _ _ _ Ha). }
  assert (join_next h' (Some x) = Val (store h b nb)) as Hjn.
  { unfold join_next, prev_of, set_next. rewrite Hx'. simpl. rewrite Hpx, Ha'. simpl.
    unfold mret, res_ret. f_equal. rewrite <- Hst. f_equal.
    unfold na. destruct nda; simpl in *. by subst. }
  assert (load (store h b nb) (Some x) = Val ndx) as Hx2.
  { rewrite load_store_ne by congruence. by apply load_some. }
  assert (join_prev (store h b nb) (Some x) = Val h) as Hjp.
  { unfold join_prev, next_of, set_prev. rewrite Hx2. simpl. rewrite Hnx, load_store. simpl.
    unfold mret, res_ret. f_equal. rewrite store_store. rewrite <- (store_id _ _ _ Hb) at 2. f_equal.
    unfold nb. destruct ndb; simpl in *. by subst. }
  exists h'. split_and!.
  - unfold unlink, next_of. rewrite Hsn. simpl. rewrite Hx1. simpl. rewrite Hnx. done.
  - unfold relink, next_of. rewrite Hjn. simpl. rewrite Hx2. simpl. rewrite Hnx. done.
  - transitivity h1; [by apply (same_stat_store h a nda)|].
    apply (same_stat_store h1 b ndb); [|done].
    unfold h1. simpl. by rewrite lookup_insert_ne by congruence.
  - rewrite Hsn. simpl. done.
  - rewrite Hjn. simpl. done.
  - apply dseg_app. split.
    + eapply dseg_ext; [|exact HdA]. intros l Hl. simpl. rewrite !lookup_insert_ne; [done|..];
        intros ->; eapply HA; try done; set_solver.
    + exists na. split_and!; [|done|done|].
      { simpl. rewrite lookup_insert_ne, lookup_insert_eq by congruence. done. }
      exists nb. split_and!; [|done|done|].
      { simpl. by rewrite lookup_insert_eq. }
      eapply dseg_ext; [|exact HdB]. intros l Hl. simpl. rewrite !lookup_insert_ne; [done|..];
        intros ->; set_solver.
  - intros l ? ?. simpl. by rewrite !lookup_insert_ne by congruence.
Qed.

(** ** [lift] removes a call and its return, [unlift] undoes it *)

Lemma lift_spec h A a x B r C nd :
  dseg (cells h) None (A ++ a :: x :: B ++ r :: C) None ->
  NoDup (A ++ a :: x :: B ++ r :: C) ->
  cells h !! x = Some nd -> nmatch nd = Some r ->
  exists h',
    lift h (Some x) = Val h' /\ unlift h' (Some x) = Val h /\ same_stat h h' /\
    dseg (cells h') None (A ++ a :: B ++ C) None.
Proof.
  intros Hd Hn Hx Hm.
  destruct (B ++ r :: C) as [|b R] eqn:ER; [by destruct B|].
  destruct (unlink_mid h A a x b R) as (h2 & _ & _ & Hs2 & Hl2 & Hj2 & Hd2 & Ho2); [done..|].
  assert (x ∉ A ++ a :: B ++ C /\ x <> r) as [Hxn Hxr].
  { rewrite <- ER in Hn. apply NoDup_app in Hn as (_ & H1 & H2).
    inversion_clear H2 as [|? ? H3 H4]. inversion_clear H4 as [|? ? H5 H6].
    split; [|set_solver]. rewrite elem_of_app. intros [H|H]; [eapply H1; set_solver|set_solver]. }
  assert (NoDup (A ++ a :: B ++ r :: C)) as Hn2.
  { rewrite <- ER in Hn. eapply sublist_NoDup; [exact Hn|].
    apply sublist_app; [done|]. apply sublist_skip. by apply sublist_cons. }
  (* the return is the last node or not: one unlink in each case *)
  assert (exists h', unlink h2 r = Val h' /\ relink h' r = Val h2 /\ same_stat h2 h' /\
            dseg (cells h') None (A ++ a :: B ++ C) None /\
            (forall l, l ∉ A ++ a :: B ++ C -> cells h' !! l = cells h2 !! l))
    as (h' & Hu & Hr & Hs' & Hd' & Ho').
  { rewrite <- ER in Hd2.
    assert (exists A' a', A ++ a :: B = A' ++ [a']) as (A' & a' & EA).
    { destruct (exists_last (l := A ++ a :: B)) as (A' & a' & ->); [by destruct A|eauto]. }
    replace (A ++ a :: B ++ r :: C) with (A' ++ a' :: r :: C) in Hd2, Hn2
      by (rewrite app_comm_cons, app_assoc, EA, <- app_assoc; done).
    replace (A ++ a :: B ++ C) with (A' ++ a' :: C) in *
      by (rewrite app_comm_cons, app_assoc, EA, <- app_assoc; done).
    destruct C as [|c C].
    - destruct (unlink_last h2 A' a' r) as (h' & H1 & H2 & H3 & H4 & H5); [done..|].
      exists h'. split_and!; [done..|]. intros l Hl. apply H5. set_solver.
    - destruct (unlink_mid h2 A' a' r c C) as (h' & H1 & H2 & H3 & _ & _ & H4 & H5); [done..|].
      exists h'. split_and!; [done..|]. intros l Hl. apply H5; set_solver. }
  assert (match_of h2 (Some x) = Val (Some r)) as Hm2.
  { unfold match_of. destruct Hs2 as [_ Hs2]. specialize (Hs2 x). rewrite Hx in Hs2.
    destruct (cells h2 !! x) as [nd2|] eqn:E; [|done]. rewrite (load_some _ _ _ E). simpl in *.
    unfold stat in Hs2. f_equal. congruence. }
  assert (cells h' !! x = cells h2 !! x) as Hx2 by (by apply Ho').
  exists h'. split_and!.
  - unfold lift. apply bind_val in Hl2 as (h1 & -> & Hl2). simpl. rewrite Hl2. simpl.
    rewrite Hm2. simpl. exact Hu.
  - unfold unlift. assert (match_of h' (Some x) = Val (Some r)) as ->.
    { unfold match_of, load in *. by rewrite Hx2. }
    simpl. unfold relink in Hr. destruct (join_next h' (Some r)) as [k1|]; simpl in *; [|done].
    destruct (next_of k1 (Some r)) as [n|]; simpl in *; [|done].
    destruct n; [by rewrite Hr|]. unfold mret, res_ret in *. simpl. by injection Hr as ->.
  - by transitivity h2.
  - done.
Qed.

(** ** [makeLinkedEntries] builds the list of the history *)

(** Entries are processed from the last one to the first, the [l]-th processed entry gets address
    [l].  [match_map rs] is the map [match] after the entries [rs]. *)
Fixpoint match_map_from (k : nat) (m : gmap Z nat) (rs : list entry) : gmap Z nat :=
  match rs with
  | [] => m
  | e :: rs' => match_map_from (S k) (if kind e then <[id e := k]> m else m) rs'
  end.
Definition match_map (rs : list entry) : gmap Z nat := match_map_from 0 ∅ rs.

Lemma match_map_from_snoc k m rs e :
  match_map_from k m (rs ++ [e]) =
  if kind e then <[id e := (k + length rs)%nat]> (match_map_from k m rs) else match_map_from k m rs.
Proof.
  revert k m. induction rs as [|x rs IH]; intros k m; simpl.
  - by rewrite Nat.add_0_r.
  - rewrite IH. by rewrite Nat.add_succ_comm.
Qed.

Lemma match_map_snoc rs e :
  match_map (rs ++ [e]) =
  if kind e then <[id e := length rs]> (match_map rs) else match_map rs.
Proof. apply match_map_from_snoc. Qed.

(** The fields of the node of the [l]-th processed entry [e]. *)
Definition node_stat (rs : list entry) (l : nat) (e : entry) :=
  (Some (evalue e), if kind e then None else match_map (take l rs) !! id e, id e).

Record built (rs : list entry) (h : heap) (root : option loc) : Prop := {
  built_brk : brk h = length rs;
  built_fresh : forall l, (brk h <= l)%nat -> cells h !! l = None;
  built_dseg : dseg (cells h) None (reverse (seq 0 (length rs))) None;
  built_root : root = hd_or None (reverse (seq 0 (length rs)));
  built_stat : forall l e, rs !! l = Some e -> stat <$> cells h !! l = Some (node_stat rs l e) }.

Lemma reverse_seq_S k : reverse (seq 0 (S k)) = k :: reverse (seq 0 k).
Proof. rewrite seq_S, reverse_snoc. done. Qed.

Lemma insertBefore_front h n nd L :
  cells h !! n = Some nd -> nprev nd = None -> nnext nd = None -> n ∉ L -> NoDup L ->
  dseg (cells h) None L None ->
  exists h', insertBefore h n (hd_or None L) = Val h' /\ same_stat h h' /\
    dseg (cells h') None (n :: L) None /\
    (forall l, l ∉ n :: L -> cells h' !! l = cells h !! l).
Proof.
  intros Hn Hp Hnx Hin Hnd Hd. destruct L as [|m L].
  - exists h. simpl. split_and!; [done..| |done]. exists nd. done.
  - destruct Hd as (md & Hm & Hpm & Hnm & HdL).
    assert (m <> n) by set_solver. apply NoDup_cons in Hnd as [HmL _].
    set (h1 := store h m (with_prev md (Some n))).
    set (h2 := store h1 n (with_next nd (Some m))).
    assert (load h1 (Some n) = Val nd) as Hn1.
    { unfold h1. rewrite load_store_ne by congruence. by apply load_some. }
    exists h2. split_and!.
    + unfold insertBefore. simpl. rewrite (load_some _ _ _ Hm). simpl. rewrite Hpm.
      unfold set_prev, set_next. rewrite (load_some _ _ _ Hm). simpl. fold h1. rewrite Hn1. done.
    + transitivity h1; [by apply (same_stat_store h m md)|].
      apply (same_stat_store h1 n nd); [|done]. unfold h1. simpl. by rewrite lookup_insert_ne.
    + exists (with_next nd (Some m)). simpl. rewrite lookup_insert_eq. split_and!; [done..|].
      exists (with_prev md (Some n)). rewrite lookup_insert_ne, lookup_insert_eq by congruence.
      split_and!; [done..|]. eapply dseg_ext; [|exact HdL].
      intros l Hl. rewrite !lookup_insert_ne; [done|..]; intros ->; set_solver.
    + intros l Hl. simpl. rewrite !lookup_insert_ne; [done|..]; intros ->; set_solver.
Qed.

Lemma built_snoc rs h root e :
  built rs h root ->
  let '(h1, n) := alloc h (mkNode (Some (evalue e))
                     (if kind e then None else match_map rs !! id e) (id e) None None) in
  exists h2, insertBefore h1 n root = Val h2 /\ built (rs ++ [e]) h2 (Some n).
Proof.
  intros [Hb Hf Hd Hr Hs]. simpl. rewrite Hb in *.
  set (nd := mkNode _ _ _ _ _). set (h1 := mkHeap _ _).
  destruct (insertBefore_front h1 (length rs) nd (reverse (seq 0 (length rs))))
    as (h2 & Hi & [Hbk Hst] & Hd2 & Ho).
  { simpl. apply lookup_insert_eq. }
  { done. } { done. }
  { rewrite elem_of_reverse, elem_of_seq. lia. }
  { rewrite (reverse_Permutation (seq 0 (length rs))). apply NoDup_seq. }
  { eapply dseg_ext; [|exact Hd]. intros l Hl. simpl.
    rewrite elem_of_reverse, elem_of_seq in Hl. rewrite lookup_insert_ne by lia. done. }
  exists h2. split; [by rewrite Hr|]. constructor.
  - rewrite Hbk. simpl. rewrite length_app. simpl. lia.
  - intros l Hl. rewrite Hbk in Hl. simpl in Hl.
    rewrite Ho; [simpl; rewrite lookup_insert_ne by lia; apply Hf; lia|].
    rewrite <- reverse_seq_S, elem_of_reverse, elem_of_seq. lia.
  - rewrite length_app, Nat.add_1_r, reverse_seq_S. done.
  - rewrite length_app, Nat.add_1_r, reverse_seq_S. done.
  - intros l e' Hl. rewrite Hst. simpl. destruct (decide (l = length rs)) as [->|Hne].
    + rewrite lookup_insert_eq. rewrite lookup_app_r, Nat.sub_diag in Hl by done. injection Hl as <-.
      simpl. unfold node_stat, nd, stat. simpl. by rewrite take_app_length.
    + rewrite lookup_insert_ne by congruence.
      assert (l < length rs)%nat as Hlt.
      { apply lookup_lt_Some in Hl. rewrite length_app in Hl. simpl in Hl. lia. }
      rewrite lookup_app_l in Hl by done. rewrite (Hs _ _ Hl). unfold node_stat.
      by rewrite take_app_le by lia.
Qed.

Lemma makeLinked_loop_built todo rs h root :
  built rs h root ->
  exists h' root', makeLinked_loop todo h root (match_map rs) = Val (h', root') /\
    built (rs ++ todo) h' root'.
Proof.
  revert rs h root. induction todo as [|e todo IH]; intros rs h root Hb; simpl.
  - exists h, root. by rewrite app_nil_r.
  - pose proof (built_snoc rs h root e Hb) as Hs. simpl in Hs.
    pose proof (match_map_snoc rs e) as Hm. rewrite <- (built_brk _ _ _ Hb) in Hm.
    destruct (kind e); destruct Hs as (h2 & -> & Hb2); simpl;
      apply IH in Hb2 as (h' & root' & Hl & Hb'); rewrite Hm in Hl; rewrite <- app_assoc in Hb';
      exists h', root'; done.
Qed.

Lemma makeLinkedEntries_built entries :
  exists h root, makeLinkedEntries empty_heap entries = Val (h, root) /\
    built (reverse entries) h root.
Proof.
  destruct (makeLinked_loop_built (reverse entries) [] empty_heap None) as (h & r & H1 & H2).
  - by constructor.
  - exists h, r. done.
Qed.

(** [length] of a list is the number of its nodes. *)
Lemma length_loop_dseg h L p fuel acc :
  dseg (cells h) p L None -> (length L <= fuel)%nat ->
  0 <= acc -> acc + len L <= max_int ->
  length_loop fuel h (hd_or None L) acc = Val (acc + len L).
Proof.
  revert p fuel acc. induction L as [|l L IH]; intros p fuel acc Hd Hf Ha Hm; unfold len in *; simpl in *.
  - destruct fuel; simpl; unfold mret, res_ret; f_equal; lia.
  - destruct fuel as [|fuel]; [lia|]. destruct Hd as (nd & Hl & _ & Hn & Hd). simpl.
    rewrite (load_some _ _ _ Hl). simpl. rewrite Hn.
    rewrite wrap64_small by (unfold min_int, max_int in *; lia).
    erewrite IH; [f_equal; lia|done|lia|lia|lia].
Qed.

End PorcList.

#[global] Arguments load {_ _} _ _ : simpl never.

End PorcList.
