(* ===== verification/PorcCheck.v ===== *)
(** * The linearizability checker (porcupine/checker.go, porcupine/porcupine.go)

    [checkSingle] is the depth-first search of the source, on the linked list of PorcList.v, the bit
    sets of Bitset.v and a hash map of visited configurations.  One call of [iterate] is one turn of
    its loop.  [checkParallel] collects the results of one goroutine per partition. *)

From stdpp Require Import base list gmap strings.
From Stdlib Require Import ZArith Lia.
From S2P Require Import Prelude Bitset PorcModel PorcList.
Import Bitset PorcList.

Open Scope Z_scope.

Module PorcCheck.

(** [uint(i)] of an [int] *)
Definition to_uint (i : Z) : Z := i mod two64.

Section Entries.
Context {Inp Out : Type}.
Notation Operation := (Operation Inp Out).
Notation Event := (Event Inp Out).
Notation entry := (@entry Inp Out).

Fixpoint makeEntries_loop (history : list Operation) (i : Z) : list entry :=
  match history with
  | [] => []
  | elem :: rest =>
      mkEntry CallEvent (VIn (op_Input elem)) i (op_Call elem) (op_ClientId elem)
      :: mkEntry ReturnEvent (VOut (op_Output elem)) i (op_Return elem) (op_ClientId elem)
      :: makeEntries_loop rest (i + 1)
  end.

(** [sort.Sort(byTime(entries))] is not stable: [sort_byTime] stands for it. *)
Definition makeEntries (sort_byTime : list entry -> list entry) (history : list Operation)
    : list entry :=
  sort_byTime (makeEntries_loop history 0).

Fixpoint renumber_loop (events : list Event) (m : gmap Z Z) (i : Z) : list Event :=
  match events with
  | [] => []
  | v :: rest =>
      match m !! ev_Id v with
      | Some r => mkEvent (ev_ClientId v) (ev_Kind v) (ev_Value v) r :: renumber_loop rest m i
      | None =>
          mkEvent (ev_ClientId v) (ev_Kind v) (ev_Value v) i
          :: renumber_loop rest (<[ev_Id v := i]> m) (i + 1)
      end
  end.

Definition renumber (events : list Event) : list Event := renumber_loop events ∅ 0.

Fixpoint convertEntries_loop (events : list Event) (i : Z) : list entry :=
  match events with
  | [] => []
  | elem :: rest =>
      let k := if eqb (ev_Kind elem) ReturnEvent then true else false in
      mkEntry k (ev_Value elem) (ev_Id elem) i (ev_ClientId elem) :: convertEntries_loop rest (i + 1)
  end.

(** The index is used as the time. *)
Definition convertEntries (events : list Event) : list entry := convertEntries_loop events 0.

End Entries.

Section CheckSingle.
Context {Inp Out St : Type}.
Notation entry := (@entry Inp Out).
Notation node := (@node Inp Out).
Notation heap := (@heap Inp Out).

(** The model after [fillDefault]: its [Equal] is not nil. *)
Variable Init : St.
Variable Step : St -> Inp -> Out -> bool * St.
Variable Equal : St -> St -> bool.

Record cacheEntry := mkCacheEntry {
  ce_linearized : list Z;
  ce_state : St }.

Definition cacheT := gmap Z (list cacheEntry).

Fixpoint cacheContains_loop (elems : list cacheEntry) (e : cacheEntry) : res bool :=
  match elems with
  | [] => mret false
  | elem :: rest =>
      eq ← equals (ce_linearized e) (ce_linearized elem);
      if eq && Equal (ce_state e) (ce_state elem) then mret true else cacheContains_loop rest e
  end.

Definition cacheContains (cache : gmap Z (list cacheEntry)) (e : cacheEntry) : res bool :=
  cacheContains_loop (default [] (cache !! hash (ce_linearized e))) e.

Record callsEntry := mkCallsEntry {
  cs_entry : nat;
  cs_state : St }.

(** A pointer to a sequence of ids: the number of the turn that allocated it, and its contents. *)
Notation seqptr := (nat * list Z)%type (only parsing).

Record config := mkConfig {
  c_heap : heap;
  c_entry : option nat;
  c_state : St;
  c_linearized : list Z;
  c_cache : gmap Z (list cacheEntry);
  c_calls : list callsEntry;
  c_longest : list (option seqptr);
  c_tick : nat }.

(** [model.Step(state, entry.value, matching.value)]: the model asserts the dynamic types. *)
Definition call_Step (st : St) (v w : option (value Inp Out)) : res (bool * St) :=
  match v, w with
  | Some (VIn i), Some (VOut o) => mret (Step st i o)
  | _, _ => Err (EPanic "interface conversion")
  end.

(** [seq[i] = v.entry.id] for the entries of [calls] *)
Fixpoint call_ids (h : heap) (calls : list callsEntry) : res (list Z) :=
  match calls with
  | [] => mret []
  | v :: rest =>
      nd ← load h (Some (cs_entry v));
      ids ← call_ids h rest;
      mret (nid nd :: ids)
  end.

(** The loop over [calls] that records [seq] as the longest partial linearization of each of them;
    [tick] stands for the address of the sequence created lazily in this turn. *)
Fixpoint update_longest (longest : list (option seqptr)) (ids seq : list Z) (tick : nat)
    : res (list (option seqptr)) :=
  match ids with
  | [] => mret longest
  | i :: rest =>
      old ← go_index longest i;
      if match old with None => true | Some (_, s) => len s <? len seq end
      then longest' ← go_update longest i (Some (tick, seq)); update_longest longest' rest seq tick
      else update_longest longest rest seq tick
  end.

(** One turn of the loop that has passed the test of [kill]. *)
Definition iterate (head : nat) (computePartial : bool) (c : config)
    : res (config + bool * list (option seqptr)) :=
  nd ← load (c_heap c) (c_entry c);
  match nmatch nd with
  | Some matching =>
      md ← load (c_heap c) (Some matching);
      '(ok, newState) ← call_Step (c_state c) (nvalue nd) (nvalue md);
      if (ok : bool) then
        newLinearized ← set (clone (c_linearized c)) (to_uint (nid nd));
        let newCacheEntry := mkCacheEntry newLinearized newState in
        seen ← cacheContains (c_cache c) newCacheEntry;
        if negb seen then
          let hsh := hash newLinearized in
          let cache := <[hsh := default [] (c_cache c !! hsh) ++ [newCacheEntry]]> (c_cache c) in
          e ← of_option ENil (c_entry c);
          let calls := c_calls c ++ [mkCallsEntry e (c_state c)] in
          linearized ← set (c_linearized c) (to_uint (nid nd));
          h ← lift (c_heap c) (c_entry c);
          entry ← next_of h (Some head);
          mret (inl (mkConfig h entry newState linearized cache calls (c_longest c) (S (c_tick c))))
        else
          mret (inl (mkConfig (c_heap c) (nnext nd) (c_state c) (c_linearized c) (c_cache c)
                       (c_calls c) (c_longest c) (S (c_tick c))))
      else
        mret (inl (mkConfig (c_heap c) (nnext nd) (c_state c) (c_linearized c) (c_cache c)
                     (c_calls c) (c_longest c) (S (c_tick c))))
  | None =>
      if len (c_calls c) =? 0 then mret (inr (false, c_longest c))
      else
        longest ← (if computePartial then
                     ids ← call_ids (c_heap c) (c_calls c);
                     update_longest (c_longest c) ids ids (c_tick c)
                   else mret (c_longest c));
        callsTop ← go_index (c_calls c) (len (c_calls c) - 1);
        let entry := cs_entry callsTop in
        end_ ← load (c_heap c) (Some entry);
        linearized ← clear (c_linearized c) (to_uint (nid end_));
        calls ← go_slice (c_calls c) 0 (len (c_calls c) - 1);
        h ← unlift (c_heap c) (Some entry);
        entry' ← next_of h (Some entry);
        mret (inl (mkConfig h entry' (cs_state callsTop) linearized (c_cache c) calls longest
                     (S (c_tick c))))
  end.

(** The loop with its exit test, the test of [kill], and what follows the loop. [kill k] is what the
    [k]-th turn reads from the shared flag. *)
Fixpoint check_loop (fuel : nat) (head : nat) (n : Z) (computePartial : bool) (kill : nat -> bool)
    (c : config) : res (bool * list (option seqptr)) :=
  match fuel with
  | O => Err (EPanic "fuel")
  | S fuel' =>
      nxt ← next_of (c_heap c) (Some head);
      match nxt with
      | None =>
          ids ← call_ids (c_heap c) (c_calls c);
          mret (true, replicate (Z.to_nat n) (Some (c_tick c, ids)))
      | Some _ =>
          if kill (c_tick c) then mret (false, c_longest c)
          else
            r ← iterate head computePartial c;
            match r with
            | inl c' => check_loop fuel' head n computePartial kill c'
            | inr out => mret out
            end
      end
  end.

(** Turns the search of [m] pending operations can take: at each of at most [2 m] entries one turn to
    skip it, or one to lift it, the search of the rest, and one to come back. *)
Fixpoint check_cost (m : nat) : nat :=
  match m with
  | O => 0
  | S m' => (2 * m) * (2 + check_cost m')
  end.

Definition checkSingle (history : list entry) (computePartial : bool) (kill : nat -> bool)
    : res (bool * list (option seqptr)) :=
  '(h0, entry) ← makeLinkedEntries empty_heap history;
  l ← length_list h0 entry;
  let n := Z.quot l 2 in
  let linearized := newBitset (to_uint n) in
  let longest := replicate (Z.to_nat n) None in
  let '(h1, head) := alloc h0 (mkNode None None (-1) None None) in
  h2 ← insertBefore h1 head entry;
  check_loop (2 + check_cost (Z.to_nat n)) head n computePartial kill
    (mkConfig h2 entry Init linearized ∅ [] longest 0).

(** ** checkParallel

    One goroutine per partition sends its answer on [results].  A schedule lists what the [select]
    takes, in order: the answer of a goroutine, or the timer. *)

Inductive sel := SelResult (i : nat) | SelTimeout.

(** The select loop: [answers] are those of the goroutines that finish before [kill] is set.  The result
    is [ok], [timedOut] and the goroutines heard of; [None] if the loop still waits when the schedule
    ends, or the schedule takes what is not there (a second answer of a goroutine, or the timer when
    there is none). *)
Fixpoint select_loop (answers : list bool) (computeInfo timer : bool) (sched : list sel) (ok : bool)
    (heard : list nat) : option (bool * bool * list nat) :=
  match sched with
  | [] => None
  | SelTimeout :: _ => if timer then Some (ok, true, heard) else None
  | SelResult i :: rest =>
      if decide (i ∈ heard) then None
      else
        match answers !! i with
        | None => None
        | Some result =>
            let heard' := heard ++ [i] in
            let ok' := ok && result in
            if negb ok' && negb computeInfo then Some (ok', false, heard')
            else if (length answers <=? length heard')%nat then Some (ok', false, heard')
            else select_loop answers computeInfo timer rest ok' heard'
        end
  end.

(** The distinct sequences among [longest], in the order [range] visits the set of their addresses *)
Definition unique_partials (map_range : list (nat * list Z) -> list (nat * list Z))
    (longest : list (option seqptr)) : list (list Z) :=
  snd <$> map_range (remove_dups (omap (fun o => o) longest)).

Record linearizationInfo := mkInfo {
  info_history : list (list entry);
  info_partials : list (list (list Z)) }.

(** [late i] is what goroutine [i] reads from [kill] when it is still running as [kill] is set. *)
Definition checkParallel (history : list (list entry)) (computeInfo : bool) (timeout : Z)
    (map_range : list (nat * list Z) -> list (nat * list Z))
    (sched : list sel) (late : nat -> nat -> bool) : res (option (CheckResult * linearizationInfo)) :=
  first ← mapM (fun h => checkSingle h computeInfo (fun _ => false)) history;
  killed ← mapM (fun ih => checkSingle ih.2 computeInfo (late ih.1)) (imap pair history);
  match select_loop (fst <$> first) computeInfo (0 <? timeout) sched true [] with
  | None => mret None
  | Some (ok, timedOut, heard) =>
      let longest := imap (fun i l => if decide (i ∈ heard) then l.2 else default [] (snd <$> killed !! i)) first in
      let info := if computeInfo then mkInfo history (unique_partials map_range <$> longest) else mkInfo [] [] in
      let result := if negb ok then Illegal else if (timedOut : bool) then Unknown else Ok in
      mret (Some (result, info))
  end.

End CheckSingle.

(** ** The entry points (porcupine/porcupine.go) *)

Section Entry.
Context {Inp Out St : Type} `{EqDecision St}.
Variables (ddo : Inp -> Out -> string) (dds : St -> string).
Variable (sort_byTime : list (@entry Inp Out) -> list (@entry Inp Out)).
Variable (map_range : list (nat * list Z) -> list (nat * list Z)).

(** The fields of a model after [fillDefault] *)
Definition equal_of (m : Model Inp Out St) : St -> St -> bool := default ShallowEqual (Equal m).

Definition checkEvents (model : Model Inp Out St) (history : list (Event Inp Out)) (verbose : bool)
    (timeout : Z) (sched : list sel) (late : nat -> nat -> bool) : res (option (CheckResult * linearizationInfo)) :=
  let model := fillDefault ddo dds model in
  let partitions := default NoPartitionEvent (PartitionEvent model) history in
  let l := (fun subhistory => convertEntries (renumber subhistory)) <$> partitions in
  checkParallel (Init model) (Step model) (equal_of model) l verbose timeout map_range sched late.

Definition checkOperations (model : Model Inp Out St) (history : list (Operation Inp Out)) (verbose : bool)
    (timeout : Z) (sched : list sel) (late : nat -> nat -> bool) : res (option (CheckResult * linearizationInfo)) :=
  let model := fillDefault ddo dds model in
  let partitions := default NoPartition (Partition model) history in
  let l := (fun subhistory => makeEntries sort_byTime subhistory) <$> partitions in
  checkParallel (Init model) (Step model) (equal_of model) l verbose timeout map_range sched late.

(** [res == Ok] of a check that has returned *)
Definition is_ok (r : res (option (CheckResult * @linearizationInfo Inp Out))) : res (option bool) :=
  match r with
  | Val (Some (result, _)) => Val (Some (bool_decide (result = Ok)))
  | Val None => Val None
  | Err e => Err e
  end.

Definition result_of (r : res (option (CheckResult * @linearizationInfo Inp Out))) : res (option CheckResult) :=
  match r with
  | Val (Some (result, _)) => Val (Some result)
  | Val None => Val None
  | Err e => Err e
  end.

Definition CheckOperations model history sched late :=
  is_ok (checkOperations model history false 0 sched late).

Definition CheckOperationsTimeout model history timeout sched late :=
  result_of (checkOperations model history false timeout sched late).

Definition CheckOperationsVerbose model history timeout sched late :=
  checkOperations model history true timeout sched late.

Definition CheckEvents model history sched late :=
  is_ok (checkEvents model history false 0 sched late).

Definition CheckEventsTimeout model history timeout sched late :=
  result_of (checkEvents model history false timeout sched late).

Definition CheckEventsVerbose model history timeout sched late :=
  checkEvents model history true timeout sched late.

End Entry.
End PorcCheck.
