(* ===== verification/PorcSpec.v ===== *)
(** * Linearizability, and a reference search that decides it

    A history is a list of call and return events of operations, [(false, i)] and [(true, i)].
    [linearization] is the definition of linearizability: a total order of the operations that
    respects the real-time order of the history and that the sequential model accepts.  [search] is
    the textbook recursive search with a table of visited configurations; this file proves it sound
    and complete, and PorcCorrect.v shows that the loop of the source computes it. *)

From stdpp Require Import base list gmap.
From Stdlib Require Import ZArith Lia.
From S2P Require Import Prelude.

Open Scope Z_scope.

Module PorcSpec.

Notation hevent := (bool * Z)%type (only parsing).

Section History.

(** Every operation is called and returns once, in this order. *)
Record wf_history (es : list hevent) : Prop := {
  wfh_nodup : NoDup es;
  wfh_call : forall i A B, es = A ++ (true, i) :: B -> (false, i) ∈ A;
  wfh_return : forall i, (false, i) ∈ es -> (true, i) ∈ es }.

Definition remove_op (i : Z) (es : list hevent) : list hevent := filter (fun e => e.2 <> i) es.

(** The return of [a] comes before the call of [b]. *)
Definition precedes (es : list hevent) (a b : Z) : Prop :=
  exists A B C, es = A ++ (true, a) :: B ++ (false, b) :: C.

Definition ordered (l : list Z) (a b : Z) : Prop := exists A B C, l = A ++ a :: B ++ b :: C.

(** [i] is called before the first return of the history. *)
Definition minimal (es : list hevent) (i : Z) : Prop :=
  exists A B, es = A ++ (false, i) :: B /\ Forall (fun e => e.1 = false) A.

Lemma filter_split {A} (P : A -> Prop) `{forall x, Decision (P x)} l K x L :
  filter P l = K ++ x :: L ->
  exists K' L', l = K' ++ x :: L' /\ filter P K' = K /\ filter P L' = L /\ P x.
Proof.
  revert K. induction l as [|y l IH]; intros K; [by destruct K|].
  rewrite filter_cons. case_decide as Hy.
  - destruct K as [|k K]; simpl; intros [= <- Hl].
    + exists [], l. done.
    + apply IH in Hl as (K' & L' & -> & <- & <- & HP).
      exists (y :: K'), L'. rewrite filter_cons_True by done. done.
  - intros Hl. apply IH in Hl as (K' & L' & -> & <- & <- & HP).
    exists (y :: K'), L'. rewrite filter_cons_False by done. done.
Qed.

Lemma elem_of_remove_op i e es : e ∈ remove_op i es <-> e ∈ es /\ e.2 <> i.
Proof. unfold remove_op. rewrite list_elem_of_filter. tauto. Qed.

Lemma wfh_call_elem es i : wf_history es -> (true, i) ∈ es -> (false, i) ∈ es.
Proof.
  intros Hw (A & B & ->)%list_elem_of_split.
  pose proof (wfh_call _ Hw i A B eq_refl). set_solver.
Qed.

Lemma wf_remove_op i es : wf_history es -> wf_history (remove_op i es).
Proof.
  intros [Hn Hc Hr]. constructor.
  - by apply NoDup_filter.
  - intros j A B Heq. unfold remove_op in Heq.
    apply filter_split in Heq as (A' & B' & -> & <- & <- & Hj).
    apply list_elem_of_filter. split; [done|]. by eapply Hc.
  - intros j. rewrite !elem_of_remove_op. naive_solver.
Qed.

Lemma precedes_remove_op es i a b :
  a <> i -> b <> i -> precedes (remove_op i es) a b <-> precedes es a b.
Proof.
  intros Ha Hb. split.
  - intros (A & B & C & Heq).
    apply filter_split in Heq as (A' & R & -> & _ & Heq & _).
    apply filter_split in Heq as (B' & C' & -> & _ & _ & _). by exists A', B', C'.
  - intros (A & B & C & ->). unfold remove_op.
    rewrite filter_app, filter_cons_True, filter_app, filter_cons_True by done. by eexists _, _, _.
Qed.

Lemma precedes_elem es a b : precedes es a b -> (true, a) ∈ es /\ (false, b) ∈ es.
Proof. intros (A & B & C & ->). set_solver. Qed.

Lemma NoDup_split_unique {A} (x : A) K1 L1 K2 L2 :
  NoDup (K1 ++ x :: L1) -> K1 ++ x :: L1 = K2 ++ x :: L2 -> K1 = K2 /\ L1 = L2.
Proof.
  revert K2. induction K1 as [|k K1 IH]; intros K2 Hn; destruct K2 as [|k2 K2]; simpl.
  - intros [= ->]. done.
  - intros [= <- ->]. apply NoDup_cons in Hn as [Hx _]. set_solver.
  - intros [= -> <-]. apply NoDup_cons in Hn as [Hx _]. set_solver.
  - intros [= <- Heq]. apply NoDup_cons in Hn as [_ Hn].
    destruct (IH K2 Hn Heq) as [-> ->]. done.
Qed.

Lemma not_precedes_self es i : wf_history es -> ~ precedes es i i.
Proof.
  intros Hw (A & B & C & Heq). pose proof (wfh_call _ Hw _ _ _ Heq) as Hin.
  apply list_elem_of_split in Hin as (A1 & A2 & ->).
  pose proof (wfh_nodup _ Hw) as Hn. rewrite Heq in Hn.
  apply NoDup_app in Hn as (_ & H1 & _). apply (H1 (false, i)); set_solver.
Qed.

Lemma minimal_not_preceded es i a : wf_history es -> minimal es i -> ~ precedes es a i.
Proof.
  intros Hw (A & B & -> & HA) (A' & B' & C' & Heq).
  rewrite app_comm_cons, app_assoc in Heq.
  apply NoDup_split_unique in Heq as [-> ->]; [|apply Hw].
  rewrite Forall_app in HA. destruct HA as [_ HA]. inversion_clear HA as [|? ? H1 H2]. done.
Qed.

Lemma not_preceded_minimal es i :
  (false, i) ∈ es -> (forall a, ~ precedes es a i) -> minimal es i.
Proof.
  intros (A & B & ->)%list_elem_of_split Hp. exists A, B. split; [done|].
  apply Forall_forall. intros [[] a] Hin; [|done]. exfalso.
  apply list_elem_of_split in Hin as (A1 & A2 & ->). apply (Hp a).
  exists A1, A2, B. by rewrite <- app_assoc.
Qed.

Lemma wf_history_no_calls es : wf_history es -> (forall i, (false, i) ∉ es) -> es = [].
Proof.
  intros Hw Hc. destruct es as [|[[] i] es]; [done|..]; exfalso.
  - eapply (Hc i), wfh_call_elem; [done|]. set_solver.
  - apply (Hc i). set_solver.
Qed.

(** Removing one operation removes its call and its return. *)
Lemma remove_op_length es i :
  wf_history es -> (false, i) ∈ es -> length es = S (S (length (remove_op i es))).
Proof.
  intros Hw Hi.
  assert (es ≡ₚ (false, i) :: (true, i) :: remove_op i es) as Hp.
  { apply NoDup_Permutation; [apply Hw| |].
    - constructor; [rewrite elem_of_cons, elem_of_remove_op; naive_solver|].
      constructor; [rewrite elem_of_remove_op; naive_solver|]. apply NoDup_filter, Hw.
    - intros [b j]. rewrite !elem_of_cons, elem_of_remove_op. simpl.
      pose proof (wfh_return _ Hw i Hi). destruct (decide (j = i)); [subst; destruct b|]; naive_solver. }
  apply Permutation_length in Hp. done.
Qed.

Lemma wf_history_even es : wf_history es -> exists m, length es = (2 * m)%nat.
Proof.
  remember (length es) as k eqn:Hk. revert es Hk.
  induction (lt_wf k) as [k _ IH]. intros es -> Hw.
  destruct es as [|[c i] es']; [by exists 0%nat|]. set (es := (c, i) :: es') in *.
  assert ((false, i) ∈ es) as Hi.
  { destruct c; [|unfold es; set_solver]. apply wfh_call_elem; [done|]. unfold es. set_solver. }
  pose proof (remove_op_length es i Hw Hi) as Hl.
  destruct (IH (length (remove_op i es)) ltac:(lia) _ eq_refl (wf_remove_op i es Hw)) as [m Hm].
  exists (S m). lia.
Qed.

End History.

Section Rest.

(** What is left of a history after the operations [done]. *)
Variable hist : list hevent.

Definition rest (done : gset Z) : list hevent := filter (fun e => e.2 ∉ done) hist.

Lemma rest_remove_op i done : remove_op i (rest done) = rest ({[i]} ∪ done).
Proof.
  unfold remove_op, rest. rewrite list_filter_filter. apply list_filter_iff.
  intros e. set_solver.
Qed.

Lemma rest_wf done : wf_history hist -> wf_history (rest done).
Proof.
  intros hist_wf. constructor.
  - apply NoDup_filter, hist_wf.
  - intros j A B Heq. apply filter_split in Heq as (A' & B' & Heq & <- & <- & Hj).
    apply list_elem_of_filter. split; [done|]. by eapply (wfh_call _ hist_wf).
  - intros j. unfold rest. rewrite !list_elem_of_filter. simpl. intros [? ?].
    split; [done|]. by apply hist_wf.
Qed.

Lemma rest_empty : rest ∅ = hist.
Proof.
  unfold rest. induction hist as [|e l IH]; [done|].
  rewrite filter_cons_True by set_solver. by rewrite IH.
Qed.

End Rest.

Section Spec.
Context {Inp Out St : Type}.
Variable Step : St -> Inp -> Out -> bool * St.
Variable inp : Z -> Inp.
Variable out : Z -> Out.

(** The sequential model accepts the operations in the order [l], from state [st]. *)
Fixpoint accepts (st : St) (l : list Z) : Prop :=
  match l with
  | [] => True
  | i :: l' => (Step st (inp i) (out i)).1 = true /\ accepts (Step st (inp i) (out i)).2 l'
  end.

Record linearization (es : list hevent) (st : St) (l : list Z) : Prop := {
  lin_nodup : NoDup l;
  lin_ops : forall i, i ∈ l <-> (false, i) ∈ es;
  lin_order : forall a b, precedes es a b -> ordered l a b;
  lin_accepts : accepts st l }.

Definition linearizable (es : list hevent) (st : St) : Prop := exists l, linearization es st l.

(** The same, one operation at a time. *)
Inductive lin : list hevent -> St -> list Z -> Prop :=
  | lin_nil st : lin [] st []
  | lin_cons es st i l :
      minimal es i -> (Step st (inp i) (out i)).1 = true ->
      lin (remove_op i es) (Step st (inp i) (out i)).2 l -> lin es st (i :: l).

Lemma lin_linearization es st l : wf_history es -> lin es st l -> linearization es st l.
Proof.
  intros Hw Hl. revert Hw. induction Hl as [st|es st i l Hm Hok Hl IH]; intros Hw.
  - constructor; [constructor|set_solver| |done]. intros a b [Ha _]%precedes_elem. set_solver.
  - destruct (IH (wf_remove_op i es Hw)) as [Hn Ho Hord Hacc].
    assert (Hi : (false, i) ∈ es) by (destruct Hm as (A & B & -> & _); set_solver).
    assert (Hops : forall j, j ∈ i :: l <-> (false, j) ∈ es).
    { intros j. rewrite elem_of_cons, Ho, elem_of_remove_op. simpl.
      destruct (decide (j = i)); naive_solver. }
    constructor; [|done| |done].
    + constructor; [|done]. rewrite Ho, elem_of_remove_op. naive_solver.
    + intros a b Hab. destruct (precedes_elem _ _ _ Hab) as [Ha Hb].
      destruct (decide (b = i)) as [->|Hbi]; [by apply minimal_not_preceded in Hab|].
      destruct (decide (a = i)) as [->|Hai].
      * apply Hops in Hb. apply elem_of_cons in Hb as [?|Hb]; [done|].
        apply list_elem_of_split in Hb as (B & C & ->). by exists [], B, C.
      * destruct (Hord a b) as (A & B & C & ->); [by apply precedes_remove_op|].
        by exists (i :: A), B, C.
Qed.

Lemma linearization_lin es st l : wf_history es -> linearization es st l -> lin es st l.
Proof.
  revert es st. induction l as [|i l IH]; intros es st Hw [Hn Ho Hord Hacc].
  - rewrite (wf_history_no_calls es); [constructor|done|]. intros i. rewrite <- Ho. set_solver.
  - apply NoDup_cons in Hn as [Hil Hn]. destruct Hacc as [Hok Hacc].
    assert (Hfirst : forall a, ~ ordered (i :: l) a i).
    { intros a (A & B & C & Heq). destruct A as [|a' A]; injection Heq as -> Heq; set_solver. }
    constructor; [|done|].
    + apply not_preceded_minimal; [apply Ho; set_solver|]. intros a Ha%Hord. by eapply Hfirst.
    + apply IH; [by apply wf_remove_op|]. constructor; [done| | |done].
      * intros j. rewrite elem_of_remove_op, <- Ho, elem_of_cons. simpl.
        destruct (decide (j = i)); naive_solver.
      * intros a b Hab. destruct (precedes_elem _ _ _ Hab) as [Ha Hb].
        apply elem_of_remove_op in Ha as [_ Ha], Hb as [_ Hb]. simpl in *.
        apply precedes_remove_op in Hab; [|done..].
        apply Hord in Hab as (A & B & C & Heq).
        destruct A as [|a' A]; injection Heq as -> Heq; [done|]. by exists A, B, C.
Qed.

(** ** The reference search

    A configuration is the set of operations linearized so far and the state they lead to; [table]
    holds the configurations visited. [search m es done st table] tries to linearize the [m]
    operations of [es]; it returns the order found, if any, and the table. *)

Variable Equal : St -> St -> bool.

Notation table := (list (gset Z * St)) (only parsing).

Definition visited (t : table) (done : gset Z) (st : St) : bool :=
  existsb (fun c => bool_decide (done = c.1) && Equal st c.2) t.

Fixpoint scan (rec : list hevent -> gset Z -> St -> table -> option (list Z) * table)
    (es : list hevent) (done : gset Z) (st : St) (l : list hevent) (t : table)
    : option (list Z) * table :=
  match l with
  | [] => (None, t)
  | (true, _) :: _ => (None, t)
  | (false, i) :: l' =>
      let r := Step st (inp i) (out i) in
      if r.1 && negb (visited t ({[i]} ∪ done) r.2) then
        match rec (remove_op i es) ({[i]} ∪ done) r.2 (({[i]} ∪ done, r.2) :: t) with
        | (Some s, t') => (Some (i :: s), t')
        | (None, t') => scan rec es done st l' t'
        end
      else scan rec es done st l' t
  end.

Fixpoint search (m : nat) (es : list hevent) (done : gset Z) (st : St) (t : table)
    : option (list Z) * table :=
  match m with
  | O => (Some [], t)
  | S m' => scan (search m') es done st es t
  end.

(** ** Soundness *)

Lemma scan_sound m es done st l A t s t' :
  es = A ++ l -> Forall (fun e => e.1 = false) A ->
  (forall es done st t s t', length es = (2 * m)%nat -> wf_history es ->
     search m es done st t = (Some s, t') -> lin es st s) ->
  length es = (2 * S m)%nat -> wf_history es ->
  (forall i, (false, i) ∈ es -> length (remove_op i es) = (2 * m)%nat) ->
  scan (search m) es done st l t = (Some s, t') -> lin es st s.
Proof.
  intros Hes HA Hrec Hlen Hw Hrm. revert A t Hes HA.
  induction l as [|[[] i] l IH]; intros A t Hes HA; simpl; [done..|].
  assert (Hi : (false, i) ∈ es) by (rewrite Hes; set_solver).
  assert (Hnext : forall t, scan (search m) es done st l t = (Some s, t') -> lin es st s).
  { intros t1. apply (IH (A ++ [(false, i)])).
    - by rewrite <- app_assoc.
    - apply Forall_app. split; [done|]. by constructor. }
  destruct (Step st (inp i) (out i)).1 eqn:Hok; simpl; [|apply Hnext].
  destruct (visited _ _ _) eqn:Hv; simpl; [apply Hnext|].
  destruct (search m _ _ _ _) as [[s1|] t1] eqn:Hs; [|apply Hnext].
  intros [= <- <-]. constructor; [by exists A, l|done|].
  eapply Hrec; [| |exact Hs]; [by apply Hrm|by apply wf_remove_op].
Qed.

Lemma search_sound m es done st t s t' :
  length es = (2 * m)%nat -> wf_history es ->
  search m es done st t = (Some s, t') -> lin es st s.
Proof.
  revert es done st t s t'. induction m as [|m IH]; intros es dn st t s t' Hlen Hw; simpl.
  - destruct es; [|done]. intros [= <- <-]. constructor.
  - eapply scan_sound with (A := []); try done.
    intros i Hi. pose proof (remove_op_length es i Hw Hi). lia.
Qed.

(** ** Completeness

    [Equal] may identify states that accept the same continuations. *)

Definition equal_sound : Prop :=
  forall s t i, Equal s t = true ->
    (Step s (inp i) (out i)).1 = (Step t (inp i) (out i)).1 /\
    Equal (Step s (inp i) (out i)).2 (Step t (inp i) (out i)).2 = true.

Hypothesis Equal_sound : equal_sound.

Lemma lin_equal es s t l : Equal s t = true -> lin es s l -> lin es t l.
Proof.
  intros He Hl. revert t He. induction Hl as [|es s i l Hm Hok Hl IH]; intros t He.
  - constructor.
  - destruct (Equal_sound s t i He) as [H1 H2]. constructor; [done|congruence|]. by apply IH.
Qed.

(** The history the search started from. *)
Variable hist : list hevent.
Hypothesis hist_wf : wf_history hist.
Notation rest := (rest hist).

Definition dead (c : gset Z * St) : Prop := forall l, ~ lin (rest c.1) c.2 l.

(** Visited configurations of at least [k] operations have no linearization. *)
Definition dead_from (k : nat) (t : table) : Prop :=
  forall c, c ∈ t -> (k <= size c.1)%nat -> dead c.

Lemma visited_dead t done st :
  visited t done st = true -> dead_from (size done) t -> dead (done, st).
Proof.
  unfold visited. rewrite existsb_exists. intros ([d s] & Hin & [Hd He]%andb_true_iff) Hdead l Hl.
  apply bool_decide_eq_true in Hd. simpl in *. subst d.
  apply list_elem_of_In in Hin. apply (Hdead (done, s) Hin ltac:(done) l).
  by eapply lin_equal.
Qed.

(** What a failed search of [done] guarantees. *)
Definition failed (done : gset Z) (t t' : table) : Prop :=
  dead_from (S (size done)) t' /\
  (forall c, c ∈ t' -> c ∈ t \/ (size done < size c.1)%nat).

Definition search_complete_at (m : nat) : Prop :=
  forall done st t t',
    length (rest done) = (2 * m)%nat -> dead_from (S (size done)) t ->
    search m (rest done) done st t = (None, t') -> failed done t t' /\ dead (done, st).

Lemma scan_complete m done st l A t t' :
  search_complete_at m ->
  rest done = A ++ l -> length (rest done) = (2 * S m)%nat ->
  dead_from (S (size done)) t ->
  scan (search m) (rest done) done st l t = (None, t') ->
  failed done t t' /\
  (forall i, (exists B C, l = B ++ (false, i) :: C /\ Forall (fun e => e.1 = false) B) ->
     (Step st (inp i) (out i)).1 = true ->
     dead ({[i]} ∪ done, (Step st (inp i) (out i)).2)).
Proof.
  intros Hrec. revert A t. induction l as [|[[] i] l IH]; intros A t Hes Hlen Hdead; simpl.
  - intros [= <-]. split; [by split; [|auto]|]. intros i (B & C & Heq & _). by destruct B.
  - intros [= <-]. split; [by split; [|auto]|]. intros j (B & C & Heq & HB).
    destruct B as [|[b k] B]; injection Heq as Heq; [done|]. inversion_clear HB. naive_solver.
  - assert (Hi : (false, i) ∈ rest done) by (rewrite Hes; set_solver).
    assert (Hnd : i ∉ done) by (apply list_elem_of_filter in Hi; naive_solver).
    assert (Hsz : size ({[i]} ∪ done) = S (size done)).
    { rewrite size_union by set_solver. by rewrite size_singleton. }
    assert (Hnext : forall t1, dead_from (S (size done)) t1 ->
      ((Step st (inp i) (out i)).1 = true -> dead ({[i]} ∪ done, (Step st (inp i) (out i)).2)) ->
      (forall c, c ∈ t1 -> c ∈ t \/ (size done < size c.1)%nat) ->
      scan (search m) (rest done) done st l t1 = (None, t') ->
      failed done t t' /\
      (forall j, (exists B C, (false, i) :: l = B ++ (false, j) :: C /\
                              Forall (fun e => e.1 = false) B) ->
         (Step st (inp j) (out j)).1 = true ->
         dead ({[j]} ∪ done, (Step st (inp j) (out j)).2))).
    { intros t1 Hd1 Hdi Ht1 Hs1.
      destruct (IH (A ++ [(false, i)]) t1) as [[Hf1 Hf2] Hall]; [by rewrite <- app_assoc|done..|].
      split.
      - split; [done|]. intros c [Hc|Hc]%Hf2; auto.
      - intros j (B & C & Heq & HB). destruct B as [|b B]; injection Heq as Heq; [naive_solver|].
        apply Hall. exists B, C. split; [done|]. by inversion HB. }
    destruct (Step st (inp i) (out i)).1 eqn:Hok; simpl; [|apply Hnext; auto; done].
    destruct (visited _ _ _) eqn:Hv; simpl.
    + apply Hnext; auto. intros _. eapply visited_dead; [done|]. by rewrite Hsz.
    + rewrite (rest_remove_op hist).
      destruct (search m _ _ _ _) as [[s1|] t1] eqn:Hs; [done|].
      apply Hrec in Hs as [[Hf1 Hf2] Hdi].
      * apply Hnext; [|auto|].
        -- intros c Hc Hsc. apply Hf2 in Hc as Hc'. rewrite Hsz in Hc', Hf1.
           destruct Hc' as [[->|Hc']%elem_of_cons|Hc']; [done|by apply Hdead|].
           apply Hf1; [done|lia].
        -- intros c [[->|Hc]%elem_of_cons|Hc]%Hf2; simpl; [right; lia|by left|right; lia].
      * rewrite <- (rest_remove_op hist).
        pose proof (remove_op_length _ i (rest_wf hist done hist_wf) Hi). lia.
      * rewrite Hsz. intros c [->|Hc]%elem_of_cons; simpl; [lia|].
        intros. apply Hdead; [done|lia].
Qed.

Lemma search_complete m : search_complete_at m.
Proof.
  induction m as [|m IH]; intros dn st t t' Hlen Hd; simpl; [done|].
  intros Hs. eapply (scan_complete m dn st _ []) in Hs as [Hf Hall]; [|done..].
  split; [done|]. intros l Hl. simpl in Hl. inversion Hl as [? Hr|? ? i l' Hm Hok Hl']; subst.
  - rewrite <- Hr in Hlen. simpl in Hlen. lia.
  - eapply (Hall i); [done|done|]. simpl. rewrite <- (rest_remove_op hist). done.
Qed.

(** The search from scratch decides linearizability. *)
Lemma search_correct m st :
  length hist = (2 * m)%nat ->
  (is_Some (search m hist ∅ st []).1 <-> linearizable hist st).
Proof.
  intros Hlen. split.
  - intros [s Hs]. destruct (search m hist ∅ st []) as [o t] eqn:E. simpl in Hs. subst o.
    exists s. apply lin_linearization; [done|]. by eapply search_sound.
  - intros [l Hl]. destruct (search m hist ∅ st []) as [[s|] t] eqn:E; [by eexists|].
    exfalso. rewrite <- (rest_empty hist) in E.
    apply search_complete in E as [_ Hdead].
    + apply (Hdead l). simpl. rewrite rest_empty. by apply linearization_lin.
    + by rewrite rest_empty.
    + intros c Hc. by apply elem_of_nil in Hc.
Qed.

End Spec.
End PorcSpec.
