(* ===== verification/PorcCorrect.v ===== *)
(** * [checkSingle] decides linearizability

    The loop of the source is shown to run the reference search of PorcSpec.v: from the
    configuration that starts scanning an entry, it either finishes with a complete linearization or
    comes back, in a bounded number of turns, to the same list, set and stack at the first return.
    The heap after a failed branch is the heap before it, by [unlift] undoing [lift]. *)

From stdpp Require Import base list gmap strings.
From Stdlib Require Import ZArith Lia.
From S2P Require Import Prelude Bitset PorcModel PorcList PorcCheck PorcSpec.
Import Bitset PorcList PorcCheck PorcSpec.

Open Scope Z_scope.

Module PorcCorrect.

Definition event_of {Inp Out} (e : @entry Inp Out) : bool * Z := (kind e, id e).

(** The events of a history of entries. *)
Definition events {Inp Out} (es : list (@entry Inp Out)) : list (bool * Z) := event_of <$> es.

(** A history the checker can be given: every operation is called and then returns, the ids are
    [0 .. n-1], and calls and returns carry an input and an output. *)
Record wf_entries {Inp Out} (inp : Z -> Inp) (out : Z -> Out) (es : list (@entry Inp Out)) : Prop := {
  wfe_wf : wf_history (events es);
  wfe_ids : forall e, e ∈ es -> 0 <= id e < Z.quot (len es) 2;
  wfe_call : forall e, e ∈ es -> kind e = false -> evalue e = VIn (inp (id e));
  wfe_return : forall e, e ∈ es -> kind e = true -> evalue e = VOut (out (id e)) }.

Section Correct.
Context {Inp Out St : Type}.
Variable Init : St.
Variable Step : St -> Inp -> Out -> bool * St.
Variable Equal : St -> St -> bool.
Variable inp : Z -> Inp.
Variable out : Z -> Out.
Variable es : list (@entry Inp Out).
Hypothesis es_wf : wf_entries inp out es.

Let rs := reverse es.
Let N := length es.
Let n := Z.quot (len es) 2.

(** The event of the node at address [l]. *)
Definition ev_at (l : nat) : bool * Z := default (true, -1) (event_of <$> rs !! l).

Lemma rs_lookup l : (l < N)%nat -> exists e, rs !! l = Some e /\ e ∈ es /\ ev_at l = event_of e.
Proof.
  intros Hl. destruct (lookup_lt_is_Some_2 rs l) as [e He].
  { unfold rs. rewrite length_reverse. done. }
  exists e. split_and!; [done| |].
  - apply list_elem_of_lookup_2 in He. unfold rs in He. by rewrite elem_of_reverse in He.
  - unfold ev_at. by rewrite He.
Qed.

Lemma ev_at_all : ev_at <$> reverse (seq 0 N) = events es.
Proof.
  rewrite fmap_reverse. unfold events. rewrite <- (reverse_involutive es) at 1.
  fold rs. rewrite fmap_reverse. f_equal.
  apply list_eq. intros i. rewrite !list_lookup_fmap.
  destruct (decide (i < N)%nat) as [Hi|Hi].
  - rewrite lookup_seq_lt by done. destruct (rs_lookup i Hi) as (e & -> & _ & He). simpl. by rewrite He.
  - rewrite lookup_seq_ge by lia. rewrite lookup_ge_None_2; [done|].
    unfold rs. rewrite length_reverse. lia.
Qed.

Lemma ev_at_inj l k : (l < N)%nat -> (k < N)%nat -> ev_at l = ev_at k -> l = k.
Proof.
  intros Hl Hk Heq.
  pose proof (wfh_nodup _ (wfe_wf _ _ _ es_wf)) as Hn. rewrite <- ev_at_all in Hn.
  rewrite fmap_reverse, reverse_Permutation in Hn.
  eapply (NoDup_lookup _ l k (ev_at l)) in Hn; [done|..]; rewrite list_lookup_fmap, lookup_seq_lt by done.
  - done.
  - simpl. by rewrite Heq.
Qed.

(** ** The map from ids to return nodes *)

Lemma match_map_Some (r : list (@entry Inp Out)) i l :
  match_map r !! i = Some l -> exists e, r !! l = Some e /\ event_of e = (true, i).
Proof.
  induction r as [|e r IH] using rev_ind; [done|]. rewrite match_map_snoc.
  destruct (kind e) eqn:Hk.
  - destruct (decide (i = id e)) as [->|Hne].
    + rewrite lookup_insert_eq. intros [= <-]. exists e. rewrite lookup_app_r, Nat.sub_diag by done.
      split; [done|]. unfold event_of. by rewrite Hk.
    + rewrite lookup_insert_ne by congruence. intros (e' & He & Hv)%IH. exists e'.
      rewrite lookup_app_l by (by eapply lookup_lt_Some). done.
  - intros (e' & He & Hv)%IH. exists e'. rewrite lookup_app_l by (by eapply lookup_lt_Some). done.
Qed.

Lemma match_map_is_Some (r : list (@entry Inp Out)) i e :
  e ∈ r -> event_of e = (true, i) -> is_Some (match_map r !! i).
Proof.
  unfold event_of. intros He Hv. induction r as [|x r IH] using rev_ind; [by apply elem_of_nil in He|].
  rewrite match_map_snoc. apply elem_of_app in He as [He|He%list_elem_of_singleton].
  - specialize (IH He). destruct (kind x); [|done].
    destruct (decide (i = id x)) as [->|]; [by rewrite lookup_insert_eq|by rewrite lookup_insert_ne].
  - subst x. injection Hv as -> <-. by rewrite lookup_insert_eq.
Qed.

(** A call node points to the node of its return. *)
Lemma match_of_call l i :
  (l < N)%nat -> ev_at l = (false, i) ->
  exists r, match_map (take l rs) !! i = Some r /\ (r < N)%nat /\ ev_at r = (true, i).
Proof.
  intros Hl Hev. destruct (rs_lookup l Hl) as (e & He & Hin & Hee). rewrite Hev in Hee.
  assert (is_Some (match_map (take l rs) !! i)) as [r Hr].
  { pose proof (take_drop_middle rs l e He) as Hsplit.
    pose proof (wfe_wf _ _ _ es_wf) as Hw.
    assert ((true, i) ∈ events es) as Hret.
    { apply (wfh_return _ Hw). rewrite Hee. by apply list_elem_of_fmap_2. }
    assert (events es = reverse (event_of <$> drop (S l) rs) ++ event_of e :: reverse (event_of <$> take l rs))
      as Hes.
    { unfold events. rewrite <- (reverse_involutive es) at 1. fold rs. rewrite <- Hsplit at 1.
      rewrite !fmap_reverse, fmap_app, fmap_cons, reverse_app, reverse_cons, <- app_assoc. done. }
    rewrite Hes, elem_of_app, elem_of_cons in Hret.
    rewrite !elem_of_reverse in Hret. destruct Hret as [Hret|[Hret|Hret]]; [|congruence|].
    - (* the return cannot come before the call *)
      exfalso. rewrite <- elem_of_reverse in Hret.
      apply list_elem_of_split in Hret as (A & B & HAB). rewrite HAB, <- app_assoc in Hes. simpl in Hes.
      pose proof (wfh_call _ Hw _ _ _ Hes) as Hc. pose proof (wfh_nodup _ Hw) as Hnd.
      rewrite Hes in Hnd. apply NoDup_app in Hnd as (_ & Hnd & _).
      apply (Hnd (false, i) Hc). rewrite Hee. set_solver.
    - apply list_elem_of_fmap in Hret as (e' & Hev' & Hin'). symmetry in Hev'.
      by eapply match_map_is_Some. }
  exists r. split; [done|]. apply match_map_Some in Hr as (e' & He' & Hev').
  apply lookup_take_Some in He' as [He' _]. assert (r < N)%nat as HrN.
  { apply lookup_lt_Some in He'. unfold rs in He'. by rewrite length_reverse in He'. }
  split; [done|]. unfold ev_at. rewrite He'. simpl. done.
Qed.

(** ** The cache *)

Definition hit (e x : @cacheEntry St) : bool :=
  bool_decide (ce_linearized e = ce_linearized x) && Equal (ce_state e) (ce_state x).

Lemma cacheContains_loop_spec elems e : cacheContains_loop Equal elems e = Val (existsb (hit e) elems).
Proof.
  induction elems as [|x elems IH]; simpl; [done|]. rewrite equals_spec. simpl.
  unfold hit at 1. destruct (bool_decide _); simpl; [|done]. by destruct (Equal _ _).
Qed.

(** The hash map answers as the table of the reference search. *)
Definition cache_ok (cache : gmap Z (list (@cacheEntry St))) (t : list (gset Z * St)) : Prop :=
  forall done b st, holds n done b ->
    cacheContains Equal cache (mkCacheEntry b st) = Val (visited Equal t done st).

Lemma cache_ok_empty : cache_ok ∅ [].
Proof. intros done b st _. unfold cacheContains. by rewrite lookup_empty. Qed.

Lemma cache_ok_insert cache t done b st :
  cache_ok cache t -> holds n done b ->
  cache_ok (<[hash b := default [] (cache !! hash b) ++ [mkCacheEntry b st]]> cache) ((done, st) :: t).
Proof.
  intros Hc Hb d b' s Hb'. specialize (Hc d b' s Hb'). unfold cacheContains in *. simpl in *.
  rewrite cacheContains_loop_spec in *. injection Hc as Hc. f_equal.
  destruct (decide (hash b' = hash b)) as [Hh|Hh].
  - rewrite Hh, lookup_insert_eq in *. simpl. rewrite existsb_app, Hc. simpl. rewrite orb_false_r, orb_comm.
    f_equal. unfold hit. simpl. f_equal. apply bool_decide_ext. split; intros ->.
    + by eapply holds_set_inj.
    + by eapply holds_inj.
  - rewrite lookup_insert_ne by congruence. rewrite Hc. simpl.
    rewrite (bool_decide_eq_false_2 (d = done)); [done|]. intros ->. apply Hh. f_equal.
    by eapply holds_inj.
Qed.

(** ** Levels of the search

    [level h L done b]: the list of [h] behind the head node goes through the addresses [L], which
    hold what is left after the operations [done], whose bit set is [b]. *)

Notation head := N (only parsing).

Record level (h : @heap Inp Out) (L : list nat) (done : gset Z) (b : list Z) : Prop := {
  lv_dseg : dseg (cells h) None (head :: L) None;
  lv_nodup : NoDup L;
  lv_bound : Forall (fun l => (l < N)%nat) L;
  lv_stat : forall l e, rs !! l = Some e -> stat <$> cells h !! l = Some (node_stat rs l e);
  lv_head : stat <$> cells h !! head = Some (None, None, -1);
  lv_events : ev_at <$> L = rest (events es) done;
  lv_bits : holds n done b }.

Lemma level_wf h L done b : level h L done b -> wf_history (ev_at <$> L).
Proof. intros Hl. rewrite (lv_events _ _ _ _ Hl). apply rest_wf, es_wf. Qed.

Lemma level_in h L done b l : level h L done b -> l ∈ L -> (l < N)%nat.
Proof. intros Hlv Hl. pose proof (lv_bound _ _ _ _ Hlv) as Hb. rewrite Forall_forall in Hb. auto. Qed.

(** The node of a call or of a return of the level *)
Lemma level_node h L done b l :
  level h L done b -> l ∈ L ->
  exists nd e, cells h !! l = Some nd /\ rs !! l = Some e /\ e ∈ es /\ ev_at l = event_of e /\
    nvalue nd = Some (evalue e) /\ nid nd = id e /\
    nmatch nd = (if kind e then None else match_map (take l rs) !! id e).
Proof.
  intros Hlv Hl. assert (l < N)%nat as Hb by (by eapply level_in).
  destruct (rs_lookup l Hb) as (e & He & Hin & Hev).
  pose proof (lv_stat _ _ _ _ Hlv l e He) as Hs.
  destruct (cells h !! l) as [nd|] eqn:E; [|done]. simpl in Hs.
  unfold stat, node_stat in Hs. injection Hs as H1 H2 H3. exists nd, e. done.
Qed.

Lemma level_split_next h L done b A l K :
  level h L done b -> L = A ++ l :: K ->
  exists nd, cells h !! l = Some nd /\ nnext nd = hd_or None K.
Proof.
  intros Hlv ->. pose proof (lv_dseg _ _ _ _ Hlv) as Hd.
  rewrite app_comm_cons in Hd. apply dseg_app in Hd as [_ (nd & Hl & _ & Hn & _)]. eauto.
Qed.

Lemma level_head_next h L done b :
  level h L done b -> next_of h (Some head) = Val (hd_or None L).
Proof.
  intros Hlv. destruct (lv_dseg _ _ _ _ Hlv) as (nd & Hh & _ & Hn & _).
  unfold next_of. rewrite (load_some _ _ _ Hh). simpl. by rewrite Hn.
Qed.

(** The return of a call of the level comes after it. *)
Lemma level_return_after h L done b x A K i r :
  level h L done b -> L = A ++ x :: K -> ev_at x = (false, i) -> (r < N)%nat -> ev_at r = (true, i) -> r ∈ K.
Proof.
  intros Hlv HL Hev HrN Hevr. pose proof (level_wf _ _ _ _ Hlv) as Hw.
  assert ((true, i) ∈ ev_at <$> L) as Hret.
  { apply (wfh_return _ Hw). rewrite <- Hev. apply list_elem_of_fmap_2. rewrite HL. set_solver. }
  apply list_elem_of_fmap in Hret as (r' & Hr' & HrL).
  assert (r' < N)%nat as Hr'N by (by eapply level_in).
  assert (r' = r) as -> by (apply ev_at_inj; congruence).
  rewrite HL, elem_of_app, elem_of_cons in HrL. destruct HrL as [HrA|[->|HrK]]; [|congruence|done].
  exfalso. apply list_elem_of_split in HrA as (A1 & A2 & ->).
  assert (ev_at <$> L = (ev_at <$> A1) ++ (true, i) :: (ev_at <$> A2) ++ (false, i) :: (ev_at <$> K)) as Hsp.
  { rewrite HL, !fmap_app, !fmap_cons, <- !app_assoc, <- Hev, <- Hr'. done. }
  eapply (not_precedes_self _ i Hw). by eexists _, _, _.
Qed.

(** Without a call and its return the level has the events of the other operations. *)
Lemma level_events_lift h L done b x A B C i r :
  level h L done b -> L = A ++ x :: B ++ r :: C -> (x < N)%nat -> ev_at x = (false, i) -> (r < N)%nat -> ev_at r = (true, i) ->
  ev_at <$> (A ++ B ++ C) = remove_op i (ev_at <$> L).
Proof.
  intros Hlv HL HxN Hev HrN Hevr. rewrite HL. unfold remove_op. rewrite !fmap_app, fmap_cons, fmap_app, fmap_cons.
  rewrite filter_app, filter_cons_False by (rewrite Hev; simpl; auto).
  rewrite filter_app, filter_cons_False by (rewrite Hevr; simpl; auto).
  assert (forall M, M ⊆ L -> x ∉ M -> r ∉ M -> filter (fun e => e.2 <> i) (ev_at <$> M) = ev_at <$> M) as Hfil.
  { intros M HML HxM HrM. apply filter_all. intros ev (k & -> & HkM)%list_elem_of_fmap Heq.
    assert (k < N)%nat as HkN by (eapply level_in; eauto).
    destruct (ev_at k) as [[] j] eqn:Ek; simpl in Heq; subst j.
    - assert (k = r) by (apply ev_at_inj; congruence). congruence.
    - assert (k = x) by (apply ev_at_inj; congruence). congruence. }
  assert (NoDup L) as HnL' by apply Hlv. rewrite HL in HnL'.
  apply NoDup_app in HnL' as (_ & H1 & [H2 H3]%NoDup_cons).
  apply NoDup_app in H3 as (_ & H4 & [H5 _]%NoDup_cons).
  rewrite !Hfil; [done|..]; rewrite ?HL; set_solver.
Qed.

(** Lifting a call of the level that no return precedes. *)
Lemma level_lift h L done b x A K i b' :
  level h L done b -> L = A ++ x :: K -> ev_at x = (false, i) ->
  set b i = Val b' ->
  exists h' L', lift h (Some x) = Val h' /\ unlift h' (Some x) = Val h /\
    level h' L' ({[i]} ∪ done) b' /\ clear b' i = Val b /\
    ev_at <$> L' = remove_op i (ev_at <$> L) /\ length L = S (S (length L')).
Proof.
  intros Hlv HL Hev Hset. pose proof (level_wf _ _ _ _ Hlv) as Hw.
  assert (x ∈ L) as Hx by (rewrite HL; set_solver).
  destruct (level_node _ _ _ _ x Hlv Hx) as (nd & e & Hnd & He & Hin & Hee & _ & Hid & Hm).
  assert (x < N)%nat as HxN by (by eapply level_in).
  rewrite Hev in Hee. unfold event_of in Hee. injection Hee as Hk Hi.
  destruct (match_of_call x i HxN Hev) as (r & Hr & HrN & Hevr).
  rewrite <- Hk, <- Hi, Hr in Hm.
  pose proof (level_return_after _ _ _ _ _ _ _ _ _ Hlv HL Hev HrN Hevr) as HrK.
  apply list_elem_of_split in HrK as (B & C & ->).
  assert (NoDup (head :: L)) as HnL.
  { constructor; [|apply Hlv]. intros Hin'. eapply level_in in Hin'; [|done]. lia. }
  destruct (exists_last (l := head :: A)) as (A' & a & HA'); [done|].
  assert (head :: L = A' ++ a :: x :: B ++ r :: C) as HL'.
  { rewrite HL, app_comm_cons, HA', <- app_assoc. done. }
  destruct (lift_spec h A' a x B r C nd) as (h' & Hlift & Hunlift & [Hbrk Hst] & Hd').
  { rewrite <- HL'. apply Hlv. } { by rewrite <- HL'. } { done. } { done. }
  pose proof (level_events_lift _ _ _ _ _ _ _ _ _ _ Hlv HL HxN Hev HrN Hevr) as Hev'.
  exists h', (A ++ B ++ C). split_and!; [done|done| | |done|].
  - constructor.
    + rewrite app_comm_cons, HA', <- app_assoc. exact Hd'.
    + eapply sublist_NoDup; [apply Hlv|]. rewrite HL. apply sublist_app; [done|].
      apply sublist_cons. apply sublist_app; [done|]. by apply sublist_cons.
    + pose proof (lv_bound _ _ _ _ Hlv) as Hb. rewrite HL, Forall_app, Forall_cons, Forall_app, Forall_cons in Hb.
      rewrite !Forall_app. tauto.
    + intros l e' He'. rewrite Hst. by apply Hlv.
    + rewrite Hst. apply Hlv.
    + rewrite Hev', (lv_events _ _ _ _ Hlv). apply rest_remove_op.
    + destruct (holds_set n done b i) as (b1 & Hb1 & Hh); [apply Hlv| |].
      * rewrite Hi. by apply (wfe_ids _ _ _ es_wf).
      * congruence.
  - eapply clear_set; [apply Hlv| | |done].
    + rewrite Hi. by apply (wfe_ids _ _ _ es_wf).
    + assert ((false, i) ∈ rest (events es) done) as Hr'.
      { rewrite <- (lv_events _ _ _ _ Hlv), <- Hev. by apply list_elem_of_fmap_2. }
      apply list_elem_of_filter in Hr' as [? _]. done.
  - rewrite HL. repeat (rewrite length_app; simpl). lia.
Qed.

(** ** Turns of the loop *)

Hypothesis es_small : len es <= max_int.
Variable computePartial : bool.

Notation loop F c := (check_loop Step Equal F head n computePartial (fun _ => false) c).
Notation iterate c := (iterate Step Equal head computePartial c).

Lemma id_range e : e ∈ es -> 0 <= id e < n.
Proof. apply (wfe_ids _ _ _ es_wf). Qed.

Lemma to_uint_id i : 0 <= i < n -> to_uint i = i.
Proof.
  intros Hi. unfold to_uint. apply Z.mod_small.
  assert (n <= len es) by (unfold n; apply Z.quot_le_upper_bound; pose proof (len_nonneg es); lia).
  unfold max_int, two64 in *. lia.
Qed.

Definition calls_ok (calls : list (@callsEntry St)) : Prop :=
  Forall (fun v => (cs_entry v < N)%nat) calls.

Lemma level_any_node h L done b l :
  level h L done b -> (l < N)%nat -> exists nd e, cells h !! l = Some nd /\ e ∈ es /\ nid nd = id e.
Proof.
  intros Hlv Hl. destruct (rs_lookup l Hl) as (e & He & Hin & _).
  pose proof (lv_stat _ _ _ _ Hlv l e He) as Hs.
  destruct (cells h !! l) as [nd|]; [|done]. unfold stat, node_stat in Hs. simpl in Hs.
  injection Hs as _ _ Hs. eauto.
Qed.

Lemma call_ids_ok h L done b calls :
  level h L done b -> calls_ok calls ->
  exists ids, call_ids h calls = Val ids /\ Forall (fun i => 0 <= i < n) ids.
Proof.
  intros Hlv Hc. induction Hc as [|v calls Hv Hc (ids & IH & Hids)]; simpl.
  - exists []. done.
  - destruct (level_any_node _ _ _ _ _ Hlv Hv) as (nd & e & Hnd & He & Hid).
    rewrite (load_some _ _ _ Hnd). simpl. rewrite IH. simpl. exists (nid nd :: ids).
    split; [done|]. constructor; [|done]. rewrite Hid. by apply id_range.
Qed.

Lemma update_longest_ok (longest : list (option (nat * list Z))) ids sq tick :
  Forall (fun i => 0 <= i < len longest) ids ->
  exists l', update_longest longest ids sq tick = Val l' /\ len l' = len longest.
Proof.
  revert longest. induction ids as [|i ids IH]; intros longest Hi; simpl; [by eexists|].
  apply Forall_cons in Hi as [Hi Hids].
  destruct (go_index_in_range longest i Hi) as [old Hold]. rewrite Hold. simpl.
  destruct (match old with None => true | Some (_, s0) => len s0 <? len sq end); [|by apply IH].
  set (l1 := <[Z.to_nat i := Some (tick, sq)]> longest).
  assert (go_update longest i (Some (tick, sq)) = Val l1) as -> by (by apply go_update_val).
  simpl. assert (len l1 = len longest) as Hl1 by (unfold len, l1; by rewrite length_insert).
  destruct (IH l1) as (l' & -> & Hl'); [by rewrite Hl1|]. exists l'. split; [done|congruence].
Qed.

Lemma loop_turn c c' L done b l K F :
  iterate c = Val (inl c') -> level (c_heap c) L done b -> L = l :: K ->
  loop (S F) c = loop F c'.
Proof.
  intros Hit Hlv HL. simpl. rewrite (level_head_next _ _ _ _ Hlv), HL. simpl. rewrite Hit. done.
Qed.

(** The configuration at address [p] of a level. *)
Notation cfg h p st b cache calls longest tick := (mkConfig h p st b cache calls longest tick).

(** What a turn reads at a call. *)
Lemma call_reads h L done b A x K i st :
  level h L done b -> L = A ++ x :: K -> ev_at x = (false, i) ->
  exists nd r md,
    load h (Some x) = Val nd /\ nmatch nd = Some r /\ load h (Some r) = Val md /\
    call_Step Step st (nvalue nd) (nvalue md) = Val (Step st (inp i) (out i)) /\
    nid nd = i /\ nnext nd = hd_or None K /\ 0 <= i < n.
Proof.
  intros Hlv HL Hev.
  destruct (level_split_next _ _ _ _ _ _ _ Hlv HL) as (nd' & Hnd' & Hnx).
  destruct (level_node _ _ _ _ x Hlv) as (nd & e & Hnd & _ & Hin & Hee & Hv & Hid & Hm);
    [rewrite HL; set_solver|].
  assert (nd' = nd) as -> by congruence. rewrite Hev in Hee. injection Hee as Hk Hi.
  destruct (match_of_call x i) as (r & Hr & HrN & Hevr);
    [eapply level_in; [done|]; rewrite HL; set_solver|done|].
  rewrite <- Hk, <- Hi, Hr in Hm.
  destruct (level_any_node _ _ _ _ r Hlv HrN) as (md & er & Hmd & _ & _).
  assert (nvalue md = Some (VOut (out i))) as Hvm.
  { destruct (rs_lookup r HrN) as (e' & He' & Hin' & Hev'). rewrite Hevr in Hev'. injection Hev' as Hk' Hi'.
    pose proof (lv_stat _ _ _ _ Hlv r e' He') as Hs. rewrite Hmd in Hs. simpl in Hs.
    unfold stat, node_stat in Hs. injection Hs as Hs _ _. rewrite Hs.
    rewrite (wfe_return _ _ _ es_wf e') by done. by rewrite <- Hi'. }
  assert (nvalue nd = Some (VIn (inp i))) as Hvn.
  { rewrite Hv, (wfe_call _ _ _ es_wf e) by done. by rewrite <- Hi. }
  exists nd, r, md. rewrite (load_some _ _ _ Hnd), (load_some _ _ _ Hmd), Hvn, Hvm, Hid, <- Hi.
  split_and!; try done; rewrite Hi; by apply id_range.
Qed.

(** A call that cannot be linearized next is skipped. *)
Lemma turn_skip h L done b A x K i st cache t calls longest tick :
  level h L done b -> L = A ++ x :: K -> ev_at x = (false, i) -> cache_ok cache t ->
  (Step st (inp i) (out i)).1 && negb (visited Equal t ({[i]} ∪ done) (Step st (inp i) (out i)).2)
    = false ->
  iterate (cfg h (Some x) st b cache calls longest tick) =
  Val (inl (cfg h (hd_or None K) st b cache calls longest (S tick))).
Proof.
  intros Hlv HL Hev Hc Hno.
  destruct (call_reads _ _ _ _ _ _ _ _ st Hlv HL Hev) as (nd & r & md & Hnd & Hm & Hmd & HS & Hid & Hnx & Hi).
  unfold PorcCheck.iterate. simpl. rewrite Hnd. simpl. rewrite Hm, Hmd. simpl. rewrite HS. simpl.
  destruct (Step st (inp i) (out i)) as [ok st']. simpl in *.
  destruct ok; simpl in *; [|by rewrite Hnx].
  rewrite Hid, to_uint_id by done. unfold clone.
  destruct (holds_set n done b i) as (b' & -> & Hb'); [apply Hlv|done|]. simpl.
  rewrite (Hc _ _ _ Hb'). simpl. apply negb_false_iff in Hno. rewrite Hno. simpl. by rewrite Hnx.
Qed.

(** A call that can be linearized next is lifted and pushed. *)
Lemma turn_push h L done b A x K i st cache t calls longest tick :
  level h L done b -> L = A ++ x :: K -> ev_at x = (false, i) -> cache_ok cache t ->
  (Step st (inp i) (out i)).1 && negb (visited Equal t ({[i]} ∪ done) (Step st (inp i) (out i)).2)
    = true ->
  exists h' L' b' cache',
    iterate (cfg h (Some x) st b cache calls longest tick) =
    Val (inl (cfg h' (hd_or None L') (Step st (inp i) (out i)).2 b' cache'
                (calls ++ [mkCallsEntry x st]) longest (S tick))) /\
    unlift h' (Some x) = Val h /\ level h' L' ({[i]} ∪ done) b' /\ clear b' i = Val b /\
    cache_ok cache' (({[i]} ∪ done, (Step st (inp i) (out i)).2) :: t) /\
    ev_at <$> L' = remove_op i (ev_at <$> L) /\ length L = S (S (length L')).
Proof.
  intros Hlv HL Hev Hc Hyes.
  destruct (call_reads _ _ _ _ _ _ _ _ st Hlv HL Hev) as (nd & r & md & Hnd & Hm & Hmd & HS & Hid & Hnx & Hi).
  destruct (holds_set n done b i) as (b' & Hb' & Hh'); [apply Hlv|done|].
  destruct (level_lift _ _ _ _ _ _ _ _ _ Hlv HL Hev Hb') as (h' & L' & Hlift & Hun & Hlv' & Hcl & Hev' & Hlen).
  unfold PorcCheck.iterate. simpl. rewrite Hnd. simpl. rewrite Hm, Hmd. simpl. rewrite HS. simpl.
  destruct (Step st (inp i) (out i)) as [ok st']. simpl in *.
  apply andb_true_iff in Hyes as [-> Hv]. simpl. apply negb_true_iff in Hv.
  rewrite Hid, to_uint_id by done. unfold clone. rewrite Hb'. simpl.
  rewrite (Hc _ _ _ Hh'), Hv. simpl. rewrite Hlift. simpl. rewrite (level_head_next _ _ _ _ Hlv'). simpl.
  eexists h', L', b', _. split_and!; [done..| |done|done]. by apply cache_ok_insert.
Qed.

(** At a return, the last call is undone and the scan goes on behind it. *)
Lemma turn_back h' L' done' b' x K i h L done b A y C j st st' cache calls longest tick :
  level h L done b -> L = A ++ x :: K -> ev_at x = (false, i) ->
  level h' L' done' b' -> y ∈ L' -> ev_at y = (true, j) -> C = [mkCallsEntry x st] ->
  unlift h' (Some x) = Val h -> clear b' i = Val b ->
  calls_ok calls -> len longest = n ->
  exists longest',
    iterate (cfg h' (Some y) st' b' cache (calls ++ C) longest tick) =
    Val (inl (cfg h (hd_or None K) st b cache calls longest' (S tick))) /\ len longest' = n.
Proof.
  intros Hlv HL Hev Hlv' Hy Hevy -> Hun Hcl Hcok Hlg.
  destruct (level_node _ _ _ _ y Hlv' Hy) as (nd & e & Hnd & _ & Hin & Hee & _ & _ & Hm).
  rewrite Hevy in Hee. injection Hee as Hk _. rewrite <- Hk in Hm.
  assert (x < N)%nat as HxN by (eapply level_in; [exact Hlv|]; rewrite HL; set_solver).
  destruct (rs_lookup x HxN) as (ex & Hex & Hexin & Hevx). rewrite Hev in Hevx. injection Hevx as _ Hi.
  pose proof (lv_stat _ _ _ _ Hlv' x ex Hex) as Hs.
  destruct (cells h' !! x) as [xd|] eqn:Ex; [|done]. simpl in Hs. unfold stat, node_stat in Hs.
  injection Hs as _ _ Hxid.
  assert (calls_ok (calls ++ [mkCallsEntry x st])) as Hcok'.
  { apply Forall_app. split; [done|]. by constructor. }
  destruct (call_ids_ok _ _ _ _ _ Hlv' Hcok') as (ids & Hids & Hidr).
  destruct (level_split_next _ _ _ _ _ _ _ Hlv HL) as (nd' & Hnd' & Hnx).
  unfold PorcCheck.iterate. simpl. rewrite (load_some _ _ _ Hnd). simpl. rewrite Hm.
  rewrite len_app. change (len [mkCallsEntry x st]) with 1.
  pose proof (len_nonneg calls) as Hln.
  rewrite (proj2 (Z.eqb_neq (len calls + 1) 0)) by lia.
  assert (exists longest', (if computePartial then
            ids0 ← call_ids h' (calls ++ [mkCallsEntry x st]); update_longest longest ids0 ids0 tick
          else mret longest) = Val longest' /\ len longest' = n) as (longest' & -> & Hlg').
  { destruct computePartial; [|by exists longest]. rewrite Hids. simpl.
    destruct (update_longest_ok longest ids ids tick) as (l' & -> & Hl'); [by rewrite Hlg|].
    exists l'. split; [done|congruence]. }
  simpl. rewrite Z.add_simpl_r.
  assert (go_index (calls ++ [mkCallsEntry x st]) (len calls) = Val (mkCallsEntry x st)) as ->.
  { apply go_index_nat. rewrite lookup_app_r, Nat.sub_diag by done. done. }
  simpl. rewrite (load_some _ _ _ Ex). simpl. rewrite Hxid, <- Hi.
  rewrite to_uint_id by (rewrite Hi; by apply id_range). rewrite Hcl. simpl.
  assert (go_slice (calls ++ [mkCallsEntry x st]) 0 (len calls) = Val calls) as ->.
  { apply go_slice_val. split_and!; [lia|lia|rewrite len_app; change (len [mkCallsEntry x st]) with 1; lia|].
    rewrite Z.sub_0_r. unfold len. rewrite Nat2Z.id. change (Z.to_nat 0) with 0%nat.
    by rewrite drop_0, take_app_length. }
  simpl. rewrite Hun. simpl. unfold next_of. rewrite (load_some _ _ _ Hnd'). simpl. rewrite Hnx.
  by exists longest'.
Qed.

(** ** The loop computes the reference search *)

(** The loop succeeds in at most [k] turns. *)
Definition succeeds (k : nat) c : Prop :=
  exists k' longest', (k' <= k)%nat /\ forall F, loop (k' + S F) c = Val (true, longest').

(** The loop comes back, in at most [k] turns, to the first return of the level. *)
Definition comes_back (k : nat) h (L : list nat) st b calls t' c : Prop :=
  exists k' y j cache' longest' tick', (k' <= k)%nat /\
    y ∈ L /\ ev_at y = (true, j) /\ cache_ok cache' t' /\ len longest' = n /\
    forall F, loop (k' + F) c = loop F (cfg h (Some y) st b cache' calls longest' tick').

Definition simulates (m : nat) : Prop :=
  forall h L done b st cache t calls longest tick,
    level h L done b -> length L = (2 * m)%nat -> cache_ok cache t -> calls_ok calls ->
    len longest = n ->
    let c := cfg h (hd_or None L) st b cache calls longest tick in
    match search Step inp out Equal m (ev_at <$> L) done st t with
    | (Some _, _) => succeeds (check_cost m) c
    | (None, t') => comes_back (check_cost m) h L st b calls t' c
    end.

Lemma level_has_return h L done b :
  level h L done b -> L <> [] -> Forall (fun x => (ev_at x).1 = false) L -> False.
Proof.
  intros Hlv Hne HA. pose proof (level_wf _ _ _ _ Hlv) as Hw. destruct L as [|y L]; [done|]. apply Forall_cons in HA as [Hy HA].
  destruct (ev_at y) as [b0 j] eqn:Ey. simpl in Hy. subst b0.
  assert ((true, j) ∈ ev_at <$> y :: L) as Hr.
  { apply (wfh_return _ Hw). rewrite fmap_cons, Ey. set_solver. }
  apply list_elem_of_fmap in Hr as (r & Hr & HrL).
  apply elem_of_cons in HrL as [->|HrL]; [congruence|].
  rewrite Forall_forall in HA. apply HA in HrL. by rewrite <- Hr in HrL.
Qed.

(** Some turns before *)
Lemma succeeds_before k1 k k2 c c1 :
  (forall F, loop (k1 + F) c = loop F c1) -> (k1 + k <= k2)%nat -> succeeds k c1 -> succeeds k2 c.
Proof.
  intros Hrun Hle (k' & lg & Hk' & HF). exists (k1 + k')%nat, lg. split; [lia|]. intros F. rewrite <- Nat.add_assoc, Hrun. apply HF.
Qed.

Lemma comes_back_before k1 k k2 h L st b calls t c c1 :
  (forall F, loop (k1 + F) c = loop F c1) -> (k1 + k <= k2)%nat -> comes_back k h L st b calls t c1 -> comes_back k2 h L st b calls t c.
Proof.
  intros Hrun Hle (k' & y & j & c' & lg & tk & Hk' & Hy & Hj & Hc' & Hlg' & HF).
  exists (k1 + k')%nat, y, j, c', lg, tk. split_and!; [lia|done..|]. intros F. rewrite <- Nat.add_assoc, Hrun. apply HF.
Qed.

Lemma simulate_scan m h L done b st A l :
  simulates m -> level h L done b -> length L = (2 * S m)%nat ->
  L = A ++ l -> Forall (fun x => (ev_at x).1 = false) A ->
  forall cache t calls longest tick,
    cache_ok cache t -> calls_ok calls -> len longest = n ->
    let c := cfg h (hd_or None l) st b cache calls longest tick in
    let k := (length l * (2 + check_cost m))%nat in
    match scan Step inp out Equal (search Step inp out Equal m) (ev_at <$> L) done st (ev_at <$> l) t with
    | (Some _, _) => succeeds k c
    | (None, t') => comes_back k h L st b calls t' c
    end.
Proof.
  intros Hsim Hlv Hlen. revert A. induction l as [|x l IH]; intros A HL HA cache t calls longest tick Hc Hcok Hlg.
  - (* a level that is not empty has a return *)
    exfalso. rewrite app_nil_r in HL. subst A. by eapply level_has_return; [exact Hlv| |done]; intros ->.
  - assert (exists y K, L = y :: K) as (y0 & K0 & HL0) by (destruct A; simplify_eq/=; eauto).
    cbv zeta. change (hd_or None (x :: l)) with (Some x).
    rewrite fmap_cons. destruct (ev_at x) as [[] i] eqn:Ex.
    + exists 0%nat, x, i, cache, longest, tick. simpl. split_and!; [lia|rewrite HL; set_solver|done..].
    + assert (Hnext : forall cache1 t1 longest1 tick1 k1 c,
        cache_ok cache1 t1 -> len longest1 = n -> (k1 <= 2 + check_cost m)%nat ->
        (forall F, loop (k1 + F) c = loop F (cfg h (hd_or None l) st b cache1 calls longest1 tick1)) ->
        match scan Step inp out Equal (search Step inp out Equal m) (ev_at <$> L) done st (ev_at <$> l) t1 with
        | (Some _, _) => succeeds (length (x :: l) * (2 + check_cost m)) c
        | (None, t') => comes_back (length (x :: l) * (2 + check_cost m)) h L st b calls t' c
        end).
      { intros cache1 t1 longest1 tick1 k1 c Hc1 Hl1 Hk1 Hrun.
        specialize (IH (A ++ [x])). rewrite <- app_assoc in IH.
        assert (Forall (fun x => (ev_at x).1 = false) (A ++ [x])) as HAx.
        { apply Forall_app. split; [done|]. constructor; [by rewrite Ex|done]. }
        specialize (IH HL HAx cache1 t1 calls longest1 tick1 Hc1 Hcok Hl1). simpl in IH.
        destruct (scan _ _ _ _ _ _ _ _ _ _) as [[s|] t'];
          [eapply succeeds_before|eapply comes_back_before]; try done; simpl; lia. }
      simpl (scan _ _ _ _ _ _ _ _ (_ :: _) _).
      destruct ((Step st (inp i) (out i)).1 &&
                negb (visited Equal t ({[i]} ∪ done) (Step st (inp i) (out i)).2)) eqn:Hgo.
      * destruct (turn_push _ _ _ _ _ _ _ _ st _ _ calls longest tick Hlv HL Ex Hc Hgo)
          as (h' & L' & b' & cache' & Hit & Hun & Hlv' & Hcl & Hc' & Hev' & Hlen').
        pose proof (Hsim h' L' _ b' (Step st (inp i) (out i)).2 cache' _ (calls ++ [mkCallsEntry x st])
                      longest (S tick) Hlv' ltac:(lia) Hc') as Hs.
        assert (calls_ok (calls ++ [mkCallsEntry x st])) as Hcok'.
        { apply Forall_app. split; [done|]. constructor; [|done]. simpl.
          eapply level_in; [exact Hlv|]. rewrite HL. set_solver. }
        specialize (Hs Hcok' Hlg). simpl in Hs. rewrite Hev' in Hs.
        destruct (search _ _ _ _ _ _ _ _ _) as [[s|] t'].
        -- destruct Hs as (k' & lg & Hk' & HF). exists (S k'), lg. split; [simpl; lia|].
           intros F. change (S k' + S F)%nat with (S (k' + S F)).
           rewrite (loop_turn _ _ _ _ _ _ _ (k' + S F) Hit Hlv HL0). apply HF.
        -- destruct Hs as (k' & y & j & c1 & lg & tk & Hk' & Hy & Hj & Hc1 & Hlg1 & HF).
           destruct (turn_back h' L' _ b' x l i h L done b A y _ j st (Step st (inp i) (out i)).2
                       c1 calls lg tk Hlv HL Ex Hlv' Hy Hj eq_refl Hun Hcl Hcok Hlg1) as (lg' & Hbk & Hlg').
           destruct L' as [|y1 K1]; [by apply elem_of_nil in Hy|].
           eapply (Hnext c1 t' lg' (S tk) (S (k' + 1))); [done|done|lia|].
           intros F. change (S (k' + 1) + F)%nat with (S (k' + 1 + F)).
           rewrite (loop_turn _ _ _ _ _ _ _ (k' + 1 + F) Hit Hlv HL0).
           rewrite <- Nat.add_assoc, HF. change (1 + F)%nat with (S F).
           by rewrite (loop_turn _ _ _ _ _ _ _ F Hbk Hlv' eq_refl).
      * eapply (Hnext cache t longest (S tick) 1%nat); [done|done|lia|].
        intros F. change (1 + F)%nat with (S F). eapply loop_turn; [by eapply turn_skip|done|done].
Qed.

Lemma simulate m : simulates m.
Proof.
  induction m as [|m IH]; intros h L done b st cache t calls longest tick Hlv Hlen Hc Hcok Hlg; simpl.
  - destruct L; [|done]. destruct (call_ids_ok _ _ _ _ _ Hlv Hcok) as (ids & Hids & _).
    exists 0%nat. eexists. split; [lia|]. intros F. simpl.
    rewrite (level_head_next _ _ _ _ Hlv). simpl. rewrite Hids. simpl. done.
  - pose proof (simulate_scan m h L done b st [] L IH Hlv Hlen eq_refl ltac:(constructor)
                  cache t calls longest tick Hc Hcok Hlg) as Hs.
    cbv zeta in Hs. rewrite Hlen in Hs. exact Hs.
Qed.

(** ** The whole of [checkSingle] *)

Lemma N_even : exists m, N = (2 * m)%nat /\ n = Z.of_nat m.
Proof.
  destruct (wf_history_even _ (wfe_wf _ _ _ es_wf)) as [m Hm].
  unfold events in Hm. rewrite length_fmap in Hm. exists m. split; [done|].
  unfold n, len. rewrite Hm. replace (Z.of_nat (2 * m)) with (Z.of_nat m * 2) by lia.
  apply Z.quot_mul. lia.
Qed.

(** The heap, the first configuration and the start of the search. *)
Lemma checkSingle_start :
  exists h cache longest,
    (forall kill, checkSingle Init Step Equal es computePartial kill =
       check_loop Step Equal (2 + check_cost (Z.to_nat n)) head n computePartial kill
         (cfg h (hd_or None (reverse (seq 0 N))) Init (newBitset n) cache [] longest 0)) /\
    level h (reverse (seq 0 N)) ∅ (newBitset n) /\ cache_ok cache [] /\
    (forall l, (S N <= l)%nat -> cells h !! l = None) /\ longest = replicate (Z.to_nat n) None /\ len longest = n.
Proof.
  destruct (makeLinkedEntries_built es) as (h0 & root & Hmk & [Hbrk Hfresh Hd Hroot Hstat]).
  fold rs in Hbrk, Hd, Hroot, Hstat.
  assert (length rs = N) as HN by (unfold rs; apply length_reverse). rewrite HN in *.
  destruct N_even as (m & Hm & Hn).
  set (hnode := mkNode (Inp := Inp) (Out := Out) None None (-1) None None). set (h1 := mkHeap (<[N := hnode]> (cells h0)) (S N)).
  assert (NoDup (reverse (seq 0 N))) as HnL
    by (rewrite (reverse_Permutation (seq 0 N)); apply NoDup_seq).
  assert (forall l, l ∈ reverse (seq 0 N) -> (l < N)%nat) as HbL.
  { intros l. rewrite elem_of_reverse, elem_of_seq. lia. }
  destruct (insertBefore_front h1 N hnode (reverse (seq 0 N))) as (h2 & Hins & [Hbk Hst] & Hd2 & _).
  { simpl. apply lookup_insert_eq. } { done. } { done. } { intros ?%HbL. lia. } { done. }
  { eapply dseg_ext; [|exact Hd]. intros l Hl%HbL. simpl. by rewrite lookup_insert_ne by lia. }
  exists h2, ∅, (replicate (Z.to_nat n) None). split_and!.
  - intros kill. unfold checkSingle. rewrite Hmk. simpl.
    unfold length_list. rewrite Hbrk, Hroot, (length_loop_dseg h0 _ None); [|done| | |].
    + simpl. rewrite Z.add_0_l. fold hnode. fold h1.
      replace (len (reverse (seq 0 N))) with (len es)
        by (unfold len; by rewrite length_reverse, length_seq).
      fold n. rewrite Hins. simpl.
      assert (to_uint n = n) as ->; [|done].
      unfold to_uint. apply Z.mod_small. unfold len, max_int, two64 in *. fold N in es_small. lia.
    + rewrite length_reverse, length_seq. done.
    + done.
    + unfold len. rewrite length_reverse, length_seq. unfold len in es_small. fold N in es_small. lia.
  - constructor; try done.
    + apply Forall_forall. intros l Hl. by apply HbL.
    + intros l e He. rewrite Hst. simpl. apply lookup_lt_Some in He as Hlt. rewrite HN in Hlt.
      rewrite lookup_insert_ne by lia. by apply Hstat.
    + rewrite Hst. simpl. by rewrite lookup_insert_eq.
    + rewrite ev_at_all. by rewrite rest_empty.
    + apply holds_new. lia.
  - apply cache_ok_empty.
  - intros l Hl. specialize (Hst l). simpl in Hst. rewrite lookup_insert_ne, Hfresh in Hst by lia. by destruct (cells h2 !! l).
  - done.
  - unfold len. rewrite length_replicate. lia.
Qed.

Lemma checkSingle_search :
  exists ok longest,
    checkSingle Init Step Equal es computePartial (fun _ => false) = Val (ok, longest) /\
    (ok = true <-> is_Some (search Step inp out Equal (Z.to_nat n) (events es) ∅ Init []).1).
Proof.
  destruct checkSingle_start as (h & cache & longest & -> & Hlv & Hc & _ & _ & Hlg).
  destruct N_even as (m & Hm & Hn).
  pose proof (simulate (Z.to_nat n) h _ _ _ Init cache [] [] longest 0%nat Hlv) as Hs.
  assert (length (reverse (seq 0 N)) = (2 * Z.to_nat n)%nat) as HL
    by (rewrite length_reverse, length_seq; lia).
  specialize (Hs HL Hc ltac:(constructor) Hlg). cbv zeta in Hs. rewrite ev_at_all in Hs.
  destruct (search _ _ _ _ _ _ _ _ _) as [[s|] t'].
  - destruct Hs as (k & lg & Hk & HF). exists true, lg. split; [|done].
    replace (2 + check_cost (Z.to_nat n))%nat with (k + S (1 + check_cost (Z.to_nat n) - k))%nat by lia.
    apply HF.
  - destruct Hs as (k & y & j & c' & lg & tk & Hk & Hy & Hj & Hc' & Hlg' & HF).
    exists false, lg. split; [|naive_solver].
    replace (2 + check_cost (Z.to_nat n))%nat with (k + S (1 + check_cost (Z.to_nat n) - k))%nat by lia.
    rewrite HF. simpl. rewrite (level_head_next _ _ _ _ Hlv).
    destruct (reverse (seq 0 N)) as [|y0 K0] eqn:E0; [by apply elem_of_nil in Hy|]. simpl.
    destruct (level_node _ _ _ _ y Hlv Hy) as (nd & e & Hnd & _ & _ & Hee & _ & _ & Hmt).
    rewrite Hj in Hee. injection Hee as Hkk _. rewrite <- Hkk in Hmt.
    unfold PorcCheck.iterate. simpl. rewrite (load_some _ _ _ Hnd). simpl. rewrite Hmt. done.
Qed.

(** A run that sees the kill flag answers false, or the same as the run that does not. *)
Lemma check_loop_kill F hd k cp kill (c : @config Inp Out St) r :
  check_loop Step Equal F hd k cp (fun _ => false) c = Val r ->
  exists r', check_loop Step Equal F hd k cp kill c = Val r' /\ (r'.1 = true -> r' = r).
Proof.
  revert c. induction F as [|F IH]; intros c; simpl; [done|].
  destruct (next_of _ _) as [[nx|]|]; simpl; [|by eauto|done].
  destruct (PorcCheck.iterate _ _ _ _ _) as [[c'|o]|]; simpl; [| |done].
  - intros Hr. destruct (kill (c_tick c)); [|by apply IH]. eexists. split; [done|]. done.
  - intros [= ->]. destruct (kill (c_tick c)); eexists; (split; [done|]); done.
Qed.

Lemma check_loop_ext F hd k cp kill kill' (c : @config Inp Out St) :
  (forall t, kill t = kill' t) ->
  check_loop Step Equal F hd k cp kill c = check_loop Step Equal F hd k cp kill' c.
Proof.
  intros Hk. revert c. induction F as [|F IH]; intros c; simpl; [done|].
  destruct (next_of _ _) as [[nx|]|]; simpl; [|done|done]. rewrite Hk. destruct (kill' _); [done|].
  by destruct (PorcCheck.iterate _ _ _ _ _) as [[c'|o]|]; simpl.
Qed.

End Correct.
(** ** Main theorems *)

Section Theorems.
Context {Inp Out St : Type}.
Variable Init : St.
Variable Step : St -> Inp -> Out -> bool * St.
Variable Equal : St -> St -> bool.

(** Whatever the kill flag is, the check returns, an answer true is right, and without the flag so is an
    answer false. *)
Lemma checkSingle_any (es : list (@entry Inp Out)) inp out computePartial kill :
  wf_entries inp out es -> len es <= max_int -> equal_sound Step inp out Equal ->
  exists ok longest,
    checkSingle Init Step Equal es computePartial kill = Val (ok, longest) /\
    (ok = true -> linearizable Step inp out (events es) Init) /\
    ((forall k, kill k = false) -> linearizable Step inp out (events es) Init -> ok = true).
Proof.
  intros Hw Hs He.
  destruct (checkSingle_search Init Step Equal inp out es Hw Hs computePartial) as (ok & lg & Hc & Hok).
  destruct (checkSingle_start Init Step Equal inp out es Hw Hs computePartial)
    as (h & cache & longest & Hstart & _).
  assert (ok = true <-> linearizable Step inp out (events es) Init) as Hlin.
  { rewrite Hok. apply search_correct; [done|apply Hw|].
    destruct (N_even inp out es Hw) as (m & Hm & Hn). rewrite Hn, Nat2Z.id.
    unfold events. by rewrite length_fmap. }
  rewrite Hstart in Hc. pose proof Hc as Hck.
  apply (check_loop_kill Step Equal _ _ _ _ kill) in Hck as ([ok' lg'] & Hr & Hsame).
  exists ok', lg'. rewrite Hstart. split_and!; [done| |].
  - intros ->. specialize (Hsame eq_refl). injection Hsame as <- _. by apply Hlin.
  - intros Hk Hl. rewrite (check_loop_ext Step Equal _ _ _ _ kill (fun _ => false)) in Hr by done.
    rewrite Hc in Hr. injection Hr as <- _. by apply Hlin.
Qed.

(** C1: On every well-formed history of entries (each operation called once and then returned once,
    ids 0..n-1) and for every model whose [Equal] identifies only states with the same futures,
    [checkSingle] terminates without a panic and answers true exactly when the history is
    linearizable. *)
Theorem checkSingle_decides (es : list (@entry Inp Out)) inp out computePartial :
  wf_entries inp out es -> len es <= max_int -> equal_sound Step inp out Equal ->
  exists ok longest,
    checkSingle Init Step Equal es computePartial (fun _ => false) = Val (ok, longest) /\
    (ok = true <-> linearizable Step inp out (events es) Init).
Proof.
  intros Hw Hs He.
  destruct (checkSingle_any es inp out computePartial (fun _ => false) Hw Hs He) as (ok & lg & Hc & H1 & H2).
  exists ok, lg. split; [done|]. split; auto.
Qed.

(** A check that is cut short by the kill flag still returns, and an answer true is right: the
    history is linearizable whatever the flag was at every turn. *)
Theorem checkSingle_killed_sound (es : list (@entry Inp Out)) inp out computePartial kill :
  wf_entries inp out es -> len es <= max_int -> equal_sound Step inp out Equal ->
  exists ok longest,
    checkSingle Init Step Equal es computePartial kill = Val (ok, longest) /\
    (ok = true -> linearizable Step inp out (events es) Init).
Proof.
  intros Hw Hs He.
  destruct (checkSingle_any es inp out computePartial kill Hw Hs He) as (ok & lg & Hc & H1 & _).
  by exists ok, lg.
Qed.

End Theorems.

(** ** A register: [Some v] writes, [None] reads *)

Definition reg_step (st : Z) (i : option Z) (o : Z) : bool * Z :=
  match i with Some v => (true, v) | None => (bool_decide (o = st), st) end.

(** Operation 0 writes 1 while operations 1 and 2 read 0 and then 1. *)
Definition reg_inp (i : Z) : option Z := if i =? 0 then Some 1 else None.
Definition reg_out (i : Z) : Z := if i =? 1 then 0 else if i =? 2 then 1 else 7.
Definition reg_call (i : Z) : @entry (option Z) Z := mkEntry false (VIn (reg_inp i)) i 0 0.
Definition reg_ret (i : Z) : @entry (option Z) Z := mkEntry true (VOut (reg_out i)) i 0 0.
Definition reg_history : list (@entry (option Z) Z) :=
  [reg_call 0; reg_call 1; reg_ret 1; reg_call 2; reg_ret 2; reg_ret 0].

Lemma reg_history_events : wf_history (events reg_history).
Proof.
  constructor.
  - apply (bool_decide_unpack _). vm_compute. done.
  - intros i A B Heq. unfold events, reg_history in Heq. simpl in Heq.
    unfold event_of, reg_call, reg_ret in Heq. simpl in Heq.
    do 7 (destruct A as [|? A]; simplify_eq/=; try set_solver).
  - intros i Hi. unfold events, reg_history, event_of, reg_call, reg_ret in *. simpl in *. set_solver.
Qed.

Lemma reg_history_wf : wf_entries reg_inp reg_out reg_history.
Proof.
  constructor; [apply reg_history_events|..]; intros e He;
    unfold reg_history in He; rewrite ?elem_of_cons, elem_of_nil in He;
    destruct_or?; simplify_eq/=; try done; unfold len; simpl; lia.
Qed.

Lemma reg_equal_sound : equal_sound reg_step reg_inp reg_out (fun a b => bool_decide (a = b)).
Proof. intros s t i Hst. apply bool_decide_eq_true in Hst as ->. by rewrite bool_decide_eq_true_2. Qed.

Lemma checkSingle_decides_witness :
  exists ok longest,
    checkSingle 0 reg_step (fun a b => bool_decide (a = b)) reg_history true (fun _ => false)
      = Val (ok, longest) /\
    (ok = true <-> linearizable reg_step reg_inp reg_out (events reg_history) 0).
Proof.
  apply (checkSingle_decides 0 reg_step _ reg_history reg_inp reg_out true).
  - exact reg_history_wf.
  - vm_compute. discriminate.
  - exact reg_equal_sound.
Defined.

Lemma checkSingle_killed_sound_witness :
  exists ok longest,
    checkSingle 0 reg_step (fun a b => bool_decide (a = b)) reg_history false (fun k => Nat.leb 3 k)
      = Val (ok, longest) /\
    (ok = true -> linearizable reg_step reg_inp reg_out (events reg_history) 0).
Proof.
  apply (checkSingle_killed_sound 0 reg_step _ reg_history reg_inp reg_out false).
  - exact reg_history_wf.
  - vm_compute. discriminate.
  - exact reg_equal_sound.
Defined.

End PorcCorrect.
