(* ===== verification/PorcTop.v ===== *)
(** * What the checker's entry points answer

    [checkParallel] combines the answers of one search per partition in whatever order they come, or gives
    up at a timeout: its verdicts are right.  For histories of operations with times, the entries
    [makeEntries] builds are well formed and their order is the order of the times, so that the verdict
    is about linearizability in real time. *)

From stdpp Require Import base list gmap strings sorting.
From Stdlib Require Import ZArith Lia.
From S2P Require Import Prelude Bitset PorcModel PorcList PorcCheck PorcSpec PorcCorrect.
Import Bitset PorcList PorcCheck PorcSpec PorcCorrect.

Open Scope Z_scope.

Module PorcTop.

(** ** The select loop *)

(** What is known when [heard] have answered and [ok] is their conjunction *)
Record select_ok (answers : list bool) (ok : bool) (heard : list nat) : Prop := {
  sl_nodup : NoDup heard;
  sl_range : forall i, i ∈ heard -> (i < length answers)%nat;
  sl_true : ok = true -> forall i, i ∈ heard -> answers !! i = Some true;
  sl_false : ok = false -> exists i, answers !! i = Some false }.

Lemma select_ok_hear answers ok heard i r :
  select_ok answers ok heard -> i ∉ heard -> answers !! i = Some r -> select_ok answers (ok && r) (heard ++ [i]).
Proof.
  intros [Hn Hr Ht Hf] Hi Ha. constructor.
  - apply NoDup_app. split_and!; [done|set_solver|apply NoDup_singleton].
  - intros j [?| ->%list_elem_of_singleton]%elem_of_app; [auto|by eapply lookup_lt_Some].
  - intros [-> ->]%andb_true_iff j [?| ->%list_elem_of_singleton]%elem_of_app; auto.
  - intros [->| ->]%andb_false_iff; eauto.
Qed.

(** Once everybody has answered, everybody has been heard. *)
Lemma heard_all (heard : list nat) n :
  NoDup heard -> (forall i, i ∈ heard -> (i < n)%nat) -> (n <= length heard)%nat -> forall i, (i < n)%nat -> i ∈ heard.
Proof.
  intros Hn Hr Hl i Hi.
  assert (heard ≡ₚ seq 0 n) as ->; [|apply elem_of_seq; lia].
  apply submseteq_length_Permutation; [|by rewrite length_seq].
  apply NoDup_submseteq; [done|]. intros j Hj. apply elem_of_seq. specialize (Hr j Hj). lia.
Qed.

Lemma select_loop_sound answers cp timer sched ok heard ok' timedOut heard' :
  select_ok answers ok heard ->
  select_loop answers cp timer sched ok heard = Some (ok', timedOut, heard') ->
  (ok' = false -> exists i, answers !! i = Some false) /\
  (ok' = true -> timedOut = false -> forall i r, answers !! i = Some r -> r = true) /\
  (timer = false -> timedOut = false).
Proof.
  revert ok heard. induction sched as [|[i|] sched IH]; intros ok heard Hok; simpl; [done|..].
  - destruct (decide (i ∈ heard)) as [|Hi]; [done|]. destruct (answers !! i) as [r|] eqn:Hr; [|done].
    pose proof (select_ok_hear _ _ _ _ _ Hok Hi Hr) as Hok1.
    destruct (negb (ok && r) && negb cp) eqn:Hstop.
    + intros [= <- <- <-]. split_and!; [apply Hok1| |done]. intros E. by rewrite E in Hstop.
    + destruct (Nat.leb_spec (length answers) (length (heard ++ [i]))) as [Hall|_]; [|by apply IH].
      intros [= <- <- <-]. split_and!; [apply Hok1| |done]. intros E _ j x Hj.
      assert (j ∈ heard ++ [i]) as Hin.
      { eapply heard_all; [apply Hok1|apply Hok1|done|by eapply lookup_lt_Some]. }
      pose proof (sl_true _ _ _ Hok1 E j Hin). congruence.
  - destruct timer; [|done]. intros [= <- <- <-]. split_and!; [apply Hok|done|done].
Qed.

(** When the answers of all come in, in any order, the loop ends. *)
Lemma select_loop_complete answers cp timer ok heard order :
  (heard ++ order) ≡ₚ seq 0 (length answers) -> order <> [] ->
  exists r, select_loop answers cp timer (SelResult <$> order) ok heard = Some r /\ r.1.2 = false.
Proof.
  revert ok heard. induction order as [|i order IH]; intros ok heard Hp Hne; [done|]. simpl.
  assert (NoDup (heard ++ i :: order)) as Hnd by (rewrite Hp; apply NoDup_seq).
  apply NoDup_app in Hnd as (_ & Hd & _).
  rewrite decide_False by (intros Hi; by eapply Hd; [|left]).
  assert (i < length answers)%nat as Hi.
  { apply (elem_of_seq 0). rewrite <- Hp. set_solver. }
  destruct (lookup_lt_is_Some_2 answers i Hi) as [r ->].
  destruct (negb (ok && r) && negb cp); [by eexists|].
  destruct (Nat.leb_spec (length answers) (length (heard ++ [i]))) as [|Hlt]; [by eexists|].
  apply IH; [by rewrite <- app_assoc|]. intros ->. apply Permutation_length in Hp.
  rewrite length_seq in Hp. lia.
Qed.

(** ** checkParallel *)

Section Parallel.
Context {Inp Out St : Type}.
Variable Init : St.
Variable Step : St -> Inp -> Out -> bool * St.
Variable Equal : St -> St -> bool.
Variable (history : list (list (@entry Inp Out))) (inp : nat -> Z -> Inp) (out : nat -> Z -> Out).

(** A partition that can be checked *)
Record checkable (i : nat) (es : list (@entry Inp Out)) : Prop := {
  ck_wf : wf_entries (inp i) (out i) es;
  ck_len : len es <= max_int;
  ck_equal : equal_sound Step (inp i) (out i) Equal }.

Definition all_linearizable : Prop :=
  forall i es, history !! i = Some es -> linearizable Step (inp i) (out i) (events es) Init.

Lemma answers_spec cp :
  (forall i es, history !! i = Some es -> checkable i es) ->
  exists first, mapM (fun h => checkSingle Init Step Equal h cp (fun _ => false)) history = Val first /\
    length first = length history /\
    forall i r, first !! i = Some r -> exists es, history !! i = Some es /\
      (r.1 = true <-> linearizable Step (inp i) (out i) (events es) Init).
Proof.
  intros Hck. destruct (mapM_val (fun h => checkSingle Init Step Equal h cp (fun _ => false)) history)
    as (first & Hf & HF).
  { intros es (i & Hi)%list_elem_of_lookup. destruct (Hck i es Hi).
    destruct (checkSingle_any Init Step Equal es (inp i) (out i) cp (fun _ => false)) as (ok & lg & Hc & _); eauto. }
  exists first. split_and!; [done|by symmetry; eapply Forall2_length|].
  intros i r Hr. destruct (Forall2_lookup_r _ _ _ _ _ HF Hr) as (es & Hes & Hc). exists es. split; [done|].
  destruct (Hck i es Hes).
  destruct (checkSingle_any Init Step Equal es (inp i) (out i) cp (fun _ => false)) as (ok & lg & Hc' & H1 & H2); try done.
  rewrite Hc in Hc'. injection Hc' as ->. simpl. split; auto.
Qed.

Lemma late_total cp late :
  (forall i es, history !! i = Some es -> checkable i es) ->
  exists killed, mapM (fun ih => checkSingle Init Step Equal ih.2 cp (late ih.1)) (imap pair history) = Val killed.
Proof.
  intros Hck. destruct (mapM_val (fun ih => checkSingle Init Step Equal ih.2 cp (late ih.1)) (imap pair history))
    as (killed & Hk & _); [|eauto].
  intros [i es] (j & Hj)%list_elem_of_lookup. rewrite list_lookup_imap in Hj.
  destruct (history !! j) as [x|] eqn:Hx; simpl in Hj; [|done]. injection Hj as <- <-.
  destruct (Hck j x Hx). simpl.
  destruct (checkSingle_any Init Step Equal x (inp j) (out j) cp (late j)) as (ok & lg & Hc & _); eauto.
Qed.

(** A verdict is right, however the answers come in and whether or not the timer interferes. *)
Lemma checkParallel_sound cp timeout map_range sched late :
  (forall i es, history !! i = Some es -> checkable i es) ->
  exists o, checkParallel Init Step Equal history cp timeout map_range sched late = Val o /\
    forall result info, o = Some (result, info) ->
      (result = Ok -> all_linearizable) /\ (result = Illegal -> ~ all_linearizable) /\
      (timeout <= 0 -> result <> Unknown).
Proof.
  intros Hck. unfold checkParallel. destruct (answers_spec cp Hck) as (first & -> & Hlen & Hans). simpl.
  destruct (late_total cp late Hck) as (killed & ->). simpl.
  destruct (select_loop _ _ _ _ _ _) as [[[ok timedOut] heard]|] eqn:Hsel; [|by eexists].
  apply select_loop_sound in Hsel as (Hf & Ht & Hto).
  2: { constructor; [by constructor|set_solver|set_solver|done]. }
  eexists. split; [reflexivity|]. intros result info [= <- _].
  assert (forall i r, (fst <$> first) !! i = Some r -> exists es, history !! i = Some es /\
            (r = true <-> linearizable Step (inp i) (out i) (events es) Init)) as Hans'.
  { intros i r. rewrite list_lookup_fmap. destruct (first !! i) as [x|] eqn:Hx; simpl; [|done].
    intros [= <-]. by apply Hans. }
  destruct ok; simpl.
  - assert (timedOut = false -> all_linearizable) as Hall.
    { intros E i es Hi. destruct (lookup_lt_is_Some_2 (fst <$> first) i) as [r Hr].
      { rewrite length_fmap, Hlen. by eapply lookup_lt_Some. }
      destruct (Hans' i r Hr) as (es' & Hes' & Hiff). rewrite Hi in Hes'. injection Hes' as <-.
      apply Hiff. by eapply Ht. }
    destruct timedOut; split_and!; try done; auto.
    intros Hle _. specialize (Hto ltac:(by apply Z.ltb_ge)). done.
  - split_and!; try done. intros _ Hall. destruct (Hf eq_refl) as [i Hi].
    destruct (Hans' i false Hi) as (es & Hes & Hiff). by specialize (proj2 Hiff (Hall i es Hes)).
Qed.

(** Without a timer the check ends with a verdict once every partition has answered. *)
Lemma checkParallel_complete cp map_range order late timeout :
  (forall i es, history !! i = Some es -> checkable i es) ->
  order ≡ₚ seq 0 (length history) -> history <> [] ->
  exists result info,
    checkParallel Init Step Equal history cp timeout map_range (SelResult <$> order) late = Val (Some (result, info)) /\
    (result = Ok <-> all_linearizable) /\ (result = Illegal <-> ~ all_linearizable).
Proof.
  intros Hck Hp Hne.
  destruct (checkParallel_sound cp timeout map_range (SelResult <$> order) late Hck) as (o & Ho & Hv).
  unfold checkParallel in Ho |- *. destruct (answers_spec cp Hck) as (first & Hf & Hlen & Hans).
  rewrite Hf in *. simpl in *. destruct (late_total cp late Hck) as (killed & Hk). rewrite Hk in *. simpl in *.
  destruct (select_loop_complete (fst <$> first) cp (0 <? timeout) true [] order) as ([[ok timedOut] heard] & Hs & E).
  { by rewrite length_fmap, Hlen. }
  { intros ->. apply Permutation_nil in Hp. destruct history; [done|]. by simpl in Hp. }
  simpl in E. subst timedOut. rewrite Hs in *. injection Ho as <-. eexists _, _. split; [reflexivity|].
  destruct (Hv _ _ eq_refl) as (H1 & H2 & _). destruct ok; simpl in *; split; split; try done; auto.
  - intros Hn. exfalso. auto.
  - intros Ha. exfalso. by apply H2.
Qed.

End Parallel.

(** ** Histories of operations with times *)

Section Operations.
Context {Inp Out St : Type}.
Notation entry := (@entry Inp Out).
Notation Operation := (Operation Inp Out).

(** What [sort.Sort(byTime(...))] promises *)
Record sorts_byTime (f : list entry -> list entry) : Prop := {
  sb_perm : forall l, f l ≡ₚ l;
  sb_sorted : forall l, StronglySorted (fun a b => time b <? time a = false) (f l) }.

(** Operations take time, and none returns at the very time another is called. *)
Record timed (h : list Operation) : Prop := {
  td_order : forall i op, h !! i = Some op -> op_Call op < op_Return op;
  td_distinct : forall i j a b, h !! i = Some a -> h !! j = Some b -> op_Return a <> op_Call b;
  td_len : 2 * len h <= max_int }.

(** Linearizability in real time: some order of all the operations respects the times and is accepted by
    the model. *)
Record real_time_order (Step : St -> Inp -> Out -> bool * St) (Init : St) (inp : Z -> Inp) (out : Z -> Out)
    (h : list Operation) (l : list Z) : Prop := {
  rt_ops : l ≡ₚ Z.of_nat <$> seq 0 (length h);
  rt_order : forall (i j : nat) a b, h !! i = Some a -> h !! j = Some b -> op_Return a < op_Call b ->
    ordered l (Z.of_nat i) (Z.of_nat j);
  rt_accepts : accepts Step inp out Init l }.

Definition describes (inp : Z -> Inp) (out : Z -> Out) (h : list Operation) : Prop :=
  forall (i : nat) op, h !! i = Some op -> inp (Z.of_nat i) = op_Input op /\ out (Z.of_nat i) = op_Output op.

Definition call_entry (i : Z) (op : Operation) : entry :=
  mkEntry CallEvent (VIn (op_Input op)) i (op_Call op) (op_ClientId op).
Definition return_entry (i : Z) (op : Operation) : entry :=
  mkEntry ReturnEvent (VOut (op_Output op)) i (op_Return op) (op_ClientId op).

Lemma makeEntries_loop_elem (h : list Operation) k e :
  e ∈ makeEntries_loop h k <->
  exists i op, h !! i = Some op /\ (e = call_entry (k + Z.of_nat i) op \/ e = return_entry (k + Z.of_nat i) op).
Proof.
  revert k. induction h as [|op h IH]; intros k; simpl; [set_solver|].
  rewrite !elem_of_cons, IH. split.
  - intros [->|[->|(i & o & Hi & He)]].
    + exists 0%nat, op. rewrite Z.add_0_r. auto.
    + exists 0%nat, op. rewrite Z.add_0_r. auto.
    + exists (S i), o. replace (k + Z.of_nat (S i)) with (k + 1 + Z.of_nat i) by lia. auto.
  - intros ([|i] & o & Hi & He); simpl in Hi.
    + injection Hi as ->. rewrite Z.add_0_r in He. naive_solver.
    + right. right. exists i, o. replace (k + 1 + Z.of_nat i) with (k + Z.of_nat (S i)) by lia. auto.
Qed.

Lemma makeEntries_loop_length (h : list Operation) k : length (makeEntries_loop h k) = (2 * length h)%nat.
Proof. revert k. induction h as [|op h IH]; intros k; simpl; [done|]. rewrite IH. lia. Qed.

Lemma makeEntries_loop_nodup (h : list Operation) k : NoDup (events (makeEntries_loop h k)).
Proof.
  revert k. induction h as [|op h IH]; intros k; simpl; [constructor|].
  assert (forall b i, i <= k -> (b, i) ∉ events (makeEntries_loop h (k + 1))) as Hnot.
  { intros b i Hi. unfold events. rewrite list_elem_of_fmap.
    intros (e & E & (j & o & _ & [->| ->])%makeEntries_loop_elem); unfold event_of in E; simpl in E;
      injection E as _ E; lia. }
  constructor; [|constructor; [|apply IH]].
  - rewrite elem_of_cons. intros [[=]|Hin]. by apply Hnot in Hin.
  - intros Hin. by apply Hnot in Hin.
Qed.

Section OneHistory.
Variables (f : list entry -> list entry) (h : list Operation).
Hypothesis (Hsort : sorts_byTime f) (Htimed : timed h).

Notation es := (makeEntries f h).

Lemma makeEntries_elem e :
  e ∈ es <-> exists (i : nat) op, h !! i = Some op /\ (e = call_entry (Z.of_nat i) op \/ e = return_entry (Z.of_nat i) op).
Proof.
  unfold makeEntries. rewrite (sb_perm _ Hsort), makeEntries_loop_elem. by setoid_rewrite Z.add_0_l.
Qed.

Lemma events_elem b i :
  (b, i) ∈ events es <-> exists (k : nat) op, h !! k = Some op /\ i = Z.of_nat k.
Proof.
  unfold events. rewrite list_elem_of_fmap. split.
  - intros (e & E & (k & op & Hk & [->| ->])%makeEntries_elem); injection E as _ ->; eauto.
  - intros (k & op & Hk & ->). destruct b.
    + exists (return_entry (Z.of_nat k) op). split; [done|]. apply makeEntries_elem. eauto.
    + exists (call_entry (Z.of_nat k) op). split; [done|]. apply makeEntries_elem. eauto.
Qed.

Lemma events_nodup : NoDup (events es).
Proof. unfold events, makeEntries. rewrite (sb_perm _ Hsort). apply makeEntries_loop_nodup. Qed.

(** An entry comes before another in the list only if its time is not later. *)
Lemma sorted_split A x B y C : es = A ++ x :: B ++ y :: C -> time x <= time y.
Proof.
  intros E. pose proof (sb_sorted _ Hsort (makeEntries_loop h 0)) as Hs. fold (makeEntries f h) in Hs. rewrite E in Hs.
  apply StronglySorted_app_1_r in Hs. inversion Hs as [|? ? _ Hall]; subst.
  rewrite Forall_app, Forall_cons in Hall. destruct Hall as (_ & Hy & _). apply Z.ltb_ge in Hy. done.
Qed.

Lemma events_split_1 A i B : events es = A ++ i :: B ->
  exists A' e B', es = A' ++ e :: B' /\ event_of e = i /\ events A' = A /\ events B' = B.
Proof.
  unfold events. intros E. apply fmap_app_inv in E as (A' & R & E1 & E2 & E3).
  symmetry in E2. destruct R as [|e B']; [done|]. simpl in E2. injection E2 as <- <-. eauto 10.
Qed.

Lemma return_is (k : nat) op e :
  h !! k = Some op -> e ∈ es -> event_of e = (true, Z.of_nat k) -> e = return_entry (Z.of_nat k) op.
Proof.
  intros Hk (i & o & Hi & [->| ->])%makeEntries_elem E; [done|]. injection E as E. apply Nat2Z.inj in E as ->. congruence.
Qed.

Lemma call_is (k : nat) op e :
  h !! k = Some op -> e ∈ es -> event_of e = (false, Z.of_nat k) -> e = call_entry (Z.of_nat k) op.
Proof.
  intros Hk (i & o & Hi & [->| ->])%makeEntries_elem E; [|done]. injection E as E. apply Nat2Z.inj in E as ->. congruence.
Qed.

Lemma makeEntries_history : wf_history (events es).
Proof.
  constructor.
  - apply events_nodup.
  - intros i A B E. pose proof E as (A' & e & B' & Es & He & EA & EB)%events_split_1.
    assert ((true, i) ∈ events es) as Hin by (rewrite E; set_solver).
    apply events_elem in Hin as (k & op & Hk & ->).
    assert (e = return_entry (Z.of_nat k) op) as -> by (apply return_is; [done|rewrite Es; set_solver|done]).
    assert (call_entry (Z.of_nat k) op ∈ es) as Hc by (apply makeEntries_elem; eauto).
    rewrite Es, elem_of_app, elem_of_cons in Hc. destruct Hc as [Hc|[[=]|Hc]].
    + rewrite <- EA. unfold events. apply list_elem_of_fmap. eexists. by split; [|done].
    + apply list_elem_of_split in Hc as (X & Y & ->). apply sorted_split in Es. simpl in Es.
      pose proof (td_order _ Htimed _ _ Hk). lia.
  - intros i (k & op & Hk & ->)%events_elem. apply events_elem. eauto.
Qed.

Lemma makeEntries_wf inp out : describes inp out h -> wf_entries inp out es.
Proof.
  intros Hd. constructor; [apply makeEntries_history|..].
  - intros e (i & op & Hi & He)%makeEntries_elem.
    assert (id e = Z.of_nat i) as -> by (by destruct He as [->| ->]).
    apply lookup_lt_Some in Hi. unfold makeEntries, len.
    rewrite (Permutation_length (sb_perm _ Hsort _)), makeEntries_loop_length.
    rewrite Z.quot_div_nonneg by lia. replace (Z.of_nat (2 * length h)) with (Z.of_nat (length h) * 2) by lia.
    rewrite Z.div_mul by lia. lia.
  - intros e (i & op & Hi & [->| ->])%makeEntries_elem; [|done]. intros _. simpl. by rewrite (proj1 (Hd i op Hi)).
  - intros e (i & op & Hi & [->| ->])%makeEntries_elem; [done|]. intros _. simpl. by rewrite (proj2 (Hd i op Hi)).
Qed.

Lemma makeEntries_len : len es <= max_int.
Proof.
  unfold makeEntries, len. rewrite (Permutation_length (sb_perm _ Hsort _)), makeEntries_loop_length.
  pose proof (td_len _ Htimed). unfold len in *. lia.
Qed.

(** The order of the events is the order of the times. *)
Lemma precedes_times (i j : nat) a b :
  h !! i = Some a -> h !! j = Some b -> precedes (events es) (Z.of_nat i) (Z.of_nat j) <-> op_Return a < op_Call b.
Proof.
  intros Hi Hj. split.
  - intros (A & B & C & E). apply events_split_1 in E as (A' & x & R & Es & Hx & _ & ER).
    apply fmap_app_inv in ER as (B' & R' & _ & E2 & ->). symmetry in E2.
    destruct R' as [|y C']; [done|]. apply (f_equal head) in E2. cbn [fmap list_fmap head] in E2.
    assert (event_of y = (false, Z.of_nat j)) as Hy by congruence.
    assert (x = return_entry (Z.of_nat i) a) as -> by (apply return_is; [done|rewrite Es; set_solver|done]).
    assert (y = call_entry (Z.of_nat j) b) as -> by (apply call_is; [done|rewrite Es; set_solver|done]).
    apply sorted_split in Es. simpl in Es. pose proof (td_distinct _ Htimed _ _ _ _ Hi Hj). lia.
  - intros Hlt.
    assert (return_entry (Z.of_nat i) a ∈ es) as Hx by (apply makeEntries_elem; eauto).
    assert (call_entry (Z.of_nat j) b ∈ es) as Hy by (apply makeEntries_elem; eauto).
    apply list_elem_of_split in Hx as (X & Y & Es). rewrite Es, elem_of_app, elem_of_cons in Hy.
    destruct Hy as [Hy|[[=]|Hy]].
    + apply list_elem_of_split in Hy as (X1 & X2 & ->). rewrite <- app_assoc in Es.
      apply sorted_split in Es. simpl in Es. lia.
    + apply list_elem_of_split in Hy as (Y1 & Y2 & ->). exists (events X), (events Y1), (events Y2).
      rewrite Es. unfold events. rewrite fmap_app. simpl. by rewrite fmap_app.
Qed.

Lemma linearizable_real_time (Step : St -> Inp -> Out -> bool * St) Init inp out :
  linearizable Step inp out (events es) Init <-> exists l, real_time_order Step Init inp out h l.
Proof.
  split; intros (l & Hl); exists l; destruct Hl.
  - constructor; [|intros i j a b Hi Hj Hlt; apply lin_order0; by apply (precedes_times i j a b Hi Hj)|done].
    apply NoDup_Permutation; [done|apply NoDup_fmap_2; [apply _|apply NoDup_seq]|].
    intros i. rewrite lin_ops0, events_elem, list_elem_of_fmap. split.
    + intros (k & op & Hk%lookup_lt_Some & ->). exists k. split; [done|]. apply elem_of_seq. lia.
    + intros (k & -> & Hk%elem_of_seq). destruct (lookup_lt_is_Some_2 h k) as [op Hop]; [lia|]. eauto.
  - constructor; [rewrite rt_ops0; apply NoDup_fmap_2; [apply _|apply NoDup_seq]| | |done].
    + intros i. rewrite rt_ops0, events_elem, list_elem_of_fmap. split.
      * intros (k & -> & Hk%elem_of_seq). destruct (lookup_lt_is_Some_2 h k) as [op Hop]; [lia|]. eauto.
      * intros (k & op & Hk%lookup_lt_Some & ->). exists k. split; [done|]. apply elem_of_seq. lia.
    + intros a b Hp. pose proof Hp as [(i & x & Hi & ->)%events_elem (j & y & Hj & ->)%events_elem]%precedes_elem.
      eapply rt_order0; [done|done|]. by apply (precedes_times i j x y Hi Hj).
Qed.

End OneHistory.
End Operations.

(** ** CheckOperations *)

Section Check.
Context {Inp Out St : Type} `{Inhabited Inp, Inhabited Out, EqDecision St}.
Variables (ddo : Inp -> Out -> string) (dds : St -> string).
Variable (sort_byTime : list (@entry Inp Out) -> list (@entry Inp Out)).
Variable (map_range : list (nat * list Z) -> list (nat * list Z)).

Definition inp_of (h : list (Operation Inp Out)) (i : Z) : Inp := default inhabitant (op_Input <$> h !! Z.to_nat i).
Definition out_of (h : list (Operation Inp Out)) (i : Z) : Out := default inhabitant (op_Output <$> h !! Z.to_nat i).

Lemma describes_of h : describes (inp_of h) (out_of h) h.
Proof. intros i op Hi. unfold inp_of, out_of. by rewrite Nat2Z.id, Hi. Qed.

(** The operations of a history can be put in an order that respects their times and that the model
    accepts. *)
Definition op_linearizable (m : Model Inp Out St) (h : list (Operation Inp Out)) : Prop :=
  exists l, real_time_order (Step m) (Init m) (inp_of h) (out_of h) h l.

Definition partitions_of (m : Model Inp Out St) (h : list (Operation Inp Out)) : list (list (Operation Inp Out)) :=
  default NoPartition (Partition m) h.

Lemma shallow_sound (m : Model Inp Out St) inp out :
  Equal m = None -> equal_sound (Step m) inp out (equal_of m).
Proof.
  intros E s t i. unfold equal_of. rewrite E. simpl. unfold ShallowEqual.
  intros ->%bool_decide_eq_true. split; [done|]. by apply bool_decide_eq_true.
Qed.

(** The partitions as [checkParallel] gets them *)
Lemma parts_checkable m h :
  sorts_byTime sort_byTime -> Forall timed (partitions_of m h) ->
  (forall inp out, equal_sound (Step m) inp out (equal_of m)) ->
  forall i es, ((fun sub => makeEntries sort_byTime sub) <$> partitions_of m h) !! i = Some es ->
    checkable (Step m) (equal_of m) (fun i => inp_of (default [] (partitions_of m h !! i)))
      (fun i => out_of (default [] (partitions_of m h !! i))) i es.
Proof.
  intros Hs Ht He i es. rewrite list_lookup_fmap. destruct (partitions_of m h !! i) as [sub|] eqn:Hi; simpl; [|done].
  intros [= <-]. eapply Forall_lookup_1 in Ht; [|done].
  constructor; rewrite ?Hi; simpl; [by apply makeEntries_wf, describes_of|by apply makeEntries_len|apply He].
Qed.

Lemma parts_linearizable m h :
  sorts_byTime sort_byTime -> Forall timed (partitions_of m h) ->
  all_linearizable (Init m) (Step m) ((fun sub => makeEntries sort_byTime sub) <$> partitions_of m h)
    (fun i => inp_of (default [] (partitions_of m h !! i))) (fun i => out_of (default [] (partitions_of m h !! i))) <->
  Forall (op_linearizable m) (partitions_of m h).
Proof.
  intros Hs Ht. unfold all_linearizable. rewrite Forall_lookup. split.
  - intros Hall i sub Hi. specialize (Hall i (makeEntries sort_byTime sub)). rewrite list_lookup_fmap, Hi in Hall.
    specialize (Hall eq_refl). simpl in Hall. eapply Forall_lookup_1 in Ht; [|done].
    by apply linearizable_real_time in Hall.
  - intros Hall i es. rewrite list_lookup_fmap. destruct (partitions_of m h !! i) as [sub|] eqn:Hi; simpl; [|done].
    intros [= <-]. eapply Forall_lookup_1 in Ht; [|done]. apply linearizable_real_time; [done|done|]. exact (Hall i sub Hi).
Qed.

Lemma checkOperations_parallel m h verbose timeout sched late :
  checkOperations ddo dds sort_byTime map_range m h verbose timeout sched late =
  checkParallel (Init m) (Step m) (equal_of m) ((fun sub => makeEntries sort_byTime sub) <$> partitions_of m h)
    verbose timeout map_range sched late.
Proof. reflexivity. Qed.

(** C2: [CheckOperations] terminates once its goroutines have answered, in whatever order, and answers true
    exactly when every partition of the history is linearizable in real time: the operations of the
    partition can be ordered so that those that returned before others were called come first, and the
    model accepts the whole sequence. *)
Theorem CheckOperations_correct m h order late :
  sorts_byTime sort_byTime -> Forall timed (partitions_of m h) ->
  (forall inp out, equal_sound (Step m) inp out (equal_of m)) ->
  partitions_of m h <> [] -> order ≡ₚ seq 0 (length (partitions_of m h)) ->
  exists b, CheckOperations ddo dds sort_byTime map_range m h (SelResult <$> order) late = Val (Some b) /\
    (b = true <-> Forall (op_linearizable m) (partitions_of m h)).
Proof.
  intros Hs Ht He Hne Hord.
  destruct (checkParallel_complete (Init m) (Step m) (equal_of m) _ _ _ false map_range order late 0
              (parts_checkable m h Hs Ht He)) as (result & info & Hr & Hok & _).
  - by rewrite length_fmap.
  - intros E. apply fmap_nil_inv in E. done.
  - exists (bool_decide (result = Ok)). split; [|by rewrite bool_decide_eq_true, Hok, parts_linearizable].
    unfold CheckOperations, is_ok. by rewrite checkOperations_parallel, Hr.
Qed.

(** C28: With a time limit the verdicts are still right, under any schedule of answers and timer: [Ok] is
    given only to histories all of whose partitions are linearizable, [Illegal] only to others, and
    nothing panics. *)
Theorem CheckOperationsTimeout_sound m h timeout sched late :
  sorts_byTime sort_byTime -> Forall timed (partitions_of m h) ->
  (forall inp out, equal_sound (Step m) inp out (equal_of m)) ->
  exists o, CheckOperationsTimeout ddo dds sort_byTime map_range m h timeout sched late = Val o /\
    (o = Some Ok -> Forall (op_linearizable m) (partitions_of m h)) /\
    (o = Some Illegal -> ~ Forall (op_linearizable m) (partitions_of m h)) /\
    (timeout <= 0 -> o <> Some Unknown).
Proof.
  intros Hs Ht He.
  destruct (checkParallel_sound (Init m) (Step m) (equal_of m) _ _ _ false timeout map_range sched late
              (parts_checkable m h Hs Ht He)) as (o & Ho & Hv).
  pose proof (parts_linearizable m h Hs Ht) as Hiff.
  unfold CheckOperationsTimeout, result_of. rewrite checkOperations_parallel, Ho.
  destruct o as [[result info]|].
  - destruct (Hv result info eq_refl) as (H1 & H2 & H3). eexists. split; [reflexivity|].
    split_and!; [intros [= ->]; apply Hiff; auto|intros [= ->] Hf%Hiff; by apply H2|]. intros Hle [= ->]. by apply H3.
  - eexists. split; [reflexivity|]. done.
Qed.

(** Without partitions and without a timer there is nothing to wait for, and the check waits forever. *)
Lemma no_partitions_block m h sched late :
  partitions_of m h = [] -> CheckOperations ddo dds sort_byTime map_range m h sched late = Val None.
Proof.
  intros E. unfold CheckOperations, is_ok. rewrite checkOperations_parallel, E. unfold checkParallel. simpl. destruct sched as [|[i|] sched]; simpl; try done.
Qed.

End Check.
End PorcTop.
