(* ===== verification/PorcPartial.v ===== *)
(** * Partial linearizations (porcupine/checker.go)

    With [computePartial] the search keeps, for each operation, the longest sequence with it that it had on
    its stack when it turned back.  The stack always holds a run of the model, so each of these sequences is
    one: the model accepts its operations in this order. *)

From stdpp Require Import base list gmap strings.
From Stdlib Require Import ZArith Lia.
From S2P Require Import Prelude Bitset PorcModel PorcList PorcCheck PorcSpec PorcCorrect.
Import Bitset PorcList PorcCheck PorcSpec PorcCorrect.

Open Scope Z_scope.

Module PorcPartial.

(** ** The list operations keep the contents of the nodes *)

Section Static.
Context {Inp Out : Type}.
Notation heap := (@heap Inp Out).

Lemma set_next_same (h h' : heap) p n : set_next h p n = Val h' -> same_stat h h'.
Proof.
  unfold set_next. destruct p as [l|]; [|done]. intros (nd & Hl%of_option_val & [= <-])%bind_val.
  by apply (same_stat_store h l nd).
Qed.

Lemma set_prev_same (h h' : heap) p n : set_prev h p n = Val h' -> same_stat h h'.
Proof.
  unfold set_prev. destruct p as [l|]; [|done]. intros (nd & Hl%of_option_val & [= <-])%bind_val.
  by apply (same_stat_store h l nd).
Qed.

Ltac same_stats :=
  repeat match goal with
  | H : _ ≫= _ = Val _ |- _ => apply bind_val in H as (? & ? & H)
  | H : set_next _ _ _ = Val _ |- _ => apply set_next_same in H
  | H : set_prev _ _ _ = Val _ |- _ => apply set_prev_same in H
  | H : match ?o with Some _ => _ | None => _ end = Val _ |- _ => destruct o
  | H : mret _ = Val _ |- _ => injection H as <-
  end;
  repeat match goal with
  | H : same_stat ?h ?h' |- same_stat ?h _ => apply (same_stat_trans _ _ _ H); clear H
  end; apply same_stat_refl.

Lemma lift_same (h h' : heap) e : lift h e = Val h' -> same_stat h h'.
Proof. unfold lift, skip_next, skip_prev. intros Hr. same_stats. Qed.

Lemma unlift_same (h h' : heap) e : unlift h e = Val h' -> same_stat h h'.
Proof. unfold unlift, join_next, join_prev. intros Hr. same_stats. Qed.

End Static.

(** All sequences reported have property [P]. *)
Definition reports (P : list Z -> Prop) (longest : list (option (nat * list Z))) : Prop :=
  Forall (fun o => forall t s, o = Some (t, s) -> P s) longest.

Lemma update_longest_all P longest ids sq tick l' :
  reports P longest -> P sq -> update_longest longest ids sq tick = Val l' -> reports P l'.
Proof.
  intros Hr Hs. revert longest Hr. induction ids as [|i ids IH]; intros longest Hr; simpl; [by intros [= <-]|].
  intros (old & _ & Hu)%bind_val. destruct (match old with Some _ => _ | None => _ end); [|by eapply IH].
  apply bind_val in Hu as (l1 & [_ ->]%go_update_val & Hu). eapply IH; [|exact Hu].
  apply Forall_insert; [done|]. intros t s [= <- <-]. done.
Qed.

Section Partial.
Context {Inp Out St : Type}.
Variable Init : St.
Variable Step : St -> Inp -> Out -> bool * St.
Variable Equal : St -> St -> bool.
Variable inp : Z -> Inp.
Variable out : Z -> Out.
Variable n : Z.

Notation heap := (@heap Inp Out).
Notation node := (@node Inp Out).
Notation config := (@config Inp Out St).

(** What the node says that node [m] is the return of *)
Definition matched (h : heap) (nd : node) (m : nat) : Prop :=
  nvalue nd = Some (VIn (inp (nid nd))) /\ 0 <= nid nd < n /\
  forall md, cells h !! m = Some md -> nvalue md = Some (VOut (out (nid nd))).

Definition stats_ok (h : heap) : Prop :=
  forall l nd m, cells h !! l = Some nd -> nmatch nd = Some m -> matched h nd m.

Lemma same_stat_node (h h' : heap) l nd' :
  same_stat h h' -> cells h' !! l = Some nd' -> exists nd, cells h !! l = Some nd /\ stat nd' = stat nd.
Proof.
  intros [_ Hs] Hl. specialize (Hs l). rewrite Hl in Hs. simpl in Hs. destruct (cells h !! l) as [nd|]; [|done].
  simpl in Hs. exists nd. split; [done|]. congruence.
Qed.

Lemma stats_same (h h' : heap) : same_stat h h' -> stats_ok h -> stats_ok h'.
Proof.
  intros Hs Hok l nd m Hl Hm. destruct (same_stat_node h h' l nd Hs Hl) as (nd0 & Hl0 & [= Ev Em Ei]).
  rewrite Hm in Em. destruct (Hok l nd0 m Hl0 (eq_sym Em)) as (Hv & Hi & Hmd). unfold matched. rewrite Ev, Ei.
  split_and!; [done|lia|lia|]. intros md Hmd'. destruct (same_stat_node h h' m md Hs Hmd') as (md0 & Hmd0 & [= Ev' _ _]).
  rewrite Ev'. by apply Hmd.
Qed.

(** The stack is a run of the model from [st] to [fin]. *)
Fixpoint chain (h : heap) (st : St) (calls : list callsEntry) (fin : St) : Prop :=
  match calls with
  | [] => st = fin
  | v :: rest => cs_state v = st /\ exists nd, cells h !! cs_entry v = Some nd /\ 0 <= nid nd < n /\
      (Step st (inp (nid nd)) (out (nid nd))).1 = true /\ chain h (Step st (inp (nid nd)) (out (nid nd))).2 rest fin
  end.

Lemma chain_same (h h' : heap) st calls fin : same_stat h h' -> chain h st calls fin -> chain h' st calls fin.
Proof.
  intros Hs. revert st. induction calls as [|v calls IH]; intros st; simpl; [done|]. intros (-> & nd & Hl & Hi & Hok & Hc).
  split; [done|]. destruct Hs as [Hb Hs']. pose proof (Hs' (cs_entry v)) as E. rewrite Hl in E.
  destruct (cells h' !! cs_entry v) as [nd'|]; [|done]. injection E as _ _ E. exists nd'. rewrite E. split_and!; try done; try lia. by apply IH.
Qed.

Lemma chain_snoc (h : heap) st calls v fin :
  chain h st (calls ++ [v]) fin <-> exists mid, chain h st calls mid /\ chain h mid [v] fin.
Proof.
  revert st. induction calls as [|w calls IH]; intros st; simpl.
  - split; [intros Hv; by exists st|]. by intros (mid & -> & Hv).
  - split.
    + intros (-> & nd & Hl & Hi & Hok & (mid & Hc & Hv)%IH). exists mid. split; [|done]. split; [done|]. by exists nd.
    + intros (mid & (-> & nd & Hl & Hi & Hok & Hc) & Hv). split; [done|]. exists nd. split_and!; try done; try lia.
      apply IH. by exists mid.
Qed.

(** A sequence the model accepts *)
Definition partial_run (s : list Z) : Prop := accepts Step inp out Init s /\ Forall (fun i => 0 <= i < n) s.

Lemma chain_ids (h : heap) st calls fin ids :
  chain h st calls fin -> call_ids h calls = Val ids -> accepts Step inp out st ids /\ Forall (fun i => 0 <= i < n) ids.
Proof.
  revert st ids. induction calls as [|v calls IH]; intros st ids; simpl; [by intros _ [= <-]|].
  intros (_ & nd & Hl & Hi & Hok & Hc) (nd' & Hl'%of_option_val & (ids' & Hids & [= <-])%bind_val)%bind_val.
  rewrite Hl in Hl'. injection Hl' as <-. destruct (IH _ _ Hc Hids) as [Ha Hf]. simpl. split; [done|]. by constructor.
Qed.

Definition runs (longest : list (option (nat * list Z))) : Prop := reports partial_run longest.

Lemma update_longest_runs longest ids sq tick l' :
  runs longest -> partial_run sq -> update_longest longest ids sq tick = Val l' -> runs l'.
Proof. apply update_longest_all. Qed.

Record partial_ok (c : config) : Prop := {
  po_stat : stats_ok (c_heap c);
  po_chain : chain (c_heap c) Init (c_calls c) (c_state c);
  po_longest : runs (c_longest c) }.

(** Taking the last entry off the stack *)
Lemma pop_last (calls calls' : list (@callsEntry St)) top :
  go_index calls (len calls - 1) = Val top -> go_slice calls 0 (len calls - 1) = Val calls' -> calls = calls' ++ [top].
Proof.
  intros [H0 Ht]%go_index_val (_ & _ & _ & ->)%go_slice_val. rewrite Z.sub_0_r, drop_0, <- (take_S_r _ _ _ Ht).
  symmetry. apply take_ge. unfold len in *. lia.
Qed.

Lemma iterate_partial head cp (c : config) r :
  partial_ok c -> iterate Step Equal head cp c = Val r ->
  match r with inl c' => partial_ok c' | inr (_, longest) => runs longest end.
Proof.
  intros [Hst Hch Hl]. unfold iterate. intros (nd & Hnd & Hr)%bind_val.
  destruct (c_entry c) as [x|] eqn:Ex; [|done]. apply of_option_val in Hnd.
  destruct (nmatch nd) as [m|] eqn:Em.
  - destruct (Hst _ _ _ Hnd Em) as (Hv & Hi & Hmd).
    apply bind_val in Hr as (md & Hm%of_option_val & ([ok newState] & Hs & Hr)%bind_val).
    rewrite Hv, (Hmd _ Hm) in Hs. simpl in Hs. injection Hs as Hs.
    destruct ok; [|injection Hr as <-; by constructor].
    apply bind_val in Hr as (nl & _ & (seen & _ & Hr)%bind_val). destruct seen; simpl in Hr; [injection Hr as <-; by constructor|].
    apply bind_val in Hr as (lz & _ & (h & Hh%lift_same & (e' & _ & [= <-])%bind_val)%bind_val).
    constructor; simpl; [by eapply stats_same| |done]. eapply chain_same; [exact Hh|]. apply chain_snoc.
    exists (c_state c). split; [done|]. simpl. split; [done|]. exists nd. rewrite Hs. done.
  - destruct (len (c_calls c) =? 0); [by injection Hr as <-|].
    apply bind_val in Hr as (longest & Hlg & (top & Htop & Hr)%bind_val).
    apply bind_val in Hr as (nd1 & _ & (lz & _ & (calls & Hcs & Hr)%bind_val)%bind_val).
    apply bind_val in Hr as (h & Hh%unlift_same & (e' & _ & [= <-])%bind_val).
    assert (runs longest) as Hl'.
    { destruct cp; [|by injection Hlg as <-]. apply bind_val in Hlg as (ids & Hids & Hu).
      eapply update_longest_runs; [exact Hl| |exact Hu]. by eapply chain_ids. }
    constructor; simpl; [by eapply stats_same| |done]. eapply chain_same; [exact Hh|].
    rewrite (pop_last _ _ _ Htop Hcs) in Hch. apply chain_snoc in Hch as (mid & Hch & <- & _). exact Hch.
Qed.

Lemma check_loop_partial fuel head k cp kill (c : config) ok longest :
  partial_ok c -> check_loop Step Equal fuel head k cp kill c = Val (ok, longest) -> runs longest.
Proof.
  revert c. induction fuel as [|fuel IH]; intros c Hp; simpl; [done|]. intros (nxt & _ & Hr)%bind_val.
  destruct nxt as [nx|].
  - destruct (kill (c_tick c)); [injection Hr as _ <-; apply Hp|]. apply bind_val in Hr as (r & Hi & Hr).
    pose proof (iterate_partial _ _ _ _ Hp Hi) as Hn. destruct r as [c'|[ok' l']]; [by eapply IH|by injection Hr as <- <-].
  - apply bind_val in Hr as (ids & Hids & [= <- <-]). apply Forall_replicate. intros t s [= <- <-].
    eapply chain_ids; [apply Hp|exact Hids].
Qed.

End Partial.

Section Start.
Context {Inp Out St : Type}.
Variable Init : St.
Variable Step : St -> Inp -> Out -> bool * St.
Variable Equal : St -> St -> bool.
Variable inp : Z -> Inp.
Variable out : Z -> Out.
Variable es : list (@entry Inp Out).
Hypothesis es_wf : wf_entries inp out es.
Hypothesis es_small : len es <= max_int.

Lemma level_stats h L done b :
  level es h L done b -> (forall l, (S (length es) <= l)%nat -> cells h !! l = None) ->
  stats_ok inp out (Z.quot (len es) 2) h.
Proof.
  intros Hlv Hfr l nd m Hl Hm. assert (l < S (length es))%nat as Hlt.
  { destruct (Nat.lt_ge_cases l (S (length es))) as [|Hge]; [done|]. rewrite (Hfr l Hge) in Hl. done. }
  assert (forall k nd' e, cells h !! k = Some nd' -> reverse es !! k = Some e -> e ∈ es /\ stat nd' = node_stat (reverse es) k e) as Hst.
  { intros k nd' e Hk He. pose proof (lv_stat _ _ _ _ _ Hlv k e He) as E. rewrite Hk in E. apply (inj Some) in E.
    split; [|exact E]. apply list_elem_of_lookup_2 in He. by rewrite elem_of_reverse in He. }
  destruct (decide (l = length es)) as [->|Hne].
  { pose proof (lv_head _ _ _ _ _ Hlv) as E. rewrite Hl in E. injection E as _ E _. congruence. }
  destruct (lookup_lt_is_Some_2 (reverse es) l) as [e He]; [rewrite length_reverse; lia|].
  destruct (Hst l nd e Hl He) as [Hin [= Ev Em Ei]]. rewrite Hm in Em. destruct (kind e) eqn:Hk; [done|].
  destruct (match_map_Some _ _ _ (eq_sym Em)) as (e' & [He' _]%lookup_take_Some & [= Hk' Hid]).
  unfold matched. rewrite Ev, Ei. rewrite (wfe_call _ _ _ es_wf e Hin Hk). pose proof (wfe_ids _ _ _ es_wf e Hin).
  split_and!; [done|lia|lia|]. intros md Hmd. destruct (Hst m md e' Hmd He') as [Hin' [= Ev' _ _]].
  rewrite Ev', (wfe_return _ _ _ es_wf e' Hin' Hk'), Hid. done.
Qed.

(** Every sequence [checkSingle] reports is a run of the model. *)
Lemma checkSingle_runs cp kill ok longest :
  checkSingle Init Step Equal es cp kill = Val (ok, longest) -> runs Init Step inp out (Z.quot (len es) 2) longest.
Proof.
  destruct (checkSingle_start Init Step Equal inp out es es_wf es_small cp) as (h & cache & lg & -> & Hlv & _ & Hfr & -> & _).
  apply check_loop_partial. constructor; simpl; [by eapply level_stats|done|]. by apply Forall_replicate.
Qed.

End Start.
End PorcPartial.
