(* ===== verification/PorcOrder.v ===== *)
(** * The order of partial linearizations (porcupine/checker.go)

    The search only takes a call that no remaining return precedes.  So what it has on its stack, and what it
    reports as partial linearizations, respects real time: an operation comes only after all that had returned
    before it was called. *)

From stdpp Require Import base list gmap strings.
From Stdlib Require Import ZArith Lia.
From S2P Require Import Prelude Bitset PorcModel PorcList PorcCheck PorcSpec PorcCorrect PorcPartial.
Import Bitset PorcList PorcCheck PorcSpec PorcCorrect PorcPartial.

Open Scope Z_scope.

Module PorcOrder.

(** What precedes an operation of the sequence comes before it. *)
Definition in_order (hist : list (bool * Z)) (s : list Z) : Prop :=
  forall j i x, s !! j = Some i -> x ∉ take j s -> ~ precedes hist x i.

(** What the page needs of a partial linearization *)
Record order_run (hist : list (bool * Z)) (s : list Z) : Prop := {
  or_nonempty : s <> [];
  or_nodup : NoDup s;
  or_order : in_order hist s }.

Lemma precedes_rest hist done a b : a ∉ done -> b ∉ done -> precedes hist a b -> precedes (rest hist done) a b.
Proof.
  intros Ha Hb (A & B & C & ->). unfold rest. rewrite filter_app, filter_cons_True, filter_app, filter_cons_True by done.
  by eexists _, _, _.
Qed.

Section Order.
Context {Inp Out St : Type}.
Variable Init : St.
Variable Step : St -> Inp -> Out -> bool * St.
Variable Equal : St -> St -> bool.
Variable inp : Z -> Inp.
Variable out : Z -> Out.
Variable es : list (@entry Inp Out).
Hypothesis es_wf : wf_entries inp out es.
Hypothesis es_small : len es <= max_int.
Variable cp : bool.

Notation n := (Z.quot (len es) 2).
Notation ev_at := (ev_at es).
Notation level := (level es).
Notation callsEntry := (@callsEntry St).
Notation iterate c := (iterate Step Equal (length es) cp c).

(** The ids of the calls on the stack *)
Definition ids_of (calls : list callsEntry) : list Z := (fun v => (ev_at (cs_entry v)).2) <$> calls.

Lemma call_ids_val h L done b calls : level h L done b -> calls_ok es calls -> call_ids h calls = Val (ids_of calls).
Proof.
  intros Hlv Hc. induction Hc as [|v calls Hv Hc IH]; [done|]. simpl.
  destruct (rs_lookup es (cs_entry v) Hv) as (e & He & _ & Hev). pose proof (lv_stat _ _ _ _ _ Hlv _ e He) as Hs.
  destruct (cells h !! cs_entry v) as [nd|] eqn:Hnd; [|done]. simpl in Hs. injection Hs as _ _ Hid. rewrite (load_some _ _ _ Hnd). simpl. rewrite IH. simpl.
  unfold ids_of. simpl. by rewrite Hev, Hid.
Qed.

(** The levels below the current one, each with the call that was taken from it *)
Inductive stack : heap -> list nat -> gset Z -> list Z -> list callsEntry -> Prop :=
  | stack_nil h L b : level h L ∅ b -> stack h L ∅ b []
  | stack_push h L done b calls A x K i st h' L' b' :
      stack h L done b calls -> L = A ++ x :: K -> Forall (fun y => (ev_at y).1 = false) A -> ev_at x = (false, i) ->
      unlift h' (Some x) = Val h -> level h' L' ({[i]} ∪ done) b' -> clear b' i = Val b ->
      stack h' L' ({[i]} ∪ done) b' (calls ++ [mkCallsEntry x st]).

Lemma stack_level h L done b calls : stack h L done b calls -> level h L done b.
Proof. by destruct 1. Qed.

Lemma stack_calls h L done b calls : stack h L done b calls -> calls_ok es calls.
Proof.
  induction 1 as [|h L done b calls A x K i st h' L' b' Hst IH HL _ _ _ _ _]; [constructor|].
  apply Forall_app. split; [done|]. apply Forall_singleton. simpl. eapply level_in; [by eapply stack_level|]. rewrite HL. set_solver.
Qed.

Lemma stack_order h L done b calls :
  stack h L done b calls -> done = list_to_set (ids_of calls) /\ NoDup (ids_of calls) /\ in_order (events es) (ids_of calls).
Proof.
  induction 1 as [|h L done b calls A x K i st h' L' b' Hst (Hd & Hn & Ho) HL HA Hx _ _ _].
  { split_and!; [done|constructor|]. intros j i x Hj. done. }
  pose proof (stack_level _ _ _ _ _ Hst) as Hlv. unfold ids_of in *. rewrite fmap_app. simpl. rewrite Hx. simpl.
  assert (i ∉ done) as Hi.
  { assert ((false, i) ∈ rest (events es) done) as [Hi _]%list_elem_of_filter; [|done].
    rewrite <- (lv_events _ _ _ _ _ Hlv), <- Hx. apply list_elem_of_fmap_2. rewrite HL. set_solver. }
  split_and!.
  - rewrite list_to_set_app_L. simpl. set_solver.
  - apply NoDup_app. split_and!; [done| |apply NoDup_singleton]. intros y Hy ->%list_elem_of_singleton. apply Hi. rewrite Hd. by apply elem_of_list_to_set.
  - intros j k y Hj Hy Hp. apply lookup_app_Some in Hj as [Hj|[Hge Hj]].
    + rewrite take_app_le in Hy by (apply lookup_lt_Some in Hj; lia). by eapply Ho.
    + apply list_lookup_singleton_Some in Hj as [Hj <-]. rewrite take_app_ge in Hy by lia. rewrite elem_of_app in Hy.
      assert (y ∉ done) as Hyd by (rewrite Hd, elem_of_list_to_set; tauto).
      apply (precedes_rest _ done) in Hp; [|done|done].
      apply (minimal_not_preceded (rest (events es) done) i y); [apply rest_wf, es_wf| |done].
      rewrite <- (lv_events _ _ _ _ _ Hlv), HL. exists (ev_at <$> A), (ev_at <$> K). rewrite fmap_app, fmap_cons, Hx. split; [done|].
      by apply Forall_fmap.
Qed.

(** A configuration of the search: on a level of the stack, at an entry with only calls before it *)
Record conf_ok (c : @config Inp Out St) : Prop := {
  cf_stack : exists L done A l, stack (c_heap c) L done (c_linearized c) (c_calls c) /\ L = A ++ l /\ c_entry c = hd_or None l /\
    Forall (fun y => (ev_at y).1 = false) A;
  cf_cache : exists t, cache_ok Equal es (c_cache c) t;
  cf_longest : len (c_longest c) = n }.

Lemma iterate_conf c c' : conf_ok c -> iterate c = Val (inl c') -> conf_ok c'.
Proof.
  destruct c as [h p st b cache calls longest tick]. intros [(L & done & A & l & Hst & HL & Hp & HA) (t & Ht) Hlg]. simpl in *. subst p.
  pose proof (stack_level _ _ _ _ _ Hst) as Hlv. destruct l as [|x K].
  { intros Hit. unfold PorcCheck.iterate in Hit. simpl in Hit. done. }
  simpl. destruct (ev_at x) as [[] i] eqn:Ex.
  - inversion Hst as [h0 L0 b0 Hl0|h0 L0 done0 b0 calls0 A0 x0 K0 i0 st0 h1 L1 b1 Hst0 HL0 HA0 Hx0 Hun Hl1 Hcl]; subst.
    { intros Hit. unfold PorcCheck.iterate in Hit. simpl in Hit. apply bind_val in Hit as (nd & Hnd%of_option_val & Hit).
      destruct (level_node es _ _ _ _ x Hlv ltac:(set_solver)) as (nd' & e & Hnd' & _ & _ & Hee & _ & _ & Hm).
      rewrite Hnd in Hnd'. injection Hnd' as <-. rewrite Ex in Hee. injection Hee as Hk _. rewrite <- Hk in Hm. rewrite Hm in Hit. done. }
    destruct (turn_back Step Equal inp out es es_wf es_small cp h (A ++ x :: K) _ b x0 K0 i0 h0 (A0 ++ x0 :: K0) done0 b0 A0 x _ i st0 st cache calls0 longest tick
                (stack_level _ _ _ _ _ Hst0) eq_refl Hx0 Hlv ltac:(set_solver) Ex eq_refl Hun Hcl (stack_calls _ _ _ _ _ Hst0) Hlg) as (longest' & -> & Hlg').
    intros [= <-]. constructor; simpl; [|by exists t|done]. exists (A0 ++ x0 :: K0), done0, (A0 ++ [x0]), K0. split_and!; [done|by rewrite <- app_assoc|done|].
    apply Forall_app. split; [done|]. apply Forall_singleton. by rewrite Hx0.
  - destruct ((Step st (inp i) (out i)).1 && negb (visited Equal t ({[i]} ∪ done) (Step st (inp i) (out i)).2)) eqn:Hgo.
    + destruct (turn_push Init Step Equal inp out es es_wf es_small cp h L done b A x K i st cache t calls longest tick Hlv HL Ex Ht Hgo)
        as (h' & L' & b' & cache' & -> & Hun & Hlv' & Hcl & Hc' & _).
      intros [= <-]. constructor; simpl; [|by eexists|done]. exists L', ({[i]} ∪ done), [], L'. split_and!; [|done|done|by constructor].
      by eapply stack_push.
    + rewrite (turn_skip Init Step Equal inp out es es_wf es_small cp h L done b A x K i st cache t calls longest tick Hlv HL Ex Ht Hgo).
      intros [= <-]. constructor; simpl; [|by exists t|done]. exists L, done, (A ++ [x]), K. split_and!; [done|by rewrite <- app_assoc|done|].
      apply Forall_app. split; [done|]. apply Forall_singleton. by rewrite Ex.
Qed.

(** What a turn reports are the calls on the stack. *)
Lemma iterate_longest c r :
  iterate c = Val r ->
  (match r with inl c' => c_longest c' | inr (_, l) => l end) = c_longest c \/
  exists ids c', c_calls c <> [] /\ r = inl c' /\ call_ids (c_heap c) (c_calls c) = Val ids /\
    update_longest (c_longest c) ids ids (c_tick c) = Val (c_longest c').
Proof.
  unfold PorcCheck.iterate. intros (nd & _ & Hr)%bind_val. destruct (nmatch nd) as [m|].
  - left. apply bind_val in Hr as (md & _ & ([ok st'] & _ & Hr)%bind_val). destruct ok; [|by injection Hr as <-].
    apply bind_val in Hr as (nl & _ & (seen & _ & Hr)%bind_val). destruct seen; simpl in Hr; [by injection Hr as <-|].
    apply bind_val in Hr as (e & _ & (lz & _ & (h & _ & (e' & _ & [= <-])%bind_val)%bind_val)%bind_val). done.
  - destruct (Z.eqb_spec (len (c_calls c)) 0) as [|Hne]; [injection Hr as <-; by left|].
    apply bind_val in Hr as (longest & Hlg & (top & _ & (nd1 & _ & Hr)%bind_val)%bind_val).
    apply bind_val in Hr as (lz & _ & (calls & _ & (h & _ & (e' & _ & [= <-])%bind_val)%bind_val)%bind_val). simpl.
    destruct cp; [|injection Hlg as <-; by left]. right. apply bind_val in Hlg as (ids & Hids & Hu). eexists ids, _. split_and!; [|done|done|done].
    intros E. rewrite E in Hne. done.
Qed.

Lemma stack_run h L done b calls ids :
  stack h L done b calls -> calls <> [] -> call_ids h calls = Val ids -> order_run (events es) ids.
Proof.
  intros Hst Hne. rewrite (call_ids_val _ _ _ _ _ (stack_level _ _ _ _ _ Hst) (stack_calls _ _ _ _ _ Hst)). intros [= <-].
  destruct (stack_order _ _ _ _ _ Hst) as (_ & Hn & Ho). constructor; [|done|done]. unfold ids_of. by destruct calls.
Qed.

Lemma check_loop_order fuel k kill c ok longest :
  (0 < k -> es <> []) -> conf_ok c -> reports (order_run (events es)) (c_longest c) ->
  check_loop Step Equal fuel (length es) k cp kill c = Val (ok, longest) -> reports (order_run (events es)) longest.
Proof.
  intros Hk. revert c. induction fuel as [|fuel IH]; intros c Hc Hrep; simpl; [done|]. intros (nxt & Hnxt & Hr)%bind_val.
  pose proof Hc as [(L & done & A & l & Hst & HL & Hp & HA) _ _].
  destruct nxt as [nx|].
  - destruct (kill (c_tick c)); [by injection Hr as _ <-|]. apply bind_val in Hr as (r & Hi & Hr).
    destruct (iterate_longest c r Hi) as [E|(ids & c' & Hne & -> & Hids & Hu)].
    + destruct r as [c'|[ok' l']]; [|by injection Hr as <- <-; rewrite E]. eapply IH; [by eapply iterate_conf| |exact Hr]. by rewrite E.
    + eapply IH; [by eapply iterate_conf| |exact Hr]. eapply update_longest_all; [exact Hrep| |exact Hu]. by eapply stack_run.
  - apply bind_val in Hr as (ids & Hids & [= <- <-]). destruct (decide (0 < k)) as [Hpos|Hz].
    + apply Forall_replicate. intros t s [= <- <-]. eapply stack_run; [exact Hst| |exact Hids].
      pose proof (stack_level _ _ _ _ _ Hst) as Hlv. rewrite (level_head_next _ _ _ _ _ Hlv) in Hnxt.
      destruct L as [|y L]; [|done]. intros E. rewrite E in Hst. inversion Hst as [? ? ? Hl0|? ? ? ? calls0 ? ? ? ? ? ? ? ? ? ? ? ? ? ? ? Ec]; [|by destruct calls0].
      pose proof (lv_events _ _ _ _ _ Hl0) as Hev. rewrite rest_empty in Hev. simpl in Hev. unfold events in Hev. apply (Hk Hpos).
      by destruct es.
    + replace (Z.to_nat k) with 0%nat by lia. by constructor.
Qed.

(** Every sequence [checkSingle] reports respects real time. *)
Lemma checkSingle_order kill ok longest :
  checkSingle Init Step Equal es cp kill = Val (ok, longest) -> reports (order_run (events es)) longest.
Proof.
  destruct (checkSingle_start Init Step Equal inp out es es_wf es_small cp) as (h & cache & lg & -> & Hlv & Hc & _ & -> & Hlg).
  apply check_loop_order.
  - intros Hn ->. done.
  - constructor; simpl; [|by exists []|done]. exists (reverse (seq 0 (length es))), ∅, [], (reverse (seq 0 (length es))).
    split_and!; [by apply stack_nil|done|done|by constructor].
  - by apply Forall_replicate.
Qed.

End Order.
End PorcOrder.
