(* ===== verification/PorcVis.v ===== *)
(** * Visualization of a check (porcupine/visualization.go)

    [computeVisualizationData] turns what a verbose check reports into the data of the page: per partition the
    operations with their times and descriptions, the partial linearizations, longest first, with the state
    after each step, and for each operation the largest of them it is in.  The page itself is a constant;
    JSON, the writer and the file system are parameters. *)

From stdpp Require Import base list gmap strings.
From Stdlib Require Import ZArith Lia Sorting.Sorted.
From S2P Require Import Prelude Bitset PorcModel PorcList PorcCheck PorcSpec PorcCorrect PorcPartial PorcOrder PorcTop.
Import PorcList PorcCheck PorcSpec PorcCorrect PorcPartial PorcOrder PorcTop.

Open Scope Z_scope.

Module PorcVis.

Record historyElement := mkElement {
  ClientId : Z;
  Start : Z;
  End_ : Z;
  Description : string }.

Record linearizationStep := mkStep {
  Index : Z;
  StateDescription : string }.

Record partitionVisualizationData := mkData {
  History : list historyElement;
  PartialLinearizations : list (list linearizationStep);
  Largest : gmap Z Z }.

Section Vis.
Context {Inp Out St : Type} `{EqDecision St}.
Variables (ddo : Inp -> Out -> string) (dds : St -> string).
(** [sort.Slice] of the partial linearizations by decreasing length, which need not be stable *)
Variable sort_partials : list (list Z) -> list (list Z).

Notation entry := (@entry Inp Out).
Notation value := (value Inp Out).
Notation Model := (Model Inp Out St).

(** [model.DescribeOperation(callValue[id], value)]: the model asserts the dynamic types. *)
Definition call_DescribeOperation (m : Model) (v : option value) (w : value) : res string :=
  match v, w with
  | Some (VIn i), VOut o => mret (default ddo (DescribeOperation m) i o)
  | _, _ => Err (EPanic "interface conversion")
  end.

Definition call_DescribeState (m : Model) (st : St) : string := default dds (DescribeState m) st.

(** The loop over the entries: [history], [callValue], [returnValue] *)
Fixpoint history_loop (m : Model) (es : list entry) (history : list historyElement) (callValue returnValue : gmap Z value)
    : res (list historyElement * gmap Z value * gmap Z value) :=
  match es with
  | [] => mret (history, callValue, returnValue)
  | elem :: rest =>
      old ← go_index history (id elem);
      if eqb (kind elem) CallEvent then
        history' ← go_update history (id elem) (mkElement (clientId elem) (time elem) (End_ old) (Description old));
        history_loop m rest history' (<[id elem := evalue elem]> callValue) returnValue
      else
        description ← call_DescribeOperation m (callValue !! id elem) (evalue elem);
        history' ← go_update history (id elem) (mkElement (ClientId old) (Start old) (time elem) description);
        history_loop m rest history' callValue (<[id elem := evalue elem]> returnValue)
  end.

(** The loop over one partial linearization, the [i]-th, of length [size] *)
Fixpoint steps_loop (m : Model) (callValue returnValue : gmap Z value) (i size : Z) (partial : list Z) (state : St)
    (linearization : list linearizationStep) (largestSize largestIndex : gmap Z Z)
    : res (list linearizationStep * gmap Z Z * gmap Z Z) :=
  match partial with
  | [] => mret (linearization, largestSize, largestIndex)
  | histId :: rest =>
      '(ok, state') ← call_Step (Step m) state (callValue !! histId) (returnValue !! histId);
      if negb ok then Err (EPanic "valid partial linearization returned non-ok result from model step")
      else
        let linearization' := linearization ++ [mkStep histId (call_DescribeState m state')] in
        if default 0 (largestSize !! histId) <? size
        then steps_loop m callValue returnValue i size rest state' linearization' (<[histId := size]> largestSize) (<[histId := i]> largestIndex)
        else steps_loop m callValue returnValue i size rest state' linearization' largestSize largestIndex
  end.

Fixpoint partials_loop (m : Model) (callValue returnValue : gmap Z value) (partials : list (list Z)) (i : Z)
    (linearizations : list (list linearizationStep)) (largestSize largestIndex : gmap Z Z)
    : res (list (list linearizationStep) * gmap Z Z) :=
  match partials with
  | [] => mret (linearizations, largestIndex)
  | partial :: rest =>
      '(linearization, largestSize', largestIndex') ←
        steps_loop m callValue returnValue i (len partial) partial (Init m) [] largestSize largestIndex;
      partials_loop m callValue returnValue rest (i + 1) (linearizations ++ [linearization]) largestSize' largestIndex'
  end.

Definition zero_element : historyElement := mkElement 0 0 0 "".

(** One turn of the loop over the partitions; the second result is the slice the sort leaves in [info]. *)
Definition partition_data (m : Model) (es : list entry) (partials : list (list Z)) : res (partitionVisualizationData * list (list Z)) :=
  let n := Z.quot (len es) 2 in
  '(history, callValue, returnValue) ← history_loop m es (replicate (Z.to_nat n) zero_element) ∅ ∅;
  let sorted := sort_partials partials in
  '(linearizations, largestIndex) ← partials_loop m callValue returnValue sorted 0 [] ∅ ∅;
  mret (mkData history linearizations largestIndex, sorted).

(** The data, and [info] with its partial linearizations sorted in place *)
Definition computeVisualizationData (model : Model) (info : @linearizationInfo Inp Out)
    : res (list partitionVisualizationData * @linearizationInfo Inp Out) :=
  let model := fillDefault ddo dds model in
  rs ← mapM (fun '(partition, es) =>
         partials ← go_index (info_partials info) (Z.of_nat partition);
         partition_data model es partials) (imap pair (info_history info));
  mret (fst <$> rs, mkInfo (info_history info) (snd <$> rs)).

(** Writing the page: [marshal] is json.Marshal, [fprint] writes the page around the data. *)
Section Output.
Context {Writer : Type}.
Variable marshal : list partitionVisualizationData -> string * option string.
Variable fprint : Writer -> string -> Writer * option string.
Variable create : string -> Writer + string.
Variable close : Writer -> Writer.

Definition Visualize (model : Model) (info : @linearizationInfo Inp Out) (output : Writer) : res (Writer * option string) :=
  '(data, _) ← computeVisualizationData model info;
  let '(jsonData, _) := marshal data in
  mret (fprint output jsonData).

(** The file as it is left, if it was created, and the error *)
Definition VisualizePath (model : Model) (info : @linearizationInfo Inp Out) (path : string) : res (option Writer * option string) :=
  match create path with
  | inr err => mret (None, Some err)
  | inl f => '(f', err) ← Visualize model info f; mret (Some (close f'), err)
  end.

End Output.

(** ** The operations *)

Section Partition.
Variables (m : Model) (inp : Z -> Inp) (out : Z -> Out) (es : list entry).
Hypothesis es_wf : wf_entries inp out es.
Let n := Z.quot (len es) 2.

Definition describe (i : Z) : string := default ddo (DescribeOperation m) (inp i) (out i).

(** The values of the entries [A] *)
Definition values_of (A : list entry) (callValue returnValue : gmap Z value) : Prop :=
  forall i, ((false, i) ∈ events A -> callValue !! i = Some (VIn (inp i))) /\ ((true, i) ∈ events A -> returnValue !! i = Some (VOut (out i))).

(** The elements hold what the entries [A] say. *)
Definition elements_of (A : list entry) (history : list historyElement) : Prop :=
  len history = n /\ forall e, e ∈ A -> exists x, history !! Z.to_nat (id e) = Some x /\
    if kind e then End_ x = time e /\ Description x = describe (id e) else ClientId x = clientId e /\ Start x = time e.

Lemma elements_snoc A e history x x' :
  elements_of A history -> 0 <= id e -> history !! Z.to_nat (id e) = Some x -> event_of e ∉ events A ->
  (forall e', e' ∈ es -> 0 <= id e') -> (forall e', e' ∈ A -> e' ∈ es) ->
  (if kind e then ClientId x' = ClientId x /\ Start x' = Start x /\ End_ x' = time e /\ Description x' = describe (id e)
   else ClientId x' = clientId e /\ Start x' = time e /\ End_ x' = End_ x /\ Description x' = Description x) ->
  elements_of (A ++ [e]) (<[Z.to_nat (id e) := x']> history).
Proof.
  intros [Hlen HA] Hid Hx Hnew Hpos Hsub Hx'. pose proof (lookup_lt_Some _ _ _ Hx) as Hlt.
  split; [unfold len in *; by rewrite length_insert|]. intros e' [He'|He'%list_elem_of_singleton]%elem_of_app.
  - destruct (HA e' He') as (y & Hy & Hk). destruct (decide (id e' = id e)) as [E|Hne].
    + assert (kind e' = negb (kind e)) as Hke.
      { destruct (bool_decide (kind e' = kind e)) eqn:Eb.
        - apply bool_decide_eq_true in Eb. exfalso. apply Hnew. apply list_elem_of_fmap. exists e'. unfold event_of. by rewrite Eb, E.
        - apply bool_decide_eq_false in Eb. by destruct (kind e'), (kind e). }
      exists x'. rewrite E, list_lookup_insert_eq by done. split; [done|]. rewrite E, Hx in Hy. injection Hy as <-.
      rewrite Hke in Hk |- *. destruct (kind e); simpl in *; destruct Hx' as (? & ? & ? & ?); destruct Hk; split; congruence.
    + exists y. rewrite list_lookup_insert_ne; [done|]. pose proof (Hpos e' (Hsub e' He')). lia.
  - subst e'. exists x'. rewrite list_lookup_insert_eq by done. split; [done|]. destruct (kind e); naive_solver.
Qed.

Lemma history_loop_ok A B history callValue returnValue :
  es = A ++ B -> elements_of A history -> values_of A callValue returnValue ->
  exists history' callValue' returnValue', history_loop m B history callValue returnValue = Val (history', callValue', returnValue') /\
    elements_of es history' /\ values_of es callValue' returnValue'.
Proof.
  revert A history callValue returnValue. induction B as [|e B IH]; intros A history cv rv E Hel Hva; simpl.
  { rewrite app_nil_r in E. subst A. eauto 10. }
  assert (e ∈ es) as Hin by (rewrite E; set_solver). pose proof (wfe_ids _ _ _ es_wf e Hin) as Hid. fold n in Hid.
  assert (event_of e ∉ events A) as Hnew.
  { pose proof (wfh_nodup _ (wfe_wf _ _ _ es_wf)) as Hnd. rewrite E in Hnd. unfold events in *. rewrite fmap_app in Hnd.
    apply NoDup_app in Hnd as (_ & Hd & _). intros Hi%Hd. apply Hi. simpl. set_solver. }
  assert (exists x, history !! Z.to_nat (id e) = Some x) as [x Hx].
  { apply lookup_lt_is_Some_2. destruct Hel as [Hl _]. unfold len in Hl. lia. }
  rewrite (proj2 (go_index_val _ _ _) (conj (proj1 Hid) Hx)). simpl.
  assert (forall y, go_update history (id e) y = Val (<[Z.to_nat (id e) := y]> history)) as Hup.
  { intros y. apply go_update_val. split; [|done]. destruct Hel as [-> _]. done. }
  assert (es = (A ++ [e]) ++ B) as E' by (by rewrite <- app_assoc).
  assert (forall e', e' ∈ A -> e' ∈ es) as Hsub by (rewrite E; set_solver).
  assert (forall e', e' ∈ es -> 0 <= id e') as Hpos by (intros e' He'; apply (wfe_ids _ _ _ es_wf e' He')).
  assert (events (A ++ [e]) = events A ++ [event_of e]) as Eev by (unfold events; by rewrite fmap_app).
  destruct (kind e) eqn:Hk; simpl.
  - assert (cv !! id e = Some (VIn (inp (id e)))) as ->.
    { apply Hva. eapply (wfh_call _ (wfe_wf _ _ _ es_wf) _ _ (events B)). rewrite E at 1. unfold events. rewrite fmap_app, fmap_cons.
      unfold event_of at 2. by rewrite Hk. }
    rewrite (wfe_return _ _ _ es_wf e Hin Hk). simpl. rewrite Hup. simpl. apply (IH (A ++ [e])); [done| |].
    + apply (elements_snoc A e history x); [done|lia|done|done|done|done|]. by rewrite Hk.
    + intros i. rewrite Eev. unfold event_of. rewrite Hk. split; intros Hi.
      * apply Hva. set_solver.
      * destruct (decide (i = id e)) as [->|Hne]; [by rewrite lookup_insert_eq|]. rewrite lookup_insert_ne by done.
        apply Hva. set_solver.
  - rewrite Hup. simpl. apply (IH (A ++ [e])); [done| |].
    + apply (elements_snoc A e history x); [done|lia|done|done|done|done|]. by rewrite Hk.
    + intros i. rewrite Eev. unfold event_of. rewrite Hk. rewrite (wfe_call _ _ _ es_wf e Hin Hk). split; intros Hi.
      * destruct (decide (i = id e)) as [->|Hne]; [by rewrite lookup_insert_eq|]. rewrite lookup_insert_ne by done.
        apply Hva. set_solver.
      * apply Hva. set_solver.
Qed.

(** ** The partial linearizations *)

(** Every id from 0 to n-1 is called and returns. *)
Lemma wf_ids_all j : 0 <= j < n -> (false, j) ∈ events es /\ (true, j) ∈ events es.
Proof.
  intros Hj. set (L := (pair false <$> seqZ 0 n) ++ (pair true <$> seqZ 0 n)).
  destruct (N_even inp out es es_wf) as (k & Hk & Hn). fold n in Hn.
  assert (forall b i, (b, i) ∈ L <-> 0 <= i < n) as HL.
  { intros b i. unfold L. rewrite elem_of_app, !list_elem_of_fmap. setoid_rewrite elem_of_seqZ. split; [naive_solver lia|].
    intros Hi. destruct b; [right|left]; exists i; (split; [done|lia]). }
  assert (events es ≡ₚ L) as HP.
  { apply submseteq_length_Permutation.
    - apply NoDup_submseteq; [apply (wfe_wf _ _ _ es_wf)|]. intros [b i] (e & [= _ ->] & He)%list_elem_of_fmap.
      apply HL, (wfe_ids _ _ _ es_wf e He).
    - unfold L, events. rewrite length_app, !length_fmap, length_seqZ. lia. }
  rewrite HP. split; by apply HL.
Qed.

(** The steps of a sequence with the states the model goes through *)
Fixpoint annotate (st : St) (partial : list Z) : list linearizationStep :=
  match partial with
  | [] => []
  | i :: rest => let st' := (Step m st (inp i) (out i)).2 in mkStep i (call_DescribeState m st') :: annotate st' rest
  end.

(** [steps_loop] records itself as the largest for the operations that had smaller ones. *)
Lemma steps_loop_ok cv rv i size partial st lin lsz lidx :
  (forall j, j ∈ partial -> cv !! j = Some (VIn (inp j)) /\ rv !! j = Some (VOut (out j))) ->
  accepts (Step m) inp out st partial ->
  exists lsz' lidx', steps_loop m cv rv i size partial st lin lsz lidx = Val (lin ++ annotate st partial, lsz', lidx') /\
    forall j, (lsz' !! j, lidx' !! j) =
      if decide (j ∈ partial /\ default 0 (lsz !! j) < size) then (Some size, Some i) else (lsz !! j, lidx !! j).
Proof.
  revert st lin lsz lidx. induction partial as [|k partial IH]; intros st lin lsz lidx Hv Hacc; simpl.
  { exists lsz, lidx. rewrite app_nil_r. done. }
  destruct Hacc as [Hok Hacc]. destruct (Hv k) as [-> ->]; [set_solver|]. simpl.
  destruct (Step m st (inp k) (out k)) as [ok st'] eqn:Es. simpl in *. subst ok. simpl.
  assert (forall j, j ∈ partial -> cv !! j = Some (VIn (inp j)) /\ rv !! j = Some (VOut (out j))) as Hv' by (intros; apply Hv; set_solver).
  destruct (Z.ltb_spec (default 0 (lsz !! k)) size) as [Hlt|Hge].
  - destruct (IH st' (lin ++ [mkStep k (call_DescribeState m st')]) (<[k := size]> lsz) (<[k := i]> lidx) Hv' Hacc)
      as (lsz' & lidx' & -> & Hj). exists lsz', lidx'. rewrite <- app_assoc. split; [done|]. intros j. rewrite Hj.
    destruct (decide (j = k)) as [->|Hne].
    + rewrite !lookup_insert_eq. simpl. rewrite decide_False by (intros [_ ?]; lia). rewrite decide_True; [done|]. split; [set_solver|done].
    + rewrite !lookup_insert_ne by done. apply decide_ext. set_solver.
  - destruct (IH st' (lin ++ [mkStep k (call_DescribeState m st')]) lsz lidx Hv' Hacc) as (lsz' & lidx' & -> & Hj).
    exists lsz', lidx'. rewrite <- app_assoc. split; [done|]. intros j. rewrite Hj. apply decide_ext. rewrite elem_of_cons. split; [naive_solver|].
    intros [[->|?] ?]; [lia|done].
Qed.

(** For each operation the first of the longest partial linearizations of [P] it is in *)
Definition largest_in (P : list (list Z)) (j : Z) (o : option Z) : Prop :=
  match o with
  | Some k => exists p, 0 <= k /\ P !! Z.to_nat k = Some p /\ j ∈ p /\
      forall k' q, P !! k' = Some q -> j ∈ q -> len q <= len p /\ (len q = len p -> k <= Z.of_nat k')
  | None => forall q, q ∈ P -> j ∉ q
  end.

Definition sizes_ok (P : list (list Z)) (lsz lidx : gmap Z Z) : Prop :=
  forall j, largest_in P j (lidx !! j) /\ lsz !! j = (k ← lidx !! j; len <$> P !! Z.to_nat k).

Lemma sizes_snoc P p lsz lidx lsz' lidx' :
  sizes_ok P lsz lidx ->
  (forall j, (lsz' !! j, lidx' !! j) =
     if decide (j ∈ p /\ default 0 (lsz !! j) < len p) then (Some (len p), Some (len P)) else (lsz !! j, lidx !! j)) ->
  sizes_ok (P ++ [p]) lsz' lidx'.
Proof.
  intros Hs Hnew j. destruct (Hs j) as [Hl Hz]. specialize (Hnew j).
  assert (forall k q, (P ++ [p]) !! k = Some q -> P !! k = Some q \/ (k = length P /\ q = p)) as Hsplit.
  { intros k q [Hk|[Hk Hq]]%lookup_app_Some; [by left|]. apply list_lookup_singleton_Some in Hq as [? <-]. right. split; [lia|done]. }
  case_decide as Hd; injection Hnew as -> ->.
  - destruct Hd as [Hin Hlt]. simpl.
    assert ((P ++ [p]) !! Z.to_nat (len P) = Some p) as Hat by (unfold len; rewrite Nat2Z.id, lookup_app_r, Nat.sub_diag by lia; done).
    rewrite Hat. split; [|done]. exists p. split_and!; [apply len_nonneg|done|done|]. intros k' q [Hk'|[-> ->]]%Hsplit Hq; [|unfold len; lia].
    assert (len q <= default 0 (lsz !! j)) as Hle; [|lia]. destruct (lidx !! j) as [k|]; simpl in *.
    + destruct Hl as (p0 & Hk & Hp0 & _ & Hmax). rewrite Hp0 in Hz. rewrite Hz. simpl. apply (Hmax k' q Hk' Hq).
    + exfalso. apply (Hl q); [by eapply list_elem_of_lookup_2|done].
  - destruct (lidx !! j) as [k|]; simpl in *.
    + destruct Hl as (p0 & Hk & Hp0 & Hj & Hmax). rewrite (lookup_app_l_Some _ _ _ _ Hp0). rewrite Hp0 in Hz. split; [|done].
      exists p0. split_and!; [done|done|done|]. intros k' q [Hk'|[-> ->]]%Hsplit Hq; [by apply Hmax|].
      rewrite Hz in Hd. simpl in Hd. apply lookup_lt_Some in Hp0. split; [|lia]. destruct (Z.le_gt_cases (len p) (len p0)); [done|].
      exfalso. by apply Hd.
    + split; [|done]. intros q [Hq|Hq%list_elem_of_singleton]%elem_of_app; [by apply Hl|]. subst q. intros Hj. apply Hd.
      split; [done|]. rewrite Hz. simpl. unfold len. destruct p; [by apply elem_of_nil in Hj|simpl; lia].
Qed.

Lemma partials_loop_ok cv rv P Q lins lsz lidx :
  (forall p, p ∈ Q -> accepts (Step m) inp out (Init m) p /\ forall j, j ∈ p -> cv !! j = Some (VIn (inp j)) /\ rv !! j = Some (VOut (out j))) ->
  sizes_ok P lsz lidx ->
  exists lidx', partials_loop m cv rv Q (len P) lins lsz lidx = Val (lins ++ (annotate (Init m) <$> Q), lidx') /\
    forall j, largest_in (P ++ Q) j (lidx' !! j).
Proof.
  revert P lins lsz lidx. induction Q as [|p Q IH]; intros P lins lsz lidx HQ Hs; simpl.
  { exists lidx. rewrite !app_nil_r. split; [done|]. intros j. apply Hs. }
  destruct (HQ p) as [Hacc Hv]; [set_solver|].
  destruct (steps_loop_ok cv rv (len P) (len p) p (Init m) [] lsz lidx Hv Hacc) as (lsz' & lidx' & -> & Hj). simpl.
  replace (len P + 1) with (len (P ++ [p])) by (rewrite len_app; done).
  destruct (IH (P ++ [p]) (lins ++ [annotate (Init m) p]) lsz' lidx') as (lidx2 & -> & Hl).
  - intros q Hq. apply HQ. set_solver.
  - by apply sizes_snoc with lsz lidx.
  - exists lidx2. rewrite <- !app_assoc in *. done.
Qed.

(** What the data of a partition is *)
Record shows (partials : list (list Z)) (d : partitionVisualizationData) : Prop := {
  sh_history : len (History d) = n;
  sh_elements : forall c r, c ∈ es -> r ∈ es -> kind c = false -> kind r = true -> id c = id r ->
    History d !! Z.to_nat (id c) = Some (mkElement (clientId c) (time c) (time r) (describe (id c)));
  sh_partials : PartialLinearizations d = annotate (Init m) <$> partials;
  sh_largest : forall j, largest_in partials j (Largest d !! j) }.

Lemma partition_data_ok partials :
  (forall l, sort_partials l ≡ₚ l) ->
  Forall (partial_run (Init m) (Step m) inp out n) partials ->
  exists d, partition_data m es partials = Val (d, sort_partials partials) /\ shows (sort_partials partials) d.
Proof.
  intros Hsort Hp. unfold partition_data. fold n.
  destruct (history_loop_ok [] es (replicate (Z.to_nat n) zero_element) ∅ ∅) as (history & cv & rv & -> & [Hlen Hel] & Hva); [done| | |].
  - split; [|intros e He%elem_of_nil; done]. unfold len. rewrite length_replicate. unfold n. rewrite Z.quot_div_nonneg by (unfold len; lia).
    pose proof (Z.div_pos (len es) 2). unfold len in *. lia.
  - intros i. split; intros Hi; by apply elem_of_nil in Hi.
  - simpl. destruct (partials_loop_ok cv rv [] (sort_partials partials) [] ∅ ∅) as (lidx & Hpl & Hl).
    + intros p Hin. rewrite Hsort in Hin. rewrite Forall_forall in Hp. destruct (Hp p Hin) as [Hacc Hran]. split; [done|].
      intros j Hj. rewrite Forall_forall in Hran. pose proof (Hran j Hj) as Hr.
      destruct (wf_ids_all j Hr) as [Hc Hre]. split; apply Hva; done.
    + intros j. rewrite !lookup_empty. simpl. split; [|done]. intros q Hq%elem_of_nil. done.
    + change (len (@nil (list Z))) with 0 in Hpl. rewrite Hpl. simpl. eexists. split; [done|]. constructor; simpl; [done| |done|done].
      intros c r Hc Hr Hkc Hkr Hid. destruct (Hel c Hc) as (x & Hx & Hxc). destruct (Hel r Hr) as (y & Hy & Hyr).
      rewrite Hkc in Hxc. rewrite Hkr in Hyr. rewrite <- Hid, Hx in Hy. injection Hy as <-. rewrite Hx. f_equal.
      destruct x. simpl in *. destruct Hxc, Hyr. subst. by rewrite Hid.
Qed.

End Partition.

(** ** What a verbose check reports *)

Lemma unique_partials_all (map_range : list (nat * list Z) -> list (nat * list Z)) (P : list Z -> Prop) longest :
  (forall l, map_range l ≡ₚ l) -> reports P longest -> Forall P (unique_partials map_range longest).
Proof.
  intros Hm Hr. apply Forall_forall. unfold unique_partials. intros s ([t s'] & -> & Hin)%list_elem_of_fmap.
  rewrite Hm, elem_of_remove_dups, list_elem_of_omap in Hin. destruct Hin as (o & Ho & ->).
  unfold reports in Hr. rewrite Forall_forall in Hr. by eapply Hr.
Qed.

(** What holds of all sequences that [checkSingle] reports holds of the partial linearizations of the check. *)
Lemma checkParallel_reports Init' (Step' : St -> Inp -> Out -> bool * St) Equal' history (P : nat -> list Z -> Prop) timeout map_range sched late result info :
  (forall l, map_range l ≡ₚ l) ->
  (forall i es kill ok longest, history !! i = Some es -> checkSingle Init' Step' Equal' es true kill = Val (ok, longest) -> reports (P i) longest) ->
  checkParallel Init' Step' Equal' history true timeout map_range sched late = Val (Some (result, info)) ->
  info_history info = history /\
  forall i es, history !! i = Some es -> exists partials, info_partials info !! i = Some partials /\ Forall (P i) partials.
Proof.
  intros Hm Hck. unfold checkParallel. intros (first & Hf & (killed & Hk & Hr)%bind_val)%bind_val.
  destruct (select_loop _ _ _ _ _ _) as [[[ok timedOut] heard]|]; [|done]. injection Hr as _ <-. split; [done|].
  intros i es Hi. apply mapM_val_inv in Hf, Hk. simpl.
  destruct (Forall2_lookup_l _ _ _ _ _ Hf Hi) as ([ok1 l1] & H1 & E1).
  assert (imap pair history !! i = Some (i, es)) as Hi' by (by rewrite list_lookup_imap, Hi).
  destruct (Forall2_lookup_l _ _ _ _ _ Hk Hi') as ([ok2 l2] & H2 & E2).
  rewrite list_lookup_fmap, list_lookup_imap, H1. simpl. eexists. split; [done|].
  rewrite H2. simpl. apply unique_partials_all; [done|]. case_decide; by eapply Hck.
Qed.

Lemma checkParallel_partials Init' (Step' : St -> Inp -> Out -> bool * St) Equal' history inp out timeout map_range sched late result info :
  (forall l, map_range l ≡ₚ l) ->
  (forall i es, history !! i = Some es -> checkable Step' Equal' inp out i es) ->
  checkParallel Init' Step' Equal' history true timeout map_range sched late = Val (Some (result, info)) ->
  info_history info = history /\
  forall i es, history !! i = Some es -> exists partials, info_partials info !! i = Some partials /\
    Forall (fun s => partial_run Init' Step' (inp i) (out i) (Z.quot (len es) 2) s /\ order_run (events es) s) partials.
Proof.
  intros Hm Hck Hc.
  destruct (checkParallel_reports Init' Step' Equal' history
    (fun i s => forall es, history !! i = Some es -> partial_run Init' Step' (inp i) (out i) (Z.quot (len es) 2) s /\ order_run (events es) s)
    timeout map_range sched late result info Hm) as [Eh Hp]; [|done|].
  - intros i es kill ok longest Hi Hs. destruct (Hck i es Hi) as [Hwf Hlen _].
    pose proof (checkSingle_runs _ _ _ _ _ _ Hwf Hlen _ _ _ _ Hs) as H1. pose proof (checkSingle_order _ _ _ _ _ _ Hwf Hlen _ _ _ _ Hs) as H2.
    unfold runs, reports in *. rewrite Forall_forall in H1, H2 |- *. intros o Ho t s Eo es' Hi'. rewrite Hi in Hi'. injection Hi' as <-.
    split; [by eapply H1|by eapply H2].
  - split; [done|]. intros i es Hi. destruct (Hp i es Hi) as (partials & Hpa & HF). exists partials. split; [done|].
    eapply Forall_impl; [exact HF|]. simpl. auto.
Qed.

Section Operations.
Context `{!Inhabited Inp, !Inhabited Out}.
Variable (sort_byTime : list entry -> list entry) (map_range : list (nat * list Z) -> list (nat * list Z)).

(** How an operation is shown *)
Definition element_of (m : Model) (op : Operation Inp Out) : historyElement :=
  mkElement (op_ClientId op) (op_Call op) (op_Return op) (default ddo (DescribeOperation m) (op_Input op) (op_Output op)).

Lemma shows_operations m h partials d :
  sorts_byTime sort_byTime -> timed h -> shows m (inp_of h) (out_of h) (makeEntries sort_byTime h) partials d ->
  History d = element_of m <$> h.
Proof.
  intros Hs Ht [Hlen Hel _ _].
  assert (length (History d) = length h) as HL.
  { unfold makeEntries, len in Hlen. rewrite (Permutation_length (sb_perm _ Hs _)), makeEntries_loop_length in Hlen.
    rewrite Z.quot_div_nonneg in Hlen by lia. replace (Z.of_nat (2 * length h)) with (Z.of_nat (length h) * 2) in Hlen by lia.
    rewrite Z.div_mul in Hlen by lia. lia. }
  apply list_eq. intros k. rewrite list_lookup_fmap. destruct (h !! k) as [op|] eqn:Hk; simpl.
  - pose proof (describes_of h k op Hk) as [Ei Eo].
    assert (forall e, e = call_entry (Z.of_nat k) op \/ e = return_entry (Z.of_nat k) op -> e ∈ makeEntries sort_byTime h) as Hin.
    { intros e He. apply makeEntries_elem; eauto. }
    specialize (Hel (call_entry (Z.of_nat k) op) (return_entry (Z.of_nat k) op)). simpl in Hel. rewrite Nat2Z.id in Hel.
    rewrite Hel by auto. unfold describe, element_of. by rewrite Ei, Eo.
  - apply lookup_ge_None_2. apply lookup_ge_None_1 in Hk. lia.
Qed.

(** What a verbose check reports, and the data computed from it *)
Lemma data_of_check m h timeout sched late result info :
  sorts_byTime sort_byTime -> (forall l, map_range l ≡ₚ l) -> (forall l, sort_partials l ≡ₚ l) ->
  Forall timed (partitions_of m h) -> (forall inp out, equal_sound (Step m) inp out (equal_of m)) ->
  CheckOperationsVerbose ddo dds sort_byTime map_range m h timeout sched late = Val (Some (result, info)) ->
  exists data info', computeVisualizationData m info = Val (data, info') /\ length data = length (partitions_of m h) /\
    forall i sub, partitions_of m h !! i = Some sub ->
      exists d partials, data !! i = Some d /\ info_partials info !! i = Some partials /\
        info_partials info' !! i = Some (sort_partials partials) /\
        Forall (fun s => partial_run (Init m) (Step m) (inp_of sub) (out_of sub) (Z.quot (len (makeEntries sort_byTime sub)) 2) s /\
          order_run (events (makeEntries sort_byTime sub)) s) partials /\
        History d = element_of m <$> sub /\
        PartialLinearizations d = annotate m (inp_of sub) (out_of sub) (Init m) <$> sort_partials partials /\
        forall j, largest_in (sort_partials partials) j (Largest d !! j).
Proof.
  intros Hs Hm Hsp Ht He Hc. unfold CheckOperationsVerbose in Hc. rewrite checkOperations_parallel in Hc.
  set (hist := (fun sub => makeEntries sort_byTime sub) <$> partitions_of m h) in *.
  pose proof (parts_checkable sort_byTime m h Hs Ht He) as Hck.
  destruct (checkParallel_partials _ _ _ hist _ _ _ _ _ _ _ _ Hm Hck Hc) as [Eh Hp].
  set (D := fun (i : nat) (es : list entry) (r : partitionVisualizationData * list (list Z)) => exists partials,
    info_partials info !! i = Some partials /\ r.2 = sort_partials partials /\
    shows m (inp_of (default [] (partitions_of m h !! i))) (out_of (default [] (partitions_of m h !! i))) es (sort_partials partials) r.1).
  assert (forall i es, hist !! i = Some es -> exists r,
    (partials ← go_index (info_partials info) (Z.of_nat i); partition_data (fillDefault ddo dds m) es partials) = Val r /\ D i es r) as Hall.
  { intros i es Hi. destruct (Hp i es Hi) as (partials & Hpi & Hr). rewrite (proj2 (go_index_of_nat _ _ _) Hpi). simpl.
    destruct (partition_data_ok (fillDefault ddo dds m) _ _ es (ck_wf _ _ _ _ _ _ (Hck i es Hi)) partials Hsp
      ltac:(eapply Forall_impl; [exact Hr|]; intros s [Hs1 _]; exact Hs1)) as (d & E & Hsh).
    exists (d, sort_partials partials). split; [exact E|]. exists partials. split_and!; [done|done|]. destruct Hsh. by constructor. }
  unfold computeVisualizationData. rewrite Eh.
  match goal with |- context [mapM ?f ?l] => destruct (mapM_val f l) as (rs & -> & HF) end.
  { intros [i es] (j & Hj)%list_elem_of_lookup. rewrite list_lookup_imap in Hj. destruct (hist !! j) as [x|] eqn:Ej; [|done].
    simpl in Hj. injection Hj as <- <-. destruct (Hall j x Ej) as (r & Hr & _). by exists r. }
  simpl. eexists _, _. split; [done|]. simpl. split.
  { rewrite length_fmap. rewrite <- (Forall2_length _ _ _ HF). rewrite length_imap. unfold hist. by rewrite length_fmap. }
  intros i sub Hi. assert (hist !! i = Some (makeEntries sort_byTime sub)) as Hhi by (unfold hist; by rewrite list_lookup_fmap, Hi).
  assert (imap pair hist !! i = Some (i, makeEntries sort_byTime sub)) as Hi' by (by rewrite list_lookup_imap, Hhi).
  destruct (Forall2_lookup_l _ _ _ _ _ HF Hi') as (r & Hri & Er). destruct (Hall _ _ Hhi) as (r' & Er' & partials & Hpa & Es & Hsh).
  rewrite Er in Er'. injection Er' as <-. rewrite Hi in Hsh. simpl in Hsh. eapply Forall_lookup_1 in Ht; [|exact Hi].
  exists r.1, partials. rewrite !list_lookup_fmap, Hri. simpl. rewrite <- Es.
  destruct (Hp i _ Hhi) as (partials' & Hpa' & Hruns). rewrite Hpa in Hpa'. injection Hpa' as <-. rewrite Hi in Hruns.
  pose proof (shows_operations m sub _ _ Hs Ht Hsh). destruct Hsh. rewrite Es. do 3 (split; [done|]). split; [exact Hruns|]. done.
Qed.

(** C23: The data of the page is that of the check.  From whatever a verbose check of timed operations reports,
    finished or cut short, it is computed without a panic: each partial linearization replays on the
    model.  Per partition it lists each operation with its client, times and description; the partial
    linearizations with the states the model goes through; and for each operation the first of the
    longest it is in, or none if it is in none. *)
Theorem visualization_faithful m h timeout sched late result info :
  sorts_byTime sort_byTime -> (forall l, map_range l ≡ₚ l) -> (forall l, sort_partials l ≡ₚ l) ->
  Forall timed (partitions_of m h) -> (forall inp out, equal_sound (Step m) inp out (equal_of m)) ->
  CheckOperationsVerbose ddo dds sort_byTime map_range m h timeout sched late = Val (Some (result, info)) ->
  exists data info', computeVisualizationData m info = Val (data, info') /\ length data = length (partitions_of m h) /\
    forall i sub, partitions_of m h !! i = Some sub ->
      exists d partials, data !! i = Some d /\ info_partials info !! i = Some partials /\
        info_partials info' !! i = Some (sort_partials partials) /\
        History d = element_of m <$> sub /\
        PartialLinearizations d = annotate m (inp_of sub) (out_of sub) (Init m) <$> sort_partials partials /\
        forall j, largest_in (sort_partials partials) j (Largest d !! j).
Proof.
  intros Hs Hm Hsp Ht He Hc. destruct (data_of_check m h timeout sched late result info Hs Hm Hsp Ht He Hc) as (data & info' & Hd & Hl & Hall).
  exists data, info'. split_and!; [done|done|]. intros i sub Hi. destruct (Hall i sub Hi) as (d & partials & H1 & H2 & H3 & _ & H4). by exists d, partials.
Qed.

End Operations.

End Vis.
End PorcVis.
