(* ===== verification/JsNum.v ===== *)
(** * Numbers of the page (the script in porcupine/visualization.go)

    The script of the page computes with JavaScript numbers.  They are exact rationals here: sums, maxima
    and halves of the times and widths it handles; [None] is NaN, which also is what [undefined] becomes
    in arithmetic.  Comparisons with NaN are false. *)

From stdpp Require Import base list gmap numbers countable sorting.
From Stdlib Require Import QArith Qcanon Lqa.
From S2P Require Import Prelude.

Open Scope Qc_scope.

(** ** Linear arithmetic on canonical rationals *)

Lemma Qc_eq_this (a b : Qc) : a = b <-> (this a == this b)%Q.
Proof. split; [by intros ->|]. apply Qc_is_canon. Qed.

(** Every [Qred] that a sum or product leaves is equal to its argument. *)
Ltac qc_reds :=
  repeat match goal with
  | |- context [Qred ?t] => let H := fresh in pose proof (Qred_correct t) as H; let r := fresh "r" in set (r := Qred t) in *; clearbody r
  | H0 : context [Qred ?t] |- _ => let H := fresh in pose proof (Qred_correct t) as H; let r := fresh "r" in set (r := Qred t) in *; clearbody r
  end.

(** Only comparisons of numbers are kept. *)
Ltac qc_clear :=
  repeat match goal with x := _ |- _ => clearbody x end;
  repeat match goal with
  | H : ?P |- _ =>
      lazymatch P with
      | Qcle _ _ => fail | Qclt _ _ => fail | @eq Qc _ _ => fail | ~ (Qcle _ _) => fail | ~ (Qclt _ _) => fail
      | _ => clear H
      end
  end.

(** [lra] on [Qc] *)
Ltac qc_lra :=
  qc_clear;
  repeat match goal with
  | H : @eq Qc _ _ |- _ => apply Qc_eq_this in H
  | H : ~ (Qcle _ _) |- _ => apply Qcnot_le_lt in H
  | H : ~ (Qclt _ _) |- _ => apply Qcnot_lt_le in H
  end;
  lazymatch goal with |- @eq Qc _ _ => apply Qc_eq_this | _ => idtac end;
  unfold Qcle, Qclt, Qcminus, Qcplus, Qcopp, Qcmult, Q2Qc, Qc_of_Z in *; cbn [this] in *; qc_reds;
  unfold inject_Z in *; lra.

(** ** Maximum and half *)

Definition Qcmax (a b : Qc) : Qc := if decide (a <= b) then b else a.
Definition Qcmin (a b : Qc) : Qc := if decide (a <= b) then a else b.
Definition half (a : Qc) : Qc := a * Qcmake (1 # 2) eq_refl.

Lemma Qcmax_spec a b : a <= Qcmax a b /\ b <= Qcmax a b /\ (Qcmax a b = a \/ Qcmax a b = b).
Proof. unfold Qcmax. case_decide; split_and!; auto; qc_lra. Qed.

Lemma Qcmin_spec a b : Qcmin a b <= a /\ Qcmin a b <= b /\ (Qcmin a b = a \/ Qcmin a b = b).
Proof. unfold Qcmin. case_decide; split_and!; auto; qc_lra. Qed.

Lemma Qcmax_lub a b c : a <= c -> b <= c -> Qcmax a b <= c.
Proof. unfold Qcmax. by case_decide. Qed.

Lemma Qcmax_mono a b a' b' : a <= a' -> b <= b' -> Qcmax a b <= Qcmax a' b'.
Proof. intros Ha Hb. destruct (Qcmax_spec a' b') as (? & ? & _). apply Qcmax_lub; qc_lra. Qed.

Lemma Qcmax_plus c a b : c + Qcmax a b = Qcmax (c + a) (c + b).
Proof. unfold Qcmax. repeat case_decide; try done; qc_lra. Qed.

Lemma half_between a b : a < b -> a < half (a + b) /\ half (a + b) < b.
Proof. intros Hab. unfold half. split; qc_lra. Qed.

(** ** Numbers that may be NaN *)

Notation num := (option Qc).

Definition nadd (x y : num) : num := a ← x; b ← y; Some (a + b).
Definition nsub (x y : num) : num := a ← x; b ← y; Some (a - b).
Definition nmax (x y : num) : num := a ← x; b ← y; Some (Qcmax a b).
Definition nhalf (x : num) : num := half <$> x.
Definition nlt (x y : num) : bool := match x, y with Some a, Some b => bool_decide (a < b) | _, _ => false end.

(** An integer literal *)
Definition lit (z : Z) : Qc := Qc_of_Z z.
Definition nlit (z : Z) : num := Some (lit z).

Lemma lit_mono a b : (a <= b)%Z <-> lit a <= lit b.
Proof. apply Z2Qc_inj_le. Qed.

Lemma lit_lt a b : (a < b)%Z <-> lit a < lit b.
Proof. apply Z2Qc_inj_lt. Qed.

#[export] Instance lit_inj : Inj (=) (=) lit.
Proof. intros a b Hab. by apply Z2Qc_inj. Qed.

(** ** Sorting numbers *)

Definition sort_numbers (X : gset Qc) : list Qc := merge_sort Qcle (elements X).

Lemma sort_numbers_elem X t : t ∈ sort_numbers X <-> t ∈ X.
Proof. unfold sort_numbers. by rewrite merge_sort_Permutation, elem_of_elements. Qed.

Lemma sort_numbers_sorted X : StronglySorted Qclt (sort_numbers X).
Proof.
  assert (NoDup (sort_numbers X)) as Hn by (unfold sort_numbers; rewrite merge_sort_Permutation; apply NoDup_elements).
  assert (StronglySorted Qcle (sort_numbers X)) as Hs by (unfold sort_numbers; apply StronglySorted_merge_sort; apply _).
  induction Hs as [|a l Hs IH Ha]; [constructor|]. apply NoDup_cons in Hn as [Hal Hn]. constructor; [auto|].
  rewrite Forall_forall in Ha |- *. intros b Hb. destruct (Qcle_lt_or_eq _ _ (Ha b Hb)) as [|E]; [done|]. subst b. done.
Qed.

Lemma sorted_lookup_lt {A} (R : A -> A -> Prop) (l : list A) i j a b :
  StronglySorted R l -> (i < j)%nat -> l !! i = Some a -> l !! j = Some b -> R a b.
Proof.
  intros Hs. revert i j. induction Hs as [|x l Hs IH Hx]; intros i j Hij Ha Hb; [done|].
  destruct j as [|j]; [lia|]. simpl in Hb. destruct i as [|i]; simpl in Ha.
  - injection Ha as ->. rewrite Forall_forall in Hx. apply Hx. by eapply list_elem_of_lookup_2.
  - eapply (IH i j); [lia|done|done].
Qed.
