(* ===== verification/VisLayout.v ===== *)
(** * The layout of the page (the script in porcupine/visualization.go)

    The page of [Visualize] holds a script that lays the history out: a scan from left to right warps time so
    that boxes hold their texts and linearization points, and timestamps stay apart.  This file models the
    preparation of the data and the scan of [render], and shows that the scan finds the least layout that meets
    the constraints its comment lists. *)

From stdpp Require Import base list gmap strings numbers countable sorting.
From Stdlib Require Import ZArith Lia QArith Qcanon Lqa.
From S2P Require Import Prelude JsNum PorcModel PorcVis.
Import PorcVis.

Open Scope Z_scope.

Module VisLayout.

(** ** Data *)

Definition EPSILON : Qc := lit 20.
Definition BOX_GAP : Qc := lit 20.
Definition BOX_TEXT_PADDING : Qc := lit 10.

(** An element of the history with the fields the script adds; [None] is undefined. *)
Record element := mkEl {
  el_ClientId : Z;
  el_Start : Qc;
  el_End : Qc;
  el_Description : string;
  el_Gid : nat;
  el_OriginalEnd : option Qc }.

Record partition := mkPart {
  Hist : list element;
  Partials : list (list linearizationStep);
  Larg : gmap Z Z }.

(** Reading a property of what an array holds at [i]: a TypeError if it holds nothing there *)
Definition js_get {A} (l : list A) (i : Z) : res A :=
  if 0 <=? i then of_option (EPanic "TypeError") (l !! Z.to_nat i) else Err (EPanic "TypeError").

(** [a[i].push(x)], for an [i] below the length of [a]: the ids of elements and linearizations are *)
Definition push_at {A} (i : nat) (x : A) (t : list (list A)) : list (list A) := alter (fun l => l ++ [x]) i t.

(** [newArray] *)
Definition newArray {A} (n : nat) (fn : nat -> A) : list A := fn <$> seq 0 n.

Lemma newArray_const {A} n (c : A) : newArray n (fun _ => c) = replicate n c.
Proof. unfold newArray. generalize 0%nat. induction n as [|n IH]; intros k; simpl; [done|]. by rewrite IH. Qed.

Definition els (data : list partition) : list element := mjoin (Hist <$> data).

Definition max_client (data : list partition) : Z := foldl Z.max (-1) (el_ClientId <$> els data).
Definition nClient (data : list partition) : Z := max_client data + 1.

(** A partition as the script gets it, with global ids from [gid] on *)
Definition add_gids_to (gid : nat) (d : partitionVisualizationData) : partition :=
  mkPart (imap (fun i el => mkEl (ClientId el) (lit (Start el)) (lit (End_ el)) (Description el) (gid + i) None) (History d))
    (PartialLinearizations d) (Largest d).

Fixpoint add_gids (gid : nat) (data : list partitionVisualizationData) : list partition :=
  match data with
  | [] => []
  | d :: rest => add_gids_to gid d :: add_gids (gid + length (History d)) rest
  end.

Definition startTimestamps (data : list partition) : gset Qc := list_to_set (el_Start <$> els data).
Definition allTimestamps (data : list partition) : gset Qc := startTimestamps data ∪ list_to_set (el_End <$> els data).

(** ** Events that share a time *)

Fixpoint nextTs (sorted : list Qc) : gmap Qc Qc :=
  match sorted with
  | a :: (b :: _) as l => <[a := b]> (nextTs l)
  | _ => ∅
  end.

Definition tweak (starts : gset Qc) (next : gmap Qc Qc) (el : element) : element :=
  let end_ := el_End el in
  let e' := if decide (end_ ∈ starts) then match next !! end_ with Some n => half (end_ + n)%Qc | None => end_ end else end_ in
  mkEl (el_ClientId el) (el_Start el) e' (el_Description el) (el_Gid el) (Some end_).

Definition map_els (f : element -> element) (data : list partition) : list partition :=
  (fun p => mkPart (f <$> Hist p) (Partials p) (Larg p)) <$> data.

Definition tweak_data (data : list partition) : list partition :=
  map_els (tweak (startTimestamps data) (nextTs (sort_numbers (allTimestamps data)))) data.

(** The timestamps after the new ends have been added *)
Definition tweakedTimestamps (data : list partition) : list Qc :=
  sort_numbers (allTimestamps data ∪ list_to_set (el_End <$> els (tweak_data data))).

(** ** Events by end, and the tables of linearization points *)

(** Positions by timestamp; the key [None] is "undefined", which stands for the first of no timestamps. *)
Notation xmap := (gmap (option Qc) Qc).

Section Layout.
(** The width the browser gives a text *)
Variable bbox_width : string -> Qc.

Record event := mkEv { ev_start : Qc; ev_end : Qc; ev_width : Qc; ev_gid : nat }.

Definition event_of (el : element) : event :=
  mkEv (el_Start el) (el_End el) (bbox_width (el_Description el) + lit 2 * BOX_TEXT_PADDING)%Qc (el_Gid el).

Definition ends_before (a b : event) : Prop := (ev_end a <= ev_end b)%Qc.

#[local] Instance ends_before_dec : RelDecision ends_before.
Proof. intros a b. unfold ends_before. apply _. Defined.

Definition byEnd (data : list partition) : list event := merge_sort ends_before (event_of <$> els data).

Record tables := mkTables {
  eventToLinearizations : list (list (nat * Z));
  eventIllegalLast : list (list nat);
  allLinearizations : list (list nat) }.

Definition lgid (T : tables) : nat := length (allLinearizations T).

(** The loop over one partial linearization, from [position] on *)
Fixpoint globalize (p : partition) (lgid : nat) (position : Z) (lin : list linearizationStep)
    (e2l : list (list (nat * Z))) : res (list nat * list (list (nat * Z))) :=
  match lin with
  | [] => mret ([], e2l)
  | id :: rest =>
      el ← js_get (Hist p) (Index id);
      '(globalized, e2l') ← globalize p lgid (position + 1) rest (push_at (el_Gid el) (lgid, position) e2l);
      mret (el_Gid el :: globalized, e2l')
  end.

Definition included (lin : list linearizationStep) : gset Z := list_to_set (Index <$> lin).

(** The least end among the elements that are not included; [None] is Infinity. *)
Definition minEnd (inc : gset Z) (h : list element) : option Qc :=
  foldl (fun m '(index, el) =>
    if decide (Z.of_nat index ∈ inc) then m else Some (match m with Some q => Qcmin q (el_End el) | None => el_End el end))
    None (imap pair h).

Definition below (t : Qc) (m : option Qc) : bool := match m with Some q => bool_decide (t < q)%Qc | None => true end.

(** The elements that may come next *)
Definition possible_next (inc : gset Z) (h : list element) : list (nat * element) :=
  filter (fun '(index, el) => Z.of_nat index ∉ inc /\ below (el_Start el) (minEnd inc h) = true) (imap pair h).

Definition add_lin (p : partition) (T : tables) (lin : list linearizationStep) : res tables :=
  '(globalized, e2l) ← globalize p (lgid T) 0 lin (eventToLinearizations T);
  mret (mkTables e2l
    (foldl (fun t '(_, el) => push_at (el_Gid el) (lgid T) t) (eventIllegalLast T) (possible_next (included lin) (Hist p)))
    (allLinearizations T ++ [globalized])).

Fixpoint add_lins (p : partition) (T : tables) (lins : list (list linearizationStep)) : res tables :=
  match lins with
  | [] => mret T
  | lin :: rest => T' ← add_lin p T lin; add_lins p T' rest
  end.

Fixpoint add_partitions (T : tables) (data : list partition) : res tables :=
  match data with
  | [] => mret T
  | p :: rest => T' ← add_lins p T (Partials p); add_partitions T' rest
  end.

Definition lin_tables (data : list partition) : res tables :=
  let gid := length (els data) in
  add_partitions (mkTables (newArray gid (fun _ => [])) (newArray gid (fun _ => [])) []) data.

(** ** The scan *)

Section Scan.
Variable byGid : list element.
Variable T : tables.

(** The inner loop: [m] more points of linearization [index] *)
Fixpoint push_points (m : nat) (xPos : xmap) (index : nat) (linPos : list (list num)) : res (list (list num)) :=
  match m with
  | O => mret linPos
  | S m' =>
      here ← js_get linPos (Z.of_nat index);
      lin ← js_get (allLinearizations T) (Z.of_nat index);
      nextGid ← js_get lin (len here);
      el ← js_get byGid (Z.of_nat nextGid);
      let start := xPos !! Some (el_Start el) in
      let nextPos := match last here with None => start | Some prev => nmax start (nadd prev (Some EPSILON)) end in
      push_points m' xPos index (push_at index nextPos linPos)
  end.

(** One turn over the points of an event *)
Definition place_point (xPos : xmap) (s : num * list (list num)) (li : nat * Z) : res (num * list (list num)) :=
  let '(pos, linPos) := s in
  let '(index, position) := li in
  here ← js_get linPos (Z.of_nat index);
  linPos' ← push_points (Z.to_nat (position + 1 - len here)) xPos index linPos;
  here' ← js_get linPos' (Z.of_nat index);
  mret (nmax pos (if 0 <=? position then mjoin (here' !! Z.to_nat position) else None), linPos').

Fixpoint place_points (xPos : xmap) (s : num * list (list num)) (lis : list (nat * Z)) : res (num * list (list num)) :=
  match lis with
  | [] => mret s
  | li :: rest => s' ← place_point xPos s li; place_points xPos s' rest
  end.

(** Room for the points that may not come next *)
Fixpoint place_illegal (linPos : list (list num)) (pos : num) (lis : list nat) : res num :=
  match lis with
  | [] => mret pos
  | li :: rest =>
      lin ← js_get linPos (Z.of_nat li);
      place_illegal linPos (nmax pos (nadd (mjoin (last lin)) (Some EPSILON))) rest
  end.

(** The body of the loop over the events that end *)
Definition place_event (xPos : xmap) (pos : num) (linPos : list (list num)) (ev : event) : res (num * list (list num)) :=
  let textEndPos := nadd (xPos !! Some (ev_start ev)) (Some (ev_width ev)) in
  e2l ← js_get (eventToLinearizations T) (Z.of_nat (ev_gid ev));
  ill ← js_get (eventIllegalLast T) (Z.of_nat (ev_gid ev));
  lasts ← mapM (fun index => lin ← js_get (allLinearizations T) (Z.of_nat index); mret (index, len lin - 1)) ill;
  '(pos', linPos') ← place_points xPos (nmax pos textEndPos, linPos) (e2l ++ lasts);
  pos'' ← place_illegal linPos' pos' ill;
  mret (pos'', linPos').

(** The loop over the events from [eventIndex] on: [events] are those that are left. *)
Fixpoint place_events (ts : Qc) (xPos : xmap) (pos : num) (linPos : list (list num)) (events : list event)
    : res (num * list (list num) * list event) :=
  match events with
  | ev :: rest =>
      if decide (ev_end ev <= ts)%Qc then
        '(pos', linPos') ← place_event xPos pos linPos ev; place_events ts xPos pos' linPos' rest
      else mret (pos, linPos, events)
  | [] => mret (pos, linPos, [])
  end.

(** Storing NaN leaves what reads as NaN. *)
Fixpoint scan (prev : Qc) (sorted : list Qc) (xPos : xmap) (linPos : list (list num)) (events : list event)
    : res (xmap * list (list num)) :=
  match sorted with
  | [] => mret (xPos, linPos)
  | ts :: rest =>
      '(pos, linPos', events') ← place_events ts xPos (nadd (xPos !! Some prev) (Some BOX_GAP)) linPos events;
      scan ts rest (partial_alter (fun _ => pos) (Some ts) xPos) linPos' events'
  end.

End Scan.

(** [render], up to the drawing: the data with the new ends, the timestamps, and where things go *)
Record layout := mkLayout {
  l_data : list partition;
  l_sorted : list Qc;
  l_tables : tables;
  xPos : xmap;
  linearizationPositions : list (list num) }.

Definition compute_layout (input : list partitionVisualizationData) : res layout :=
  let data0 := add_gids 0 input in
  let data := tweak_data data0 in
  let sorted := tweakedTimestamps data0 in
  T ← lin_tables data;
  '(x, lp) ← scan (els data) T (default 0%Qc (head sorted)) (tail sorted) {[ head sorted := 0%Qc ]} (newArray (lgid T) (fun _ => [])) (byEnd data);
  mret (mkLayout data sorted T x lp).

End Layout.
End VisLayout.
