(* ===== verification/VisScan.v ===== *)
(** * The scan of the layout (the script in porcupine/visualization.go)

    What [scan] computes: the position of a timestamp is the largest of the demands of the events that end
    there, and the linearization points are put as far to the left as they go.  From this it meets all
    constraints, with every position the least possible. *)

From stdpp Require Import base list gmap strings numbers countable sorting.
From Stdlib Require Import ZArith Lia QArith Qcanon Lqa.
From S2P Require Import Prelude JsNum PorcModel PorcVis VisLayout.
Import PorcVis VisLayout.

Open Scope Z_scope.

Module VisScan.

(** ** Generic facts *)

Lemma js_get_nat {A} (l : list A) (i : nat) x : js_get l (Z.of_nat i) = Val x <-> l !! i = Some x.
Proof.
  unfold js_get. destruct (Z.leb_spec 0 (Z.of_nat i)); [|lia]. rewrite Nat2Z.id. apply of_option_val.
Qed.

Lemma js_get_val {A} (l : list A) i x : js_get l i = Val x <-> 0 <= i /\ l !! Z.to_nat i = Some x.
Proof.
  unfold js_get. destruct (Z.leb_spec 0 i); [|split; [done|lia]]. rewrite of_option_val. naive_solver.
Qed.

Definition maximum (a : Qc) (l : list Qc) : Qc := foldl Qcmax a l.

Lemma maximum_ge a l : (a <= maximum a l)%Qc /\ forall d, d ∈ l -> (d <= maximum a l)%Qc.
Proof.
  unfold maximum. revert a. induction l as [|b l IH]; intros a; simpl.
  { split; [apply Qcle_refl|]. intros d Hd%elem_of_nil. done. }
  destruct (IH (Qcmax a b)) as [H1 H2]. destruct (Qcmax_spec a b) as (Ha & Hb & _). split; [by etransitivity|].
  intros d [->|Hd]%elem_of_cons; [by etransitivity|auto].
Qed.

Lemma maximum_lub a l c : (a <= c)%Qc -> (forall d, d ∈ l -> (d <= c)%Qc) -> (maximum a l <= c)%Qc.
Proof.
  unfold maximum. revert a. induction l as [|b l IH]; intros a Ha Hl; simpl; [done|].
  apply IH; [|set_solver]. apply Qcmax_lub; [done|]. apply Hl. set_solver.
Qed.

Lemma maximum_app a l k : maximum a (l ++ k) = maximum (maximum a l) k.
Proof. unfold maximum. by rewrite foldl_app. Qed.

(** ** Points as far to the left as they go *)

Fixpoint points_from (X : Qc -> Qc) (prev : option Qc) (starts : list Qc) : list Qc :=
  match starts with
  | [] => []
  | s :: rest => let p := match prev with None => X s | Some q => Qcmax (X s) (q + EPSILON)%Qc end in p :: points_from X (Some p) rest
  end.

Definition points (X : Qc -> Qc) (starts : list Qc) : list Qc := points_from X None starts.

Lemma points_length X prev starts : length (points_from X prev starts) = length starts.
Proof. revert prev. induction starts as [|s l IH]; intros prev; simpl; [done|]. by rewrite IH. Qed.

Lemma points_len X starts : length (points X starts) = length starts.
Proof. apply points_length. Qed.

Lemma points_ext X X' prev starts :
  (forall s, s ∈ starts -> X s = X' s) -> points_from X prev starts = points_from X' prev starts.
Proof.
  revert prev. induction starts as [|s l IH]; intros prev HX; simpl; [done|].
  rewrite (HX s) by set_solver. f_equal. apply IH. set_solver.
Qed.

Lemma points_app X prev l k :
  points_from X prev (l ++ k) = points_from X prev l ++ points_from X (match last (points_from X prev l) with Some q => Some q | None => prev end) k.
Proof.
  revert prev. induction l as [|s l IH]; intros prev; simpl; [done|]. f_equal. rewrite IH. f_equal. f_equal.
  destruct (points_from X _ l) as [|q ps] eqn:E; [done|]. cbn [last].
  destruct (last (q :: ps)) eqn:El; [done|]. apply last_None in El. done.
Qed.

Lemma points_take X m starts : points X (take m starts) = take m (points X starts).
Proof.
  unfold points. generalize (@None Qc) as prev. revert m.
  induction starts as [|s l IH]; intros [|m] prev; simpl; [done..|]. by rewrite IH.
Qed.

(** Any other placing that respects the starts and the distance is to the right of the points. *)
Lemma points_least X X' prev prev' starts P :
  (forall s, s ∈ starts -> (X s <= X' s)%Qc) -> length P = length starts ->
  (forall k s p, starts !! k = Some s -> P !! k = Some p -> (X' s <= p)%Qc) ->
  (forall k p q, P !! k = Some p -> P !! S k = Some q -> (p + EPSILON <= q)%Qc) ->
  match prev, prev' with None, _ => True | Some a, Some b => (a <= b)%Qc /\ (forall p, head P = Some p -> (b + EPSILON <= p)%Qc) | _, _ => False end ->
  forall k p q, points_from X prev starts !! k = Some p -> P !! k = Some q -> (p <= q)%Qc.
Proof.
  revert prev prev' P. induction starts as [|s l IH]; intros prev prev' P HX Hlen Hs He Hprev k p q Hp Hq; simpl in Hp; [done|].
  destruct P as [|p0 P]; [done|]. pose proof (HX s ltac:(set_solver)) as Hxs. pose proof (Hs 0%nat s p0 eq_refl eq_refl) as Hs0.
  set (here := match prev with None => X s | Some q => Qcmax (X s) (q + EPSILON)%Qc end) in Hp.
  assert (here <= p0)%Qc as Hh.
  { unfold here. destruct prev as [a|]; [|by etransitivity]. destruct prev' as [b|]; [|done]. destruct Hprev as [Hab Hb].
    specialize (Hb p0 eq_refl). apply Qcmax_lub; qc_lra. }
  destruct k as [|k]; simpl in Hp, Hq; [by simplify_eq|].
  eapply (IH (Some here) (Some p0) P); [set_solver|by injection Hlen| | | |exact Hp|exact Hq].
  - intros k' s' p' H1 H2. by apply (Hs (S k')).
  - intros k' p' q' H1 H2. by apply (He (S k')).
  - split; [done|]. intros p1 Hp1. apply (He 0%nat); [done|]. by destruct P.
Qed.

Lemma points_mono X X' prev prev' starts :
  (forall s, s ∈ starts -> (X s <= X' s)%Qc) ->
  match prev, prev' with None, None => True | Some a, Some b => (a <= b)%Qc | _, _ => False end ->
  Forall2 Qcle (points_from X prev starts) (points_from X' prev' starts).
Proof.
  revert prev prev'. induction starts as [|s l IH]; intros prev prev' HX Hp; simpl; [constructor|].
  assert (X s <= X' s)%Qc as Hs by (apply HX; set_solver).
  assert ((match prev with None => X s | Some q => Qcmax (X s) (q + EPSILON)%Qc end) <=
          (match prev' with None => X' s | Some q => Qcmax (X' s) (q + EPSILON)%Qc end))%Qc as Hh.
  { destruct prev, prev'; try done. apply Qcmax_mono; [done|qc_lra]. }
  constructor; [done|]. apply IH; [set_solver|done].
Qed.

(** The points respect the starts and the distance. *)
Lemma points_ge X prev starts :
  (forall k s p, starts !! k = Some s -> points_from X prev starts !! k = Some p -> (X s <= p)%Qc) /\
  (forall k p q, points_from X prev starts !! k = Some p -> points_from X prev starts !! S k = Some q -> (p + EPSILON <= q)%Qc).
Proof.
  revert prev. induction starts as [|s l IH]; intros prev; simpl; [split; intros k **; done|].
  destruct (IH (Some (match prev with None => X s | Some q => Qcmax (X s) (q + EPSILON)%Qc end))) as [H1 H2]. split.
  - intros [|k] s' p; simpl; [|by apply H1]. intros [= <-] [= <-].
    destruct prev; [apply Qcmax_spec|apply Qcle_refl].
  - intros [|k] p q; simpl; [|by apply H2]. intros [= <-]. destruct l as [|s1 l]; simpl; [done|]. intros [= <-]. apply Qcmax_spec.
Qed.

(** ** One event *)

Section Scan.
Variable byGid : list element.
Variable T : tables.

Definition start_of (g : nat) : Qc := default 0%Qc (el_Start <$> byGid !! g).
Definition starts_of (l : nat) : list Qc := start_of <$> default [] (allLinearizations T !! l).

(** Where the position map puts a timestamp *)
Definition at_ (x : xmap) (t : Qc) : Qc := default 0%Qc (x !! Some t).

Definition placed (x : xmap) (t : Qc) : Prop := is_Some (x !! Some t).

Lemma at_placed x t : placed x t -> x !! Some t = Some (at_ x t).
Proof. intros [p Hp]. unfold at_. by rewrite Hp. Qed.

(** The points so far are the first of the points of each linearization. *)
Definition points_ok (x : xmap) (lp : list (list num)) : Prop :=
  length lp = lgid T /\ forall l here, lp !! l = Some here ->
    exists m, (m <= length (starts_of l))%nat /\ here = Some <$> points (at_ x) (take m (starts_of l)) /\
      Forall (placed x) (take m (starts_of l)).

Definition known (g : nat) : Prop := is_Some (byGid !! g).

Lemma starts_lookup l lin : allLinearizations T !! l = Some lin -> starts_of l = start_of <$> lin.
Proof. intros Hl. unfold starts_of. by rewrite Hl. Qed.

Lemma push_at_insert {A} i (x : A) t l : t !! i = Some l -> push_at i x t = <[i := l ++ [x]]> t.
Proof. intros Hi. unfold push_at. rewrite list_insert_alter. apply list_alter_ext; [|done]. intros y Hy. congruence. Qed.

Lemma Forall_take_le {A} (P : A -> Prop) m k (l : list A) : (m <= k)%nat -> Forall P (take k l) -> Forall P (take m l).
Proof. intros Hm Hk. replace m with (m `min` k)%nat by lia. rewrite <- take_take. by apply Forall_take. Qed.

Lemma points_ok_insert x lp l m :
  points_ok x lp -> (m <= length (starts_of l))%nat -> Forall (placed x) (take m (starts_of l)) ->
  points_ok x (<[l := Some <$> points (at_ x) (take m (starts_of l))]> lp).
Proof.
  intros [Hlen Hok] Hm Hp. split; [by rewrite length_insert|].
  intros l' here [(<- & <- & _)|[_ Hh]]%list_lookup_insert_Some; [by exists m|by apply Hok].
Qed.

Lemma push_points_ok m x l lin lp here :
  points_ok x lp -> allLinearizations T !! l = Some lin -> Forall known lin -> lp !! l = Some here ->
  (length here + m <= length lin)%nat -> Forall (placed x) (take (length here + m) (starts_of l)) ->
  push_points byGid T m x l lp = Val (<[l := Some <$> points (at_ x) (take (length here + m) (starts_of l))]> lp).
Proof.
  revert lp here. induction m as [|m IH]; intros lp here Hok Hl Hkn Hh Hm Hpl; simpl.
  { destruct Hok as [_ Hok]. destruct (Hok l here Hh) as (k & Hk & -> & _).
    rewrite length_fmap, points_len, length_take, Nat.add_0_r, Nat.min_l, list_insert_id by done. done. }
  rewrite (proj2 (js_get_nat _ _ _) Hh). simpl. rewrite (proj2 (js_get_nat _ _ _) Hl). simpl.
  destruct (lookup_lt_is_Some_2 lin (length here)) as [g Hg]; [lia|].
  unfold len. rewrite (proj2 (js_get_nat _ _ _) Hg). simpl.
  rewrite Forall_forall in Hkn. destruct (Hkn g (list_elem_of_lookup_2 _ _ _ Hg)) as [el Hel].
  rewrite (proj2 (js_get_nat _ _ _) Hel). simpl.
  destruct Hok as [Hlen Hok]. destruct (Hok l here Hh) as (k & Hk & Eh & Hpk).
  assert (length here = k) as Ek by (rewrite Eh, length_fmap, points_len, length_take; lia). rewrite Ek in *.
  assert (starts_of l !! k = Some (el_Start el)) as Hs.
  { rewrite (starts_lookup _ _ Hl), list_lookup_fmap, Hg. simpl. unfold start_of. by rewrite Hel. }
  assert (placed x (el_Start el)) as Hp.
  { rewrite Forall_forall in Hpl. apply Hpl. apply list_elem_of_lookup. exists k. rewrite lookup_take_lt by lia. done. }
  set (nextPos := match last here with None => _ | Some prev => _ end).
  assert (here ++ [nextPos] = Some <$> points (at_ x) (take (S k) (starts_of l))) as E.
  { rewrite (take_S_r _ _ _ Hs). unfold points. rewrite points_app, fmap_app. fold (points (at_ x) (take k (starts_of l))).
    rewrite <- Eh. f_equal. simpl. f_equal. unfold nextPos. rewrite Eh, fmap_last, (at_placed _ _ Hp).
    unfold points. by destruct (last (points_from _ _ _)). }
  rewrite (push_at_insert _ _ _ _ Hh), E.
  assert (points_ok x (<[l := Some <$> points (at_ x) (take (S k) (starts_of l))]> lp)) as Hok'.
  { apply points_ok_insert; [by split| |].
    - rewrite (starts_lookup _ _ Hl), length_fmap. lia.
    - eapply Forall_take_le; [|exact Hpl]. lia. }
  set (now := (Some <$> points (at_ x) (take (S k) (starts_of l)) : list num)) in *.
  assert (length now = S k) as El.
  { unfold now. rewrite length_fmap, points_len, length_take, (starts_lookup _ _ Hl), length_fmap. lia. }
  rewrite (IH _ now); [|done|done|by apply Forall_forall|..].
  - rewrite El, list_insert_insert_eq. replace (S k + m)%nat with (k + S m)%nat by lia. done.
  - apply list_lookup_insert_eq. by eapply lookup_lt_Some.
  - rewrite El. lia.
  - rewrite El. replace (S k + m)%nat with (k + S m)%nat by lia. done.
Qed.

(** The [k]-th point of linearization [l] *)
Definition pt (X : Qc -> Qc) (l : nat) (k : Z) : Qc := default 0%Qc (points X (starts_of l) !! Z.to_nat k).

(** It can be placed. *)
Definition point_ready (x : xmap) (li : nat * Z) : Prop :=
  let '(l, k) := li in
  exists lin, allLinearizations T !! l = Some lin /\ Forall known lin /\ 0 <= k < len lin /\
    Forall (placed x) (take (S (Z.to_nat k)) (starts_of l)).

(** It has been placed. *)
Definition has_point (lp : list (list num)) (li : nat * Z) : Prop :=
  exists here, lp !! li.1 = Some here /\ li.2 < len here.

Definition grows (lp lp' : list (list num)) : Prop := forall li, has_point lp li -> has_point lp' li.

Lemma points_ok_at x lp l here (k : nat) :
  points_ok x lp -> lp !! l = Some here -> (k < length here)%nat -> here !! k = Some (Some (pt (at_ x) l (Z.of_nat k))).
Proof.
  intros [_ Hok] Hh Hk. destruct (Hok l here Hh) as (m & Hm & -> & _). rewrite length_fmap, points_len, length_take in Hk.
  rewrite list_lookup_fmap, points_take, lookup_take_lt by lia. unfold pt. rewrite Nat2Z.id.
  destruct (lookup_lt_is_Some_2 (points (at_ x) (starts_of l)) k) as [p Hp]; [rewrite points_len; lia|]. by rewrite Hp.
Qed.

Lemma place_point_ok x pos lp li :
  points_ok x lp -> point_ready x li ->
  exists lp', place_point byGid T x (Some pos, lp) li = Val (Some (Qcmax pos (pt (at_ x) li.1 li.2)), lp') /\
    points_ok x lp' /\ grows lp lp' /\ has_point lp' li.
Proof.
  destruct li as [l k]. intros Hok (lin & Hl & Hkn & Hk & Hpl). unfold place_point. simpl.
  destruct (lookup_lt_is_Some_2 lp l) as [here Hh]; [destruct Hok as [-> _]; by eapply lookup_lt_Some|].
  rewrite (proj2 (js_get_nat _ _ _) Hh). simpl. unfold len in Hk |- *.
  pose proof (proj2 Hok l here Hh) as (m & Hm & Eh & Hpm).
  assert (length here = m) as Em by (rewrite Eh, length_fmap, points_len, length_take; lia).
  set (d := Z.to_nat (k + 1 - Z.of_nat (length here))).
  assert (m <= length lin)%nat as Hml by (rewrite (starts_lookup _ _ Hl), length_fmap in Hm; done).
  assert (length here + d <= length lin)%nat as Hd by (unfold d; lia).
  assert (Forall (placed x) (take (length here + d) (starts_of l))) as Hpd.
  { destruct (Nat.le_gt_cases (S (Z.to_nat k)) m).
    - replace (length here + d)%nat with m by (unfold d; lia). done.
    - replace (length here + d)%nat with (S (Z.to_nat k)) by (unfold d; lia). done. }
  pose (now := (Some <$> points (at_ x) (take (length here + d) (starts_of l)) : list num)).
  assert (push_points byGid T d x l lp = Val (<[l := now]> lp)) as -> by (by apply (push_points_ok d x l lin)). simpl.
  assert (<[l := now]> lp !! l = Some now) as Hnow by (by apply list_lookup_insert_eq, (lookup_lt_Some _ _ _ Hh)).
  assert (length now = length here + d)%nat as Ln.
  { unfold now. rewrite length_fmap, points_len, length_take, (starts_lookup _ _ Hl), length_fmap. lia. }
  assert (points_ok x (<[l := now]> lp)) as Hok'.
  { apply points_ok_insert; [done| |done]. rewrite (starts_lookup _ _ Hl), length_fmap. lia. }
  rewrite (proj2 (js_get_nat _ _ _) Hnow). simpl. destruct (Z.leb_spec 0 k); [|lia].
  rewrite (points_ok_at _ _ _ _ (Z.to_nat k) Hok' Hnow) by (unfold d in Ln; lia). simpl. rewrite Z2Nat.id by lia.
  eexists. split; [done|]. split_and!; [done| |].
  - intros [l' k'] (h & Hh' & Hlt). simpl in *. destruct (decide (l' = l)) as [->|Hne].
    + exists now. split; [done|]. simpl. rewrite Hh in Hh'. injection Hh' as <-. unfold len in *. lia.
    + exists h. by rewrite list_lookup_insert_ne.
  - exists now. split; [done|]. simpl. unfold len, d in *. lia.
Qed.

Lemma place_points_ok x pos lp lis :
  points_ok x lp -> Forall (point_ready x) lis ->
  exists lp', place_points byGid T x (Some pos, lp) lis = Val (Some (maximum pos ((fun li => pt (at_ x) li.1 li.2) <$> lis)), lp') /\
    points_ok x lp' /\ grows lp lp' /\ Forall (has_point lp') lis.
Proof.
  revert pos lp. induction lis as [|li lis IH]; intros pos lp Hok Hr; cbn [place_points].
  { exists lp. split_and!; [done|done|by intros ?|constructor]. }
  apply Forall_cons in Hr as [Hli Hr]. destruct (place_point_ok x pos lp li Hok Hli) as (lp1 & -> & Hok1 & Hg1 & Hh1). cbn [mbind res_bind].
  destruct (IH (Qcmax pos (pt (at_ x) li.1 li.2)) lp1 Hok1 Hr) as (lp2 & -> & Hok2 & Hg2 & Hh2). exists lp2.
  split_and!; [done|done| |]; [intros li'; auto|]. constructor; auto.
Qed.

Definition last_pt (X : Qc -> Qc) (l : nat) : Qc := pt X l (len (starts_of l) - 1).

Lemma place_illegal_ok x pos lp ill :
  points_ok x lp -> Forall (fun l => starts_of l <> [] /\ has_point lp (l, len (starts_of l) - 1)) ill ->
  place_illegal lp (Some pos) ill = Val (Some (maximum pos ((fun l => last_pt (at_ x) l + EPSILON)%Qc <$> ill))).
Proof.
  intros Hok. revert pos. induction ill as [|l ill IH]; intros pos Hr; simpl; [done|].
  apply Forall_cons in Hr as [[Hne (here & Hh & Hlt)] Hr]. simpl in *. rewrite (proj2 (js_get_nat _ _ _) Hh). simpl.
  pose proof (proj2 Hok l here Hh) as (m & Hm & Eh & _).
  assert (length here = length (starts_of l)) as El.
  { assert (length here = m) by (rewrite Eh, length_fmap, points_len, length_take; lia). unfold len in Hlt. lia. }
  assert (0 < length here)%nat by (rewrite El; destruct (starts_of l); [done|simpl; lia]).
  rewrite last_lookup, (points_ok_at _ _ _ _ (pred (length here)) Hok Hh) by lia. simpl. rewrite IH by done.
  unfold last_pt, len. replace (Z.of_nat (pred (length here))) with (Z.of_nat (length (starts_of l)) - 1) by lia. done.
Qed.

Definition e2l_of (g : nat) : list (nat * Z) := default [] (eventToLinearizations T !! g).
Definition ill_of (g : nat) : list nat := default [] (eventIllegalLast T !! g).

(** The points an event waits for *)
Definition waits (ev : event) : list (nat * Z) :=
  e2l_of (ev_gid ev) ++ ((fun l => (l, len (starts_of l) - 1)) <$> ill_of (ev_gid ev)).

(** What an event asks of the position of its end *)
Definition demands (X : Qc -> Qc) (ev : event) : list Qc :=
  (X (ev_start ev) + ev_width ev)%Qc ::
  ((fun li => pt X li.1 li.2) <$> waits ev) ++ ((fun l => last_pt X l + EPSILON)%Qc <$> ill_of (ev_gid ev)).

Record event_ready (x : xmap) (ev : event) : Prop := {
  er_start : placed x (ev_start ev);
  er_e2l : is_Some (eventToLinearizations T !! ev_gid ev);
  er_ill : is_Some (eventIllegalLast T !! ev_gid ev);
  er_points : Forall (point_ready x) (waits ev) }.

Lemma place_event_ok x pos lp ev :
  points_ok x lp -> event_ready x ev ->
  exists lp', place_event byGid T x (Some pos) lp ev = Val (Some (maximum pos (demands (at_ x) ev)), lp') /\
    points_ok x lp' /\ grows lp lp' /\ Forall (has_point lp') (waits ev).
Proof.
  intros Hok [Hs [e2l He2l] [ill Hill] Hp]. unfold place_event, waits, e2l_of, ill_of in *. rewrite (at_placed _ _ Hs).
  rewrite (proj2 (js_get_nat _ _ _) He2l), (proj2 (js_get_nat _ _ _) Hill). rewrite He2l, Hill in Hp |- *. cbn [mbind res_bind default from_option id nadd option_bind] in *.
  assert (mapM (fun index => lin ← js_get (allLinearizations T) (Z.of_nat index); mret (index, len lin - 1)) ill
          = Val ((fun l => (l, len (starts_of l) - 1)) <$> ill)) as ->.
  { apply Forall_app in Hp as [_ Hp]. clear -Hp. induction ill as [|l ill IH]; [done|]. apply Forall_cons in Hp as [(lin & Hl & _) Hp].
    simpl in *. rewrite (proj2 (js_get_nat _ _ _) Hl). simpl. rewrite (IH Hp). simpl. unfold len. by rewrite (starts_lookup _ _ Hl), length_fmap. }
  simpl. destruct (place_points_ok x (Qcmax pos (at_ x (ev_start ev) + ev_width ev)%Qc) lp _ Hok Hp) as (lp' & -> & Hok' & Hg & Hh).
  simpl. rewrite (place_illegal_ok x _ lp' ill Hok').
  - simpl. eexists. split_and!; [|done|done|done]. unfold demands, waits, e2l_of, ill_of. rewrite He2l, Hill. simpl.
    by rewrite <- maximum_app.
  - apply Forall_app in Hp as [_ Hp]. apply Forall_app in Hh as [_ Hh]. apply Forall_forall. intros l Hl.
    rewrite Forall_fmap, Forall_forall in Hp, Hh. split; [|by apply (Hh l)]. destruct (Hp l Hl) as (lin & _ & _ & [Hk _] & _).
    intros E. rewrite E in Hk. done.
Qed.

(** ** The events that end at a timestamp *)

Variable times : list Qc.

(** An event of a history: what it waits for starts before it ends. *)
Record event_wf (ev : event) : Prop := {
  ew_start : ev_start ev ∈ times;
  ew_end : ev_end ev ∈ times;
  ew_order : (ev_start ev < ev_end ev)%Qc;
  ew_e2l : is_Some (eventToLinearizations T !! ev_gid ev);
  ew_ill : is_Some (eventIllegalLast T !! ev_gid ev);
  ew_points : Forall (fun li => exists lin, allLinearizations T !! li.1 = Some lin /\ Forall known lin /\ 0 <= li.2 < len lin /\
    Forall (fun s => s ∈ times /\ (s < ev_end ev)%Qc) (take (S (Z.to_nat li.2)) (starts_of li.1))) (waits ev) }.

Lemma event_wf_ready x ev :
  event_wf ev -> (forall t, t ∈ times -> (t < ev_end ev)%Qc -> placed x t) -> event_ready x ev.
Proof.
  intros [Hs _ Ho H1 H2 Hp] Hx. constructor; [auto|done|done|]. eapply Forall_impl; [exact Hp|].
  intros [l k] (lin & Hl & Hk & Hlt & Hst). exists lin. split; [done|]. split; [done|]. split; [done|]. eapply Forall_impl; [exact Hst|]. naive_solver.
Qed.

Lemma pt_rel X X' l k : Forall2 Qcle (take (S (Z.to_nat k)) (points X (starts_of l))) (take (S (Z.to_nat k)) (points X' (starts_of l))) -> (pt X l k <= pt X' l k)%Qc.
Proof.
  intros HF. unfold pt. rewrite <- (lookup_take_lt (points X _) (S (Z.to_nat k))), <- (lookup_take_lt (points X' _) (S (Z.to_nat k))) by lia.
  destruct (take _ (points X _) !! _) as [p|] eqn:Hp.
  - destruct (Forall2_lookup_l _ _ _ _ _ HF Hp) as (q & -> & Hpq). done.
  - apply lookup_ge_None in Hp. rewrite (Forall2_length _ _ _ HF) in Hp. rewrite (lookup_ge_None_2 _ _ Hp). apply Qcle_refl.
Qed.

Lemma pt_mono X X' li e :
  (exists lin, allLinearizations T !! li.1 = Some lin /\ Forall known lin /\ 0 <= li.2 < len lin /\
    Forall (fun s => s ∈ times /\ (s < e)%Qc) (take (S (Z.to_nat li.2)) (starts_of li.1))) ->
  (forall s, s ∈ times -> (s < e)%Qc -> (X s <= X' s)%Qc) -> (pt X li.1 li.2 <= pt X' li.1 li.2)%Qc.
Proof.
  intros (lin & _ & _ & _ & Hst) HX. apply pt_rel. rewrite <- !points_take. apply points_mono; [|done].
  intros s Hs. rewrite Forall_forall in Hst. destruct (Hst s Hs). auto.
Qed.

(** The demands grow with the positions of what lies before the end. *)
Lemma demands_mono X X' ev :
  event_wf ev -> (forall s, s ∈ times -> (s < ev_end ev)%Qc -> (X s <= X' s)%Qc) ->
  Forall2 Qcle (demands X ev) (demands X' ev).
Proof.
  intros Hev HX. pose proof (ew_points _ Hev) as Hp. rewrite Forall_forall in Hp. unfold demands. constructor.
  { pose proof (HX _ (ew_start _ Hev) (ew_order _ Hev)). qc_lra. }
  apply Forall2_app.
  - apply Forall2_fmap, Forall_Forall2_diag, Forall_forall. intros li Hli. by eapply pt_mono, HX; apply Hp.
  - apply Forall2_fmap, Forall_Forall2_diag, Forall_forall. intros l Hl.
    assert (last_pt X l <= last_pt X' l)%Qc; [|qc_lra].
    apply (pt_mono X X' (l, len (starts_of l) - 1) (ev_end ev)); [|done]. apply Hp. unfold waits. apply elem_of_app. right.
    apply list_elem_of_fmap. by exists l.
Qed.

Lemma demands_ext X X' ev :
  event_wf ev -> (forall s, s ∈ times -> (s < ev_end ev)%Qc -> X s = X' s) -> demands X ev = demands X' ev.
Proof.
  intros Hev HX. assert (Forall2 Qcle (demands X ev) (demands X' ev)) as H1.
  { apply demands_mono; [done|]. intros s Hs Hlt. rewrite HX by done. apply Qcle_refl. }
  assert (Forall2 Qcle (demands X' ev) (demands X ev)) as H2.
  { apply demands_mono; [done|]. intros s Hs Hlt. rewrite HX by done. apply Qcle_refl. }
  apply list_eq_Forall2. apply Forall2_same_length_lookup_2; [by eapply Forall2_length|].
  intros i a b Ha Hb. pose proof (Forall2_lookup_lr _ _ _ _ _ _ H1 Ha Hb). pose proof (Forall2_lookup_lr _ _ _ _ _ _ H2 Hb Ha).
  by apply Qcle_antisym.
Qed.

(** The loop over the events that end by [t] *)
Lemma place_events_ok t x pos lp events :
  points_ok x lp -> Forall event_wf events -> StronglySorted ends_before events ->
  (forall s, s ∈ times -> (s < t)%Qc -> placed x s) ->
  exists E1 E2 lp', events = E1 ++ E2 /\ Forall (fun ev => (ev_end ev <= t)%Qc) E1 /\ Forall (fun ev => (t < ev_end ev)%Qc) E2 /\
    place_events byGid T t x (Some pos) lp events = Val (Some (maximum pos (mjoin (demands (at_ x) <$> E1))), lp', E2) /\
    points_ok x lp' /\ grows lp lp' /\ Forall (fun ev => Forall (has_point lp') (waits ev)) E1.
Proof.
  intros Hok Hwf Hso Hx. revert pos lp Hok. induction events as [|ev events IH]; intros pos lp Hok; simpl.
  { exists [], [], lp. split_and!; [done|apply Forall_nil_2|apply Forall_nil_2|done|done|by intros ?|apply Forall_nil_2]. }
  apply Forall_cons in Hwf as [Hev Hwf]. apply StronglySorted_inv in Hso as [Hso Hle]. case_decide as Hd.
  - assert (event_ready x ev) as Hr. { apply event_wf_ready; [done|]. intros s Hs Hlt. apply Hx; [done|]. qc_lra. }
    destruct (place_event_ok x pos lp ev Hok Hr) as (lp1 & -> & Hok1 & Hg1 & Hh1). cbn [mbind res_bind].
    destruct (IH Hwf Hso (maximum pos (demands (at_ x) ev)) lp1 Hok1) as (E1 & E2 & lp2 & -> & HE1 & HE2 & -> & Hok2 & Hg2 & Hh2).
    exists (ev :: E1), E2, lp2. split_and!; [done|by constructor|done| |done| |].
    + rewrite fmap_cons. cbn [mjoin list_join]. rewrite maximum_app. done.
    + intros li. auto.
    + constructor; [|done]. eapply Forall_impl; [exact Hh1|]. auto.
  - exists [], (ev :: events), lp. split_and!; [done|apply Forall_nil_2| |done|done|by intros ?|apply Forall_nil_2].
    constructor; [qc_lra|]. eapply Forall_impl; [exact Hle|]. unfold ends_before. simpl. intros ev' Hev'. qc_lra.
Qed.

(** ** The constraints *)

Variable events0 : list event.

Record feasible (X : Qc -> Qc) : Prop := {
  fe_zero : forall t, head times = Some t -> (0 <= X t)%Qc;
  fe_gap : forall i a b, times !! i = Some a -> times !! S i = Some b -> (X a + BOX_GAP <= X b)%Qc;
  fe_demand : forall ev d, ev ∈ events0 -> d ∈ demands X ev -> (d <= X (ev_end ev))%Qc }.

(** After the timestamps [P] and the events [E1] *)
Record settled (P : list Qc) (E1 : list event) (x : xmap) (lp : list (list num)) : Prop := {
  se_placed : forall t, placed x t <-> t ∈ P;
  se_points : points_ok x lp;
  se_gap : forall i a b, P !! i = Some a -> P !! S i = Some b -> (at_ x a + BOX_GAP <= at_ x b)%Qc;
  se_zero : forall t, head P = Some t -> at_ x t = 0%Qc;
  se_demand : forall ev d, ev ∈ E1 -> d ∈ demands (at_ x) ev -> (d <= at_ x (ev_end ev))%Qc;
  se_end : forall ev, ev ∈ E1 -> ev_end ev ∈ P;
  se_has : Forall (fun ev => Forall (has_point lp) (waits ev)) E1;
  se_least : forall X t, feasible X -> t ∈ P -> (at_ x t <= X t)%Qc }.

Lemma at_insert_eq x t p : at_ (<[Some t := p]> x) t = p.
Proof. unfold at_. by rewrite lookup_insert_eq. Qed.

Lemma at_insert_ne x t p s : s <> t -> at_ (<[Some t := p]> x) s = at_ x s.
Proof. intros Hne. unfold at_. rewrite lookup_insert_ne; [done|]. congruence. Qed.

Lemma placed_insert x t p s : placed (<[Some t := p]> x) s <-> s = t \/ placed x s.
Proof.
  unfold placed. destruct (decide (s = t)) as [->|Hne].
  - rewrite lookup_insert_eq. naive_solver.
  - rewrite lookup_insert_ne by congruence. naive_solver.
Qed.

Lemma points_ok_extend x lp t p : points_ok x lp -> ~ placed x t -> points_ok (<[Some t := p]> x) lp.
Proof.
  intros [Hlen Hok] Ht. split; [done|]. intros l here Hh. destruct (Hok l here Hh) as (m & Hm & -> & Hp). exists m.
  rewrite Forall_forall in Hp. split_and!; [done| |].
  - f_equal. apply points_ext. intros s Hs. rewrite at_insert_ne; [done|]. intros ->. by apply Ht, Hp.
  - apply Forall_forall. intros s Hs. apply placed_insert. right. by apply Hp.
Qed.

Hypothesis times_sorted : StronglySorted Qclt times.
Hypothesis events_wf : Forall event_wf events0.
Hypothesis events_sorted : StronglySorted ends_before events0.

Lemma times_split P t rest s : times = P ++ t :: rest -> s ∈ times -> (s < t)%Qc <-> s ∈ P.
Proof.
  intros E Hs. pose proof times_sorted as Hso. rewrite E in Hso, Hs. split.
  - intros Hlt. apply elem_of_app in Hs as [|[->|Hr]%elem_of_cons]; [done|by apply Qclt_not_eq in Hlt|].
    apply StronglySorted_app in Hso as (_ & _ & Hso). apply StronglySorted_inv in Hso as [_ Hall]. rewrite Forall_forall in Hall.
    specialize (Hall s Hr). exfalso. eapply Qclt_not_le; [exact Hlt|]. by apply Qclt_le_weak.
  - intros Hp. apply StronglySorted_app in Hso as (Hall & _ & _). apply Hall; [done|set_solver].
Qed.

(** Events that end by the next timestamp, and not before, end there. *)
Lemma ends_here P prev t rest ev :
  times = P ++ t :: rest -> last P = Some prev -> event_wf ev -> (prev < ev_end ev)%Qc -> (ev_end ev <= t)%Qc -> ev_end ev = t.
Proof.
  intros E Hlast Hev Hlo Hhi. destruct (Qcle_lt_or_eq _ _ Hhi) as [Hlt|]; [|done]. exfalso.
  pose proof (ew_end _ Hev) as Hte. assert (ev_end ev ∈ P) as Hin by (by apply (times_split _ _ _ _ E)).
  destruct (proj1 (last_Some _ _) Hlast) as [P0 EP]. rewrite EP in Hin, E. rewrite <- app_assoc in E. simpl in E.
  apply elem_of_app in Hin as [Hin|Hin%list_elem_of_singleton].
  - apply (times_split _ _ _ _ E Hte) in Hin. eapply Qclt_not_le; [exact Hlo|]. by apply Qclt_le_weak.
  - rewrite Hin in Hlo. by apply Qclt_not_eq in Hlo.
Qed.

(** The position of the next timestamp is the least possible. *)
Lemma next_least P prev t rest E2 x X :
  times = P ++ t :: rest -> last P = Some prev -> (forall ev, ev ∈ E2 -> ev ∈ events0) -> (forall ev, ev ∈ E2 -> ev_end ev = t) ->
  feasible X -> (forall s, s ∈ P -> (at_ x s <= X s)%Qc) ->
  (maximum (at_ x prev + BOX_GAP)%Qc (mjoin (demands (at_ x) <$> E2)) <= X t)%Qc.
Proof.
  intros E Hlast Hsub Hend HX Hle. pose proof events_wf as Hwf. rewrite Forall_forall in Hwf. apply maximum_lub.
  - etransitivity; [|eapply (fe_gap _ HX (pred (length P)) prev t)].
    + pose proof (Hle prev ltac:(by apply last_Some_elem_of)). qc_lra.
    + rewrite E, lookup_app_l, <- last_lookup; [done|]. destruct P; [done|simpl; lia].
    + rewrite E, lookup_app_r by (destruct P; simpl; lia).
      replace (S (pred (length P)) - length P)%nat with 0%nat by (destruct P; [done|simpl; lia]). done.
  - intros d (ds & Hd & (ev & -> & Hev)%list_elem_of_fmap)%list_elem_of_join.
    assert (Forall2 Qcle (demands (at_ x) ev) (demands X ev)) as HF.
    { apply demands_mono; [by apply Hwf, Hsub|]. intros s Hs Hlt. apply Hle. apply (times_split _ _ _ _ E Hs). by rewrite <- (Hend ev Hev). }
    destruct (proj1 (list_elem_of_lookup _ _) Hd) as [k Hk]. destruct (Forall2_lookup_l _ _ _ _ _ HF Hk) as (d' & Hd' & Hdd).
    etransitivity; [exact Hdd|]. rewrite <- (Hend ev Hev). eapply fe_demand; [done|by apply Hsub|by eapply list_elem_of_lookup_2].
Qed.

(** The next timestamp: the events that end there are those not placed yet that end by then. *)
Lemma settle_step P prev t rest E1 E2 events x lp lp' :
  times = P ++ t :: rest -> last P = Some prev -> settled P E1 x lp ->
  events0 = E1 ++ E2 ++ events -> Forall (fun ev => (prev < ev_end ev)%Qc) E2 -> Forall (fun ev => (ev_end ev <= t)%Qc) E2 ->
  points_ok x lp' -> grows lp lp' -> Forall (fun ev => Forall (has_point lp') (waits ev)) E2 ->
  settled (P ++ [t]) (E1 ++ E2) (<[Some t := maximum (at_ x prev + BOX_GAP)%Qc (mjoin (demands (at_ x) <$> E2))]> x) lp'.
Proof.
  intros E Hlast [Hpl _ Hgap Hzero Hdem Hend Hhas Hleast] Eev Hlo Hhi Hok Hg Hnew.
  set (pos := maximum _ _). rewrite Forall_forall in Hlo, Hhi. pose proof events_wf as Hwf. rewrite Forall_forall in Hwf.
  assert (t ∈ times) as Hti by (rewrite E; set_solver).
  assert (t ∉ P) as HtP by (intros Hin; apply (times_split _ _ _ _ E Hti) in Hin; by apply Qclt_not_eq in Hin).
  assert (forall s, s ∈ P -> s ∈ times) as HPt by (rewrite E; set_solver).
  assert (forall s, s ∈ P -> at_ (<[Some t := pos]> x) s = at_ x s) as Hold by (intros s Hs; apply at_insert_ne; congruence).
  assert (prev ∈ P) as Hprev by (by apply last_Some_elem_of).
  assert (forall ev, ev ∈ E2 -> ev_end ev = t) as Hend2
    by (intros ev Hev; eapply ends_here; eauto; apply Hwf; rewrite Eev; set_solver).
  assert (forall ev, ev ∈ E1 ++ E2 -> demands (at_ (<[Some t := pos]> x)) ev = demands (at_ x) ev) as Hdeq.
  { intros ev Hev. apply demands_ext; [apply Hwf; rewrite Eev; set_solver|]. intros s Hs Hlt. apply Hold.
    apply (times_split _ _ _ _ E); [done|]. apply elem_of_app in Hev as [Hev|Hev]; [|by rewrite <- (Hend2 ev Hev)].
    apply Qclt_trans with (ev_end ev); [done|]. apply (times_split _ _ _ _ E); [apply Hwf; rewrite Eev; set_solver|]. by apply Hend. }
  constructor.
  - intros s. rewrite placed_insert, Hpl. set_solver.
  - apply points_ok_extend; [done|]. by rewrite Hpl.
  - intros i a b Ha Hb. apply lookup_app_Some in Hb as [Hb|[Hlen Hb]].
    + pose proof (lookup_lt_Some _ _ _ Hb) as Hlt. rewrite lookup_app_l in Ha by lia.
      rewrite !Hold by (by eapply list_elem_of_lookup_2). by eapply Hgap.
    + apply list_lookup_singleton_Some in Hb as [Hi <-]. rewrite lookup_app_l in Ha by lia.
      rewrite last_lookup in Hlast. replace (pred (length P)) with i in Hlast by lia. rewrite Ha in Hlast. injection Hlast as ->.
      rewrite at_insert_eq, Hold by done. apply (proj1 (maximum_ge _ _)).
  - intros s. destruct P as [|a P']; [done|]. simpl. intros [= <-]. rewrite Hold by set_solver. by apply Hzero.
  - intros ev d Hev. rewrite (Hdeq ev Hev). intros Hd. apply elem_of_app in Hev as [Hev|Hev].
    + rewrite Hold by (by apply Hend). by apply Hdem.
    + rewrite (Hend2 ev Hev), at_insert_eq. apply maximum_ge. apply list_elem_of_join. exists (demands (at_ x) ev). split; [done|].
      apply list_elem_of_fmap. by exists ev.
  - intros ev [Hev|Hev]%elem_of_app; [by apply elem_of_app; left; apply Hend|]. rewrite (Hend2 ev Hev). set_solver.
  - apply Forall_app. split; [|done]. eapply Forall_impl; [exact Hhas|]. intros ev Hp. eapply Forall_impl; [exact Hp|]. auto.
  - intros X s HX [Hs|Hs%list_elem_of_singleton]%elem_of_app; [rewrite Hold by done; by apply Hleast|]. subst s. rewrite at_insert_eq.
    eapply next_least; eauto. rewrite Eev. set_solver.
Qed.

Lemma scan_settles rest P prev E1 events x lp :
  times = P ++ rest -> last P = Some prev -> settled P E1 x lp ->
  events0 = E1 ++ events -> Forall (fun ev => (prev < ev_end ev)%Qc) events ->
  exists x' lp', scan byGid T prev rest x lp events = Val (x', lp') /\ settled times events0 x' lp'.
Proof.
  revert P prev E1 events x lp. induction rest as [|t rest IH]; intros P prev E1 events x lp E Hlast Hse Eev Hlo; simpl.
  - exists x, lp. split; [done|]. rewrite app_nil_r in E. destruct events as [|ev events]; [by rewrite Eev, app_nil_r, E|exfalso].
    pose proof events_wf as Hwf. rewrite Forall_forall in Hwf, Hlo. specialize (Hlo ev ltac:(set_solver)).
    assert (ev_end ev ∈ P) as Hin by (rewrite <- E; apply Hwf; rewrite Eev; set_solver).
    destruct (proj1 (last_Some _ _) Hlast) as [P0 EP]. rewrite EP in Hin, E.
    apply elem_of_app in Hin as [Hin|Hin%list_elem_of_singleton]; [|rewrite Hin in Hlo; by apply Qclt_not_eq in Hlo].
    apply (times_split _ _ _ _ E) in Hin; [|rewrite E; set_solver]. eapply Qclt_not_le; [exact Hlo|]. by apply Qclt_le_weak.
  - assert (placed x prev) as Hpp by (apply Hse; by apply last_Some_elem_of). rewrite (at_placed _ _ Hpp). cbn [nadd mbind option_bind].
    pose proof events_wf as Hwf. rewrite Eev in Hwf. apply Forall_app in Hwf as [_ Hwf].
    pose proof events_sorted as Hso. rewrite Eev in Hso. apply StronglySorted_app in Hso as (_ & _ & Hso).
    destruct (place_events_ok t x (at_ x prev + BOX_GAP)%Qc lp events (se_points _ _ _ _ Hse) Hwf Hso)
      as (E2 & E3 & lp' & -> & Hhi & Hlo' & -> & Hok & Hg & Hh).
    { intros s Hs Hlt. apply Hse. by apply (times_split _ _ _ _ E). }
    apply Forall_app in Hlo as [Hlo _]. cbn [mbind res_bind].
    apply (IH (P ++ [t]) t (E1 ++ E2)); [by rewrite <- app_assoc|by rewrite last_snoc| |by rewrite <- app_assoc|done].
    by eapply settle_step.
Qed.

(** The scan ends without a TypeError or a NaN, in the least layout. *)
Lemma scan_least t0 rest :
  times = t0 :: rest ->
  exists x lp, scan byGid T t0 rest {[ Some t0 := 0%Qc ]} (replicate (lgid T) []) events0 = Val (x, lp) /\
    (forall t, placed x t <-> t ∈ times) /\ points_ok x lp /\ Forall (fun ev => Forall (has_point lp) (waits ev)) events0 /\
    feasible (at_ x) /\ forall X t, feasible X -> t ∈ times -> (at_ x t <= X t)%Qc.
Proof.
  intros E. pose proof events_wf as Hwf. rewrite Forall_forall in Hwf.
  assert (at_ {[ Some t0 := 0%Qc ]} t0 = 0%Qc) as H0 by (unfold at_; by rewrite lookup_singleton_eq).
  assert (settled [t0] [] {[ Some t0 := 0%Qc ]} (replicate (lgid T) [])) as Hse.
  { constructor; try done.
    - intros t. unfold placed. rewrite lookup_singleton_is_Some, list_elem_of_singleton. split; congruence.
    - split; [by rewrite length_replicate|]. intros l here [-> _]%lookup_replicate. exists 0%nat. split_and!; [lia|done|by apply Forall_nil_2].
    - intros t [= <-]. done.
    - intros ev d Hev%elem_of_nil. done.
    - intros ev Hev%elem_of_nil. done.
    - intros X t HX ->%list_elem_of_singleton. rewrite H0. apply (fe_zero _ HX). by rewrite E. }
  destruct (scan_settles rest [t0] t0 [] events0 {[ Some t0 := 0%Qc ]} (replicate (lgid T) [])) as (x & lp & Hs & Hf); try done.
  { apply Forall_forall. intros ev Hev. destruct (Hwf ev Hev) as [H1 _ H2 _ _ _]. pose proof times_sorted as Hso. rewrite E in Hso, H1.
    apply StronglySorted_inv in Hso as [_ Hall]. rewrite Forall_forall in Hall.
    apply elem_of_cons in H1 as [H1|H1]; [by rewrite <- H1|]. eapply Qclt_trans; [by apply Hall|done]. }
  exists x, lp. destruct Hf as [Hpl Hok Hgap Hzero Hdem _ Hhas Hleast]. split_and!; try done.
  constructor; [|done|done]. intros t Ht. rewrite (Hzero t Ht). apply Qcle_refl.
Qed.

End Scan.
End VisScan.
