(* ===== verification/VisOptimal.v ===== *)
(** * The layout is the least one (the script in porcupine/visualization.go)

    The tables of linearization points hold what they should, the new ends keep the order of times, and so
    the scan's result is the least layout of the history. *)

From stdpp Require Import base list gmap strings numbers countable sorting.
From Stdlib Require Import ZArith Lia QArith Qcanon Lqa.
From S2P Require Import Prelude JsNum PorcModel PorcVis VisLayout VisScan.
Import PorcVis VisLayout VisScan.

Open Scope Z_scope.

Module VisOptimal.

(** ** The tables *)

Definition row {A} (t : list (list A)) (g : nat) : list A := default [] (t !! g).

Lemma push_at_row {A} (i g : nat) (x y : A) t :
  (i < length t)%nat -> x ∈ row (push_at i y t) g <-> x ∈ row t g \/ (g = i /\ x = y).
Proof.
  intros [l Hi]%lookup_lt_is_Some_2. rewrite (push_at_insert _ _ _ _ Hi). unfold row.
  destruct (decide (g = i)) as [->|Hne].
  - rewrite list_lookup_insert_eq by (by eapply lookup_lt_Some). rewrite Hi. simpl. set_solver.
  - rewrite list_lookup_insert_ne by done. naive_solver.
Qed.

Lemma push_at_length {A} i (x : A) t : length (push_at i x t) = length t.
Proof. apply length_alter. Qed.

(** All partial linearizations, each with its partition *)
Definition all_lins (data : list partition) : list (partition * list linearizationStep) :=
  p ← data; pair p <$> Partials p.

(** The global ids of a linearization *)
Definition gid_at (p : partition) (i : Z) : nat := default 0%nat (el_Gid <$> Hist p !! Z.to_nat i).
Definition gids (pl : partition * list linearizationStep) : list nat := (fun id => gid_at pl.1 (Index id)) <$> pl.2.

Definition in_range (p : partition) (id : linearizationStep) : Prop := 0 <= Index id < len (Hist p).

Lemma in_range_get p id : in_range p id -> exists el, js_get (Hist p) (Index id) = Val el /\ Hist p !! Z.to_nat (Index id) = Some el /\ el_Gid el = gid_at p (Index id).
Proof.
  intros [H0 Hlt]. destruct (lookup_lt_is_Some_2 (Hist p) (Z.to_nat (Index id))) as [el Hel]; [unfold len in Hlt; lia|].
  exists el. unfold gid_at. rewrite js_get_val, Hel. done.
Qed.

Lemma globalize_ok p lg pos lin t :
  Forall (in_range p) lin -> (forall el, el ∈ Hist p -> (el_Gid el < length t)%nat) ->
  exists t', globalize p lg pos lin t = Val (gids (p, lin), t') /\ length t' = length t /\
    forall g li, li ∈ row t' g <-> li ∈ row t g \/ exists j, gids (p, lin) !! j = Some g /\ li = (lg, pos + Z.of_nat j).
Proof.
  revert pos t. induction lin as [|id lin IH]; intros pos t Hr Ht; simpl.
  { exists t. split_and!; [done|done|]. intros g li. split; [auto|]. intros [?|(j & Hj & _)]; [done|]. done. }
  apply Forall_cons in Hr as [Hid Hr]. destruct (in_range_get p id Hid) as (el & -> & Hel & Hg). simpl.
  assert (el_Gid el < length t)%nat as Hlt by (apply Ht; by eapply list_elem_of_lookup_2).
  destruct (IH (pos + 1) (push_at (el_Gid el) (lg, pos) t)) as (t' & -> & Hlen & Hrow); [done|by rewrite push_at_length|].
  simpl. exists t'. rewrite push_at_length in Hlen. unfold gids in *. simpl in *. rewrite Hg in *. split_and!; [done|done|].
  intros g li. rewrite Hrow, push_at_row by done. split.
  - intros [[?|[-> ->]]|(j & Hj & ->)]; [auto|right; exists 0%nat; rewrite Z.add_0_r; done|].
    right. exists (S j). split; [done|]. f_equal. lia.
  - intros [?|([|j] & Hj & ->)]; [auto| |].
    + simpl in Hj. injection Hj as <-. left. right. rewrite Z.add_0_r. done.
    + right. exists j. split; [done|]. f_equal. lia.
Qed.

Lemma push_illegal_ok (lg : nat) (ns : list (nat * element)) (t : list (list nat)) :
  (forall i el, (i, el) ∈ ns -> (el_Gid el < length t)%nat) ->
  length (foldl (fun t '(_, el) => push_at (el_Gid el) lg t) t ns) = length t /\
  forall g l, l ∈ row (foldl (fun t '(_, el) => push_at (el_Gid el) lg t) t ns) g <->
    l ∈ row t g \/ (l = lg /\ exists i el, (i, el) ∈ ns /\ el_Gid el = g).
Proof.
  revert t. induction ns as [|[i el] ns IH]; intros t Ht; simpl.
  { split; [done|]. intros g l. split; [auto|]. intros [?|(_ & i & el & Hin%elem_of_nil & _)]; done. }
  assert (el_Gid el < length t)%nat as Hlt by (apply (Ht i); set_solver).
  destruct (IH (push_at (el_Gid el) lg t)) as [Hlen Hrow].
  { intros i' el' Hin. rewrite push_at_length. apply (Ht i'). set_solver. }
  rewrite push_at_length in Hlen. split; [done|]. intros g l. rewrite Hrow, push_at_row by done. setoid_rewrite elem_of_cons. split.
  - intros [[?|[-> ->]]|(-> & i' & el' & Hin & <-)]; [by left|right; split; [done|]; exists i, el; auto|right; split; [done|]; exists i', el'; auto].
  - intros [?|(-> & i' & el' & [[= -> ->]|Hin] & <-)]; [by left; left|by left; right|]. right. split; [done|]. by exists i', el'.
Qed.

(** The tables of the linearizations [L] *)
Record tables_of (N : nat) (L : list (partition * list linearizationStep)) (T : tables) : Prop := {
  to_all : allLinearizations T = gids <$> L;
  to_len1 : length (eventToLinearizations T) = N;
  to_len2 : length (eventIllegalLast T) = N;
  to_e2l : forall g l k, (l, k) ∈ e2l_of T g <-> 0 <= k /\ exists gs, allLinearizations T !! l = Some gs /\ gs !! Z.to_nat k = Some g;
  to_ill : forall g l, l ∈ ill_of T g <-> exists p lin i el, L !! l = Some (p, lin) /\ (i, el) ∈ possible_next (included lin) (Hist p) /\ el_Gid el = g }.

Lemma possible_next_elem inc h i el :
  (i, el) ∈ possible_next inc h <-> h !! i = Some el /\ Z.of_nat i ∉ inc /\ below (el_Start el) (minEnd inc h) = true.
Proof.
  unfold possible_next. rewrite list_elem_of_filter. rewrite list_elem_of_lookup. setoid_rewrite list_lookup_imap_Some. naive_solver.
Qed.

Lemma add_lin_ok N L p T lin :
  tables_of N L T -> Forall (in_range p) lin -> (forall el, el ∈ Hist p -> (el_Gid el < N)%nat) ->
  exists T', add_lin p T lin = Val T' /\ tables_of N (L ++ [(p, lin)]) T'.
Proof.
  intros [Hall H1 H2 He Hi] Hr HN. unfold add_lin.
  assert (lgid T = length L) as Hlg by (unfold lgid; by rewrite Hall, length_fmap).
  destruct (globalize_ok p (lgid T) 0 lin (eventToLinearizations T) Hr ltac:(by rewrite H1)) as (t' & -> & Hlen & Hrow). simpl.
  destruct (push_illegal_ok (lgid T) (possible_next (included lin) (Hist p)) (eventIllegalLast T)) as [Hlen2 Hrow2].
  { intros i el [Hl _]%possible_next_elem. rewrite H2. apply HN. by eapply list_elem_of_lookup_2. }
  eexists. split; [done|]. constructor; simpl; [by rewrite fmap_app, Hall|by rewrite Hlen|by rewrite Hlen2| |].
  - intros g l k. change (e2l_of _ g) with (row t' g). rewrite Hrow. change (row (eventToLinearizations T) g) with (e2l_of T g). rewrite He. split.
    + intros [(Hk & gs & Hgs & Hg)|(j & Hj & [= -> ->])].
      * split; [done|]. exists gs. split; [|done]. by apply lookup_app_l_Some.
      * split; [lia|]. exists (gids (p, lin)). rewrite Z.add_0_l, Nat2Z.id. split; [|done]. rewrite Hlg, lookup_app_r by (rewrite Hall, length_fmap; lia).
        by rewrite Hall, length_fmap, Nat.sub_diag.
    + intros (Hk & gs & [Hgs|[Hge Hgs]]%lookup_app_Some & Hg); [left; eauto|right].
      apply list_lookup_singleton_Some in Hgs as [Hl <-]. exists (Z.to_nat k). split; [done|]. f_equal; [|lia].
      rewrite Hall, length_fmap in Hge, Hl. lia.
  - intros g l. change (ill_of _ g) with (row (foldl (fun t '(_, el) => push_at (el_Gid el) (lgid T) t) (eventIllegalLast T) (possible_next (included lin) (Hist p))) g).
    rewrite Hrow2. change (row (eventIllegalLast T) g) with (ill_of T g). rewrite Hi. split.
    + intros [(p' & lin' & i & el & Hl & Hin & Hg)|(-> & i & el & Hin & Hg)].
      * exists p', lin', i, el. split; [by apply lookup_app_l_Some|done].
      * exists p, lin, i, el. split; [|done]. by rewrite Hlg, lookup_app_r, Nat.sub_diag by lia.
    + intros (p' & lin' & i & el & [Hl|[Hge [Hl E]%list_lookup_singleton_Some]]%lookup_app_Some & Hin & Hg); [left; by exists p', lin', i, el|right].
      injection E as -> ->. split; [lia|]. by exists i, el.
Qed.

(** The data has its ids in order and its linearizations in range. *)
Record data_ok (data : list partition) : Prop := {
  do_gid : forall g el, els data !! g = Some el -> el_Gid el = g;
  do_range : forall p lin, (p, lin) ∈ all_lins data -> Forall (in_range p) lin }.

Lemma els_elem data el : el ∈ els data <-> exists p, p ∈ data /\ el ∈ Hist p.
Proof.
  unfold els. rewrite list_elem_of_join. setoid_rewrite list_elem_of_fmap. naive_solver.
Qed.

Lemma all_lins_elem data p lin : (p, lin) ∈ all_lins data <-> p ∈ data /\ lin ∈ Partials p.
Proof.
  unfold all_lins. rewrite list_elem_of_bind. setoid_rewrite list_elem_of_fmap. naive_solver.
Qed.

Lemma gid_lookup data p i el : data_ok data -> p ∈ data -> Hist p !! i = Some el -> els data !! el_Gid el = Some el.
Proof.
  intros Hd Hp Hi. assert (el ∈ els data) as [g Hg]%list_elem_of_lookup by (apply els_elem; exists p; split; [done|by eapply list_elem_of_lookup_2]).
  by rewrite (do_gid _ Hd g el Hg).
Qed.

Lemma lin_tables_ok data : data_ok data -> exists T, lin_tables data = Val T /\ tables_of (length (els data)) (all_lins data) T.
Proof.
  intros Hd. unfold lin_tables. set (N := length (els data)).
  assert (forall el p, p ∈ data -> el ∈ Hist p -> (el_Gid el < N)%nat) as HN.
  { intros el p Hp [i Hi]%list_elem_of_lookup. eapply lookup_lt_Some. by eapply gid_lookup. }
  rewrite !newArray_const. assert (tables_of N [] (mkTables (replicate N []) (replicate N []) [])) as H0.
  { assert (forall A g, row (replicate N (@nil A)) g = []) as Hrow.
    { intros A g. unfold row. destruct (replicate N [] !! g) as [r|] eqn:Hg; [|done]. by apply lookup_replicate in Hg as [-> _]. }
    constructor; simpl; [done|by rewrite length_replicate..| |].
    - intros g l k. change (e2l_of _ g) with (row (replicate N (@nil (nat * Z))) g). rewrite Hrow. split; [intros []%elem_of_nil|].
      intros (_ & gs & Hl & _). by rewrite lookup_nil in Hl.
    - intros g l. change (ill_of _ g) with (row (replicate N (@nil nat)) g). rewrite Hrow. split; [intros []%elem_of_nil|].
      intros (p & lin & i & el & Hl & _). by rewrite lookup_nil in Hl. }
  assert (forall p lins L T, tables_of N L T -> p ∈ data -> (forall lin, lin ∈ lins -> lin ∈ Partials p) ->
            exists T', add_lins p T lins = Val T' /\ tables_of N (L ++ (pair p <$> lins)) T') as Hlins.
  { intros p lins. induction lins as [|lin lins IH]; intros L T HT Hp Hin; simpl; [exists T; by rewrite app_nil_r|].
    destruct (add_lin_ok N L p T lin HT) as (T1 & -> & HT1); [|by intros el; apply HN|].
    - apply (do_range _ Hd). apply all_lins_elem. split; [done|]. apply Hin. set_solver.
    - simpl. destruct (IH (L ++ [(p, lin)]) T1 HT1 Hp) as (T2 & -> & HT2); [set_solver|]. exists T2. rewrite <- app_assoc in HT2. done. }
  assert (forall ps L T, tables_of N L T -> (forall p, p ∈ ps -> p ∈ data) ->
            exists T', add_partitions T ps = Val T' /\ tables_of N (L ++ all_lins ps) T') as Hparts.
  { intros ps. induction ps as [|p ps IH]; intros L T HT Hin; simpl; [exists T; by rewrite app_nil_r|].
    destruct (Hlins p (Partials p) L T HT) as (T1 & -> & HT1); [set_solver|done|]. simpl.
    destruct (IH (L ++ (pair p <$> Partials p)) T1 HT1) as (T2 & -> & HT2); [set_solver|]. exists T2. rewrite <- app_assoc in HT2. done. }
  by apply (Hparts data [] _ H0).
Qed.

(** ** The new ends *)

Lemma nextTs_spec ts :
  StronglySorted Qclt ts ->
  forall a, match nextTs ts !! a with
            | Some b => a ∈ ts /\ (a < b)%Qc /\ forall c, c ∈ ts -> (a < c)%Qc -> (b <= c)%Qc
            | None => a ∈ ts -> forall c, c ∈ ts -> (c <= a)%Qc
            end.
Proof.
  intros Hso. induction ts as [|x ts IH]; intros a; cbn [nextTs]; [rewrite lookup_empty; by intros ?%elem_of_nil|].
  apply StronglySorted_inv in Hso as [Hso Hx]. rewrite Forall_forall in Hx. destruct ts as [|y ts].
  { rewrite lookup_empty. intros ->%list_elem_of_singleton c ->%list_elem_of_singleton. apply Qcle_refl. }
  pose proof (Hx y ltac:(set_solver)) as Hxy. apply StronglySorted_inv in Hso as [Hso Hy]. rewrite Forall_forall in Hy.
  specialize (IH ltac:(constructor; [done|by apply Forall_forall]) a).
  destruct (decide (a = x)) as [->|Hne].
  - rewrite lookup_insert_eq. split_and!; [set_solver|done|]. intros c [->|[->|Hc]%elem_of_cons]%elem_of_cons Hlt; [qc_lra|apply Qcle_refl|].
    by apply Qclt_le_weak, Hy.
  - rewrite lookup_insert_ne by done. destruct (nextTs (y :: ts) !! a) as [b|].
    + destruct IH as (Ha & Hab & Hmin). split_and!; [set_solver|done|]. intros c [->|Hc]%elem_of_cons Hlt; [|by apply Hmin].
      specialize (Hx a Ha). qc_lra.
    + intros [->|Ha]%elem_of_cons c [->|Hc]%elem_of_cons; [done..| |by apply IH]. by apply Qclt_le_weak, Hx.
Qed.

Section Tweak.
Variable data : list partition.

(** No operation starts at the very end of the history. *)
Hypothesis not_last : forall el, el ∈ els data -> exists el', el' ∈ els data /\ (el_Start el < el_End el')%Qc.

Notation tweaked := (tweak (startTimestamps data) (nextTs (sort_numbers (allTimestamps data)))).

Lemma start_in el : el ∈ els data -> el_Start el ∈ startTimestamps data.
Proof. intros Hel. unfold startTimestamps. apply elem_of_list_to_set, list_elem_of_fmap. by exists el. Qed.

Lemma time_in t : t ∈ sort_numbers (allTimestamps data) <-> exists el, el ∈ els data /\ (t = el_Start el \/ t = el_End el).
Proof.
  rewrite sort_numbers_elem. unfold allTimestamps, startTimestamps.
  rewrite elem_of_union, !elem_of_list_to_set, !list_elem_of_fmap. naive_solver.
Qed.

(** The new end of [x] is behind its end, but before whatever starts later. *)
Lemma tweak_end x :
  x ∈ els data ->
  (el_End x <= el_End (tweaked x))%Qc /\
  (forall el, el ∈ els data -> (el_Start el <= el_End x <-> el_Start el < el_End (tweaked x))%Qc).
Proof.
  intros Hx. pose proof (nextTs_spec _ (sort_numbers_sorted (allTimestamps data)) (el_End x)) as Hn.
  assert (el_End x ∈ sort_numbers (allTimestamps data)) as Hin by (apply time_in; eauto).
  unfold tweak. simpl. case_decide as Hst.
  - destruct (nextTs _ !! el_End x) as [b|].
    + destruct Hn as (_ & Hab & Hmin). destruct (half_between _ _ Hab) as [H1 H2]. split; [by apply Qclt_le_weak|].
      intros el Hel. split; [intros; qc_lra|]. intros Hlt. destruct (Qclt_le_dec (el_End x) (el_Start el)) as [Hgt|]; [exfalso|done].
      pose proof (Hmin (el_Start el) ltac:(apply time_in; eauto) Hgt). qc_lra.
    + exfalso. unfold startTimestamps in Hst. apply elem_of_list_to_set, list_elem_of_fmap in Hst as (y & Hy & Hyin).
      destruct (not_last y Hyin) as (z & Hz & Hlt). pose proof (Hn Hin (el_End z) ltac:(apply time_in; eauto)). rewrite Hy in *. qc_lra.
  - split; [apply Qcle_refl|]. intros el Hel. split; [|by apply Qclt_le_weak]. intros Hle.
    destruct (Qcle_lt_or_eq _ _ Hle) as [|E]; [done|]. exfalso. apply Hst. rewrite <- E. by apply start_in.
Qed.

Lemma els_map f ps : els (map_els f ps) = f <$> els ps.
Proof.
  unfold els, map_els. induction ps as [|p ps IH]; [done|]. rewrite !fmap_cons. cbn [mjoin list_join]. rewrite fmap_app. f_equal. exact IH.
Qed.

Lemma els_tweaked : els (tweak_data data) = tweaked <$> els data.
Proof. apply els_map. Qed.

Lemma tweaked_times t :
  t ∈ tweakedTimestamps data <->
  (exists el, el ∈ els data /\ (t = el_Start el \/ t = el_End el)) \/ exists el, el ∈ els (tweak_data data) /\ t = el_End el.
Proof.
  unfold tweakedTimestamps. rewrite sort_numbers_elem, elem_of_union, elem_of_list_to_set, list_elem_of_fmap.
  rewrite <- sort_numbers_elem, time_in. naive_solver.
Qed.

End Tweak.

(** ** The least end of what is left *)

Lemma minEnd_below inc h t :
  below t (minEnd inc h) = true <-> forall i el, h !! i = Some el -> Z.of_nat i ∉ inc -> (t < el_End el)%Qc.
Proof.
  unfold minEnd. assert (forall l m, below t (foldl (fun m '(index, el) =>
      if decide (Z.of_nat index ∈ inc) then m else Some (match m with Some q => Qcmin q (el_End el) | None => el_End el end)) m l) = true <->
      below t m = true /\ forall i el, (i, el) ∈ l -> Z.of_nat i ∉ inc -> (t < el_End el)%Qc) as Hall.
  { intros l. induction l as [|[i el] l IH]; intros m; simpl.
    { split; [intros; split; [done|]; intros i el Hin%elem_of_nil; done|by intros [? _]]. }
    rewrite IH. setoid_rewrite elem_of_cons. case_decide as Hd; simpl.
    - split; [intros [? Hl]; split; [done|]; intros i' el' [[= -> ->]|?] ?; [done|eauto]|intros [? Hl]; split; [done|]; eauto].
    - assert (bool_decide (t < match m with Some q => Qcmin q (el_End el) | None => el_End el end)%Qc = true <->
              below t m = true /\ (t < el_End el)%Qc) as ->.
      { rewrite bool_decide_eq_true. destruct m as [q|]; simpl; [|naive_solver]. rewrite bool_decide_eq_true.
        destruct (Qcmin_spec q (el_End el)) as (H1 & H2 & [E|E]); split; [intros; split; qc_lra|intros [? ?]; qc_lra|intros; split; qc_lra|intros [? ?]; qc_lra]. }
      split; [intros [[? ?] Hl]; split; [done|]; intros i' el' [[= -> ->]|?] ?; [done|eauto]|intros [? Hl]; split; [|eauto]].
      split; [done|]. eapply Hl; [by left|done]. }
  rewrite Hall. simpl. split.
  - intros [_ Hl] i el Hi Hn. eapply Hl; [|done]. apply list_elem_of_lookup. exists i. by rewrite list_lookup_imap, Hi.
  - intros Hl. split; [done|]. intros i el [j Hj]%list_elem_of_lookup Hn. rewrite list_lookup_imap in Hj.
    destruct (h !! j) eqn:Hh; [|done]. simpl in Hj. injection Hj as -> ->. by eapply Hl.
Qed.

(** ** Data that can be laid out *)

(** What comes in a linearization starts before all that comes later, or not at all, ends. *)
Record ready (data : list partition) : Prop := {
  rd_ok : data_ok data;
  rd_order : forall el, el ∈ els data -> (el_Start el < el_End el)%Qc;
  rd_nonempty : forall p lin, (p, lin) ∈ all_lins data -> lin <> [];
  rd_nodup : forall p lin, (p, lin) ∈ all_lins data -> NoDup (Index <$> lin);
  rd_closed : forall p lin j id y i x, (p, lin) ∈ all_lins data -> lin !! j = Some id -> Hist p !! Z.to_nat (Index id) = Some y ->
    Hist p !! i = Some x -> Z.of_nat i ∉ Index <$> take j lin -> (el_Start y < el_End x)%Qc }.

Section Ready.
Variable bbox_width : string -> Qc.
Variables (data : list partition) (T : tables) (times : list Qc).
Hypothesis data_ready : ready data.
Hypothesis data_tables : tables_of (length (els data)) (all_lins data) T.
Hypothesis starts_timed : forall el, el ∈ els data -> el_Start el ∈ times.
Hypothesis ends_timed : forall el, el ∈ els data -> el_End el ∈ times.

(** The [k]-th element of linearization [l] *)
Definition lin_el (l k : nat) (el : element) : Prop :=
  exists p lin id, all_lins data !! l = Some (p, lin) /\ lin !! k = Some id /\ Hist p !! Z.to_nat (Index id) = Some el.

Lemma gids_lookup l gs k g :
  allLinearizations T !! l = Some gs -> gs !! k = Some g -> exists el, lin_el l k el /\ els data !! g = Some el /\ el_Gid el = g.
Proof.
  rewrite (to_all _ _ _ data_tables), list_lookup_fmap. destruct (all_lins data !! l) as [[p lin]|] eqn:Hl; [|done]. simpl. intros [= <-].
  unfold gids. simpl. rewrite list_lookup_fmap. destruct (lin !! k) as [id|] eqn:Hk; [|done]. simpl. intros [= <-].
  pose proof (list_elem_of_lookup_2 _ _ _ Hl) as Hin. pose proof (do_range _ (rd_ok _ data_ready) _ _ Hin) as Hr.
  eapply Forall_lookup_1 in Hr; [|exact Hk]. destruct (in_range_get p id Hr) as (el & _ & Hel & Hg).
  exists el. split; [by exists p, lin, id|]. rewrite <- Hg. split; [|done]. apply all_lins_elem in Hin as [Hp _].
  by eapply gid_lookup; [apply data_ready| |].
Qed.

Lemma lin_el_start l k el : lin_el l k el -> starts_of (els data) T l !! k = Some (el_Start el).
Proof.
  intros (p & lin & id & Hl & Hk & Hel). assert (allLinearizations T !! l = Some (gids (p, lin))) as Ha.
  { by rewrite (to_all _ _ _ data_tables), list_lookup_fmap, Hl. }
  assert (gids (p, lin) !! k = Some (el_Gid el)) as Hg.
  { unfold gids, gid_at. simpl. rewrite list_lookup_fmap, Hk. simpl. by rewrite Hel. }
  rewrite (starts_lookup _ _ _ _ Ha), list_lookup_fmap, Hg. simpl. unfold start_of.
  assert (p ∈ data) as Hp by (apply list_elem_of_lookup_2, all_lins_elem in Hl; tauto).
  by rewrite (gid_lookup data p _ el (rd_ok _ data_ready) Hp Hel).
Qed.

Lemma lin_length l p lin : all_lins data !! l = Some (p, lin) -> length (starts_of (els data) T l) = length lin.
Proof.
  intros Hl. unfold starts_of. rewrite (to_all _ _ _ data_tables), list_lookup_fmap, Hl. simpl.
  unfold gids. by rewrite !length_fmap.
Qed.

Lemma lin_lookup_start l p lin k s :
  all_lins data !! l = Some (p, lin) -> starts_of (els data) T l !! k = Some s ->
  exists id el, lin !! k = Some id /\ Hist p !! Z.to_nat (Index id) = Some el /\ s = el_Start el /\ el ∈ els data /\ lin_el l k el.
Proof.
  intros Hl Hs. pose proof (lookup_lt_Some _ _ _ Hs) as Hlt. rewrite (lin_length _ _ _ Hl) in Hlt.
  destruct (lookup_lt_is_Some_2 _ _ Hlt) as [id Hid]. pose proof (list_elem_of_lookup_2 _ _ _ Hl) as Hin.
  pose proof (do_range _ (rd_ok _ data_ready) _ _ Hin) as Hr. eapply Forall_lookup_1 in Hr; [|exact Hid].
  destruct (in_range_get p id Hr) as (el & _ & Hel & _). exists id, el.
  assert (lin_el l k el) as Hle by (by exists p, lin, id). rewrite (lin_el_start l k el Hle) in Hs. injection Hs as <-.
  split_and!; try done. apply els_elem. exists p. split; [apply all_lins_elem in Hin; tauto|by eapply list_elem_of_lookup_2].
Qed.

(** An event waits for points of linearizations it is in, or may not come next in. *)
Lemma waits_elem ev l k :
  (l, k) ∈ waits (els data) T ev -> exists p lin, all_lins data !! l = Some (p, lin) /\ 0 <= k < len lin /\
    exists i el, Hist p !! i = Some el /\ el_Gid el = ev_gid ev /\ forall j, (j <= Z.to_nat k)%nat -> Z.of_nat i ∉ Index <$> take j lin.
Proof.
  unfold waits. rewrite elem_of_app, list_elem_of_fmap. intros [He|(l' & [= -> ->] & Hi)].
  - apply (to_e2l _ _ _ data_tables) in He as (Hk & gs & Hl & Hg).
    destruct (gids_lookup l gs _ _ Hl Hg) as (el & (p & lin & id & Hpl & Hid & Hel) & _ & Heg). exists p, lin.
    pose proof (lookup_lt_Some _ _ _ Hid) as Hlt. split; [done|]. split; [unfold len; lia|]. exists (Z.to_nat (Index id)), el.
    split_and!; [done|done|]. intros j Hj Hin. apply list_elem_of_lookup_2 in Hpl as Hin'.
    pose proof (do_range _ (rd_ok _ data_ready) _ _ Hin') as Hr. eapply Forall_lookup_1 in Hr; [|exact Hid]. destruct Hr as [Hr _].
    rewrite Z2Nat.id in Hin by done. apply list_elem_of_fmap in Hin as (id' & E & [m Hm]%list_elem_of_lookup).
    apply lookup_take_Some in Hm as [Hm Hmj]. pose proof (rd_nodup _ data_ready _ _ Hin') as Hnd.
    assert (m = Z.to_nat k); [|lia]. eapply (NoDup_lookup _ m (Z.to_nat k) (Index id) Hnd); rewrite list_lookup_fmap; [by rewrite Hm, E|by rewrite Hid].
  - apply (to_ill _ _ _ data_tables) in Hi as (p & lin & i & el & Hl & Hin & Hg). exists p, lin. split; [done|].
    unfold len. rewrite (lin_length _ _ _ Hl). pose proof (rd_nonempty _ data_ready _ _ (list_elem_of_lookup_2 _ _ _ Hl)) as Hne.
    split; [destruct lin; [done|simpl; lia]|]. apply possible_next_elem in Hin as (Hi & Hn & _). exists i, el. split_and!; [done|done|].
    intros j _ Hj. apply Hn. unfold included. apply elem_of_list_to_set. apply list_elem_of_fmap in Hj as (id & -> & Hid%elem_of_take).
    destruct Hid as (m & Hm & _). apply list_elem_of_fmap. exists id. split; [done|]. by eapply list_elem_of_lookup_2.
Qed.

Lemma events_ready : Forall (event_wf (els data) T times) (byEnd bbox_width data).
Proof.
  apply Forall_forall. intros ev Hev. unfold byEnd in Hev. rewrite merge_sort_Permutation in Hev.
  apply list_elem_of_fmap in Hev as (el & -> & Hel). destruct (proj1 (list_elem_of_lookup _ _) Hel) as [g Hg].
  pose proof (do_gid _ (rd_ok _ data_ready) _ _ Hg) as Eg. apply lookup_lt_Some in Hg as Hlt.
  constructor; simpl; [auto|auto|by apply data_ready|apply lookup_lt_is_Some_2; by rewrite (to_len1 _ _ _ data_tables), Eg|
                       apply lookup_lt_is_Some_2; by rewrite (to_len2 _ _ _ data_tables), Eg|].
  apply Forall_forall. intros [l k] Hw. simpl. destruct (waits_elem _ _ _ Hw) as (p & lin & Hl & Hk & i & x & Hx & Exg & Hn).
  assert (allLinearizations T !! l = Some (gids (p, lin))) as Ha by (by rewrite (to_all _ _ _ data_tables), list_lookup_fmap, Hl).
  exists (gids (p, lin)). split_and!; [done| |lia|unfold len, gids in *; rewrite length_fmap; simpl; lia|].
  - apply Forall_forall. intros g' [m Hm]%list_elem_of_lookup. destruct (gids_lookup _ _ _ _ Ha Hm) as (y & _ & Hy & _). by exists y.
  - apply Forall_forall. intros s [j Hj]%list_elem_of_lookup. apply lookup_take_Some in Hj as [Hs Hj].
    destruct (lin_lookup_start _ _ _ _ _ Hl Hs) as (id & y & Hid & Hy & -> & Hyin & _). split; [auto|].
    assert (x = el) as ->.
    { assert (els data !! el_Gid x = Some x) as E1.
      { eapply gid_lookup; [apply data_ready| |exact Hx]. apply list_elem_of_lookup_2, all_lins_elem in Hl. tauto. }
      simpl in Exg. rewrite Exg, Eg, Hg in E1. congruence. }
    eapply (rd_closed _ data_ready p lin j id y i el); [by eapply list_elem_of_lookup_2|done|done|done|]. apply Hn. lia.
Qed.

(** ** The constraints of a layout

    [X] places the timestamps and [P] the points of the linearizations. *)
Record spaced (X : Qc -> Qc) (P : list (list Qc)) : Prop := {
  sp_zero : forall t, t ∈ times -> (0 <= X t)%Qc;
  (* unequal timestamps can be told apart *)
  sp_gap : forall s t, s ∈ times -> t ∈ times -> (s < t)%Qc -> (X s + BOX_GAP <= X t)%Qc;
  (* a box holds its text *)
  sp_text : forall el, el ∈ els data -> (X (el_Start el) + (bbox_width (el_Description el) + lit 2 * BOX_TEXT_PADDING) <= X (el_End el))%Qc;
  (* a linearization has all its points *)
  sp_shape : Forall2 (fun pl ps => length ps = length pl.2) (all_lins data) P;
  (* a point is in its box *)
  sp_point : forall l k el ps q, lin_el l k el -> P !! l = Some ps -> ps !! k = Some q -> (X (el_Start el) <= q /\ q <= X (el_End el))%Qc;
  (* points of a linearization can be told apart *)
  sp_dist : forall l k ps q q', P !! l = Some ps -> ps !! k = Some q -> ps !! S k = Some q' -> (q + EPSILON <= q')%Qc;
  (* a point that may not come next fits in its box too *)
  sp_next : forall l p lin ps q i el, all_lins data !! l = Some (p, lin) -> P !! l = Some ps -> last ps = Some q ->
    (i, el) ∈ possible_next (included lin) (Hist p) -> (q + EPSILON <= X (el_End el))%Qc }.

Definition points_at (X : Qc -> Qc) : list (list Qc) := (fun l => points X (starts_of (els data) T l)) <$> seq 0 (length (all_lins data)).

Lemma points_at_lookup X l ps : points_at X !! l = Some ps <-> (l < length (all_lins data))%nat /\ ps = points X (starts_of (els data) T l).
Proof.
  unfold points_at. rewrite list_lookup_fmap. destruct (decide (l < length (all_lins data))%nat) as [Hl|Hl].
  - rewrite lookup_seq_lt by done. simpl. naive_solver.
  - rewrite lookup_seq_ge by lia. simpl. naive_solver.
Qed.

Notation feasible X := (feasible (els data) T times (byEnd bbox_width data) X).
Hypothesis times_sorted : StronglySorted Qclt times.

Lemma byEnd_elem el : el ∈ els data -> event_of bbox_width el ∈ byEnd bbox_width data.
Proof. intros Hel. unfold byEnd. rewrite merge_sort_Permutation. apply list_elem_of_fmap. by exists el. Qed.

(** The gaps add up. *)
Lemma feasible_gap X i j a b : feasible X -> (i < j)%nat -> times !! i = Some a -> times !! j = Some b -> (X a + BOX_GAP <= X b)%Qc.
Proof.
  intros HX Hij Ha. revert b. induction Hij as [|j Hij IH]; intros b Hb; [by eapply fe_gap|].
  destruct (lookup_lt_is_Some_2 times j) as [c Hc]; [apply lookup_lt_Some in Hb; lia|].
  pose proof (IH c Hc). pose proof (fe_gap _ _ _ _ _ HX j c b Hc Hb). assert (0 <= BOX_GAP)%Qc by (by apply (lit_mono 0 20)). qc_lra.
Qed.

Lemma sorted_index i j a b : times !! i = Some a -> times !! j = Some b -> (a < b)%Qc -> (i < j)%nat.
Proof.
  intros Ha Hb Hab. destruct (Nat.lt_trichotomy i j) as [|[->|Hji]]; [done|simplify_eq; by apply Qclt_not_eq in Hab|exfalso].
  pose proof (sorted_lookup_lt _ _ _ _ _ _ times_sorted Hji Hb Ha). eapply Qclt_not_le; [exact Hab|]. by apply Qclt_le_weak.
Qed.

(** The demand of a point *)
Lemma demand_point X el l k :
  el ∈ els data -> (l, k) ∈ waits (els data) T (event_of bbox_width el) -> feasible X -> (pt (els data) T X l k <= X (el_End el))%Qc.
Proof.
  intros Hel Hw HX. apply (fe_demand _ _ _ _ _ HX (event_of bbox_width el)); [by apply byEnd_elem|]. unfold demands.
  apply elem_of_cons. right. apply elem_of_app. left. apply list_elem_of_fmap. by exists (l, k).
Qed.

Lemma lin_el_waits l k el : lin_el l k el -> (l, Z.of_nat k) ∈ waits (els data) T (event_of bbox_width el).
Proof.
  intros (p & lin & id & Hl & Hk & Hel). unfold waits. apply elem_of_app. left. apply (to_e2l _ _ _ data_tables). split; [lia|].
  exists (gids (p, lin)). rewrite (to_all _ _ _ data_tables), list_lookup_fmap, Hl. split; [done|]. rewrite Nat2Z.id.
  unfold gids, gid_at. simpl. rewrite list_lookup_fmap, Hk. simpl. by rewrite Hel.
Qed.

Lemma lin_el_in l k el : lin_el l k el -> el ∈ els data.
Proof.
  intros (p & lin & id & Hl & _ & Hel). apply els_elem. exists p.
  split; [apply list_elem_of_lookup_2, all_lins_elem in Hl; tauto|by eapply list_elem_of_lookup_2].
Qed.

Lemma feasible_spaced X : feasible X -> (forall t, t ∈ times -> (0 <= X t)%Qc) -> spaced X (points_at X).
Proof.
  intros HX H0. constructor.
  - done.
  - intros s t [i Hi]%list_elem_of_lookup [j Hj]%list_elem_of_lookup Hlt. apply (feasible_gap X i j); [done|by apply (sorted_index i j s t)|done|done].
  - intros el Hel. apply (fe_demand _ _ _ _ _ HX (event_of bbox_width el)); [by apply byEnd_elem|]. apply elem_of_cons. by left.
  - apply Forall2_same_length_lookup_2; [unfold points_at; by rewrite length_fmap, length_seq|].
    intros l [p lin] ps Hl [_ ->]%points_at_lookup. simpl. by rewrite points_len, (lin_length _ _ _ Hl).
  - intros l k el ps q Hle [_ ->]%points_at_lookup Hq. split.
    + by eapply (proj1 (points_ge X None _)); [apply lin_el_start|].
    + pose proof (demand_point X el l (Z.of_nat k) (lin_el_in _ _ _ Hle) (lin_el_waits _ _ _ Hle) HX) as Hd.
      unfold pt in Hd. rewrite Nat2Z.id, Hq in Hd. done.
  - intros l k ps q q' [_ ->]%points_at_lookup. apply (proj2 (points_ge X None _)).
  - intros l p lin ps q i el Hl [_ ->]%points_at_lookup Hq Hn.
    assert (el ∈ els data) as Hel.
    { apply possible_next_elem in Hn as (Hi & _). apply els_elem. exists p.
      split; [apply list_elem_of_lookup_2, all_lins_elem in Hl; tauto|by eapply list_elem_of_lookup_2]. }
    apply (fe_demand _ _ _ _ _ HX (event_of bbox_width el)); [by apply byEnd_elem|]. unfold demands.
    apply elem_of_cons. right. apply elem_of_app. right. apply list_elem_of_fmap. exists l. split.
    + f_equal. unfold last_pt, pt. rewrite last_lookup, points_len in Hq.
      replace (Z.to_nat (len (starts_of (els data) T l) - 1)) with (pred (length (starts_of (els data) T l))) by (unfold len; lia). by rewrite Hq.
    + apply (to_ill _ _ _ data_tables). by exists p, lin, i, el.
Qed.

(** The points of a spaced layout are behind those put as far to the left as they go. *)
Lemma spaced_points X Y P l p lin ps k q :
  spaced Y P -> (forall t, t ∈ times -> (X t <= Y t)%Qc) -> all_lins data !! l = Some (p, lin) -> P !! l = Some ps ->
  points X (starts_of (els data) T l) !! k = Some q -> exists q', ps !! k = Some q' /\ (q <= q')%Qc.
Proof.
  intros HS HXY Hl Hps Hq. pose proof (Forall2_lookup_lr _ _ _ _ _ _ (sp_shape _ _ HS) Hl Hps) as Hlen. simpl in Hlen.
  pose proof (lookup_lt_Some _ _ _ Hq) as Hlt. rewrite points_len, (lin_length _ _ _ Hl) in Hlt.
  destruct (lookup_lt_is_Some_2 ps k) as [q' Hq']; [lia|]. exists q'. split; [done|].
  eapply (points_least X Y None None (starts_of (els data) T l) ps); [| | | |done|exact Hq|exact Hq'].
  - intros s [j Hj]%list_elem_of_lookup. destruct (lin_lookup_start _ _ _ _ _ Hl Hj) as (_ & el & _ & _ & -> & Hel & _). auto.
  - by rewrite (lin_length _ _ _ Hl).
  - intros j s r Hs Hr. destruct (lin_lookup_start _ _ _ _ _ Hl Hs) as (_ & el & _ & _ & -> & _ & Hle). by apply (sp_point _ _ HS l j el ps r).
  - intros j r r' Hr Hr'. by apply (sp_dist _ _ HS l j ps).
Qed.

Lemma same_gid p i x el : p ∈ data -> Hist p !! i = Some x -> el ∈ els data -> el_Gid x = el_Gid el -> x = el.
Proof.
  intros Hp Hi [g Hgl]%list_elem_of_lookup Hg. pose proof (do_gid _ (rd_ok _ data_ready) _ _ Hgl) as E.
  pose proof (gid_lookup data p i x (rd_ok _ data_ready) Hp Hi) as Hx. rewrite Hg, E in Hx. congruence.
Qed.

(** A spaced layout leaves room for the leftmost points at [Y] ... *)
Lemma spaced_pt Y P l k el :
  spaced Y P -> lin_el l k el ->
  exists p lin ps q, all_lins data !! l = Some (p, lin) /\ P !! l = Some ps /\ length ps = length lin /\
    ps !! k = Some q /\ (pt (els data) T Y l (Z.of_nat k) <= q)%Qc.
Proof.
  intros HS (p & lin & id & Hl & Hid & _). destruct (Forall2_lookup_l _ _ _ _ _ (sp_shape _ _ HS) Hl) as (ps & Hps & Hlen).
  destruct (lookup_lt_is_Some_2 (points Y (starts_of (els data) T l)) k) as [r Hr].
  { rewrite points_len, (lin_length _ _ _ Hl). by eapply lookup_lt_Some. }
  destruct (spaced_points Y Y P l p lin ps k r HS ltac:(intros; apply Qcle_refl) Hl Hps Hr) as (q & Hq & Hle).
  exists p, lin, ps, q. unfold pt. rewrite Nat2Z.id, Hr. done.
Qed.

(** ... and of those that may not come next. *)
Lemma spaced_illegal Y P el l :
  spaced Y P -> el ∈ els data -> l ∈ ill_of T (el_Gid el) -> (last_pt (els data) T Y l + EPSILON <= Y (el_End el))%Qc.
Proof.
  intros HS Hel (p & lin & i & x & Hl & Hn & Hg)%(to_ill _ _ _ data_tables).
  pose proof (list_elem_of_lookup_2 _ _ _ Hl) as Hin. pose proof (rd_nonempty _ data_ready _ _ Hin) as Hne.
  assert (x = el) as ->.
  { apply possible_next_elem in Hn as (Hi & _). eapply same_gid; [|exact Hi|done|done]. by apply all_lins_elem in Hin as [? _]. }
  assert (0 < length lin)%nat as Hpos by (destruct lin; [done|simpl; lia]).
  destruct (lookup_lt_is_Some_2 (starts_of (els data) T l) (pred (length lin))) as [s Hs]; [rewrite (lin_length _ _ _ Hl); lia|].
  destruct (lin_lookup_start _ _ _ _ _ Hl Hs) as (_ & y & _ & _ & _ & _ & Hle).
  destruct (spaced_pt Y P l _ y HS Hle) as (p' & lin' & ps & q & Hl' & Hps & Hlen & Hq & Hb). rewrite Hl in Hl'. injection Hl' as <- <-.
  assert (last ps = Some q) as Hq' by (rewrite last_lookup, Hlen; done).
  pose proof (sp_next _ _ HS _ _ _ _ _ _ _ Hl Hps Hq' Hn). unfold last_pt, len. rewrite (lin_length _ _ _ Hl).
  replace (Z.of_nat (length lin) - 1) with (Z.of_nat (pred (length lin))) by lia. qc_lra.
Qed.

Lemma spaced_feasible Y P : spaced Y P -> feasible Y.
Proof.
  intros HS. constructor.
  - intros t Ht. apply (sp_zero _ _ HS). destruct times; simplify_eq/=. set_solver.
  - intros i a b Ha Hb. apply (sp_gap _ _ HS); [by eapply list_elem_of_lookup_2..|]. by eapply (sorted_lookup_lt Qclt times i (S i)); [done|lia|..].
  - intros ev d Hev Hd. unfold byEnd in Hev. rewrite merge_sort_Permutation in Hev. apply list_elem_of_fmap in Hev as (el & -> & Hel).
    unfold demands in Hd. apply elem_of_cons in Hd as [->|[Hd|Hd]%elem_of_app]; [by apply HS| |].
    + apply list_elem_of_fmap in Hd as ([l k] & -> & Hw). simpl. unfold waits in Hw. apply elem_of_app in Hw as [Hw|Hw].
      * apply (to_e2l _ _ _ data_tables) in Hw as (Hk & gs & Hgs & Hg). destruct (gids_lookup _ _ _ _ Hgs Hg) as (x & Hle & Hx & Hxg).
        assert (x = el) as ->. { destruct Hle as (p & lin & id & Hl & _ & Hh). eapply same_gid; [|exact Hh|done|done]. apply list_elem_of_lookup_2, all_lins_elem in Hl. tauto. }
        destruct (spaced_pt Y P l _ el HS Hle) as (p & lin & ps & q & _ & Hps & _ & Hq & Hb). rewrite Z2Nat.id in Hb by done.
        etransitivity; [exact Hb|]. by eapply (sp_point _ _ HS).
      * apply list_elem_of_fmap in Hw as (l' & [= -> ->] & Hl'). pose proof (spaced_illegal Y P el l' HS Hel Hl') as Hb. unfold last_pt in Hb.
        assert (0 <= EPSILON)%Qc by (by apply (lit_mono 0 20)). qc_lra.
    + apply list_elem_of_fmap in Hd as (l & -> & Hl). by eapply spaced_illegal.
Qed.

(** Once every event has its points, all points are there. *)
Lemma all_points x lp :
  points_ok (els data) T x lp -> Forall (fun ev => Forall (has_point lp) (waits (els data) T ev)) (byEnd bbox_width data) ->
  lp = (fun ps : list Qc => Some <$> ps) <$> points_at (at_ x).
Proof.
  intros [Hlen Hok] Hhas. assert (lgid T = length (all_lins data)) as Hlg by (unfold lgid; by rewrite (to_all _ _ _ data_tables), length_fmap).
  apply list_eq. intros l. rewrite list_lookup_fmap. destruct (lp !! l) as [here|] eqn:Hh.
  - pose proof (lookup_lt_Some _ _ _ Hh) as Hl. rewrite Hlen, Hlg in Hl.
    rewrite (proj2 (points_at_lookup (at_ x) l _) (conj Hl eq_refl)). simpl. f_equal.
    destruct (Hok l here Hh) as (m & Hm & -> & _). f_equal. f_equal. apply take_ge.
    destruct (lookup_lt_is_Some_2 _ _ Hl) as [[p lin] Hpl]. rewrite (lin_length _ _ _ Hpl) in Hm |- *.
    pose proof (rd_nonempty _ data_ready _ _ (list_elem_of_lookup_2 _ _ _ Hpl)) as Hne.
    assert (0 < length lin)%nat as Hpos by (destruct lin; [done|simpl; lia]).
    destruct (lookup_lt_is_Some_2 (starts_of (els data) T l) (pred (length lin))) as [s Hs]; [rewrite (lin_length _ _ _ Hpl); lia|].
    destruct (lin_lookup_start _ _ _ _ _ Hpl Hs) as (_ & y & _ & _ & _ & Hy & Hle).
    rewrite Forall_forall in Hhas. specialize (Hhas _ (byEnd_elem y Hy)). rewrite Forall_forall in Hhas.
    destruct (Hhas _ (lin_el_waits _ _ _ Hle)) as (here & Hh' & Hk). simpl in *. rewrite Hh in Hh'. injection Hh' as <-.
    unfold len in Hk. rewrite length_fmap, points_len, length_take in Hk. lia.
  - apply lookup_ge_None in Hh. destruct (points_at (at_ x) !! l) as [ps|] eqn:Hp; [|done].
    apply points_at_lookup in Hp as [Hp _]. lia.
Qed.

(** The scan ends, and its layout is the least spaced one. *)
Lemma ready_least t0 rest :
  times = t0 :: rest ->
  exists x lp, scan (els data) T t0 rest {[ Some t0 := 0%Qc ]} (replicate (lgid T) []) (byEnd bbox_width data) = Val (x, lp) /\
    (forall t, t ∈ times -> x !! Some t = Some (at_ x t)) /\ lp = (fun ps : list Qc => Some <$> ps) <$> points_at (at_ x) /\
    spaced (at_ x) (points_at (at_ x)) /\
    forall Y P, spaced Y P -> (forall t, t ∈ times -> (at_ x t <= Y t)%Qc) /\ Forall2 (Forall2 Qcle) (points_at (at_ x)) P.
Proof.
  intros E. assert (StronglySorted ends_before (byEnd bbox_width data)) as Hso.
  { unfold byEnd. apply StronglySorted_merge_sort; unfold ends_before; [intros a b c; apply Qcle_trans|].
    intros a b. destruct (Qclt_le_dec (ev_end a) (ev_end b)); auto using Qclt_le_weak. }
  destruct (scan_least (els data) T times (byEnd bbox_width data) times_sorted events_ready Hso t0 rest E)
    as (x & lp & Hs & Hpl & Hok & Hhas & Hf & Hleast).
  exists x, lp. split; [done|]. split; [intros t Ht; by apply at_placed, Hpl|].
  assert (forall t, t ∈ times -> (0 <= at_ x t)%Qc) as H0.
  { intros t [i Hi]%list_elem_of_lookup. pose proof (fe_zero _ _ _ _ _ Hf t0 ltac:(by rewrite E)) as Hz. destruct i as [|i].
    - rewrite E in Hi. injection Hi as <-. done.
    - pose proof (feasible_gap (at_ x) 0 (S i) t0 t Hf ltac:(lia) ltac:(by rewrite E) Hi). assert (0 <= BOX_GAP)%Qc by (by apply (lit_mono 0 20)). qc_lra. }
  pose proof (feasible_spaced (at_ x) Hf H0) as Hsp. split; [|split; [done|]].
  - by apply all_points.
  - intros Y P HS. pose proof (spaced_feasible Y P HS) as HY. split; [auto|].
    apply Forall2_same_length_lookup_2; [rewrite <- (Forall2_length _ _ _ (sp_shape _ _ HS)); unfold points_at; by rewrite length_fmap, length_seq|].
    intros l ps qs [Hl ->]%points_at_lookup Hqs. destruct (lookup_lt_is_Some_2 _ _ Hl) as [[p lin] Hpl'].
    pose proof (Forall2_lookup_lr _ _ _ _ _ _ (sp_shape _ _ HS) Hpl' Hqs) as Hlen. simpl in Hlen.
    apply Forall2_same_length_lookup_2; [by rewrite points_len, (lin_length _ _ _ Hpl')|]. intros k q r Hq Hr.
    destruct (spaced_points (at_ x) Y P l p lin qs k q HS ltac:(auto) Hpl' Hqs Hq) as (r' & Hr' & Hle). rewrite Hr in Hr'. by injection Hr' as ->.
Qed.

End Ready.

(** ** From the input *)

(** What the page can draw: operations end after they start, none starts at the very end, and what comes in a
    linearization started before whatever comes later, or not at all, ended. *)
Record drawable (input : list partitionVisualizationData) : Prop := {
  dr_order : forall d el, d ∈ input -> el ∈ History d -> Start el <= End_ el;
  dr_last : forall d el, d ∈ input -> el ∈ History d -> exists d' el', d' ∈ input /\ el' ∈ History d' /\ Start el < End_ el';
  dr_nonempty : forall d lin, d ∈ input -> lin ∈ PartialLinearizations d -> lin <> [];
  dr_nodup : forall d lin, d ∈ input -> lin ∈ PartialLinearizations d -> NoDup (Index <$> lin);
  dr_range : forall d lin, d ∈ input -> lin ∈ PartialLinearizations d -> Forall (fun id => 0 <= Index id < len (History d)) lin;
  dr_closed : forall d lin j id y i x, d ∈ input -> lin ∈ PartialLinearizations d -> lin !! j = Some id ->
    History d !! Z.to_nat (Index id) = Some y -> History d !! i = Some x -> Z.of_nat i ∉ Index <$> take j lin -> Start y <= End_ x }.

Lemma add_gids_elem n input p : p ∈ add_gids n input -> exists d m, d ∈ input /\ p = add_gids_to m d.
Proof.
  revert n. induction input as [|d input IH]; intros n; simpl; [by intros ?%elem_of_nil|].
  intros [->|(d' & m & Hd & ->)%IH]%elem_of_cons; [exists d, n; set_solver|exists d', m; set_solver].
Qed.

Lemma add_gids_elem' n input d : d ∈ input -> exists m, add_gids_to m d ∈ add_gids n input.
Proof.
  revert n. induction input as [|d' input IH]; intros n; simpl; [by intros ?%elem_of_nil|].
  intros [->|[m Hm]%(IH (n + length (History d'))%nat)]%elem_of_cons; [exists n|exists m]; set_solver.
Qed.

Lemma add_gids_to_lookup m d i el :
  Hist (add_gids_to m d) !! i = Some el <-> exists x, History d !! i = Some x /\
    el = mkEl (ClientId x) (lit (Start x)) (lit (End_ x)) (Description x) (m + i) None.
Proof. simpl. rewrite list_lookup_imap. destruct (History d !! i); simpl; naive_solver. Qed.

Lemma add_gids_gid n input g el : els (add_gids n input) !! g = Some el -> el_Gid el = (n + g)%nat.
Proof.
  revert n g. induction input as [|d input IH]; intros n g; simpl; [done|]. unfold els. rewrite fmap_cons. cbn [mjoin list_join].
  intros [Hl|[Hge Hl]]%lookup_app_Some.
  - apply add_gids_to_lookup in Hl as (x & _ & ->). done.
  - simpl in Hge, Hl. rewrite length_imap in Hge, Hl. rewrite (IH _ _ Hl). lia.
Qed.

Lemma add_gids_els n input el : el ∈ els (add_gids n input) -> exists d x, d ∈ input /\ x ∈ History d /\ el_Start el = lit (Start x) /\ el_End el = lit (End_ x).
Proof.
  intros (p & (d & m & Hd & ->)%add_gids_elem & [i Hi]%list_elem_of_lookup)%els_elem. apply add_gids_to_lookup in Hi as (x & Hx & ->).
  exists d, x. split_and!; try done. by eapply list_elem_of_lookup_2.
Qed.

Lemma drawable_not_last input :
  drawable input -> forall el, el ∈ els (add_gids 0 input) -> exists el', el' ∈ els (add_gids 0 input) /\ (el_Start el < el_End el')%Qc.
Proof.
  intros Hd el (d & x & Hin & Hx & -> & _)%add_gids_els. destruct (dr_last _ Hd d x Hin Hx) as (d' & x' & Hd' & Hx' & Hlt).
  destruct (add_gids_elem' 0 _ _ Hd') as [m Hm]. apply list_elem_of_lookup in Hx' as [i Hi].
  exists (mkEl (ClientId x') (lit (Start x')) (lit (End_ x')) (Description x') (m + i) None). split; [|by apply (lit_lt (Start x) (End_ x'))].
  apply els_elem. exists (add_gids_to m d'). split; [done|]. apply list_elem_of_lookup. exists i. apply add_gids_to_lookup. by exists x'.
Qed.

(** The elements of the data with the new ends *)
Lemma tweak_data_elem data p : p ∈ tweak_data data -> exists p0, p0 ∈ data /\ Partials p = Partials p0 /\
  Hist p = tweak (startTimestamps data) (nextTs (sort_numbers (allTimestamps data))) <$> Hist p0.
Proof. unfold tweak_data, map_els. intros (p0 & -> & Hp)%list_elem_of_fmap. by exists p0. Qed.

Lemma drawable_ready input : drawable input -> ready (tweak_data (add_gids 0 input)).
Proof.
  intros Hd. set (data0 := add_gids 0 input). pose proof (drawable_not_last input Hd) as Hnl. fold data0 in Hnl.
  assert (forall p lin, (p, lin) ∈ all_lins (tweak_data data0) -> exists m d, d ∈ input /\ lin ∈ PartialLinearizations d /\ add_gids_to m d ∈ data0 /\
    Hist p = tweak (startTimestamps data0) (nextTs (sort_numbers (allTimestamps data0))) <$> Hist (add_gids_to m d)) as Hlin.
  { intros p lin [Hp Hl]%all_lins_elem. destruct (tweak_data_elem _ _ Hp) as (p0 & Hp0 & Ep & Eh). rewrite Ep in Hl.
    destruct (add_gids_elem _ _ _ Hp0) as (d & m & Hin & ->). by exists m, d. }
  constructor.
  - constructor.
    + intros g el. rewrite els_tweaked, list_lookup_fmap. destruct (els data0 !! g) as [el0|] eqn:Hg; [|done]. intros [= <-].
      simpl. by rewrite (add_gids_gid _ _ _ _ Hg).
    + intros p lin (m & d & Hin & Hl & _ & Eh)%Hlin. unfold in_range. rewrite Eh. unfold len. rewrite length_fmap. simpl. rewrite length_imap.
      by apply (dr_range _ Hd d lin Hin Hl).
  - intros el. rewrite els_tweaked. intros (el0 & -> & Hel0)%list_elem_of_fmap. destruct (add_gids_els _ _ _ Hel0) as (d & x & Hin & Hx & Es & Ee).
    apply (proj2 (tweak_end data0 Hnl el0 Hel0) el0 Hel0). rewrite Es, Ee. apply (proj1 (lit_mono _ _)). by eapply dr_order.
  - intros p lin (m & d & Hin & Hl & _)%Hlin. by eapply dr_nonempty.
  - intros p lin (m & d & Hin & Hl & _)%Hlin. by eapply dr_nodup.
  - intros p lin j id y i x (m & d & Hin & Hl & Hp & ->)%Hlin Hj Hy Hx Hn. rewrite list_lookup_fmap in Hy, Hx.
    destruct (Hist (add_gids_to m d) !! Z.to_nat (Index id)) as [y0|] eqn:Hy0; [|done].
    destruct (Hist (add_gids_to m d) !! i) as [x0|] eqn:Hx0; [|done]. injection Hy as <-. injection Hx as <-.
    assert (y0 ∈ els data0 /\ x0 ∈ els data0) as [Hy1 Hx1].
    { split; apply els_elem; exists (add_gids_to m d); (split; [done|by eapply list_elem_of_lookup_2]). }
    change (el_Start (tweak _ _ y0)) with (el_Start y0). apply (proj2 (tweak_end data0 Hnl x0 Hx1) y0 Hy1).
    apply add_gids_to_lookup in Hy0 as (y' & Hy' & ->). apply add_gids_to_lookup in Hx0 as (x' & Hx' & ->). simpl. apply (proj1 (lit_mono _ _)).
    by eapply (dr_closed _ Hd d lin j id y' i x').
Qed.

(** What the layout of a drawable history is *)
Record laid_out (bbox_width : string -> Qc) (L : layout) (X : Qc -> Qc) : Prop := {
  lo_ready : ready (l_data L);
  lo_tables : tables_of (length (els (l_data L))) (all_lins (l_data L)) (l_tables L);
  lo_sorted : StronglySorted Qclt (l_sorted L);
  lo_starts : forall el, el ∈ els (l_data L) -> el_Start el ∈ l_sorted L;
  lo_ends : forall el, el ∈ els (l_data L) -> el_End el ∈ l_sorted L;
  lo_placed : forall t, t ∈ l_sorted L -> xPos L !! Some t = Some (X t);
  lo_points : linearizationPositions L = (fun ps : list Qc => Some <$> ps) <$> points_at (l_data L) (l_tables L) X;
  lo_spaced : spaced bbox_width (l_data L) (l_sorted L) X (points_at (l_data L) (l_tables L) X);
  lo_least : forall Y Q, spaced bbox_width (l_data L) (l_sorted L) Y Q ->
    (forall t, t ∈ l_sorted L -> (X t <= Y t)%Qc) /\ Forall2 (Forall2 Qcle) (points_at (l_data L) (l_tables L) X) Q }.

Lemma drawable_laid_out bbox_width input :
  drawable input -> (exists d, d ∈ input /\ History d <> []) ->
  exists L X, compute_layout bbox_width input = Val L /\ l_data L = tweak_data (add_gids 0 input) /\ laid_out bbox_width L X.
Proof.
  intros Hd (d & Hin & Hne). pose proof (drawable_ready input Hd) as Hr. unfold compute_layout.
  destruct (lin_tables_ok _ (rd_ok _ Hr)) as (T & -> & HT). cbn [mbind res_bind]. rewrite newArray_const.
  set (data0 := add_gids 0 input) in *. set (times := tweakedTimestamps data0).
  assert (StronglySorted Qclt times) as Hso by apply sort_numbers_sorted.
  assert (exists t0 rest, times = t0 :: rest) as (t0 & rest & E).
  { destruct (History d) as [|x h] eqn:Eh; [done|]. destruct (add_gids_elem' 0 _ _ Hin) as [m Hm].
    assert (lit (Start x) ∈ times) as Ht.
    { apply tweaked_times. left. exists (mkEl (ClientId x) (lit (Start x)) (lit (End_ x)) (Description x) (m + 0) None). split; [|by left].
      apply els_elem. exists (add_gids_to m d). split; [done|].
      apply list_elem_of_lookup. exists 0%nat. apply add_gids_to_lookup. exists x. by rewrite Eh. }
    destruct times as [|t0 rest]; [by apply elem_of_nil in Ht|by exists t0, rest]. }
  assert (forall el, el ∈ els (tweak_data data0) -> el_Start el ∈ times) as H1.
  { intros el. rewrite els_tweaked. intros (el0 & -> & Hel)%list_elem_of_fmap. apply tweaked_times. left. exists el0. auto. }
  assert (forall el, el ∈ els (tweak_data data0) -> el_End el ∈ times) as H2 by (intros el Hel; apply tweaked_times; right; by exists el).
  destruct (ready_least bbox_width (tweak_data data0) T times Hr HT H1 H2 Hso t0 rest E) as (x & lp & Hs & Hx & -> & Hsp & Hleast).
  fold times. rewrite E. simpl. rewrite Hs. simpl. eexists _, (at_ x). split; [done|]. simpl. rewrite <- E. by split.
Qed.

(** The page lays a history out, without a TypeError or a NaN, in the least way that meets the constraints the
    script lists: unequal timestamps are [BOX_GAP] apart, each box holds its text, each linearization point is in its
    box and [EPSILON] behind the one before it, and so is a point that may not come next; every other such layout has
    each timestamp and each point as far to the right or further. *)
Lemma layout_least bbox_width input :
  drawable input -> (exists d, d ∈ input /\ History d <> []) ->
  exists L X P, compute_layout bbox_width input = Val L /\
    (forall t, t ∈ l_sorted L -> xPos L !! Some t = Some (X t)) /\
    linearizationPositions L = (fun ps : list Qc => Some <$> ps) <$> P /\
    spaced bbox_width (l_data L) (l_sorted L) X P /\
    forall Y Q, spaced bbox_width (l_data L) (l_sorted L) Y Q ->
      (forall t, t ∈ l_sorted L -> (X t <= Y t)%Qc) /\ Forall2 (Forall2 Qcle) P Q.
Proof.
  intros Hd Hne. destruct (drawable_laid_out bbox_width input Hd Hne) as (L & X & HL & _ & []).
  exists L, X, (points_at (l_data L) (l_tables L) X). done.
Qed.

End VisOptimal.
