(* ===== verification/VisDraw.v ===== *)
(** * The drawing of the page (the script in porcupine/visualization.go)

    From the layout the script draws a box per operation and, per partial linearization, a line through each of its
    points, with the points that may not come next in red.  The picture is data here: the shapes of each SVG group
    with their coordinates.  Shown: every point is drawn in the box of its operation, where the layout had put
    it, and boxes overlap only if they are of one client and overlap in time. *)

From stdpp Require Import base list gmap strings numbers countable sorting.
From Stdlib Require Import ZArith Lia QArith Qcanon Lqa.
From S2P Require Import Prelude JsNum PorcModel PorcVis VisLayout VisScan VisOptimal.
Import PorcVis VisLayout VisScan VisOptimal.

Open Scope Z_scope.

Module VisDraw.

Definition PADDING : Qc := lit 10.
Definition BOX_HEIGHT : Qc := lit 30.
Definition BOX_SPACE : Qc := lit 15.
Definition XOFF : Qc := lit 20.
Definition LINE_BLEED : Qc := lit 5.

(** ** Shapes *)

Record rect := mkRect { r_x : num; r_y : num; r_width : num; r_height : num }.
Record line := mkLine { x1 : num; x2 : num; y1 : num; y2 : num; l_class : string }.
Record label := mkLabel { t_x : num; t_y : num; t_content : string }.

(** A point that may not come next: where it is, and in which linearization *)
Record errorPoint := mkPoint { ep_x : num; ep_partition : nat; ep_index : Z; ep_lin : nat }.

Section Draw.
Variable x : xmap.

Definition row_y (client : Z) : Qc := (PADDING + lit client * (BOX_HEIGHT + BOX_SPACE))%Qc.

(** ** The history *)

(** The box of an element; the target of the mouse has the same coordinates. *)
Definition box (el : element) : rect :=
  let rx := x !! Some (el_Start el) in
  mkRect (nadd rx (Some (XOFF + PADDING)%Qc)) (Some (row_y (el_ClientId el))) (nsub (x !! Some (el_End el)) rx) (Some BOX_HEIGHT).

Definition box_text (el : element) : label :=
  let b := box el in mkLabel (nadd (r_x b) (nhalf (r_width b))) (nadd (r_y b) (Some (half BOX_HEIGHT))) (el_Description el).

Definition history_layer (p : partition) : list (rect * label) := (fun el => (box el, box_text el)) <$> Hist p.

(** Targets with their data-partition and data-index *)
Definition target_rects (data : list partition) : list (rect * nat * nat) :=
  mjoin (imap (fun d p => imap (fun i el => (box el, d, i)) (Hist p)) data).

(** ** Partial linearizations *)

(** The point before: its place and its element *)
Definition cursor : Type := option (num * Qc * element).

Definition hereX (el : element) : num := nadd (Some (PADDING + XOFF)%Qc) (x !! Some (el_Start el)).

Definition point_x (prev : cursor) (el : element) : num :=
  match prev with Some (prevX, _, _) => nmax (hereX el) (nadd prevX (Some EPSILON)) | None => hereX el end.

Definition point_y (el : element) : Qc := (row_y (el_ClientId el) - LINE_BLEED)%Qc.

(** The line from the point before, and the line of the point *)
Definition link (cls : string) (prevX : num) (prevY : Qc) (prevEl el : element) : line :=
  let down y := (y + BOX_HEIGHT + lit 2 * LINE_BLEED)%Qc in
  mkLine prevX (point_x (Some (prevX, prevY, prevEl)) el)
    (Some (if el_ClientId el <=? el_ClientId prevEl then prevY else down prevY))
    (Some (if el_ClientId prevEl <=? el_ClientId el then point_y el else down (point_y el))) cls.

Definition point_line (cls : string) (px : num) (el : element) : line :=
  mkLine px px (Some (point_y el)) (Some (point_y el + BOX_HEIGHT + lit 2 * LINE_BLEED)%Qc) cls.

Fixpoint draw_points (p : partition) (lin : list linearizationStep) (prev : cursor) : res (list line * cursor) :=
  match lin with
  | [] => mret ([], prev)
  | id :: rest =>
      el ← js_get (Hist p) (Index id);
      let px := point_x prev el in
      let before := match prev with
                    | Some (prevX, prevY, prevEl) => [link "linearization linearization-line" prevX prevY prevEl el]
                    | None => [] end in
      '(ls, c) ← draw_points p rest (Some (px, point_y el, el));
      mret (before ++ point_line "linearization linearization-point" px el :: ls, c)
  end.

(** The points that may not come next; reading the client of no point before is a TypeError. *)
Definition draw_next (prev : cursor) (el : element) : res (num * list line) :=
  '(prevX, prevY, prevEl) ← of_option (EPanic "TypeError") prev;
  let px := point_x prev el in
  mret (px, [link "linearization-invalid linearization-line" prevX prevY prevEl el;
             point_line "linearization-invalid linearization-point" px el]).

(** What the script keeps about one partition *)
Record marks := mkMarks {
  m_layers : list (list line);         (* partialLayers *)
  illegalLast : list (gset Z);
  largestIllegal : gmap Z Z;
  largestIllegalLength : gmap Z Z;
  m_points : list errorPoint }.

Fixpoint draw_nexts (d : nat) (linIndex : nat) (lin : list linearizationStep) (prev : cursor) (ns : list (nat * element))
    (M : marks) : res (list line * marks) :=
  match ns with
  | [] => mret ([], M)
  | (index, el) :: rest =>
      '(px, ls) ← draw_next prev el;
      final ← of_option (EPanic "TypeError") (last lin);
      let i := Z.of_nat index in
      let larger := match largestIllegalLength M !! i with Some n => n <? len lin | None => true end in
      let M' := mkMarks (m_layers M) (alter (fun s => {[ i ]} ∪ s) linIndex (illegalLast M))
                  (if larger then <[i := Z.of_nat linIndex]> (largestIllegal M) else largestIllegal M)
                  (if larger then <[i := len lin]> (largestIllegalLength M) else largestIllegalLength M)
                  (m_points M ++ [mkPoint px d (Index final) linIndex]) in
      '(ls', M'') ← draw_nexts d linIndex lin prev rest M';
      mret (ls ++ ls', M'')
  end.

Definition draw_lin (d : nat) (p : partition) (linIndex : nat) (M : marks) (lin : list linearizationStep) : res marks :=
  '(ls, c) ← draw_points p lin None;
  '(ls', M') ← draw_nexts d linIndex lin c (possible_next (included lin) (Hist p)) M;
  mret (mkMarks (m_layers M' ++ [ls ++ ls']) (illegalLast M') (largestIllegal M') (largestIllegalLength M') (m_points M')).

Fixpoint draw_lins (d : nat) (p : partition) (linIndex : nat) (lins : list (list linearizationStep)) (M : marks) : res marks :=
  match lins with
  | [] => mret M
  | lin :: rest => M' ← draw_lin d p linIndex M lin; draw_lins d p (S linIndex) rest M'
  end.

Definition draw_partition (d : nat) (p : partition) : res marks :=
  draw_lins d p 0 (Partials p) (mkMarks [] (replicate (length (Partials p)) ∅) ∅ ∅ []).

End Draw.

(** ** The page *)

Definition point_before (a b : errorPoint) : Prop :=
  match ep_x a, ep_x b with Some p, Some q => (p <= q)%Qc | _, _ => True end.

#[export] Instance point_before_dec : RelDecision point_before.
Proof. intros a b. unfold point_before. destruct (ep_x a), (ep_x b); apply _. Defined.

Record page := mkPage {
  pg_data : list partition;
  pg_width : num;
  pg_height : Qc;
  pg_clients : list label;             (* the clients' numbers on the left *)
  pg_divider : line;
  historyLayers : list (list (rect * label));
  targetRects : list (rect * nat * nat);
  pg_marks : list marks;
  errorPoints : list errorPoint }.

Section Render.
Variable bbox_width : string -> Qc.
Variable client_text : Z -> string.

Definition svg_height (n : Z) : Qc := (lit 2 * PADDING + BOX_HEIGHT * lit n + BOX_SPACE * lit (n - 1))%Qc.

Definition svg_width (L : layout) : num :=
  nadd (Some (lit 2 * PADDING + XOFF)%Qc) (xPos L !! last (l_sorted L)).

Definition client_label (i : Z) : label :=
  mkLabel (Some (half XOFF)) (Some (PADDING + half BOX_HEIGHT + lit i * (BOX_HEIGHT + BOX_SPACE))%Qc) (client_text i).

Definition divider (h : Qc) : line :=
  mkLine (Some (PADDING + XOFF)%Qc) (Some (PADDING + XOFF)%Qc) (Some PADDING) (Some (h - PADDING)%Qc) "divider".

(** [render], up to the handlers *)
Definition render (input : list partitionVisualizationData) : res page :=
  let n := nClient (add_gids 0 input) in
  L ← compute_layout bbox_width input;
  let data := l_data L in
  ms ← mapM (fun '(d, p) => draw_partition (xPos L) d p) (imap pair data);
  mret (mkPage data (svg_width L) (svg_height n) (client_label <$> seqZ 0 n) (divider (svg_height n))
    (history_layer (xPos L) <$> data) (target_rects (xPos L) data) ms
    (merge_sort point_before (mjoin (m_points <$> ms)))).

End Render.

(** ** What is drawn *)

Definition valid_point (l : line) : Prop := l_class l = "linearization linearization-point".
Definition invalid_point (l : line) : Prop := l_class l = "linearization-invalid linearization-point".

#[export] Instance valid_point_dec l : Decision (valid_point l).
Proof. unfold valid_point. apply _. Defined.
#[export] Instance invalid_point_dec l : Decision (invalid_point l).
Proof. unfold invalid_point. apply _. Defined.

(** A vertical line through the box *)
Definition crosses (b : rect) (l : line) : Prop :=
  exists bx by_ w h lx : Qc, b = mkRect (Some bx) (Some by_) (Some w) (Some h) /\ x1 l = Some lx /\ x2 l = Some lx /\
    (bx <= lx)%Qc /\ (lx <= bx + w)%Qc /\ y1 l = Some (by_ - LINE_BLEED)%Qc /\ y2 l = Some (by_ + h + LINE_BLEED)%Qc.

Definition off : Qc := (PADDING + XOFF)%Qc.

Section Drawn.
Variables (bbox_width : string -> Qc) (L : layout) (X : Qc -> Qc).
Hypothesis HL : laid_out bbox_width L X.
Notation x := (xPos L).
Notation data := (l_data L).

Lemma start_placed el : el ∈ els data -> x !! Some (el_Start el) = Some (X (el_Start el)).
Proof. intros Hel. by apply HL, HL. Qed.

Lemma end_placed el : el ∈ els data -> x !! Some (el_End el) = Some (X (el_End el)).
Proof. intros Hel. apply (lo_placed _ _ _ HL), (lo_ends _ _ _ HL), Hel. Qed.

Lemma box_of el : el ∈ els data ->
  box x el = mkRect (Some (off + X (el_Start el))%Qc) (Some (row_y (el_ClientId el))) (Some (X (el_End el) - X (el_Start el))%Qc) (Some BOX_HEIGHT).
Proof.
  intros Hel. unfold box. rewrite (start_placed el Hel), (end_placed el Hel). simpl. f_equal. f_equal. unfold off. qc_lra.
Qed.

(** A point between the ends of its element *)
Lemma point_crosses cls el q :
  el ∈ els data -> (X (el_Start el) <= q)%Qc -> (q <= X (el_End el))%Qc -> crosses (box x el) (point_line cls (Some (off + q)%Qc) el).
Proof.
  intros Hel H1 H2. rewrite (box_of el Hel). eexists _, _, _, _, _. split; [done|]. unfold point_line, point_y. simpl.
  split_and!; [done|done|qc_lra|qc_lra|done|]. f_equal. generalize (row_y (el_ClientId el)). intros y. unfold LINE_BLEED, BOX_HEIGHT, lit. qc_lra.
Qed.

Lemma link_not_point cls prevX prevY prevEl el :
  cls = "linearization linearization-line" \/ cls = "linearization-invalid linearization-line" ->
  ~ valid_point (link x cls prevX prevY prevEl el) /\ ~ invalid_point (link x cls prevX prevY prevEl el).
Proof. unfold valid_point, invalid_point. simpl. intros [-> | ->]; split; done. Qed.

(** The cursor behind a point of the layout *)
Definition cursor_at (c : cursor) (q : option Qc) : Prop :=
  match c, q with None, None => True | Some (px, _, _), Some q => px = Some (off + q)%Qc | _, _ => False end.

Lemma point_x_at c q el : cursor_at c q -> el ∈ els data ->
  point_x x c el = Some (off + match q with None => X (el_Start el) | Some q => Qcmax (X (el_Start el)) (q + EPSILON)%Qc end)%Qc.
Proof.
  intros Hc Hel. unfold point_x, hereX. rewrite (start_placed el Hel). fold off. destruct c as [[[px py] pe]|], q as [q|]; try done.
  simpl in Hc. subst px. simpl. f_equal. rewrite Qcmax_plus. f_equal. qc_lra.
Qed.

(** The script draws the points where the scan has put them. *)
Lemma draw_points_at p lin c q elems :
  Forall2 (fun id el => js_get (Hist p) (Index id) = Val el) lin elems -> Forall (fun el => el ∈ els data) elems -> cursor_at c q ->
  exists ls c', draw_points x p lin c = Val (ls, c') /\
    filter valid_point ls = zip_with (fun q el => point_line "linearization linearization-point" (Some (off + q)%Qc) el)
      (points_from X q (el_Start <$> elems)) elems /\
    filter invalid_point ls = [] /\
    cursor_at c' (match last (points_from X q (el_Start <$> elems)) with Some q' => Some q' | None => q end).
Proof.
  intros HF. revert c q. induction HF as [|id el lin elems Hid HF IH]; intros c q Hin Hc; simpl.
  { exists [], c. done. }
  apply Forall_cons in Hin as [Hel Hin]. rewrite Hid. simpl. rewrite (point_x_at c q el Hc Hel).
  set (q' := match q with None => _ | Some _ => _ end).
  destruct (IH (Some (Some (off + q')%Qc, point_y el, el)) (Some q') Hin eq_refl) as (ls & c' & -> & Hv & Hi & Hc'). simpl.
  eexists _, c'. split; [done|].
  assert (forall P (dec : forall l, Decision (P l)), (forall a b y e, ~ P (link x "linearization linearization-line" a b y e)) ->
    filter P (match c with Some (prevX, prevY, prevEl) => [link x "linearization linearization-line" prevX prevY prevEl el] | None => [] end) = []) as Hno.
  { intros P dec Hn. destruct c as [[[a b] y]|]; [|done]. by rewrite filter_cons_False by apply Hn. }
  split_and!.
  - rewrite filter_app, Hno, filter_cons_True by (done || (intros; apply link_not_point; auto)). by rewrite Hv.
  - rewrite filter_app, Hno, filter_cons_False by (done || (intros; apply link_not_point; auto)). by rewrite Hi.
  - change (list_fmap element Qc el_Start elems) with (el_Start <$> elems).
    destruct (points_from X (Some q') (el_Start <$> elems)) as [|r rs]; [exact Hc'|].
    change (last (q' :: r :: rs)) with (last (r :: rs)). destruct (last (r :: rs)) eqn:El; [exact Hc'|by apply last_None in El].
Qed.

Definition ids_of (ns : list (nat * element)) : list Z := (fun n => Z.of_nat n.1) <$> ns.

(** What the points that may not come next add to the marks *)
Record next_marks (d k : nat) (final : linearizationStep) (ns : list (nat * element)) (M M' : marks) : Prop := {
  nm_layers : m_layers M' = m_layers M;
  nm_last : illegalLast M' = alter (fun s => list_to_set (ids_of ns) ∪ s) k (illegalLast M);
  nm_largest : forall i v, largestIllegal M' !! i = Some v -> largestIllegal M !! i = Some v \/ (v = Z.of_nat k /\ i ∈ ids_of ns);
  nm_some : forall i, is_Some (largestIllegal M !! i) \/ i ∈ ids_of ns -> is_Some (largestIllegal M' !! i);
  nm_len : forall i, is_Some (largestIllegal M' !! i) <-> is_Some (largestIllegalLength M' !! i);
  nm_points : forall e, e ∈ m_points M' -> e ∈ m_points M \/ exists px, e = mkPoint (Some px) d (Index final) k }.

Lemma draw_nexts_ok d k lin c q final ns M :
  cursor_at c (Some q) -> last lin = Some final -> Forall (fun n => n.2 ∈ els data) ns ->
  (forall i, is_Some (largestIllegal M !! i) <-> is_Some (largestIllegalLength M !! i)) ->
  exists ls M', draw_nexts x d k lin c ns M = Val (ls, M') /\
    filter invalid_point ls = (fun n => point_line "linearization-invalid linearization-point"
      (Some (off + Qcmax (X (el_Start n.2)) (q + EPSILON))%Qc) n.2) <$> ns /\
    filter valid_point ls = [] /\ next_marks d k final ns M M'.
Proof.
  intros Hc Hf. revert M. induction ns as [|[i el] ns IH]; intros M Hin Hlen; cbn [draw_nexts].
  { exists [], M. split_and!; [done..|]. constructor; [done| |auto| |done|auto].
    - simpl. symmetry. apply list_alter_id. set_solver.
    - intros i [?|Hi]; [done|]. by apply elem_of_nil in Hi. }
  apply Forall_cons in Hin as [Hel Hin]. simpl in Hel. unfold draw_next. destruct c as [[[px py] pe]|]; [|done].
  rewrite Hf. cbn [of_option mbind res_bind mret res_ret app]. set (larger := match largestIllegalLength M !! Z.of_nat i with Some n => n <? len lin | None => true end).
  set (M1 := mkMarks _ _ _ _ _).
  assert (forall j, largestIllegal M1 !! j = if decide (j = Z.of_nat i /\ larger = true) then Some (Z.of_nat k) else largestIllegal M !! j) as Hl1.
  { intros j. simpl. destruct larger; case_decide as Hd; [|rewrite lookup_insert_ne; [done|naive_solver]|naive_solver|done].
    destruct Hd as [-> _]. by rewrite lookup_insert_eq. }
  assert (is_Some (largestIllegal M1 !! Z.of_nat i)) as Hsome.
  { rewrite Hl1. destruct (decide _) as [|Hd]; [by eexists|]. apply Hlen. unfold larger in Hd. destruct (largestIllegalLength M !! Z.of_nat i); [by eexists|]. exfalso. by apply Hd. }
  assert (forall j, is_Some (largestIllegal M !! j) -> is_Some (largestIllegal M1 !! j)) as Hmono.
  { intros j Hj. rewrite Hl1. destruct (decide _); [by eexists|done]. }
  destruct (IH M1 Hin) as (ls & M' & -> & Hi & Hv & [N1 N2 N3 N4 N5 N6]).
  { intros j. simpl. destruct larger; [|apply Hlen]. destruct (decide (j = Z.of_nat i)) as [->|Hne].
    - rewrite !lookup_insert_eq. naive_solver.
    - rewrite !lookup_insert_ne by done. apply Hlen. }
  cbn [mbind res_bind mret res_ret app]. rewrite (point_x_at _ (Some q) el Hc Hel). eexists _, M'. split; [done|]. split_and!.
  - rewrite filter_cons_False by (apply link_not_point; auto). rewrite filter_cons_True by done. by rewrite Hi.
  - rewrite filter_cons_False by (apply link_not_point; auto). by rewrite filter_cons_False by done.
  - constructor; [by rewrite N1| | | |done|].
    + rewrite N2. simpl. rewrite list_alter_alter_eq. apply list_alter_ext; [|done]. intros s _. simpl. set_solver.
    + intros j v Hj. destruct (N3 j v Hj) as [Hj'|[-> Hj']]; [|right; split; [done|]; simpl; set_solver]. rewrite Hl1 in Hj'.
      case_decide as Hd; [|by left]. injection Hj' as <-. right. destruct Hd as [-> _]. split; [done|]. simpl. set_solver.
    + intros j [Hj|Hj]; apply N4; [left; auto|]. simpl in Hj. apply elem_of_cons in Hj as [->|Hj]; [left; done|by right].
    + intros e He. destruct (N6 e He) as [He'|?]; [|by right]. simpl in He'. apply elem_of_app in He' as [?|He'%list_elem_of_singleton]; [by left|].
      right. subst e. eexists. f_equal. exact (point_x_at _ (Some q) el Hc Hel).
Qed.

(** ** One linearization *)

Record drawn_lin (p : partition) (lin : list linearizationStep) (ls : list line) : Prop := {
  dl_valid : Forall2 (fun id l => exists el, Hist p !! Z.to_nat (Index id) = Some el /\ crosses (box x el) l) lin (filter valid_point ls);
  dl_apart : forall k la lb a b, filter valid_point ls !! k = Some la -> filter valid_point ls !! S k = Some lb ->
    x1 la = Some a -> x1 lb = Some b -> (a + EPSILON <= b)%Qc;
  dl_invalid : Forall2 (fun n l => crosses (box x n.2) l) (possible_next (included lin) (Hist p)) (filter invalid_point ls) }.

Lemma lin_elems p lin l :
  all_lins data !! l = Some (p, lin) ->
  exists elems, Forall2 (fun id el => js_get (Hist p) (Index id) = Val el) lin elems /\ Forall (fun el => el ∈ els data) elems /\
    (forall k el, elems !! k = Some el -> lin_el data l k el) /\ el_Start <$> elems = starts_of (els data) (l_tables L) l.
Proof.
  intros Hl. pose proof (lo_ready _ _ _ HL) as Hr. pose proof (lo_tables _ _ _ HL) as HT. pose proof (list_elem_of_lookup_2 _ _ _ Hl) as Hin.
  assert (exists elems, Forall2 (fun id el => js_get (Hist p) (Index id) = Val el) lin elems) as [elems HF].
  { pose proof (do_range _ (rd_ok _ Hr) _ _ Hin) as Hrg. clear Hl Hin. induction Hrg as [|id lin Hid _ [elems IH]]; [by exists []|].
    destruct (in_range_get p id Hid) as (el & Hel & _). exists (el :: elems). by constructor. }
  assert (forall k el, elems !! k = Some el -> lin_el data l k el) as Hle.
  { intros k el Hk. destruct (Forall2_lookup_r _ _ _ _ _ HF Hk) as (id & Hid & [_ Hg]%js_get_val). by exists p, lin, id. }
  exists elems. split_and!; [done| |done|].
  - apply Forall_forall. intros el [k Hk]%list_elem_of_lookup. by eapply lin_el_in, Hle.
  - apply list_eq. intros k. rewrite list_lookup_fmap. destruct (elems !! k) as [el|] eqn:Hk; simpl.
    + symmetry. by eapply lin_el_start, Hle.
    + symmetry. apply lookup_ge_None_2. rewrite (lin_length data (l_tables L) HT l p lin Hl), (Forall2_length _ _ _ HF). by apply lookup_ge_None.
Qed.

Lemma next_in p lin l n : all_lins data !! l = Some (p, lin) -> n ∈ possible_next (included lin) (Hist p) -> n.2 ∈ els data.
Proof.
  destruct n as [i el]. intros Hl [Hi _]%possible_next_elem. apply els_elem. exists p. simpl.
  split; [apply list_elem_of_lookup_2, all_lins_elem in Hl; tauto|by eapply list_elem_of_lookup_2].
Qed.

Lemma draw_lin_ok d p lin l k M :
  all_lins data !! l = Some (p, lin) ->
  (forall i, is_Some (largestIllegal M !! i) <-> is_Some (largestIllegalLength M !! i)) ->
  exists M1 ls final, draw_lin x d p k M lin = Val (mkMarks (m_layers M ++ [ls]) (illegalLast M1) (largestIllegal M1) (largestIllegalLength M1) (m_points M1)) /\
    last lin = Some final /\ drawn_lin p lin ls /\ next_marks d k final (possible_next (included lin) (Hist p)) M M1.
Proof.
  intros Hl Hlen. destruct (lin_elems p lin l Hl) as (elems & HF & Hin & Hle & Est). pose proof (lo_spaced _ _ _ HL) as Hsp.
  assert (points_at data (l_tables L) X !! l = Some (points X (starts_of (els data) (l_tables L) l))) as HP.
  { apply points_at_lookup. split; [by eapply lookup_lt_Some|done]. }
  pose proof (rd_nonempty _ (lo_ready _ _ _ HL) _ _ (list_elem_of_lookup_2 _ _ _ Hl)) as Hne.
  unfold draw_lin. destruct (draw_points_at p lin None None elems HF Hin I) as (ls & c & -> & Hv & Hi & Hc). cbn [mbind res_bind].
  rewrite Est in Hv, Hc. fold (points X (starts_of (els data) (l_tables L) l)) in Hv, Hc. set (pts := points X _) in *.
  assert (length pts = length lin) as Hpl by (unfold pts; rewrite points_len, <- Est, length_fmap; by rewrite (Forall2_length _ _ _ HF)).
  destruct (last pts) as [q|] eqn:Hq; [|apply last_None in Hq; rewrite Hq in Hpl; by destruct lin].
  destruct (last lin) as [final|] eqn:Hf; [|by apply last_None in Hf].
  destruct (draw_nexts_ok d k lin c q final (possible_next (included lin) (Hist p)) M Hc Hf) as (ls' & M1 & -> & Hi' & Hv' & Hm); [|done|].
  { apply Forall_forall. intros n Hn. by eapply next_in. }
  cbn [mbind res_bind mret res_ret]. exists M1, (ls ++ ls'), final. rewrite (nm_layers _ _ _ _ _ _ Hm). split_and!; [done|done| |done].
  assert (forall j l0, filter valid_point ls !! j = Some l0 -> exists r el, pts !! j = Some r /\ elems !! j = Some el /\
            l0 = point_line "linearization linearization-point" (Some (off + r)%Qc) el) as Hpt.
  { intros j l0. rewrite Hv. intros (r & el & -> & ? & ?)%lookup_zip_with_Some. by exists r, el. }
  constructor; rewrite filter_app, ?Hv', ?Hi, ?app_nil_r.
  - apply Forall2_same_length_lookup_2.
    + rewrite Hv, length_zip_with, Hpl, (Forall2_length _ _ _ HF). lia.
    + intros j id l0 Hid Hl0. destruct (Hpt j l0 Hl0) as (r & el & Hr & Hel & ->). exists el.
      pose proof (Forall2_lookup_lr _ _ _ _ _ _ HF Hid Hel) as [_ Hg]%js_get_val. split; [done|].
      destruct (sp_point _ _ _ _ _ Hsp l j el pts r (Hle j el Hel) HP Hr) as [H1 H2]. apply point_crosses; [|done|done].
      rewrite Forall_forall in Hin. apply Hin. by eapply list_elem_of_lookup_2.
  - intros j la lb a b Ha Hb. destruct (Hpt j la Ha) as (r & el & Hr & _ & ->). destruct (Hpt (S j) lb Hb) as (r' & el' & Hr' & _ & ->).
    simpl. intros [= <-] [= <-]. pose proof (sp_dist _ _ _ _ _ Hsp l j pts r r' HP Hr Hr'). qc_lra.
  - rewrite app_nil_l, Hi'. apply Forall2_fmap_r, Forall_Forall2_diag, Forall_forall. intros [i el] Hn. simpl.
    pose proof (next_in p lin l (i, el) Hl Hn) as Hel. simpl in Hel. apply point_crosses; [done|apply Qcmax_spec|]. apply Qcmax_lub.
    + pose proof (sp_gap _ _ _ _ _ Hsp (el_Start el) (el_End el) (lo_starts _ _ _ HL _ Hel) (lo_ends _ _ _ HL _ Hel) (rd_order _ (lo_ready _ _ _ HL) _ Hel)).
      assert (0 <= BOX_GAP)%Qc by (by apply (lit_mono 0 20)). qc_lra.
    + by eapply (sp_next _ _ _ _ _ Hsp l p lin pts q i el).
Qed.

(** ** One partition *)

Definition next_ids (p : partition) (lin : list linearizationStep) : gset Z := list_to_set (ids_of (possible_next (included lin) (Hist p))).

(** The marks after the linearizations [lins] of partition [d] *)
Record marks_ok (d : nat) (p : partition) (lins : list (list linearizationStep)) (M : marks) : Prop := {
  mo_layers : Forall2 (drawn_lin p) lins (m_layers M);
  mo_last : illegalLast M = (next_ids p <$> lins) ++ replicate (length (Partials p) - length lins) ∅;
  mo_largest : forall i v, largestIllegal M !! i = Some v -> exists k lin, v = Z.of_nat k /\ lins !! k = Some lin /\ i ∈ next_ids p lin;
  mo_some : forall lin i, lin ∈ lins -> i ∈ next_ids p lin -> is_Some (largestIllegal M !! i);
  mo_len : forall i, is_Some (largestIllegal M !! i) <-> is_Some (largestIllegalLength M !! i);
  mo_points : forall e, e ∈ m_points M -> exists px k lin final, e = mkPoint (Some px) d (Index final) k /\ lins !! k = Some lin /\ last lin = Some final }.

Lemma draw_lin_marks d p lins lin l M :
  all_lins data !! l = Some (p, lin) -> marks_ok d p lins M -> (length lins < length (Partials p))%nat ->
  exists M', draw_lin x d p (length lins) M lin = Val M' /\ marks_ok d p (lins ++ [lin]) M'.
Proof.
  intros Hl [H1 H2 H3 H4 H5 H6] Hlt. destruct (draw_lin_ok d p lin l (length lins) M Hl H5) as (M1 & ls & final & -> & Hf & Hd & [N1 N2 N3 N4 N5 N6]).
  eexists. split; [done|]. assert (forall i, i ∈ ids_of (possible_next (included lin) (Hist p)) <-> i ∈ next_ids p lin) as Hids
    by (intros i; unfold next_ids; by rewrite elem_of_list_to_set).
  constructor; simpl.
  - apply Forall2_app; [done|]. apply Forall2_cons; split; [done|apply Forall2_nil_2].
  - rewrite N2, H2, fmap_app, <- app_assoc, length_app. simpl.
    destruct (length (Partials p) - length lins)%nat as [|r] eqn:Er; [lia|]. simpl. fold (next_ids p lin).
    rewrite <- (Nat.add_0_r (length lins)), <- (length_fmap (next_ids p) lins) at 1. rewrite alter_app_r. simpl.
    replace (length (Partials p) - (length lins + 1))%nat with r by lia. f_equal. f_equal. set_solver.
  - intros i v Hv. destruct (N3 i v Hv) as [Hv'|[-> Hi%Hids]].
    + destruct (H3 i v Hv') as (k & lin' & -> & Hk & Hi). exists k, lin'. split_and!; [done| |done]. by apply lookup_app_l_Some.
    + exists (length lins), lin. split_and!; [done| |done]. by rewrite lookup_app_r, Nat.sub_diag.
  - intros lin' i [Hin|Hin%list_elem_of_singleton]%elem_of_app Hi; apply N4; [left; by eapply H4|right; apply Hids; congruence].
  - done.
  - intros e He. destruct (N6 e He) as [He'|[px ->]].
    + destruct (H6 e He') as (px & k & lin' & f' & -> & Hk & Hf'). exists px, k, lin', f'. split_and!; [done| |done]. by apply lookup_app_l_Some.
    + exists px, (length lins), lin, final. split_and!; [done| |done]. by rewrite lookup_app_r, Nat.sub_diag.
Qed.

Lemma draw_partition_ok d p : p ∈ data -> exists M, draw_partition x d p = Val M /\ marks_ok d p (Partials p) M.
Proof.
  intros Hp. unfold draw_partition.
  assert (forall rest lins M, Partials p = lins ++ rest -> marks_ok d p lins M ->
            exists M', draw_lins x d p (length lins) rest M = Val M' /\ marks_ok d p (Partials p) M') as Hall.
  { intros rest. induction rest as [|lin rest IH]; intros lins M E HM; simpl; [exists M; by rewrite E, app_nil_r|].
    assert ((p, lin) ∈ all_lins data) as [l Hl]%list_elem_of_lookup by (apply all_lins_elem; rewrite E; set_solver).
    destruct (draw_lin_marks d p lins lin l M Hl HM) as (M1 & -> & HM1); [rewrite E, length_app; simpl; lia|]. simpl.
    replace (S (length lins)) with (length (lins ++ [lin])) by (rewrite length_app; simpl; lia). apply IH; [by rewrite <- app_assoc|done]. }
  apply (Hall (Partials p) [] _ eq_refl). constructor; simpl; try done.
  - by rewrite Nat.sub_0_r.
  - intros lin i Hin%elem_of_nil. done.
  - intros e He%elem_of_nil. done.
Qed.

End Drawn.

(** ** The whole page *)

Definition right_of (b : rect) : num := nadd (r_x b) (r_width b).

Section Page.
Variables (bbox_width : string -> Qc) (client_text : Z -> string).

(** Points by increasing place *)
Definition left_of (a b : errorPoint) : Prop := exists p q, ep_x a = Some p /\ ep_x b = Some q /\ (p <= q)%Qc.

(** The page drawn from data *)
Record drawn (input : list partitionVisualizationData) (L : layout) (pg : page) : Prop := {
  dn_data : pg_data pg = tweak_data (add_gids 0 input);
  dn_layers : historyLayers pg = history_layer (xPos L) <$> pg_data pg;
  dn_targets : targetRects pg = target_rects (xPos L) (pg_data pg);
  dn_marks : forall d p, pg_data pg !! d = Some p -> exists M, pg_marks pg !! d = Some M /\ marks_ok L d p (Partials p) M;
  dn_len : length (pg_marks pg) = length (pg_data pg);
  dn_points : errorPoints pg ≡ₚ mjoin (m_points <$> pg_marks pg);
  dn_sorted : StronglySorted left_of (errorPoints pg) }.

Lemma points_sorted l : (forall e, e ∈ merge_sort point_before l -> is_Some (ep_x e)) -> StronglySorted left_of (merge_sort point_before l).
Proof.
  intros Hpx. apply Sorted_StronglySorted.
  { intros a b c (p & q & Ha & Hb & Hpq) (q' & r & Hb' & Hc & Hqr). exists p, r. split_and!; [done|done|]. rewrite Hb in Hb'. injection Hb' as <-. by etransitivity. }
  assert (Sorted point_before (merge_sort point_before l)) as Hs.
  { apply Sorted_merge_sort. intros a b. unfold point_before. destruct (ep_x a), (ep_x b); auto. apply (total Qcle). }
  induction Hs as [|a k Hs IH Hhd]; [constructor|]. constructor; [apply IH; set_solver|].
  destruct Hhd as [|b k Hab]; constructor. destruct (Hpx a) as [p Hp]; [set_solver|]. destruct (Hpx b) as [q Hq]; [set_solver|].
  unfold point_before in Hab. rewrite Hp, Hq in Hab. by exists p, q.
Qed.

(** A drawable history is drawn. *)
Lemma render_drawn input :
  drawable input -> (exists d, d ∈ input /\ History d <> []) ->
  exists L X pg, render bbox_width client_text input = Val pg /\ laid_out bbox_width L X /\ l_data L = pg_data pg /\ drawn input L pg.
Proof.
  intros Hd Hne. destruct (drawable_laid_out bbox_width input Hd Hne) as (L & X & HL & Ed & Hlo). unfold render. rewrite HL. cbn [mbind res_bind].
  destruct (mapM_val (fun '(d, p) => draw_partition (xPos L) d p) (imap pair (l_data L))) as (ms & -> & HF).
  { intros [d p] [i Hi]%list_elem_of_lookup. rewrite list_lookup_imap in Hi. destruct (l_data L !! i) as [p'|] eqn:Hp; [|done].
    injection Hi as <- <-. destruct (draw_partition_ok bbox_width L X Hlo i p') as (M & HM & _); [by eapply list_elem_of_lookup_2|by exists M]. }
  simpl. eexists L, X, _. split; [done|]. split; [done|]. split; [done|].
  assert (forall d p, l_data L !! d = Some p -> exists M, ms !! d = Some M /\ marks_ok L d p (Partials p) M) as Hm.
  { intros d p Hp. assert (imap pair (l_data L) !! d = Some (d, p)) as Hi by (by rewrite list_lookup_imap, Hp).
    destruct (Forall2_lookup_l _ _ _ _ _ HF Hi) as (M & HM & E). exists M. split; [done|].
    destruct (draw_partition_ok bbox_width L X Hlo d p) as (M' & E' & HM'); [by eapply list_elem_of_lookup_2|]. rewrite E in E'. by injection E' as ->. }
  assert (length ms = length (l_data L)) as Hlen by (by rewrite <- (Forall2_length _ _ _ HF), length_imap).
  assert (forall e, e ∈ mjoin (m_points <$> ms) -> is_Some (ep_x e)) as Hpx.
  { intros e (es & He & (M & -> & [d HM]%list_elem_of_lookup)%list_elem_of_fmap)%list_elem_of_join.
    destruct (lookup_lt_is_Some_2 (l_data L) d) as [p Hp]; [apply lookup_lt_Some in HM; lia|]. destruct (Hm d p Hp) as (M' & HM' & Hok).
    rewrite HM in HM'. injection HM' as <-. destruct (mo_points _ _ _ _ _ Hok e He) as (px & k & lin & f & -> & _). by eexists. }
  constructor; simpl; [done|done|done|done|done|apply merge_sort_Permutation|].
  apply points_sorted. intros e He. apply Hpx. by rewrite merge_sort_Permutation in He.
Qed.

(** The box and the text of element [i] of partition [d] *)
Definition box_at (pg : page) (d i : nat) : option (rect * label) := layer ← historyLayers pg !! d; layer !! i.

Lemma add_gids_lookup n input d pd : input !! d = Some pd -> exists m, add_gids n input !! d = Some (add_gids_to m pd).
Proof.
  revert n d. induction input as [|p input IH]; intros n [|d]; simpl; [done|done|intros [= ->]; by exists n|]. intros Hd. by apply IH.
Qed.

(** The element on the page of an element of the input *)
Lemma drawn_element input L X pg d pd i a :
  drawable input -> laid_out bbox_width L X -> l_data L = pg_data pg -> drawn input L pg -> input !! d = Some pd -> History pd !! i = Some a ->
  exists p el, pg_data pg !! d = Some p /\ Partials p = PartialLinearizations pd /\ Hist p !! i = Some el /\ el ∈ els (l_data L) /\
    el_ClientId el = ClientId a /\ el_Description el = Description a /\ el_Start el = lit (Start a) /\
    (forall el', el' ∈ els (l_data L) -> (el_Start el' <= lit (End_ a) <-> el_Start el' < el_End el)%Qc) /\
    box_at pg d i = Some (box (xPos L) el, box_text (xPos L) el).
Proof.
  intros Hdr Hlo Ed Hd Hpd Hi. destruct (add_gids_lookup 0 input d pd Hpd) as [m Hm].
  set (f := tweak (startTimestamps (add_gids 0 input)) (nextTs (sort_numbers (allTimestamps (add_gids 0 input))))).
  set (el0 := mkEl (ClientId a) (lit (Start a)) (lit (End_ a)) (Description a) (m + i) None).
  assert (Hist (add_gids_to m pd) !! i = Some el0) as Hel0 by (apply add_gids_to_lookup; by exists a).
  pose (p := mkPart (f <$> Hist (add_gids_to m pd)) (PartialLinearizations pd) (Largest pd)).
  assert (pg_data pg !! d = Some p) as Hp by (rewrite (dn_data _ _ _ Hd); unfold tweak_data, map_els; by rewrite list_lookup_fmap, Hm).
  assert (Hist p !! i = Some (f el0)) as Hf by (unfold p; cbn [Hist]; by rewrite list_lookup_fmap, Hel0).
  assert (el0 ∈ els (add_gids 0 input)) as Hin0.
  { apply els_elem. exists (add_gids_to m pd). split; [by eapply list_elem_of_lookup_2|]. by eapply list_elem_of_lookup_2. }
  exists p, (f el0). split_and!; [done|done|done| |done|done|done| |].
  - rewrite Ed, (dn_data _ _ _ Hd), els_tweaked. by apply list_elem_of_fmap_2.
  - intros el'. rewrite Ed, (dn_data _ _ _ Hd), els_tweaked. intros (el1 & -> & Hel1)%list_elem_of_fmap.
    apply (proj2 (tweak_end (add_gids 0 input) (drawable_not_last input Hdr) el0 Hin0) el1 Hel1).
  - unfold box_at. rewrite (dn_layers _ _ _ Hd), list_lookup_fmap, Hp. simpl. unfold history_layer. rewrite list_lookup_fmap.
    unfold p in Hf. cbn [Hist] in Hf. unfold p. cbn [Hist]. by rewrite Hf.
Qed.

Lemma rows_apart c c' : c <> c' -> (row_y c + BOX_HEIGHT < row_y c' \/ row_y c' + BOX_HEIGHT < row_y c)%Qc.
Proof.
  intros Hne. assert (forall a b, a < b -> (row_y a + BOX_HEIGHT < row_y b)%Qc) as Hlt.
  { intros a b Hab. assert (lit a + lit 1 <= lit b)%Qc as Hl by (unfold lit; rewrite <- Z2Qc_inj_add; apply (proj1 (lit_mono _ _)); lia).
    unfold row_y. replace (BOX_HEIGHT + BOX_SPACE)%Qc with (lit 45) by (by apply Qc_is_canon). unfold BOX_HEIGHT.
    revert Hl. generalize (lit a) (lit b). intros u v Hl. unfold lit in *. qc_lra. }
  destruct (Z.lt_total c c') as [|[|]]; [left|done|right]; by apply Hlt.
Qed.

(** C25: The picture is faithful.  A drawable history is drawn without a TypeError or a NaN: each operation has a box
    in the row of its client that holds its text; each partial linearization has, in its order and apart, a point in
    the box of each of its operations, and one in the box of each operation that could come next but may not; a box
    ends before another starts if its operation returned before the other was called, and the boxes of different
    clients are apart. *)
Theorem picture_faithful input :
  drawable input -> (exists d, d ∈ input /\ History d <> []) ->
  exists pg, render bbox_width client_text input = Val pg /\
    (forall d pd i a, input !! d = Some pd -> History pd !! i = Some a ->
       exists b t w, box_at pg d i = Some (b, t) /\ r_y b = Some (row_y (ClientId a)) /\ t_content t = Description a /\
         r_width b = Some w /\ (bbox_width (Description a) + lit 2 * BOX_TEXT_PADDING <= w)%Qc) /\
    (forall d pd k lin, input !! d = Some pd -> PartialLinearizations pd !! k = Some lin ->
       exists p M ls, pg_data pg !! d = Some p /\ pg_marks pg !! d = Some M /\ m_layers M !! k = Some ls /\
         Forall2 (fun id l => exists b t, box_at pg d (Z.to_nat (Index id)) = Some (b, t) /\ crosses b l) lin (filter valid_point ls) /\
         Forall2 (fun n l => exists b t, box_at pg d n.1 = Some (b, t) /\ crosses b l) (possible_next (included lin) (Hist p)) (filter invalid_point ls) /\
         (forall j la lb u v, filter valid_point ls !! j = Some la -> filter valid_point ls !! S j = Some lb ->
            x1 la = Some u -> x1 lb = Some v -> (u + EPSILON <= v)%Qc)) /\
    (forall d pd i a d' pd' i' a' b t b' t', input !! d = Some pd -> History pd !! i = Some a -> input !! d' = Some pd' -> History pd' !! i' = Some a' ->
       box_at pg d i = Some (b, t) -> box_at pg d' i' = Some (b', t') ->
       (End_ a < Start a' -> exists r l, right_of b = Some r /\ r_x b' = Some l /\ (r <= l)%Qc) /\
       (ClientId a <> ClientId a' -> (row_y (ClientId a) + BOX_HEIGHT < row_y (ClientId a') \/ row_y (ClientId a') + BOX_HEIGHT < row_y (ClientId a))%Qc)).
Proof.
  intros Hdr Hne. destruct (render_drawn input Hdr Hne) as (L & X & pg & Hr & Hlo & Ed & Hd). exists pg. split; [done|].
  pose proof (lo_spaced _ _ _ Hlo) as Hsp. split_and!.
  - intros d pd i a Hpd Hi. destruct (drawn_element input L X pg d pd i a Hdr Hlo Ed Hd Hpd Hi) as (p & el & _ & _ & _ & Hin & Hc & Ht & _ & _ & Hb).
    rewrite (box_of _ _ _ Hlo el Hin) in Hb. eexists _, _, _. split; [exact Hb|]. simpl. rewrite Hc, Ht. split_and!; try done.
    pose proof (sp_text _ _ _ _ _ Hsp el Hin) as Hw. rewrite Ht in Hw. qc_lra.
  - intros d pd k lin Hpd Hk. destruct (add_gids_lookup 0 input d pd Hpd) as [m Hm].
    assert (exists p, pg_data pg !! d = Some p /\ Partials p = PartialLinearizations pd) as (p & Hp & Ep).
    { rewrite (dn_data _ _ _ Hd). unfold tweak_data, map_els. rewrite list_lookup_fmap, Hm. by eexists. }
    destruct (dn_marks _ _ _ Hd d p Hp) as (M & HM & Hok). rewrite <- Ep in Hk.
    destruct (Forall2_lookup_l _ _ _ _ _ (mo_layers _ _ _ _ _ Hok) Hk) as (ls & Hls & [Hv Ha Hi]). exists p, M, ls.
    assert (forall j el, Hist p !! j = Some el -> box_at pg d j = Some (box (xPos L) el, box_text (xPos L) el)) as Hbox.
    { intros j el Hj. unfold box_at. rewrite (dn_layers _ _ _ Hd), list_lookup_fmap, Hp. simpl. unfold history_layer. by rewrite list_lookup_fmap, Hj. }
    split_and!; try done.
    + eapply Forall2_impl; [exact Hv|]. intros id l (el & Hel & Hcr). eexists _, _. split; [by apply Hbox|done].
    + eapply Forall2_same_length_lookup_2; [by eapply Forall2_length|]. intros j [i el] l Hn Hl. eexists _, _.
      pose proof (Forall2_lookup_lr _ _ _ _ _ _ Hi Hn Hl) as Hcr. apply list_elem_of_lookup_2, possible_next_elem in Hn as [Hj _].
      split; [by apply Hbox|done].
  - intros d pd i a d' pd' i' a' b t b' t' Hpd Hi Hpd' Hi' Hb Hb'. split; [|intros; by apply rows_apart]. intros Hlt.
    destruct (drawn_element input L X pg d pd i a Hdr Hlo Ed Hd Hpd Hi) as (_ & el & _ & _ & _ & Hin & _ & _ & _ & Hend & Eb).
    destruct (drawn_element input L X pg d' pd' i' a' Hdr Hlo Ed Hd Hpd' Hi') as (_ & el' & _ & _ & _ & Hin' & _ & _ & Hst & _ & Eb').
    rewrite Hb in Eb. rewrite Hb' in Eb'. injection Eb as -> _. injection Eb' as -> _. rewrite (box_of _ _ _ Hlo el Hin), (box_of _ _ _ Hlo el' Hin').
    unfold right_of. simpl. eexists _, _. split_and!; [done|done|].
    assert (X (el_End el) <= X (el_Start el'))%Qc; [|qc_lra].
    assert (el_End el <= el_Start el')%Qc as Hle.
    { destruct (Qclt_le_dec (el_Start el') (el_End el)) as [Hx|]; [|done]. apply Hend in Hx; [|done]. rewrite Hst in Hx. apply lit_mono in Hx. lia. }
    destruct (Qcle_lt_or_eq _ _ Hle) as [Hx|E]; [|rewrite E; apply Qcle_refl].
    pose proof (sp_gap _ _ _ _ _ Hsp _ _ (lo_ends _ _ _ Hlo el Hin) (lo_starts _ _ _ Hlo el' Hin') Hx).
    assert (0 <= BOX_GAP)%Qc by (by apply (lit_mono 0 20)). qc_lra.
Qed.

End Page.
End VisDraw.
