(* ===== verification/VisUi.v ===== *)
(** * The handlers of the page (the script in porcupine/visualization.go)

    The mouse selects an operation or points at it; the script then shows one partial linearization with it, fades
    the others, and describes states in a tooltip.  The state is what the handlers keep in variables and in the
    classes of the elements.  Shown: no sequence of events makes a handler fail; at most one box is marked, the one
    selected, whose linearization is shown; and a tooltip says what the data says. *)

From stdpp Require Import base list gmap strings numbers countable sorting.
From Stdlib Require Import ZArith Lia QArith Qcanon Lqa.
From S2P Require Import Prelude JsNum PorcModel PorcVis VisLayout VisScan VisOptimal VisDraw.
Import PorcVis VisLayout VisScan VisOptimal VisDraw.

Open Scope Z_scope.

Module VisUi.

(** ** State *)

(** Where the tooltip was last computed: partition, index, [selected] and [selectedIndex] *)
Definition tip_key : Type := nat * nat * bool * (Z * Z).

Record ui := mkUi {
  selected : bool;
  selectedIndex : Z * Z;
  historyHidden : list bool;          (* class "hidden" of the layers *)
  partialHidden : list (list bool);
  rectSelected : list (list bool);    (* class "selected" of the boxes *)
  tooltip : string;
  tooltipOpacity : Z;
  tooltipAt : Z * Z;
  lastTooltip : option tip_key;       (* [None] is the array of nulls *)
  jumpActive : bool;                  (* without class "inactive" *)
  jumpTo : option errorPoint }.       (* the point of the link's handler *)

Inductive ui_event :=
  | MouseOver (d i : nat)
  | MouseMove (d i : nat) (pageX pageY : Z)
  | MouseOut (d i : nat)
  | Click (d i : nat)
  | BgClick
  | JumpClick.

(** Entries of the arrays that [arrayEq] compares *)
Inductive prim := PNull | PNum (z : Z) | PBool (b : bool).

#[export] Instance prim_eq_dec : EqDecision prim.
Proof. solve_decision. Defined.

(** [arrayEq] of two arrays that are not null: their lengths, then a loop over the indices of the first *)
Definition arrayEq (a b : list prim) : bool :=
  if negb (length a =? length b)%nat then false
  else forallb (fun i => bool_decide (a !! i = b !! i)) (seq 0 (length a)).

Definition key_array (key : option tip_key) : list prim :=
  match key with
  | Some (d, i, sel, (sd, si)) => [PNum (Z.of_nat d); PNum (Z.of_nat i); PBool sel; PNum sd; PNum si]
  | None => [PNull; PNull; PNull; PNull; PNull]
  end.

Lemma arrayEq_spec a b : arrayEq a b = true <-> a = b.
Proof.
  unfold arrayEq. destruct (Nat.eqb_spec (length a) (length b)) as [El|Hne]; simpl; [|naive_solver].
  rewrite forallb_forall. split; [|intros -> i _; by apply bool_decide_eq_true].
  intros Hall. apply list_eq_same_length with (length b); [done|done|]. intros i x y Hi Hx Hy.
  specialize (Hall i). rewrite bool_decide_eq_true, in_seq in Hall. rewrite Hx, Hy in Hall. injection Hall; [done|lia].
Qed.

Lemma key_array_inj key k : key_array key = key_array (Some k) -> key = Some k.
Proof.
  destruct k as [[[d i] s] [sd si]], key as [[[[d' i'] s'] [sd' si']]|]; simpl; [|done].
  intros [= ->%Nat2Z.inj ->%Nat2Z.inj -> -> ->]. done.
Qed.

(** What the handlers read of the marks of a partition *)
Record marks_at (p : partition) (M : marks) : Prop := {
  ma_last : illegalLast M = next_ids p <$> Partials p;
  ma_largest : forall i k, largestIllegal M !! i = Some k -> exists lin, 0 <= k /\ Partials p !! Z.to_nat k = Some lin /\ i ∈ next_ids p lin;
  ma_some : forall lin i, lin ∈ Partials p -> i ∈ next_ids p lin -> is_Some (largestIllegal M !! i) }.

Section Ui.
Variable pg : page.
(** A number in a text *)
Variable num_text : Qc -> string.

Definition number_text (o : option Qc) : string := match o with Some q => num_text q | None => "undefined" end.

(** [el.classList.add] or [remove] at [i], a TypeError without an element *)
Definition set_class (l : list bool) (i : Z) (v : bool) : res (list bool) :=
  _ ← js_get l i; mret (<[Z.to_nat i := v]> l).

Definition set_class2 (l : list (list bool)) (d i : Z) (v : bool) : res (list (list bool)) :=
  r ← js_get l d; r' ← set_class r i v; mret (<[Z.to_nat d := r']> l).

(** ** Showing a linearization *)

Definition linearizationIndex (d i : Z) : res (option Z) :=
  p ← js_get (pg_data pg) d;
  match Larg p !! i with
  | Some k => mret (Some k)
  | None => M ← js_get (pg_marks pg) d; mret (largestIllegal M !! i)
  end.

Definition with_view (hh : list bool) (ph : list (list bool)) (u : ui) : ui :=
  mkUi (selected u) (selectedIndex u) hh ph (rectSelected u) (tooltip u) (tooltipOpacity u) (tooltipAt u) (lastTooltip u) (jumpActive u) (jumpTo u).

(** Whether the group of a point is not hidden *)
Definition point_shown (ph : list (list bool)) (e : errorPoint) : bool :=
  match ph !! ep_partition e with
  | Some r => match r !! ep_lin e with Some h => negb h | None => false end
  | None => false
  end.

Definition updateJump (u : ui) : ui :=
  match list_find (fun e => point_shown (partialHidden u) e = true) (errorPoints pg) with
  | Some (_, e) => mkUi (selected u) (selectedIndex u) (historyHidden u) (partialHidden u) (rectSelected u) (tooltip u) (tooltipOpacity u)
                     (tooltipAt u) (lastTooltip u) true (Some e)
  | None => mkUi (selected u) (selectedIndex u) (historyHidden u) (partialHidden u) (rectSelected u) (tooltip u) (tooltipOpacity u)
              (tooltipAt u) (lastTooltip u) false (jumpTo u)
  end.

Definition highlight (d i : Z) (u : ui) : res ui :=
  let hh := imap (fun k _ => negb (Z.of_nat k =? d)) (historyHidden u) in
  let ph := (fun r : list bool => (fun _ => true) <$> r) <$> partialHidden u in
  maxIndex ← linearizationIndex d i;
  ph' ← match maxIndex with Some k => set_class2 ph d k false | None => mret ph end;
  mret (updateJump (with_view hh ph' u)).

Definition resetHighlight (u : ui) : ui :=
  updateJump (with_view ((fun _ => false) <$> historyHidden u) ((fun r : list bool => imap (fun k _ => negb (k =? 0)%nat) r) <$> partialHidden u) u).

(** ** The tooltip *)

(** The step of [index], and the one before it *)
Fixpoint find_step (lin : list linearizationStep) (index : Z) (prev : option linearizationStep)
    : option (option linearizationStep * linearizationStep) :=
  match lin with
  | [] => None
  | curr :: rest => if Index curr =? index then Some (prev, curr) else find_step rest index (Some curr)
  end.

Definition times_msg (el : element) : string :=
  "<br><br>Call: " +:+ num_text (el_Start el) +:+ "<br><br>Return: " +:+ number_text (el_OriginalEnd el).

Definition state_msg (prev : option linearizationStep) (curr : linearizationStep) (el : element) : string :=
  (match prev with Some s => "<strong>Previous state:</strong><br>" +:+ StateDescription s +:+ "<br><br>" | None => "" end) +:+
  "<strong>New state:</strong><br>" +:+ StateDescription curr +:+ times_msg el.

Definition invalid_msg (final : linearizationStep) (el : element) : string :=
  "<strong>Previous state:</strong><br>" +:+ StateDescription final +:+
  "<br><br><strong>New state:</strong><br>&langle;invalid op&rangle;" +:+ times_msg el.

Definition tooltip_text (key : tip_key) : res string :=
  let '(d, i, sel, (sd, si)) := key in
  let dz := Z.of_nat d in
  let iz := Z.of_nat i in
  maxIndex ← (if sel : bool then linearizationIndex sd si else linearizationIndex dz iz);
  if sel && negb (sd =? dz) then mret "Not part of selected partition."
  else match maxIndex with
       | None => mret (if sel : bool then "Selected element is not part of any partial linearization."
                       else "Not part of any partial linearization.")
       | Some k =>
           p ← js_get (pg_data pg) dz;
           lin ← js_get (Partials p) k;
           el ← js_get (Hist p) iz;
           match find_step lin iz None with
           | Some (prev, curr) => mret (state_msg prev curr el)
           | None =>
               M ← js_get (pg_marks pg) dz;
               last_ ← js_get (illegalLast M) k;
               if decide (iz ∈ last_) then final ← of_option (EPanic "TypeError") (last lin); mret (invalid_msg final el)
               else mret "Not part of selected element's partial linearization."
           end
       end.

Definition with_tip (t : string) (op : Z) (at_ : Z * Z) (key : option tip_key) (u : ui) : ui :=
  mkUi (selected u) (selectedIndex u) (historyHidden u) (partialHidden u) (rectSelected u) t op at_ key (jumpActive u) (jumpTo u).

(** ** Handlers *)

Definition handleMouseOver (d i : nat) (u : ui) : res ui :=
  u' ← (if selected u then mret u else highlight (Z.of_nat d) (Z.of_nat i) u);
  mret (with_tip (tooltip u') 1 (tooltipAt u') (lastTooltip u') u').

Definition handleMouseMove (d i : nat) (pageX pageY : Z) (u : ui) : res ui :=
  let key := (d, i, selected u, selectedIndex u) in
  if arrayEq (key_array (lastTooltip u)) (key_array (Some key)) then mret (with_tip (tooltip u) (tooltipOpacity u) (pageX + 20, pageY + 20) (lastTooltip u) u)
  else t ← tooltip_text key; mret (with_tip t (tooltipOpacity u) (pageX + 20, pageY + 20) (Some key) u).

Definition handleMouseOut (u : ui) : ui :=
  let u' := if selected u then u else resetHighlight u in with_tip (tooltip u') 0 (tooltipAt u') None u'.

Definition with_selected (sel : bool) (si : Z * Z) (rs : list (list bool)) (u : ui) : ui :=
  mkUi sel si (historyHidden u) (partialHidden u) rs (tooltip u) (tooltipOpacity u) (tooltipAt u) (lastTooltip u) (jumpActive u) (jumpTo u).

Definition select (d i : Z) (u : ui) : res ui :=
  u' ← highlight d i (with_selected true (d, i) (rectSelected u) u);
  rs ← set_class2 (rectSelected u') d i true;
  mret (with_selected (selected u') (selectedIndex u') rs u').

Definition deselect (u : ui) : res ui :=
  if negb (selected u) then mret u
  else
    let u' := resetHighlight (with_selected false (selectedIndex u) (rectSelected u) u) in
    rs ← set_class2 (rectSelected u') (selectedIndex u').1 (selectedIndex u').2 false;
    mret (with_selected (selected u') (selectedIndex u') rs u').

Definition handleClick (d i : nat) (u : ui) : res ui :=
  let dz := Z.of_nat d in
  let iz := Z.of_nat i in
  if selected u then
    if decide (selectedIndex u = (dz, iz)) then deselect u
    else
      rs ← set_class2 (rectSelected u) (selectedIndex u).1 (selectedIndex u).2 false;
      select dz iz (with_selected (selected u) (selectedIndex u) rs u)
  else select dz iz u.

Definition handleBgClick (u : ui) : res ui := deselect u.

(** The handler of the link *)
Definition jump_click (u : ui) : res ui :=
  match jumpTo u with
  | Some e => if selected u then mret u else select (Z.of_nat (ep_partition e)) (ep_index e) u
  | None => mret u
  end.

(** An event; the link takes clicks while it is displayed. *)
Definition ui_step (u : ui) (ev : ui_event) : res ui :=
  match ev with
  | MouseOver d i => handleMouseOver d i u
  | MouseMove d i px py => handleMouseMove d i px py u
  | MouseOut _ _ => mret (handleMouseOut u)
  | Click d i => handleClick d i u
  | BgClick => handleBgClick u
  | JumpClick => if jumpActive u then jump_click u else mret u
  end.

Fixpoint ui_run (u : ui) (evs : list ui_event) : res ui :=
  match evs with
  | [] => mret u
  | ev :: rest => u' ← ui_step u ev; ui_run u' rest
  end.

(** The state [render] leaves: everything is drawn, then the mouse is out. *)
Definition ui_init : ui :=
  handleMouseOut (mkUi false (-1, -1) ((fun _ => false) <$> pg_data pg) ((fun p => (fun _ => false) <$> Partials p) <$> pg_data pg)
    ((fun p => (fun _ => false) <$> Hist p) <$> pg_data pg) "" 0 (0, 0) None true None).

(** ** What is shown *)

(** The classes when nothing, or operation [(d, i)], is looked at *)
Definition view_of (focus : option (nat * nat)) : list bool * list (list bool) :=
  match focus with
  | None => ((fun _ => false) <$> pg_data pg, (fun p => imap (fun k _ => negb (k =? 0)%nat) (Partials p)) <$> pg_data pg)
  | Some (d, i) =>
      let base := (fun p => (fun _ => true) <$> Partials p) <$> pg_data pg in
      (imap (fun k _ => negb (Z.of_nat k =? Z.of_nat d)) (pg_data pg),
       match linearizationIndex (Z.of_nat d) (Z.of_nat i) with
       | Val (Some k) => alter (fun r => <[Z.to_nat k := false]> r) d base
       | _ => base
       end)
  end.

(** The boxes with none, or only that of [(d, i)], marked *)
Definition none_marked : list (list bool) := (fun p => (fun _ => false) <$> Hist p) <$> pg_data pg.
Definition one_marked (d i : nat) : list (list bool) := alter (fun r => <[i := true]> r) d none_marked.

Definition in_box (d i : nat) : Prop := exists p, pg_data pg !! d = Some p /\ (i < length (Hist p))%nat.

(** The tables of the page point at what is there. *)
Record page_ok : Prop := {
  po_marks : forall d p, pg_data pg !! d = Some p -> exists M, pg_marks pg !! d = Some M /\ marks_at p M;
  po_largest : forall d p i k, pg_data pg !! d = Some p -> Larg p !! i = Some k ->
    exists lin, 0 <= k /\ Partials p !! Z.to_nat k = Some lin /\ i ∈ Index <$> lin;
  po_lins : forall d p lin, pg_data pg !! d = Some p -> lin ∈ Partials p -> lin <> [];
  po_points : forall e, e ∈ errorPoints pg -> exists i, ep_index e = Z.of_nat i /\ in_box (ep_partition e) i }.

Hypothesis pg_ok : page_ok.

(** [linearizationIndex] finds one of the partition's linearizations, if any. *)
Lemma linearizationIndex_ok d i :
  in_box d i -> exists o, linearizationIndex (Z.of_nat d) (Z.of_nat i) = Val o /\
    forall k, o = Some k -> exists p lin, pg_data pg !! d = Some p /\ 0 <= k /\ Partials p !! Z.to_nat k = Some lin.
Proof.
  intros (p & Hp & _). unfold linearizationIndex. rewrite (proj2 (js_get_nat _ _ _) Hp). simpl.
  destruct (Larg p !! Z.of_nat i) as [k|] eqn:Hk.
  - exists (Some k). split; [done|]. intros k' [= <-]. destruct (po_largest pg_ok d p _ _ Hp Hk) as (lin & H0 & Hl & _). eauto.
  - destruct (po_marks pg_ok d p Hp) as (M & HM & Hma). rewrite (proj2 (js_get_nat _ _ _) HM). simpl. eexists. split; [done|].
    intros k Hk'. destruct (ma_largest _ _ Hma _ _ Hk') as (lin & H0 & Hl & _). eauto.
Qed.

(** Only the shape of the classes matters to what replaces them. *)
Definition shaped (hh : list bool) (ph : list (list bool)) : Prop :=
  length hh = length (pg_data pg) /\ Forall2 (fun r p => length r = length (Partials p)) ph (pg_data pg).

Lemma const_imap {A B C} (f : nat -> C) (l : list A) (k : list B) : length l = length k -> imap (fun i _ => f i) l = imap (fun i _ => f i) k.
Proof.
  revert k f. induction l as [|x l IH]; intros [|y k] f E; try done. rewrite !imap_cons. f_equal. apply (IH k (f ∘ S)). by injection E.
Qed.

Lemma const_fmap {A B C} (c : C) (l : list A) (k : list B) : length l = length k -> (fun _ => c) <$> l = (fun _ => c) <$> k.
Proof. revert k. induction l as [|x l IH]; intros [|y k] E; try done. simpl. f_equal. apply IH. by injection E. Qed.

Lemma shaped_rows {C} (g : list bool -> list C) (h : partition -> list C) ph :
  Forall2 (fun r p => length r = length (Partials p)) ph (pg_data pg) ->
  (forall r p, length r = length (Partials p) -> g r = h p) -> g <$> ph = h <$> pg_data pg.
Proof. intros HF Hgh. induction HF as [|r p ph ps Hr HF IH]; [done|]. rewrite !fmap_cons. f_equal; [by apply Hgh|exact IH]. Qed.

Lemma view_shaped focus : shaped (view_of focus).1 (view_of focus).2.
Proof.
  assert (forall (h : partition -> list bool), (forall p, length (h p) = length (Partials p)) ->
            Forall2 (fun r p => length r = length (Partials p)) (h <$> pg_data pg) (pg_data pg)) as Hb.
  { intros h Hh. apply Forall2_fmap_l, Forall_Forall2_diag, Forall_forall. intros p _. apply Hh. }
  destruct focus as [[d i]|]; split; simpl; rewrite ?length_imap, ?length_fmap; try done.
  - assert (Forall2 (fun r p => length r = length (Partials p)) ((fun p => (fun _ => true) <$> Partials p) <$> pg_data pg) (pg_data pg)) as H0
      by (apply Hb; intros p; by rewrite length_fmap).
    destruct (linearizationIndex _ _) as [[k|]|]; try done. apply Forall2_alter_l; [done|]. intros r p _ _ Hr. by rewrite length_insert.
  - apply Hb. intros p. by rewrite length_imap.
Qed.

Lemma set_class2_ok (l : list (list bool)) (d : nat) (k : Z) v r :
  l !! d = Some r -> 0 <= k -> (Z.to_nat k < length r)%nat ->
  set_class2 l (Z.of_nat d) k v = Val (alter (fun r => <[Z.to_nat k := v]> r) d l).
Proof.
  intros Hr Hk Hlt. unfold set_class2, set_class. rewrite (proj2 (js_get_nat _ _ _) Hr). simpl.
  destruct (lookup_lt_is_Some_2 _ _ Hlt) as [b Hb]. rewrite (proj2 (js_get_val _ _ _) (conj Hk Hb)). simpl. rewrite Nat2Z.id. f_equal.
  rewrite list_insert_alter. apply list_alter_ext; [|done]. congruence.
Qed.

Definition shows_view (focus : option (nat * nat)) (u : ui) : Prop := (historyHidden u, partialHidden u) = view_of focus.

Lemma highlight_ok d i f u :
  in_box d i -> shows_view f u ->
  highlight (Z.of_nat d) (Z.of_nat i) u = Val (updateJump (with_view (view_of (Some (d, i))).1 (view_of (Some (d, i))).2 u)).
Proof.
  intros Hb Hv. unfold highlight. pose proof (view_shaped f) as [Hs1 Hs2]. rewrite <- Hv in Hs1, Hs2. simpl in Hs1, Hs2.
  rewrite (const_imap (fun k => negb (Z.of_nat k =? Z.of_nat d)) (historyHidden u) (pg_data pg) Hs1).
  rewrite (shaped_rows (fun r => (fun _ => true) <$> r) (fun p => (fun _ => true) <$> Partials p) _ Hs2)
    by (intros r p E; by apply const_fmap).
  simpl. destruct (linearizationIndex_ok d i Hb) as (o & -> & Ho). simpl. destruct o as [k|]; [|done].
  destruct (Ho k eq_refl) as (p & lin & Hp & H0 & Hl).
  rewrite (set_class2_ok _ d k false ((fun _ => true) <$> Partials p)); [done| |done|].
  - by rewrite list_lookup_fmap, Hp.
  - rewrite length_fmap. by eapply lookup_lt_Some.
Qed.

Lemma reset_shaped u : shaped (historyHidden u) (partialHidden u) -> resetHighlight u = updateJump (with_view (view_of None).1 (view_of None).2 u).
Proof.
  intros [Hs1 Hs2]. unfold resetHighlight.
  rewrite (const_fmap false (historyHidden u) (pg_data pg) Hs1).
  rewrite (shaped_rows (fun r => imap (fun k _ => negb (k =? 0)%nat) r) (fun p => imap (fun k _ => negb (k =? 0)%nat) (Partials p)) _ Hs2)
    by (intros r p E; by apply (const_imap (fun k => negb (k =? 0)%nat))).
  done.
Qed.

Lemma reset_ok f u : shows_view f u -> resetHighlight u = updateJump (with_view (view_of None).1 (view_of None).2 u).
Proof. intros Hv. apply reset_shaped. pose proof (view_shaped f) as Hs. by rewrite <- Hv in Hs. Qed.

(** ** The invariant *)

Record ui_ok (u : ui) : Prop := {
  (* the marked box is the one selected, and what is shown is for it *)
  uo_selection : if selected u then exists d i, in_box d i /\ selectedIndex u = (Z.of_nat d, Z.of_nat i) /\
                   shows_view (Some (d, i)) u /\ rectSelected u = one_marked d i
                 else rectSelected u = none_marked /\ exists focus, shows_view focus u;
  (* the link leads to the first error that is shown *)
  uo_jump : if jumpActive u then exists k e, jumpTo u = Some e /\ list_find (fun e => point_shown (partialHidden u) e = true) (errorPoints pg) = Some (k, e)
            else list_find (fun e => point_shown (partialHidden u) e = true) (errorPoints pg) = None;
  (* the tooltip is that of its key *)
  uo_tip : forall key, lastTooltip u = Some key -> tooltip_text key = Val (tooltip u) }.

Lemma updateJump_fields u :
  (selected (updateJump u), selectedIndex (updateJump u), historyHidden (updateJump u), partialHidden (updateJump u), rectSelected (updateJump u)) =
    (selected u, selectedIndex u, historyHidden u, partialHidden u, rectSelected u) /\
  (tooltip (updateJump u), tooltipOpacity (updateJump u), tooltipAt (updateJump u), lastTooltip (updateJump u)) =
    (tooltip u, tooltipOpacity u, tooltipAt u, lastTooltip u).
Proof. unfold updateJump. by destruct (list_find _ _) as [[k e]|]. Qed.

Lemma updateJump_jump u :
  if jumpActive (updateJump u) then exists k e, jumpTo (updateJump u) = Some e /\
    list_find (fun e => point_shown (partialHidden u) e = true) (errorPoints pg) = Some (k, e)
  else list_find (fun e => point_shown (partialHidden u) e = true) (errorPoints pg) = None.
Proof. unfold updateJump. destruct (list_find _ _) as [[k e]|] eqn:E; simpl; [by exists k, e|done]. Qed.

Definition tip_ok (u : ui) : Prop := forall key, lastTooltip u = Some key -> tooltip_text key = Val (tooltip u).

(** Looking at [focus] *)
Lemma refocus_ok focus u :
  (if selected u then exists d i, focus = Some (d, i) /\ in_box d i /\ selectedIndex u = (Z.of_nat d, Z.of_nat i) /\ rectSelected u = one_marked d i
   else rectSelected u = none_marked) ->
  tip_ok u -> ui_ok (updateJump (with_view (view_of focus).1 (view_of focus).2 u)).
Proof.
  intros Hs Ht. set (u1 := with_view _ _ u). destruct (updateJump_fields u1) as [[= E1 E2 E3 E4 E5] [= F1 F2 F3 F4]].
  assert (shows_view focus (updateJump u1)) as Hv by (unfold shows_view; rewrite E3, E4; simpl; by destruct (view_of focus)).
  constructor.
  - rewrite E1, E2, E5. simpl. destruct (selected u); [|by split; [|exists focus]].
    destruct Hs as (d & i & -> & Hb & Hsi & Hr). by exists d, i.
  - rewrite E4. apply updateJump_jump.
  - intros key. rewrite F4, F1. apply Ht.
Qed.

Lemma with_selected_jump s si rs u : with_selected s si rs (updateJump u) = updateJump (with_selected s si rs u).
Proof. unfold updateJump, with_selected. simpl. by destruct (list_find _ _) as [[k e]|]. Qed.

Lemma ui_ok_view u : ui_ok u -> exists f, shows_view f u.
Proof. intros [Hs _ _]. destruct (selected u); [destruct Hs as (d & i & _ & _ & Hv & _); by exists (Some (d, i))|by destruct Hs as [_ ?]]. Qed.

Lemma none_marked_row d i : in_box d i -> exists p, pg_data pg !! d = Some p /\ none_marked !! d = Some ((fun _ => false) <$> Hist p) /\
  (i < length ((fun _ : element => false) <$> Hist p))%nat.
Proof. intros (p & Hp & Hi). exists p. unfold none_marked. rewrite list_lookup_fmap, Hp, length_fmap. done. Qed.

(** Marking a box, and taking the mark back *)
Lemma mark_ok d i : in_box d i -> set_class2 none_marked (Z.of_nat d) (Z.of_nat i) true = Val (one_marked d i).
Proof.
  intros (p & _ & Hr & Hi)%none_marked_row. rewrite (set_class2_ok _ _ _ _ _ Hr) by (rewrite ?Nat2Z.id; lia || done). by rewrite Nat2Z.id.
Qed.

Lemma unmark_ok d i : in_box d i -> set_class2 (one_marked d i) (Z.of_nat d) (Z.of_nat i) false = Val none_marked.
Proof.
  intros (p & _ & Hr & Hi)%none_marked_row.
  assert (one_marked d i !! d = Some (<[i := true]> ((fun _ => false) <$> Hist p))) as Hr'.
  { unfold one_marked. by rewrite list_lookup_alter_eq, Hr. }
  rewrite (set_class2_ok _ _ _ _ _ Hr') by (rewrite ?Nat2Z.id, ?length_insert; lia || done). rewrite Nat2Z.id. f_equal. unfold one_marked.
  rewrite list_alter_alter_eq. rewrite <- (list_alter_id (fun r => r) none_marked d) at 2 by done. apply list_alter_ext; [|done].
  intros r E. rewrite Hr in E. injection E as <-. simpl. rewrite list_insert_insert_eq. apply list_insert_id.
  rewrite length_fmap in Hi. destruct (lookup_lt_is_Some_2 _ _ Hi) as [el Hel]. by rewrite list_lookup_fmap, Hel.
Qed.

Lemma select_ok d i f u :
  in_box d i -> shows_view f u -> rectSelected u = none_marked -> tip_ok u ->
  exists u', select (Z.of_nat d) (Z.of_nat i) u = Val u' /\ ui_ok u' /\ selected u' = true /\ selectedIndex u' = (Z.of_nat d, Z.of_nat i).
Proof.
  intros Hb Hv Hr Ht. unfold select. rewrite (highlight_ok d i f) by done. cbn [mbind res_bind].
  set (u1 := with_view _ _ _). destruct (updateJump_fields u1) as [[= E1 E2 E3 E4 E5] [= F1 F2 F3 F4]].
  rewrite E5. simpl. rewrite Hr, (mark_ok d i Hb). cbn [mbind res_bind]. rewrite E1, E2, with_selected_jump. eexists. split; [done|].
  pose (u2 := with_view (view_of (Some (d, i))).1 (view_of (Some (d, i))).2 (with_selected true (Z.of_nat d, Z.of_nat i) (one_marked d i) u)).
  change (with_selected true (Z.of_nat d, Z.of_nat i) (one_marked d i) u1) with u2. destruct (updateJump_fields u2) as [[= G1 G2 _ _ _] _]. split; [|split; [exact G1|exact G2]].
  apply refocus_ok; [|done]. simpl. by exists d, i.
Qed.

Lemma deselect_ok u :
  ui_ok u -> exists u', deselect u = Val u' /\ ui_ok u' /\ selected u' = false /\ rectSelected u' = none_marked /\ tip_ok u' /\
    (selected u = true -> shows_view None u') /\ exists f, shows_view f u'.
Proof.
  intros Hok. unfold deselect. destruct (selected u) eqn:Hsel; simpl.
  - pose proof (uo_selection _ Hok) as Hs. rewrite Hsel in Hs. destruct Hs as (d & i & Hb & Hsi & Hv & Hr).
    rewrite (reset_ok (Some (d, i))) by exact Hv. set (u1 := with_view _ _ _). destruct (updateJump_fields u1) as [[= E1 E2 E3 E4 E5] [= F1 F2 F3 F4]].
    rewrite E5, E2. simpl. rewrite Hsi, Hr. simpl. rewrite (unmark_ok d i Hb). cbn [mbind res_bind]. rewrite E1, with_selected_jump.
    eexists. split; [done|].
    pose (u2 := with_view (view_of None).1 (view_of None).2 (with_selected false (Z.of_nat d, Z.of_nat i) none_marked u)).
    change (with_selected false (Z.of_nat d, Z.of_nat i) none_marked u1) with u2. destruct (updateJump_fields u2) as [[= G1 G2 G3 G4 G5] [= K1 K2 K3 K4]].
    assert (shows_view None (updateJump u2)) as Hv2 by (unfold shows_view; rewrite G3, G4; done).
    split_and!; [apply refocus_ok; [done|exact (uo_tip _ Hok)]|exact G1|exact G5| |done|by exists None].
    intros key Hkey. rewrite K1. apply Hok. by rewrite <- Hkey, K4.
  - exists u. pose proof (uo_selection _ Hok) as Hs. rewrite Hsel in Hs. destruct Hs as [Hr Hf]. split_and!; try done. exact (uo_tip _ Hok).
Qed.

(** ** The tooltip *)

Definition key_ok (key : tip_key) : Prop :=
  let '(d, i, sel, s) := key in in_box d i /\ (sel = true -> exists sd si, s = (Z.of_nat sd, Z.of_nat si) /\ in_box sd si).

Lemma tooltip_total key : key_ok key -> exists t, tooltip_text key = Val t.
Proof.
  destruct key as [[[d i] sel] [sd si]]. intros [Hb Hs]. unfold tooltip_text.
  assert (exists o, (if sel then linearizationIndex sd si else linearizationIndex (Z.of_nat d) (Z.of_nat i)) = Val o /\
            forall k, o = Some k -> sel && negb (sd =? Z.of_nat d) = false ->
              exists p lin, pg_data pg !! d = Some p /\ 0 <= k /\ Partials p !! Z.to_nat k = Some lin) as (o & -> & Ho).
  { destruct sel; [|destruct (linearizationIndex_ok d i Hb) as (o & -> & Ho); exists o; split; [done|]; by eauto].
    destruct (Hs eq_refl) as (d' & i' & [= -> ->] & Hb'). destruct (linearizationIndex_ok d' i' Hb') as (o & -> & Ho). exists o. split; [done|].
    intros k Hk Hd. apply negb_false_iff, Z.eqb_eq, Nat2Z.inj in Hd. subst d'. by apply Ho. }
  simpl. destruct (sel && _) eqn:Hd; [by eexists|]. destruct o as [k|]; [|by destruct sel; eexists].
  destruct (Ho k eq_refl eq_refl) as (p & lin & Hp & Hk & Hl). destruct Hb as (p' & Hp' & Hi). rewrite Hp in Hp'. injection Hp' as <-.
  destruct (lookup_lt_is_Some_2 _ _ Hi) as [el Hel].
  rewrite (proj2 (js_get_nat _ _ _) Hp). simpl. rewrite (proj2 (js_get_val _ _ _) (conj Hk Hl)). simpl. rewrite (proj2 (js_get_nat _ _ _) Hel). simpl.
  destruct (find_step _ _ _) as [[prev curr]|]; [by eexists|].
  destruct (po_marks pg_ok d p Hp) as (M & HM & Hma). rewrite (proj2 (js_get_nat _ _ _) HM). simpl.
  assert (illegalLast M !! Z.to_nat k = Some (next_ids p lin)) as Hn by (by rewrite (ma_last _ _ Hma), list_lookup_fmap, Hl).
  rewrite (proj2 (js_get_val _ _ _) (conj Hk Hn)). simpl. case_decide; [|by eexists].
  destruct (last lin) as [final|] eqn:Hf; [by eexists|]. apply last_None in Hf. exfalso.
  by apply (po_lins pg_ok d p lin Hp); [eapply list_elem_of_lookup_2|].
Qed.

Lemma with_tip_ok t op at_ key u :
  ui_ok u -> (forall k, key = Some k -> tooltip_text k = Val t) -> ui_ok (with_tip t op at_ key u).
Proof. intros [H1 H2 _] Ht. by constructor. Qed.

(** ** Every event *)

(** Events come from boxes that are there. *)
Definition ev_ok (ev : ui_event) : Prop :=
  match ev with
  | MouseOver d i | MouseMove d i _ _ | MouseOut d i | Click d i => in_box d i
  | BgClick | JumpClick => True
  end.

Lemma over_ok d i u : in_box d i -> ui_ok u -> exists u', handleMouseOver d i u = Val u' /\ ui_ok u' /\ lastTooltip u' = lastTooltip u /\
  selected u' = selected u /\ selectedIndex u' = selectedIndex u /\ (selected u = false -> shows_view (Some (d, i)) u') /\ tooltipOpacity u' = 1.
Proof.
  intros Hb Hok. unfold handleMouseOver. destruct (selected u) eqn:Hsel; simpl.
  { eexists. split; [done|]. split_and!; try done. apply with_tip_ok; [done|exact (uo_tip _ Hok)]. }
  destruct (ui_ok_view u Hok) as [f Hf]. rewrite (highlight_ok d i f u Hb Hf). cbn [mbind res_bind]. eexists. split; [done|].
  set (u1 := with_view _ _ u). destruct (updateJump_fields u1) as [[= E1 E2 E3 E4 E5] [= F1 F2 F3 F4]].
  assert (ui_ok (updateJump u1)) as Hok1.
  { apply (refocus_ok (Some (d, i)) u); [|exact (uo_tip _ Hok)]. pose proof (uo_selection _ Hok) as Hs. rewrite Hsel in *. by destruct Hs. }
  split_and!; [|exact F4|by rewrite <- Hsel, <- E1|exact E2| |done].
  - apply with_tip_ok; [done|]. exact (uo_tip _ Hok1).
  - intros _. unfold shows_view. cbn [with_tip historyHidden partialHidden]. by rewrite E3, E4.
Qed.

Lemma move_ok d i px py u : in_box d i -> ui_ok u -> exists u', handleMouseMove d i px py u = Val u' /\ ui_ok u' /\
  tooltip_text (d, i, selected u, selectedIndex u) = Val (tooltip u') /\ tooltipAt u' = (px + 20, py + 20) /\
  tooltipOpacity u' = tooltipOpacity u /\ selected u' = selected u /\ selectedIndex u' = selectedIndex u /\
  (historyHidden u', partialHidden u') = (historyHidden u, partialHidden u).
Proof.
  intros Hb Hok. unfold handleMouseMove. destruct (arrayEq _ _) eqn:Hk.
  { apply arrayEq_spec, key_array_inj in Hk. eexists. split; [done|]. split_and!; try done; [|by apply (uo_tip _ Hok)]. apply with_tip_ok; [done|exact (uo_tip _ Hok)]. }
  destruct (tooltip_total (d, i, selected u, selectedIndex u)) as [t Ht].
  { split; [done|]. intros Hsel. pose proof (uo_selection _ Hok) as Hs. rewrite Hsel in Hs. destruct Hs as (sd & si & Hsb & Hsi & _). eauto. }
  rewrite Ht. simpl. eexists. split; [done|]. split_and!; try done. apply with_tip_ok; [done|]. by intros k [= <-].
Qed.

Lemma out_ok u : ui_ok u -> ui_ok (handleMouseOut u).
Proof.
  intros Hok. unfold handleMouseOut. apply with_tip_ok; [|done]. destruct (selected u) eqn:Hsel; [done|].
  destruct (ui_ok_view u Hok) as [f Hf]. rewrite (reset_ok f u Hf). apply refocus_ok; [|exact (uo_tip _ Hok)].
  pose proof (uo_selection _ Hok) as Hs. rewrite Hsel in *. by destruct Hs.
Qed.

Lemma click_ok d i u : in_box d i -> ui_ok u -> exists u', handleClick d i u = Val u' /\ ui_ok u' /\
  if decide (selected u = true /\ selectedIndex u = (Z.of_nat d, Z.of_nat i)) then selected u' = false /\ shows_view None u'
  else selected u' = true /\ selectedIndex u' = (Z.of_nat d, Z.of_nat i).
Proof.
  intros Hb Hok. unfold handleClick. pose proof (uo_selection _ Hok) as Hs. destruct (selected u) eqn:Hsel.
  - destruct Hs as (sd & si & Hsb & Hsi & Hv & Hr). destruct (decide (selectedIndex u = _)) as [E|Hne].
    + destruct (deselect_ok u Hok) as (u' & -> & ? & ? & _ & _ & Hv' & _). exists u'. rewrite decide_True by done. auto.
    + rewrite Hr. rewrite Hsi in *. simpl. rewrite (unmark_ok sd si Hsb). cbn [mbind res_bind].
      destruct (select_ok d i (Some (sd, si)) (with_selected true (Z.of_nat sd, Z.of_nat si) none_marked u) Hb Hv eq_refl (uo_tip _ Hok))
        as (u' & -> & ?). exists u'. rewrite decide_False by naive_solver. done.
  - destruct Hs as (Hr & f & Hf).
    destruct (select_ok d i f u Hb Hf Hr (uo_tip _ Hok)) as (u' & -> & ?). exists u'. rewrite decide_False by naive_solver. done.
Qed.

Lemma jump_ok u : ui_ok u -> jumpActive u = true -> exists u', jump_click u = Val u' /\ ui_ok u'.
Proof.
  intros Hok Hj. pose proof (uo_jump _ Hok) as Hjump. rewrite Hj in Hjump. destruct Hjump as (k & e & He & [Hk _]%list_find_Some). unfold jump_click.
  rewrite He. destruct (selected u) eqn:Hsel; [by eexists|].
  destruct (po_points pg_ok e (list_elem_of_lookup_2 _ _ _ Hk)) as (i & -> & Hb).
  pose proof (uo_selection _ Hok) as Hs. rewrite Hsel in Hs. destruct Hs as (Hr & f & Hf).
  destruct (select_ok _ i f u Hb Hf Hr (uo_tip _ Hok)) as (u' & -> & ? & _). eauto.
Qed.

Lemma ui_step_ok u ev : ui_ok u -> ev_ok ev -> exists u', ui_step u ev = Val u' /\ ui_ok u'.
Proof.
  intros Hok Hev. destruct ev as [d i|d i px py|d i|d i| |]; simpl in *.
  - destruct (over_ok d i u Hev Hok) as (u' & ? & ? & _). eauto.
  - destruct (move_ok d i px py u Hev Hok) as (u' & ? & ? & _). eauto.
  - eexists. split; [done|]. by apply out_ok.
  - destruct (click_ok d i u Hev Hok) as (u' & ? & ? & _). eauto.
  - destruct (deselect_ok u Hok) as (u' & ? & ? & _). eauto.
  - destruct (jumpActive u) eqn:Hj; [by apply jump_ok|by eexists].
Qed.

Lemma ui_run_ok evs u : ui_ok u -> Forall ev_ok evs -> exists u', ui_run u evs = Val u' /\ ui_ok u'.
Proof.
  intros Hok Hev. revert u Hok. induction Hev as [|ev evs Hev _ IH]; intros u Hok; simpl; [by eexists|].
  destruct (ui_step_ok u ev Hok Hev) as (u1 & -> & Hok1). by apply IH.
Qed.

Lemma ui_init_ok : ui_ok ui_init.
Proof.
  unfold ui_init, handleMouseOut. cbn [selected]. apply with_tip_ok; [|done]. rewrite reset_shaped.
  - by apply refocus_ok.
  - split; simpl; [apply length_fmap|]. apply Forall2_fmap_l, Forall_Forall2_diag, Forall_forall. intros p _. apply length_fmap.
Qed.

Lemma ui_init_selected : selected ui_init = false.
Proof. unfold ui_init, handleMouseOut, resetHighlight. simpl. by destruct (updateJump_fields (with_view ((fun _ => false) <$> ((fun _ => false) <$> pg_data pg))
  ((fun r : list bool => imap (fun k _ => negb (k =? 0)%nat) r) <$> ((fun p => (fun _ => false) <$> Partials p) <$> pg_data pg))
  (mkUi false (-1, -1) ((fun _ => false) <$> pg_data pg) ((fun p => (fun _ => false) <$> Partials p) <$> pg_data pg)
    ((fun p => (fun _ => false) <$> Hist p) <$> pg_data pg) "" 0 (0, 0) None true None))) as [[= E _ _ _ _] _]. Qed.

End Ui.
End VisUi.
