(* ===== verification/VisPage.v ===== *)
(** * The page in use (the script in porcupine/visualization.go)

    The handlers of [VisUi] on the page that [VisDraw.render] draws.  Shown: the page of a drawable history satisfies
    what the handlers rely on, so no sequence of events makes one fail; and the tooltip of an operation shows the
    state the data has for it in a longest partial linearization, an invalid operation only if it could come next in
    real time, and otherwise says that there is nothing to show. *)

From stdpp Require Import base list gmap strings numbers countable sorting.
From Stdlib Require Import ZArith Lia QArith Qcanon Lqa.
From S2P Require Import Prelude JsNum PorcModel PorcVis VisLayout VisScan VisOptimal VisDraw VisUi.
Import PorcVis VisLayout VisScan VisOptimal VisDraw VisUi.

Open Scope Z_scope.

Module VisPage.

(** ** What is told about an operation *)

Section Told.
Variable num_text : Qc -> string.

Definition indices (lin : list linearizationStep) : list Z := Index <$> lin.

(** Operation [a] may follow [lin] in real time: those that are not in it had not returned. *)
Definition could_follow (pd : partitionVisualizationData) (lin : list linearizationStep) (i : nat) (a : historyElement) : Prop :=
  Z.of_nat i ∉ indices lin /\
  forall i' b, History pd !! i' = Some b -> Z.of_nat i' ∉ indices lin -> Start a <= End_ b.

Definition times_of (a : historyElement) : string :=
  "<br><br>Call: " +:+ num_text (lit (Start a)) +:+ "<br><br>Return: " +:+ num_text (lit (End_ a)).

Definition step_before (lin : list linearizationStep) (j : nat) : option linearizationStep :=
  match j with O => None | S j' => lin !! j' end.

(** The linearization shown for operation [i] and the text of its tooltip, when nothing is selected *)
Inductive told (pd : partitionVisualizationData) (i : nat) (a : historyElement) : option nat -> string -> Prop :=
  | told_step k lin j curr :
      PartialLinearizations pd !! k = Some lin -> lin !! j = Some curr -> Index curr = Z.of_nat i ->
      (forall lin', lin' ∈ PartialLinearizations pd -> Z.of_nat i ∈ indices lin' -> len lin' <= len lin) ->
      told pd i a (Some k)
        ((match step_before lin j with Some s => "<strong>Previous state:</strong><br>" +:+ StateDescription s +:+ "<br><br>" | None => "" end) +:+
         "<strong>New state:</strong><br>" +:+ StateDescription curr +:+ times_of a)
  | told_invalid k lin final :
      (forall lin', lin' ∈ PartialLinearizations pd -> Z.of_nat i ∉ indices lin') ->
      PartialLinearizations pd !! k = Some lin -> last lin = Some final -> could_follow pd lin i a ->
      told pd i a (Some k)
        ("<strong>Previous state:</strong><br>" +:+ StateDescription final +:+
         "<br><br><strong>New state:</strong><br>&langle;invalid op&rangle;" +:+ times_of a)
  | told_nothing :
      (forall lin', lin' ∈ PartialLinearizations pd -> Z.of_nat i ∉ indices lin' /\ ~ could_follow pd lin' i a) ->
      told pd i a None "Not part of any partial linearization.".

End Told.

(** The input names, for each operation, the first of its longest partial linearizations. *)
Definition largest_named (input : list partitionVisualizationData) : Prop :=
  forall d, d ∈ input -> forall j, largest_in (indices <$> PartialLinearizations d) j (Largest d !! j).

(** ** The data of the page *)

Lemma add_gids_length n l : length (add_gids n l) = length l.
Proof. revert n. induction l as [|d l IH]; intros n; simpl; [done|]. by rewrite IH. Qed.

(** The first step of an index, with the one before it *)
Lemma find_step_spec lin i prev :
  match find_step lin i prev with
  | Some (prev', curr) => exists j, lin !! j = Some curr /\ Index curr = i /\ prev' = match j with O => prev | S j' => lin !! j' end
  | None => i ∉ indices lin
  end.
Proof.
  revert prev. induction lin as [|s lin IH]; intros prev; simpl; [set_solver|]. destruct (Z.eqb_spec (Index s) i) as [E|Hne].
  { by exists O. }
  specialize (IH (Some s)). destruct (find_step lin i (Some s)) as [[prev' curr]|].
  - destruct IH as (j & Hj & Hi & ->). exists (S j). by destruct j.
  - intros [->|?]%elem_of_cons; done.
Qed.

Section Page.
Variable input : list partitionVisualizationData.
Hypothesis input_drawable : drawable input.
Hypothesis input_largest : largest_named input.

Section Drawn.
Variables (L : layout) (pg : page).
Hypothesis pg_drawn : drawn input L pg.

Definition tweaked_el : element -> element := tweak (startTimestamps (add_gids 0 input)) (nextTs (sort_numbers (allTimestamps (add_gids 0 input)))).

(** The partition of the page made of a partition of the input *)
Definition part_of (pd : partitionVisualizationData) (m : nat) : partition :=
  mkPart (tweaked_el <$> Hist (add_gids_to m pd)) (PartialLinearizations pd) (Largest pd).

Lemma page_part d p : pg_data pg !! d = Some p -> exists pd m, input !! d = Some pd /\ add_gids 0 input !! d = Some (add_gids_to m pd) /\ p = part_of pd m.
Proof.
  rewrite (dn_data _ _ _ pg_drawn). unfold tweak_data, map_els. rewrite list_lookup_fmap. intros (p0 & Hp0 & ->)%fmap_Some.
  destruct (input !! d) as [pd|] eqn:Hpd.
  - destruct (add_gids_lookup 0 input d pd Hpd) as [m Hm]. rewrite Hm in Hp0. injection Hp0 as <-. by exists pd, m.
  - apply lookup_ge_None in Hpd. apply lookup_lt_Some in Hp0. rewrite add_gids_length in Hp0. lia.
Qed.

Lemma part_at d pd : input !! d = Some pd -> exists m, add_gids 0 input !! d = Some (add_gids_to m pd) /\ pg_data pg !! d = Some (part_of pd m).
Proof.
  intros Hpd. destruct (add_gids_lookup 0 input d pd Hpd) as [m Hm]. exists m. split; [done|].
  rewrite (dn_data _ _ _ pg_drawn). unfold tweak_data, map_els. by rewrite list_lookup_fmap, Hm.
Qed.

Lemma part_len pd m : length (Hist (part_of pd m)) = length (History pd).
Proof. simpl. by rewrite length_fmap, length_imap. Qed.

Lemma part_el pd m i el : Hist (part_of pd m) !! i = Some el <-> exists a, History pd !! i = Some a /\
  el = tweaked_el (mkEl (ClientId a) (lit (Start a)) (lit (End_ a)) (Description a) (m + i) None).
Proof.
  cbn [part_of Hist]. rewrite list_lookup_fmap, fmap_Some. setoid_rewrite add_gids_to_lookup. naive_solver.
Qed.

(** The operations that may come next on the page are those that may in real time. *)
Lemma next_follows d pd m lin i a :
  add_gids 0 input !! d = Some (add_gids_to m pd) -> History pd !! i = Some a ->
  Z.of_nat i ∈ next_ids (part_of pd m) lin <-> could_follow pd lin i a.
Proof.
  intros Hd Ha. assert (forall j b, History pd !! j = Some b ->
    mkEl (ClientId b) (lit (Start b)) (lit (End_ b)) (Description b) (m + j) None ∈ els (add_gids 0 input)) as Hin.
  { intros j b Hb. apply els_elem. exists (add_gids_to m pd). split; [by eapply list_elem_of_lookup_2|].
    apply list_elem_of_lookup. exists j. apply add_gids_to_lookup. eauto. }
  unfold next_ids, ids_of, could_follow. rewrite elem_of_list_to_set, list_elem_of_fmap.
  assert (forall j, j ∈ included lin <-> j ∈ indices lin) as Hinc by (intros j; unfold included; by rewrite elem_of_list_to_set).
  assert (forall j b, History pd !! j = Some b -> (lit (Start a) < el_End (tweaked_el (mkEl (ClientId b) (lit (Start b)) (lit (End_ b)) (Description b) (m + j) None)))%Qc
            <-> Start a <= End_ b) as Hcmp.
  { intros j b Hb. pose proof (proj2 (tweak_end _ (drawable_not_last input input_drawable) _ (Hin j b Hb)) _ (Hin i a Ha)) as E. cbn [el_Start el_End] in E.
    rewrite (lit_mono (Start a) (End_ b)). symmetry. exact E. }
  split.
  - intros ([i' el] & E & (Hi & Hn & Hb)%possible_next_elem). simpl in E. apply Nat2Z.inj in E. subst i'.
    rewrite Hinc in Hn. split; [done|]. intros j b Hj Hnj. rewrite minEnd_below in Hb.
    apply part_el in Hi as (a' & Ha' & ->). rewrite Ha in Ha'. injection Ha' as <-.
    apply (Hcmp j b Hj), (Hb j); [apply part_el; eauto|by rewrite Hinc].
  - intros [Hn Hf]. eexists (i, _). split; [done|]. apply possible_next_elem. split; [apply part_el; eauto|]. split; [by rewrite Hinc|].
    apply minEnd_below. intros j el Hj Hnj. apply part_el in Hj as (b & Hb & ->). rewrite Hinc in Hnj. apply (Hcmp j b Hb). by apply (Hf j).
Qed.

Lemma drawn_page_ok : page_ok pg.
Proof.
  constructor.
  - intros d p Hp. destruct (dn_marks _ _ _ pg_drawn d p Hp) as (M & HM & Hm). exists M. split; [done|]. constructor.
    + rewrite (mo_last _ _ _ _ _ Hm), Nat.sub_diag. by rewrite app_nil_r.
    + intros i k Hk. destruct (mo_largest _ _ _ _ _ Hm i k Hk) as (k' & lin & -> & Hl & Hi). exists lin. rewrite Nat2Z.id. split_and!; [lia|done|done].
    + apply (mo_some _ _ _ _ _ Hm).
  - intros d p i k Hp Hk. destruct (page_part d p Hp) as (pd & m & Hpd & _ & ->). simpl in Hk.
    pose proof (input_largest pd (list_elem_of_lookup_2 _ _ _ Hpd) i) as Hl. rewrite Hk in Hl. destruct Hl as (ids & H0 & Hi & Hin & _).
    rewrite list_lookup_fmap in Hi. apply fmap_Some in Hi as (lin & Hlin & ->). by exists lin.
  - intros d p lin Hp Hin. destruct (page_part d p Hp) as (pd & m & Hpd & _ & ->). apply (dr_nonempty _ input_drawable pd); [by eapply list_elem_of_lookup_2|done].
  - intros e He. rewrite (dn_points _ _ _ pg_drawn) in He. apply list_elem_of_join in He as (es & He & (M & -> & [d HM]%list_elem_of_lookup)%list_elem_of_fmap).
    destruct (lookup_lt_is_Some_2 (pg_data pg) d) as [p Hp]; [rewrite <- (dn_len _ _ _ pg_drawn); by eapply lookup_lt_Some|].
    destruct (dn_marks _ _ _ pg_drawn d p Hp) as (M' & HM' & Hm). rewrite HM in HM'. injection HM' as <-.
    destruct (mo_points _ _ _ _ _ Hm e He) as (px & k & lin & final & -> & Hl & Hf). simpl.
    destruct (page_part d p Hp) as (pd & m & Hpd & _ & ->). pose proof (dr_range _ input_drawable pd lin
      (list_elem_of_lookup_2 _ _ _ Hpd) (list_elem_of_lookup_2 _ _ _ Hl)) as Hr. rewrite Forall_forall in Hr.
    specialize (Hr final). destruct Hr as [H0 H1]; [apply last_Some in Hf as [l' ->]; set_solver|]. exists (Z.to_nat (Index final)).
    split; [lia|]. exists (part_of pd m). split; [done|]. rewrite part_len. unfold len in H1. lia.
Qed.

(** The tooltip of an operation with a linearization, when nothing is selected *)
Lemma tooltip_at num_text d p M i el k lin s :
  pg_data pg !! d = Some p -> pg_marks pg !! d = Some M -> marks_at p M -> Hist p !! i = Some el ->
  linearizationIndex pg (Z.of_nat d) (Z.of_nat i) = Val (Some k) -> 0 <= k -> Partials p !! Z.to_nat k = Some lin ->
  tooltip_text pg num_text (d, i, false, s) =
    match find_step lin (Z.of_nat i) None with
    | Some (prev, curr) => mret (state_msg num_text prev curr el)
    | None => if decide (Z.of_nat i ∈ next_ids p lin) then final ← of_option (EPanic "TypeError") (last lin); mret (invalid_msg num_text final el)
              else mret "Not part of selected element's partial linearization."
    end.
Proof.
  intros Hp HM Hma Hel Hli H0 Hlin. destruct s as [sd si]. unfold tooltip_text. rewrite Hli. cbn [andb mbind res_bind].
  assert (illegalLast M !! Z.to_nat k = Some (next_ids p lin)) as Hn by (by rewrite (ma_last _ _ Hma), list_lookup_fmap, Hlin).
  rewrite (proj2 (js_get_nat _ _ _) Hp), (proj2 (js_get_nat _ _ _) HM). cbn [mbind res_bind].
  rewrite (proj2 (js_get_val _ _ _) (conj H0 Hlin)). cbn [mbind res_bind]. rewrite (proj2 (js_get_nat _ _ _) Hel), (proj2 (js_get_val _ _ _) (conj H0 Hn)). done.
Qed.

(** What is told when nothing is selected, and the linearization that goes with it *)
Lemma tooltip_told num_text d pd i a s :
  input !! d = Some pd -> History pd !! i = Some a ->
  exists o t, linearizationIndex pg (Z.of_nat d) (Z.of_nat i) = Val (Z.of_nat <$> o) /\
    tooltip_text pg num_text (d, i, false, s) = Val t /\ told num_text pd i a o t /\
    (forall k, o = Some k -> is_Some (PartialLinearizations pd !! k)).
Proof.
  intros Hpd Ha. destruct (part_at d pd Hpd) as (m & Hm & Hp). set (p := part_of pd m) in *. destruct s as [sd si].
  pose proof (input_largest pd (list_elem_of_lookup_2 _ _ _ Hpd) (Z.of_nat i)) as Hl.
  destruct (po_marks _ drawn_page_ok d p Hp) as (M & HM & Hma).
  pose proof (proj2 (part_el pd m i _) (ex_intro _ a (conj Ha eq_refl))) as Hel. fold p in Hel.
  assert (linearizationIndex pg (Z.of_nat d) (Z.of_nat i) =
    Val (match Largest pd !! Z.of_nat i with Some k => Some k | None => largestIllegal M !! Z.of_nat i end)) as Hli.
  { unfold linearizationIndex. rewrite (proj2 (js_get_nat _ _ _) Hp). simpl. destruct (Largest pd !! Z.of_nat i); [done|].
    by rewrite (proj2 (js_get_nat _ _ _) HM). }
  destruct (Largest pd !! Z.of_nat i) as [k|]; [|destruct (largestIllegal M !! Z.of_nat i) as [k|] eqn:Hk].
  - destruct Hl as (ids & H0 & (lin & -> & Hlin)%list_lookup_fmap_Some & Hin & Hmax). exists (Some (Z.to_nat k)). cbn [fmap option_fmap option_map]. rewrite Z2Nat.id by done.
    rewrite (tooltip_at num_text d p M i _ k lin (sd, si) Hp HM Hma Hel Hli H0 Hlin).
    pose proof (find_step_spec lin (Z.of_nat i) None) as Hf. destruct (find_step lin (Z.of_nat i) None) as [[prev curr]|]; [|done].
    destruct Hf as (j & Hj & Hi & Eprev). eexists. split; [done|]. split; [done|]. split; [|by intros k' [= <-]].
    assert (prev = step_before lin j) as -> by exact Eprev. apply (told_step num_text pd i a (Z.to_nat k) lin j curr); [done|done|done|].
    intros lin' [k' Hk']%list_elem_of_lookup Hin'. destruct (Hmax k' (indices lin')) as [Hle _]; [by rewrite list_lookup_fmap, Hk'|done|].
    unfold len, indices in *. by rewrite !length_fmap in Hle.
  - destruct (ma_largest _ _ Hma _ _ Hk) as (lin & H0 & Hlin & Hin). exists (Some (Z.to_nat k)). cbn [fmap option_fmap option_map]. rewrite Z2Nat.id by done.
    pose proof (list_elem_of_lookup_2 _ _ _ Hlin) as Hlin'.
    assert (forall lin', lin' ∈ PartialLinearizations pd -> Z.of_nat i ∉ indices lin') as Hno by (intros lin' Hin'; apply Hl; by apply list_elem_of_fmap_2).
    destruct (last lin) as [final|] eqn:Hfin; [|apply last_None in Hfin; by destruct (po_lins _ drawn_page_ok d p lin Hp)].
    rewrite (tooltip_at num_text d p M i _ k lin (sd, si) Hp HM Hma Hel Hli H0 Hlin).
    pose proof (find_step_spec lin (Z.of_nat i) None) as Hf. destruct (find_step lin (Z.of_nat i) None) as [[prev curr]|].
    { destruct Hf as (j & Hj & Hi & _). destruct (Hno lin Hlin'). rewrite <- Hi. apply list_elem_of_fmap_2. by eapply list_elem_of_lookup_2. }
    rewrite decide_True, Hfin by done. eexists. split; [done|]. split; [done|]. split; [|by intros k' [= <-]].
    apply (told_invalid num_text pd i a (Z.to_nat k) lin final); [done|done|done|]. by apply (next_follows d pd m).
  - exists None. eexists. split; [done|]. split; [unfold tooltip_text; by rewrite Hli|]. split; [|done]. apply told_nothing. intros lin' Hin'. split.
    + apply Hl. by apply list_elem_of_fmap_2.
    + intros Hf. apply (next_follows d pd m lin' i a Hm Ha) in Hf. destruct (ma_some _ _ Hma lin' (Z.of_nat i) Hin' Hf) as [k Hk']. by rewrite Hk in Hk'.
Qed.

(** Linearization [k] of partition [d] is on the page and not hidden. *)
Definition shown (u : ui) (d k : nat) : Prop := exists r, partialHidden u !! d = Some r /\ r !! k = Some false.

Lemma focus_shown d pd i a o u :
  input !! d = Some pd -> History pd !! i = Some a -> shows_view pg (Some (d, i)) u ->
  linearizationIndex pg (Z.of_nat d) (Z.of_nat i) = Val (Z.of_nat <$> o) -> (forall k, o = Some k -> is_Some (PartialLinearizations pd !! k)) ->
  forall d' k', shown u d' k' <-> d' = d /\ o = Some k'.
Proof.
  intros Hpd Ha Hv Hli Ho d' k'. destruct (part_at d pd Hpd) as (m & _ & Hp). unfold shows_view in Hv. simpl in Hv. rewrite Hli in Hv. injection Hv as _ Hv.
  unfold shown. rewrite Hv. clear Hv. set (base := _ <$> pg_data pg).
  assert (forall d0 r, base !! d0 = Some r -> r !! k' = Some false -> False) as Hbase.
  { intros d0 r (p0 & -> & _)%list_lookup_fmap_Some (x & [=] & _)%list_lookup_fmap_Some. }
  destruct o as [k|]; simpl; [rewrite Nat2Z.id|split; [intros (r & H1 & H2); by exfalso; eauto|by intros [_ [=]]]].
  destruct (Ho k eq_refl) as [lin Hlin].
  assert (base !! d = Some ((fun _ => true) <$> PartialLinearizations pd)) as Hb by (unfold base; by rewrite list_lookup_fmap, Hp).
  destruct (decide (d' = d)) as [->|Hne].
  - rewrite list_lookup_alter_eq, Hb. simpl. split.
    + intros (r & [= <-] & Hr). split; [done|]. destruct (decide (k' = k)) as [->|Hk]; [done|]. rewrite list_lookup_insert_ne in Hr by done.
      apply list_lookup_fmap_Some in Hr as (x & [=] & _).
    + intros [_ [= <-]]. eexists. split; [done|]. apply list_lookup_insert_eq. rewrite length_fmap. by eapply lookup_lt_Some.
  - rewrite list_lookup_alter_ne by done. split; [intros (r & H1 & H2); by exfalso; eauto|naive_solver].
Qed.

End Drawn.

(** ** The page in use *)

Lemma in_box_input L pg d i : drawn input L pg -> in_box pg d i <-> exists pd a, input !! d = Some pd /\ History pd !! i = Some a.
Proof.
  intros Hd. split.
  - intros (p & Hp & Hi). destruct (page_part L pg Hd d p Hp) as (pd & m & Hpd & _ & ->). rewrite part_len in Hi.
    destruct (lookup_lt_is_Some_2 _ _ Hi) as [a Ha]. eauto.
  - intros (pd & a & Hpd & Ha). destruct (part_at L pg Hd d pd Hpd) as (m & _ & Hp). exists (part_of pd m). split; [done|].
    rewrite part_len. by eapply lookup_lt_Some.
Qed.

Lemma page_opens bbox_width client_text :
  (exists d, d ∈ input /\ History d <> []) ->
  exists L pg, render bbox_width client_text input = Val pg /\ drawn input L pg /\ page_ok pg.
Proof.
  intros Hne. destruct (render_drawn bbox_width client_text input input_drawable Hne) as (L & X & pg & Hr & _ & _ & Hd).
  exists L, pg. split_and!; [done|done|]. by apply drawn_page_ok with L.
Qed.

End Page.

(** Events on the operations of the input *)
Definition on_input (input : list partitionVisualizationData) (ev : ui_event) : Prop :=
  match ev with
  | MouseOver d i | MouseMove d i _ _ | MouseOut d i | Click d i => exists pd a, input !! d = Some pd /\ History pd !! i = Some a
  | BgClick | JumpClick => True
  end.

Lemma on_input_ok input L pg evs : drawn input L pg -> Forall (on_input input) evs -> Forall (ev_ok pg) evs.
Proof.
  intros Hd Hev. eapply Forall_impl; [exact Hev|]. intros [d i|d i px py|d i|d i| |]; simpl; try done; apply (in_box_input input L pg d i Hd).
Qed.

Section Use.
Variables (bbox_width : string -> Qc) (client_text : Z -> string) (num_text : Qc -> string).

(** C27: The page stays usable.  No sequence of mouse events on the operations of a drawable history makes a handler of
    its page fail; afterwards at most one box is marked, the one selected, and then only its partition and the
    linearization looked up for it are shown; the link to the errors is active exactly if one is shown; and a click on
    the background takes the mark away and shows every partition with its first linearization again. *)
Theorem page_stays_usable input :
  drawable input -> largest_named input -> (exists d, d ∈ input /\ History d <> []) ->
  exists pg, render bbox_width client_text input = Val pg /\ forall evs, Forall (on_input input) evs ->
    exists u u', ui_run pg num_text (ui_init pg) evs = Val u /\ ui_step pg num_text u BgClick = Val u' /\
      (if selected u then exists d i, in_box pg d i /\ selectedIndex u = (Z.of_nat d, Z.of_nat i) /\ rectSelected u = one_marked pg d i /\
         (historyHidden u, partialHidden u) = view_of pg (Some (d, i))
       else rectSelected u = none_marked pg) /\
      (jumpActive u = true <-> exists e, e ∈ errorPoints pg /\ point_shown (partialHidden u) e = true) /\
      selected u' = false /\ rectSelected u' = none_marked pg /\
      (selected u = true -> (historyHidden u', partialHidden u') = view_of pg None).
Proof.
  intros Hdr Hl Hne. destruct (page_opens input Hdr Hl bbox_width client_text Hne) as (L & pg & Hr & Hd & Hok). exists pg. split; [done|]. intros evs Hev.
  destruct (ui_run_ok pg num_text Hok evs (ui_init pg) (ui_init_ok pg num_text)) as (u & Hu & Huok); [by apply (on_input_ok input L)|].
  destruct (deselect_ok pg num_text u Huok) as (u' & Hu' & _ & Hs & Hrs & _ & Hv & _). exists u, u'. split_and!; try done.
  - pose proof (uo_selection _ _ _ Huok) as Hsel. destruct (selected u); [|by destruct Hsel]. destruct Hsel as (d & i & ? & ? & ? & ?). by exists d, i.
  - pose proof (uo_jump _ _ _ Huok) as Hj. split.
    + intros Ha. rewrite Ha in Hj. destruct Hj as (k & e & _ & (Hk & He & _)%list_find_Some). exists e. split; [by eapply list_elem_of_lookup_2|done].
    + intros (e & Hin & He). destruct (jumpActive u); [done|]. apply list_find_None in Hj. rewrite Forall_forall in Hj. by destruct (Hj e Hin).
Qed.

(** C26: The tooltip is right.  When nothing is selected, pointing at an operation shows one linearization at most and
    tells: the state it leads to and the one before it in one of the longest partial linearizations with it; else,
    that it is invalid after one which it could follow in real time; else, that it is part of none. *)
Theorem tooltip_right input d pd i a pageX pageY :
  drawable input -> largest_named input -> input !! d = Some pd -> History pd !! i = Some a ->
  exists pg, render bbox_width client_text input = Val pg /\ forall evs u, Forall (on_input input) evs ->
    ui_run pg num_text (ui_init pg) evs = Val u -> selected u = false ->
    exists u' o, ui_run pg num_text u [MouseOver d i; MouseMove d i pageX pageY] = Val u' /\
      told num_text pd i a o (tooltip u') /\ tooltipOpacity u' = 1 /\ tooltipAt u' = (pageX + 20, pageY + 20) /\
      forall d' k', shown u' d' k' <-> d' = d /\ o = Some k'.
Proof.
  intros Hdr Hl Hpd Ha. destruct (page_opens input Hdr Hl bbox_width client_text) as (L & pg & Hr & Hd & Hok).
  { exists pd. split; [by eapply list_elem_of_lookup_2|]. intros E. by rewrite E in Ha. }
  exists pg. split; [done|]. intros evs u Hev Hu Hsel.
  destruct (ui_run_ok pg num_text Hok evs (ui_init pg) (ui_init_ok pg num_text)) as (u0 & Hu0 & Huok); [by apply (on_input_ok input L)|].
  rewrite Hu in Hu0. injection Hu0 as <-.
  assert (in_box pg d i) as Hb by (apply (in_box_input input L pg d i Hd); eauto).
  destruct (over_ok pg num_text Hok d i u Hb Huok) as (u1 & H1 & Hok1 & _ & Hs1 & _ & Hv1 & Hop).
  destruct (move_ok pg num_text Hok d i pageX pageY u1 Hb Hok1) as (u2 & H2 & _ & Ht & Hat & Hop2 & _ & _ & Hv2).
  rewrite Hs1, Hsel in Ht. destruct (tooltip_told input Hdr Hl L pg Hd num_text d pd i a (selectedIndex u1) Hpd Ha) as (o & t & Hli & Ht' & Htold & Hsome).
  rewrite Ht in Ht'. injection Ht' as <-. exists u2, o. simpl. rewrite H1. simpl. rewrite H2. simpl. split_and!; try done; [by rewrite Hop2|].
  apply (focus_shown input L pg Hd d pd i a o u2 Hpd Ha); [|done|done]. unfold shows_view in *. rewrite Hv2. by apply Hv1.
Qed.

End Use.
(** ** An example: [c] is called when [b] returns, and may not follow it. *)

Definition demo_lin : list linearizationStep := [mkStep 0 "s0"; mkStep 1 "s1"].
Definition demo : list partitionVisualizationData :=
  [mkData [mkElement 0 0 10 "a"; mkElement 1 5 20 "bb"; mkElement 0 20 30 "c"] [demo_lin] (<[0 := 0]> {[1 := 0]})].

Lemma demo_drawable : drawable demo.
Proof.
  constructor; intros d; [intros el Hd Hel|intros el Hd Hel|intros lin Hd Hl..|intros lin j id y i x Hd Hl Hj Hy Hx Hn];
    apply list_elem_of_singleton in Hd as ->; try apply list_elem_of_singleton in Hl as ->; simpl in *.
  - set_unfold. destruct_or?; subst; simpl; lia.
  - eexists _, (mkElement 0 20 30 "c"). split; [by apply list_elem_of_singleton|]. set_unfold. split; [tauto|]. destruct_or?; subst; simpl; lia.
  - done.
  - by apply (bool_decide_unpack _).
  - repeat constructor; done.
  - unfold demo_lin in *. destruct j as [|[|j]]; simplify_eq/=; destruct i as [|[|[|i]]]; simplify_eq/=; try lia.
Qed.

Lemma demo_largest : largest_named demo.
Proof.
  intros d ->%list_elem_of_singleton j. simpl. unfold largest_in. rewrite lookup_insert, lookup_singleton. repeat case_decide; subst; simpl.
  1,2: eexists; split_and!; [done|done|set_solver|]; intros [|k'] q; [intros [= <-]; lia|done].
  intros q ->%list_elem_of_singleton. unfold indices, demo_lin. set_solver.
Qed.

Definition demo_width (s : string) : Qc := lit (7 * Z.of_nat (String.length s)).

Lemma page_stays_usable_witness :
  exists pg, render demo_width (fun _ => "") demo = Val pg /\
    exists u u', ui_run pg (fun _ => "") (ui_init pg) [Click 0 2; MouseMove 0 0 1 1; Click 0 1; JumpClick] = Val u /\
      ui_step pg (fun _ => "") u BgClick = Val u' /\ selected u' = false.
Proof.
  destruct (page_stays_usable demo_width (fun _ => "") (fun _ => "") demo demo_drawable demo_largest) as (pg & Hr & Hall).
  { eexists. split; [by apply list_elem_of_singleton|done]. }
  exists pg. split; [exact Hr|]. clear Hr. destruct (Hall [Click 0 2; MouseMove 0 0 1 1; Click 0 1; JumpClick]) as (u & u' & Hu & Hu' & _ & _ & Hs & _).
  { repeat (apply Forall_cons; split; [simpl; by eexists _, _ || exact I|]). constructor. }
  exists u, u'. auto.
Defined.

Lemma tooltip_right_witness :
  exists pg u, render demo_width (fun _ => "") demo = Val pg /\ ui_run pg (fun _ => "t") (ui_init pg) [MouseOver 0 2; MouseMove 0 2 3 4] = Val u /\
    tooltip u = "<strong>Previous state:</strong><br>s1<br><br><strong>New state:</strong><br>&langle;invalid op&rangle;<br><br>Call: t<br><br>Return: t" /\
    shown u 0 0.
Proof.
  destruct (tooltip_right demo_width (fun _ => "") (fun _ => "t") demo 0 (mkData [mkElement 0 0 10 "a"; mkElement 1 5 20 "bb"; mkElement 0 20 30 "c"]
    [demo_lin] (<[0 := 0]> {[1 := 0]})) 2 (mkElement 0 20 30 "c") 3 4 demo_drawable demo_largest eq_refl eq_refl) as (pg & Hr & Hall).
  destruct (Hall [] (ui_init pg)) as (u & o & Hu & Ht & _ & _ & Hs); [constructor|reflexivity|apply ui_init_selected|].
  exists pg, u. split; [exact Hr|]. split; [exact Hu|]. clear Hr Hu Hall. revert Hs. inversion Ht as [k lin j curr Hk Hj Hi _ E1 E2|k lin final _ Hk Hf _ E1 E2|Hno E1 E2]; intros Hs.
  - destruct k as [|[|]]; simplify_eq/=. destruct j as [|[|[|]]]; simplify_eq/=.
  - destruct k as [|[|]]; simplify_eq/=. split; [done|]. by apply Hs.
  - exfalso. apply (proj2 (Hno demo_lin ltac:(set_solver))). split; [unfold indices; simpl; set_solver|].
    intros [|[|[|i]]] b; simpl; intros [= <-]; simpl; try lia. intros []. unfold indices. simpl. set_solver.
Defined.

Lemma picture_faithful_witness : exists pg, render demo_width (fun _ => "") demo = Val pg /\
  exists b t, box_at pg 0 1 = Some (b, t) /\ t_content t = "bb".
Proof.
  destruct (picture_faithful demo_width (fun _ => "") demo demo_drawable) as (pg & Hr & Hbox & _).
  { eexists. split; [by apply list_elem_of_singleton|done]. }
  exists pg. split; [exact Hr|]. clear Hr. destruct (Hbox 0%nat _ 1%nat _ eq_refl eq_refl) as (b & t & _ & Hb & _ & Ht & _). by exists b, t.
Defined.

(** An operation called and returned at the last timestamp is drawn nowhere: there is no later timestamp to move its
    end to, and the width of its box is added to the place of its start before that is known. *)
Definition instant_last : list partitionVisualizationData := [mkData [mkElement 0 1 3 "a"; mkElement 1 5 5 "b"] [] ∅].

Theorem instant_last_nowhere :
  exists pg b t, render demo_width (fun _ => "") instant_last = Val pg /\ box_at pg 0 1 = Some (b, t) /\ r_x b = None /\ r_width b = None.
Proof. eexists _, _, _. split; [vm_compute; reflexivity|]. split; [vm_compute; reflexivity|]. split; vm_compute; reflexivity. Qed.

End VisPage.
