(* ===== verification/VisCheck.v ===== *)
(** * The page of a check

    The data that a verbose check leaves for the page can be laid out: partial linearizations respect real time,
    so that what the layout waits for has been placed. *)

From stdpp Require Import base list gmap strings numbers countable sorting.
From Stdlib Require Import ZArith Lia QArith Qcanon Lqa.
From S2P Require Import Prelude JsNum Bitset PorcModel PorcList PorcCheck PorcSpec PorcCorrect PorcPartial PorcOrder PorcTop PorcVis.
From S2P Require Import VisLayout VisScan VisOptimal VisDraw VisUi VisPage.
Import PorcList PorcCheck PorcSpec PorcCorrect PorcPartial PorcOrder PorcTop PorcVis VisLayout VisScan VisOptimal VisDraw VisUi VisPage.

Open Scope Z_scope.

Module VisCheck.

Section Check.
Context {Inp Out St : Type} `{EqDecision St} `{!Inhabited Inp, !Inhabited Out}.
Variables (ddo : Inp -> Out -> string) (dds : St -> string).
Variable sort_partials : list (list Z) -> list (list Z).
Variable (sort_byTime : list (@entry Inp Out) -> list (@entry Inp Out)) (map_range : list (nat * list Z) -> list (nat * list Z)).

Lemma annotate_index (m : Model Inp Out St) inp out st s : Index <$> annotate dds m inp out st s = s.
Proof. revert st. induction s as [|i s IH]; intros st; simpl; [done|]. by rewrite IH. Qed.

Lemma annotate_lookup (m : Model Inp Out St) inp out st s j id :
  annotate dds m inp out st s !! j = Some id -> s !! j = Some (Index id).
Proof.
  intros Hj. rewrite <- (annotate_index m inp out st s), list_lookup_fmap, Hj. done.
Qed.

Lemma entries_quot (h : list (Operation Inp Out)) : sorts_byTime sort_byTime -> Z.quot (len (makeEntries sort_byTime h)) 2 = len h.
Proof.
  intros Hs. unfold makeEntries, len. rewrite (Permutation_length (sb_perm _ Hs _)), makeEntries_loop_length.
  replace (Z.of_nat (2 * length h)) with (Z.of_nat (length h) * 2) by lia. apply Z.quot_mul. lia.
Qed.

Lemma check_drawable m h timeout sched late result info :
  sorts_byTime sort_byTime -> (forall l, map_range l ≡ₚ l) -> (forall l, sort_partials l ≡ₚ l) ->
  Forall timed (partitions_of m h) -> (forall inp out, equal_sound (Step m) inp out (equal_of m)) ->
  CheckOperationsVerbose ddo dds sort_byTime map_range m h timeout sched late = Val (Some (result, info)) ->
  exists data info', computeVisualizationData ddo dds sort_partials m info = Val (data, info') /\
    History <$> data = (fun sub => element_of ddo m <$> sub) <$> partitions_of m h /\ drawable data /\ largest_named data.
Proof.
  intros Hs Hm Hsp Ht He Hc.
  destruct (data_of_check ddo dds sort_partials sort_byTime map_range m h timeout sched late result info Hs Hm Hsp Ht He Hc)
    as (data & info' & Hd & Hl & Hall).
  exists data, info'. split; [done|]. rewrite Forall_forall in Ht.
  assert (forall d, d ∈ data -> exists sub partials, sub ∈ partitions_of m h /\ History d = element_of ddo m <$> sub /\
            PartialLinearizations d = annotate dds m (inp_of sub) (out_of sub) (Init m) <$> sort_partials partials /\
            Forall (fun s => partial_run (Init m) (Step m) (inp_of sub) (out_of sub) (len sub) s /\ order_run (events (makeEntries sort_byTime sub)) s)
              (sort_partials partials) /\
            forall j, largest_in (sort_partials partials) j (Largest d !! j)) as Hdata.
  { intros d [i Hi]%list_elem_of_lookup. destruct (lookup_lt_is_Some_2 (partitions_of m h) i) as [sub Hsub].
    { apply lookup_lt_Some in Hi. lia. }
    destruct (Hall i sub Hsub) as (d' & partials & Hd' & _ & _ & HF & Hh & Hp & Hlg). rewrite Hi in Hd'. injection Hd' as <-.
    exists sub, partials. rewrite (entries_quot sub Hs) in HF. split_and!; try done; [by eapply list_elem_of_lookup_2|by rewrite Hsp]. }
  assert (forall d el, d ∈ data -> el ∈ History d -> Start el < End_ el) as Horder.
  { intros d el Hin Hel. destruct (Hdata d Hin) as (sub & _ & Hsub & Hh & _). rewrite Hh in Hel.
    apply list_elem_of_fmap in Hel as (op & -> & [k Hk]%list_elem_of_lookup). simpl. by apply (td_order _ (Ht sub Hsub) k). }
  split.
  { apply list_eq. intros i. rewrite !list_lookup_fmap. destruct (partitions_of m h !! i) as [sub|] eqn:Hi.
    - destruct (Hall i sub Hi) as (d & partials & -> & _ & _ & _ & Hh & _). simpl. by rewrite Hh.
    - apply lookup_ge_None in Hi. rewrite (lookup_ge_None_2 data i) by lia. done. }
  split; [constructor|].
  - intros d el Hin Hel. pose proof (Horder d el Hin Hel). lia.
  - intros d el Hin Hel. exists d, el. eauto.
  - intros d lin Hin Hlin. destruct (Hdata d Hin) as (sub & partials & _ & _ & Hp & HF & _). rewrite Hp in Hlin.
    apply list_elem_of_fmap in Hlin as (s & -> & Hsin). rewrite Forall_forall in HF. destruct (HF s Hsin) as [_ [Hne _ _]]. by destruct s.
  - intros d lin Hin Hlin. destruct (Hdata d Hin) as (sub & partials & _ & _ & Hp & HF & _). rewrite Hp in Hlin.
    apply list_elem_of_fmap in Hlin as (s & -> & Hsin). rewrite Forall_forall in HF. destruct (HF s Hsin) as [_ [_ Hn _]]. by rewrite annotate_index.
  - intros d lin Hin Hlin. destruct (Hdata d Hin) as (sub & partials & _ & Hh & Hp & HF & _). rewrite Hp in Hlin.
    apply list_elem_of_fmap in Hlin as (s & -> & Hsin). rewrite Forall_forall in HF. destruct (HF s Hsin) as [[_ Hr] _].
    rewrite Hh. unfold len. rewrite length_fmap. apply Forall_forall. intros id Hid. rewrite Forall_forall in Hr. apply Hr.
    rewrite <- (annotate_index m (inp_of sub) (out_of sub) (Init m) s). by apply list_elem_of_fmap_2.
  - intros d lin j id y i x Hin Hlin Hj Hy Hx Hn. destruct (Hdata d Hin) as (sub & partials & Hsub & Hh & Hp & HF & _). rewrite Hp in Hlin.
    apply list_elem_of_fmap in Hlin as (s & -> & Hsin). rewrite Forall_forall in HF. destruct (HF s Hsin) as [[_ Hr] [_ _ Ho]].
    rewrite fmap_take, annotate_index in Hn. apply annotate_lookup in Hj.
    rewrite Hh, list_lookup_fmap in Hy, Hx. destruct (sub !! Z.to_nat (Index id)) as [a|] eqn:Ha; [|done]. destruct (sub !! i) as [b|] eqn:Hb; [|done].
    injection Hy as <-. injection Hx as <-. simpl. specialize (Ho j (Index id) (Z.of_nat i) Hj Hn).
    eapply Forall_lookup_1 in Hr; [|exact Hj]. rewrite <- (Z2Nat.id (Index id)) in Ho by lia.
    rewrite (precedes_times sort_byTime sub Hs (Ht sub Hsub) i (Z.to_nat (Index id)) b a Hb Ha) in Ho. lia.
  - intros d Hin j. destruct (Hdata d Hin) as (sub & partials & _ & _ & Hp & _ & Hlg). rewrite Hp, <- list_fmap_compose.
    rewrite (list_fmap_ext (indices ∘ _) (fun s => s)); [by rewrite list_fmap_id|]. intros k s _. apply annotate_index.
Qed.

(** The page has a box if a partition has an operation. *)
Lemma history_some (data : list partitionVisualizationData) (parts : list (list (Operation Inp Out))) (m : Model Inp Out St) sub :
  History <$> data = (fun sub => element_of ddo m <$> sub) <$> parts -> sub ∈ parts -> sub <> [] -> exists d : partitionVisualizationData, d ∈ data /\ History d <> [].
Proof.
  intros Hh [i Hi]%list_elem_of_lookup Hne. assert ((History <$> data) !! i = Some (element_of ddo m <$> sub)) as E.
  { rewrite Hh. by rewrite list_lookup_fmap, Hi. }
  rewrite list_lookup_fmap in E. destruct (data !! i) as [d|] eqn:Hi'; [|done]. injection E as E. exists d.
  split; [by eapply list_elem_of_lookup_2|]. rewrite E. by destruct sub.
Qed.

(** The page of a check opens, and its handlers do not fail. *)
Theorem check_page bbox_width client_text num_text m h timeout sched late result info :
  sorts_byTime sort_byTime -> (forall l, map_range l ≡ₚ l) -> (forall l, sort_partials l ≡ₚ l) ->
  Forall timed (partitions_of m h) -> (forall inp out, equal_sound (Step m) inp out (equal_of m)) ->
  (exists sub, sub ∈ partitions_of m h /\ sub <> []) ->
  CheckOperationsVerbose ddo dds sort_byTime map_range m h timeout sched late = Val (Some (result, info)) ->
  exists data info' pg, computeVisualizationData ddo dds sort_partials m info = Val (data, info') /\
    render bbox_width client_text data = Val pg /\
    forall evs, Forall (on_input data) evs -> exists u, ui_run pg num_text (ui_init pg) evs = Val u /\ ui_ok pg num_text u.
Proof.
  intros Hs Hm Hsp Ht He (sub & Hsub & Hne) Hc.
  destruct (check_drawable m h timeout sched late result info Hs Hm Hsp Ht He Hc) as (data & info' & Hd & Hh & Hdr & Hl).
  destruct (page_opens data Hdr Hl bbox_width client_text (history_some _ _ _ _ Hh Hsub Hne)) as (L & pg & Hr & Hdn & Hok).
  exists data, info', pg. split_and!; [done|done|]. intros evs Hev. apply ui_run_ok; [done|apply ui_init_ok|by apply (on_input_ok data L)].
Qed.

(** C24: The page of a verbose check shows it: from whatever the check reports of timed operations, finished or cut
    short, the data is computed without a panic and laid out without a TypeError or a NaN.  The boxes are those of
    the operations, and the layout is the least one in which timestamps are told apart, boxes hold their texts and
    the points of each partial linearization are in their boxes, in order. *)
Theorem check_laid_out bbox_width m h timeout sched late result info :
  sorts_byTime sort_byTime -> (forall l, map_range l ≡ₚ l) -> (forall l, sort_partials l ≡ₚ l) ->
  Forall timed (partitions_of m h) -> (forall inp out, equal_sound (Step m) inp out (equal_of m)) ->
  (exists sub, sub ∈ partitions_of m h /\ sub <> []) ->
  CheckOperationsVerbose ddo dds sort_byTime map_range m h timeout sched late = Val (Some (result, info)) ->
  exists data info' L X P, computeVisualizationData ddo dds sort_partials m info = Val (data, info') /\
    History <$> data = (fun sub => element_of ddo m <$> sub) <$> partitions_of m h /\
    compute_layout bbox_width data = Val L /\
    (forall t, t ∈ l_sorted L -> xPos L !! Some t = Some (X t)) /\
    linearizationPositions L = (fun ps : list Qc => Some <$> ps) <$> P /\
    spaced bbox_width (l_data L) (l_sorted L) X P /\
    forall Y Q, spaced bbox_width (l_data L) (l_sorted L) Y Q ->
      (forall t, t ∈ l_sorted L -> (X t <= Y t)%Qc) /\ Forall2 (Forall2 Qcle) P Q.
Proof.
  intros Hs Hm Hsp Ht He (sub & Hsub & Hne) Hc.
  destruct (check_drawable m h timeout sched late result info Hs Hm Hsp Ht He Hc) as (data & info' & Hd & Hh & Hdr & _).
  destruct (layout_least bbox_width data Hdr (history_some _ _ _ _ Hh Hsub Hne)) as (L & X & P & HL).
  exists data, info', L, X, P. tauto.
Qed.

End Check.
End VisCheck.
