(* ===== verification/PorcEvents.v ===== *)
(** * Histories of events

    [CheckEvents] takes calls and returns in the order they were seen, with identifiers of any kind.
    [renumber] replaces them by 0, 1, .. in the order of their first use and [convertEntries] makes entries of
    them.  Renaming the operations of a history does not change whether it is linearizable, so the
    verdict is about the history as it was given. *)

From stdpp Require Import base list gmap strings sorting.
From Stdlib Require Import ZArith Lia.
From S2P Require Import Prelude Bitset PorcModel PorcList PorcCheck PorcSpec PorcCorrect PorcTop.
Import PorcList PorcCheck PorcSpec PorcCorrect PorcTop.

Open Scope Z_scope.

Module PorcEvents.

(** ** Renaming operations *)

Section Rename.
Context {Inp Out St : Type}.
Variable Step : St -> Inp -> Out -> bool * St.

Definition rename (f : Z -> Z) (es : list (bool * Z)) : list (bool * Z) := (fun e => (e.1, f e.2)) <$> es.

Definition used (es : list (bool * Z)) (i : Z) : Prop := exists b, (b, i) ∈ es.

Lemma elem_of_rename f es b j : (b, j) ∈ rename f es <-> exists i, (b, i) ∈ es /\ j = f i.
Proof.
  unfold rename. rewrite list_elem_of_fmap. split.
  - intros ([b' i] & [= -> ->] & Hin). eauto.
  - intros (i & Hin & ->). by exists (b, i).
Qed.

Lemma rename_split f es A b j B :
  rename f es = A ++ (b, j) :: B ->
  exists A' i B', es = A' ++ (b, i) :: B' /\ A = rename f A' /\ j = f i /\ B = rename f B'.
Proof.
  unfold rename. intros E. apply fmap_app_inv in E as (A' & R & -> & E & ->).
  symmetry in E. destruct R as [|[b' i] B']; [done|]. simpl in E. injection E as <- <- <-. by exists A', i, B'.
Qed.

Section Injective.
Variables (f g : Z -> Z) (es : list (bool * Z)).
Hypothesis (Hg : forall i, used es i -> g (f i) = i).

Lemma used_inj i i' : used es i -> used es i' -> f i = f i' -> i = i'.
Proof. intros H1 H2 E%(f_equal g). by rewrite !Hg in E. Qed.

Lemma rename_wf : wf_history es -> wf_history (rename f es).
Proof.
  intros [Hn Hc Hr]. constructor.
  - apply NoDup_fmap_2_strong; [|done]. intros [b i] [b' i'] H1 H2 [= -> E].
    f_equal. apply used_inj; [by eexists|by eexists|done].
  - intros j A B E. apply rename_split in E as (A' & i & B' & -> & -> & -> & ->).
    apply elem_of_rename. exists i. split; [|done]. by eapply Hc.
  - intros j (i & Hin & ->)%elem_of_rename. apply elem_of_rename. eauto.
Qed.

Lemma accepts_rename inp out inp' out' st l :
  (forall i, i ∈ l -> inp' (f i) = inp i /\ out' (f i) = out i) ->
  accepts Step inp out st l -> accepts Step inp' out' st (f <$> l).
Proof.
  revert st. induction l as [|i l IH]; intros st Hv; simpl; [done|]. intros [H1 H2].
  destruct (Hv i) as [-> ->]; [by left|]. split; [done|]. apply IH; [|done]. intros j Hj. apply Hv. by right.
Qed.

Lemma ordered_rename l a b : ordered l a b -> ordered (f <$> l) (f a) (f b).
Proof.
  intros (A & B & C & ->). exists (f <$> A), (f <$> B), (f <$> C). rewrite fmap_app. simpl. by rewrite fmap_app.
Qed.

Lemma linearizable_rename inp out inp' out' st :
  (forall i, used es i -> inp' (f i) = inp i /\ out' (f i) = out i) ->
  linearizable Step inp out es st -> linearizable Step inp' out' (rename f es) st.
Proof.
  intros Hv (l & [Hn Hops Hord Hacc]). exists (f <$> l).
  assert (forall i, i ∈ l -> used es i) as Hu by (intros i Hi; exists false; by apply Hops).
  constructor.
  - apply NoDup_fmap_2_strong; [|done]. intros x y Hx Hy E. apply used_inj; auto.
  - intros j. rewrite list_elem_of_fmap, elem_of_rename. split; intros (i & H1 & H2).
    + exists i. split; [by apply Hops|done].
    + exists i. split; [done|by apply Hops].
  - intros a b (A & B & C & E). apply rename_split in E as (A' & i & R & Ees & _ & -> & E).
    symmetry in E. apply rename_split in E as (B' & i2 & C' & -> & _ & -> & _).
    apply ordered_rename, Hord. by exists A', B', C'.
  - apply (accepts_rename inp out); [|done]. auto.
Qed.

End Injective.

Lemma rename_back f g es : (forall i, used es i -> g (f i) = i) -> rename g (rename f es) = es.
Proof.
  intros Hg. induction es as [|[b i] es IH]; simpl; [done|].
  rewrite Hg by (exists b; set_solver). f_equal. apply IH. intros j [b' Hj]. apply Hg. exists b'. set_solver.
Qed.

Lemma linearizable_rename_iff f g inp out inp' out' es st :
  (forall i, used es i -> g (f i) = i) ->
  (forall i, used es i -> inp' (f i) = inp i /\ out' (f i) = out i) ->
  linearizable Step inp' out' (rename f es) st <-> linearizable Step inp out es st.
Proof.
  intros Hg Hv. split; [|by eapply linearizable_rename].
  intros Hl. rewrite <- (rename_back f g es Hg). revert Hl. apply (linearizable_rename g f).
  - intros j (b & (i & Hin & ->)%elem_of_rename). rewrite Hg by (by eexists). done.
  - intros j (b & (i & Hin & ->)%elem_of_rename). destruct (Hv i) as [-> ->]; [by eexists|].
    by rewrite Hg by (by eexists).
Qed.

End Rename.

(** ** [renumber] *)

Section Renumber.
Context {Inp Out : Type}.
Notation Event := (Event Inp Out).

Definition hevents (evs : list Event) : list (bool * Z) := (fun e => (ev_Kind e, ev_Id e)) <$> evs.

Definition with_id (f : Z -> Z) (e : Event) : Event := mkEvent (ev_ClientId e) (ev_Kind e) (ev_Value e) (f (ev_Id e)).

(** The map [m] at the end of the loop *)
Fixpoint numbering (evs : list Event) (m : gmap Z Z) (i : Z) : gmap Z Z :=
  match evs with
  | [] => m
  | v :: rest => match m !! ev_Id v with
                 | Some _ => numbering rest m i
                 | None => numbering rest (<[ev_Id v := i]> m) (i + 1)
                 end
  end.

Record numbers (m : gmap Z Z) (i : Z) : Prop := {
  nu_range k v : m !! k = Some v -> 0 <= v < i;
  nu_inj k k' v : m !! k = Some v -> m !! k' = Some v -> k = k';
  nu_size : i = Z.of_nat (size m) }.

Lemma numbers_insert m i k : numbers m i -> m !! k = None -> numbers (<[k := i]> m) (i + 1).
Proof.
  intros [Hr Hi Hs] Hk. constructor.
  - intros k' v [[_ <-]|[_ Hv]]%lookup_insert_Some; [lia|]. apply Hr in Hv. lia.
  - intros k1 k2 v [[<- <-]|[H1 Hv1]]%lookup_insert_Some [[<- Hv2]|[H2 Hv2]]%lookup_insert_Some; try done.
    + apply Hr in Hv2. lia.
    + subst. apply Hr in Hv1. lia.
    + by eapply Hi.
  - rewrite map_size_insert_None by done. lia.
Qed.

Lemma numbering_spec evs m i :
  numbers m i ->
  m ⊆ numbering evs m i /\ numbers (numbering evs m i) (Z.of_nat (size (numbering evs m i))) /\
  dom (numbering evs m i) = dom m ∪ list_to_set (ev_Id <$> evs).
Proof.
  revert m i. induction evs as [|v evs IH]; intros m i Hm; simpl.
  - split_and!; [done| |set_solver]. by rewrite <- (nu_size _ _ Hm).
  - destruct (m !! ev_Id v) as [r|] eqn:Hv.
    + destruct (IH m i Hm) as (H1 & H2 & H3). split_and!; [done|done|]. rewrite H3.
      apply elem_of_dom_2 in Hv. set_solver.
    + destruct (IH _ _ (numbers_insert _ _ _ Hm Hv)) as (H1 & H2 & H3). split_and!; [|done|].
      * etrans; [by apply insert_subseteq|exact H1].
      * rewrite H3, dom_insert_L. set_solver.
Qed.

Lemma renumber_loop_spec evs m i :
  numbers m i ->
  renumber_loop evs m i = with_id (fun k => numbering evs m i !!! k) <$> evs.
Proof.
  revert m i. induction evs as [|v evs IH]; intros m i Hm; simpl; [done|].
  destruct (m !! ev_Id v) as [r|] eqn:Hv.
  - rewrite IH by done. f_equal. unfold with_id. f_equal. symmetry. apply lookup_total_correct.
    eapply lookup_weaken; [exact Hv|]. by apply numbering_spec.
  - pose proof (numbers_insert _ _ _ Hm Hv) as Hm'. rewrite IH by done. f_equal. unfold with_id. f_equal. symmetry.
    apply lookup_total_correct. eapply lookup_weaken; [apply lookup_insert_eq|]. by apply numbering_spec.
Qed.

Lemma numbers_empty : numbers ∅ 0.
Proof. constructor; [set_solver..|]. by rewrite map_size_empty. Qed.

End Renumber.

(** ** Well-formed histories have half as many operations as events *)

Definition ids (es : list (bool * Z)) : gset Z := list_to_set (snd <$> es).

Lemma filter_split_length {A} (p : A -> bool) (l : list A) :
  (length (filter (fun x => p x = true) l) + length (filter (fun x => p x = false) l) = length l)%nat.
Proof.
  induction l as [|x l IH]; [done|]. rewrite !filter_cons. destruct (p x) eqn:E.
  - rewrite decide_True, decide_False by congruence. simpl. lia.
  - rewrite decide_False, decide_True by congruence. simpl. lia.
Qed.

Lemma wf_call_of es i : wf_history es -> used es i -> (false, i) ∈ es.
Proof.
  intros Hw [[] Hi]; [|done]. apply list_elem_of_split in Hi as (A & B & ->).
  pose proof (wfh_call _ Hw i A B eq_refl). set_solver.
Qed.

Lemma kind_ids es b : wf_history es -> size (ids es) = length (filter (fun e => e.1 = b) es).
Proof.
  intros Hw. set (l := filter _ es).
  assert (NoDup (snd <$> l)) as Hn.
  { apply NoDup_fmap_2_strong; [|apply NoDup_filter, Hw]. intros [b1 i] [b2 j] H1 H2 E. simpl in E. subst l.
    rewrite list_elem_of_filter in H1, H2. simpl in *. destruct H1 as [-> _], H2 as [-> _]. by subst. }
  rewrite <- (length_fmap snd l), <- (size_list_to_set (C := gset Z) (snd <$> l) Hn). f_equal.
  apply set_eq. intros i. unfold ids. rewrite !elem_of_list_to_set, !list_elem_of_fmap. split.
  - intros ([b' j] & -> & Hin). exists (b, j). split; [done|]. apply list_elem_of_filter. split; [done|]. simpl.
    assert ((false, j) ∈ es) as Hc by (apply wf_call_of; [done|by exists b']).
    destruct b; [by apply (wfh_return _ Hw)|done].
  - intros (e & -> & [_ Hin]%list_elem_of_filter). eauto.
Qed.

Lemma wf_length es : wf_history es -> length es = (2 * size (ids es))%nat.
Proof.
  intros Hw. rewrite <- (filter_split_length fst es), <- !kind_ids by done. lia.
Qed.

(** ** Entries of events *)

Section Events.
Context {Inp Out : Type} `{Inhabited Inp, Inhabited Out}.
Notation Event := (Event Inp Out).

(** A history of events: every operation is called, with an input, and returns, with an output. *)
Record events_wf (evs : list Event) : Prop := {
  ew_history : wf_history (hevents evs);
  ew_call e : e ∈ evs -> ev_Kind e = false -> exists x, ev_Value e = VIn x;
  ew_return e : e ∈ evs -> ev_Kind e = true -> exists y, ev_Value e = VOut y;
  ew_len : len evs <= max_int }.

(** The input and the output of operation [i] *)
Fixpoint input_of (evs : list Event) (i : Z) : Inp :=
  match evs with
  | [] => inhabitant
  | e :: rest =>
      if negb (ev_Kind e) && (ev_Id e =? i) then match ev_Value e with VIn x => x | VOut _ => inhabitant end
      else input_of rest i
  end.
Fixpoint output_of (evs : list Event) (i : Z) : Out :=
  match evs with
  | [] => inhabitant
  | e :: rest =>
      if ev_Kind e && (ev_Id e =? i) then match ev_Value e with VOut y => y | VIn _ => inhabitant end
      else output_of rest i
  end.

Lemma hevents_elem (evs : list Event) e : e ∈ evs -> (ev_Kind e, ev_Id e) ∈ hevents evs.
Proof. intros He. apply list_elem_of_fmap. by exists e. Qed.

Lemma input_of_spec evs e x :
  NoDup (hevents evs) -> e ∈ evs -> ev_Kind e = false -> ev_Value e = VIn x -> input_of evs (ev_Id e) = x.
Proof.
  induction evs as [|e' evs IH]; simpl; [set_solver|]. intros [Hn Hd]%NoDup_cons Hin Hk Hv.
  apply elem_of_cons in Hin as [->|Hin].
  - rewrite Hk, Z.eqb_refl. simpl. by rewrite Hv.
  - destruct (negb (ev_Kind e') && (ev_Id e' =? ev_Id e)) eqn:E; [|by apply IH].
    apply andb_true_iff in E as [Ek%negb_true_iff Ei%Z.eqb_eq]. exfalso. apply Hn.
    rewrite Ek, Ei, <- Hk. by apply hevents_elem.
Qed.

Lemma output_of_spec evs e y :
  NoDup (hevents evs) -> e ∈ evs -> ev_Kind e = true -> ev_Value e = VOut y -> output_of evs (ev_Id e) = y.
Proof.
  induction evs as [|e' evs IH]; simpl; [set_solver|]. intros [Hn Hd]%NoDup_cons Hin Hk Hv.
  apply elem_of_cons in Hin as [->|Hin].
  - rewrite Hk, Z.eqb_refl. simpl. by rewrite Hv.
  - destruct (ev_Kind e' && (ev_Id e' =? ev_Id e)) eqn:E; [|by apply IH].
    apply andb_true_iff in E as [Ek Ei%Z.eqb_eq]. exfalso. apply Hn.
    rewrite Ek, Ei, <- Hk. by apply hevents_elem.
Qed.

Lemma convertEntries_loop_spec (evs : list Event) k :
  events (convertEntries_loop evs k) = hevents evs /\ length (convertEntries_loop evs k) = length evs /\
  forall e, e ∈ convertEntries_loop evs k ->
    exists v, v ∈ evs /\ kind e = ev_Kind v /\ id e = ev_Id v /\ evalue e = ev_Value v.
Proof.
  revert k. induction evs as [|v evs IH]; intros k; simpl; [split_and!; [done|done|set_solver]|].
  destruct (IH (k + 1)) as (H1 & H2 & H3).
  assert ((if eqb (ev_Kind v) ReturnEvent then true else false) = ev_Kind v) as -> by (by destruct (ev_Kind v)).
  split_and!; [by rewrite <- H1|by rewrite H2|].
  intros e [->|He]%elem_of_cons; [exists v; split; [by left|done]|].
  destruct (H3 e He) as (w & Hw & Heq). exists w. split; [by right|done].
Qed.

(** The numbering of a history, and back *)
Definition number (evs : list Event) (i : Z) : Z := numbering evs ∅ 0 !!! i.
Definition unnumber (evs : list Event) (j : Z) : Z :=
  (list_to_map ((fun kv => (kv.2, kv.1)) <$> map_to_list (numbering evs ∅ 0)) : gmap Z Z) !!! j.

Lemma number_spec (evs : list Event) i :
  i ∈ ev_Id <$> evs ->
  numbering evs ∅ 0 !! i = Some (number evs i) /\ 0 <= number evs i < Z.of_nat (size (ids (hevents evs))).
Proof.
  intros Hi. destruct (numbering_spec evs ∅ 0 numbers_empty) as (_ & Hn & Hd).
  assert (ids (hevents evs) = dom (numbering evs ∅ 0)) as E.
  { rewrite Hd. unfold ids, hevents. rewrite <- list_fmap_compose. set_solver. }
  assert (is_Some (numbering evs ∅ 0 !! i)) as [v Hv].
  { apply elem_of_dom. rewrite Hd. set_solver. }
  assert (number evs i = v) as -> by (by apply lookup_total_correct). split; [done|].
  rewrite E, size_dom. by eapply nu_range.
Qed.

Lemma unnumber_number (evs : list Event) i : i ∈ ev_Id <$> evs -> unnumber evs (number evs i) = i.
Proof.
  intros [Hi _]%number_spec. destruct (numbering_spec evs ∅ 0 numbers_empty) as (_ & Hn & _).
  unfold unnumber. apply lookup_total_correct. apply elem_of_list_to_map.
  - rewrite <- list_fmap_compose. apply NoDup_fmap_2_strong; [|apply NoDup_map_to_list].
    intros [k v] [k' v'] Hk%elem_of_map_to_list Hk'%elem_of_map_to_list E. simpl in E. subst.
    by rewrite (nu_inj _ _ Hn k k' v' Hk Hk').
  - apply list_elem_of_fmap. exists (i, number evs i). split; [done|]. by apply elem_of_map_to_list.
Qed.

Lemma used_hevents (evs : list Event) i : used (hevents evs) i -> i ∈ ev_Id <$> evs.
Proof. intros (b & (e & [= _ ->] & He)%list_elem_of_fmap). apply list_elem_of_fmap. eauto. Qed.

Lemma renumber_spec (evs : list Event) : renumber evs = with_id (number evs) <$> evs.
Proof. apply renumber_loop_spec, numbers_empty. Qed.

Lemma renumber_hevents (evs : list Event) : hevents (renumber evs) = rename (number evs) (hevents evs).
Proof. rewrite renumber_spec. unfold hevents, rename. by rewrite <- !list_fmap_compose. Qed.

Lemma renumbered_entries evs :
  events_wf evs ->
  wf_entries (fun j => input_of evs (unnumber evs j)) (fun j => output_of evs (unnumber evs j))
    (convertEntries (renumber evs)).
Proof.
  intros [Hw Hc Hr _]. destruct (convertEntries_loop_spec (renumber evs) 0) as (He & Hl & Hin).
  fold (convertEntries (renumber evs)) in *. constructor.
  - rewrite He, renumber_hevents. apply (rename_wf _ (unnumber evs)); [|done].
    intros i Hi. by apply unnumber_number, used_hevents.
  - intros e (v & Hv & _ & -> & _)%Hin. rewrite renumber_spec in Hv.
    apply list_elem_of_fmap in Hv as (w & -> & Hw'). unfold len. rewrite Hl, renumber_spec, length_fmap.
    destruct (number_spec evs (ev_Id w)) as [_ Hb]; [apply list_elem_of_fmap; eauto|].
    pose proof (wf_length _ Hw) as Hlen. unfold hevents in Hlen at 1. rewrite length_fmap in Hlen.
    rewrite Hlen, Z.quot_div_nonneg by lia.
    replace (Z.of_nat (2 * size (ids (hevents evs)))) with (Z.of_nat (size (ids (hevents evs))) * 2) by lia.
    rewrite Z.div_mul by lia. exact Hb.
  - intros e (v & Hv & -> & -> & ->)%Hin. rewrite renumber_spec in Hv.
    apply list_elem_of_fmap in Hv as (w & -> & Hw'). simpl. intros Hk.
    destruct (Hc w Hw' Hk) as [x Hx]. rewrite Hx, unnumber_number by (apply list_elem_of_fmap; eauto).
    by rewrite (input_of_spec evs w x (wfh_nodup _ Hw) Hw' Hk Hx).
  - intros e (v & Hv & -> & -> & ->)%Hin. rewrite renumber_spec in Hv.
    apply list_elem_of_fmap in Hv as (w & -> & Hw'). simpl. intros Hk.
    destruct (Hr w Hw' Hk) as [y Hy]. rewrite Hy, unnumber_number by (apply list_elem_of_fmap; eauto).
    by rewrite (output_of_spec evs w y (wfh_nodup _ Hw) Hw' Hk Hy).
Qed.

End Events.

(** ** CheckEvents *)

Section Check.
Context {Inp Out St : Type} `{Inhabited Inp, Inhabited Out, EqDecision St}.
Variables (ddo : Inp -> Out -> string) (dds : St -> string).
Variable (map_range : list (nat * list Z) -> list (nat * list Z)).

Definition event_partitions (m : Model Inp Out St) (evs : list (Event Inp Out)) : list (list (Event Inp Out)) :=
  default NoPartitionEvent (PartitionEvent m) evs.

(** Linearizability of a history of events, in terms of its own identifiers *)
Definition events_linearizable (m : Model Inp Out St) (evs : list (Event Inp Out)) : Prop :=
  linearizable (Step m) (input_of evs) (output_of evs) (hevents evs) (Init m).

Notation entries_of := (fun sub : list (Event Inp Out) => convertEntries (renumber sub)).

Section Parts.
Variables (m : Model Inp Out St) (evs : list (Event Inp Out)).
Hypothesis (Hwf : Forall events_wf (event_partitions m evs)).
Notation part i := (default [] (event_partitions m evs !! i)).

Lemma event_parts_checkable i es :
  (forall inp out, equal_sound (Step m) inp out (equal_of m)) ->
  (entries_of <$> event_partitions m evs) !! i = Some es ->
  checkable (Step m) (equal_of m) (fun i j => input_of (part i) (unnumber (part i) j))
    (fun i j => output_of (part i) (unnumber (part i) j)) i es.
Proof.
  intros He. rewrite list_lookup_fmap. destruct (event_partitions m evs !! i) as [sub|] eqn:Hi; simpl; [|done].
  intros [= <-]. eapply Forall_lookup_1 in Hwf; [|exact Hi]. constructor; rewrite ?Hi; simpl.
  - by apply renumbered_entries.
  - unfold convertEntries, len. destruct (convertEntries_loop_spec (renumber sub) 0) as (_ & -> & _).
    rewrite renumber_spec, length_fmap. apply (ew_len _ Hwf).
  - apply He.
Qed.

Lemma part_linearizable sub :
  linearizable (Step m) (fun j => input_of sub (unnumber sub j)) (fun j => output_of sub (unnumber sub j))
    (events (convertEntries (renumber sub))) (Init m) <-> events_linearizable m sub.
Proof.
  unfold convertEntries. destruct (convertEntries_loop_spec (renumber sub) 0) as (-> & _). rewrite renumber_hevents.
  apply (linearizable_rename_iff _ _ (unnumber sub)).
  - intros i Hi. by apply unnumber_number, used_hevents.
  - intros i Hi. by rewrite unnumber_number by (by apply used_hevents).
Qed.

Lemma event_parts_linearizable :
  all_linearizable (Init m) (Step m) (entries_of <$> event_partitions m evs)
    (fun i j => input_of (part i) (unnumber (part i) j)) (fun i j => output_of (part i) (unnumber (part i) j)) <->
  Forall (events_linearizable m) (event_partitions m evs).
Proof.
  unfold all_linearizable. rewrite Forall_lookup. split.
  - intros Hall i sub Hi. specialize (Hall i (entries_of sub)). rewrite list_lookup_fmap, Hi in Hall.
    apply part_linearizable. by apply Hall.
  - intros Hall i es. rewrite list_lookup_fmap. destruct (event_partitions m evs !! i) as [sub|] eqn:Hi; simpl; [|done].
    intros [= <-]. apply part_linearizable. by eapply Hall.
Qed.

End Parts.

(** C29: [CheckEvents] terminates once its goroutines have answered, in whatever order, and answers true exactly when every
    partition of the history, a sequence of calls and returns with any identifiers, is linearizable:
    the renumbering of the operations does not change the verdict. *)
Theorem CheckEvents_correct m evs order late :
  Forall events_wf (event_partitions m evs) ->
  (forall inp out, equal_sound (Step m) inp out (equal_of m)) ->
  event_partitions m evs <> [] -> order ≡ₚ seq 0 (length (event_partitions m evs)) ->
  exists b, CheckEvents ddo dds map_range m evs (SelResult <$> order) late = Val (Some b) /\
    (b = true <-> Forall (events_linearizable m) (event_partitions m evs)).
Proof.
  intros Hwf He Hne Hord.
  destruct (checkParallel_complete (Init m) (Step m) (equal_of m) (entries_of <$> event_partitions m evs) _ _ false map_range
              order late 0 (fun i es => event_parts_checkable m evs Hwf i es He)) as (result & info & Hr & Hok & _).
  - by rewrite length_fmap.
  - intros E. apply fmap_nil_inv in E. done.
  - exists (bool_decide (result = Ok)). split; [|by rewrite bool_decide_eq_true, Hok, event_parts_linearizable].
    unfold CheckEvents, is_ok. change (checkEvents _ _ _ _ _ _ _ _ _) with
      (checkParallel (Init m) (Step m) (equal_of m) (entries_of <$> event_partitions m evs) false 0 map_range (SelResult <$> order) late).
    by rewrite Hr.
Qed.

End Check.

(** ** A register, with identifiers out of order *)

Definition reg_model : Model (option Z) Z Z := mkModel None None 0 reg_step None None None.

Definition reg_event (k : bool) (i : Z) (v : value (option Z) Z) : Event (option Z) Z := mkEvent 0 k v i.

(** Operation 40 writes 1 while operation 17 reads 0. *)
Definition reg_events : list (Event (option Z) Z) :=
  [reg_event false 40 (VIn (Some 1)); reg_event false 17 (VIn None); reg_event true 17 (VOut 0); reg_event true 40 (VOut 7)].

Lemma reg_events_wf : events_wf reg_events.
Proof.
  constructor.
  - constructor.
    + apply (bool_decide_unpack _). vm_compute. done.
    + intros i A B Heq. unfold hevents, reg_events, reg_event in Heq. simpl in Heq.
      do 5 (destruct A as [|? A]; simplify_eq/=; try set_solver).
    + intros i Hi. unfold hevents, reg_events in *. simpl in *. set_solver.
  - intros e He. unfold reg_events in He. rewrite !elem_of_cons, elem_of_nil in He. destruct_or?; simplify_eq/=; eauto; done.
  - intros e He. unfold reg_events in He. rewrite !elem_of_cons, elem_of_nil in He. destruct_or?; simplify_eq/=; eauto; done.
  - vm_compute. discriminate.
Qed.

Lemma CheckEvents_correct_witness :
  exists b, CheckEvents (fun _ _ => "") (fun _ => "") (fun l => l) reg_model reg_events [SelResult 0] (fun _ _ => false) = Val (Some b) /\
    (b = true <-> Forall (events_linearizable reg_model) [reg_events]).
Proof.
  apply (CheckEvents_correct (fun _ _ => "") (fun _ => "") (fun l => l) reg_model reg_events [0%nat] (fun _ _ => false)).
  - constructor; [exact reg_events_wf|constructor].
  - intros inp out. apply shallow_sound. reflexivity.
  - discriminate.
  - reflexivity.
Defined.

End PorcEvents.
