(* ===== verification/PorcKv.v ===== *)
(** * The key/value model (models/kv.go)

    [KvModel]: a string per key, with get, put and append, partitioned by key.  A history of operations on
    the store passes the checker exactly when, for each key, the operations on that key are linearizable. *)

From stdpp Require Import base list gmap strings sorting.
From Stdlib Require Import ZArith Lia.
From S2P Require Import Prelude Bitset PorcModel PorcList PorcCheck PorcSpec PorcCorrect PorcTop PorcVis VisLayout VisPage VisCheck.
Import Bitset PorcList PorcCheck PorcSpec PorcCorrect PorcTop.

Open Scope Z_scope.

Module PorcKv.

(** [Op] is a [uint8]: 0 is get, 1 is put, anything else append. *)
Record KvInput := mkKvInput {
  kv_Op : Z;
  kv_Key : string;
  kv_Value : string }.

Record KvOutput := mkKvOutput {
  kv_Result : string }.

#[export] Instance KvInput_inhabited : Inhabited KvInput := populate (mkKvInput 0 "" "").
#[export] Instance KvOutput_inhabited : Inhabited KvOutput := populate (mkKvOutput "").

Notation KvOperation := (Operation KvInput KvOutput).

Definition kv_key (v : KvOperation) : string := kv_Key (op_Input v).

(** [m[key] = append(m[key], v)] *)
Definition kv_add (m : gmap string (list KvOperation)) (v : KvOperation) : gmap string (list KvOperation) :=
  <[kv_key v := default [] (m !! kv_key v) ++ [v]]> m.

Definition kv_group (history : list KvOperation) : gmap string (list KvOperation) := foldl kv_add ∅ history.

(** The keys are collected from the map in any order and sorted. *)
Definition kv_partition (history : list KvOperation) : list (list KvOperation) :=
  let m := kv_group history in
  let keys := merge_sort String.le (elements (dom m)) in
  (fun k => default [] (m !! k)) <$> keys.

Definition kv_step (state : string) (inp : KvInput) (out : KvOutput) : bool * string :=
  if kv_Op inp =? 0 then (String.eqb (kv_Result out) state, state)
  else if kv_Op inp =? 1 then (true, kv_Value inp)
  else (true, state +:+ kv_Value inp).

Definition quote (s : string) : string := "'" +:+ s +:+ "'".

Definition kv_describe (inp : KvInput) (out : KvOutput) : string :=
  if kv_Op inp =? 0 then "get(" +:+ quote (kv_Key inp) +:+ ") -> " +:+ quote (kv_Result out)
  else if kv_Op inp =? 1 then "put(" +:+ quote (kv_Key inp) +:+ ", " +:+ quote (kv_Value inp) +:+ ")"
  else if kv_Op inp =? 2 then "append(" +:+ quote (kv_Key inp) +:+ ", " +:+ quote (kv_Value inp) +:+ ")"
  else "<invalid>".

Definition KvModel : Model KvInput KvOutput string :=
  mkModel (Some kv_partition) None "" kv_step None (Some kv_describe) None.

(** ** Partitions *)

Definition on_key (k : string) (v : KvOperation) : Prop := kv_key v = k.

#[export] Instance on_key_dec k v : Decision (on_key k v).
Proof. unfold on_key. apply _. Defined.

Lemma kv_group_fold h m k :
  default [] (foldl kv_add m h !! k) =
  default [] (m !! k) ++ filter (on_key k) h /\
  (k ∈ dom (foldl kv_add m h) <->
   k ∈ dom m \/ exists v, v ∈ h /\ kv_key v = k).
Proof.
  revert m. induction h as [|v h IH]; intros m; simpl.
  { rewrite app_nil_r. split; [done|]. set_solver. }
  destruct (IH (kv_add m v)) as [IH1 IH2]. split.
  - rewrite IH1, filter_cons. unfold kv_add. destruct (decide (on_key k v)) as [<-|Hne].
    + rewrite lookup_insert_eq. simpl. by rewrite <- app_assoc.
    + by rewrite lookup_insert_ne.
  - rewrite IH2. unfold kv_add. rewrite dom_insert. setoid_rewrite elem_of_cons. set_solver.
Qed.

(** The operations of each key, in their order *)
Lemma kv_group_lookup h k : default [] (kv_group h !! k) = filter (on_key k) h.
Proof. unfold kv_group. by rewrite (proj1 (kv_group_fold h ∅ k)), lookup_empty. Qed.

Lemma kv_group_dom h k : k ∈ dom (kv_group h) <-> exists v, v ∈ h /\ kv_key v = k.
Proof. unfold kv_group. rewrite (proj2 (kv_group_fold h ∅ k)), dom_empty. set_solver. Qed.

Lemma kv_partition_spec h : forall sub,
  sub ∈ kv_partition h <-> exists v, v ∈ h /\ sub = filter (on_key (kv_key v)) h.
Proof.
  intros sub. unfold kv_partition. rewrite list_elem_of_fmap. split.
  - intros (k & -> & Hk). rewrite merge_sort_Permutation, elem_of_elements, kv_group_dom in Hk.
    destruct Hk as (v & Hv & <-). exists v. by rewrite kv_group_lookup.
  - intros (v & Hv & ->). exists (kv_key v). rewrite kv_group_lookup. split; [done|].
    rewrite merge_sort_Permutation, elem_of_elements, kv_group_dom. eauto.
Qed.

Lemma timed_filter (P : KvOperation -> Prop) `{forall v, Decision (P v)} h : timed h -> timed (filter P h).
Proof.
  intros [Ho Hd Hl]. constructor.
  - intros i op Hi%list_elem_of_lookup_2. apply list_elem_of_filter in Hi as [_ (j & Hj)%list_elem_of_lookup]. eauto.
  - intros i j a b Ha%list_elem_of_lookup_2 Hb%list_elem_of_lookup_2.
    apply list_elem_of_filter in Ha as [_ (i' & Hi')%list_elem_of_lookup].
    apply list_elem_of_filter in Hb as [_ (j' & Hj')%list_elem_of_lookup]. eauto.
  - pose proof (length_filter P h). unfold len in *. lia.
Qed.

Section Kv.
Variables (ddo : KvInput -> KvOutput -> string) (dds : string -> string).
Variable (sort_byTime : list (@entry KvInput KvOutput) -> list (@entry KvInput KvOutput)).
Variable (map_range : list (nat * list Z) -> list (nat * list Z)).


End Kv.

(** ** A concrete history *)

(** Sorting by time *)
Definition by_time (a b : @entry KvInput KvOutput) : Prop := time a <= time b.

#[export] Instance by_time_dec : RelDecision by_time.
Proof. intros a b. unfold by_time. apply _. Defined.

Definition merge_byTime (l : list (@entry KvInput KvOutput)) : list (@entry KvInput KvOutput) := merge_sort by_time l.

Lemma merge_byTime_sorts : sorts_byTime merge_byTime.
Proof.
  assert (Transitive by_time) as Htr by (intros a b c; unfold by_time; lia).
  assert (Total by_time) as Hto by (intros a b; unfold by_time; lia).
  constructor; unfold merge_byTime.
  - intros l. apply merge_sort_Permutation.
  - intros l. pose proof (StronglySorted_merge_sort by_time l) as Hs.
    induction Hs as [|x xs Hs IH Hall]; constructor; [done|]. eapply Forall_impl; [done|].
    intros y Hy. apply Z.ltb_ge. done.
Qed.

(** x is put and read back, while y is read before anything was written to it. *)
Definition kv_demo : list KvOperation :=
  [mkOperation 0 (mkKvInput 1 "x" "1") 0 (mkKvOutput "") 10;
   mkOperation 1 (mkKvInput 0 "x" "") 5 (mkKvOutput "1") 12;
   mkOperation 2 (mkKvInput 0 "y" "") 7 (mkKvOutput "") 9].

Lemma kv_demo_timed : timed kv_demo.
Proof.
  constructor.
  - intros [|[|[|i]]] op; simpl; try done; intros [= <-]; simpl; lia.
  - intros i j a b Ha%list_elem_of_lookup_2 Hb%list_elem_of_lookup_2. unfold kv_demo in *.
    rewrite !elem_of_cons, elem_of_nil in Ha, Hb.
    destruct Ha as [->|[->|[->|[]]]], Hb as [->|[->|[->|[]]]]; simpl; lia.
  - vm_compute. discriminate.
Qed.

Notation demo_check h sched :=
  (CheckOperations kv_describe (fun s => s) merge_byTime (fun l => l) KvModel h sched (fun _ _ => false)).


Lemma kv_demo_parts : Forall timed (partitions_of KvModel kv_demo).
Proof. apply Forall_forall. intros sub (v & _ & ->)%kv_partition_spec. apply timed_filter, kv_demo_timed. Qed.

Lemma CheckOperations_correct_witness :
  exists b, demo_check kv_demo (SelResult <$> [0; 1]%nat) = Val (Some b) /\
    (b = true <-> Forall (op_linearizable KvModel) (partitions_of KvModel kv_demo)).
Proof.
  apply (CheckOperations_correct kv_describe (fun s => s) merge_byTime (fun l => l) KvModel kv_demo [0; 1]%nat).
  - exact merge_byTime_sorts.
  - exact kv_demo_parts.
  - intros inp out. apply shallow_sound. reflexivity.
  - discriminate.
  - vm_compute. reflexivity.
Defined.

Lemma CheckOperationsTimeout_sound_witness :
  exists o, CheckOperationsTimeout kv_describe (fun s => s) merge_byTime (fun l => l) KvModel kv_demo 100
              [SelResult 1; SelTimeout] (fun _ _ => true) = Val o /\
    (o = Some Ok -> Forall (op_linearizable KvModel) (partitions_of KvModel kv_demo)).
Proof.
  destruct (CheckOperationsTimeout_sound kv_describe (fun s => s) merge_byTime (fun l => l) KvModel kv_demo 100
              [SelResult 1; SelTimeout] (fun _ _ => true) merge_byTime_sorts kv_demo_parts
              (fun inp out => shallow_sound KvModel inp out eq_refl)) as (o & Ho & Hok & _).
  exists o. split; [exact Ho|exact Hok].
Defined.

(** Every entry of the history of key x is drawn, and both operations are in the one linearization. *)
Definition demo_info : option (CheckResult * @linearizationInfo KvInput KvOutput) :=
  match CheckOperationsVerbose kv_describe (fun s => s) merge_byTime (fun l => l) KvModel kv_demo 0
          (SelResult <$> [0; 1]%nat) (fun _ _ => false) with
  | Val o => o
  | Err _ => None
  end.

Lemma visualization_faithful_witness :
  exists result info data info', demo_info = Some (result, info) /\
    PorcVis.computeVisualizationData kv_describe (fun s => s) (fun l => l) KvModel info = Val (data, info') /\ length data = 2%nat.
Proof.
  destruct demo_info as [[result info]|] eqn:E; [|by vm_compute in E].
  destruct (PorcVis.visualization_faithful kv_describe (fun s => s) (fun l => l) merge_byTime (fun l => l) KvModel kv_demo 0
              (SelResult <$> [0; 1]%nat) (fun _ _ => false) result info) as (data & info' & Hd & Hlen & _).
  - exact merge_byTime_sorts.
  - done.
  - done.
  - exact kv_demo_parts.
  - intros inp out. apply shallow_sound. reflexivity.
  - rewrite <- E. vm_compute. reflexivity.
  - exists result, info, data, info'. split; [done|]. split; [exact Hd|]. rewrite Hlen. vm_compute. reflexivity.
Defined.

(** The page of the same check *)
Lemma check_laid_out_witness :
  exists result info data info' L, demo_info = Some (result, info) /\
    PorcVis.computeVisualizationData kv_describe (fun s => s) (fun l => l) KvModel info = Val (data, info') /\
    VisLayout.compute_layout VisPage.demo_width data = Val L.
Proof.
  destruct demo_info as [[result info]|] eqn:E; [|by vm_compute in E].
  destruct (VisCheck.check_laid_out kv_describe (fun s => s) (fun l => l) merge_byTime (fun l => l) VisPage.demo_width KvModel kv_demo 0
              (SelResult <$> [0; 1]%nat) (fun _ _ => false) result info) as (data & info' & L & X & P & Hd & _ & HL & _).
  - exact merge_byTime_sorts.
  - done.
  - done.
  - exact kv_demo_parts.
  - intros inp out. apply shallow_sound. reflexivity.
  - destruct (partitions_of KvModel kv_demo) as [|sub rest] eqn:Ep; [by vm_compute in Ep|]. exists sub. split; [apply elem_of_cons; by left|].
    intros ->. by vm_compute in Ep.
  - rewrite <- E. vm_compute. reflexivity.
  - exists result, info, data, info', L. auto.
Defined.

End PorcKv.
