(* ===== verification/RaftUtil.v ===== *)
(** * Logging (raft/util.go)

    [DPrintf] prints only if the constant [Debug] is positive, so in this source it prints nothing and the calls of it
    in raft.go can be left out of the model. *)

From stdpp Require Import base list strings.
From Stdlib Require Import ZArith.
From S2P Require Import Prelude.

Open Scope Z_scope.

Module RaftUtil.

Definition Debug : Z := 0.

Section Log.
Context {V : Type}.
(** [log.Printf]: what it appends to the log *)
Variable Printf : string -> list V -> string.

(** The log, with the named results [n] and [err] at their zero values *)
Definition DPrintf (format : string) (a : list V) (log : list string) : list string * (Z * option string) :=
  (if 0 <? Debug then log ++ [Printf format a] else log, (0, None)).

(** Any sequence of calls leaves the log as it is. *)
Lemma DPrintf_silent (calls : list (string * list V)) log : foldl (fun l c => (DPrintf c.1 c.2 l).1) log calls = log.
Proof. induction calls as [|c calls IH]; [done|exact IH]. Qed.

End Log.
End RaftUtil.
