(* ===== verification/RaftNode.v ===== *)
(** * One Raft server (raft/raft.go, raft/persister.go)

    The state of a server is the record [Raft], field by field the struct of the source (the mutex,
    the apply channel and the RPC ends aside, which belong to RaftCluster.v).  Each definition below
    is one critical section of the source, from taking [rf.mu] to releasing it, as a function on
    the record: the RPC handlers are one section each, [Start] and the goroutines of [startElection]
    and [sendHearbeat] are several.  Panics are values of [res].

    The encoding of the persistent state is that of encoding/gob: the class [Codec] stands for it,
    [CodecLaws] is what the server relies on. *)

From stdpp Require Import base list gmap strings.
From Stdlib Require Import ZArith Lia Strings.Byte.
From S2P Require Import Prelude.

Open Scope Z_scope.

Module RaftNode.

(** ** raft/persister.go *)

Record Persister := mkPersister {
  raftstate : list byte;
  snapshot : list byte }.

Definition MakePersister : Persister := mkPersister [] [].
Definition Copy (ps : Persister) : Persister := mkPersister (raftstate ps) (snapshot ps).
Definition SaveRaftState (ps : Persister) (st : list byte) : Persister := mkPersister st (snapshot ps).
Definition ReadRaftState (ps : Persister) : list byte := raftstate ps.
Definition RaftStateSize (ps : Persister) : Z := len (raftstate ps).
Definition SaveStateAndSnapshot (ps : Persister) (st sn : list byte) : Persister := mkPersister st sn.
Definition ReadSnapshot (ps : Persister) : list byte := snapshot ps.
Definition SnapshotSize (ps : Persister) : Z := len (snapshot ps).

(** ** raft/raft.go *)

Definition HeartBeatInterval : Z := 100.
Definition ElectionTimeout : Z := 500.
Definition ElectionTimeoutRandomRange : Z := 100.
Definition Millisecond : Z := 1000000.

Inductive RaftState := Follower | Candidate | Leader.

#[export] Instance RaftState_eq_dec : EqDecision RaftState.
Proof. solve_decision. Defined.

Section Raft.
Context {Cmd : Type}.

(** [Command] is an [interface{}]: [None] is nil. *)
Record Entry := mkEntry {
  Term : Z;
  Command : option Cmd;
  Index : Z }.

Record ApplyMsg := mkApplyMsg {
  CommandValid : bool;
  am_Command : option Cmd;
  CommandIndex : Z }.

(** The bytes [persist] writes with a labgob encoder, and what [readPersist] gets back from them
    with a decoder; [None] is a decoding error. *)
Class Codec := {
  encode_state : list Entry -> Z -> Z -> list byte;
  decode_state : list byte -> option (list Entry * Z * Z) }.

(** What encoding/gob documents of registered types. *)
Class CodecLaws `{Codec} : Prop := {
  decode_encode : forall l t v, decode_state (encode_state l t v) = Some (l, t, v);
  encode_nonempty : forall l t v, encode_state l t v <> [] }.

Record Raft := mkRaft {
  npeers : nat;
  persister : Persister;
  me : Z;
  dead : Z;
  currentTerm : Z;
  votedFor : Z;
  log : list Entry;
  commitIndex : Z;
  lastApplied : Z;
  nextIndex : list Z;
  matchIndex : list Z;
  state : RaftState;
  voteCount : Z;
  timestamp : Z;
  electionTimeout : Z }.

Definition set_persister (v : Persister) (rf : Raft) : Raft :=
  mkRaft (npeers rf) v (me rf) (dead rf) (currentTerm rf) (votedFor rf) (log rf) (commitIndex rf) (lastApplied rf) (nextIndex rf) (matchIndex rf) (state rf) (voteCount rf) (timestamp rf) (electionTimeout rf).
Definition set_dead (v : Z) (rf : Raft) : Raft :=
  mkRaft (npeers rf) (persister rf) (me rf) v (currentTerm rf) (votedFor rf) (log rf) (commitIndex rf) (lastApplied rf) (nextIndex rf) (matchIndex rf) (state rf) (voteCount rf) (timestamp rf) (electionTimeout rf).
Definition set_currentTerm (v : Z) (rf : Raft) : Raft :=
  mkRaft (npeers rf) (persister rf) (me rf) (dead rf) v (votedFor rf) (log rf) (commitIndex rf) (lastApplied rf) (nextIndex rf) (matchIndex rf) (state rf) (voteCount rf) (timestamp rf) (electionTimeout rf).
Definition set_votedFor (v : Z) (rf : Raft) : Raft :=
  mkRaft (npeers rf) (persister rf) (me rf) (dead rf) (currentTerm rf) v (log rf) (commitIndex rf) (lastApplied rf) (nextIndex rf) (matchIndex rf) (state rf) (voteCount rf) (timestamp rf) (electionTimeout rf).
Definition set_log (v : list Entry) (rf : Raft) : Raft :=
  mkRaft (npeers rf) (persister rf) (me rf) (dead rf) (currentTerm rf) (votedFor rf) v (commitIndex rf) (lastApplied rf) (nextIndex rf) (matchIndex rf) (state rf) (voteCount rf) (timestamp rf) (electionTimeout rf).
Definition set_commitIndex (v : Z) (rf : Raft) : Raft :=
  mkRaft (npeers rf) (persister rf) (me rf) (dead rf) (currentTerm rf) (votedFor rf) (log rf) v (lastApplied rf) (nextIndex rf) (matchIndex rf) (state rf) (voteCount rf) (timestamp rf) (electionTimeout rf).
Definition set_lastApplied (v : Z) (rf : Raft) : Raft :=
  mkRaft (npeers rf) (persister rf) (me rf) (dead rf) (currentTerm rf) (votedFor rf) (log rf) (commitIndex rf) v (nextIndex rf) (matchIndex rf) (state rf) (voteCount rf) (timestamp rf) (electionTimeout rf).
Definition set_nextIndex (v : list Z) (rf : Raft) : Raft :=
  mkRaft (npeers rf) (persister rf) (me rf) (dead rf) (currentTerm rf) (votedFor rf) (log rf) (commitIndex rf) (lastApplied rf) v (matchIndex rf) (state rf) (voteCount rf) (timestamp rf) (electionTimeout rf).
Definition set_matchIndex (v : list Z) (rf : Raft) : Raft :=
  mkRaft (npeers rf) (persister rf) (me rf) (dead rf) (currentTerm rf) (votedFor rf) (log rf) (commitIndex rf) (lastApplied rf) (nextIndex rf) v (state rf) (voteCount rf) (timestamp rf) (electionTimeout rf).
Definition set_state (v : RaftState) (rf : Raft) : Raft :=
  mkRaft (npeers rf) (persister rf) (me rf) (dead rf) (currentTerm rf) (votedFor rf) (log rf) (commitIndex rf) (lastApplied rf) (nextIndex rf) (matchIndex rf) v (voteCount rf) (timestamp rf) (electionTimeout rf).
Definition set_voteCount (v : Z) (rf : Raft) : Raft :=
  mkRaft (npeers rf) (persister rf) (me rf) (dead rf) (currentTerm rf) (votedFor rf) (log rf) (commitIndex rf) (lastApplied rf) (nextIndex rf) (matchIndex rf) (state rf) v (timestamp rf) (electionTimeout rf).
Definition set_timestamp (v : Z) (rf : Raft) : Raft :=
  mkRaft (npeers rf) (persister rf) (me rf) (dead rf) (currentTerm rf) (votedFor rf) (log rf) (commitIndex rf) (lastApplied rf) (nextIndex rf) (matchIndex rf) (state rf) (voteCount rf) v (electionTimeout rf).


Definition GetState (rf : Raft) : Z * bool :=
  (currentTerm rf, bool_decide (state rf = Leader)).

Definition persist `{Codec} (rf : Raft) : Raft :=
  let data := encode_state (log rf) (currentTerm rf) (votedFor rf) in
  set_persister (SaveRaftState (persister rf) data) rf.

Definition readPersist `{Codec} (rf : Raft) (data : list byte) : res Raft :=
  if len data <? 1 then mret rf
  else
    match decode_state data with
    | None => Err (EPanic "Decode error")
    | Some (l, t, v) => mret (set_votedFor v (set_currentTerm t (set_log l rf)))
    end.

Record RequestVoteArgs := mkRequestVoteArgs {
  rva_Term : Z;
  CandidateId : Z;
  LastLogIndex : Z;
  LastLogTerm : Z }.

Record RequestVoteReply := mkRequestVoteReply {
  rvr_Term : Z;
  VoteGranted : bool }.

Definition moreUpToDate (args : RequestVoteArgs) (rf : Raft) : res bool :=
  last ← go_index (log rf) (len (log rf) - 1);
  if (Term last <? LastLogTerm args)
     || ((LastLogTerm args =? Term last) && (Index last <=? LastLogIndex args))
  then mret true else mret false.

Definition convertTo (st : RaftState) (rf : Raft) : Raft :=
  match st with
  | Follower => set_votedFor (-1) (set_state Follower rf)
  | Leader => set_state Leader rf
  | Candidate => set_state Candidate rf
  end.

(** The first test of the source, [args.Term < rf.currentTerm], only assigns a reply field that is
    false already. *)
Definition RequestVote `{Codec} (rf : Raft) (args : RequestVoteArgs) (now : Z)
    : res (Raft * RequestVoteReply) :=
  let rf1 := if currentTerm rf <? rva_Term args
             then convertTo Follower (set_currentTerm (rva_Term args) rf) else rf in
  if (votedFor rf1 =? -1) || (votedFor rf1 =? CandidateId args) then
    upToDate ← moreUpToDate args rf1;
    if (upToDate : bool) then
      let rf2 := set_timestamp now (set_votedFor (CandidateId args) rf1) in
      mret (persist rf2, mkRequestVoteReply (currentTerm rf2) true)
    else mret (persist rf1, mkRequestVoteReply (currentTerm rf1) false)
  else mret (persist rf1, mkRequestVoteReply (currentTerm rf1) false).

Record AppendEntriesArgs := mkAppendEntriesArgs {
  aea_Term : Z;
  LeaderId : Z;
  PrevLogIndex : Z;
  PrevLogTerm : Z;
  LeaderCommit : Z;
  Entries : list Entry }.

Record AppendEntriesReply := mkAppendEntriesReply {
  aer_Term : Z;
  Success : bool;
  XTerm : Z;
  XIndex : Z }.

(** [for rf.log[XIndex-1].Term == reply.XTerm { XIndex-- }] from [XIndex = k] *)
Fixpoint xindex_loop (l : list Entry) (xterm : Z) (k : nat) : res Z :=
  match k with
  | O => Err EIndex
  | S k' =>
      e ← go_index l (Z.of_nat k');
      if Term e =? xterm then xindex_loop l xterm k' else mret (Z.of_nat k)
  end.

(** The loop over [args.Entries] *)
Fixpoint append_loop (l : list Entry) (entries : list Entry) : res (list Entry) :=
  match entries with
  | [] => mret l
  | e :: rest =>
      if Index e <? len l then
        old ← go_index l (Index e);
        if negb (Term old =? Term e) then
          l1 ← go_slice l 0 (Index e);
          append_loop (l1 ++ [e]) rest
        else append_loop l rest
      else append_loop (l ++ [e]) rest
  end.

(** The entries [sendApplyMsg] hands to the goroutine it starts, if it starts one *)
Definition sendApplyMsg (rf : Raft) : res (option (list Entry)) :=
  if lastApplied rf <? commitIndex rf
  then Some <$> go_slice (log rf) (lastApplied rf + 1) (commitIndex rf + 1)
  else mret None.

(** The three branches of [AppendEntries] on the previous entry: new state and reply fields
    (Success, XTerm, XIndex) *)
Definition append_check (rf : Raft) (args : AppendEntriesArgs) : res (Raft * (bool * Z * Z)) :=
  if len (log rf) <=? PrevLogIndex args then mret (rf, (false, -1, len (log rf)))
  else
    prev ← go_index (log rf) (PrevLogIndex args);
    if negb (Term prev =? PrevLogTerm args) then
      x ← xindex_loop (log rf) (Term prev) (Z.to_nat (PrevLogIndex args));
      mret (rf, (false, Term prev, x))
    else
      rf1 ← (if 0 <? len (Entries args) then
               l ← append_loop (log rf) (Entries args);
               ni ← go_update (nextIndex rf) (me rf) (len l);
               mi ← go_update (matchIndex rf) (me rf) (len l - 1);
               mret (set_matchIndex mi (set_nextIndex ni (set_log l rf)))
             else mret rf);
      let rf2 :=
        if commitIndex rf1 <? LeaderCommit args then
          if LeaderCommit args <? len (log rf1) - 1
          then set_commitIndex (LeaderCommit args) rf1
          else set_commitIndex (len (log rf1) - 1) rf1
        else rf1 in
      mret (rf2, (true, 0, 0)).

(** State, reply, and the entries of the apply goroutine it starts *)
Definition AppendEntries `{Codec} (rf : Raft) (args : AppendEntriesArgs) (now : Z)
    : res (Raft * AppendEntriesReply * option (list Entry)) :=
  if aea_Term args <? currentTerm rf then
    mret (persist rf, mkAppendEntriesReply (currentTerm rf) false 0 0, None)
  else
    '(rf1, (ok, xt, xi)) ← append_check rf args;
    let rf2 := if currentTerm rf1 <? aea_Term args
               then convertTo Follower (set_currentTerm (aea_Term args) rf1) else rf1 in
    spawn ← (if lastApplied rf2 <? commitIndex rf2 then sendApplyMsg rf2 else mret None);
    let rf3 := set_timestamp now rf2 in
    mret (persist rf3, mkAppendEntriesReply (currentTerm rf2) ok xt xi, spawn).

(** The apply goroutine: the message it sends for an entry, and its critical section after it. *)
Definition apply_msg (e : Entry) : ApplyMsg := mkApplyMsg true (Command e) (Index e).

Definition apply_ack (rf : Raft) (index : Z) : Raft :=
  if lastApplied rf <? index then set_lastApplied index rf else rf.

(** [Start] first calls [GetState]; if that said leader, this is its second critical section, which
    uses the term read in the first. *)
Definition Start_append `{Codec} (rf : Raft) (term : Z) (command : Cmd) : res (Raft * Z) :=
  let index := len (log rf) in
  let entry := mkEntry term (Some command) index in
  let rf1 := persist (set_log (log rf ++ [entry]) rf) in
  ni ← go_update (nextIndex rf1) (me rf1) (len (log rf1));
  mi ← go_update (matchIndex rf1) (me rf1) (len (log rf1) - 1);
  mret (set_matchIndex mi (set_nextIndex ni rf1), index).

Definition Kill (rf : Raft) : Raft := set_dead 1 rf.
Definition killed (rf : Raft) : bool := dead rf =? 1.

Definition isElectionTimeout (rf : Raft) (now : Z) : bool :=
  electionTimeout rf <? now - timestamp rf.

(** [runCandidate] after the election timeout test *)
Definition candidate_check (rf : Raft) : Raft :=
  if Z.quot (Z.of_nat (npeers rf)) 2 <? voteCount rf then convertTo Leader rf else rf.

(** [sendHearbeat], the goroutine for peer [index]: the arguments it sends, if still leader *)
Definition heartbeat_args (rf : Raft) (index : Z) : res (option AppendEntriesArgs) :=
  if negb (bool_decide (state rf = Leader)) then mret None
  else
    ni ← go_index (nextIndex rf) index;
    let prevLogIndex := ni - 1 in
    prev ← go_index (log rf) prevLogIndex;
    entries ← go_slice (log rf) (prevLogIndex + 1) (len (log rf));
    mret (Some (mkAppendEntriesArgs (currentTerm rf) (me rf) prevLogIndex (Term prev)
                  (commitIndex rf) entries)).

(** [for i := args.PrevLogIndex; i >= 1; i--] from [i = k]: the first [i] whose predecessor has
    term [xterm], if there is one *)
Fixpoint backup_loop (l : list Entry) (xterm : Z) (k : nat) : res (option Z) :=
  match k with
  | O => mret None
  | S k' =>
      e ← go_index l (Z.of_nat k');
      if Term e =? xterm then mret (Some (Z.of_nat k)) else backup_loop l xterm k'
  end.

(** What the goroutine does with a reply *)
Definition heartbeat_reply `{Codec} (rf : Raft) (index : Z) (args : AppendEntriesArgs)
    (reply : AppendEntriesReply) : res Raft :=
  if negb (bool_decide (state rf = Leader)) then mret rf
  else if currentTerm rf <? aer_Term reply then
    mret (persist (convertTo Follower (set_currentTerm (aer_Term reply) rf)))
  else if negb (Success reply) then
    ni ← go_update (nextIndex rf) index (XIndex reply);
    if negb (XTerm reply =? -1) then
      found ← backup_loop (log rf) (XTerm reply) (Z.to_nat (PrevLogIndex args));
      match found with
      | Some i => ni' ← go_update ni index i; mret (set_nextIndex ni' rf)
      | None => mret (set_nextIndex ni rf)
      end
    else mret (set_nextIndex ni rf)
  else
    let m := PrevLogIndex args + len (Entries args) in
    mi ← go_update (matchIndex rf) index m;
    ni ← go_update (nextIndex rf) index (m + 1);
    mret (set_nextIndex ni (set_matchIndex mi rf)).

(** The loop over the peers in the last part of [sendHearbeat]: how many are past [commit], and the
    least of their match indices *)
Fixpoint count_loop (mi : list Z) (i : nat) (k : nat) (commit counter minN : Z) : res (Z * Z) :=
  match k with
  | O => mret (counter, minN)
  | S k' =>
      x ← go_index mi (Z.of_nat i);
      if commit <? x
      then count_loop mi (S i) k' commit (counter + 1) (if x <? minN then x else minN)
      else count_loop mi (S i) k' commit counter minN
  end.

Definition advance_commit (rf : Raft) : res (Raft * option (list Entry)) :=
  mine ← go_index (matchIndex rf) (me rf);
  if commitIndex rf <? mine then
    '(counter, minN) ← count_loop (matchIndex rf) 0 (npeers rf) (commitIndex rf) 0 mine;
    if Z.quot (Z.of_nat (npeers rf)) 2 <? counter then
      e ← go_index (log rf) minN;
      if Term e =? currentTerm rf then
        let rf1 := set_commitIndex minN rf in
        spawn ← sendApplyMsg rf1;
        mret (rf1, spawn)
      else mret (rf, None)
    else mret (rf, None)
  else mret (rf, None).

(** [startElection], its first critical section *)
Definition begin_election `{Codec} (rf : Raft) (now : Z) : Raft :=
  persist (set_voteCount 1 (set_timestamp now (set_votedFor (me rf)
    (set_currentTerm (wrap64 (currentTerm rf + 1)) rf)))).

(** [startElection], the goroutine for one peer: its arguments and what it does with a reply *)
Definition vote_args (rf : Raft) : res RequestVoteArgs :=
  last ← go_index (log rf) (len (log rf) - 1);
  mret (mkRequestVoteArgs (currentTerm rf) (me rf) (len (log rf) - 1) (Term last)).

Definition vote_reply `{Codec} (rf : Raft) (reply : RequestVoteReply) : Raft :=
  if VoteGranted reply then set_voteCount (wrap64 (voteCount rf + 1)) rf
  else if currentTerm rf <? rvr_Term reply then
    persist (convertTo Follower (set_currentTerm (rvr_Term reply) rf))
  else rf.

(** [rnd] is the result of [rand.Intn(ElectionTimeoutRandomRange)]. *)
Definition Make `{Codec} (n : nat) (i : Z) (ps : Persister) (now rnd : Z) : res Raft :=
  let rf := mkRaft n ps i 0 0 (-1) [mkEntry 0 None 0] 0 0 (replicate n 1) (replicate n 0) Follower 0 now
              ((rnd + ElectionTimeout) * Millisecond) in
  readPersist rf (ReadRaftState ps).

End Raft.

Arguments Entry : clear implicits.
Arguments ApplyMsg : clear implicits.
Arguments Codec : clear implicits.
Arguments Raft : clear implicits.
Arguments AppendEntriesArgs : clear implicits.

End RaftNode.
