(* ===== verification/RaftCodec.v ===== *)
(** * A codec for the persistent state of a Raft server

    The source encodes with encoding/gob, which RaftNode.v keeps abstract ([Codec], [CodecLaws]).
    This instance, for integer commands, shows that the laws can be met and makes concrete runs of
    the model executable; it is not gob's format. *)

From stdpp Require Import base list.
From Stdlib Require Import ZArith Lia Strings.Byte.
From S2P Require Import Prelude RaftNode.
Import RaftNode.

Open Scope Z_scope.

Module RaftCodec.

Fixpoint enc_pos (p : positive) : list byte :=
  match p with
  | xI p => x01 :: enc_pos p
  | xO p => x00 :: enc_pos p
  | xH => [x02]
  end.

Fixpoint dec_pos (l : list byte) : option (positive * list byte) :=
  match l with
  | x01 :: l' => '(p, r) ← dec_pos l'; Some (xI p, r)
  | x00 :: l' => '(p, r) ← dec_pos l'; Some (xO p, r)
  | x02 :: l' => Some (xH, l')
  | _ => None
  end.

Definition enc_Z (z : Z) : list byte :=
  match z with
  | 0 => [x04]
  | Zpos p => x05 :: enc_pos p
  | Zneg p => x06 :: enc_pos p
  end.

Definition dec_Z (l : list byte) : option (Z * list byte) :=
  match l with
  | x04 :: l' => Some (0, l')
  | x05 :: l' => '(p, r) ← dec_pos l'; Some (Zpos p, r)
  | x06 :: l' => '(p, r) ← dec_pos l'; Some (Zneg p, r)
  | _ => None
  end.

Definition enc_entry (e : Entry Z) : list byte :=
  enc_Z (Term e) ++ match Command e with None => [x09] | Some c => x0a :: enc_Z c end ++ enc_Z (Index e).

Definition dec_entry (l : list byte) : option (Entry Z * list byte) :=
  '(t, l1) ← dec_Z l;
  '(c, l2) ← match l1 with
             | x09 :: l' => Some (None, l')
             | x0a :: l' => '(c, r) ← dec_Z l'; Some (Some c, r)
             | _ => None
             end;
  '(i, l3) ← dec_Z l2;
  Some (mkEntry t c i, l3).

Fixpoint enc_entries (es : list (Entry Z)) : list byte :=
  match es with
  | [] => [x08]
  | e :: es' => x07 :: enc_entry e ++ enc_entries es'
  end.

(** Every entry takes at least one byte: the length of the input is fuel enough. *)
Fixpoint dec_entries (fuel : nat) (l : list byte) : option (list (Entry Z) * list byte) :=
  match fuel, l with
  | _, x08 :: l' => Some ([], l')
  | S fuel', x07 :: l' =>
      '(e, r) ← dec_entry l';
      '(es, r') ← dec_entries fuel' r;
      Some (e :: es, r')
  | _, _ => None
  end.

#[export] Instance Z_codec : Codec Z := {
  encode_state l t v := enc_entries l ++ enc_Z t ++ enc_Z v;
  decode_state b :=
    '(l, r) ← dec_entries (length b) b;
    '(t, r') ← dec_Z r;
    '(v, _) ← dec_Z r';
    Some (l, t, v) }.

Lemma dec_enc_pos p r : dec_pos (enc_pos p ++ r) = Some (p, r).
Proof. induction p; simpl; try rewrite IHp; done. Qed.

Lemma dec_enc_Z z r : dec_Z (enc_Z z ++ r) = Some (z, r).
Proof. destruct z; simpl; try rewrite dec_enc_pos; done. Qed.

Lemma dec_enc_entry e r : dec_entry (enc_entry e ++ r) = Some (e, r).
Proof.
  destruct e as [t [c|] i]; unfold dec_entry, enc_entry; simpl; rewrite <- !app_assoc, dec_enc_Z; simpl;
    rewrite <- ?app_assoc, ?dec_enc_Z; simpl; rewrite ?dec_enc_Z; done.
Qed.

Lemma dec_enc_entries es r fuel :
  (length (enc_entries es) <= fuel)%nat -> dec_entries fuel (enc_entries es ++ r) = Some (es, r).
Proof.
  revert fuel. induction es as [|e es IH]; intros fuel Hf; simpl in *; [by destruct fuel|].
  rewrite length_app in Hf. destruct fuel as [|fuel]; [lia|]. simpl.
  rewrite <- app_assoc, dec_enc_entry. simpl. rewrite IH by lia. done.
Qed.

#[export] Instance Z_codec_laws : CodecLaws (Cmd := Z).
Proof.
  split.
  - intros l t v. simpl. rewrite dec_enc_entries; [|rewrite length_app; lia]. simpl.
    rewrite dec_enc_Z. simpl. rewrite <- (app_nil_r (enc_Z v)), dec_enc_Z. done.
  - intros l t v. simpl. by destruct l.
Qed.

End RaftCodec.
