(* ===== verification/RaftInv.v ===== *)
(** * Invariants of one Raft server

    [node_ok] is the well-formedness of a server's state, [advance] how its term and vote may move:
    every critical section of RaftNode.v preserves the first and respects the second, the state it
    leaves is the state it saved, and the handlers do not panic on well-formed requests. *)

From stdpp Require Import base list gmap strings.
From Stdlib Require Import ZArith Lia.
From S2P Require Import Prelude RaftNode.
Import RaftNode.

Open Scope Z_scope.

Module RaftInv.

Section Inv.
Context {Cmd : Type} `{Codec Cmd}.
Notation Raft := (Raft Cmd).
Notation Entry := (Entry Cmd).
Notation AppendEntriesArgs := (AppendEntriesArgs Cmd).

Definition sentinel : Entry := mkEntry 0 None 0.

(** The log starts with the sentinel, every entry is at its own index, and all but the sentinel come
    from an election. *)
Record log_ok (l : list Entry) : Prop := {
  log_sentinel : l !! 0%nat = Some sentinel;
  log_index : forall k e, l !! k = Some e -> Index e = Z.of_nat k;
  log_term : forall k e, l !! k = Some e -> (0 < k)%nat -> 1 <= Term e }.

Definition terms_le (t : Z) (l : list Entry) : Prop := Forall (fun e => Term e <= t) l.

(** What the server would read back after a crash is its log, term and vote. *)
Definition saved (rf : Raft) : Prop :=
  (raftstate (persister rf) = [] /\ log rf = [sentinel] /\ currentTerm rf = 0 /\ votedFor rf = -1) \/
  raftstate (persister rf) = encode_state (log rf) (currentTerm rf) (votedFor rf).

Record node_ok (n i : nat) (rf : Raft) : Prop := {
  no_npeers : npeers rf = n;
  no_me : me rf = Z.of_nat i;
  no_lt : (i < n)%nat;
  no_log : log_ok (log rf);
  no_terms : terms_le (currentTerm rf) (log rf);
  no_term : 0 <= currentTerm rf;
  no_next : length (nextIndex rf) = n;
  no_match : length (matchIndex rf) = n;
  no_vote : votedFor rf = -1 \/ 0 <= votedFor rf < Z.of_nat n;
  no_count : 0 < voteCount rf -> 1 <= currentTerm rf;
  no_leader : state rf = Leader -> 1 <= currentTerm rf;
  no_saved : saved rf }.

(** The term grows, and within a term the vote is cast at most once. *)
Definition advance (rf rf' : Raft) : Prop :=
  currentTerm rf < currentTerm rf' \/
  (currentTerm rf = currentTerm rf' /\ (votedFor rf = -1 \/ votedFor rf' = votedFor rf)).

#[export] Instance advance_refl : Reflexive advance.
Proof. intros rf. right. auto. Qed.

#[export] Instance advance_trans : Transitive advance.
Proof. unfold advance. intros a b c Hab Hbc. naive_solver lia. Qed.

(** Requests a server can be sent. *)
Record append_args_ok (args : AppendEntriesArgs) : Prop := {
  aa_prev : 0 <= PrevLogIndex args;
  aa_prev0 : PrevLogIndex args = 0 -> PrevLogTerm args = 0;
  aa_term : 1 <= aea_Term args;
  aa_entries : forall k e, Entries args !! k = Some e ->
    Index e = PrevLogIndex args + 1 + Z.of_nat k /\ 1 <= Term e <= aea_Term args }.

Record vote_args_ok (n : nat) (args : RequestVoteArgs) : Prop := {
  va_cand : 0 <= CandidateId args < Z.of_nat n;
  va_term : 0 <= rva_Term args }.

(** ** Logs *)

Lemma log_ok_len l : log_ok l -> 1 <= len l.
Proof. intros Hl. apply log_sentinel, lookup_lt_Some in Hl. unfold len. lia. Qed.

Lemma log_ok_last l : log_ok l -> exists e, go_index l (len l - 1) = Val e.
Proof. intros Hl. apply go_index_in_range. apply log_ok_len in Hl. lia. Qed.

Lemma log_ok_sentinel : log_ok [sentinel].
Proof.
  constructor; [done|..]; intros [|k] e; simpl; [intros [= <-]; done|done|lia|done].
Qed.

Lemma log_ok_snoc l e :
  log_ok l -> Index e = len l -> 1 <= Term e -> log_ok (l ++ [e]).
Proof.
  intros Hl Hi Ht. pose proof (log_ok_len l Hl) as Hlen. unfold len in *.
  constructor.
  - rewrite lookup_app_l by lia. apply Hl.
  - intros k x [Hk|[Hk Hx]]%lookup_app_Some; [by apply Hl|].
    apply list_lookup_singleton_Some in Hx as [Hx ->]. lia.
  - intros k x [Hk|[Hk Hx]]%lookup_app_Some; [by apply Hl|].
    by apply list_lookup_singleton_Some in Hx as [_ ->].
Qed.

Lemma log_ok_take l k : log_ok l -> (0 < k)%nat -> log_ok (take k l).
Proof.
  intros Hl Hk. constructor.
  - rewrite lookup_take_lt by lia. apply Hl.
  - intros j e [Hj _]%lookup_take_Some. by apply Hl.
  - intros j e [Hj _]%lookup_take_Some. by apply Hl.
Qed.

Lemma go_slice_take (l : list Entry) k : 0 <= k <= len l -> go_slice l 0 k = Val (take (Z.to_nat k) l).
Proof. intros Hk. apply go_slice_val. split_and!; [lia..|]. by rewrite Z.sub_0_r. Qed.

(** [contiguous s t es]: the entries of [es] have the indices [s], [s+1], ... and terms up to [t]. *)
Definition contiguous (s t : Z) (es : list Entry) : Prop :=
  forall k e, es !! k = Some e -> Index e = s + Z.of_nat k /\ 1 <= Term e <= t.

Lemma contiguous_cons s t e es :
  contiguous s t (e :: es) -> Index e = s /\ 1 <= Term e <= t /\ contiguous (s + 1) t es.
Proof.
  intros Hc. destruct (Hc 0%nat e eq_refl) as [Hi Ht]. split_and!; [lia|lia|lia|].
  intros k x Hk. destruct (Hc (S k) x Hk). lia.
Qed.

Lemma contiguous_drop s t es k : contiguous s t es -> contiguous (s + Z.of_nat k) t (drop k es).
Proof. intros Hc j e. rewrite lookup_drop. intros He. destruct (Hc _ _ He). lia. Qed.

Lemma append_loop_snoc es l t :
  contiguous (len l) t es -> append_loop l es = Val (l ++ es).
Proof.
  revert l. induction es as [|e es IH]; intros l Hc; simpl; [by rewrite app_nil_r|].
  apply contiguous_cons in Hc as (Hi & _ & Hc). rewrite Hi, Z.ltb_irrefl.
  rewrite IH; [by rewrite <- app_assoc|]. rewrite len_app. done.
Qed.

(** The loop keeps the log as long as it agrees with the entries; from the first entry that is
    missing or conflicts on, it replaces the rest of the log by the rest of the entries. *)
Lemma append_loop_spec es l s t :
  1 <= s <= len l -> contiguous s t es ->
  exists k l', append_loop l es = Val l' /\ (k <= length es)%nat /\
    (forall j e, (j < k)%nat -> es !! j = Some e ->
       exists e', l !! (Z.to_nat s + j)%nat = Some e' /\ Term e' = Term e) /\
    ((k = length es /\ l' = l) \/
     ((k < length es)%nat /\ (Z.to_nat s + k <= length l)%nat /\
      (forall e e', es !! k = Some e -> l !! (Z.to_nat s + k)%nat = Some e' -> Term e' <> Term e) /\
      l' = take (Z.to_nat s + k) l ++ drop k es)).
Proof.
  revert s. induction es as [|e es IH]; intros s Hs Hc; simpl.
  - exists 0%nat, l. split_and!; [done|lia|lia|by left].
  - apply contiguous_cons in Hc as (Hi & Hte & Hc).
    destruct (Z.ltb_spec (Index e) (len l)) as [Hlt|Hge].
    + destruct (go_index_in_range l (Index e)) as [old Hold]; [lia|]. rewrite Hold. simpl.
      apply go_index_val in Hold as [_ Hold]. rewrite Hi in Hold.
      destruct (Z.eqb_spec (Term old) (Term e)) as [Heq|Hne]; simpl.
      * destruct (IH (s + 1) ltac:(lia) Hc) as (k & l' & Hl' & Hk & Hag & Hres).
        exists (S k), l'. replace (Z.to_nat (s + 1)) with (S (Z.to_nat s)) in * by lia.
        split_and!; [done|lia| |].
        -- intros [|j] x Hj Hx; simpl in Hx.
           ++ injection Hx as <-. rewrite Nat.add_0_r. eauto.
           ++ rewrite Nat.add_succ_r. apply (Hag j x); [lia|done].
        -- rewrite Nat.add_succ_r. destruct Hres as [[-> ->]|(? & ? & ? & ->)]; [left|right]; split_and!;
             try done; lia.
      * rewrite go_slice_take by lia. simpl. rewrite Hi. exists 0%nat, (take (Z.to_nat s) l ++ e :: es).
        split_and!; [|lia|lia|right; unfold len in *; rewrite Nat.add_0_r; split_and!; [lia|lia| |done]].
        2: { simpl. intros ? ? [= <-] ?. congruence. }
        rewrite (append_loop_snoc _ _ t); [by rewrite <- app_assoc|].
        rewrite len_app. unfold len in *. rewrite length_take. simpl.
        replace (Z.of_nat (Z.to_nat s `min` length l) + Z.of_nat 1) with (s + 1) by lia. done.
    + exists 0%nat, (l ++ e :: es). split_and!; [|lia|lia|].
      * rewrite (append_loop_snoc _ _ t); [by rewrite <- app_assoc|]. rewrite len_app.
        replace (len l) with s by lia. done.
      * right. unfold len in *. rewrite Nat.add_0_r. split_and!; [lia|lia| |by rewrite take_ge by lia].
        intros ? ? _ Hl%lookup_lt_Some. lia.
Qed.

Lemma log_ok_replace l m es t :
  log_ok l -> (0 < m <= length l)%nat -> contiguous (Z.of_nat m) t es -> log_ok (take m l ++ es).
Proof.
  intros Hl Hm Hc. assert (length (take m l) = m) as Hlm by (rewrite length_take; lia).
  constructor.
  - rewrite lookup_app_l by lia. apply log_ok_take; [done|lia].
  - intros k e [Hk|[Hk He]]%lookup_app_Some.
    + apply lookup_take_Some in Hk as [Hk _]. by apply Hl.
    + rewrite Hlm in *. destruct (Hc _ _ He). lia.
  - intros k e [Hk|[Hk He]]%lookup_app_Some Hk0.
    + apply lookup_take_Some in Hk as [Hk _]. by eapply log_term.
    + rewrite Hlm in *. destruct (Hc _ _ He). lia.
Qed.

Lemma contiguous_terms_le s t es : contiguous s t es -> terms_le t es.
Proof.
  intros Hc. apply Forall_lookup. intros k e He. destruct (Hc _ _ He). lia.
Qed.

(** Nothing panics, and the log stays well formed. *)
Lemma append_loop_ok entries l s t :
  log_ok l -> terms_le t l -> 1 <= s <= len l -> contiguous s t entries ->
  exists l', append_loop l entries = Val l' /\ log_ok l' /\ terms_le t l' /\ s <= len l' /\
    (forall c, (Z.of_nat c < len l) ->
       (forall k e, entries !! k = Some e -> (Z.to_nat s + k <= c)%nat ->
          exists e', l !! (Z.to_nat s + k)%nat = Some e' /\ Term e' = Term e) ->
       forall j, (j <= c)%nat -> l' !! j = l !! j) /\
    (forall k e, entries !! k = Some e ->
       exists e', l' !! (Z.to_nat s + k)%nat = Some e' /\ Term e' = Term e).
Proof.
  intros Hl Ht Hs Hc.
  destruct (append_loop_spec entries l s t Hs Hc) as (k & l' & Ha & Hk & Hag & Hres).
  exists l'. split; [done|]. destruct Hres as [[-> ->]|(Hk' & Hkl & Hcf & ->)].
  - split_and!; [done|done|lia|done|]. intros j e He. apply (Hag j); [by eapply lookup_lt_Some|done].
  - assert (length (take (Z.to_nat s + k) l) = (Z.to_nat s + k)%nat) as Hlt
      by (rewrite length_take; lia).
    assert (contiguous (Z.of_nat (Z.to_nat s + k)) t (drop k entries)) as Hcd.
    { replace (Z.of_nat (Z.to_nat s + k)) with (s + Z.of_nat k) by lia. by apply contiguous_drop. }
    split_and!.
    + eapply log_ok_replace; [done|lia|done].
    + apply Forall_app. split; [by apply Forall_take|by eapply contiguous_terms_le].
    + rewrite len_app. unfold len. lia.
    + intros c Hcl Hagree j Hj. unfold len in Hcl. destruct (decide (Z.to_nat s + k <= c)%nat) as [Hck|Hck].
      * destruct (lookup_lt_is_Some_2 entries k) as [e He]; [done|].
        destruct (Hagree k e He Hck) as (e' & He' & Hte). by destruct (Hcf e e' He He').
      * rewrite lookup_app_l by lia. by rewrite lookup_take_lt by lia.
    + intros j e He. destruct (decide (j < k)%nat) as [Hjk|Hjk].
      * destruct (Hag j e Hjk He) as (e' & He' & Hte). exists e'. split; [|done].
        rewrite lookup_app_l by lia. by rewrite lookup_take_lt by lia.
      * exists e. split; [|done]. rewrite lookup_app_r by lia. rewrite Hlt, lookup_drop.
        rewrite <- He. f_equal. lia.
Qed.

(** The search for the first entry of a conflicting term ends at the sentinel at the latest. *)
Lemma xindex_loop_ok l xt k :
  log_ok l -> 1 <= xt -> (0 < k <= length l)%nat ->
  exists x, xindex_loop l xt k = Val x /\ 1 <= x <= Z.of_nat k /\
    (forall j e, l !! j = Some e -> x <= Z.of_nat j < Z.of_nat k -> Term e = xt) /\
    (forall e, l !! Z.to_nat (x - 1) = Some e -> Term e <> xt).
Proof.
  intros Hl Hxt. induction k as [|k IH]; intros Hk; simpl; [lia|].
  destruct (lookup_lt_is_Some_2 l k) as [e He]; [lia|].
  rewrite (go_index_nat _ _ _ He). simpl. destruct (Z.eqb_spec (Term e) xt) as [Heq|Hne].
  - destruct k as [|k].
    + rewrite (log_sentinel _ Hl) in He. injection He as <-. simpl in Heq. lia.
    + destruct IH as (x & Hx & Hb & Hall & Hp); [lia|]. exists x. split_and!; [done|lia|lia| |done].
      intros j e' Hj Hxj. destruct (decide (j = S k)) as [->|]; [congruence|].
      eapply Hall; [done|lia].
  - eexists. split_and!; [done|lia|lia| |].
    + intros j e' Hj. lia.
    + intros e'. replace (Z.to_nat (Z.of_nat (S k) - 1)) with k by lia. congruence.
Qed.

(** ** Sections that only touch the term, the vote and the volatile state *)

Lemma saved_persist rf : saved (persist rf).
Proof. right. done. Qed.

Lemma node_ok_persist n i rf :
  node_ok n i rf -> node_ok n i (persist rf).
Proof. intros []. constructor; try done. apply saved_persist. Qed.

(** Stepping down to a newer term, then saving. *)
Lemma node_ok_newer n i rf t :
  node_ok n i rf -> currentTerm rf < t ->
  node_ok n i (persist (convertTo Follower (set_currentTerm t rf))) /\
  advance rf (persist (convertTo Follower (set_currentTerm t rf))).
Proof.
  intros [] Ht. split; [|left; done]. constructor; try done; simpl; try lia.
  - eapply Forall_impl; [done|]. simpl. lia.
  - apply saved_persist.
Qed.

(** What every section but those of the [Run] loop and of the vote replies does to the election
    state: a new term makes a follower, within a term role and count stay. *)
Record passive (rf rf' : Raft) : Prop := {
  pv_advance : advance rf rf';
  pv_count : voteCount rf' = voteCount rf;
  pv_newer : currentTerm rf < currentTerm rf' -> state rf' = Follower;
  pv_same : currentTerm rf = currentTerm rf' -> state rf' = state rf }.

Lemma passive_same rf rf' :
  currentTerm rf' = currentTerm rf -> votedFor rf' = votedFor rf ->
  voteCount rf' = voteCount rf -> state rf' = state rf -> passive rf rf'.
Proof. intros Ht Hv Hc Hs. constructor; [right; auto|done|lia|done]. Qed.

Lemma passive_newer rf t :
  currentTerm rf < t -> passive rf (persist (convertTo Follower (set_currentTerm t rf))).
Proof. intros Ht. constructor; simpl; [by left|done|done|lia]. Qed.

(** ** [RequestVote] *)

Definition vote_ok (rf : Raft) (args : RequestVoteArgs) : Prop :=
  exists last, go_index (log rf) (len (log rf) - 1) = Val last /\
    (Term last < LastLogTerm args \/
     (LastLogTerm args = Term last /\ Index last <= LastLogIndex args)).

Lemma moreUpToDate_spec rf args :
  log_ok (log rf) -> exists b, moreUpToDate args rf = Val b /\ (b = true <-> vote_ok rf args).
Proof.
  intros Hl. destruct (log_ok_last _ Hl) as [last Hlast]. unfold moreUpToDate, vote_ok. rewrite Hlast. simpl.
  destruct (Z.ltb_spec (Term last) (LastLogTerm args)); simpl; [|
    destruct (Z.eqb_spec (LastLogTerm args) (Term last)); simpl; [
      destruct (Z.leb_spec (Index last) (LastLogIndex args))|]];
    eexists; (split; [done|]); naive_solver lia.
Qed.

(** The term the server is in when it decides on a vote *)
Definition vote_term (rf : Raft) (args : RequestVoteArgs) : Z := Z.max (currentTerm rf) (rva_Term args).

(** The candidate it is bound to in that term, -1 for none *)
Definition bound_vote (rf : Raft) (args : RequestVoteArgs) : Z :=
  if currentTerm rf <? rva_Term args then -1 else votedFor rf.

Lemma RequestVote_spec n i rf args now :
  node_ok n i rf -> vote_args_ok n args ->
  exists rf' reply, RequestVote rf args now = Val (rf', reply) /\
    node_ok n i rf' /\ passive rf rf' /\
    currentTerm rf' = vote_term rf args /\ rvr_Term reply = vote_term rf args /\
    log rf' = log rf /\
    (VoteGranted reply = true <->
       (bound_vote rf args = -1 \/ bound_vote rf args = CandidateId args) /\ vote_ok rf args) /\
    votedFor rf' = (if VoteGranted reply then CandidateId args else bound_vote rf args).
Proof.
  intros Hok [Hc Ht]. unfold RequestVote, vote_term, bound_vote.
  set (rf1 := if currentTerm rf <? rva_Term args then _ else rf).
  assert (node_ok n i (persist rf1) /\ passive rf (persist rf1) /\
          currentTerm rf1 = Z.max (currentTerm rf) (rva_Term args) /\ log rf1 = log rf /\
          votedFor rf1 = (if currentTerm rf <? rva_Term args then -1 else votedFor rf))
    as (Hok1 & Hp1 & Ht1 & Hl1 & Hv1).
  { unfold rf1. destruct (Z.ltb_spec (currentTerm rf) (rva_Term args)).
    - split_and!; [by apply node_ok_newer|by apply passive_newer|simpl; lia|done|done].
    - split_and!; [by apply node_ok_persist|by apply passive_same|lia|done|done]. }
  rewrite <- Hv1.
  assert (log_ok (log rf1)) as Hlog1 by (rewrite Hl1; apply Hok).
  destruct (moreUpToDate_spec rf1 args Hlog1) as (up & Hup & Hupe).
  assert (vote_ok rf1 args <-> vote_ok rf args) as Hvo by (unfold vote_ok; by rewrite Hl1).
  destruct (Z.eqb_spec (votedFor rf1) (-1)) as [Hn1|Hn1];
    [|destruct (Z.eqb_spec (votedFor rf1) (CandidateId args)) as [Hn2|Hn2]]; simpl;
    try (rewrite Hup; simpl; destruct up); eexists _, _; (split; [reflexivity|]); simpl;
    (split_and!; [| |done|done|done|naive_solver|done]); try done.
  - destruct Hok1. by constructor; auto; apply saved_persist.
  - destruct Hp1. constructor; try done. simpl in *.
    destruct pv_advance0 as [?|[? ?]]; [by left|right; split; [done|]]. simpl in *. lia.
  - destruct Hok1. by constructor; auto; apply saved_persist.
  - destruct Hp1. constructor; try done. simpl in *.
    destruct pv_advance0 as [?|[? ?]]; [by left|right; split; [done|]]. simpl in *. lia.
Qed.

(** ** [AppendEntries] *)

(** The part of the handler that writes the entries and the server's own
    indices, once the loop over the entries has given the log [l']. *)
Lemma append_entries_run n i rf args l' :
  node_ok n i rf -> append_loop (log rf) (Entries args) = Val l' ->
  exists rf1, (if 0 <? len (Entries args) then
      l ← append_loop (log rf) (Entries args);
      ni ← go_update (nextIndex rf) (me rf) (len l);
      mi ← go_update (matchIndex rf) (me rf) (len l - 1);
      mret (set_matchIndex mi (set_nextIndex ni (set_log l rf))) else mret rf) = Val rf1 /\
    (npeers rf1, me rf1, currentTerm rf1, votedFor rf1, voteCount rf1, state rf1, persister rf1) =
    (npeers rf, me rf, currentTerm rf, votedFor rf, voteCount rf, state rf, persister rf) /\
    length (nextIndex rf1) = length (nextIndex rf) /\
    length (matchIndex rf1) = length (matchIndex rf) /\ log rf1 = l' /\
    lastApplied rf1 = lastApplied rf /\ commitIndex rf1 = commitIndex rf.
Proof.
  intros Hok Happ. destruct (Z.ltb_spec 0 (len (Entries args))) as [Hpos|Hnil].
  - rewrite Happ. simpl.
    destruct Hok as [_ Hme Hlt' _ _ _ Hni Hmi _ _ _ _]. rewrite Hme.
    unfold go_update, len. rewrite Hni, Hmi.
    rewrite (proj2 (Z.leb_le 0 (Z.of_nat i))), (proj2 (Z.ltb_lt (Z.of_nat i) (Z.of_nat n))) by lia.
    simpl. eexists. split; [reflexivity|]. simpl. rewrite !length_insert, ?Hme, ?Hni, ?Hmi. done.
  - exists rf. split_and!; try done. destruct (Entries args); [simpl in Happ; by inv_res|].
    unfold len in Hnil. simpl in Hnil. lia.
Qed.

(** The server has the entry the leader's entries go behind. *)
Definition prev_matches (rf : Raft) (args : AppendEntriesArgs) : Prop :=
  exists e, log rf !! Z.to_nat (PrevLogIndex args) = Some e /\ Term e = PrevLogTerm args.

Record append_checked (n i : nat) (rf rf1 : Raft) (args : AppendEntriesArgs) (ok : bool) (xt xi : Z)
    : Prop := {
  ac_same : (npeers rf1, me rf1, currentTerm rf1, votedFor rf1, voteCount rf1, state rf1, persister rf1) =
            (npeers rf, me rf, currentTerm rf, votedFor rf, voteCount rf, state rf, persister rf);
  ac_next : length (nextIndex rf1) = length (nextIndex rf);
  ac_match : length (matchIndex rf1) = length (matchIndex rf);
  ac_log : log_ok (log rf1);
  ac_terms : terms_le (Z.max (currentTerm rf) (aea_Term args)) (log rf1);
  ac_applied : lastApplied rf1 = lastApplied rf;
  ac_commit : commitIndex rf1 = if ok && (commitIndex rf <? LeaderCommit args)
                                then Z.min (LeaderCommit args) (len (log rf1) - 1) else commitIndex rf;
  ac_ok : ok = true <-> prev_matches rf args;
  ac_append : ok = true -> append_loop (log rf) (Entries args) = Val (log rf1);
  ac_fail : ok = false ->
    rf1 = rf /\
    ((xt = -1 /\ xi = len (log rf) /\ len (log rf) <= PrevLogIndex args) \/
     (1 <= xt /\ 1 <= xi <= PrevLogIndex args /\
      (forall j e, log rf !! j = Some e -> xi <= Z.of_nat j <= PrevLogIndex args -> Term e = xt) /\
      (forall e, log rf !! Z.to_nat (xi - 1) = Some e -> Term e <> xt))) }.

Lemma append_check_spec n i rf args :
  node_ok n i rf -> append_args_ok args ->
  exists rf1 ok xt xi, append_check rf args = Val (rf1, (ok, xt, xi)) /\
    append_checked n i rf rf1 args ok xt xi.
Proof.
  intros Hok [Hp Hp0 Hat Hae]. unfold append_check.
  pose proof (no_log _ _ _ Hok) as Hl.
  assert (terms_le (Z.max (currentTerm rf) (aea_Term args)) (log rf)) as Htl.
  { eapply Forall_impl; [apply (no_terms _ _ _ Hok)|]. simpl. lia. }
  destruct (Z.leb_spec (len (log rf)) (PrevLogIndex args)) as [Hge|Hlt].
  - eexists _, _, _, _. split; [reflexivity|]. constructor; try done.
    + split; [done|]. intros (e & He & _). apply lookup_lt_Some in He. unfold len in Hge. lia.
    + intros _. split; [done|]. by left.
  - destruct (go_index_in_range (log rf) (PrevLogIndex args)) as [prev Hprev]; [lia|]. rewrite Hprev. simpl.
    pose proof Hprev as [_ Hpl]%go_index_val.
    destruct (Z.eqb_spec (Term prev) (PrevLogTerm args)) as [Heq|Hne]; simpl.
    + assert (prev_matches rf args) as Hpm by (by exists prev).
      destruct (append_loop_ok (Entries args) (log rf) (PrevLogIndex args + 1)
                  (Z.max (currentTerm rf) (aea_Term args)))
        as (l' & Happ & Hl' & Htl' & Hlen' & _); [done|done|lia| |].
      { intros k e He. destruct (Hae k e He). lia. }
      destruct (append_entries_run n i rf args l' Hok Happ) as (rf1 & -> & Hs1 & Hn1 & Hm1 & Hl1 & Hla1 & Hc1).
      simpl. eexists _, _, _, _. split; [reflexivity|]. rewrite Hc1.
      destruct (Z.ltb_spec (commitIndex rf) (LeaderCommit args)) as [Hlc|Hlc];
        [destruct (Z.ltb_spec (LeaderCommit args) (len (log rf1) - 1))|];
        (constructor; simpl; try done; rewrite ?Hl1 in *; try done;
         destruct (Z.ltb_spec (commitIndex rf) (LeaderCommit args)); lia).
    + assert (PrevLogIndex args <> 0) as Hnz.
      { intros E. apply Hne. rewrite Hp0 by done. rewrite E in Hpl.
        change (Z.to_nat 0) with 0%nat in Hpl. rewrite (log_sentinel _ Hl) in Hpl. by injection Hpl as <-. }
      destruct (xindex_loop_ok (log rf) (Term prev) (Z.to_nat (PrevLogIndex args)))
        as (x & Hx & Hxb & Hxall & Hxp).
      { done. }
      { eapply (log_term _ Hl); [exact Hpl|lia]. }
      { unfold len in Hlt. lia. }
      rewrite Hx. simpl. eexists _, _, _, _. split; [reflexivity|]. constructor; try done.
      * split; [done|]. intros (e & He & Hte). congruence.
      * intros _. split; [done|]. right. split_and!; [|lia|lia| |done].
        -- eapply (log_term _ Hl); [exact Hpl|]. lia.
        -- intros j e Hj Hxj. destruct (decide (Z.of_nat j = PrevLogIndex args)) as [E|].
           ++ rewrite <- E, Nat2Z.id in Hpl. congruence.
           ++ eapply Hxall; [done|lia].
Qed.

(** The term a server answers an [AppendEntries] in *)
Definition append_term (rf : Raft) (args : AppendEntriesArgs) : Z := Z.max (currentTerm rf) (aea_Term args).

Lemma node_ok_checked n i rf rf1 args ok xt xi now :
  node_ok n i rf -> append_checked n i rf rf1 args ok xt xi -> currentTerm rf <= aea_Term args ->
  let rf2 := if currentTerm rf1 <? aea_Term args
             then convertTo Follower (set_currentTerm (aea_Term args) rf1) else rf1 in
  node_ok n i (persist (set_timestamp now rf2)) /\ passive rf (persist (set_timestamp now rf2)) /\
  currentTerm rf2 = append_term rf args /\ log rf2 = log rf1.
Proof.
  intros Hok [Hsame Hn Hm Hl Ht _ _ _ _ _] Hle. injection Hsame as E1 E2 E3 E4 E5 E6 E7.
  unfold append_term. rewrite E3. destruct Hok.
  destruct (Z.ltb_spec (currentTerm rf) (aea_Term args)) as [Hlt|Hge]; simpl; split_and!; try done; try lia.
  - constructor; simpl; try congruence; try lia; [|apply saved_persist].
    by rewrite Z.max_r in Ht by lia.
  - constructor; simpl; [by left|congruence|done|lia].
  - rewrite Z.max_l in Ht by lia. constructor; simpl; try congruence; try lia; try (by apply saved_persist);
      rewrite ?E3, ?E5, ?E6; done.
  - apply passive_same; simpl; congruence.
Qed.

Lemma AppendEntries_val n i rf args now rf' reply spawn :
  node_ok n i rf -> append_args_ok args -> AppendEntries rf args now = Val (rf', reply, spawn) ->
  node_ok n i rf' /\ passive rf rf' /\
  currentTerm rf' = append_term rf args /\ aer_Term reply = append_term rf args.
Proof.
  intros Hok Ha. unfold AppendEntries.
  destruct (Z.ltb_spec (aea_Term args) (currentTerm rf)) as [Hlt|Hge].
  - intros [= <- <- <-]. unfold append_term. simpl.
    split_and!; [by apply node_ok_persist|by apply passive_same|lia|lia].
  - destruct (append_check_spec n i rf args Hok Ha) as (rf1 & ok & xt & xi & -> & Hchk). simpl.
    destruct (node_ok_checked _ _ _ _ _ _ _ _ now Hok Hchk Hge) as (Hok' & Hp & Ht & _).
    intros (spawn' & _ & [= <- <- <-])%bind_val. simpl. split_and!; [done..|by rewrite <- Ht].
Qed.

(** ** The goroutines of [sendHearbeat] *)

Lemma heartbeat_args_val n i rf index args :
  node_ok n i rf -> heartbeat_args rf index = Val (Some args) ->
  append_args_ok args /\ state rf = Leader /\ aea_Term args = currentTerm rf /\ LeaderId args = me rf /\
  LeaderCommit args = commitIndex rf /\
  go_index (nextIndex rf) index = Val (PrevLogIndex args + 1) /\
  (exists prev, log rf !! Z.to_nat (PrevLogIndex args) = Some prev /\ PrevLogTerm args = Term prev) /\
  Entries args = drop (Z.to_nat (PrevLogIndex args + 1)) (log rf).
Proof.
  intros Hok. unfold heartbeat_args. case_bool_decide as Hs; simpl; [|done].
  intros (ni & Hni & (prev & Hprev & (es & Hes & [= <-])%bind_val)%bind_val)%bind_val. simpl.
  pose proof (go_index_bounds _ _ _ Hprev) as Hb. apply go_index_val in Hprev as [_ Hprev].
  apply go_slice_val in Hes as (_ & _ & _ & ->).
  pose proof (no_log _ _ _ Hok) as Hl.
  split_and!; try done.
  - constructor; simpl.
    + lia.
    + intros E. rewrite E in Hprev. change (Z.to_nat 0) with 0%nat in Hprev.
      rewrite (log_sentinel _ Hl) in Hprev. by injection Hprev as <-.
    + by apply (no_leader _ _ _ Hok).
    + intros k e [Hk _]%lookup_take_Some. rewrite lookup_drop in Hk. split.
      * rewrite (log_index _ Hl _ _ Hk). lia.
      * split; [eapply (log_term _ Hl); [done|lia]|].
        pose proof (no_terms _ _ _ Hok) as Ht. by eapply Forall_lookup_1 in Ht.
  - rewrite Hni. f_equal. lia.
  - eauto.
  - rewrite take_ge; [done|]. unfold len in *. rewrite length_drop. lia.
Qed.

Lemma heartbeat_reply_val n i rf index args reply rf' :
  node_ok n i rf -> heartbeat_reply rf index args reply = Val rf' ->
  node_ok n i rf' /\ passive rf rf' /\
  (log rf' = log rf) /\ (state rf <> Leader -> rf' = rf).
Proof.
  intros Hok. unfold heartbeat_reply. case_bool_decide as Hs; simpl; [|intros [= <-]; split_and!; [done|by apply passive_same|done|done]].
  destruct (Z.ltb_spec (currentTerm rf) (aer_Term reply)) as [Hlt|Hge].
  { intros [= <-]. split_and!; [by apply node_ok_newer|by apply passive_newer|done|done]. }
  assert (forall ni mi, length ni = n -> length mi = n ->
            node_ok n i (set_nextIndex ni (set_matchIndex mi rf)) /\
            passive rf (set_nextIndex ni (set_matchIndex mi rf))) as Hset.
  { intros ni mi Hni Hmi. split; [|by apply passive_same]. by destruct Hok; constructor. }
  assert (rf = set_matchIndex (matchIndex rf) rf) as Hid by (by destruct rf).
  pose proof (no_match _ _ _ Hok) as Hm. pose proof (no_next _ _ _ Hok) as Hn.
  destruct (Success reply); simpl.
  - intros (mi & (_ & ->)%go_update_val & (ni & (_ & ->)%go_update_val & [= <-])%bind_val)%bind_val.
    edestruct Hset; [| |split_and!; done]; by rewrite length_insert.
  - intros (ni & (_ & ->)%go_update_val & Hr)%bind_val.
    assert (exists ni, length ni = n /\ rf' = set_nextIndex ni rf) as (ni & Hni & ->).
    { destruct (negb (XTerm reply =? -1)).
      - apply bind_val in Hr as ([x|] & _ & Hr).
        + apply bind_val in Hr as (ni' & (_ & ->)%go_update_val & [= <-]).
          eexists. split; [|done]. by rewrite !length_insert.
        + injection Hr as <-. eexists. split; [|done]. by rewrite !length_insert.
      - injection Hr as <-. eexists. split; [|done]. by rewrite !length_insert. }
    destruct (Hset ni (matchIndex rf) Hni Hm) as [Hok' Hp']. rewrite <- Hid in Hok', Hp'. done.
Qed.

Lemma advance_commit_val n i rf rf' spawn :
  node_ok n i rf -> advance_commit rf = Val (rf', spawn) ->
  node_ok n i rf' /\ passive rf rf' /\ log rf' = log rf.
Proof.
  intros Hok. unfold advance_commit. intros (mine & Hm & Hr)%bind_val.
  assert (rf' = rf \/ exists c, rf' = set_commitIndex c rf) as [->|[c ->]].
  { destruct (commitIndex rf <? mine); [|injection Hr as <- <-; by left].
    apply bind_val in Hr as ([counter minN] & _ & Hr).
    destruct (_ <? counter); [|injection Hr as <- <-; by left].
    apply bind_val in Hr as (e & _ & Hr). destruct (_ =? _); [|injection Hr as <- <-; by left].
    apply bind_val in Hr as (sp & _ & Hr). injection Hr as <- <-. right. eauto. }
  - split_and!; [done|by apply passive_same|done].
  - split_and!; [by destruct Hok; constructor|by apply passive_same|done].
Qed.

(** ** [Start], [Kill] and the apply goroutine *)

Lemma Start_append_val n i rf term command rf' index :
  node_ok n i rf -> 1 <= term <= currentTerm rf ->
  Start_append rf term command = Val (rf', index) ->
  node_ok n i rf' /\ passive rf rf' /\ index = len (log rf) /\
  log rf' = log rf ++ [mkEntry term (Some command) index].
Proof.
  intros Hok Ht. unfold Start_append.
  intros (ni & (_ & ->)%go_update_val & (mi & (_ & ->)%go_update_val & [= <- <-])%bind_val)%bind_val.
  split_and!; [|by apply passive_same|done|done].
  destruct Hok. constructor; simpl; try done; try (by rewrite length_insert).
  - apply log_ok_snoc; [done|done|simpl; lia].
  - apply Forall_app. split; [done|]. apply Forall_singleton. simpl. lia.
  - right. done.
Qed.

Lemma Start_append_total n i rf term command :
  node_ok n i rf -> exists rf' index, Start_append rf term command = Val (rf', index).
Proof.
  intros []. unfold Start_append. simpl.
  assert (forall (l : list Z) x, length l = n -> exists l', go_update l (me rf) x = Val l') as Hup.
  { intros l x Hl. eexists. apply go_update_val. split; [unfold len; lia|reflexivity]. }
  edestruct (Hup (nextIndex rf)) as [ni ->]; [done|]. simpl.
  edestruct (Hup (matchIndex rf)) as [mi ->]; [done|]. simpl. eauto.
Qed.

Lemma apply_ack_ok n i rf index :
  node_ok n i rf -> node_ok n i (apply_ack rf index) /\ passive rf (apply_ack rf index).
Proof.
  intros Hok. unfold apply_ack. destruct (_ <? index).
  - split; [by destruct Hok; constructor|by apply passive_same].
  - split; [done|by apply passive_same].
Qed.

Lemma Kill_ok n i rf : node_ok n i rf -> node_ok n i (Kill rf) /\ passive rf (Kill rf).
Proof. intros Hok. split; [by destruct Hok; constructor|by apply passive_same]. Qed.

(** ** Elections *)

Lemma begin_election_ok n i rf now :
  node_ok n i rf -> currentTerm rf < max_int ->
  node_ok n i (begin_election rf now) /\ advance rf (begin_election rf now) /\
  currentTerm (begin_election rf now) = currentTerm rf + 1.
Proof.
  intros [] Hm. unfold begin_election.
  assert (wrap64 (currentTerm rf + 1) = currentTerm rf + 1) as Hw
    by (apply wrap64_small; unfold min_int in *; lia).
  rewrite Hw. split_and!; [|left; simpl; lia|done].
  constructor; simpl; try done; try lia.
  - eapply Forall_impl; [done|]. simpl. lia.
  - right. done.
Qed.

Lemma vote_args_total n i rf :
  node_ok n i rf -> exists args, vote_args rf = Val args /\ vote_args_ok n args /\
    rva_Term args = currentTerm rf /\ CandidateId args = me rf.
Proof.
  intros Hok. unfold vote_args. destruct (log_ok_last _ (no_log _ _ _ Hok)) as [last ->]. simpl.
  eexists. split_and!; [done| |done|done]. destruct Hok. constructor; simpl; lia.
Qed.

Lemma vote_reply_ok n i rf reply :
  node_ok n i rf -> 1 <= currentTerm rf ->
  node_ok n i (vote_reply rf reply) /\ advance rf (vote_reply rf reply) /\ log (vote_reply rf reply) = log rf.
Proof.
  intros Hok Ht. unfold vote_reply. destruct (VoteGranted reply).
  - split_and!; [by destruct Hok; constructor|right; auto|done].
  - destruct (Z.ltb_spec (currentTerm rf) (rvr_Term reply)); [|done].
    destruct (node_ok_newer n i rf (rvr_Term reply)); done.
Qed.

Lemma candidate_check_ok n i rf :
  node_ok n i rf ->
  node_ok n i (candidate_check rf) /\ advance rf (candidate_check rf) /\ log (candidate_check rf) = log rf.
Proof.
  intros Hok. unfold candidate_check. destruct (Z.ltb_spec (Z.quot (Z.of_nat (npeers rf)) 2) (voteCount rf)); [|done].
  split_and!; [|right; auto|done]. destruct Hok. constructor; try done. simpl. intros _.
  pose proof (Z.quot_pos (Z.of_nat (npeers rf)) 2 ltac:(lia) ltac:(lia)). lia.
Qed.

Lemma convert_candidate_ok n i rf : node_ok n i rf -> node_ok n i (convertTo Candidate rf).
Proof. intros []. by constructor. Qed.

(** ** Restart *)

Lemma Make_saved `{!CodecLaws} n i rf now rnd :
  node_ok n i rf ->
  exists rf', Make (npeers rf) (me rf) (persister rf) now rnd = Val rf' /\ node_ok n i rf' /\
    log rf' = log rf /\ currentTerm rf' = currentTerm rf /\ votedFor rf' = votedFor rf /\
    state rf' = Follower /\ voteCount rf' = 0.
Proof.
  intros []. unfold Make, readPersist, ReadRaftState.
  destruct no_saved0 as [(Hr & Hl & Ht & Hv)|Hs].
  - rewrite Hr. simpl. eexists. split_and!; [done| |done..]. rewrite no_npeers0.
    constructor; simpl; try done; try (by rewrite length_replicate); try lia.
    + by rewrite Hl in *.
    + apply Forall_singleton. simpl. lia.
    + by left.
  - rewrite Hs. pose proof (encode_nonempty (log rf) (currentTerm rf) (votedFor rf)) as Hne.
    destruct (Z.ltb_spec (len (encode_state (log rf) (currentTerm rf) (votedFor rf))) 1) as [Hlt|_].
    { destruct (encode_state _ _ _); [done|]. unfold len in Hlt. simpl in Hlt. lia. }
    rewrite decode_encode. eexists. split_and!; [done| |done..]. rewrite no_npeers0.
    constructor; simpl; try done; try (by rewrite length_replicate); try lia.
    by right.
Qed.

Lemma Make_new n i now rnd :
  (i < n)%nat -> exists rf, Make n (Z.of_nat i) MakePersister now rnd = Val rf /\ node_ok n i rf /\
    log rf = [sentinel] /\ currentTerm rf = 0 /\ votedFor rf = -1 /\ voteCount rf = 0 /\ state rf = Follower.
Proof.
  intros Hi. eexists. split_and!; [reflexivity| |done..].
  constructor; simpl; try done; try (by rewrite length_replicate); try lia.
  - apply log_ok_sentinel.
  - apply Forall_singleton. simpl. lia.
  - by left.
Qed.

End Inv.
End RaftInv.
