(* ===== verification/RaftCluster.v ===== *)
(** * A cluster of Raft servers (raft/raft.go: the Run loop, the goroutines, the RPCs)

    A step of the cluster is one critical section of one goroutine: a turn of a server's [Run] loop,
    a goroutine of [startElection] or [sendHearbeat] reading its arguments, the handler run at the
    other end of its RPC, its use of the reply, the second half of [Start], a message or an
    acknowledgement of an apply goroutine.  An RPC is executed at most once and its reply used at
    most once (labrpc); a request or reply that is never scheduled is lost, and the schedule is
    arbitrary, so messages are delayed and reordered at will.  A crash throws a server's volatile
    state and goroutines away and restarts it from its persister.

    [step] is executable: a label names what runs next, together with the clock and random values it
    reads.  [Err] is the panic of a server.  A label that is not enabled leaves the state as it is. *)

From stdpp Require Import base list gmap strings.
From Stdlib Require Import ZArith Lia.
From S2P Require Import Prelude RaftNode.
Import RaftNode.

Open Scope Z_scope.

Module RaftCluster.

(** Where a server's [Run] loop is. *)
Inductive pc :=
  | PTop                       (* the head of the loop: killed(), and the state is read *)
  | PStopped                   (* the loop has ended *)
  | PCommit                    (* sendHearbeat, after the goroutines are started *)
  | PFollower                  (* runFollower: isElectionTimeout *)
  | PConvert                   (* runFollower: convertTo(Candidate) *)
  | PCandidate                 (* runCandidate: isElectionTimeout *)
  | PElect (cand : bool)       (* startElection, called by runCandidate or not: first section *)
  | PAsk (cand : bool) (j : nat)  (* startElection: the loop over the peers, at peer j *)
  | PVotes                     (* runCandidate: the vote count *).

#[export] Instance pc_eq_dec : EqDecision pc.
Proof. solve_decision. Defined.

Section Cluster.
Context {Cmd : Type} `{Codec Cmd}.
Notation Raft := (Raft Cmd).
Notation Entry := (Entry Cmd).
Notation ApplyMsg := (ApplyMsg Cmd).
Notation AppendEntriesArgs := (AppendEntriesArgs Cmd).

Inductive vote_stage :=
  | VNew                                   (* started, has not read its arguments *)
  | VSent (args : RequestVoteArgs)         (* the request is in the network *)
  | VReplied (args : RequestVoteArgs) (reply : RequestVoteReply).

Inductive beat_stage :=
  | HNew
  | HSent (args : AppendEntriesArgs)
  | HReplied (args : AppendEntriesArgs) (reply : AppendEntriesReply).

(** Goroutines.  [i] is the server that started it and [ep] that server's incarnation; [t] of a vote
    goroutine is the term in which it was started, which the source does not keep. *)
Inductive thread :=
  | TVote (i ep j : nat) (t : Z) (st : vote_stage)
  | TBeat (i ep j : nat) (st : beat_stage)
  | TStart (i ep : nat) (term : Z) (command : Cmd)    (* Start between its two sections *)
  | TApply (i ep : nat) (entries : list Entry)        (* apply goroutine, about to send *)
  | TAck (i ep : nat) (index : Z) (entries : list Entry)  (* has sent, about to lock *)
  | TDone.

Record Cluster := mkCluster {
  nodes : list Raft;
  pcs : list pc;
  epochs : list nat;
  threads : list thread;
  applied : list (list ApplyMsg)   (* what each server has sent on its applyCh *) }.

Inductive label :=
  | LRun (i : nat) (now : Z)
  | LThread (k : nat) (now : Z)
  | LStart (i : nat) (command : Cmd)
  | LKill (i : nat)
  | LCrash (i : nat) (now rnd : Z).

Definition set_node (i : nat) (rf : Raft) (c : Cluster) : Cluster :=
  mkCluster (<[i := rf]> (nodes c)) (pcs c) (epochs c) (threads c) (applied c).
Definition set_pc (i : nat) (p : pc) (c : Cluster) : Cluster :=
  mkCluster (nodes c) (<[i := p]> (pcs c)) (epochs c) (threads c) (applied c).
Definition set_thread (k : nat) (t : thread) (c : Cluster) : Cluster :=
  mkCluster (nodes c) (pcs c) (epochs c) (<[k := t]> (threads c)) (applied c).
Definition add_threads (ts : list thread) (c : Cluster) : Cluster :=
  mkCluster (nodes c) (pcs c) (epochs c) (threads c ++ ts) (applied c).
Definition add_applied (i : nat) (m : ApplyMsg) (c : Cluster) : Cluster :=
  mkCluster (nodes c) (pcs c) (epochs c) (threads c) (alter (fun l => l ++ [m]) i (applied c)).

(** The apply goroutine [sendApplyMsg] may have started *)
Definition spawn_apply (i ep : nat) (spawn : option (list Entry)) (c : Cluster) : Cluster :=
  match spawn with Some es => add_threads [TApply i ep es] c | None => c end.

(** The peers other than [i] *)
Definition others (n i : nat) : list nat := filter (fun j => j <> i) (seq 0 n).

(** One turn of the [Run] loop of server [i] *)
Definition run_step (c : Cluster) (i : nat) (rf : Raft) (p : pc) (ep : nat) (now : Z) : res Cluster :=
  match p with
  | PTop =>
      if killed rf then mret (set_pc i PStopped c)
      else
        match state rf with
        | Leader =>
            mret (set_pc i PCommit
                    (add_threads ((fun j => TBeat i ep j HNew) <$> others (npeers rf) i) c))
        | Follower => mret (set_pc i PFollower c)
        | Candidate => mret (set_pc i PCandidate c)
        end
  | PStopped => mret c
  | PCommit =>
      '(rf', spawn) ← advance_commit rf;
      mret (spawn_apply i ep spawn (set_pc i PTop (set_node i rf' c)))
  | PFollower =>
      if isElectionTimeout rf now then mret (set_pc i PConvert c) else mret (set_pc i PTop c)
  | PConvert => mret (set_pc i (PElect false) (set_node i (convertTo Candidate rf) c))
  | PCandidate =>
      if isElectionTimeout rf now then mret (set_pc i (PElect true) c) else mret (set_pc i PVotes c)
  | PElect cand => mret (set_pc i (PAsk cand 0) (set_node i (begin_election rf now) c))
  | PAsk cand j =>
      let back := if cand then PVotes else PTop in
      if (npeers rf <=? j)%nat then mret (set_pc i back c)
      else if bool_decide (j = i) then mret (set_pc i (PAsk cand (S j)) c)
      else if negb (bool_decide (state rf = Candidate)) then mret (set_pc i back c)
      else mret (set_pc i (PAsk cand (S j)) (add_threads [TVote i ep j (currentTerm rf) VNew] c))
  | PVotes => mret (set_pc i PTop (set_node i (candidate_check rf) c))
  end.

(** Whether the incarnation that started a goroutine is still running *)
Definition alive (c : Cluster) (i ep : nat) : bool := bool_decide (epochs c !! i = Some ep).

(** The next section of goroutine [k].  Handlers run at server [j]; the rest at the server that
    started the goroutine, if that incarnation still runs. *)
Definition thread_step (c : Cluster) (k : nat) (t : thread) (now : Z) : res Cluster :=
  match t with
  | TVote i ep j t0 VNew =>
      match nodes c !! i with
      | Some rf =>
          if alive c i ep
          then args ← vote_args rf; mret (set_thread k (TVote i ep j t0 (VSent args)) c)
          else mret c
      | None => mret c
      end
  | TVote i ep j t0 (VSent args) =>
      match nodes c !! j with
      | Some rf =>
          '(rf', reply) ← RequestVote rf args now;
          mret (set_thread k (TVote i ep j t0 (VReplied args reply)) (set_node j rf' c))
      | None => mret c
      end
  | TVote i ep j t0 (VReplied args reply) =>
      match nodes c !! i with
      | Some rf =>
          if alive c i ep
          then mret (set_thread k TDone (set_node i (vote_reply rf reply) c)) else mret c
      | None => mret c
      end
  | TBeat i ep j HNew =>
      match nodes c !! i with
      | Some rf =>
          if alive c i ep then
            a ← heartbeat_args rf (Z.of_nat j);
            match a with
            | Some args => mret (set_thread k (TBeat i ep j (HSent args)) c)
            | None => mret (set_thread k TDone c)
            end
          else mret c
      | None => mret c
      end
  | TBeat i ep j (HSent args) =>
      match nodes c !! j, epochs c !! j with
      | Some rf, Some epj =>
          '(rf', reply, spawn) ← AppendEntries rf args now;
          mret (spawn_apply j epj spawn
                  (set_thread k (TBeat i ep j (HReplied args reply)) (set_node j rf' c)))
      | _, _ => mret c
      end
  | TBeat i ep j (HReplied args reply) =>
      match nodes c !! i with
      | Some rf =>
          if alive c i ep then
            rf' ← heartbeat_reply rf (Z.of_nat j) args reply;
            mret (set_thread k TDone (set_node i rf' c))
          else mret c
      | None => mret c
      end
  | TStart i ep term command =>
      match nodes c !! i with
      | Some rf =>
          if alive c i ep then
            '(rf', _) ← Start_append rf term command;
            mret (set_thread k TDone (set_node i rf' c))
          else mret c
      | None => mret c
      end
  | TApply i ep entries =>
      if alive c i ep then
        match entries with
        | [] => mret (set_thread k TDone c)
        | e :: rest =>
            mret (set_thread k (TAck i ep (CommandIndex (apply_msg e)) rest)
                    (add_applied i (apply_msg e) c))
        end
      else mret c
  | TAck i ep index entries =>
      match nodes c !! i with
      | Some rf =>
          if alive c i ep
          then mret (set_thread k (TApply i ep entries) (set_node i (apply_ack rf index) c))
          else mret c
      | None => mret c
      end
  | TDone => mret c
  end.

Definition step (c : Cluster) (l : label) : res Cluster :=
  match l with
  | LRun i now =>
      match nodes c !! i, pcs c !! i, epochs c !! i with
      | Some rf, Some p, Some ep => run_step c i rf p ep now
      | _, _, _ => mret c
      end
  | LThread k now =>
      match threads c !! k with
      | Some t => thread_step c k t now
      | None => mret c
      end
  | LStart i command =>
      match nodes c !! i, epochs c !! i with
      | Some rf, Some ep =>
          let '(term, isLeader) := GetState rf in
          if (isLeader : bool) then mret (add_threads [TStart i ep term command] c) else mret c
      | _, _ => mret c
      end
  | LKill i =>
      match nodes c !! i with
      | Some rf => mret (set_node i (Kill rf) c)
      | None => mret c
      end
  | LCrash i now rnd =>
      match nodes c !! i with
      | Some rf =>
          rf' ← Make (npeers rf) (me rf) (persister rf) now rnd;
          mret (mkCluster (<[i := rf']> (nodes c)) (<[i := PTop]> (pcs c)) (alter S i (epochs c))
                  (threads c) (applied c))
      | None => mret c
      end
  end.

(** A cluster of [n] servers that have just been started; [now] and [rnd] are the clock and random
    values each of them reads. *)
Definition init_cluster (n : nat) (now rnd : nat -> Z) : res Cluster :=
  ns ← mapM (fun i => Make n (Z.of_nat i) MakePersister (now i) (rnd i)) (seq 0 n);
  mret (mkCluster ns (replicate n PTop) (replicate n 0%nat) [] (replicate n [])).

(** No term has reached the largest [int]. *)
Definition terms_small (c : Cluster) : Prop := Forall (fun rf => currentTerm rf < max_int) (nodes c).

(** Executions of at least one server in which no term reaches 2^63 - 1. *)
Inductive reachable (n : nat) : Cluster -> Prop :=
  | reach_init c now rnd : (0 < n)%nat -> init_cluster n now rnd = Val c -> reachable n c
  | reach_step c l c' : reachable n c -> step c l = Val c' -> terms_small c' -> reachable n c'.

(** Running a list of labels *)
Fixpoint steps (c : Cluster) (ls : list label) : res Cluster :=
  match ls with
  | [] => mret c
  | l :: ls' => c' ← step c l; steps c' ls'
  end.

End Cluster.
End RaftCluster.
