(* ===== verification/RaftClusterInv.v ===== *)
(** * The invariant of a Raft cluster

    [cluster_ok]: every server is well formed ([node_ok]), every request in flight is one its receiver
    handles without panicking, and every goroutine carries a term its server has reached.  Every step
    of the cluster preserves it and moves each server's term and vote forward ([advances]), crashes and
    restarts included. *)

From stdpp Require Import base list gmap strings.
From Stdlib Require Import ZArith Lia.
From S2P Require Import Prelude RaftNode RaftInv RaftCluster.
Import RaftNode RaftInv RaftCluster.

Open Scope Z_scope.

Module RaftClusterInv.

Section Inv.
Context {Cmd : Type} `{Codec Cmd}.
Notation Raft := (Raft Cmd).
Notation Cluster := (@Cluster Cmd).
Notation thread := (@thread Cmd).
Notation label := (@label Cmd).

(** Server [i] has reached term [t], a term of an election. *)
Definition reached (ns : list Raft) (i : nat) (t : Z) : Prop :=
  exists rf, ns !! i = Some rf /\ 1 <= t <= currentTerm rf.

Definition vote_stage_ok (n i : nat) (st : vote_stage) : Prop :=
  match st with
  | VNew => True
  | VSent args | VReplied args _ => vote_args_ok n args /\ CandidateId args = Z.of_nat i
  end.

Definition beat_stage_ok (st : @beat_stage Cmd) : Prop :=
  match st with
  | HNew => True
  | HSent args | HReplied args _ => append_args_ok args
  end.

Definition thread_ok (n : nat) (ns : list Raft) (t : thread) : Prop :=
  match t with
  | TVote i _ j t0 st => reached ns i t0 /\ (j < n)%nat /\ j <> i /\ vote_stage_ok n i st
  | TBeat i _ j st => (i < n)%nat /\ (j < n)%nat /\ j <> i /\ beat_stage_ok st
  | TStart i _ term _ => reached ns i term
  | TApply i _ _ | TAck i _ _ _ => (i < n)%nat
  | TDone => True
  end.

(** After its first section, [startElection] is in a term of an election. *)
Definition pc_ok (rf : Raft) (p : pc) : Prop :=
  match p with PAsk _ _ => 1 <= currentTerm rf | _ => True end.

Record cluster_ok (n : nat) (c : Cluster) : Prop := {
  co_nodes : length (nodes c) = n;
  co_pcs : length (pcs c) = n;
  co_epochs : length (epochs c) = n;
  co_applied : length (applied c) = n;
  co_node : forall i rf, nodes c !! i = Some rf -> node_ok n i rf;
  co_pc : forall i rf p, nodes c !! i = Some rf -> pcs c !! i = Some p -> pc_ok rf p;
  co_thread : forall k t, threads c !! k = Some t -> thread_ok n (nodes c) t }.

(** Every server's term and vote move forward. *)
Definition advances (c c' : Cluster) : Prop :=
  forall i rf rf', nodes c !! i = Some rf -> nodes c' !! i = Some rf' -> advance rf rf'.

Record ok_step (n : nat) (c c' : Cluster) : Prop := {
  os_ok : cluster_ok n c';
  os_adv : advances c c' }.

Lemma advances_same c c' : nodes c' = nodes c -> advances c c'.
Proof. intros E i rf rf' H1 H2. rewrite E, H1 in H2. injection H2 as <-. reflexivity. Qed.

Lemma ok_step_refl n c : cluster_ok n c -> ok_step n c c.
Proof. split; [done|by apply advances_same]. Qed.

Lemma advances_trans n c1 c2 c3 :
  cluster_ok n c1 -> cluster_ok n c2 -> advances c1 c2 -> advances c2 c3 -> advances c1 c3.
Proof.
  intros H1 H2 A B i rf rf' Hi Hi'.
  destruct (lookup_lt_is_Some_2 (nodes c2) i) as [rf2 Hrf2].
  { rewrite (co_nodes _ _ H2), <- (co_nodes _ _ H1). by eapply lookup_lt_Some. }
  etransitivity; [by eapply A|by eapply B].
Qed.

Lemma ok_step_trans n c1 c2 c3 :
  cluster_ok n c1 -> ok_step n c1 c2 -> (cluster_ok n c2 -> ok_step n c2 c3) -> ok_step n c1 c3.
Proof.
  intros H1 [H2 A] B. destruct (B H2) as [H3 B']. split; [done|]. exact (advances_trans _ _ _ _ H1 H2 A B').
Qed.

(** ** The parts of a step *)

Lemma advance_term (rf rf' : Raft) : advance rf rf' -> currentTerm rf <= currentTerm rf'.
Proof. intros [?|[? _]]; lia. Qed.

Lemma reached_insert ns i rf rf' j t :
  ns !! i = Some rf -> advance rf rf' -> reached ns j t -> reached (<[i := rf']> ns) j t.
Proof.
  intros Hi Ha%advance_term (r & Hr & Ht). destruct (decide (i = j)) as [->|Hne].
  - exists rf'. rewrite list_lookup_insert_eq by (by eapply lookup_lt_Some). split; [done|].
    rewrite Hi in Hr. injection Hr as <-. lia.
  - exists r. by rewrite list_lookup_insert_ne by done.
Qed.

Lemma thread_ok_insert n ns i rf rf' t :
  ns !! i = Some rf -> advance rf rf' -> thread_ok n ns t -> thread_ok n (<[i := rf']> ns) t.
Proof. intros Hi Ha. destruct t; simpl; try done; naive_solver eauto using reached_insert. Qed.

Lemma ok_set_node n c i rf rf' :
  cluster_ok n c -> nodes c !! i = Some rf -> node_ok n i rf' -> advance rf rf' ->
  ok_step n c (set_node i rf' c).
Proof.
  intros Hok Hi Hok' Ha. pose proof (lookup_lt_Some _ _ _ Hi) as Hlt. split.
  - destruct Hok as [Hn Hp He Hap Hnode Hpc Hth].
    constructor; simpl; try done; [by rewrite length_insert|..].
    + intros j r [(<- & -> & _)|[_ Hj]]%list_lookup_insert_Some; [done|by apply Hnode].
    + intros j r p [(<- & -> & _)|[_ Hj]]%list_lookup_insert_Some Hp'; [|by eapply Hpc].
      specialize (Hpc _ _ _ Hi Hp'). apply advance_term in Ha. destruct p; simpl in *; try done. lia.
    + intros k t Hk. eapply thread_ok_insert; [done|done|by eapply Hth].
  - intros j r r' Hj [(<- & -> & _)|[_ Hj']]%list_lookup_insert_Some.
    + congruence.
    + rewrite Hj in Hj'. injection Hj' as <-. reflexivity.
Qed.

Lemma ok_set_pc n c i p :
  cluster_ok n c -> (forall rf, nodes c !! i = Some rf -> pc_ok rf p) -> ok_step n c (set_pc i p c).
Proof.
  intros Hok Hp'. split; [|by apply advances_same].
  destruct Hok as [Hn Hp He Hap Hnode Hpc Hth].
  constructor; simpl; try done; [by rewrite length_insert|].
  intros j r q Hj [(<- & -> & _)|[_ Hq]]%list_lookup_insert_Some; eauto.
Qed.

Lemma ok_add_threads n c ts :
  cluster_ok n c -> Forall (thread_ok n (nodes c)) ts -> ok_step n c (add_threads ts c).
Proof.
  intros Hok Hts. split; [|by apply advances_same].
  destruct Hok as [Hn Hp He Hap Hnode Hpc Hth]. constructor; simpl; try done.
  intros k t [Hk|[_ Hk]]%lookup_app_Some; [by eapply Hth|by eapply Forall_lookup_1 in Hts].
Qed.

Lemma ok_set_thread n c k t :
  cluster_ok n c -> thread_ok n (nodes c) t -> ok_step n c (set_thread k t c).
Proof.
  intros Hok Ht. split; [|by apply advances_same].
  destruct Hok as [Hn Hp He Hap Hnode Hpc Hth]. constructor; simpl; try done.
  intros k' t' [(<- & -> & _)|[_ Hk]]%list_lookup_insert_Some; [done|by eapply Hth].
Qed.

Lemma ok_add_applied n c i m : cluster_ok n c -> ok_step n c (add_applied i m c).
Proof.
  intros Hok. split; [|by apply advances_same].
  destruct Hok as [Hn Hp He Hap Hnode Hpc Hth]. constructor; simpl; try done.
  by rewrite length_alter.
Qed.

Lemma ok_spawn_apply n c i ep spawn :
  cluster_ok n c -> (i < n)%nat -> ok_step n c (spawn_apply i ep spawn c).
Proof.
  intros Hok Hi. destruct spawn; simpl; [|by apply ok_step_refl].
  apply ok_add_threads; [done|]. by apply Forall_singleton.
Qed.

(** A section of server [i]: the server and then something that does not touch the servers. *)
Lemma ok_node_then n c i rf rf' (f : Cluster -> Cluster) :
  cluster_ok n c -> nodes c !! i = Some rf -> node_ok n i rf' -> advance rf rf' ->
  (forall c', cluster_ok n c' -> nodes c' = <[i := rf']> (nodes c) -> ok_step n c' (f c')) ->
  ok_step n c (f (set_node i rf' c)).
Proof.
  intros Hok Hi Hok' Ha Hf. eapply (ok_step_trans n c (set_node i rf' c)); [done|by eapply ok_set_node|].
  intros Hc'. by apply Hf.
Qed.

Lemma ok_node_pc n c i rf rf' p :
  cluster_ok n c -> nodes c !! i = Some rf -> node_ok n i rf' -> advance rf rf' -> pc_ok rf' p ->
  ok_step n c (set_pc i p (set_node i rf' c)).
Proof.
  intros Hok Hi Hok' Ha Hp. eapply (ok_node_then n c i rf rf' (set_pc i p)); [done..|].
  intros c' Hc' E. apply ok_set_pc; [done|]. rewrite E.
  by intros r [(_ & -> & _)|[? _]]%list_lookup_insert_Some.
Qed.

Lemma others_spec n i j : j ∈ others n i -> (j < n)%nat /\ j <> i.
Proof. unfold others. rewrite list_elem_of_filter, elem_of_seq. lia. Qed.

Lemma run_step_ok n c i rf p ep now c' :
  cluster_ok n c -> nodes c !! i = Some rf -> pcs c !! i = Some p -> currentTerm rf < max_int ->
  run_step c i rf p ep now = Val c' -> ok_step n c c'.
Proof.
  intros Hok Hi Hp Hm. pose proof (co_node _ _ Hok _ _ Hi) as Hn.
  pose proof (no_lt _ _ _ Hn) as Hlt. pose proof (no_npeers _ _ _ Hn) as Hnp.
  assert (forall q, (forall r, pc_ok r q) -> ok_step n c (set_pc i q c)) as Hpc by (intros; by apply ok_set_pc).
  destruct p as [| | | | | |cand|cand j|]; unfold run_step.
  - destruct (killed rf); [intros [= <-]; by apply Hpc|].
    destruct (state rf); intros [= <-]; [by apply Hpc..|].
    eapply (ok_step_trans n c (add_threads _ c)); [done|apply ok_add_threads; [done|]|intros; by apply ok_set_pc].
    apply Forall_fmap, Forall_forall. intros j Hj%others_spec. rewrite Hnp in Hj. simpl. naive_solver.
  - intros [= <-]. by apply ok_step_refl.
  - intros ([rf' spawn] & Hac & [= <-])%bind_val.
    destruct (advance_commit_val _ _ _ _ _ Hn Hac) as (Hn' & [Ha _ _ _] & _).
    eapply (ok_node_then n c i rf rf' (fun c => spawn_apply i ep spawn (set_pc i PTop c))); try done.
    intros c' Hok' _. eapply (ok_step_trans n c' (set_pc i PTop c')); [done|by apply ok_set_pc|]. intros. by apply ok_spawn_apply.
  - destruct (isElectionTimeout rf now); intros [= <-]; by apply Hpc.
  - intros [= <-]. eapply ok_node_pc; [done|done|by apply convert_candidate_ok|right; auto|done].
  - destruct (isElectionTimeout rf now); intros [= <-]; by apply Hpc.
  - intros [= <-]. destruct (begin_election_ok _ _ _ now Hn Hm) as (Hn' & Ha & Ht).
    eapply ok_node_pc; [done..|]. unfold pc_ok. rewrite Ht. pose proof (no_term _ _ _ Hn). lia.
  - pose proof (co_pc _ _ Hok _ _ _ Hi Hp) as Hp1. simpl in Hp1.
    assert (forall r, nodes c !! i = Some r -> pc_ok r (PAsk cand (S j))) as Hask by (intros; simpl; congruence).
    destruct (Nat.leb_spec (npeers rf) j); [intros [= <-]; destruct cand; by apply Hpc|].
    case_bool_decide as Hji; [intros [= <-]; by apply ok_set_pc|].
    case_bool_decide as Hst; simpl; intros [= <-]; [|destruct cand; by apply Hpc].
    eapply (ok_step_trans n c (add_threads _ c)); [done|apply ok_add_threads; [done|]|intros; by apply ok_set_pc].
    apply Forall_singleton. simpl. split_and!; [|lia|done|done]. exists rf. split; [done|lia].
  - intros [= <-]. destruct (candidate_check_ok _ _ _ Hn) as (Hn' & Ha & _).
    by eapply ok_node_pc.
Qed.

(** A handler or a section of a goroutine: the server, then the goroutine's own stage. *)
Lemma ok_node_thread n c i rf rf' k t :
  cluster_ok n c -> nodes c !! i = Some rf -> node_ok n i rf' -> advance rf rf' ->
  thread_ok n (<[i := rf']> (nodes c)) t -> ok_step n c (set_thread k t (set_node i rf' c)).
Proof.
  intros Hok Hi Hn' Ha Ht. eapply (ok_node_then n c i rf rf' (set_thread k t)); [done..|]. intros c' Hok' E.
  apply ok_set_thread; [done|by rewrite E].
Qed.

Lemma vote_thread_ok n c k i ep j t0 st now c' :
  cluster_ok n c -> thread_ok n (nodes c) (TVote i ep j t0 st) ->
  thread_step c k (TVote i ep j t0 st) now = Val c' -> ok_step n c c'.
Proof.
  intros Hok (Hr & Hj & Hji & Hst). pose proof Hr as (rfi & Hi & Ht0).
  pose proof (co_node _ _ Hok _ _ Hi) as Hn. unfold thread_step. rewrite Hi.
  destruct st as [|args|args reply]; simpl in Hst.
  - destruct (alive c i ep); [|intros [= <-]; by apply ok_step_refl].
    destruct (vote_args_total _ _ _ Hn) as (args & -> & Ha & Hat & Hac). intros [= <-].
    apply ok_set_thread; [done|]. simpl. split_and!; try done. by rewrite Hac, (no_me _ _ _ Hn).
  - destruct (nodes c !! j) as [rfj|] eqn:Hrj; [|intros [= <-]; by apply ok_step_refl].
    pose proof (co_node _ _ Hok _ _ Hrj) as Hnj.
    destruct (RequestVote_spec _ _ _ args now Hnj (proj1 Hst))
      as (rf' & reply & -> & Hn' & [Ha _ _ _] & _). intros [= <-].
    eapply ok_node_thread; [done..|]. simpl. split_and!; try done; [|naive_solver..].
    by eapply reached_insert.
  - destruct (alive c i ep); [|intros [= <-]; by apply ok_step_refl]. intros [= <-].
    destruct (vote_reply_ok _ _ _ reply Hn ltac:(lia)) as (Hn' & Ha & _).
    by eapply ok_node_thread.
Qed.

Lemma beat_thread_ok n c k i ep j st now c' :
  cluster_ok n c -> thread_ok n (nodes c) (TBeat i ep j st) ->
  thread_step c k (TBeat i ep j st) now = Val c' -> ok_step n c c'.
Proof.
  intros Hok (Hi & Hj & Hji & Hst). unfold thread_step.
  assert (forall i, (i < n)%nat -> exists rf, nodes c !! i = Some rf /\ node_ok n i rf) as Hnode.
  { intros m Hm. destruct (lookup_lt_is_Some_2 (nodes c) m) as [rf Hrf]; [by rewrite (co_nodes _ _ Hok)|].
    exists rf. split; [done|by apply Hok]. }
  destruct (Hnode i Hi) as (rfi & Hrf & Hn). destruct (Hnode j Hj) as (rfj & Hrj & Hnj). rewrite Hrf, Hrj.
  destruct st as [|args|args reply]; simpl in Hst.
  - destruct (alive c i ep); [|intros [= <-]; by apply ok_step_refl].
    intros ([args|] & Hargs & [= <-])%bind_val; [|by apply ok_set_thread].
    destruct (heartbeat_args_val _ _ _ _ _ Hn Hargs) as (Ha & _).
    by apply ok_set_thread.
  - destruct (epochs c !! j) as [epj|]; [|intros [= <-]; by apply ok_step_refl].
    intros ([[rf' reply] spawn] & Hae & [= <-])%bind_val.
    destruct (AppendEntries_val _ _ _ _ _ _ _ _ Hnj Hst Hae) as (Hn' & [Ha _ _ _] & _).
    eapply (ok_step_trans n c (set_thread k (TBeat i ep j (HReplied args reply)) (set_node j rf' c))); [done|by eapply ok_node_thread|].
    intros. by apply ok_spawn_apply.
  - destruct (alive c i ep); [|intros [= <-]; by apply ok_step_refl].
    intros (rf' & Hhr & [= <-])%bind_val.
    destruct (heartbeat_reply_val _ _ _ _ _ _ _ Hn Hhr) as (Hn' & [Ha _ _ _] & _).
    by eapply ok_node_thread.
Qed.

Lemma thread_step_ok n c k t now c' :
  cluster_ok n c -> threads c !! k = Some t -> thread_step c k t now = Val c' -> ok_step n c c'.
Proof.
  intros Hok Hk. pose proof (co_thread _ _ Hok _ _ Hk) as Ht.
  destruct t as [i ep j t0 st|i ep j st|i ep term command|i ep es|i ep index es|].
  - by apply vote_thread_ok.
  - by apply beat_thread_ok.
  - destruct Ht as (rf & Hi & Htm). pose proof (co_node _ _ Hok _ _ Hi) as Hn. unfold thread_step. rewrite Hi.
    destruct (alive c i ep); [|intros [= <-]; by apply ok_step_refl].
    intros ([rf' index] & Hs & [= <-])%bind_val.
    destruct (Start_append_val _ _ _ _ _ _ _ Hn Htm Hs) as (Hn' & [Ha _ _ _] & _).
    by eapply ok_node_thread.
  - unfold thread_step. destruct (alive c i ep); [|intros [= <-]; by apply ok_step_refl].
    destruct es as [|e es]; intros [= <-]; [by apply ok_set_thread|].
    eapply (ok_step_trans n c (add_applied i (apply_msg e) c)); [done|by apply ok_add_applied|].
    intros. by apply ok_set_thread.
  - unfold thread_step. destruct (nodes c !! i) as [rf|] eqn:Hi; [|intros [= <-]; by apply ok_step_refl].
    destruct (alive c i ep); [|intros [= <-]; by apply ok_step_refl]. intros [= <-].
    pose proof (co_node _ _ Hok _ _ Hi) as Hn. destruct (apply_ack_ok _ _ _ index Hn) as (Hn' & [Ha _ _ _]).
    by eapply ok_node_thread.
  - intros [= <-]. by apply ok_step_refl.
Qed.

Lemma step_ok `{!CodecLaws} n c l c' :
  cluster_ok n c -> terms_small c -> step c l = Val c' -> ok_step n c c'.
Proof.
  intros Hok Hsmall. destruct l as [i now|k now|i command|i|i now rnd]; simpl.
  - destruct (nodes c !! i) as [rf|] eqn:Hi; [|intros [= <-]; by apply ok_step_refl].
    destruct (pcs c !! i) as [p|] eqn:Hp; [|intros [= <-]; by apply ok_step_refl].
    destruct (epochs c !! i) as [ep|] eqn:He; [|intros [= <-]; by apply ok_step_refl].
    apply run_step_ok; try done. by eapply Forall_lookup_1 in Hsmall.
  - destruct (threads c !! k) as [t|] eqn:Hk; [|intros [= <-]; by apply ok_step_refl].
    by apply thread_step_ok.
  - destruct (nodes c !! i) as [rf|] eqn:Hi; [|intros [= <-]; by apply ok_step_refl].
    destruct (epochs c !! i) as [ep|] eqn:He; [|intros [= <-]; by apply ok_step_refl].
    case_bool_decide as Hs; intros [= <-]; [|by apply ok_step_refl].
    apply ok_add_threads; [done|]. apply Forall_singleton. exists rf. split; [done|].
    pose proof (no_leader _ _ _ (co_node _ _ Hok _ _ Hi) Hs). lia.
  - destruct (nodes c !! i) as [rf|] eqn:Hi; intros [= <-]; [|by apply ok_step_refl].
    destruct (Kill_ok _ _ _ (co_node _ _ Hok _ _ Hi)) as (Hn' & [Ha _ _ _]). by eapply ok_set_node.
  - destruct (nodes c !! i) as [rf|] eqn:Hi; [|intros [= <-]; by apply ok_step_refl].
    intros (rf' & Hmk & [= <-])%bind_val.
    destruct (Make_saved n i rf now rnd (co_node _ _ Hok _ _ Hi)) as (r & Hr & Hn' & Hl & Ht & Hv & _).
    rewrite Hmk in Hr. injection Hr as <-.
    assert (advance rf rf') as Ha by (right; auto).
    destruct (ok_set_node n c i rf rf' Hok Hi Hn' Ha) as [Hok1 Ha1]. split; [|exact Ha1].
    destruct (ok_set_pc n _ i PTop Hok1 ltac:(done)) as [[] _]. constructor; simpl in *; try done.
    by rewrite length_alter.
Qed.

(** A server as [Make] starts it without saved state *)
Definition fresh_node (n i : nat) (rf : Raft) : Prop :=
  node_ok n i rf /\ currentTerm rf = 0 /\ votedFor rf = -1 /\ voteCount rf = 0 /\ state rf = Follower.

Lemma init_nodes n now rnd c :
  init_cluster n now rnd = Val c ->
  length (nodes c) = n /\ (forall i rf, nodes c !! i = Some rf -> fresh_node n i rf) /\
  pcs c = replicate n PTop /\ epochs c = replicate n 0%nat /\ threads c = [] /\ applied c = replicate n [].
Proof.
  unfold init_cluster. intros (ns & Hns & [= <-])%bind_val. simpl.
  apply (mapM_seq_val _ (fresh_node n)) in Hns as [Hlen Hall]; [done|].
  intros i rf Hi Hrf. destruct (Make_new n i (now i) (rnd i)) as (r & Hr & Hn & _ & Ht & Hv & Hc & Hs); [lia|].
  rewrite Hrf in Hr. injection Hr as <-. done.
Qed.

Lemma init_ok n now rnd c :
  init_cluster n now rnd = Val c -> cluster_ok n c /\ terms_small c.
Proof.
  intros (Hlen & Hn & Hp & He & Ht & Ha)%init_nodes. split.
  - constructor; rewrite ?Hp, ?He, ?Ht, ?Ha, ?length_replicate; try done.
    + intros i rf Hi. by apply Hn.
    + by intros i rf p _ [-> _]%lookup_replicate.
  - apply Forall_lookup. intros i rf Hi. destruct (Hn i rf Hi) as (_ & -> & _). done.
Qed.

Lemma reachable_ok `{!CodecLaws} n c : reachable n c -> cluster_ok n c /\ terms_small c.
Proof.
  induction 1 as [c now rnd Hn Hc|c l c' Hr [IH1 IH2] Hs Hsmall]; [by eapply init_ok|].
  split; [|done]. by eapply step_ok.
Qed.

End Inv.
End RaftClusterInv.
