(* ===== verification/RaftElection.v ===== *)
(** * Leader elections

    Election safety: no two servers lead the same term.  The servers keep their promises (a vote per
    term, kept over crashes: RaftClusterInv.v), and a candidate that counts only votes of its own term
    wins only with a majority of them.  raft.go leaves three checks of the latter to timing; [timely] is
    the condition that timing did not spoil them:
    - a goroutine of [startElection] reads its arguments in the term the election was started in;
    - a granted vote is counted in the term it was asked and granted in;
    - [runCandidate] finds its majority while the server is still a candidate.
    In timely executions election safety holds for the whole history; without it two servers can lead
    one term. *)

From stdpp Require Import base list gmap strings relations.
From Stdlib Require Import ZArith Lia.
From S2P Require Import Prelude RaftNode RaftCodec RaftInv RaftCluster RaftClusterInv.
Import RaftNode RaftCodec RaftInv RaftCluster RaftClusterInv.

Open Scope Z_scope.

Module RaftElection.

Section Election.
Context {Cmd : Type} `{Codec Cmd}.
Notation Raft := (Raft Cmd).
Notation Entry := (Entry Cmd).
Notation Cluster := (@Cluster Cmd).
Notation thread := (@thread Cmd).
Notation label := (@label Cmd).

(** Server [i] leads term [t]. *)
Definition leads (c : Cluster) (i : nat) (t : Z) : Prop :=
  exists rf, nodes c !! i = Some rf /\ state rf = Leader /\ currentTerm rf = t.

Definition term_of (c : Cluster) (i : nat) : Z := default 0 (currentTerm <$> nodes c !! i).

Definition timely (c : Cluster) (l : label) : bool :=
  match l with
  | LThread k _ =>
      match threads c !! k with
      | Some (TVote i ep j t0 VNew) => term_of c i =? t0
      | Some (TVote i ep j t0 (VReplied args reply)) =>
          negb (VoteGranted reply) ||
          ((term_of c i =? rva_Term args) && (rvr_Term reply =? rva_Term args))
      | _ => true
      end
  | LRun i _ =>
      match nodes c !! i, pcs c !! i with
      | Some rf, Some PVotes => bool_decide (state rf = Candidate \/ state rf = state (candidate_check rf))
      | _, _ => true
      end
  | _ => true
  end.

Definition small (c : Cluster) : bool := forallb (fun rf => currentTerm rf <? max_int) (nodes c).

(** A step of a timely execution *)
Definition tstep (c c' : Cluster) : Prop :=
  exists l, timely c l = true /\ step c l = Val c' /\ small c' = true.

(** Running labels one after the other while [ok] allows them *)
Fixpoint run_while (ok : Cluster -> label -> bool) (c : Cluster) (ls : list label) : option Cluster :=
  match ls with
  | [] => Some c
  | l :: ls' =>
      match step c l with
      | Val c' => if ok c l && small c' then run_while ok c' ls' else None
      | Err _ => None
      end
  end.

Lemma run_while_rtc ok ls c c' :
  run_while ok c ls = Some c' ->
  rtc (fun c c' => exists l, ok c l = true /\ step c l = Val c' /\ small c' = true) c c'.
Proof.
  revert c. induction ls as [|l ls IH]; intros c; simpl; [intros [= <-]; apply rtc_refl|].
  destruct (step c l) as [c1|e] eqn:Hs; [|done].
  destruct (ok c l) eqn:Ht, (small c1) eqn:Hm; simpl; try done. intros Hls.
  eapply rtc_l; [|by apply IH]. exists l. done.
Qed.

Lemma tsteps_rtc ls c c' : run_while timely c ls = Some c' -> rtc tstep c c'.
Proof. apply run_while_rtc. Qed.

Lemma small_terms c : small c = true <-> terms_small c.
Proof.
  unfold small, terms_small. rewrite forallb_forall, Forall_forall.
  by setoid_rewrite list_elem_of_In; setoid_rewrite Z.ltb_lt.
Qed.

Lemma run_while_reachable n ok ls c c' : reachable n c -> run_while ok c ls = Some c' -> reachable n c'.
Proof.
  intros Hr Hls%run_while_rtc. induction Hls as [c|c1 c2 c3 (l & _ & Hs & Hsm) _ IH]; [done|].
  apply IH. eapply reach_step; [done|done|by apply small_terms].
Qed.

(** ** The ledger of votes *)

(** The votes that were granted in the term they were asked in: who each server voted for in each term,
    and the log it had then *)
Notation ledger := (gmap (nat * Z) (Z * list Entry)).

Definition recorded (V : ledger) (i : nat) (rf : Raft) : Prop :=
  (forall v l, V !! (i, currentTerm rf) = Some (v, l) -> v = votedFor rf /\ v <> -1) /\
  forall t, currentTerm rf < t -> V !! (i, t) = None.

(** The ledger after server [i] has cast a vote and moved to [rf] *)
Definition record_vote (V : ledger) (i : nat) (rf : Raft) : ledger :=
  match V !! (i, currentTerm rf) with
  | Some _ => V
  | None => <[(i, currentTerm rf) := (votedFor rf, log rf)]> V
  end.

Lemma recorded_advance V i rf rf' : recorded V i rf -> advance rf rf' -> recorded V i rf'.
Proof.
  intros [Hc Hn] Ha. split.
  - intros v l Hv. destruct Ha as [Hlt|[Ht Hvf]]; [by rewrite Hn in Hv|].
    rewrite <- Ht in Hv. destruct (Hc v l Hv) as [-> ?]. split; [|done]. naive_solver.
  - intros t Ht. apply Hn. apply advance_term in Ha. lia.
Qed.

Lemma record_vote_grows V i rf : V ⊆ record_vote V i rf.
Proof.
  unfold record_vote. destruct (V !! _) eqn:E; [done|by apply insert_subseteq].
Qed.

Lemma record_vote_recorded V i rf :
  recorded V i rf -> votedFor rf <> -1 -> recorded (record_vote V i rf) i rf.
Proof.
  intros Hr Hv. unfold record_vote. destruct (V !! _) eqn:E; [done|]. destruct Hr as [_ Hn]. split.
  - intros v l. rewrite lookup_insert_eq. by intros [= <- <-].
  - intros t Ht. rewrite lookup_insert_ne by (intros [=]; lia). by apply Hn.
Qed.

Lemma record_vote_has V i rf :
  recorded V i rf -> exists l, record_vote V i rf !! (i, currentTerm rf) = Some (votedFor rf, l).
Proof.
  intros Hr. unfold record_vote. destruct (V !! _) as [[v l]|] eqn:E.
  - exists l. destruct (proj1 Hr v l E) as [-> _]. done.
  - exists (log rf). apply lookup_insert_eq.
Qed.

(** Votes are granted on a comparison of logs, but for the candidate's own. *)
Definition fresh_votes (V V' : ledger) (c' : Cluster) : Prop :=
  forall j u v l, V' !! (j, u) = Some (v, l) -> V !! (j, u) = None ->
  exists rf', nodes c' !! j = Some rf' /\ currentTerm rf' = u /\ log rf' = l /\
    (v = Z.of_nat j \/
     exists k i ep args reply, threads c' !! k = Some (TVote i ep j u (VReplied args reply)) /\
       v = Z.of_nat i /\ rva_Term args = u /\ vote_ok rf' args).

(** Server [i] moves to [rf'], and may have voted. *)
Record new_votes (V V' : ledger) (i : nat) (rf' : Raft) (c' : Cluster) : Prop := {
  nv_sub : V ⊆ V';
  nv_rec : recorded V' i rf';
  nv_other : forall j t, j <> i -> V' !! (j, t) = V !! (j, t);
  nv_fresh : fresh_votes V V' c' }.

Lemma no_new_votes V i rf rf' c' : recorded V i rf -> advance rf rf' -> new_votes V V i rf' c'.
Proof.
  intros Hr Ha. constructor; [done|by eapply recorded_advance|done|]. intros j u v l H1 H2. congruence.
Qed.

Lemma one_new_vote V i rf rf' c' :
  recorded V i rf -> advance rf rf' -> votedFor rf' <> -1 -> nodes c' !! i = Some rf' ->
  (votedFor rf' = Z.of_nat i \/
   exists k m ep args reply, threads c' !! k = Some (TVote m ep i (currentTerm rf') (VReplied args reply)) /\
     votedFor rf' = Z.of_nat m /\ rva_Term args = currentTerm rf' /\ vote_ok rf' args) ->
  new_votes V (record_vote V i rf') i rf' c'.
Proof.
  intros Hr Ha Hv Hi Hwhy. constructor.
  - apply record_vote_grows.
  - apply record_vote_recorded; [by eapply recorded_advance|done].
  - intros j t Hj. unfold record_vote. destruct (V !! _); [done|]. by rewrite lookup_insert_ne by congruence.
  - intros j u v l. unfold record_vote. destruct (V !! _) eqn:E; [congruence|].
    intros [[[= <- <-] [= <- <-]]|[_ ?]]%lookup_insert_Some Hnone; [|congruence]. by exists rf'; split_and!.
Qed.

(** ** The invariant *)

(** A goroutine of incarnation [ep] of server [i] has yet to use the vote of [j] in term [t]. *)
Definition pending (ts : list thread) (i ep j : nat) (t : Z) : Prop :=
  exists k st, ts !! k = Some (TVote i ep j t st).

(** [S] voted for server [i] in term [t]. *)
Definition voters (n : nat) (V : ledger) (i : nat) (t : Z) (S : gset nat) : Prop :=
  forall j, j ∈ S -> (j < n)%nat /\ exists l, V !! (j, t) = Some (Z.of_nat i, l).

(** The vote count of a candidate: the votes of [S], none of which is still to come. *)
Record tally (n : nat) (V : ledger) (ts : list thread) (i ep : nat) (rf : Raft) (S : gset nat) : Prop := {
  ta_voters : voters n V i (currentTerm rf) S;
  ta_count : min_int <= voteCount rf <= Z.of_nat (size S);
  ta_pending : forall j, pending ts i ep j (currentTerm rf) -> j ∉ S }.

Definition counting (n : nat) (V : ledger) (ts : list thread) (i ep : nat) (rf : Raft) : Prop :=
  state rf = Candidate -> exists S, tally n V ts i ep rf S.

(** In the loop of [startElection] at peer [j0], nobody from [j0] on has been asked. *)
Definition asking (n : nat) (V : ledger) (ts : list thread) (i ep : nat) (rf : Raft) (j0 : nat) : Prop :=
  state rf = Candidate -> exists S, tally n V ts i ep rf S /\
    (forall j, j ∈ S -> j = i \/ (j < j0)%nat) /\
    (forall j, pending ts i ep j (currentTerm rf) -> (j < j0)%nat).

Definition won (n : nat) (V : ledger) (i : nat) (rf : Raft) : Prop :=
  state rf = Leader -> exists S, voters n V i (currentTerm rf) S /\ Z.quot (Z.of_nat n) 2 < Z.of_nat (size S).

Definition run_ok (n : nat) (V : ledger) (ts : list thread) (i ep : nat) (rf : Raft) (p : pc) : Prop :=
  match p with
  | PFollower | PConvert => state rf = Follower
  | PElect _ => state rf <> Leader
  | PAsk _ j0 => state rf <> Leader /\ asking n V ts i ep rf j0
  | PCandidate | PVotes => state rf <> Leader /\ counting n V ts i ep rf
  | PTop | PStopped | PCommit => counting n V ts i ep rf /\ won n V i rf
  end.

Definition ballot_ok (V : ledger) (t : thread) : Prop :=
  match t with
  | TVote i _ _ t0 (VSent args) => rva_Term args = t0
  | TVote i _ j t0 (VReplied args reply) =>
      rva_Term args = t0 /\
      (VoteGranted reply = true -> rvr_Term reply = rva_Term args -> exists l, V !! (j, t0) = Some (Z.of_nat i, l))
  | _ => True
  end.

Definition asked_once (ts : list thread) : Prop :=
  forall k1 k2 i ep j t st1 st2,
    ts !! k1 = Some (TVote i ep j t st1) -> ts !! k2 = Some (TVote i ep j t st2) -> k1 = k2.

Record election_ok (n : nat) (V : ledger) (c : Cluster) : Prop := {
  eo_ok : cluster_ok n c;
  eo_small : terms_small c;
  eo_ledger : forall i rf, nodes c !! i = Some rf -> recorded V i rf;
  eo_run : forall i rf p ep, nodes c !! i = Some rf -> pcs c !! i = Some p -> epochs c !! i = Some ep ->
    run_ok n V (threads c) i ep rf p;
  eo_ballot : forall k t, threads c !! k = Some t -> ballot_ok V t;
  eo_once : asked_once (threads c) }.

(** ** Monotonicity *)

Lemma voters_mono n V V' i t S : V ⊆ V' -> voters n V i t S -> voters n V' i t S.
Proof.
  intros HV HS j Hj. destruct (HS j Hj) as (? & l & ?). split; [done|]. exists l. by eapply lookup_weaken.
Qed.

Lemma ballot_ok_mono V V' t : V ⊆ V' -> ballot_ok V t -> ballot_ok V' t.
Proof.
  intros HV. destruct t as [i ep j t0 [|args|args reply]| | | | |]; simpl; try done.
  intros [? Hg]. split; [done|]. intros Hgr Ht. destruct (Hg Hgr Ht) as [l ?]. exists l. by eapply lookup_weaken.
Qed.

Lemma tally_mono n V V' ts ts' i ep rf rf' S :
  V ⊆ V' -> (forall j t, pending ts' i ep j t -> pending ts i ep j t) ->
  currentTerm rf' = currentTerm rf -> voteCount rf' = voteCount rf ->
  tally n V ts i ep rf S -> tally n V' ts' i ep rf' S.
Proof.
  intros HV Hts Ht Hc []. constructor; rewrite ?Ht, ?Hc; [by eapply voters_mono|done|auto].
Qed.

(** Sections that are [passive] at their server, and do not ask for new votes, keep [run_ok]. *)
Lemma run_ok_mono n V V' ts ts' i ep rf rf' p :
  V ⊆ V' -> (forall j t, pending ts' i ep j t -> pending ts i ep j t) -> passive rf rf' ->
  run_ok n V ts i ep rf p -> run_ok n V' ts' i ep rf' p.
Proof.
  intros HV Hts [Ha Hcnt Hnew Hsame].
  destruct (decide (currentTerm rf' = currentTerm rf)) as [Ht|Hne].
  - assert (forall S, tally n V ts i ep rf S -> tally n V' ts' i ep rf' S) as Hta
      by (intros; by eapply tally_mono).
    assert (counting n V ts i ep rf -> counting n V' ts' i ep rf') as Hco.
    { intros Hco Hs. rewrite (Hsame (eq_sym Ht)) in Hs. destruct (Hco Hs) as [S HS]. exists S. auto. }
    assert (won n V i rf -> won n V' i rf') as Hwo.
    { intros Hwo Hs. rewrite (Hsame (eq_sym Ht)) in Hs. destruct (Hwo Hs) as (S & ? & ?).
      exists S. rewrite Ht. split; [by eapply voters_mono|done]. }
    assert (state rf' = state rf) as Hst by (by apply Hsame).
    destruct p; simpl; rewrite ?Hst; try tauto.
    intros [? Hask]. split; [done|]. intros Hs. rewrite Hst in Hs.
    destruct (Hask Hs) as (S & HS & Hlt & Hp). exists S. split_and!; [auto|done|].
    rewrite Ht. auto.
  - apply advance_term in Ha. assert (state rf' = Follower) as Hst by (apply Hnew; lia).
    destruct p; simpl; unfold counting, asking, won; rewrite ?Hst; done.
Qed.

Lemma pending_insert ts k i ep j t st st' i' ep' j' t' :
  ts !! k = Some (TVote i ep j t st) ->
  pending (<[k := TVote i ep j t st']> ts) i' ep' j' t' -> pending ts i' ep' j' t'.
Proof.
  intros Hk (k' & s & [(<- & [= -> -> -> -> ->] & _)|[_ Hk']]%list_lookup_insert_Some).
  - by exists k, st.
  - by exists k', s.
Qed.

(** A goroutine other than one of [startElection] asks for no votes. *)
Definition no_vote_thread (t : thread) : Prop := match t with TVote _ _ _ _ _ => False | _ => True end.

Lemma pending_other ts k t i ep j t' :
  no_vote_thread t -> pending (<[k := t]> ts) i ep j t' -> pending ts i ep j t'.
Proof.
  intros Ht (k' & s & [(<- & -> & _)|[_ Hk']]%list_lookup_insert_Some); [done|]. by exists k', s.
Qed.

Lemma pending_app ts ts2 i ep j t :
  Forall no_vote_thread ts2 -> pending (ts ++ ts2) i ep j t -> pending ts i ep j t.
Proof.
  intros Hts (k & s & [Hk|[_ Hk]]%lookup_app_Some); [by exists k, s|].
  by eapply Forall_lookup_1 in Hts; [|exact Hk].
Qed.

Lemma asked_once_insert ts k i ep j t st st' :
  ts !! k = Some (TVote i ep j t st) -> asked_once ts -> asked_once (<[k := TVote i ep j t st']> ts).
Proof.
  intros Hk Hts k1 k2 i' ep' j' t' s1 s2.
  intros [(<- & [= -> -> -> -> ->] & _)|[Hn1 H1]]%list_lookup_insert_Some
         [(<- & E2 & _)|[Hn2 H2]]%list_lookup_insert_Some; try done.
  - by eapply Hts.
  - injection E2 as -> -> -> -> ->. by eapply Hts.
  - by eapply Hts.
Qed.

Lemma asked_once_other ts k t : no_vote_thread t -> asked_once ts -> asked_once (<[k := t]> ts).
Proof.
  intros Ht Hts k1 k2 i ep j t' s1 s2.
  intros [(<- & -> & _)|[_ H1]]%list_lookup_insert_Some; [done|].
  intros [(<- & -> & _)|[_ H2]]%list_lookup_insert_Some; [done|]. by eapply Hts.
Qed.

Lemma asked_once_app ts ts2 : Forall no_vote_thread ts2 -> asked_once ts -> asked_once (ts ++ ts2).
Proof.
  intros Hf Hts k1 k2 i ep j t s1 s2.
  intros [H1|[_ H1]]%lookup_app_Some; [|by eapply Forall_lookup_1 in Hf; [|exact H1]].
  intros [H2|[_ H2]]%lookup_app_Some; [|by eapply Forall_lookup_1 in Hf; [|exact H2]]. by eapply Hts.
Qed.

(** Goroutines move on without asking for new votes. *)
Record quiet (V : ledger) (ts ts' : list thread) : Prop := {
  q_pending : forall i ep j t, pending ts' i ep j t -> pending ts i ep j t;
  q_once : asked_once ts -> asked_once ts';
  q_ballot : (forall k t, ts !! k = Some t -> ballot_ok V t) -> forall k t, ts' !! k = Some t -> ballot_ok V t }.

Lemma quiet_refl V ts : quiet V ts ts.
Proof. constructor; auto. Qed.

Lemma quiet_trans V ts1 ts2 ts3 : quiet V ts1 ts2 -> quiet V ts2 ts3 -> quiet V ts1 ts3.
Proof. intros [] []. constructor; eauto. Qed.

Lemma no_vote_ballot V t : no_vote_thread t -> ballot_ok V t.
Proof. by destruct t. Qed.

Lemma quiet_other V ts k t : no_vote_thread t -> quiet V ts (<[k := t]> ts).
Proof.
  intros Ht. constructor.
  - intros. by eapply pending_other.
  - by apply asked_once_other.
  - intros Hts k' t' [(<- & -> & _)|[_ Hk]]%list_lookup_insert_Some; [by apply no_vote_ballot|eauto].
Qed.

Lemma quiet_app V ts ts2 : Forall no_vote_thread ts2 -> quiet V ts (ts ++ ts2).
Proof.
  intros Hf. constructor.
  - intros. by eapply pending_app.
  - by apply asked_once_app.
  - intros Hts k t [Hk|[_ Hk]]%lookup_app_Some; [eauto|].
    eapply Forall_lookup_1 in Hf; [|exact Hk]. by apply no_vote_ballot.
Qed.

Lemma quiet_vote V ts k i ep j t st st' :
  ts !! k = Some (TVote i ep j t st) -> ballot_ok V (TVote i ep j t st') ->
  quiet V ts (<[k := TVote i ep j t st']> ts).
Proof.
  intros Hk Hb. constructor.
  - intros i' ep' j' t' Hp. by eapply pending_insert.
  - by eapply asked_once_insert.
  - intros Hts k' t' [(<- & <- & _)|[_ Hk']]%list_lookup_insert_Some; [done|eauto].
Qed.

Lemma quiet_spawn V c i ep spawn : quiet V (threads c) (threads (spawn_apply i ep spawn c)).
Proof. destruct spawn; simpl; [apply quiet_app; by apply Forall_singleton|apply quiet_refl]. Qed.

(** ** Steps of one server *)

Definition election_next (n : nat) (V : ledger) (c' : Cluster) : Prop :=
  exists V', V ⊆ V' /\ fresh_votes V V' c' /\ election_ok n V' c'.

(** Server [i] moves to [rf']; the others do not, and are asked for no new votes. *)
Lemma election_step n V V' c c' i rf rf' :
  election_ok n V c -> cluster_ok n c' -> terms_small c' ->
  nodes c !! i = Some rf -> nodes c' = <[i := rf']> (nodes c) -> new_votes V V' i rf' c' ->
  (forall j, j <> i -> pcs c' !! j = pcs c !! j /\ epochs c' !! j = epochs c !! j) ->
  (forall j ep m t, j <> i -> pending (threads c') j ep m t -> pending (threads c) j ep m t) ->
  asked_once (threads c') ->
  (forall k t, threads c' !! k = Some t -> ballot_ok V' t) ->
  (forall p ep, pcs c' !! i = Some p -> epochs c' !! i = Some ep -> run_ok n V' (threads c') i ep rf' p) ->
  election_next n V c'.
Proof.
  intros [Hok Hsm Hled Hrun Hbal Honce] Hok' Hsm' Hi Hns [HV Hrec Hoth Hfr] Hother Hpend Honce' Hbal' Hme.
  exists V'. split_and!; [done|done|]. constructor; try done; rewrite Hns.
  - intros j r [(<- & -> & _)|[Hne Hj]]%list_lookup_insert_Some; [done|].
    destruct (Hled _ _ Hj) as [Hc Hn]. split; [intros v l; rewrite Hoth by done; apply Hc|].
    intros t Ht. rewrite Hoth by done. by apply Hn.
  - intros j r p ep [(<- & -> & _)|[Hne Hj]]%list_lookup_insert_Some Hp He; [by apply Hme|].
    destruct (Hother j) as [E1 E2]; [done|]. rewrite E1 in Hp. rewrite E2 in He.
    eapply (run_ok_mono n V); [done| |by apply passive_same|by apply Hrun].
    intros m t. apply Hpend. congruence.
Qed.

(** A passive section of server [i], whose loop stays where it is *)
Lemma passive_vote_step n V V' c c' i rf rf' :
  election_ok n V c -> cluster_ok n c' -> terms_small c' ->
  nodes c !! i = Some rf -> passive rf rf' -> nodes c' = <[i := rf']> (nodes c) -> new_votes V V' i rf' c' ->
  pcs c' = pcs c -> epochs c' = epochs c ->
  quiet V' (threads c) (threads c') -> election_next n V c'.
Proof.
  intros He Hok' Hsm' Hi Hp Hns Hnv Hpcs Heps [Hpend Honce Hbal]. pose proof (nv_sub _ _ _ _ _ Hnv) as HV.
  eapply (election_step n V V' c c' i rf rf'); try done.
  - intros. by rewrite Hpcs, Heps.
  - auto.
  - apply Honce, He.
  - apply Hbal. intros k t Hk. eapply ballot_ok_mono; [done|by eapply eo_ballot].
  - rewrite Hpcs, Heps. intros p ep Hpp Hep. eapply run_ok_mono; [done| |done|by eapply eo_run]. auto.
Qed.

Lemma passive_step n V c c' i rf rf' :
  election_ok n V c -> cluster_ok n c' -> terms_small c' ->
  nodes c !! i = Some rf -> passive rf rf' -> nodes c' = <[i := rf']> (nodes c) ->
  pcs c' = pcs c -> epochs c' = epochs c ->
  quiet V (threads c) (threads c') -> election_next n V c'.
Proof.
  intros He Hok' Hsm' Hi Hp Hns. intros. eapply (passive_vote_step n V V c c' i rf rf'); try done.
  eapply no_new_votes; [by apply (eo_ledger _ _ _ He)|apply Hp].
Qed.

(** A section that reads server [i] and moves goroutines on *)
Lemma silent_step n V c c' :
  election_ok n V c -> cluster_ok n c' -> nodes c' = nodes c -> pcs c' = pcs c -> epochs c' = epochs c ->
  quiet V (threads c) (threads c') -> election_next n V c'.
Proof.
  intros He Hok' Hns Hpcs Heps [Hpend Honce Hbal]. exists V. split_and!; [done|by intros ? ? ? ? -> |].
  destruct He as [Hok Hsm Hled Hrun Hbal0 Honce0].
  constructor; rewrite ?Hns, ?Hpcs, ?Heps; eauto.
  - unfold terms_small. by rewrite Hns.
  - intros i rf p ep Hi Hp Hep. eapply run_ok_mono; [done| |by apply passive_same|by apply Hrun]. auto.
Qed.

(** The loop of server [i] goes to [p'], the server to [rf']. *)
Lemma loop_vote_step n V V' c c' i rf rf' p' :
  election_ok n V c -> cluster_ok n c' -> terms_small c' ->
  nodes c !! i = Some rf -> nodes c' = <[i := rf']> (nodes c) -> new_votes V V' i rf' c' ->
  pcs c' = <[i := p']> (pcs c) -> epochs c' = epochs c ->
  quiet V (threads c) (threads c') ->
  (forall ep, epochs c !! i = Some ep -> run_ok n V' (threads c') i ep rf' p') ->
  election_next n V c'.
Proof.
  intros He Hok' Hsm' Hi Hns Hnv Hpcs Heps [Hpend Honce Hbal] Hrun. pose proof (nv_sub _ _ _ _ _ Hnv) as HV.
  eapply (election_step n V V' c c' i rf rf'); try done.
  - intros j Hj. rewrite Hpcs, Heps. by rewrite list_lookup_insert_ne by done.
  - auto.
  - apply Honce, He.
  - intros k t Hk. eapply ballot_ok_mono; [done|]. eapply Hbal; [apply He|done].
  - rewrite Hpcs, Heps. intros p ep [(_ & -> & _)|[? _]]%list_lookup_insert_Some Hep; [|done]. by apply Hrun.
Qed.

Lemma loop_step n V c c' i rf rf' p' :
  election_ok n V c -> cluster_ok n c' -> terms_small c' ->
  nodes c !! i = Some rf -> advance rf rf' -> nodes c' = <[i := rf']> (nodes c) ->
  pcs c' = <[i := p']> (pcs c) -> epochs c' = epochs c ->
  quiet V (threads c) (threads c') ->
  (forall ep, epochs c !! i = Some ep -> run_ok n V (threads c') i ep rf' p') ->
  election_next n V c'.
Proof.
  intros He Hok' Hsm' Hi Ha. intros. eapply (loop_vote_step n V V c c' i rf rf'); try done.
  eapply no_new_votes; [by apply (eo_ledger _ _ _ He)|done].
Qed.

(** The loop moves on, the server does not. *)
Lemma goto_step n V c i rf p' ts :
  election_ok n V c -> cluster_ok n (set_pc i p' (add_threads ts c)) ->
  nodes c !! i = Some rf -> Forall no_vote_thread ts ->
  (forall ep, epochs c !! i = Some ep -> run_ok n V (threads c) i ep rf p') ->
  election_next n V (set_pc i p' (add_threads ts c)).
Proof.
  intros He Hok' Hi Hts Hrun.
  eapply (loop_step n V c _ i rf rf p'); try done; [apply He|..].
  - simpl. by rewrite list_insert_id.
  - by apply quiet_app.
  - intros ep Hep. eapply run_ok_mono; [done| |by apply passive_same|by apply Hrun].
    intros j t. simpl. by apply pending_app.
Qed.

Lemma add_no_threads (c : Cluster) : add_threads [] c = c.
Proof. destruct c as [ns ps es ts ap]. unfold add_threads. simpl. by rewrite app_nil_r. Qed.

Lemma election_same n V c : election_ok n V c -> election_next n V c.
Proof. intros He. exists V. split_and!; [done|by intros ? ? ? ? -> |done]. Qed.

(** The first section of [startElection]: a new term, and a vote for itself *)
Lemma begin_election_tally n V c i rf ep now cand :
  election_ok n V c -> nodes c !! i = Some rf -> state rf <> Leader ->
  run_ok n (record_vote V i (begin_election rf now)) (threads c) i ep (begin_election rf now) (PAsk cand 0).
Proof.
  intros He Hi Hst. pose proof (co_node _ _ (eo_ok _ _ _ He) _ _ Hi) as Hn.
  assert (currentTerm rf < max_int) as Hm by (by eapply Forall_lookup_1 in Hi; [|apply He]).
  destruct (begin_election_ok _ _ _ now Hn Hm) as (Hn' & Ha & Ht).
  split; [done|]. intros _.
  assert (forall j, ~ pending (threads c) i ep j (currentTerm (begin_election rf now))) as Hnp.
  { intros j (k & st & Hk). destruct (co_thread _ _ (eo_ok _ _ _ He) _ _ Hk) as ((r & Hr & Hle) & _).
    rewrite Hi in Hr. injection Hr as <-. lia. }
  exists {[ i ]}. split_and!.
  - constructor.
    + intros j ->%elem_of_singleton. split; [by apply (no_lt _ _ _ Hn)|].
      rewrite <- (no_me _ _ _ Hn). apply (record_vote_has V i (begin_election rf now)).
      eapply recorded_advance; [by apply (eo_ledger _ _ _ He)|done].
    + rewrite size_singleton. simpl. unfold min_int. lia.
    + intros j Hj. by apply Hnp in Hj.
  - intros j ->%elem_of_singleton. by left.
  - intros j Hj. by apply Hnp in Hj.
Qed.

(** One more peer is asked. *)
Lemma ask_step n V c i rf ep cand j :
  election_ok n V c -> cluster_ok n (set_pc i (PAsk cand (S j)) (add_threads [TVote i ep j (currentTerm rf) VNew] c)) ->
  nodes c !! i = Some rf -> pcs c !! i = Some (PAsk cand j) -> epochs c !! i = Some ep ->
  j <> i -> state rf = Candidate ->
  election_next n V (set_pc i (PAsk cand (S j)) (add_threads [TVote i ep j (currentTerm rf) VNew] c)).
Proof.
  intros He Hok' Hi Hp Hep Hji Hst.
  destruct (eo_run _ _ _ He _ _ _ _ Hi Hp Hep) as [_ Hask].
  destruct (Hask Hst) as (S & HS & HSj & Hpend).
  assert (forall i' ep' j' t, pending (threads c ++ [TVote i ep j (currentTerm rf) VNew]) i' ep' j' t ->
            pending (threads c) i' ep' j' t \/ (i' = i /\ j' = j)) as Hnew.
  { intros i' ep' j' t (k & st & [Hk|[_ Hk]]%lookup_app_Some); [left; by exists k, st|].
    apply list_lookup_singleton_Some in Hk as [_ [= <- _ <- _ _]]. by right. }
  eapply (election_step n V V c _ i rf rf); try done;
    [apply He|by simpl; rewrite list_insert_id|eapply no_new_votes; [by apply (eo_ledger _ _ _ He)|done]|..].
  - intros m Hm. simpl. by rewrite list_lookup_insert_ne.
  - intros m ep' j' t Hm. simpl. intros [?|[? _]]%Hnew; done.
  - simpl. intros k1 k2 i' ep' j' t s1 s2.
    intros [H1|[Hl1 H1]]%lookup_app_Some [H2|[Hl2 H2]]%lookup_app_Some;
      try (apply list_lookup_singleton_Some in H1 as [E1 [= <- <- <- <- <-]]);
      try (apply list_lookup_singleton_Some in H2 as [E2 Ht2]; try (injection Ht2 as <- <- <- <- <-)).
    + by eapply (eo_once _ _ _ He).
    + exfalso. specialize (Hpend j ltac:(by exists k1, s1)). lia.
    + exfalso. specialize (Hpend j ltac:(by exists k2, s2)). lia.
    + lia.
  - intros k t [Hk|[_ Hk]]%lookup_app_Some.
    + by eapply (eo_ballot _ _ _ He).
    + by apply list_lookup_singleton_Some in Hk as [_ <-].
  - simpl. intros p ep' [(_ & <- & _)|[? _]]%list_lookup_insert_Some Hep'; [|done].
    rewrite Hep in Hep'. injection Hep' as <-. split; [congruence|]. intros _. exists S. split_and!.
    + destruct HS as [Hv Hc Hpd]. constructor; [done|done|].
      intros m [Hm|[_ ->]]%Hnew; [by apply Hpd|]. intros Hin. destruct (HSj _ Hin); [done|lia].
    + intros m Hm. destruct (HSj m Hm); [by left|right; lia].
    + intros m [Hm%Hpend|[_ ->]]%Hnew; lia.
Qed.

Lemma candidate_wins n V c i rf ep :
  election_ok n V c -> nodes c !! i = Some rf -> pcs c !! i = Some PVotes -> epochs c !! i = Some ep ->
  (state rf = Candidate \/ state rf = state (candidate_check rf)) ->
  run_ok n V (threads c) i ep (candidate_check rf) PTop.
Proof.
  intros He Hi Hp Hep Htimely. destruct (eo_run _ _ _ He _ _ _ _ Hi Hp Hep) as [Hnl Hcount].
  pose proof (co_node _ _ (eo_ok _ _ _ He) _ _ Hi) as Hn.
  unfold candidate_check in *. rewrite (no_npeers _ _ _ Hn) in *.
  destruct (Z.ltb_spec (Z.quot (Z.of_nat n) 2) (voteCount rf)) as [Hlt|Hge].
  - split; [done|]. intros _. destruct Htimely as [Hc|Hl]; [|simpl in Hl; congruence].
    destruct (Hcount Hc) as (S & [Hv Hcnt _]). exists S. split; [done|lia].
  - split; [done|]. intros Hl. done.
Qed.

(** The loop over the peers goes on with peer [j]. *)
Lemma asking_election n V c i rf ep cand j now c' :
  election_ok n V c -> nodes c !! i = Some rf -> pcs c !! i = Some (PAsk cand j) -> epochs c !! i = Some ep ->
  cluster_ok n c' -> terms_small c' ->
  (forall q, c' = set_pc i q c -> run_ok n V (threads c) i ep rf q -> election_next n V c') ->
  run_step c i rf (PAsk cand j) ep now = Val c' -> election_next n V c'.
Proof.
  intros He Hi Hp Hep Hok' Hsm Hgoto Hstep.
  destruct (eo_run _ _ _ He _ _ _ _ Hi Hp Hep) as [Hnl Hask]. unfold run_step in Hstep.
  -   assert (counting n V (threads c) i ep rf) as Hco.
  { intros Hs. destruct (Hask Hs) as (S & HS & _). by exists S. }
  assert (run_ok n V (threads c) i ep rf (if cand then PVotes else PTop)) as Hback.
  { destruct cand; [done|]. split; [done|]. intros Hs. done. }
  destruct (npeers rf <=? j)%nat; [injection Hstep as <-; by eapply Hgoto|].
  case_bool_decide as Hji.
  { injection Hstep as <-. eapply Hgoto; [done|]. split; [done|]. intros Hs.
    destruct (Hask Hs) as (S & HS & HSj & Hpd). exists S. split_and!; [done| |].
    - intros m Hm'. destruct (HSj m Hm'); [by left|right; lia].
    - intros m Hm'%Hpd. lia. }
  case_bool_decide as Hst; simpl in Hstep; injection Hstep as <-; [|by eapply Hgoto].
  by apply ask_step.
Qed.

Lemma run_election n V c i rf p ep now c' :
  election_ok n V c -> nodes c !! i = Some rf -> pcs c !! i = Some p -> epochs c !! i = Some ep ->
  timely c (LRun i now) = true -> terms_small c' ->
  run_step c i rf p ep now = Val c' -> election_next n V c'.
Proof.
  intros He Hi Hp Hep Htl Hsm Hstep.
  pose proof (co_node _ _ (eo_ok _ _ _ He) _ _ Hi) as Hn.
  pose proof (eo_run _ _ _ He _ _ _ _ Hi Hp Hep) as Hrun.
  assert (currentTerm rf < max_int) as Hm by (by eapply Forall_lookup_1 in Hi; [|apply He]).
  pose proof (os_ok _ _ _ (run_step_ok _ _ _ _ _ _ _ _ (eo_ok _ _ _ He) Hi Hp Hm Hstep)) as Hok'.
  assert (forall q, c' = set_pc i q c -> run_ok n V (threads c) i ep rf q -> election_next n V c') as Hgoto.
  { intros q -> Hq. rewrite <- (add_no_threads c) in Hok' |- *. apply (goto_step n V c i rf q []); try done.
    intros ep'. rewrite Hep. by intros [= <-]. }
  pose proof (election_same n V c He) as Hsame. simpl in Htl. rewrite Hi, Hp in Htl.
  destruct p as [| | | | | |cand|cand j|]; unfold run_step in Hstep.
  - destruct (killed rf); [injection Hstep as <-; by apply (Hgoto PStopped)|]. destruct Hrun as [Hco Hwo].
    destruct (state rf) eqn:Hs; injection Hstep as <-.
    + apply (Hgoto PFollower); [done|]. simpl. congruence.
    + apply (Hgoto PCandidate); [done|]. split; [congruence|done].
    + eapply goto_step; [done|done|done| |intros ep'; rewrite Hep; by intros [= <-]].
      apply Forall_fmap, Forall_forall. done.
  - injection Hstep as <-. apply Hsame.
  - apply bind_val in Hstep as ([rf' spawn] & Hac & [= <-]).
    destruct (advance_commit_val _ _ _ _ _ Hn Hac) as (_ & Hpas & _).
    eapply (loop_step n V c _ i rf rf' PTop); try done; [apply Hpas|by destruct spawn..| |].
    { exact (quiet_spawn V (set_pc i PTop (set_node i rf' c)) i ep spawn). }
    intros ep' Hep'. rewrite Hep in Hep'. injection Hep' as <-.
    eapply (run_ok_mono n V _ (threads c) _ i ep rf rf' PTop); [done| |done|done].
    apply (q_pending _ _ _ (quiet_spawn V (set_pc i PTop (set_node i rf' c)) i ep spawn)).
  - destruct (isElectionTimeout rf now); injection Hstep as <-.
    + by apply (Hgoto PConvert).
    + apply (Hgoto PTop); [done|]. simpl in Hrun. split; intros Hs; congruence.
  - injection Hstep as <-. eapply (loop_step n V c _ i rf (convertTo Candidate rf)); try done; right; auto.
  - destruct Hrun as [Hnl Hco].
    destruct (isElectionTimeout rf now); injection Hstep as <-; [by apply (Hgoto (PElect true))|by apply (Hgoto PVotes)].
  - injection Hstep as <-. destruct (begin_election_ok _ _ _ now Hn Hm) as (_ & Ha & _).
    eapply (loop_vote_step n V (record_vote V i (begin_election rf now)) c _ i rf (begin_election rf now)); try done.
    { eapply one_new_vote; [by apply (eo_ledger _ _ _ He)|done| | |left; apply Hn]; simpl.
      - rewrite (no_me _ _ _ Hn). lia.
      - apply list_lookup_insert_eq. by eapply lookup_lt_Some. }
    intros ep' _. exact (begin_election_tally n V c i rf ep' now cand He Hi Hrun).
  - by apply (asking_election n V c i rf ep cand j now).
  - injection Hstep as <-. destruct (candidate_check_ok _ _ _ Hn) as (_ & Ha & _).
    eapply (loop_step n V c _ i rf (candidate_check rf)); try done.
    intros ep' Hep'. apply bool_decide_eq_true in Htl. rewrite Hep in Hep'. injection Hep' as <-.
    exact (candidate_wins n V c i rf ep He Hi Hp Hep Htl).
Qed.

(** A vote of the current term is counted once. *)
Lemma count_vote n V c k i ep j rf args reply :
  election_ok n V c -> threads c !! k = Some (TVote i ep j (currentTerm rf) (VReplied args reply)) ->
  nodes c !! i = Some rf -> epochs c !! i = Some ep ->
  VoteGranted reply = true -> rva_Term args = currentTerm rf -> rvr_Term reply = rva_Term args ->
  cluster_ok n (set_thread k TDone (set_node i (set_voteCount (wrap64 (voteCount rf + 1)) rf) c)) ->
  terms_small (set_thread k TDone (set_node i (set_voteCount (wrap64 (voteCount rf + 1)) rf) c)) ->
  election_next n V (set_thread k TDone (set_node i (set_voteCount (wrap64 (voteCount rf + 1)) rf) c)).
Proof.
  intros He Hk Hi Hep Hg Hat Hrt Hok' Hsm'. set (rf' := set_voteCount (wrap64 (voteCount rf + 1)) rf).
  destruct (eo_ballot _ _ _ He _ _ Hk) as [_ Hvote]. specialize (Hvote Hg Hrt).
  destruct (co_thread _ _ (eo_ok _ _ _ He) _ _ Hk) as (_ & Hjn & Hji & _).
  assert (forall m t, pending (<[k := TDone]> (threads c)) i ep m t -> pending (threads c) i ep m t) as Hold
    by (intros m t; by apply (pending_other _ k TDone)).
  assert (~ pending (<[k := TDone]> (threads c)) i ep j (currentTerm rf)) as Hgone.
  { intros (k' & st & [(_ & [=] & _)|[Hne Hk']]%list_lookup_insert_Some).
    apply Hne. exact (eo_once _ _ _ He _ _ _ _ _ _ _ _ Hk Hk'). }
  assert (pending (threads c) i ep j (currentTerm rf)) as Hpj by (by exists k, (VReplied args reply)).
  eapply (election_step n V V c _ i rf rf'); try done;
    [eapply no_new_votes; [by apply (eo_ledger _ _ _ He)|right; auto]|..].
  - intros m ep' m' t Hm. by apply (pending_other _ k TDone).
  - by apply asked_once_other, He.
  - intros k' t' [(<- & <- & _)|[_ Hk']]%list_lookup_insert_Some; [done|].
    by eapply (eo_ballot _ _ _ He).
  - intros p ep' Hp Hep'. simpl in Hp, Hep'. rewrite Hep in Hep'. injection Hep' as <-.
    pose proof (eo_run _ _ _ He _ _ _ _ Hi Hp Hep) as Hrun.
    assert (forall S, tally n V (threads c) i ep rf S ->
              tally n V (<[k := TDone]> (threads c)) i ep rf' ({[ j ]} ∪ S)) as Htally.
    { intros S [Hv Hc Hpd]. constructor; simpl.
      - intros m [->%elem_of_singleton|Hm]%elem_of_union; [done|by apply Hv].
      - rewrite size_union, size_singleton by (apply disjoint_singleton_l; by apply Hpd).
        pose proof (wrap64_range (voteCount rf + 1)). pose proof (wrap64_le (voteCount rf + 1) ltac:(lia)). lia.
      - intros m Hm. apply not_elem_of_union. split; [|by apply Hpd, Hold].
        intros ->%elem_of_singleton. done. }
    assert (counting n V (threads c) i ep rf -> counting n V (<[k := TDone]> (threads c)) i ep rf')
      as Hco by (intros Hc Hs; destruct (Hc Hs) as [S HS]; eauto).
    destruct p as [| | | | | |cand|cand j0|]; simpl in *; try done; try tauto.
    destruct Hrun as [? Hask]. split; [done|]. intros Hs. destruct (Hask Hs) as (S & HS & HSj & Hpd).
    exists ({[ j ]} ∪ S). split_and!; [auto| |].
    + intros m [->%elem_of_singleton|Hm]%elem_of_union; [right; by apply Hpd|by apply HSj].
    + intros m Hm. by apply Hpd, Hold.
Qed.

Lemma vote_election n V c k i ep j t0 st now c' :
  election_ok n V c -> threads c !! k = Some (TVote i ep j t0 st) ->
  timely c (LThread k now) = true -> terms_small c' ->
  thread_step c k (TVote i ep j t0 st) now = Val c' -> election_next n V c'.
Proof.
  intros He Hk Htl Hsm' Hstep. pose proof (co_thread _ _ (eo_ok _ _ _ He) _ _ Hk) as Hth.
  pose proof (os_ok _ _ _ (vote_thread_ok _ _ _ _ _ _ _ _ _ _ (eo_ok _ _ _ He) Hth Hstep)) as Hok'.
  destruct Hth as ((rfi & Hi & Ht0) & Hj & Hji & Hst).
  pose proof (co_node _ _ (eo_ok _ _ _ He) _ _ Hi) as Hn.
  pose proof (eo_ballot _ _ _ He _ _ Hk) as Hbal.
  assert (c' = c -> election_next n V c') as Hsame by (intros ->; by apply election_same).
  simpl in Htl. rewrite Hk in Htl. unfold thread_step in Hstep. rewrite Hi in Hstep.
  destruct st as [|args|args reply]; simpl in Hst, Hbal.
  - destruct (alive c i ep); [|injection Hstep as <-; auto].
    destruct (vote_args_total _ _ _ Hn) as (args & Hva & _ & Hat & _). rewrite Hva in Hstep.
    injection Hstep as <-. eapply silent_step; try done. eapply quiet_vote; [done|]. simpl.
    apply Z.eqb_eq in Htl. unfold term_of in Htl. rewrite Hi in Htl. simpl in Htl. lia.
  - destruct (nodes c !! j) as [rfj|] eqn:Hrj; [|injection Hstep as <-; auto].
    pose proof (co_node _ _ (eo_ok _ _ _ He) _ _ Hrj) as Hnj.
    destruct (RequestVote_spec _ _ _ args now Hnj (proj1 Hst))
      as (rf' & reply & Hrv & _ & Hpas & Htm & Hrt & Hlog & Hgr & Hvf).
    rewrite Hrv in Hstep. injection Hstep as <-.
    destruct (decide (VoteGranted reply = true /\ rvr_Term reply = rva_Term args)) as [[Hg Heq]|Hno].
    + rewrite Hg in Hvf. assert (currentTerm rf' = t0) as Ht by congruence.
      eapply (passive_vote_step n V (record_vote V j rf') c _ j rfj rf'); try done.
      * eapply one_new_vote; [by apply (eo_ledger _ _ _ He)|apply Hpas| | |right]; simpl.
        -- rewrite Hvf, (proj2 Hst). lia.
        -- apply list_lookup_insert_eq. by eapply lookup_lt_Some.
        -- exists k, i, ep, args, reply. rewrite Ht. split_and!; [|by rewrite Hvf, (proj2 Hst)|done|].
           ++ apply list_lookup_insert_eq. by eapply lookup_lt_Some.
           ++ unfold vote_ok. rewrite Hlog. by apply Hgr.
      * eapply quiet_vote; [done|]. simpl. split; [done|]. intros _ _. rewrite <- Ht.
        rewrite <- (proj2 Hst), <- Hvf. apply record_vote_has.
        eapply recorded_advance; [by apply (eo_ledger _ _ _ He)|apply Hpas].
    + eapply (passive_step n V c _ j rfj rf'); try done. eapply quiet_vote; [done|]. simpl. split; [done|].
      intros. by destruct Hno.
  - destruct (alive c i ep) eqn:Hal; [|injection Hstep as <-; auto]. injection Hstep as <-.
    apply bool_decide_eq_true in Hal. unfold term_of in Htl. rewrite Hi in Htl. simpl in Htl.
    unfold vote_reply in *. destruct (VoteGranted reply) eqn:Hg; simpl in Htl.
    + apply andb_true_iff in Htl as [E1%Z.eqb_eq E2%Z.eqb_eq]. destruct Hbal as [E3 _].
      assert (t0 = currentTerm rfi) as -> by congruence. by eapply count_vote.
    + destruct (Z.ltb_spec (currentTerm rfi) (rvr_Term reply)).
      * eapply (passive_step n V c _ i rfi); try done; [by apply passive_newer|by apply quiet_other].
      * eapply (passive_step n V c _ i rfi rfi); try done; [by apply passive_same|by apply quiet_other].
Qed.

Lemma thread_election n V c k t now c' :
  election_ok n V c -> threads c !! k = Some t -> timely c (LThread k now) = true -> terms_small c' ->
  thread_step c k t now = Val c' -> election_next n V c'.
Proof.
  intros He Hk Htl Hsm' Hstep. pose proof (co_thread _ _ (eo_ok _ _ _ He) _ _ Hk) as Hth.
  pose proof (os_ok _ _ _ (thread_step_ok _ _ _ _ _ _ (eo_ok _ _ _ He) Hk Hstep)) as Hok'.
  assert (c' = c -> election_next n V c') as Hsame by (intros ->; by apply election_same).
  assert (forall i rf, nodes c !! i = Some rf -> node_ok n i rf) as Hnode by apply He.
  destruct t as [i ep j t0 st|i ep j st|i ep term command|i ep es|i ep index es|];
    [by eapply vote_election|..]; unfold thread_step in Hstep.
  - destruct Hth as (_ & _ & _ & Hst). destruct st as [|args|args reply]; simpl in Hst.
    + destruct (nodes c !! i) as [rf|] eqn:Hi; [|injection Hstep as <-; auto].
      destruct (alive c i ep); [|injection Hstep as <-; auto].
      apply bind_val in Hstep as ([args|] & _ & [= <-]); eapply silent_step; try done; by apply quiet_other.
    + destruct (nodes c !! j) as [rf|] eqn:Hj; [|injection Hstep as <-; auto].
      destruct (epochs c !! j) as [epj|] eqn:Hej; [|injection Hstep as <-; auto].
      apply bind_val in Hstep as ([[rf' reply] spawn] & Hae & [= <-]).
      destruct (AppendEntries_val _ _ _ _ _ _ _ _ (Hnode _ _ Hj) Hst Hae) as (_ & Hpas & _).
      eapply (passive_step n V c _ j rf rf'); try done; [by destruct spawn..|].
      eapply quiet_trans; [|apply quiet_spawn]. by apply quiet_other.
    + destruct (nodes c !! i) as [rf|] eqn:Hi; [|injection Hstep as <-; auto].
      destruct (alive c i ep); [|injection Hstep as <-; auto].
      apply bind_val in Hstep as (rf' & Hhr & [= <-]).
      destruct (heartbeat_reply_val _ _ _ _ _ _ _ (Hnode _ _ Hi) Hhr) as (_ & Hpas & _).
      eapply (passive_step n V c _ i rf rf'); try done; by apply quiet_other.
  - destruct Hth as (rf & Hi & Htm). rewrite Hi in Hstep.
    destruct (alive c i ep); [|injection Hstep as <-; auto].
    apply bind_val in Hstep as ([rf' index] & Hs & [= <-]).
    destruct (Start_append_val _ _ _ _ _ _ _ (Hnode _ _ Hi) Htm Hs) as (_ & Hpas & _).
    eapply (passive_step n V c _ i rf rf'); try done; by apply quiet_other.
  - destruct (alive c i ep); [|injection Hstep as <-; auto].
    destruct es as [|e es]; injection Hstep as <-; eapply silent_step; try done; by apply quiet_other.
  - destruct (nodes c !! i) as [rf|] eqn:Hi; [|injection Hstep as <-; auto].
    destruct (alive c i ep); [|injection Hstep as <-; auto]. injection Hstep as <-.
    destruct (apply_ack_ok _ _ _ index (Hnode _ _ Hi)) as (_ & Hpas).
    eapply (passive_step n V c _ i rf); try done; by apply quiet_other.
  - injection Hstep as <-. auto.
Qed.

Lemma step_election `{!CodecLaws} n V c l c' :
  election_ok n V c -> timely c l = true -> terms_small c' -> step c l = Val c' -> election_next n V c'.
Proof.
  intros He Htl Hsm' Hstep.
  pose proof (os_ok _ _ _ (step_ok _ _ _ _ (eo_ok _ _ _ He) (eo_small _ _ _ He) Hstep)) as Hok'.
  assert (c' = c -> election_next n V c') as Hsame by (intros ->; by apply election_same).
  destruct l as [i now|k now|i command|i|i now rnd]; simpl in Hstep.
  - destruct (nodes c !! i) as [rf|] eqn:Hi; [|injection Hstep as <-; auto].
    destruct (pcs c !! i) as [p|] eqn:Hp; [|injection Hstep as <-; auto].
    destruct (epochs c !! i) as [ep|] eqn:Hep; [|injection Hstep as <-; auto].
    by eapply run_election.
  - destruct (threads c !! k) as [t|] eqn:Hk; [|injection Hstep as <-; auto]. by eapply thread_election.
  - destruct (nodes c !! i) as [rf|] eqn:Hi; [|injection Hstep as <-; auto].
    destruct (epochs c !! i) as [ep|] eqn:Hep; [|injection Hstep as <-; auto].
    destruct (bool_decide (state rf = Leader)); injection Hstep as <-; [|auto].
    eapply silent_step; try done. apply quiet_app. by apply Forall_singleton.
  - destruct (nodes c !! i) as [rf|] eqn:Hi; injection Hstep as <-; [|auto].
    eapply (passive_step n V c _ i rf); try done; by apply passive_same.
  - destruct (nodes c !! i) as [rf|] eqn:Hi; [|injection Hstep as <-; auto].
    apply bind_val in Hstep as (rf' & Hmk & [= <-]).
    destruct (Make_saved n i rf now rnd (co_node _ _ (eo_ok _ _ _ He) _ _ Hi))
      as (r & Hr & _ & _ & Ht & Hv & Hst & _).
    rewrite Hmk in Hr. injection Hr as <-.
    assert (advance rf rf') as Ha by (right; auto).
    eapply (election_step n V V c _ i rf rf'); try done; simpl;
      [by eapply no_new_votes; [apply (eo_ledger _ _ _ He)|]|..].
    + intros j Hj. by rewrite list_lookup_insert_ne, list_lookup_alter_ne by done.
    + apply He.
    + apply He.
    + intros p ep [(_ & <- & _)|[? _]]%list_lookup_insert_Some _; [|done].
      split; intros Hs; congruence.
Qed.

Lemma init_election n now rnd c : init_cluster n now rnd = Val c -> election_ok n ∅ c.
Proof.
  intros Hc. destruct (init_ok _ _ _ _ Hc) as [Hok Hsm].
  apply init_nodes in Hc as (Hlen & Hn & Hp & He & Ht & Ha).
  constructor; try done; rewrite ?Ht; try done.
  intros i rf p ep Hi. rewrite Hp. intros [-> _]%lookup_replicate _.
  destruct (Hn i rf Hi) as (_ & _ & _ & _ & Hs). split; intros E; congruence.
Qed.

Lemma tsteps_election `{!CodecLaws} n V c c' :
  rtc tstep c c' -> election_ok n V c -> exists V', V ⊆ V' /\ election_ok n V' c'.
Proof.
  intros Hr. revert V. induction Hr as [c|c1 c2 c3 (l & Htl & Hst & Hsm) _ IH]; intros V He; [by exists V|].
  apply small_terms in Hsm. destruct (step_election _ _ _ _ _ He Htl Hsm Hst) as (V2 & HV2 & _ & He2).
  destruct (IH V2 He2) as (V3 & HV3 & He3). exists V3. split; [by etransitivity|done].
Qed.

Lemma leader_majority n V c i t :
  election_ok n V c -> leads c i t -> exists S, voters n V i t S /\ Z.quot (Z.of_nat n) 2 < Z.of_nat (size S).
Proof.
  intros He (rf & Hi & Hs & <-). pose proof (eo_ok _ _ _ He) as Hok.
  pose proof (lookup_lt_Some _ _ _ Hi) as Hlt. rewrite (co_nodes _ _ Hok) in Hlt.
  destruct (lookup_lt_is_Some_2 (pcs c) i) as [p Hp]; [by rewrite (co_pcs _ _ Hok)|].
  destruct (lookup_lt_is_Some_2 (epochs c) i) as [ep Hep]; [by rewrite (co_epochs _ _ Hok)|].
  pose proof (eo_run _ _ _ He _ _ _ _ Hi Hp Hep) as Hrun.
  destruct p; simpl in Hrun; try congruence; destruct Hrun as [Hc Hw]; try (by apply Hw); done.
Qed.

(** Two majorities share a voter. *)
Lemma majorities_meet n (S1 S2 : gset nat) :
  (forall j, j ∈ S1 -> (j < n)%nat) -> (forall j, j ∈ S2 -> (j < n)%nat) ->
  Z.quot (Z.of_nat n) 2 < Z.of_nat (size S1) -> Z.quot (Z.of_nat n) 2 < Z.of_nat (size S2) ->
  exists j, j ∈ S1 /\ j ∈ S2.
Proof.
  intros H1 H2 Hs1 Hs2.
  destruct (decide (S1 ## S2)) as [Hd|Hnd].
  - exfalso. assert (size (S1 ∪ S2) <= n)%nat as Hle.
    { rewrite <- (size_set_seq (C := gset nat) 0 n). apply subseteq_size. intros j Hj.
      apply elem_of_set_seq. apply elem_of_union in Hj as [?%H1|?%H2]; lia. }
    rewrite size_union in Hle by done.
    rewrite Z.quot_div_nonneg in * by lia.
    pose proof (Z.div_mod (Z.of_nat n) 2 ltac:(lia)). pose proof (Z.mod_pos_bound (Z.of_nat n) 2 ltac:(lia)). lia.
  - apply dec_stable. intros Hno. apply Hnd. intros j Hj1 Hj2. apply Hno. eauto.
Qed.

(** Leaders of one term, now and later, are the same server. *)
Lemma leaders_agree `{!CodecLaws} n V c1 c2 i j t :
  election_ok n V c1 -> rtc tstep c1 c2 -> leads c1 i t -> leads c2 j t -> i = j.
Proof.
  intros He1 H12 Hi Hj. destruct (tsteps_election _ _ _ _ H12 He1) as (V2 & HV & He2).
  destruct (leader_majority _ _ _ _ _ He1 Hi) as (S1 & Hv1 & Hm1).
  destruct (leader_majority _ _ _ _ _ He2 Hj) as (S2 & Hv2 & Hm2).
  destruct (majorities_meet n S1 S2) as (v & Hin1 & Hin2); [apply Hv1|apply Hv2|done|done|].
  destruct (voters_mono _ _ _ _ _ _ HV Hv1 v Hin1) as (_ & l1 & E1). destruct (Hv2 v Hin2) as (_ & l2 & E2).
  rewrite E1 in E2. injection E2 as E _. lia.
Qed.

(** C7: Election safety.  In a timely execution at most one server leads a term: if server [i] leads
    term [t] at some point and server [j] leads it then or at any later point, crashes, restarts and
    lost, delayed or reordered messages in between, they are the same server. *)
Theorem election_safety `{!CodecLaws} n now rnd c0 c1 c2 i j t :
  init_cluster n now rnd = Val c0 -> rtc tstep c0 c1 -> rtc tstep c1 c2 ->
  leads c1 i t -> leads c2 j t -> i = j.
Proof.
  intros Hc0 H01 H12 Hi Hj.
  destruct (tsteps_election _ _ _ _ H01 (init_election _ _ _ _ Hc0)) as (V1 & _ & He1).
  by eapply leaders_agree.
Qed.

End Election.
(** ** Executions of three servers *)

(** A time after which every election timeout has passed *)
Definition late : Z := 10000000000.

Definition start_cluster : @Cluster Z :=
  match init_cluster 3 (fun _ => 0) (fun _ => 0) with Val c => c | Err _ => mkCluster [] [] [] [] [] end.

(** Server [i], a follower, times out and asks the others for their votes. *)
Definition campaign (i : nat) (now : Z) : list (@label Z) := replicate 8 (LRun i now).

(** Server 0 campaigns in term 1; goroutine 0 asks server 1, which votes for it, and the vote is counted. *)
Definition fair_election : list (@label Z) :=
  campaign 0 late ++ [LThread 0 late; LThread 0 late; LThread 0 late] ++ replicate 3 (LRun 0 late).

(** The vote of server 1 arrives after server 0 has timed out again and started term 2; then server 1
    campaigns in term 2 with the help of server 2. *)
Definition stale_vote_election : list (@label Z) :=
  campaign 0 late ++ [LThread 0 late; LThread 0 late] ++ replicate 8 (LRun 0 (2 * late)) ++
  [LThread 0 (2 * late)] ++ replicate 3 (LRun 0 (2 * late)) ++
  campaign 1 (2 * late) ++ replicate 3 (LThread 5 (2 * late)) ++ replicate 3 (LRun 1 (2 * late)).

Definition summary (c : @Cluster Z) : list (RaftState * Z) :=
  (fun rf => (state rf, currentTerm rf)) <$> nodes c.

Definition run_from_start (ok : @Cluster Z -> label -> bool) (ls : list label) : @Cluster Z :=
  default start_cluster (run_while ok start_cluster ls).

Definition fair_end : @Cluster Z := run_from_start timely fair_election.
Definition stale_end : @Cluster Z := run_from_start (fun _ _ => true) stale_vote_election.

Lemma start_cluster_init : init_cluster 3 (fun _ => 0) (fun _ => 0) = Val start_cluster.
Proof. vm_compute. reflexivity. Qed.

Lemma leads_summary c i t : summary c !! i = Some (Leader, t) -> leads c i t.
Proof.
  unfold summary. rewrite list_lookup_fmap. destruct (nodes c !! i) as [rf|] eqn:Hi; simpl; [|done].
  intros [= Hs Ht]. by exists rf.
Qed.

Lemma election_safety_witness : leads fair_end 0 1 /\ (forall j, leads fair_end j 1 -> 0%nat = j).
Proof.
  assert (rtc tstep start_cluster fair_end) as Hr.
  { apply (tsteps_rtc fair_election). vm_compute. reflexivity. }
  assert (leads fair_end 0 1) as Hl by (apply leads_summary; vm_compute; reflexivity).
  split; [exact Hl|]. intros j Hj.
  exact (election_safety 3 _ _ start_cluster fair_end fair_end 0%nat j 1 start_cluster_init Hr
           (rtc_refl _ _) Hl Hj).
Defined.

(** Election safety needs the timing of replies: an execution of three servers, without crashes or lost messages,
    in which a vote granted in term 1 arrives in term 2 and is counted there ends with servers 0 and 1 both
    leading term 2. *)
Lemma stale_reply_two_leaders :
  reachable 3 stale_end /\ leads stale_end 0 2 /\ leads stale_end 1 2.
Proof.
  split_and!; [|apply leads_summary; vm_compute; reflexivity..].
  eapply (run_while_reachable 3 (fun _ _ => true) stale_vote_election).
  - eapply reach_init; [lia|apply start_cluster_init].
  - vm_compute. reflexivity.
Qed.

(** ** A delayed request *)

(** What [timely] asks, but for the age of a request when it is granted: a granted vote is counted in the term
    in which the candidate asked for it. *)
Definition fresh_replies (c : @Cluster Z) (l : label) : bool :=
  match l with
  | LThread k _ =>
      match threads c !! k with
      | Some (TVote i ep j t0 (VReplied args reply)) => negb (VoteGranted reply) || (term_of c i =? rva_Term args)
      | _ => timely c l
      end
  | _ => timely c l
  end.

Definition five_servers : @Cluster Z := val_or (mkCluster [] [] [] [] []) (init_cluster 5 (fun _ => 0) (fun _ => 0)).

(** One of five servers, a follower, times out and asks the others. *)
Definition campaign5 (i : nat) (now : Z) : list (@label Z) := replicate 10 (LRun i now).

(** Servers 0 and 1 campaign in term 1.  Servers 2 and 3 vote for server 1, which leads; server 4 votes for server
    0, whose request to server 2 stays in the network.  Server 2 campaigns in term 2 and server 3 in terms 2 and
    3; server 2 asks server 3, learns of term 3 and is a follower that has not voted.  Now the request of term 1
    arrives: server 2 grants it, and server 0, which still waits for votes of term 1, counts the vote. *)
Definition stale_request_election : list (@label Z) :=
  campaign5 0 late ++ campaign5 1 late ++
  replicate 3 (LThread 3 late) ++ [LThread 1 late] ++
  replicate 3 (LThread 5 late) ++ replicate 3 (LThread 6 late) ++
  replicate 3 (LRun 1 late) ++ replicate 2 (LRun 0 late) ++
  campaign5 2 (2 * late) ++ campaign5 3 (2 * late) ++ replicate 10 (LRun 3 (3 * late)) ++
  replicate 3 (LThread 10 (3 * late)) ++ replicate 2 (LThread 1 (3 * late)) ++ [LRun 0 (3 * late)].

Definition stale_request_end : @Cluster Z := default five_servers (run_while fresh_replies five_servers stale_request_election).

(** C39: A delayed vote request breaks election safety.  There is an execution of five servers, without crashes, in
    which every granted vote is counted while the candidate is still in the term in which it asked for it, and
    which keeps the other conditions of [timely], but in which one request of term 1 reaches a server that is in
    term 3 by then; the server grants it, since RequestVote goes on after its test for old terms
    (raft.go:182-184), and in the end two servers lead term 1 at the same time. *)
Theorem stale_vote_two_leaders :
  init_cluster 5 (fun _ => 0) (fun _ => 0) = Val five_servers /\
  rtc (fun c c' => exists l, fresh_replies c l = true /\ step c l = Val c' /\ small c' = true) five_servers stale_request_end /\
  leads stale_request_end 0 1 /\ leads stale_request_end 1 1.
Proof.
  split_and!; [by vm_compute| |by apply leads_summary; vm_compute..].
  apply (run_while_rtc fresh_replies stale_request_election). by vm_compute.
Qed.

End RaftElection.
