(* ===== verification/RaftSafety.v ===== *)
(** * What a Raft server and a cluster of them guarantee

    The contracts of the RPC handlers, durability of the persistent state, and the invariants of every
    reachable cluster, from the lemmas of RaftInv.v and RaftClusterInv.v; the witnesses run the model on
    small servers with the codec of RaftCodec.v. *)

From stdpp Require Import base list gmap strings.
From Stdlib Require Import ZArith Lia.
From S2P Require Import Prelude RaftNode RaftCodec RaftInv RaftCluster RaftClusterInv RaftElection.
Import RaftNode RaftCodec RaftInv RaftCluster RaftClusterInv RaftElection.

Open Scope Z_scope.

Module RaftSafety.

Section Safety.
Context {Cmd : Type} `{Codec Cmd}.
Notation Raft := (Raft Cmd).
Notation Cluster := (@Cluster Cmd).
Notation AppendEntriesArgs := (AppendEntriesArgs Cmd).

(** The entries of a request agree with the committed part of the log. *)
Definition commit_safe (rf : Raft) (args : AppendEntriesArgs) : Prop :=
  commitIndex rf < len (log rf) /\
  forall k e, Entries args !! k = Some e -> PrevLogIndex args + 1 + Z.of_nat k <= commitIndex rf ->
    exists e', log rf !! Z.to_nat (PrevLogIndex args + 1 + Z.of_nat k) = Some e' /\ Term e' = Term e.

(** What a successful [AppendEntries] leaves *)
Record appended (rf rf' : Raft) (args : AppendEntriesArgs) : Prop := {
  ap_prev : prev_matches rf args;
  ap_committed : forall k, Z.of_nat k <= commitIndex rf -> log rf' !! k = log rf !! k;
  ap_before : forall k, Z.of_nat k <= PrevLogIndex args -> log rf' !! k = log rf !! k;
  ap_entries : forall k e, Entries args !! k = Some e ->
    exists e', log rf' !! Z.to_nat (PrevLogIndex args + 1 + Z.of_nat k) = Some e' /\ Term e' = Term e;
  ap_commit : commitIndex rf' = Z.max (commitIndex rf) (Z.min (LeaderCommit args) (len (log rf') - 1)) }.

Lemma appended_checked n i rf rf1 args xt xi :
  node_ok n i rf -> append_args_ok args -> commit_safe rf args ->
  append_checked n i rf rf1 args true xt xi -> appended rf rf1 args /\ commitIndex rf1 < len (log rf1).
Proof.
  intros Hok [Hp0 _ Hat Hae] [Hcl Hcs] Hc.
  pose proof (proj1 (ac_ok _ _ _ _ _ _ _ _ Hc) eq_refl) as Hprev.
  pose proof Hprev as (e & He%lookup_lt_Some & _).
  pose proof (ac_append _ _ _ _ _ _ _ _ Hc eq_refl) as Happ.
  destruct (append_loop_ok (Entries args) (log rf) (PrevLogIndex args + 1)
              (Z.max (currentTerm rf) (aea_Term args))) as (l' & Hl' & Hlok & _ & _ & Hkeep & Hent).
  { apply Hok. }
  { eapply Forall_impl; [apply Hok|]. simpl. lia. }
  { unfold len. lia. }
  { intros k x Hx. destruct (Hae k x Hx). lia. }
  rewrite Happ in Hl'. injection Hl' as <-.
  assert (forall k, Z.of_nat k <= commitIndex rf -> log rf1 !! k = log rf !! k) as Hcom.
  { intros k Hk. apply (Hkeep (Z.to_nat (commitIndex rf))); [lia| |lia].
    intros j x Hx Hj. destruct (Hcs j x Hx) as (x' & Hx' & Ht); [lia|]. exists x'. split; [|done].
    rewrite <- Hx'. f_equal. lia. }
  assert (commitIndex rf < len (log rf1)) as Hc1.
  { destruct (decide (commitIndex rf < 0)); [pose proof (len_nonneg (log rf1)); lia|].
    destruct (lookup_lt_is_Some_2 (log rf) (Z.to_nat (commitIndex rf))) as [x Hx]; [unfold len in Hcl; lia|].
    rewrite <- (Hcom (Z.to_nat (commitIndex rf))) in Hx by lia. apply lookup_lt_Some in Hx. unfold len. lia. }
  pose proof (ac_commit _ _ _ _ _ _ _ _ Hc) as Hci. simpl in Hci.
  destruct (Z.ltb_spec (commitIndex rf) (LeaderCommit args)) as [Hlt|Hge]; (split; [constructor|]); try done; try lia.
  all: try (intros k Hk; apply (Hkeep (Z.to_nat (PrevLogIndex args))); [unfold len; lia|intros; lia|lia]).
  all: intros k x Hx; destruct (Hent k x Hx) as (x' & Hx' & Ht); exists x'; split; [|done]; rewrite <- Hx'; f_equal; lia.
Qed.

(** How a refusing server tells the leader where to look: its log is too short, or the stretch of its
    log that ends at the previous entry and has that entry's term starts at [XIndex]. *)
Definition hints (rf : Raft) (args : AppendEntriesArgs) (xt xi : Z) : Prop :=
  (xt = -1 /\ xi = len (log rf) /\ len (log rf) <= PrevLogIndex args) \/
  (1 <= xt /\ 1 <= xi <= PrevLogIndex args /\
   (forall j e, log rf !! j = Some e -> xi <= Z.of_nat j <= PrevLogIndex args -> Term e = xt) /\
   (forall e, log rf !! Z.to_nat (xi - 1) = Some e -> Term e <> xt)).

Lemma AppendEntries_spec n i rf args now :
  node_ok n i rf -> append_args_ok args -> commit_safe rf args -> -1 <= lastApplied rf ->
  exists rf' reply spawn, AppendEntries rf args now = Val (rf', reply, spawn) /\
    node_ok n i rf' /\ advance rf rf' /\ lastApplied rf' = lastApplied rf /\
    currentTerm rf' = append_term rf args /\ aer_Term reply = currentTerm rf' /\
    (Success reply = true <-> currentTerm rf <= aea_Term args /\ prev_matches rf args) /\
    (Success reply = true -> appended rf rf' args) /\
    (Success reply = false -> log rf' = log rf /\ commitIndex rf' = commitIndex rf) /\
    commitIndex rf' < len (log rf') /\
    (Success reply = false -> currentTerm rf <= aea_Term args -> hints rf args (XTerm reply) (XIndex reply)).
Proof.
  intros Hok Ha Hcs Hla. pose proof Hcs as [Hcl _].
  destruct (Z.ltb_spec (aea_Term args) (currentTerm rf)) as [Hlt|Hge].
  - unfold AppendEntries, append_term. rewrite (proj2 (Z.ltb_lt _ _) Hlt).
    eexists _, _, _. split; [reflexivity|]. simpl.
    split_and!; try done; [by apply node_ok_persist|right; auto|lia| |]; (split; [done|lia]) || lia.
  - destruct (append_check_spec n i rf args Hok Ha) as (rf1 & ok & xt & xi & Hchk & Hac).
    destruct (node_ok_checked _ _ _ _ _ _ _ _ now Hok Hac Hge) as (Hok' & Hp & Ht & Hl). simpl in *.
    set (rf2 := if currentTerm rf1 <? aea_Term args then _ else rf1) in *.
    assert (commitIndex rf2 = commitIndex rf1 /\ lastApplied rf2 = lastApplied rf) as [Hc2 Hla2].
    { rewrite <- (ac_applied _ _ _ _ _ _ _ _ Hac). unfold rf2. by destruct (currentTerm rf1 <? aea_Term args). }
    assert (commitIndex rf1 < len (log rf1) /\ (ok = true -> appended rf rf1 args) /\
            (ok = false -> rf1 = rf)) as (Hc1 & Happ & Hfail).
    { destruct ok.
      - destruct (appended_checked _ _ _ _ _ _ _ Hok Ha Hcs Hac). done.
      - destruct (ac_fail _ _ _ _ _ _ _ _ Hac eq_refl) as [-> _]. done. }
    assert (exists spawn, (if lastApplied rf2 <? commitIndex rf2 then sendApplyMsg rf2 else mret None) = Val spawn)
      as [spawn Hspawn].
    { unfold sendApplyMsg. destruct (Z.ltb_spec (lastApplied rf2) (commitIndex rf2)); [|by eexists].
      eexists. unfold go_slice. rewrite Hl.
      rewrite (proj2 (Z.leb_le 0 _)), (proj2 (Z.leb_le (_ + 1) _)), (proj2 (Z.leb_le _ (len _))) by lia. done. }
    unfold AppendEntries. rewrite (proj2 (Z.ltb_ge _ _) Hge), Hchk. simpl. fold rf2. rewrite Hspawn. simpl.
    eexists _, _, _. split; [reflexivity|]. simpl. rewrite Hl, Hc2.
    split_and!; try done; [apply Hp| | | |].
    + rewrite (ac_ok _ _ _ _ _ _ _ _ Hac). intuition.
    + intros E. destruct (Happ E) as [? ? ? ? ?]. constructor; simpl; by rewrite ?Hl, ?Hc2.
    + intros E. by rewrite (Hfail E).
    + intros E _. apply (ac_fail _ _ _ _ _ _ _ _ Hac E).
Qed.


(** C11: A vote, once granted, binds the server for the rest of the term, over any restart: after it has
    granted a vote to one candidate, crashed and been restarted from its persister, it refuses every
    other candidate that asks in the same or an older term, and does not panic. *)
Theorem vote_survives_restart `{!CodecLaws} n i rf args1 now1 rf1 reply1 now rnd rf1' args2 now2 :
  node_ok n i rf -> vote_args_ok n args1 -> vote_args_ok n args2 ->
  RequestVote rf args1 now1 = Val (rf1, reply1) -> VoteGranted reply1 = true ->
  Make (npeers rf1) (me rf1) (persister rf1) now rnd = Val rf1' ->
  rva_Term args2 <= currentTerm rf1 -> CandidateId args2 <> CandidateId args1 ->
  exists rf2 reply2, RequestVote rf1' args2 now2 = Val (rf2, reply2) /\ VoteGranted reply2 = false /\
    votedFor rf2 = CandidateId args1.
Proof.
  intros Hok Ha1 Ha2 Hrv Hg Hmk Ht Hne.
  destruct (RequestVote_spec _ _ _ _ now1 Hok Ha1) as (r & rp & Hr & Hok1 & _ & _ & _ & _ & _ & Hv).
  rewrite Hrv in Hr. injection Hr as <- <-. rewrite Hg in Hv.
  destruct (Make_saved n i rf1 now rnd Hok1) as (r & Hr & Hok1' & _ & Ht1 & Hv1 & _).
  rewrite Hmk in Hr. injection Hr as <-.
  destruct (RequestVote_spec _ _ _ args2 now2 Hok1' Ha2) as (rf2 & reply2 & Hr2 & _ & _ & _ & _ & _ & Hgr & Hv2).
  assert (bound_vote rf1' args2 = CandidateId args1) as Hb.
  { unfold bound_vote. rewrite (proj2 (Z.ltb_ge _ _)) by lia. congruence. }
  pose proof (va_cand _ _ Ha1).
  assert (VoteGranted reply2 = false) as Hno.
  { apply not_true_is_false. rewrite Hgr, Hb. intros [[?|?] _]; [lia|congruence]. }
  exists rf2, reply2. rewrite Hno in Hv2. split_and!; [done|done|congruence].
Qed.

(** C20: In every reachable cluster, every server's log starts with the empty entry of term 0, has every
    other entry at its own index and with a term between 1 and the server's, and what the server has
    saved is its log, its term and its vote (nothing yet, for a server still in its first state). *)
Theorem reachable_servers_ok `{!CodecLaws} n c i rf :
  reachable n c -> nodes c !! i = Some rf ->
  log rf !! 0%nat = Some (mkEntry 0 None 0) /\
  (forall k e, log rf !! S k = Some e -> Index e = Z.of_nat (S k) /\ 1 <= Term e <= currentTerm rf) /\
  (raftstate (persister rf) = encode_state (log rf) (currentTerm rf) (votedFor rf) \/
   raftstate (persister rf) = [] /\ log rf = [mkEntry 0 None 0] /\ currentTerm rf = 0 /\ votedFor rf = -1).
Proof.
  intros [Hok _]%reachable_ok Hi. destruct (co_node _ _ Hok _ _ Hi) as [_ _ _ Hl Ht _ _ _ _ _ _ Hs].
  split_and!; [apply Hl| |destruct Hs; auto].
  intros k e He. split; [by apply Hl|]. split; [apply (log_term _ Hl _ _ He); lia|].
  by eapply Forall_lookup_1 in Ht.
Qed.

(** C21: No step of a reachable cluster, be it a crash and restart, moves a server to an older term, or
    changes a vote cast in its current term. *)
Theorem term_and_vote_monotone `{!CodecLaws} n c l c' i rf rf' :
  reachable n c -> step c l = Val c' -> nodes c !! i = Some rf -> nodes c' !! i = Some rf' ->
  currentTerm rf <= currentTerm rf' /\
  (currentTerm rf' = currentTerm rf -> votedFor rf <> -1 -> votedFor rf' = votedFor rf).
Proof.
  intros [Hok Hsm]%reachable_ok Hs Hi Hi'. destruct (step_ok _ _ _ _ Hok Hsm Hs) as [_ Ha].
  destruct (Ha i rf rf' Hi Hi') as [?|[? [?|?]]]; lia.
Qed.

(** A crash and restart of a server in a reachable cluster succeeds, and brings it back as a
    follower with the log, term and vote it had, the other servers unchanged. *)
Theorem restart_restores `{!CodecLaws} n c i rf now rnd :
  reachable n c -> nodes c !! i = Some rf ->
  exists c' rf', step c (LCrash i now rnd) = Val c' /\ nodes c' = <[i := rf']> (nodes c) /\
    (log rf', currentTerm rf', votedFor rf', persister rf') = (log rf, currentTerm rf, votedFor rf, persister rf) /\
    state rf' = Follower.
Proof.
  intros [Hok _]%reachable_ok Hi. simpl. rewrite Hi.
  destruct (Make_saved n i rf now rnd (co_node _ _ Hok _ _ Hi)) as (rf' & Hmk & _ & Hl & Ht & Hv & Hs & _).
  rewrite Hmk. eexists _, rf'. split_and!; [reflexivity|done| |done].
  rewrite Hl, Ht, Hv. f_equal. unfold Make, readPersist in Hmk.
  destruct (_ <? 1); [|destruct (decode_state _) as [[[? ?] ?]|]]; by inv_res.
Qed.

(** The sections that index the log or the peers by what another server said: the goroutines of
    [sendHearbeat], the handler they call, and the end of [sendHearbeat] itself *)
Definition replication_section (c : Cluster) (l : @label Cmd) : Prop :=
  match l with
  | LThread k _ => exists i ep j st, threads c !! k = Some (TBeat i ep j st)
  | LRun i _ => pcs c !! i = Some PCommit
  | _ => False
  end.

(** C22: In a reachable cluster only the sections of log replication can panic: elections, votes,
    [Start], applying and restarting never do. *)
Theorem only_replication_panics `{!CodecLaws} n c l :
  reachable n c -> replication_section c l \/ exists c', step c l = Val c'.
Proof.
  intros [Hok _]%reachable_ok.
  destruct (step c l) as [c'|e] eqn:Hstep; [right; by exists c'|left]. revert Hstep.
  destruct l as [i now|k now|i command|i|i now rnd]; simpl.
  - destruct (nodes c !! i) as [rf|]; [|done]. destruct (pcs c !! i) as [p|] eqn:Hp; [|done].
    destruct (epochs c !! i) as [ep|]; [|done].
    destruct p; simpl; try done; repeat case_match; try done.
  - destruct (threads c !! k) as [t|] eqn:Hk; [|done]. pose proof (co_thread _ _ Hok _ _ Hk) as Ht.
    destruct t as [i ep j t0 st|i ep j st|i ep term command|i ep es|i ep index es|]; [|by eauto|..]; simpl.
    + destruct Ht as ((rf & Hi & _) & Hj & _ & Hst). rewrite Hi. destruct st as [|args|args reply].
      * destruct (alive c i ep); [|done].
        by destruct (vote_args_total _ _ _ (co_node _ _ Hok _ _ Hi)) as (args & -> & _).
      * destruct (nodes c !! j) as [rfj|] eqn:Hrj; [|done].
        by destruct (RequestVote_spec _ _ _ args now (co_node _ _ Hok _ _ Hrj) (proj1 Hst)) as (? & ? & -> & _).
      * by destruct (alive c i ep).
    + destruct Ht as (rf & Hi & _). rewrite Hi. destruct (alive c i ep); [|done].
      by destruct (Start_append_total _ _ _ term command (co_node _ _ Hok _ _ Hi)) as (? & ? & ->).
    + destruct (alive c i ep); [|done]. by destruct es.
    + destruct (nodes c !! i); [|done]. by destruct (alive c i ep).
    + done.
  - repeat case_match; done.
  - destruct (nodes c !! i); done.
  - destruct (nodes c !! i) as [rf|] eqn:Hi; [|done].
    by destruct (Make_saved n i rf now rnd (co_node _ _ Hok _ _ Hi)) as (rf' & -> & _).
Qed.

End Safety.
(** ** Concrete servers *)

(** One of three servers, in term [t] and role [st], with vote [v] and log [l], its state saved *)
Definition server (i : nat) (t v : Z) (st : RaftState) (ni : list Z) (l : list (Entry Z)) : Raft Z :=
  persist (mkRaft 3 MakePersister (Z.of_nat i) 0 t v l 0 0 ni [0; 0; 0] st 0 0 500000000).

(** Entries of the given terms, commands numbered from [k], behind the empty one *)
Fixpoint numbered (k : nat) (terms : list Z) : list (Entry Z) :=
  match terms with
  | [] => []
  | t :: ts => mkEntry t (Some (Z.of_nat k)) (Z.of_nat k) :: numbered (S k) ts
  end.

Definition log_of (terms : list Z) : list (Entry Z) := mkEntry 0 None 0 :: numbered 1 terms.

Lemma numbered_lookup k terms j e :
  numbered k terms !! j = Some e -> Index e = Z.of_nat (k + j) /\ terms !! j = Some (Term e).
Proof.
  revert k j. induction terms as [|t ts IH]; intros k [|j]; simpl; try done.
  - intros [= <-]. simpl. split; [lia|done].
  - intros Hj%IH. split; [lia|apply Hj].
Qed.

Lemma log_of_ok t terms :
  Forall (fun x => 1 <= x <= t) terms -> 0 <= t -> log_ok (log_of terms) /\ terms_le t (log_of terms).
Proof.
  intros Hts Ht. split.
  - constructor; [done|..].
    + intros [|k] e; simpl; [by intros [= <-]|]. intros [-> _]%numbered_lookup. lia.
    + intros [|k] e; simpl; [lia|]. intros [_ He]%numbered_lookup _.
      eapply Forall_lookup_1 in Hts; [|done]. lia.
  - apply Forall_lookup. intros [|k] e; simpl; [by intros [= <-]|]. intros [_ He]%numbered_lookup.
    eapply Forall_lookup_1 in Hts; [|done]. lia.
Qed.

Lemma server_ok i t v st ni terms :
  (i < 3)%nat -> length ni = 3%nat -> Forall (fun x => 1 <= x <= t) terms -> 0 <= t ->
  v = -1 \/ 0 <= v < 3 -> (st = Leader -> 1 <= t) -> node_ok 3 i (server i t v st ni (log_of terms)).
Proof.
  intros Hi Hni Hts Ht Hv Hst. destruct (log_of_ok t terms Hts Ht). constructor; simpl; try done; try lia.
  apply saved_persist.
Qed.

Definition follower1 : Raft Z := server 1 0 (-1) Follower [1; 1; 1] (log_of []).

Lemma follower1_ok : node_ok 3 1 follower1.
Proof. apply server_ok; [lia|done|done|lia|lia|done]. Qed.

(** The first entry of the leader of term 1, and its commit index *)
Definition first_append : AppendEntriesArgs Z := mkAppendEntriesArgs 1 0 0 0 1 (numbered 1 [1]).

Lemma first_append_ok : append_args_ok first_append /\ commit_safe follower1 first_append.
Proof.
  split; [constructor; simpl; try lia|split; [done|]].
  - intros [|[|k]] e; simpl; [|done|done]. intros [= <-]. simpl. lia.
  - intros [|[|k]] e; simpl; [|done|done]. lia.
Qed.


Lemma vote_survives_restart_witness :
  exists rf1 reply1 rf1' rf2 reply2,
    RequestVote follower1 (mkRequestVoteArgs 1 0 0 0) 5 = Val (rf1, reply1) /\ VoteGranted reply1 = true /\
    Make 3 1 (persister rf1) 6 0 = Val rf1' /\
    RequestVote rf1' (mkRequestVoteArgs 1 2 0 0) 7 = Val (rf2, reply2) /\ VoteGranted reply2 = false.
Proof.
  destruct (RequestVote follower1 (mkRequestVoteArgs 1 0 0 0) 5) as [[rf1 reply1]|e] eqn:E1;
    [|vm_compute in E1; discriminate].
  pose proof E1 as E1'. vm_compute in E1'. injection E1' as Erf Ereply.
  destruct (Make 3 1 (persister rf1) 6 0) as [rf1'|e] eqn:E2; [|rewrite <- Erf in E2; vm_compute in E2; discriminate].
  destruct (vote_survives_restart 3 1 follower1 (mkRequestVoteArgs 1 0 0 0) 5 rf1 reply1 6 0 rf1'
              (mkRequestVoteArgs 1 2 0 0) 7 follower1_ok) as (rf2 & reply2 & E3 & Hno & _).
  - constructor; simpl; lia.
  - constructor; simpl; lia.
  - exact E1.
  - rewrite <- Ereply. reflexivity.
  - rewrite <- E2. rewrite <- Erf. reflexivity.
  - rewrite <- Erf. simpl. lia.
  - discriminate.
  - exists rf1, reply1, rf1', rf2, reply2. split_and!; try done. by rewrite <- Ereply.
Defined.

Lemma fair_end_reachable : reachable 3 fair_end.
Proof.
  eapply (run_while_reachable 3 timely fair_election).
  - eapply reach_init; [lia|apply start_cluster_init].
  - vm_compute. reflexivity.
Qed.

Lemma fair_end_server : exists rf, nodes fair_end !! 0%nat = Some rf /\ currentTerm rf = 1 /\ votedFor rf = 0.
Proof.
  destruct (nodes fair_end !! 0%nat) as [rf|] eqn:E; [|vm_compute in E; discriminate].
  exists rf. split; [reflexivity|]. vm_compute in E. injection E as <-. split; reflexivity.
Qed.

Lemma reachable_servers_ok_witness :
  exists rf, nodes fair_end !! 0%nat = Some rf /\ log rf !! 0%nat = Some (mkEntry 0 None 0).
Proof.
  destruct fair_end_server as (rf & Hrf & _). exists rf. split; [exact Hrf|].
  exact (proj1 (reachable_servers_ok 3 fair_end 0 rf fair_end_reachable Hrf)).
Defined.

Lemma term_and_vote_monotone_witness :
  exists c' rf', step fair_end (LCrash 0 20 3) = Val c' /\ nodes c' !! 0%nat = Some rf' /\
    1 <= currentTerm rf' /\ (currentTerm rf' = 1 -> votedFor rf' = 0).
Proof.
  destruct fair_end_server as (rf & Hrf & Ht & Hv).
  destruct (step fair_end (LCrash 0 20 3)) as [c'|e] eqn:E; [|vm_compute in E; discriminate].
  destruct (nodes c' !! 0%nat) as [rf'|] eqn:E'; [|vm_compute in E; injection E as <-; vm_compute in E'; discriminate].
  exists c', rf'. split; [reflexivity|]. split; [exact E'|].
  destruct (term_and_vote_monotone 3 fair_end (LCrash 0 20 3) c' 0 rf rf' fair_end_reachable E Hrf E') as [H1 H2].
  rewrite Ht, Hv in *. split; [exact H1|]. intros E1. apply H2; [exact E1|lia].
Defined.

Lemma restart_restores_witness :
  exists c', step fair_end (LCrash 0 20 3) = Val c' /\ length (nodes c') = 3%nat.
Proof.
  destruct fair_end_server as (rf & Hrf & _).
  destruct (restart_restores 3 fair_end 0 rf 20 3 fair_end_reachable Hrf) as (c' & rf' & Hs & Hn & _).
  exists c'. split; [exact Hs|]. rewrite Hn, length_insert. reflexivity.
Defined.

Lemma only_replication_panics_witness : exists c', step fair_end (LStart 0 42) = Val c'.
Proof.
  destruct (only_replication_panics 3 fair_end (LStart 0 42) fair_end_reachable) as [Hf|Hc]; [destruct Hf|exact Hc].
Defined.

(** Server 0 leads term 1 and sends a heartbeat to server 1, which meanwhile starts term 2 and refuses
    it; the refusal reaches server 0 when it leads term 3. *)
Definition old_refusal : list (@label Z) :=
  fair_election ++ [LRun 0 late; LThread 2 late; LRun 0 late] ++
  campaign 1 (2 * late) ++ [LThread 4 (2 * late); LThread 4 (2 * late); LThread 2 (2 * late)] ++
  campaign 0 (3 * late) ++ replicate 3 (LThread 6 (3 * late)) ++ replicate 3 (LRun 0 (3 * late)) ++
  [LThread 2 (3 * late); LRun 0 (3 * late)].

Definition old_refusal_end : @Cluster Z := run_from_start timely old_refusal.

(** A refusal of a heartbeat of an earlier term carries no hint, yet a server that leads again takes
    [XIndex] = 0 from it, and its next heartbeat to that peer reads [rf.log[-1]]: in a reachable
    (and timely) state, the goroutine panics. *)
Theorem old_refusal_panics :
  reachable 3 old_refusal_end /\ leads old_refusal_end 0 3 /\
  step old_refusal_end (LThread 8 (3 * late)) = Err EIndex.
Proof.
  split_and!; [|apply leads_summary; vm_compute; reflexivity|vm_compute; reflexivity].
  eapply (run_while_reachable 3 timely old_refusal).
  - eapply reach_init; [lia|apply start_cluster_init].
  - vm_compute. reflexivity.
Qed.

End RaftSafety.
