(* ===== verification/RaftReplication.v ===== *)
(** * Log replication between a leader and one follower

    A round of [sendHearbeat] with one peer: the arguments are read, the peer's [AppendEntries] runs, the
    reply is used.  When the peer refuses, the leader's [nextIndex] for it goes back by the hints in the
    reply (the fast backup of raft.go); [replicate_log] repeats the rounds.  They end with the leader's
    log replicated, after at most as many rounds as [nextIndex] says. *)

From stdpp Require Import base list gmap strings.
From Stdlib Require Import ZArith Lia.
From S2P Require Import Prelude RaftNode RaftCodec RaftInv RaftCluster RaftClusterInv RaftSafety.
Import RaftNode RaftCodec RaftInv RaftSafety.

Open Scope Z_scope.

Module RaftReplication.

Section Replication.
Context {Cmd : Type} `{Codec Cmd}.
Notation Raft := (Raft Cmd).

(** Leader, follower, and whether the follower accepted *)
Definition beat_round (ld fl : Raft) (j : nat) (now : Z) : res (Raft * Raft * bool) :=
  a ← heartbeat_args ld (Z.of_nat j);
  match a with
  | None => mret (ld, fl, false)
  | Some args =>
      '(fl', reply, _) ← AppendEntries fl args now;
      ld' ← heartbeat_reply ld (Z.of_nat j) args reply;
      mret (ld', fl', Success reply)
  end.

(** Rounds until the follower accepts, at most [fuel] of them *)
Fixpoint replicate_log (fuel : nat) (ld fl : Raft) (j : nat) (now : Z) : res (Raft * Raft * bool) :=
  match fuel with
  | O => mret (ld, fl, false)
  | S fuel' =>
      '(ld', fl', ok) ← beat_round ld fl j now;
      if (ok : bool) then mret (ld', fl', true) else replicate_log fuel' ld' fl' j now
  end.

Definition agree_at (l1 l2 : list (Entry Cmd)) (k : nat) : Prop :=
  exists e1 e2, l1 !! k = Some e1 /\ l2 !! k = Some e2 /\ Term e1 = Term e2.

(** A leader and a follower of its term or an older one, which agree on what the follower knows to be
    committed *)
Record can_replicate (n i j : nat) (ld fl : Raft) (ni : Z) : Prop := {
  cr_ld : node_ok n i ld;
  cr_fl : node_ok n j fl;
  cr_leader : state ld = Leader;
  cr_term : currentTerm fl <= currentTerm ld;
  cr_commit : forall k, Z.of_nat k <= commitIndex fl -> agree_at (log fl) (log ld) k;
  cr_applied : -1 <= lastApplied fl;
  cr_next : nextIndex ld !! j = Some ni;
  cr_range : 1 <= ni <= len (log ld) }.

Lemma can_replicate_commit n i j ld fl ni :
  can_replicate n i j ld fl ni -> commitIndex fl < len (log fl).
Proof.
  intros []. destruct (decide (0 <= commitIndex fl)) as [Hp|Hn].
  - destruct (cr_commit0 (Z.to_nat (commitIndex fl))) as (e & _ & He%lookup_lt_Some & _); [lia|]. unfold len. lia.
  - pose proof (len_nonneg (log fl)). lia.
Qed.

(** The request the leader sends *)
Lemma heartbeat_args_total n i j ld fl ni :
  can_replicate n i j ld fl ni ->
  exists args, heartbeat_args ld (Z.of_nat j) = Val (Some args) /\ append_args_ok args /\
    aea_Term args = currentTerm ld /\ PrevLogIndex args = ni - 1 /\
    (exists prev, log ld !! Z.to_nat (ni - 1) = Some prev /\ PrevLogTerm args = Term prev) /\
    Entries args = drop (Z.to_nat ni) (log ld) /\ commit_safe fl args.
Proof.
  intros Hcr. pose proof (can_replicate_commit _ _ _ _ _ _ Hcr) as Hcl. destruct Hcr.
  assert (exists args, heartbeat_args ld (Z.of_nat j) = Val (Some args)) as [args Hargs].
  { unfold heartbeat_args. rewrite bool_decide_true by done. simpl.
    rewrite (go_index_nat _ _ _ cr_next0). simpl.
    destruct (go_index_in_range (log ld) (ni - 1)) as [prev ->]; [lia|]. simpl.
    unfold go_slice. rewrite (proj2 (Z.leb_le 0 _)), (proj2 (Z.leb_le (_ + 1) _)), (proj2 (Z.leb_le _ (len _))) by lia.
    simpl. eauto. }
  destruct (heartbeat_args_val _ _ _ _ _ cr_ld0 Hargs) as (Hok & _ & Ht & _ & _ & Hni & Hprev & Hes).
  rewrite (go_index_nat _ _ _ cr_next0) in Hni. injection Hni as Hni.
  assert (PrevLogIndex args = ni - 1) as Hp by lia. rewrite Hp in *.
  replace (ni - 1 + 1) with ni in * by lia.
  exists args. split_and!; try done. split; [done|].
  intros k e He Hk. rewrite Hp in *. destruct (cr_commit0 (Z.to_nat (ni - 1 + 1 + Z.of_nat k))) as (e1 & e2 & H1 & H2 & H3); [lia|].
  exists e1. split; [done|]. rewrite Hes, lookup_drop in He.
  replace (Z.to_nat (ni - 1 + 1 + Z.of_nat k)) with (Z.to_nat ni + k)%nat in H2 by lia. congruence.
Qed.

Lemma backup_loop_ok (l : list (Entry Cmd)) xt k :
  (k <= length l)%nat ->
  exists r, backup_loop l xt k = Val r /\ forall x, r = Some x -> 1 <= x <= Z.of_nat k.
Proof.
  induction k as [|k IH]; intros Hk; simpl; [by exists None|].
  destruct (lookup_lt_is_Some_2 l k) as [e He]; [lia|]. rewrite (go_index_nat _ _ _ He). simpl.
  destruct (Term e =? xt).
  - eexists. split; [done|]. intros x [= <-]. lia.
  - destruct IH as (r & Hr & Hx); [lia|]. exists r. split; [done|]. intros x E. specialize (Hx x E). lia.
Qed.

(** A refusal moves [nextIndex] back, but not below 1. *)
Lemma heartbeat_reply_fail n i j ld fl ni args reply :
  can_replicate n i j ld fl ni -> PrevLogIndex args = ni - 1 ->
  aer_Term reply <= currentTerm ld -> Success reply = false ->
  hints fl args (XTerm reply) (XIndex reply) ->
  exists ni', heartbeat_reply ld (Z.of_nat j) args reply = Val (set_nextIndex (<[j := ni']> (nextIndex ld)) ld) /\
    1 <= ni' < ni.
Proof.
  intros [] Hp Ht Hs Hh. pose proof (log_ok_len _ (no_log _ _ _ cr_fl0)) as Hfl.
  assert (forall (l : list Z) x, length l = length (nextIndex ld) ->
            go_update l (Z.of_nat j) x = Val (<[j := x]> l)) as Hup.
  { intros l x Hl. apply go_update_val. rewrite Nat2Z.id. split; [|done].
    apply lookup_lt_Some in cr_next0. unfold len. lia. }
  assert (1 <= XIndex reply < ni) as Hxi by (destruct Hh as [(_ & -> & ?)|(_ & ? & _)]; lia).
  unfold heartbeat_reply. rewrite bool_decide_true by done. simpl.
  rewrite (proj2 (Z.ltb_ge _ _) Ht), Hs. simpl. rewrite Hup by done. simpl.
  destruct (negb (XTerm reply =? -1)); [|eauto].
  destruct (backup_loop_ok (log ld) (XTerm reply) (Z.to_nat (PrevLogIndex args))) as (r & -> & Hr).
  { unfold len in cr_range0. lia. }
  simpl. destruct r as [x|]; [|eauto]. rewrite Hup by (by rewrite length_insert). simpl.
  rewrite list_insert_insert_eq. exists x. split; [done|]. specialize (Hr x eq_refl). lia.
Qed.

(** What the leader and the follower are left with once it has accepted: the leader knows, and the logs
    agree, term by term, from the last index the leader assumed to be common to the end of its log. *)
Record replicated (ld fl ld' fl' : Raft) (j m : nat) : Prop := {
  rp_log : log ld' = log ld;
  rp_next : nextIndex ld' !! j = Some (len (log ld));
  rp_match : matchIndex ld' !! j = Some (len (log ld) - 1);
  rp_last : (m < length (log ld))%nat;
  rp_before : forall k, (k <= m)%nat -> log fl' !! k = log fl !! k;
  rp_agree : forall k, (m <= k < length (log ld))%nat -> agree_at (log fl') (log ld) k }.

Lemma beat_round_spec n i j ld fl ni now :
  can_replicate n i j ld fl ni ->
  exists ld' fl' ok, beat_round ld fl j now = Val (ld', fl', ok) /\
    (ok = true -> replicated ld fl ld' fl' j (Z.to_nat (ni - 1))) /\
    (ok = false -> exists ni', can_replicate n i j ld' fl' ni' /\ ni' < ni /\ log ld' = log ld /\ log fl' = log fl).
Proof.
  intros Hcr. destruct (heartbeat_args_total _ _ _ _ _ _ Hcr)
    as (args & Hargs & Haok & Hat & Hp & (prev & Hprev & Hpt) & Hes & Hcs).
  destruct (AppendEntries_spec n j fl args now (cr_fl _ _ _ _ _ _ Hcr) Haok Hcs (cr_applied _ _ _ _ _ _ Hcr))
    as (fl' & reply & spawn & Hae & Hok' & _ & Hla & Ht & Hrt & Hsucc & Happ & Hfail & _ & Hh).
  unfold append_term in Ht. pose proof (cr_term _ _ _ _ _ _ Hcr) as Hle. rewrite Hat, Z.max_r in Ht by done.
  unfold beat_round. rewrite Hargs. simpl. rewrite Hae. simpl.
  destruct (Success reply) eqn:Hs.
  - specialize (Happ eq_refl). destruct Hcr. pose proof (lookup_lt_Some _ _ _ cr_next0) as Hj.
    assert (length (matchIndex ld) = length (nextIndex ld)) as Hlm
      by (by rewrite (no_match _ _ _ cr_ld0), (no_next _ _ _ cr_ld0)).
    unfold heartbeat_reply. rewrite bool_decide_true by done. simpl.
    rewrite (proj2 (Z.ltb_ge _ _)) by lia. rewrite Hs. simpl.
    assert (PrevLogIndex args + len (Entries args) = len (log ld) - 1) as Hm.
    { rewrite Hp, Hes. unfold len in *. rewrite length_drop. lia. }
    rewrite Hm. unfold go_update, len. rewrite Hlm.
    rewrite (proj2 (Z.leb_le 0 _)), (proj2 (Z.ltb_lt (Z.of_nat j) _)) by lia. simpl.
    eexists _, _, _. split; [reflexivity|]. split; [|done]. intros _. rewrite Nat2Z.id.
    constructor; simpl.
    + done.
    + rewrite list_lookup_insert_eq by done. f_equal. unfold len. lia.
    + rewrite list_lookup_insert_eq by lia. done.
    + unfold len in cr_range0. lia.
    + intros k Hk. apply (ap_before _ _ _ Happ). lia.
    + intros k Hk. destruct (decide (k = Z.to_nat (ni - 1))) as [->|Hne].
      * destruct (ap_prev _ _ _ Happ) as (e & He & Hte). rewrite Hp in He.
        exists e, prev. split_and!; [|done|congruence]. rewrite <- He. apply (ap_before _ _ _ Happ). lia.
      * destruct (lookup_lt_is_Some_2 (log ld) k) as [x Hx]; [lia|].
        destruct (ap_entries _ _ _ Happ (k - Z.to_nat ni)%nat x) as (x' & Hx' & Htx).
        { rewrite Hes, lookup_drop. rewrite <- Hx. f_equal. lia. }
        exists x', x. split_and!; [|done|done]. rewrite <- Hx'. f_equal. lia.
  - destruct (Hfail eq_refl) as [Hlog Hci].
    destruct (heartbeat_reply_fail _ _ _ _ _ _ args reply Hcr Hp ltac:(lia) Hs (Hh eq_refl ltac:(lia)))
      as (ni' & Hhr & Hni').
    destruct (heartbeat_reply_val _ _ _ _ _ _ _ (cr_ld _ _ _ _ _ _ Hcr) Hhr) as (Hld' & _).
    rewrite Hhr. simpl. eexists _, _, _. split; [reflexivity|]. split; [done|]. intros _. exists ni'.
    split_and!; [|lia|done|done]. destruct Hcr. constructor; simpl; try done; try lia.
    + rewrite Hlog, Hci. done.
    + rewrite list_lookup_insert_eq by (by eapply lookup_lt_Some). done.
Qed.


End Replication.
(** A leader of term 3 and a follower with two entries of term 2 in place of the leader's *)
Definition leader3 : Raft Z := server 0 3 0 Leader [4; 4; 4] (log_of [1; 1; 3]).
Definition follower2 : Raft Z := server 1 2 1 Follower [1; 1; 1] (log_of [1; 2; 2]).


End RaftReplication.
