(* ===== verification/RaftLogs.v ===== *)
(** * Log matching

    Two logs with an entry of the same term at the same index are equal up to that index.  The proof keeps
    a history variable: for every term that has had a leader, that leader and its log, which only grows
    while it leads.  Every log of the cluster, and every log a heartbeat in flight was cut from, is up to
    each of its entries a prefix of the log of the leader of that entry's term.

    raft.go relies on timing here too: [Start] reads the role and the term in one critical section and
    appends in another.  [orderly] is [timely] and the condition that the second finds the server still
    leading the term the first has read. *)

From stdpp Require Import base list gmap strings relations.
From Stdlib Require Import ZArith Lia.
From S2P Require Import Prelude RaftNode RaftCodec RaftInv RaftCluster RaftClusterInv RaftElection.
Import RaftNode RaftCodec RaftInv RaftCluster RaftClusterInv RaftElection.

Open Scope Z_scope.

Module RaftLogs.

Section Logs.
Context {Cmd : Type} `{Codec Cmd}.
Notation Raft := (Raft Cmd).
Notation Entry := (Entry Cmd).
Notation Cluster := (@Cluster Cmd).
Notation thread := (@thread Cmd).
Notation label := (@label Cmd).
Notation ledger := (gmap (nat * Z) (Z * list Entry)).

(** Leader and log of every term that has had one *)
Notation history := (gmap Z (nat * list Entry)).

(** [Start] appends while the server leads the term it has read. *)
Definition orderly (c : Cluster) (l : label) : bool :=
  timely c l &&
  match l with
  | LThread k _ =>
      match threads c !! k with
      | Some (TStart i ep term _) =>
          match nodes c !! i with
          | Some rf => bool_decide (state rf = Leader /\ currentTerm rf = term)
          | None => true
          end
      | _ => true
      end
  | _ => true
  end.

(** A step of an orderly execution *)
Definition ostep (c c' : Cluster) : Prop :=
  exists l, orderly c l = true /\ step c l = Val c' /\ small c' = true.

Lemma osteps_rtc ls c c' : run_while orderly c ls = Some c' -> rtc ostep c c'.
Proof. apply run_while_rtc. Qed.

(** ** Logs and histories *)

Definition agrees (G : history) (l : list Entry) : Prop :=
  forall k e, l !! S k = Some e -> exists i g, G !! Term e = Some (i, g) /\ take (S (S k)) l `prefix_of` g.

(** Nothing in [q] is of term [t] *)
Definition before (t : Z) (q : list Entry) : Prop := Forall (fun e => Term e <> t) q.

(** [l] is a log the leader of term [t] had while it led, [g] a later one: they differ by entries of
    term [t] only. *)
Definition led (t : Z) (l g : list Entry) : Prop :=
  l `prefix_of` g /\ forall q, q `prefix_of` g -> before t q -> q `prefix_of` l.

(** Histories grow. *)
Definition grows (G G' : history) : Prop :=
  forall t i g, G !! t = Some (i, g) -> exists g', G' !! t = Some (i, g') /\ led t g g'.

Lemma led_refl t l : led t l l.
Proof. split; auto. Qed.

Lemma led_trans t l1 l2 l3 : led t l1 l2 -> led t l2 l3 -> led t l1 l3.
Proof. intros [H1 H2] [H3 H4]. split; [by etransitivity|auto]. Qed.

Lemma led_snoc t l e : Term e = t -> led t l (l ++ [e]).
Proof.
  intros He. split; [by apply prefix_app_r|]. intros q [s Hs] Hq.
  destruct s as [|x s _] using rev_ind.
  - rewrite app_nil_r in Hs. subst q. apply Forall_app in Hq as [_ [Hq _]%Forall_cons_1]. done.
  - rewrite app_assoc in Hs. apply app_inj_tail in Hs as [-> _]. by apply prefix_app_r.
Qed.

#[export] Instance grows_refl : Reflexive grows.
Proof. intros G t i g Hg. exists g. split; [done|apply led_refl]. Qed.

#[export] Instance grows_trans : Transitive grows.
Proof.
  intros G1 G2 G3 H1 H2 t i g Hg. destruct (H1 _ _ _ Hg) as (g2 & Hg2 & L1).
  destruct (H2 _ _ _ Hg2) as (g3 & Hg3 & L2). exists g3. split; [done|by eapply led_trans].
Qed.

Lemma agrees_grows G G' l : grows G G' -> agrees G l -> agrees G' l.
Proof.
  intros HG Hl k e He. destruct (Hl k e He) as (i & g & Hg & Hp).
  destruct (HG _ _ _ Hg) as (g' & Hg' & [Hpre _]). exists i, g'. split; [done|by etransitivity].
Qed.

Lemma prefix_take_le (l : list Entry) k : take k l `prefix_of` l.
Proof. exists (drop k l). by rewrite take_drop. Qed.

Lemma prefix_same_length (l1 l2 g : list Entry) :
  l1 `prefix_of` g -> l2 `prefix_of` g -> length l1 = length l2 -> l1 = l2.
Proof.
  intros [s1 ->] [s2 E] Hlen. by apply app_inj_1 in E as [-> _].
Qed.

Lemma prefix_weak_total' (l1 l2 g : list Entry) :
  l1 `prefix_of` g -> l2 `prefix_of` g -> (length l1 <= length l2)%nat -> l1 `prefix_of` l2.
Proof.
  intros H1 H2 Hlen. destruct (prefix_weak_total _ _ _ H1 H2) as [?|Hp]; [done|].
  rewrite (prefix_same_length l1 l2 g); [done|done|done|]. apply prefix_length in Hp. lia.
Qed.

Lemma agrees_prefix G l l' : agrees G l -> l' `prefix_of` l -> agrees G l'.
Proof.
  intros Hl Hp k e He. destruct (Hl k e) as (i & g & Hg & Hpre); [by eapply prefix_lookup_Some|].
  exists i, g. split; [done|]. etransitivity; [|done]. destruct Hp as [s ->].
  apply lookup_lt_Some in He. rewrite take_app_le by lia. done.
Qed.

(** Two logs that agree with the history match. *)
Lemma agrees_match G l1 l2 k e1 e2 :
  log_ok l1 -> log_ok l2 -> agrees G l1 -> agrees G l2 ->
  l1 !! k = Some e1 -> l2 !! k = Some e2 -> Term e1 = Term e2 -> take (S k) l1 = take (S k) l2.
Proof.
  intros O1 O2 A1 A2 H1 H2 Ht. destruct k as [|k].
  - rewrite (log_sentinel _ O1) in H1. rewrite (log_sentinel _ O2) in H2. injection H1 as <-. injection H2 as <-.
    rewrite !(take_S_r _ _ sentinel), !take_0 by (by apply O1 || apply O2). done.
  - destruct (A1 _ _ H1) as (i & g & Hg & P1). destruct (A2 _ _ H2) as (i' & g' & Hg' & P2).
    rewrite Ht, Hg' in Hg. injection Hg as -> ->. eapply prefix_same_length; [done|done|].
    apply lookup_lt_Some in H1, H2. rewrite !length_take. lia.
Qed.

(** ** Accepting entries *)

(** A request cut from the log [L] *)
Record cut_from (L : list Entry) (args : AppendEntriesArgs Cmd) : Prop := {
  cf_prev : exists e, L !! Z.to_nat (PrevLogIndex args) = Some e /\ PrevLogTerm args = Term e;
  cf_entries : Entries args = drop (Z.to_nat (PrevLogIndex args + 1)) L }.

(** What an accepted request leaves of the log: the log as it was, which has all of [L], or [L], which
    keeps every part of the log that is a part of a longer version of [L]. *)
Record merged (l L l' : list Entry) : Prop := {
  mg_or : l' = l \/ l' = L;
  mg_has : L `prefix_of` l';
  mg_keeps : forall q g, q `prefix_of` l -> q `prefix_of` g -> L `prefix_of` g -> q `prefix_of` l' }.

Lemma append_loop_merged G l L args l' :
  log_ok l -> log_ok L -> agrees G l -> agrees G L -> append_args_ok args -> cut_from L args ->
  (exists e, l !! Z.to_nat (PrevLogIndex args) = Some e /\ Term e = PrevLogTerm args) ->
  append_loop l (Entries args) = Val l' -> merged l L l'.
Proof.
  intros Ol OL Al AL [Hp _ _ Hes] [(eL & HeL & HtL) Hcut] (e & He & Ht) Happ.
  set (p := Z.to_nat (PrevLogIndex args)) in *.
  assert (take (S p) l = take (S p) L) as Hpre by (eapply agrees_match; try done; congruence).
  pose proof (lookup_lt_Some _ _ _ He) as Hpl. pose proof (lookup_lt_Some _ _ _ HeL) as HpL.
  assert (Z.to_nat (PrevLogIndex args + 1) = S p) as Hs by lia.
  destruct (append_loop_spec (Entries args) l (PrevLogIndex args + 1) (aea_Term args))
    as (k & l1 & Hl1 & Hk & Hag & Hres); [unfold len; lia|intros j x Hj; apply (Hes _ _ Hj)|].
  rewrite Happ in Hl1. injection Hl1 as <-. rewrite Hs in *. rewrite Hcut in *. rewrite length_drop in *.
  assert (take (S p + k) l = take (S p + k) L) as Hagree.
  { destruct k as [|k]; [by rewrite Nat.add_0_r|].
    destruct (lookup_lt_is_Some_2 (drop (S p) L) k) as [x Hx]; [rewrite length_drop; lia|].
    destruct (Hag k x ltac:(lia) Hx) as (y & Hy & Hty). rewrite lookup_drop in Hx.
    rewrite Nat.add_succ_r. by eapply agrees_match. }
  destruct Hres as [[-> ->]|(Hk' & Hkl & Hcf & ->)].
  - replace (S p + (length L - S p))%nat with (length L) in Hagree by lia.
    rewrite (take_ge L) in Hagree by lia. split; [by left| |done].
    rewrite <- Hagree. apply prefix_take_le.
  - rewrite drop_drop, Hagree, take_drop. split; [by right|done|].
    intros q g Hq Hqg HLg. destruct (decide (length q <= length L)%nat) as [|Hlong].
    + by eapply prefix_weak_total'.
    + assert (L `prefix_of` q) as HLq by (eapply prefix_weak_total'; [done|done|lia]).
      destruct (lookup_lt_is_Some_2 (drop (S p) L) k) as [x Hx]; [rewrite length_drop; lia|].
      exfalso. apply (Hcf x x Hx); [|done]. rewrite lookup_drop in Hx.
      eapply prefix_lookup_Some; [|exact Hq]. by eapply prefix_lookup_Some.
Qed.

(** What [AppendEntries] does to log and commit index *)
Lemma AppendEntries_log n i (rf : Raft) args now rf' reply spawn :
  node_ok n i rf -> append_args_ok args -> AppendEntries rf args now = Val (rf', reply, spawn) ->
  (Success reply = false /\ log rf' = log rf /\ commitIndex rf' = commitIndex rf) \/
  (Success reply = true /\ currentTerm rf <= aea_Term args /\ prev_matches rf args /\
   append_loop (log rf) (Entries args) = Val (log rf') /\
   commitIndex rf' = if commitIndex rf <? LeaderCommit args
                     then Z.min (LeaderCommit args) (len (log rf') - 1) else commitIndex rf).
Proof.
  intros Hok Ha. unfold AppendEntries.
  destruct (Z.ltb_spec (aea_Term args) (currentTerm rf)) as [Hlt|Hge]; [intros [= <- <- <-]; by left|].
  destruct (append_check_spec n i rf args Hok Ha) as (rf1 & ok & xt & xi & -> & [_ _ _ _ _ _ Hc Hs Happ Hf]). simpl.
  set (rf2 := if currentTerm rf1 <? aea_Term args then _ else rf1).
  assert (log rf2 = log rf1 /\ commitIndex rf2 = commitIndex rf1) as [E1 E2]
    by (unfold rf2; by destruct (currentTerm rf1 <? aea_Term args)).
  intros (spawn' & _ & [= <- <- <-])%bind_val. simpl. rewrite E1, E2. destruct ok.
  - right. split_and!; [done|done|by apply Hs|by apply Happ|done].
  - left. destruct (Hf eq_refl) as [-> _]. done.
Qed.

(** ** The invariant *)

(** Server [i] was elected in term [t]. *)
Definition chosen (n : nat) (V : ledger) (i : nat) (t : Z) : Prop :=
  exists S, voters n V i t S /\ Z.quot (Z.of_nat n) 2 < Z.of_nat (size S).

Record hist_ok (n : nat) (V : ledger) (G : history) (ns : list Raft) (t : Z) (i : nat) (g : list Entry) : Prop := {
  ho_agrees : agrees G g;
  ho_log : log_ok g;
  ho_terms : terms_le t g;
  ho_reached : reached ns i t;
  ho_chosen : chosen n V i t }.

(** A heartbeat in flight was cut from a log its sender had while leading the request's term. *)
Definition sent_ok (G : history) (t : thread) : Prop :=
  match t with
  | TBeat i _ _ (HSent args) | TBeat i _ _ (HReplied args _) =>
      exists g L, G !! aea_Term args = Some (i, g) /\ led (aea_Term args) L g /\ cut_from L args
  | _ => True
  end.

(** A candidate has not led its term, unless it is about to start another. *)
Definition new_candidate (G : history) (i : nat) (rf : Raft) (p : pc) : Prop :=
  state rf = Candidate -> (exists b, p = PElect b) \/ forall g, G !! currentTerm rf <> Some (i, g).

Record logs_ok (n : nat) (V : ledger) (G : history) (c : Cluster) : Prop := {
  lo_el : election_ok n V c;
  lo_hist : forall t i g, G !! t = Some (i, g) -> hist_ok n V G (nodes c) t i g;
  lo_log : forall i rf, nodes c !! i = Some rf -> agrees G (log rf);
  lo_leader : forall i rf, nodes c !! i = Some rf -> state rf = Leader -> G !! currentTerm rf = Some (i, log rf);
  lo_cand : forall i rf p, nodes c !! i = Some rf -> pcs c !! i = Some p -> new_candidate G i rf p;
  lo_sent : Forall (sent_ok G) (threads c) }.

Lemma chosen_mono n V V' i t : V ⊆ V' -> chosen n V i t -> chosen n V' i t.
Proof. intros HV (S & HS & Hm). exists S. split; [by eapply voters_mono|done]. Qed.

(** Election safety, once more: the votes of a term choose one server. *)
Lemma chosen_unique n V i j t : chosen n V i t -> chosen n V j t -> i = j.
Proof.
  intros (S1 & Hv1 & Hm1) (S2 & Hv2 & Hm2).
  destruct (majorities_meet n S1 S2) as (v & Hin1 & Hin2); [apply Hv1|apply Hv2|done|done|].
  destruct (Hv1 v Hin1) as (_ & l1 & E1). destruct (Hv2 v Hin2) as (_ & l2 & E2).
  rewrite E1 in E2. injection E2 as E _. lia.
Qed.

Lemma sent_ok_grows G G' t : grows G G' -> sent_ok G t -> sent_ok G' t.
Proof.
  intros HG. destruct t as [|i ep j [|args|args reply]| | | |]; simpl; try done;
    intros (g & L & Hg & HL & Hc); destruct (HG _ _ _ Hg) as (g' & Hg' & Hl); exists g', L;
    (split_and!; [done|by eapply led_trans|done]).
Qed.

Lemma hist_ok_mono n V V' G G' ns ns' t i g :
  V ⊆ V' -> grows G G' -> (reached ns i t -> reached ns' i t) -> hist_ok n V G ns t i g -> hist_ok n V' G' ns' t i g.
Proof.
  intros HV HG Hr []. constructor; [by eapply agrees_grows|done|done|auto|by eapply chosen_mono].
Qed.

Lemma reached_raise (ns : list Raft) i (rf rf' : Raft) j t :
  ns !! i = Some rf -> currentTerm rf <= currentTerm rf' -> reached ns j t -> reached (<[i := rf']> ns) j t.
Proof.
  intros Hi Hle (r & Hr & Ht). destruct (decide (i = j)) as [->|Hne].
  - exists rf'. rewrite list_lookup_insert_eq by (by eapply lookup_lt_Some). split; [done|].
    rewrite Hi in Hr. injection Hr as <-. lia.
  - exists r. by rewrite list_lookup_insert_ne by done.
Qed.

(** Server [i] moves, and with it the history of the terms it leads. *)
Lemma logs_step n V V' G G' c c' i rf rf' :
  logs_ok n V G c -> V ⊆ V' -> election_ok n V' c' ->
  nodes c !! i = Some rf -> nodes c' = <[i := rf']> (nodes c) -> currentTerm rf <= currentTerm rf' ->
  (forall j, j <> i -> pcs c' !! j = pcs c !! j) ->
  grows G G' -> (forall t j g, j <> i -> G' !! t = Some (j, g) -> G !! t = Some (j, g)) ->
  (forall t g, G' !! t = Some (i, g) -> G !! t = Some (i, g) \/ hist_ok n V' G' (nodes c') t i g) ->
  agrees G' (log rf') -> (state rf' = Leader -> G' !! currentTerm rf' = Some (i, log rf')) ->
  (forall p, pcs c' !! i = Some p -> new_candidate G' i rf' p) ->
  Forall (sent_ok G') (threads c') -> logs_ok n V' G' c'.
Proof.
  intros [He Hh Hl Hld Hcd Hs] HV He' Hi Hns Ht Hpcs HG Hoth Hme Hlog' Hld' Hcd' Hs'.
  constructor; try done; rewrite ?Hns in *.
  - intros t j g Hg.
    assert (G !! t = Some (j, g) -> hist_ok n V' G' (<[i := rf']> (nodes c)) t j g) as Hold.
    { intros Hg0. eapply hist_ok_mono; [done|done| |by apply Hh]. by eapply reached_raise. }
    destruct (decide (j = i)) as [->|Hne]; [destruct (Hme t g Hg); auto|auto].
  - intros j r [(<- & -> & _)|[_ Hj]]%list_lookup_insert_Some; [done|]. eapply agrees_grows; [done|eauto].
  - intros j r [(<- & -> & _)|[Hne Hj]]%list_lookup_insert_Some Hst; [by apply Hld'|].
    destruct (HG _ _ _ (Hld _ _ Hj Hst)) as (g' & Hg' & _).
    rewrite Hg'. apply (Hoth _ j) in Hg' as Hg; [|done]. rewrite (Hld _ _ Hj Hst) in Hg. congruence.
  - intros j r p [(<- & -> & _)|[Hne Hj]]%list_lookup_insert_Some Hp; [by apply Hcd'|].
    rewrite Hpcs in Hp by done. intros Hst. destruct (Hcd _ _ _ Hj Hp Hst) as [?|Hno]; [by left|right].
    intros g Hg. apply (Hno g). by apply (Hoth _ j).
Qed.

(** The role of a server may end, with or without a new term. *)
Record calm (rf rf' : Raft) : Prop := {
  cl_term : currentTerm rf <= currentTerm rf';
  cl_state : state rf' = Follower \/ (state rf' = state rf /\ currentTerm rf' = currentTerm rf) }.

Lemma passive_calm rf rf' : passive rf rf' -> calm rf rf'.
Proof.
  intros [Ha%advance_term _ Hnew Hsame]. split; [done|].
  destruct (decide (currentTerm rf' = currentTerm rf)) as [E|]; [right; auto|left; apply Hnew; lia].
Qed.

(** Where the loop of server [i] was when it was not about to start an election *)
Definition loop_stays (p p' : option pc) : Prop := p' = p \/ forall b, p <> Some (PElect b).

Lemma logs_calm n V V' G c c' i rf rf' :
  logs_ok n V G c -> V ⊆ V' -> election_ok n V' c' ->
  nodes c !! i = Some rf -> nodes c' = <[i := rf']> (nodes c) -> calm rf rf' ->
  (forall j, j <> i -> pcs c' !! j = pcs c !! j) ->
  (state rf' = Candidate -> loop_stays (pcs c !! i) (pcs c' !! i)) ->
  log rf' = log rf \/ (state rf' <> Leader /\ agrees G (log rf')) ->
  Forall (sent_ok G) (threads c') -> logs_ok n V' G c'.
Proof.
  intros Hlo HV He' Hi Hns [Ht Hst] Hpcs Hp Hlog Hs.
  eapply (logs_step n V V' G G c c' i rf rf'); try done; [by auto|..].
  - destruct Hlog as [->|[_ ?]]; [by apply (lo_log _ _ _ _ Hlo _ _ Hi)|done].
  - intros E. destruct Hst as [?|[E1 ->]]; [congruence|]. destruct Hlog as [->|[? _]]; [|done].
    apply (lo_leader _ _ _ _ Hlo _ _ Hi). congruence.
  - intros p' Hp' E. destruct Hst as [?|[E1 E2]]; [congruence|]. rewrite E2.
    destruct (lookup_lt_is_Some_2 (pcs c) i) as [p Hpc].
    { rewrite (co_pcs _ _ (eo_ok _ _ _ (lo_el _ _ _ _ Hlo))), <- (co_nodes _ _ (eo_ok _ _ _ (lo_el _ _ _ _ Hlo))).
      by eapply lookup_lt_Some. }
    pose proof (lo_cand _ _ _ _ Hlo _ _ _ Hi Hpc) as Hc. destruct Hc as [[b ->]|Hno]; [congruence| |by right].
    destruct (Hp E) as [E'|Hn]; [|by destruct (Hn b)]. left. exists b. congruence.
Qed.

(** Only goroutines move. *)
Lemma logs_silent n V V' G c c' :
  logs_ok n V G c -> V ⊆ V' -> election_ok n V' c' -> nodes c' = nodes c -> pcs c' = pcs c ->
  Forall (sent_ok G) (threads c') -> logs_ok n V' G c'.
Proof.
  intros [He Hh Hl Hld Hcd Hs] HV He' Hns Hpcs Hs'. constructor; rewrite ?Hns, ?Hpcs; try done.
  intros t i g Hg. eapply hist_ok_mono; [done|done|done|by apply Hh].
Qed.

(** ** Steps *)

Lemma leader_chosen n V c i rf :
  election_ok n V c -> nodes c !! i = Some rf -> state rf = Leader -> chosen n V i (currentTerm rf).
Proof. intros He Hi Hs. eapply leader_majority; [done|]. by exists rf. Qed.

(** A candidate that wins opens the history of its term with its log. *)
Lemma logs_win n V V' G c c' i rf rf' :
  logs_ok n V G c -> V ⊆ V' -> election_ok n V' c' ->
  nodes c !! i = Some rf -> nodes c' = <[i := rf']> (nodes c) -> pcs c !! i = Some PVotes ->
  state rf = Candidate -> state rf' = Leader -> currentTerm rf' = currentTerm rf -> log rf' = log rf ->
  (forall j, j <> i -> pcs c' !! j = pcs c !! j) -> threads c' = threads c ->
  G !! currentTerm rf = None /\ logs_ok n V' (<[currentTerm rf := (i, log rf)]> G) c'.
Proof.
  intros Hlo HV He' Hi Hns Hp Hc Hl Ht Hlog Hpcs Hts.
  pose proof (co_node _ _ (eo_ok _ _ _ (lo_el _ _ _ _ Hlo)) _ _ Hi) as Hn.
  assert (nodes c' !! i = Some rf') as Hi'
    by (rewrite Hns; apply list_lookup_insert_eq; by eapply lookup_lt_Some).
  pose proof (leader_chosen _ _ _ _ _ He' Hi' Hl) as Hch. rewrite Ht in Hch.
  assert (G !! currentTerm rf = None) as Hnew.
  { destruct (G !! currentTerm rf) as [[j g]|] eqn:Hg; [|done].
    pose proof (ho_chosen _ _ _ _ _ _ _ (lo_hist _ _ _ _ Hlo _ _ _ Hg)) as Hj.
    rewrite (chosen_unique n V' j i (currentTerm rf)) in Hg; [|by eapply chosen_mono|done].
    destruct (lo_cand _ _ _ _ Hlo _ _ _ Hi Hp Hc) as [[b ?]|Hno]; [done|]. by destruct (Hno g). }
  split; [done|].
  assert (grows G (<[currentTerm rf := (i, log rf)]> G)) as HG.
  { intros t j g Hg. exists g. split; [|apply led_refl]. rewrite lookup_insert_ne by congruence. done. }
  assert (agrees (<[currentTerm rf := (i, log rf)]> G) (log rf)) as Hag
    by (eapply agrees_grows; [done|by apply (lo_log _ _ _ _ Hlo _ _ Hi)]).
  eapply (logs_step n V V' G _ c c' i rf rf'); try done.
  - lia.
  - intros t j g Hne [[_ ?]|[_ ?]]%lookup_insert_Some; [congruence|done].
  - intros t g [[<- [= <-]]|[_ ?]]%lookup_insert_Some; [right|by left]. constructor; try done.
    + apply Hn.
    + apply Hn.
    + exists rf'. split; [done|]. rewrite Ht. pose proof (no_leader _ _ _ (co_node _ _ (eo_ok _ _ _ He') _ _ Hi') Hl). lia.
  - by rewrite Hlog.
  - intros _. by rewrite Ht, lookup_insert_eq, Hlog.
  - intros p Hp' E. congruence.
  - rewrite Hts. eapply Forall_impl; [apply Hlo|]. intros. by eapply sent_ok_grows.
Qed.

(** A leader appends an entry of its term, to its log and to the history. *)
Lemma logs_append n V V' G c c' i rf rf' e :
  logs_ok n V G c -> V ⊆ V' -> election_ok n V' c' ->
  nodes c !! i = Some rf -> nodes c' = <[i := rf']> (nodes c) -> passive rf rf' ->
  state rf = Leader -> Term e = currentTerm rf -> log rf' = log rf ++ [e] -> currentTerm rf' = currentTerm rf ->
  pcs c' = pcs c -> Forall (sent_ok G) (threads c') ->
  logs_ok n V' (<[currentTerm rf := (i, log rf ++ [e])]> G) c'.
Proof.
  intros Hlo HV He' Hi Hns Hpas Hs Hte Hlog Ht Hpcs Hts.
  pose proof (lo_leader _ _ _ _ Hlo _ _ Hi Hs) as Hg0.
  assert (nodes c' !! i = Some rf') as Hi'
    by (rewrite Hns; apply list_lookup_insert_eq; by eapply lookup_lt_Some).
  pose proof (co_node _ _ (eo_ok _ _ _ He') _ _ Hi') as Hn'.
  assert (state rf' = Leader) as Hs' by (rewrite (pv_same _ _ Hpas); done).
  set (G' := <[_ := _]> G).
  assert (grows G G') as HG.
  { intros t j g Hg. destruct (decide (t = currentTerm rf)) as [->|Hne].
    - rewrite Hg0 in Hg. injection Hg as <- <-. eexists. split; [apply lookup_insert_eq|by apply led_snoc].
    - exists g. unfold G'. split; [by rewrite lookup_insert_ne|apply led_refl]. }
  assert (agrees G' (log rf ++ [e])) as Hag.
  { intros k x [Hk|[Hk Hx]]%lookup_app_Some.
    - rewrite take_app_le by (apply lookup_lt_Some in Hk; lia).
      eapply agrees_grows; [done|by apply (lo_log _ _ _ _ Hlo _ _ Hi)|done].
    - apply list_lookup_singleton_Some in Hx as [Hx <-]. exists i, (log rf ++ [e]).
      split; [unfold G'; rewrite Hte; apply lookup_insert_eq|apply prefix_take_le]. }
  eapply (logs_step n V V' G G' c c' i rf rf'); try done.
  - lia.
  - intros. by rewrite Hpcs.
  - intros t j g Hne [[_ ?]|[_ ?]]%lookup_insert_Some; [congruence|done].
  - intros t g [[<- [= <-]]|[_ ?]]%lookup_insert_Some; [right|by left]. rewrite <- Ht, <- Hlog. constructor.
    + by rewrite Hlog.
    + apply Hn'.
    + apply Hn'.
    + exists rf'. split; [done|]. pose proof (no_leader _ _ _ Hn' Hs'). lia.
    + by eapply leader_chosen.
  - by rewrite Hlog.
  - intros _. unfold G'. by rewrite Ht, lookup_insert_eq, Hlog.
  - intros p Hp' E. congruence.
  - eapply Forall_impl; [done|]. intros. by eapply sent_ok_grows.
Qed.

(** A server that accepts entries does not lead, and its log is the one it had or the leader's. *)
Lemma logs_accept n V G c k i ep j args (rf : Raft) now rf' reply spawn :
  logs_ok n V G c -> threads c !! k = Some (TBeat i ep j (HSent args)) -> nodes c !! j = Some rf ->
  AppendEntries rf args now = Val (rf', reply, spawn) ->
  (Success reply = false /\ log rf' = log rf /\ commitIndex rf' = commitIndex rf) \/
  (Success reply = true /\ state rf' <> Leader /\ currentTerm rf' = aea_Term args /\
   exists g L, G !! aea_Term args = Some (i, g) /\ led (aea_Term args) L g /\ cut_from L args /\
     log_ok L /\ merged (log rf) L (log rf') /\ agrees G (log rf') /\
   commitIndex rf' = if commitIndex rf <? LeaderCommit args
                     then Z.min (LeaderCommit args) (len (log rf') - 1) else commitIndex rf).
Proof.
  intros Hlo Hk Hj Hae. pose proof (lo_el _ _ _ _ Hlo) as He. pose proof (eo_ok _ _ _ He) as Hok.
  pose proof (co_node _ _ Hok _ _ Hj) as Hn. destruct (co_thread _ _ Hok _ _ Hk) as (_ & _ & Hji & Ha). simpl in Ha.
  destruct (AppendEntries_val _ _ _ _ _ _ _ _ Hn Ha Hae) as (_ & Hpas & Ht & _).
  destruct (AppendEntries_log _ _ _ _ _ _ _ _ Hn Ha Hae) as [?|(Hsu & Hle & Hpm & Happ & Hci)]; [by left|right].
  pose proof (lo_sent _ _ _ _ Hlo) as Hs. eapply Forall_lookup_1 in Hs; [|exact Hk].
  destruct Hs as (g & L & Hg & HL & Hcut).
  pose proof (lo_hist _ _ _ _ Hlo _ _ _ Hg) as [Hga Hgl Hgt _ Hgc].
  unfold append_term in Ht. rewrite Z.max_r in Ht by done.
  assert (log_ok L) as HLok.
  { destruct HL as [[s Hs] _]. destruct (cf_prev _ _ Hcut) as (x & Hx%lookup_lt_Some & _).
    replace L with (take (length L) g) by (by rewrite Hs, take_app_length).
    apply log_ok_take; [done|lia]. }
  assert (agrees G L) as HLa by (eapply agrees_prefix; [exact Hga|apply HL]).
  assert (merged (log rf) L (log rf')) as Hm.
  { eapply append_loop_merged; try done; [apply Hn|by apply (lo_log _ _ _ _ Hlo _ _ Hj)]. }
  split; [done|]. split; [|split; [done|]].
  - intros Hld. destruct (decide (currentTerm rf = currentTerm rf')) as [E|Hne].
    + rewrite (pv_same _ _ Hpas E) in Hld. pose proof (leader_chosen _ _ _ _ _ He Hj Hld) as Hc.
      rewrite E, Ht in Hc. apply Hji. by eapply chosen_unique.
    + rewrite (pv_newer _ _ Hpas) in Hld; [done|lia].
  - exists g, L. split_and!; try done.
    destruct (mg_or _ _ _ Hm) as [->| ->]; [by apply (lo_log _ _ _ _ Hlo _ _ Hj)|done].
Qed.

(** The request for a vote a goroutine has sent *)
Definition vote_request (t : thread) : option (nat * Z * RequestVoteArgs) :=
  match t with
  | TVote i _ _ u (VSent args) | TVote i _ _ u (VReplied args _) => Some (i, u, args)
  | _ => None
  end.

(** A new request is made from the log the server has in the term of the election. *)
Definition new_requests (c c' : Cluster) : Prop :=
  forall t i u args, t ∈ threads c' -> vote_request t = Some (i, u, args) ->
    (exists t0, t0 ∈ threads c /\ vote_request t0 = Some (i, u, args)) \/
    (exists rf, nodes c !! i = Some rf /\ nodes c' = nodes c /\ currentTerm rf = u /\ vote_args rf = Val args).

(** An acknowledgement on its way: leader, follower, and the request that was accepted *)
Definition success_of (t : thread) : option (nat * nat * AppendEntriesArgs Cmd) :=
  match t with
  | TBeat i _ j (HReplied args reply) => if Success reply then Some (i, j, args) else None
  | _ => None
  end.

Definition same_successes (c c' : Cluster) : Prop :=
  forall t x, t ∈ threads c' -> success_of t = Some x -> exists t0, t0 ∈ threads c /\ success_of t0 = Some x.

(** Neither a new request for a vote nor a new acknowledgement *)
Definition quiet_threads (c c' : Cluster) : Prop := new_requests c c' /\ same_successes c c'.

(** What a step does to logs and history *)
Inductive log_event (n : nat) (V : ledger) (G : history) (c c' : Cluster) : history -> Prop :=
  | le_none : nodes c' = nodes c -> same_successes c c' -> log_event n V G c c' G
  | le_same i rf rf' :
      nodes c !! i = Some rf -> nodes c' = <[i := rf']> (nodes c) -> currentTerm rf <= currentTerm rf' ->
      (state rf' = Leader -> state rf = Leader /\ currentTerm rf' = currentTerm rf) -> log rf' = log rf ->
      same_successes c c' -> log_event n V G c c' G
  | le_win i rf rf' :
      nodes c !! i = Some rf -> nodes c' = <[i := rf']> (nodes c) ->
      state rf = Candidate -> state rf' = Leader -> currentTerm rf' = currentTerm rf -> log rf' = log rf ->
      G !! currentTerm rf = None -> chosen n V i (currentTerm rf) -> same_successes c c' ->
      log_event n V G c c' (<[currentTerm rf := (i, log rf)]> G)
  | le_append i rf rf' e :
      nodes c !! i = Some rf -> nodes c' = <[i := rf']> (nodes c) ->
      state rf = Leader -> state rf' = Leader -> currentTerm rf' = currentTerm rf -> log rf' = log rf ++ [e] ->
      Term e = currentTerm rf -> same_successes c c' -> log_event n V G c c' (<[currentTerm rf := (i, log rf ++ [e])]> G)
  | le_accept i j rf rf' args u g L :
      nodes c !! j = Some rf -> nodes c' = <[j := rf']> (nodes c) ->
      state rf' <> Leader -> currentTerm rf <= u -> currentTerm rf' = u -> G !! u = Some (i, g) -> led u L g ->
      merged (log rf) L (log rf') -> aea_Term args = u -> cut_from L args ->
      (forall t x, t ∈ threads c' -> success_of t = Some x ->
         (exists t0, t0 ∈ threads c /\ success_of t0 = Some x) \/ x = (i, j, args)) ->
      log_event n V G c c' G.

Definition logs_next (n : nat) (V : ledger) (G : history) (c c' : Cluster) : Prop :=
  exists V' G', V ⊆ V' /\ fresh_votes V V' c' /\ logs_ok n V' G' c' /\ log_event n V G c c' G' /\ new_requests c c'.

Lemma log_event_grows n V G c c' G' :
  logs_ok n V G c -> log_event n V G c c' G' -> grows G G'.
Proof.
  intros Hlo [| |i rf rf' Hi _ _ _ _ _ Hnone _|i rf rf' e Hi _ Hs _ _ _ He|]; try done; intros t j g Hg.
  - exists g. split; [by rewrite lookup_insert_ne by congruence|apply led_refl].
  - destruct (decide (t = currentTerm rf)) as [->|Hne].
    + rewrite (lo_leader _ _ _ _ Hlo _ _ Hi Hs) in Hg. injection Hg as <- <-.
      eexists. split; [apply lookup_insert_eq|by apply led_snoc].
    + exists g. split; [by rewrite lookup_insert_ne|apply led_refl].
Qed.

(** Goroutines that carry neither *)
Definition plain (t : thread) : Prop := vote_request t = None /\ success_of t = None.

Lemma no_requests c c' ts : threads c' = threads c ++ ts -> Forall plain ts -> quiet_threads c c'.
Proof.
  unfold quiet_threads, new_requests, same_successes. intros -> Hts. rewrite Forall_forall in Hts. split.
  - intros t i u args [Ht|[E _]%Hts]%elem_of_app Hr; [left; eauto|congruence].
  - intros t x [Ht|[_ E]%Hts]%elem_of_app Hr; [eauto|congruence].
Qed.

Lemma nothing_new c c' : threads c' = threads c -> quiet_threads c c'.
Proof. intros E. apply (no_requests _ _ []); [by rewrite app_nil_r|done]. Qed.

(** Goroutine [k] goes on to [t], and others may be started. *)
Lemma same_requests c c' k t0 t ts :
  threads c !! k = Some t0 -> threads c' = <[k := t]> (threads c) ++ ts ->
  plain t \/ (vote_request t = vote_request t0 /\ success_of t = None) -> Forall plain ts ->
  quiet_threads c c'.
Proof.
  unfold quiet_threads, new_requests, same_successes. intros Hk -> Ht Hts. rewrite Forall_forall in Hts.
  assert (forall t', t' ∈ <[k := t]> (threads c) -> t' = t \/ t' ∈ threads c) as Hin.
  { intros t' (k' & [(<- & -> & _)|[_ Hk']]%list_lookup_insert_Some)%list_elem_of_lookup; [by left|right].
    by eapply list_elem_of_lookup_2. }
  split.
  - intros t' i u args [[->|?]%Hin|[E _]%Hts]%elem_of_app Hr; [|left; eauto|congruence].
    left. exists t0. split; [by eapply list_elem_of_lookup_2|]. destruct Ht as [[E _]|[E _]]; congruence.
  - intros t' x [[->|?]%Hin|[_ E]%Hts]%elem_of_app Hr; [|eauto|congruence]. destruct Ht as [[_ E]|[_ E]]; congruence.
Qed.

(** Goroutine [k] goes on to the acknowledgement [t]. *)
Lemma thread_requests c c' k t ts :
  threads c' = <[k := t]> (threads c) ++ ts -> Forall plain ts -> vote_request t = None -> new_requests c c'.
Proof.
  intros E Hts Ht t' i u args Hin Hr. rewrite Forall_forall in Hts. rewrite E in Hin. left. exists t'. split; [|done].
  apply elem_of_app in Hin as [(k' & [(_ & -> & _)|[_ ?]]%list_lookup_insert_Some)%list_elem_of_lookup|[? _]%Hts];
    [congruence|by eapply list_elem_of_lookup_2|congruence].
Qed.

Lemma thread_successes c c' k t ts y :
  threads c' = <[k := t]> (threads c) ++ ts -> Forall plain ts -> success_of t = Some y ->
  forall t' x, t' ∈ threads c' -> success_of t' = Some x ->
    (exists t0, t0 ∈ threads c /\ success_of t0 = Some x) \/ x = y.
Proof.
  intros E Hts Ht t' x Hin Hr. rewrite Forall_forall in Hts. rewrite E in Hin.
  apply elem_of_app in Hin as [(k' & [(_ & -> & _)|[_ ?]]%list_lookup_insert_Some)%list_elem_of_lookup|[_ ?]%Hts];
    [right; congruence| |congruence]. left. exists t'. split; [by eapply list_elem_of_lookup_2|done].
Qed.

Lemma next_calm n V G c c' i rf rf' :
  logs_ok n V G c -> election_next n V c' ->
  nodes c !! i = Some rf -> nodes c' = <[i := rf']> (nodes c) -> calm rf rf' -> log rf' = log rf ->
  (forall j, j <> i -> pcs c' !! j = pcs c !! j) ->
  (state rf' = Candidate -> loop_stays (pcs c !! i) (pcs c' !! i)) ->
  Forall (sent_ok G) (threads c') -> quiet_threads c c' -> logs_next n V G c c'.
Proof.
  intros Hlo (V' & HV & Hf & He') Hi Hns Hc Hl Hpcs Hp Hs [Hr Hr']. exists V', G. split_and!; try done.
  - by eapply logs_calm; eauto.
  - destruct Hc as [Hct Hcs]. eapply le_same; eauto. intros E. destruct Hcs as [?|[? ?]]; [congruence|]. split; congruence.
Qed.

Lemma next_silent n V G c c' :
  logs_ok n V G c -> election_next n V c' -> nodes c' = nodes c -> pcs c' = pcs c ->
  Forall (sent_ok G) (threads c') -> quiet_threads c c' -> logs_next n V G c c'.
Proof.
  intros Hlo (V' & HV & Hf & He') Hns Hp Hs [Hr Hr']. exists V', G. split_and!; try done.
  - by eapply logs_silent.
  - by apply le_none.
Qed.

(** The loop of server [i] moves on, when not about to start an election. *)
Lemma next_goto n V G c c' i p' :
  logs_ok n V G c -> election_next n V c' -> is_Some (nodes c !! i) ->
  nodes c' = nodes c -> pcs c' = <[i := p']> (pcs c) -> (forall b, pcs c !! i <> Some (PElect b)) ->
  Forall (sent_ok G) (threads c') -> quiet_threads c c' -> logs_next n V G c c'.
Proof.
  intros Hlo He' [rf Hi] Hns Hp Hnp Hs Hr. eapply (next_calm n V G c c' i rf rf); try done.
  - by rewrite list_insert_id.
  - split; [done|by right].
  - intros j Hj. rewrite Hp. by rewrite list_lookup_insert_ne.
  - by right.
Qed.

(** Server [i] starts an election. *)
Lemma elect_logs n V G c i rf cand ep now :
  logs_ok n V G c -> nodes c !! i = Some rf -> pcs c !! i = Some (PElect cand) -> epochs c !! i = Some ep ->
  let c' := set_pc i (PAsk cand 0) (set_node i (begin_election rf now) c) in
  election_next n V c' -> logs_next n V G c c'.
Proof.
  intros Hlo Hi Hp Hep c' Hel. pose proof (lo_el _ _ _ _ Hlo) as He. pose proof (co_node _ _ (eo_ok _ _ _ He) _ _ Hi) as Hn.
  pose proof (eo_run _ _ _ He _ _ _ _ Hi Hp Hep) as Hrun.
  assert (currentTerm rf < max_int) as Hm by (by eapply Forall_lookup_1 in Hi; [|apply He]).
  destruct (begin_election_ok _ _ _ now Hn Hm) as (_ & _ & Ht). simpl in Hrun.
  destruct Hel as (V' & HV & Hf & He'). exists V', G.
  split_and!; [done|done| |eapply (le_same _ _ _ _ _ i rf (begin_election rf now)); simpl in *; try done; [lia|by apply nothing_new]
              |by apply nothing_new].
  eapply (logs_step n V V' G G c _ i rf (begin_election rf now)); try done.
  - lia.
  - intros j Hj. simpl. by rewrite list_lookup_insert_ne.
  - by auto.
  - by apply (lo_log _ _ _ _ Hlo _ _ Hi).
  - intros p _ _. right. intros g Hg.
    destruct (ho_reached _ _ _ _ _ _ _ (lo_hist _ _ _ _ Hlo _ _ _ Hg)) as (r & Hr & Hle).
    rewrite Hi in Hr. injection Hr as <-. lia.
  - by apply (lo_sent _ _ _ _ Hlo).
Qed.

(** Server [i] counts its votes. *)
Lemma votes_logs n V G c i rf ep :
  logs_ok n V G c -> nodes c !! i = Some rf -> pcs c !! i = Some PVotes -> epochs c !! i = Some ep ->
  state rf = Candidate \/ state rf = state (candidate_check rf) ->
  let c' := set_pc i PTop (set_node i (candidate_check rf) c) in
  election_next n V c' -> logs_next n V G c c'.
Proof.
  intros Hlo Hi Hp Hep Htl. pose proof (lo_el _ _ _ _ Hlo) as He. pose proof (lo_sent _ _ _ _ Hlo) as Hs.
  pose proof (eo_run _ _ _ He _ _ _ _ Hi Hp Hep) as Hrun.
  pose proof (candidate_wins _ _ _ _ _ _ He Hi Hp Hep Htl) as [_ Hwon].
  destruct Hrun as [Hnl _]. unfold candidate_check in *.
  destruct (Z.ltb_spec (Z.quot (Z.of_nat (npeers rf)) 2) (voteCount rf)) as [_|_]; intros Hel.
  2: { eapply (next_goto n V G c _ i PTop); try done; [by simpl; rewrite list_insert_id| |].
       - intros b. by rewrite Hp.
       - by apply nothing_new. }
  assert (state rf = Candidate) as Hc by (destruct Htl as [?|E]; [done|simpl in E; congruence]).
  destruct Hel as (V' & HV & Hf & He').
  destruct (logs_win n V V' G c _ i rf (convertTo Leader rf) Hlo HV He') as [Hnone Hlo']; try done.
  { intros j Hj. simpl. by rewrite list_lookup_insert_ne. }
  eexists V', _. split_and!; [done|done|exact Hlo'|eapply le_win; try done; [by apply Hwon|by apply nothing_new]|by apply nothing_new].
Qed.

Lemma run_logs n V G c i rf p ep now c' :
  logs_ok n V G c -> nodes c !! i = Some rf -> pcs c !! i = Some p -> epochs c !! i = Some ep ->
  timely c (LRun i now) = true -> election_next n V c' ->
  run_step c i rf p ep now = Val c' -> logs_next n V G c c'.
Proof.
  intros Hlo Hi Hp Hep Htl Hel Hstep.
  pose proof (lo_el _ _ _ _ Hlo) as He. pose proof (co_node _ _ (eo_ok _ _ _ He) _ _ Hi) as Hn.
  pose proof (eo_run _ _ _ He _ _ _ _ Hi Hp Hep) as Hrun. pose proof (lo_sent _ _ _ _ Hlo) as Hs.
  simpl in Htl. rewrite Hi, Hp in Htl.
  assert (forall q ts, c' = set_pc i q (add_threads ts c) -> (forall b, p <> PElect b) ->
            Forall (sent_ok G) ts -> Forall plain ts -> logs_next n V G c c') as Hgoto.
  { intros q ts -> Hnp Hts Hts'. eapply (next_goto n V G c _ i q); try done.
    - intros b. rewrite Hp. intros [= E]. by apply (Hnp b).
    - by apply Forall_app.
    - by eapply no_requests. }
  assert (forall q, c' = set_pc i q c -> (forall b, p <> PElect b) -> logs_next n V G c c') as Hgoto0.
  { intros q -> Hnp. apply (Hgoto q []); [by rewrite add_no_threads|done..]. }
  destruct p as [| | | | | |cand|cand j|]; unfold run_step in Hstep.
  - destruct (killed rf); [injection Hstep as <-; by eapply Hgoto0|].
    destruct (state rf); injection Hstep as <-; [by eapply Hgoto0..|].
    eapply Hgoto; [done|done|apply Forall_fmap, Forall_true; by intros..].
  - injection Hstep as <-. eapply next_silent; try done. by apply nothing_new.
  - apply bind_val in Hstep as ([rf' spawn] & Hac & [= <-]).
    destruct (advance_commit_val _ _ _ _ _ Hn Hac) as (_ & Hpas & Hl).
    eapply (next_calm n V G c _ i rf rf'); try done; [by destruct spawn|by apply passive_calm|..].
    + intros j Hj. destruct spawn; simpl; by rewrite list_lookup_insert_ne.
    + intros _. right. intros b. by rewrite Hp.
    + destruct spawn; simpl; [|done]. apply Forall_app. split; [done|]. by apply Forall_singleton.
    + destruct spawn; simpl; [eapply (no_requests _ _ [_])|eapply (no_requests _ _ [])]; simpl; try done;
        [by repeat constructor|by rewrite app_nil_r].
  - destruct (isElectionTimeout rf now); injection Hstep as <-; by eapply Hgoto0.
  - injection Hstep as <-. destruct Hel as (V' & HV & Hf & He'). exists V', G.
    split_and!; [done|done| |eapply (le_same _ _ _ _ _ i rf (convertTo Candidate rf)); try done; by apply nothing_new|by apply nothing_new].
    eapply (logs_step n V V' G G c _ i rf (convertTo Candidate rf)); try done.
    + intros j Hj. simpl. by rewrite list_lookup_insert_ne.
    + by auto.
    + by apply (lo_log _ _ _ _ Hlo _ _ Hi).
    + intros p [(_ & <- & _)|[? _]]%list_lookup_insert_Some E; [|done]. left. by exists false.
  - destruct (isElectionTimeout rf now); injection Hstep as <-; by eapply Hgoto0.
  - injection Hstep as <-. by eapply elect_logs.
  - destruct (npeers rf <=? j)%nat; [injection Hstep as <-; by eapply Hgoto0|].
    case_bool_decide; [injection Hstep as <-; by eapply Hgoto0|].
    case_bool_decide; injection Hstep as <-; [|by eapply Hgoto0].
    eapply Hgoto; [done|done|by repeat constructor..].
  - apply bool_decide_eq_true in Htl. injection Hstep as <-.
    by eapply votes_logs.
Qed.

(** A goroutine goes on, without or with a calm section at server [i]. *)
Lemma next_thread n V G c c' k t0 t ts :
  logs_ok n V G c -> election_next n V c' -> threads c !! k = Some t0 ->
  nodes c' = nodes c -> pcs c' = pcs c -> threads c' = <[k := t]> (threads c) ++ ts ->
  sent_ok G t -> Forall (sent_ok G) ts ->
  plain t \/ (vote_request t = vote_request t0 /\ success_of t = None) -> Forall plain ts ->
  logs_next n V G c c'.
Proof.
  intros Hlo Hel Hk Hns Hp Hts Ht Hts1 Hr Hts2. eapply next_silent; try done; [|by eapply same_requests].
  rewrite Hts. apply Forall_app. split; [|done]. apply Forall_insert; [apply Hlo|done].
Qed.

Lemma next_thread_node n V G c c' k t0 t ts i rf rf' :
  logs_ok n V G c -> election_next n V c' -> threads c !! k = Some t0 ->
  nodes c !! i = Some rf -> nodes c' = <[i := rf']> (nodes c) -> calm rf rf' -> log rf' = log rf ->
  pcs c' = pcs c -> threads c' = <[k := t]> (threads c) ++ ts ->
  sent_ok G t -> Forall (sent_ok G) ts ->
  plain t \/ (vote_request t = vote_request t0 /\ success_of t = None) -> Forall plain ts ->
  logs_next n V G c c'.
Proof.
  intros Hlo Hel Hk Hi Hns Hc Hl Hp Hts Ht Hts1 Hr Hts2.
  eapply (next_calm n V G c c' i rf rf'); try done.
  - intros. by rewrite Hp.
  - left. by rewrite Hp.
  - rewrite Hts. apply Forall_app. split; [|done]. apply Forall_insert; [apply Hlo|done].
  - by eapply same_requests.
Qed.

Lemma vote_reply_calm rf reply : calm rf (vote_reply rf reply).
Proof.
  unfold vote_reply. destruct (VoteGranted reply); [split; [done|by right]|].
  destruct (Z.ltb_spec (currentTerm rf) (rvr_Term reply)); split; simpl; [lia|by left|done|by right].
Qed.

Lemma vote_logs n V G c k i ep j t0 st now c' :
  logs_ok n V G c -> threads c !! k = Some (TVote i ep j t0 st) -> timely c (LThread k now) = true ->
  election_next n V c' -> thread_step c k (TVote i ep j t0 st) now = Val c' -> logs_next n V G c c'.
Proof.
  intros Hlo Hk Htl Hel Hstep. pose proof (lo_el _ _ _ _ Hlo) as He. pose proof (eo_ok _ _ _ He) as Hok.
  destruct (co_thread _ _ Hok _ _ Hk) as ((rfi & Hi & Ht0) & Hj & Hji & Hst).
  pose proof (co_node _ _ Hok _ _ Hi) as Hn.
  assert (c' = c -> logs_next n V G c c') as Hsame.
  { intros ->. eapply next_silent; try done; [apply Hlo|]. by apply nothing_new. }
  simpl in Htl. rewrite Hk in Htl. unfold thread_step in Hstep. rewrite Hi in Hstep.
  destruct st as [|args|args reply]; simpl in Hst.
  - destruct (alive c i ep); [|injection Hstep as <-; auto].
    apply bind_val in Hstep as (args & Hva & [= <-]).
    apply Z.eqb_eq in Htl. unfold term_of in Htl. rewrite Hi in Htl. simpl in Htl.
    eapply next_silent; try done; [apply Forall_insert; [apply Hlo|done]|].
    assert (forall t, t ∈ <[k := TVote i ep j t0 (VSent args)]> (threads c) ->
              t = TVote i ep j t0 (VSent args) \/ t ∈ threads c) as Hin.
    { intros t (k' & [(<- & -> & _)|[_ Hk']]%list_lookup_insert_Some)%list_elem_of_lookup; [by left|right].
      by eapply list_elem_of_lookup_2. }
    split.
    + intros t i' u args' [->|Ht]%Hin Hr; [|left; eauto]. simpl in Hr. injection Hr as <- <- <-. right. by exists rfi.
    + intros t x [->|Ht]%Hin Hr; [done|eauto].
  - destruct (nodes c !! j) as [rfj|] eqn:Hrj; [|injection Hstep as <-; auto].
    destruct (RequestVote_spec _ _ _ args now (co_node _ _ Hok _ _ Hrj) (proj1 Hst))
      as (rf' & reply & Hrv & _ & Hpas & _ & _ & Hlog & _). rewrite Hrv in Hstep. injection Hstep as <-.
    eapply (next_thread_node n V G c _ k _ (TVote i ep j t0 (VReplied args reply)) [] j rfj rf'); try done;
      [by apply passive_calm|by simpl; rewrite app_nil_r|by right; split].
  - destruct (alive c i ep); [|injection Hstep as <-; auto]. injection Hstep as <-.
    eapply (next_thread_node n V G c _ k _ TDone [] i rfi (vote_reply rfi reply)); try done;
      [apply vote_reply_calm| |by simpl; rewrite app_nil_r|by left].
    by apply (vote_reply_ok n i rfi reply); [|lia].
Qed.

(** The request of a heartbeat goroutine reaches its follower [j]. *)
Lemma beat_sent_logs n V G c k i ep j epj args rf rf' reply spawn now :
  let c' := spawn_apply j epj spawn (set_thread k (TBeat i ep j (HReplied args reply)) (set_node j rf' c)) in
  logs_ok n V G c -> threads c !! k = Some (TBeat i ep j (HSent args)) -> append_args_ok args ->
  nodes c !! j = Some rf -> AppendEntries rf args now = Val (rf', reply, spawn) ->
  election_next n V c' -> logs_next n V G c c'.
Proof.
  intros c' Hlo Hk Hst Hj Hae Hel. pose proof (lo_el _ _ _ _ Hlo) as He. pose proof (eo_ok _ _ _ He) as Hok.
  pose proof (lo_sent _ _ _ _ Hlo) as Hs. pose proof Hs as Hs1. eapply Forall_lookup_1 in Hs1; [|exact Hk]. unfold c' in *.
  set (ts := match spawn with Some es => [TApply j epj es] | None => [] end).
  assert (threads (spawn_apply j epj spawn (set_thread k (TBeat i ep j (HReplied args reply)) (set_node j rf' c)))
            = <[k := TBeat i ep j (HReplied args reply)]> (threads c) ++ ts) as Hts
    by (destruct spawn; simpl; [done|by rewrite app_nil_r]).
  assert (Forall (sent_ok G) ts /\ Forall plain ts) as [Hts1 Hts2]
    by (unfold ts; destruct spawn; split; repeat constructor).
  destruct (AppendEntries_val _ _ _ _ _ _ _ _ (co_node _ _ Hok _ _ Hj) Hst Hae) as (_ & Hpas & _).
  destruct (logs_accept _ _ _ _ _ _ _ _ _ _ _ _ _ _ Hlo Hk Hj Hae)
    as [(Hsu & Hl & _)|(Hsu & Hnl & Ht & g & L & Hg & HL & Hcut & _ & Hm & Hag & _)].
  - eapply (next_thread_node n V G c _ k _ _ ts j rf rf'); try done;
      [by destruct spawn|by apply passive_calm|by destruct spawn|left; split; simpl; by rewrite ?Hsu].
  - destruct Hel as (V' & HV & Hf & He'). exists V', G. split_and!; [done|done| | |].
    + eapply (logs_calm n V V' G c _ j rf rf'); try done.
      * by destruct spawn.
      * by apply passive_calm.
      * by destruct spawn.
      * left. by destruct spawn.
      * right. done.
      * rewrite Hts. apply Forall_app. split; [|done]. by apply Forall_insert.
    + eapply (le_accept _ _ _ _ _ i j rf rf' args (aea_Term args) g L); try done; [by destruct spawn| |].
      * rewrite <- Ht. apply advance_term, Hpas.
      * eapply thread_successes; [exact Hts|done|]. simpl. by rewrite Hsu.
    + eapply thread_requests; [exact Hts|done|done].
Qed.

Lemma beat_logs n V G c k i ep j st now c' :
  logs_ok n V G c -> threads c !! k = Some (TBeat i ep j st) ->
  election_next n V c' -> thread_step c k (TBeat i ep j st) now = Val c' -> logs_next n V G c c'.
Proof.
  intros Hlo Hk Hel Hstep. pose proof (lo_el _ _ _ _ Hlo) as He. pose proof (eo_ok _ _ _ He) as Hok.
  pose proof (lo_sent _ _ _ _ Hlo) as Hs. pose proof Hs as Hs1. eapply Forall_lookup_1 in Hs1; [|exact Hk].
  destruct (co_thread _ _ Hok _ _ Hk) as (_ & _ & _ & Hst).
  assert (c' = c -> logs_next n V G c c') as Hsame.
  { intros ->. eapply next_silent; try done. by apply nothing_new. }
  unfold thread_step in Hstep. destruct st as [|args|args reply].
  - destruct (nodes c !! i) as [rf|] eqn:Hi; [|injection Hstep as <-; auto].
    destruct (alive c i ep); [|injection Hstep as <-; auto].
    pose proof (co_node _ _ Hok _ _ Hi) as Hn.
    apply bind_val in Hstep as ([args|] & Ha & [= <-]); [|eapply (next_thread n V G c _ k _ TDone []); try done;
      [by simpl; rewrite app_nil_r|by left]].
    destruct (heartbeat_args_val _ _ _ _ _ Hn Ha) as (_ & Hl & Ht & _ & _ & _ & Hprev & Hes).
    eapply (next_thread n V G c _ k _ (TBeat i ep j (HSent args)) []); try done;
      [by simpl; rewrite app_nil_r| |by left].
    exists (log rf), (log rf). split_and!; [rewrite Ht; by apply (lo_leader _ _ _ _ Hlo)|apply led_refl|].
    split; [done|done].
  - destruct (nodes c !! j) as [rf|] eqn:Hj; [|injection Hstep as <-; auto].
    destruct (epochs c !! j) as [epj|]; [|injection Hstep as <-; auto].
    apply bind_val in Hstep as ([[rf' reply] spawn] & Hae & [= <-]).
    by eapply beat_sent_logs.
  - destruct (nodes c !! i) as [rf|] eqn:Hi; [|injection Hstep as <-; auto].
    destruct (alive c i ep); [|injection Hstep as <-; auto].
    apply bind_val in Hstep as (rf' & Hhr & [= <-]).
    destruct (heartbeat_reply_val _ _ _ _ _ _ _ (co_node _ _ Hok _ _ Hi) Hhr) as (_ & Hpas & Hl & _).
    eapply (next_thread_node n V G c _ k _ TDone [] i rf rf'); try done;
      [by apply passive_calm|by simpl; rewrite app_nil_r|by left].
Qed.

Lemma thread_logs n V G c k t now c' :
  logs_ok n V G c -> threads c !! k = Some t -> orderly c (LThread k now) = true ->
  election_next n V c' -> thread_step c k t now = Val c' -> logs_next n V G c c'.
Proof.
  intros Hlo Hk [Htl Hor]%andb_true_iff Hel Hstep. pose proof (eo_ok _ _ _ (lo_el _ _ _ _ Hlo)) as Hok.
  assert (c' = c -> logs_next n V G c c') as Hsame.
  { intros ->. eapply next_silent; try done; [apply Hlo|]. by apply nothing_new. }
  assert (forall t', plain t' -> sent_ok G t' -> nodes c' = nodes c -> pcs c' = pcs c ->
            threads c' = <[k := t']> (threads c) -> logs_next n V G c c') as Hmove.
  { intros t' Hr Hs' Hns Hps Hc'. eapply (next_thread n V G c c' k t t' []); try done; [|by left]. by rewrite app_nil_r. }
  destruct t as [i ep j t0 st|i ep j st|i ep term command|i ep es|i ep index es|];
    [by eapply vote_logs|by eapply beat_logs|..]; unfold thread_step in Hstep; rewrite Hk in Hor.
  - destruct (nodes c !! i) as [rf|] eqn:Hi; [|injection Hstep as <-; auto].
    destruct (alive c i ep); [|injection Hstep as <-; auto].
    apply bind_val in Hstep as ([rf' index] & Hs & [= <-]).
    apply bool_decide_eq_true in Hor as [Hl <-].
    pose proof (no_leader _ _ _ (co_node _ _ Hok _ _ Hi) Hl) as Ht1.
    destruct (Start_append_val n i rf (currentTerm rf) _ _ _ (co_node _ _ Hok _ _ Hi) ltac:(lia) Hs) as (_ & Hpas & _ & Hlog).
    assert (currentTerm rf' = currentTerm rf) as Ht.
    { unfold Start_append in Hs. apply bind_val in Hs as (ni & _ & Hs). by apply bind_val in Hs as (mi & _ & [= <- _]). }
    destruct Hel as (V' & HV & Hf & He'). set (e := mkEntry _ _ _) in Hlog.
    exists V', (<[currentTerm rf := (i, log rf ++ [e])]> G). split_and!; [done|done| | |].
    + eapply (logs_append n V V' G c _ i rf rf' e); try done. apply Forall_insert; [apply Hlo|done].
    + eapply (le_append _ _ _ _ _ i rf rf' e); try done; [by rewrite (pv_same _ _ Hpas)|].
      eapply (same_requests _ _ k _ TDone []); [done|by rewrite app_nil_r|by left|done].
    + eapply (same_requests _ _ k _ TDone []); [done|by rewrite app_nil_r|by left|done].
    
  - destruct (alive c i ep); [|injection Hstep as <-; auto].
    destruct es as [|e es]; injection Hstep as <-; (eapply Hmove; [..|reflexivity]; done).
  - destruct (nodes c !! i) as [rf|] eqn:Hi; [|injection Hstep as <-; auto].
    destruct (alive c i ep); [|injection Hstep as <-; auto]. injection Hstep as <-.
    destruct (apply_ack_ok _ _ _ index (co_node _ _ Hok _ _ Hi)) as (_ & Hpas).
    eapply (next_thread_node n V G c _ k _ (TApply i ep es) [] i rf); try done;
      [by apply passive_calm|by unfold apply_ack; destruct (_ <? _)|by simpl; rewrite app_nil_r|by left].
  - injection Hstep as <-. auto.
Qed.

Lemma step_logs `{!CodecLaws} n V G c l c' :
  logs_ok n V G c -> orderly c l = true -> terms_small c' -> step c l = Val c' -> logs_next n V G c c'.
Proof.
  intros Hlo Hor Hsm Hstep. pose proof Hor as [Htl _]%andb_true_iff.
  pose proof (lo_el _ _ _ _ Hlo) as He. pose proof (step_election _ _ _ _ _ He Htl Hsm Hstep) as Hel.
  assert (c' = c -> logs_next n V G c c') as Hsame.
  { intros ->. eapply next_silent; try done; [apply Hlo|]. by apply nothing_new. }
  destruct l as [i now|k now|i command|i|i now rnd]; simpl in Hstep.
  - destruct (nodes c !! i) as [rf|] eqn:Hi; [|injection Hstep as <-; auto].
    destruct (pcs c !! i) as [p|] eqn:Hp; [|injection Hstep as <-; auto].
    destruct (epochs c !! i) as [ep|] eqn:Hep; [|injection Hstep as <-; auto].
    by eapply run_logs.
  - destruct (threads c !! k) as [t|] eqn:Hk; [|injection Hstep as <-; auto]. by eapply thread_logs.
  - destruct (nodes c !! i) as [rf|] eqn:Hi; [|injection Hstep as <-; auto].
    destruct (epochs c !! i) as [ep|] eqn:Hep; [|injection Hstep as <-; auto].
    destruct (bool_decide (state rf = Leader)); injection Hstep as <-; [|auto].
    eapply next_silent; try done; [apply Forall_app; split; [apply Hlo|by apply Forall_singleton]|].
    by eapply no_requests; [|repeat constructor].
  - destruct (nodes c !! i) as [rf|] eqn:Hi; injection Hstep as <-; [|auto].
    eapply (next_calm n V G c _ i rf (Kill rf)); try done; [split; [done|by right]|by left|apply Hlo|].
    by apply nothing_new.
  - destruct (nodes c !! i) as [rf|] eqn:Hi; [|injection Hstep as <-; auto].
    apply bind_val in Hstep as (rf' & Hmk & [= <-]).
    destruct (Make_saved n i rf now rnd (co_node _ _ (eo_ok _ _ _ He) _ _ Hi)) as (r & Hr & _ & Hl & Ht & _ & Hst & _).
    rewrite Hmk in Hr. injection Hr as <-.
    eapply (next_calm n V G c _ i rf rf'); try done; [split; [lia|by left]| | |apply Hlo|].
    + intros j Hj. simpl. by rewrite list_lookup_insert_ne.
    + congruence.
    + by apply nothing_new.
Qed.

Lemma init_logs n now rnd c : init_cluster n now rnd = Val c -> logs_ok n ∅ ∅ c.
Proof.
  intros Hc. pose proof (init_election _ _ _ _ Hc) as He.
  apply init_nodes in Hc as (Hlen & Hn & Hp & _ & Ht & _).
  assert (forall i rf, nodes c !! i = Some rf -> log rf = [sentinel]) as Hlog.
  { intros i rf Hi. destruct (Hn i rf Hi) as ([_ _ _ Hl Htm _ _ _ _ _ _ _] & Ht0 & _). rewrite Ht0 in Htm.
    destruct (log rf) as [|x [|e l]] eqn:E; [by apply log_ok_len in Hl| |].
    - apply log_sentinel in Hl. simpl in Hl. by injection Hl as ->.
    - pose proof (log_term _ Hl 1 e eq_refl ltac:(lia)). eapply (Forall_lookup_1 _ _ 1) in Htm; [|done]. simpl in Htm. lia. }
  constructor; try done.
  - intros i rf Hi k e. by rewrite (Hlog i rf Hi).
  - intros i rf Hi Hs. destruct (Hn i rf Hi) as (_ & _ & _ & _ & E). congruence.
  - intros i rf p Hi _ E. destruct (Hn i rf Hi) as (_ & _ & _ & _ & E'). congruence.
  - by rewrite Ht.
Qed.

Lemma osteps_logs `{!CodecLaws} n V G c c' :
  rtc ostep c c' -> logs_ok n V G c -> exists V' G', grows G G' /\ logs_ok n V' G' c'.
Proof.
  intros Hr. revert V G. induction Hr as [c|c1 c2 c3 (l & Hor & Hst & Hsm) _ IH]; intros V G Hlo; [by exists V, G|].
  apply small_terms in Hsm. destruct (step_logs _ _ _ _ _ _ Hlo Hor Hsm Hst) as (V2 & G2 & _ & _ & Hlo2 & Hev & _).
  destruct (IH V2 G2 Hlo2) as (V3 & G3 & HG & Hlo3). exists V3, G3. split; [|done].
  etransitivity; [by eapply log_event_grows|done].
Qed.

(** C6: Log matching.  In an orderly execution, if the log of one server at some point and the log of
    another (or the same) server then or at any later point have an entry of the same term at the same
    index, the two logs are equal up to that index, commands included. *)
Theorem log_matching `{!CodecLaws} n now rnd c0 c1 c2 i j rf1 rf2 k e1 e2 :
  init_cluster n now rnd = Val c0 -> rtc ostep c0 c1 -> rtc ostep c1 c2 ->
  nodes c1 !! i = Some rf1 -> nodes c2 !! j = Some rf2 ->
  log rf1 !! k = Some e1 -> log rf2 !! k = Some e2 -> Term e1 = Term e2 ->
  take (S k) (log rf1) = take (S k) (log rf2).
Proof.
  intros Hc0 H01 H12 Hi Hj He1 He2 Ht.
  destruct (osteps_logs _ _ _ _ _ H01 (init_logs _ _ _ _ Hc0)) as (V1 & G1 & _ & Hlo1).
  destruct (osteps_logs _ _ _ _ _ H12 Hlo1) as (V2 & G2 & HG & Hlo2).
  eapply (agrees_match G2); try done.
  - apply (co_node _ _ (eo_ok _ _ _ (lo_el _ _ _ _ Hlo1)) _ _ Hi).
  - apply (co_node _ _ (eo_ok _ _ _ (lo_el _ _ _ _ Hlo2)) _ _ Hj).
  - eapply agrees_grows; [done|by apply (lo_log _ _ _ _ Hlo1 _ _ Hi)].
  - by apply (lo_log _ _ _ _ Hlo2 _ _ Hj).
Qed.

End Logs.
(** ** An execution of three servers *)

(** Server 0, just elected, takes command 42 and sends it to server 1. *)
Definition replicate_one : list (@label Z) :=
  fair_election ++ [LStart 0 42; LThread 2 late; LRun 0 late; LThread 3 late; LThread 3 late].

Definition replicate_end : @Cluster Z := run_from_start orderly replicate_one.

Lemma replicate_one_run : rtc ostep start_cluster replicate_end.
Proof. apply (osteps_rtc replicate_one). vm_compute. reflexivity. Qed.

Definition logs_of (c : @Cluster Z) : list (list (Entry Z)) := log <$> nodes c.

Lemma log_matching_witness :
  exists rf0 rf1, nodes replicate_end !! 0%nat = Some rf0 /\ nodes replicate_end !! 1%nat = Some rf1 /\
    take 2 (log rf0) = take 2 (log rf1) /\ log rf1 = [mkEntry 0 None 0; mkEntry 1 (Some 42) 1].
Proof.
  destruct (nodes replicate_end !! 0%nat) as [rf0|] eqn:E0; [|vm_compute in E0; discriminate].
  destruct (nodes replicate_end !! 1%nat) as [rf1|] eqn:E1; [|vm_compute in E1; discriminate].
  assert (log rf0 = [mkEntry 0 None 0; mkEntry 1 (Some 42) 1]) as L0 by (vm_compute in E0; injection E0 as <-; reflexivity).
  assert (log rf1 = [mkEntry 0 None 0; mkEntry 1 (Some 42) 1]) as L1 by (vm_compute in E1; injection E1 as <-; reflexivity).
  exists rf0, rf1. split; [reflexivity|]. split; [reflexivity|]. split; [|exact L1].
  apply (log_matching 3 (fun _ => 0) (fun _ => 0) start_cluster replicate_end replicate_end 0 1 rf0 rf1 1
           (mkEntry 1 (Some 42) 1) (mkEntry 1 (Some 42) 1) start_cluster_init replicate_one_run (rtc_refl _ _) E0 E1).
  - rewrite L0. reflexivity.
  - rewrite L1. reflexivity.
  - reflexivity.
Defined.

End RaftLogs.
