(* ===== verification/RaftCommit.v ===== *)
(** * Elected leaders have what was chosen

    The second half of Raft's safety argument.  History variables record the votes with the log each voter
    had ([V], RaftElection.v), the log of every term's leader ([G], RaftLogs.v), and here [A]: for every
    server and term the longest log it has acknowledged to the leader of that term (a leader acknowledges
    its own).  A prefix of the leader's log of term [t] that ends in an entry of term [t] is [choosable]
    while there is a majority each of whose servers has acknowledged it or can still do so, because it has
    not left term [t].  The invariant: the leaders of later terms have every choosable prefix. *)

From stdpp Require Import base list gmap strings relations.
From Stdlib Require Import ZArith Lia.
From S2P Require Import Prelude RaftNode RaftInv RaftCluster RaftClusterInv RaftElection RaftLogs.
Import RaftNode RaftInv RaftCluster RaftClusterInv RaftElection RaftLogs.

Open Scope Z_scope.

Module RaftCommit.

Section Commit.
Context {Cmd : Type} `{Codec Cmd}.
Notation Raft := (Raft Cmd).
Notation Entry := (Entry Cmd).
Notation Cluster := (@Cluster Cmd).
Notation thread := (@thread Cmd).
Notation label := (@label Cmd).
Notation ledger := (gmap (nat * Z) (Z * list Entry)).
Notation history := (gmap Z (nat * list Entry)).

(** What each server has acknowledged in each term *)
Notation acks := (gmap (nat * Z) (list Entry)).

Definition majority (n : nat) (Q : gset nat) : Prop :=
  (forall j, j ∈ Q -> (j < n)%nat) /\ Z.quot (Z.of_nat n) 2 < Z.of_nat (size Q).

(** [p] ends in an entry of term [t] *)
Definition ends (t : Z) (p : list Entry) : Prop := exists e, last p = Some e /\ Term e = t.

Definition choosable (n : nat) (A : acks) (ns : list Raft) (t : Z) (p : list Entry) : Prop :=
  exists Q, majority n Q /\ forall j rf, j ∈ Q -> ns !! j = Some rf -> t < currentTerm rf ->
    exists a, A !! (j, t) = Some a /\ p `prefix_of` a.

(** [l1] is at least as up to date as [l2] *)
Definition up_to_date (l1 l2 : list Entry) : Prop :=
  exists e1 e2, last l1 = Some e1 /\ last l2 = Some e2 /\
    (Term e2 < Term e1 \/ (Term e1 = Term e2 /\ (length l2 <= length l1)%nat)).

Definition request_of (l : list Entry) (args : RequestVoteArgs) : Prop :=
  exists e, last l = Some e /\ LastLogTerm args = Term e /\ LastLogIndex args = len l - 1.

(** Server [i] is in term [t] or later *)
Definition arrived (ns : list Raft) (i : nat) (t : Z) : Prop :=
  exists rf, ns !! i = Some rf /\ t <= currentTerm rf.

(** Server [j] has acknowledged the log of leader [i] the request [args] was cut from. *)
Definition acked (G : history) (A : acks) (i j : nat) (args : AppendEntriesArgs Cmd) : Prop :=
  exists g L a, G !! aea_Term args = Some (i, g) /\ L `prefix_of` g /\ cut_from L args /\
    A !! (j, aea_Term args) = Some a /\ L `prefix_of` a.

Record safe_ok (n : nat) (V : ledger) (G : history) (A : acks) (c : Cluster) : Prop := {
  sa_logs : logs_ok n V G c;
  sa_ack : forall j t a, A !! (j, t) = Some a ->
    arrived (nodes c) j t /\ exists i g, G !! t = Some (i, g) /\ a `prefix_of` g;
  sa_lead : forall i rf, nodes c !! i = Some rf -> state rf = Leader -> A !! (i, currentTerm rf) = Some (log rf);
  sa_keep : forall j rf t a p, nodes c !! j = Some rf -> A !! (j, t) = Some a -> p `prefix_of` a -> ends t p ->
    choosable n A (nodes c) t p -> p `prefix_of` log rf;
  sa_vote : forall j u v l t a p, V !! (j, u) = Some (v, l) -> A !! (j, t) = Some a -> t < u ->
    p `prefix_of` a -> ends t p -> choosable n A (nodes c) t p -> p `prefix_of` l;
  sa_vlog : forall j u v l, V !! (j, u) = Some (v, l) ->
    log_ok l /\ agrees G l /\ exists i, v = Z.of_nat i /\ arrived (nodes c) i u;
  sa_elect : forall t u i g i' g' p, t < u -> G !! t = Some (i, g) -> G !! u = Some (i', g') ->
    p `prefix_of` g -> ends t p -> choosable n A (nodes c) t p -> p `prefix_of` g';
  sa_ballot : forall j u i l rf, V !! (j, u) = Some (Z.of_nat i, l) -> G !! u = None ->
    nodes c !! i = Some rf -> currentTerm rf = u -> up_to_date (log rf) l;
  sa_args : forall t i u args rf, t ∈ threads c -> vote_request t = Some (i, u, args) -> G !! u = None ->
    nodes c !! i = Some rf -> currentTerm rf = u -> request_of (log rf) args;
  sa_acked : forall t i j args, t ∈ threads c -> success_of t = Some (i, j, args) -> acked G A i j args }.

(** ** Logs and their last entries *)

Lemma last_go_index (l : list Entry) e : go_index l (len l - 1) = Val e <-> last l = Some e.
Proof.
  rewrite go_index_val, last_lookup. unfold len. split.
  - intros [Hp Hl]. rewrite <- Hl. f_equal. lia.
  - intros Hl. pose proof (lookup_lt_Some _ _ _ Hl). split; [lia|]. rewrite <- Hl. f_equal. lia.
Qed.

Lemma log_ok_last_some (l : list Entry) : log_ok l -> exists e, last l = Some e.
Proof. intros (e & He)%log_ok_last. exists e. by apply last_go_index. Qed.

(** Up to its last entry a log is a prefix of a leader's. *)
Lemma agrees_last G (l : list Entry) e :
  log_ok l -> agrees G l -> last l = Some e -> 1 <= Term e -> exists i g, G !! Term e = Some (i, g) /\ l `prefix_of` g.
Proof.
  intros Hok Hl He Ht. rewrite last_lookup in He. destruct (length l) as [|[|k]] eqn:Hlen; simpl in He.
  - apply lookup_lt_Some in He. lia.
  - rewrite (log_sentinel _ Hok) in He. injection He as <-. simpl in Ht. lia.
  - destruct (Hl k e He) as (i & g & Hg & Hp). exists i, g. split; [done|]. by rewrite take_ge in Hp by lia.
Qed.

Lemma prefix_last_in (p l : list Entry) e : p `prefix_of` l -> last p = Some e -> e ∈ l.
Proof.
  intros Hp He. rewrite last_lookup in He. eapply list_elem_of_lookup_2, prefix_lookup_Some; done.
Qed.

(** Terms along a log do not decrease. *)
Lemma agrees_terms n V G c (l p : list Entry) e e' :
  logs_ok n V G c -> log_ok l -> agrees G l -> p `prefix_of` l -> last p = Some e -> last l = Some e' -> 1 <= Term e ->
  Term e <= Term e'.
Proof.
  intros Hlo Hok Hl Hp He He' Ht. pose proof (prefix_last_in _ _ _ Hp He) as Hin.
  destruct (decide (1 <= Term e')) as [Ht'|Hn].
  - destruct (agrees_last _ _ _ Hok Hl He' Ht') as (i & g & Hg & Hpg).
    pose proof (ho_terms _ _ _ _ _ _ _ (lo_hist _ _ _ _ Hlo _ _ _ Hg)) as Hts.
    unfold terms_le in Hts. rewrite Forall_forall in Hts. apply Hts. destruct Hpg as [s ->].
    apply elem_of_app. by left.
  - exfalso. rewrite last_lookup in He'.
    assert (length l = 1%nat) as Hlen.
    { destruct (decide (length l = 1%nat)) as [|Hne]; [done|].
      pose proof (lookup_lt_Some _ _ _ He'). pose proof (log_term _ Hok _ _ He'). lia. }
    apply list_elem_of_lookup in Hin as [k Hk]. pose proof (lookup_lt_Some _ _ _ Hk).
    assert (k = 0%nat) as -> by lia. rewrite (log_sentinel _ Hok) in Hk. injection Hk as <-. simpl in Ht. lia.
Qed.

(** ** Winning an election *)

Lemma vote_arrived n V c j u v l :
  election_ok n V c -> V !! (j, u) = Some (v, l) -> (j < n)%nat -> exists rf, nodes c !! j = Some rf /\ u <= currentTerm rf.
Proof.
  intros He Hv Hj. destruct (lookup_lt_is_Some_2 (nodes c) j) as [rf Hrf].
  { by rewrite (co_nodes _ _ (eo_ok _ _ _ He)). }
  exists rf. split; [done|]. destruct (decide (u <= currentTerm rf)) as [|Hn]; [done|].
  destruct (eo_ledger _ _ _ He _ _ Hrf) as [_ Hnone]. rewrite Hnone in Hv by lia. done.
Qed.

(** A majority that could choose [p] in term [t] and the voters of a later term share a server, which has
    acknowledged [p]. *)
Lemma choosable_voter n V A c t p i u :
  election_ok n V c -> choosable n A (nodes c) t p -> chosen n V i u -> t < u ->
  exists j rf l a, nodes c !! j = Some rf /\ u <= currentTerm rf /\ V !! (j, u) = Some (Z.of_nat i, l) /\
    A !! (j, t) = Some a /\ p `prefix_of` a.
Proof.
  intros He (Q & [HQ HQm] & Hacks) (S & HS & Hm) Htu.
  destruct (majorities_meet n Q S) as (j & HjQ & HjS); [done|apply HS|done|done|].
  destruct (HS j HjS) as (Hj & l & Hv). destruct (vote_arrived _ _ _ _ _ _ _ He Hv Hj) as (rf & Hrf & Hle).
  destruct (Hacks j rf HjQ Hrf) as (a & Ha & Hp); [lia|]. by exists j, rf, l, a.
Qed.

Lemma winner_has n V G A c i rf t m g p :
  safe_ok n V G A c -> nodes c !! i = Some rf -> chosen n V i (currentTerm rf) -> G !! currentTerm rf = None ->
  t < currentTerm rf -> G !! t = Some (m, g) -> p `prefix_of` g -> ends t p -> choosable n A (nodes c) t p ->
  p `prefix_of` log rf.
Proof.
  intros Hs Hi Hch Hnone Ht Hg Hpg Hends Hc. pose proof (sa_logs _ _ _ _ _ Hs) as Hlo.
  pose proof (lo_el _ _ _ _ Hlo) as He. pose proof (lo_hist _ _ _ _ Hlo _ _ _ Hg) as Hh.
  pose proof (co_node _ _ (eo_ok _ _ _ He) _ _ Hi) as Hn.
  assert (1 <= t) as Ht1 by (destruct (ho_reached _ _ _ _ _ _ _ Hh) as (? & _ & ?); lia).
  destruct (choosable_voter _ _ _ _ _ _ _ _ He Hc Hch Ht) as (j & rfj & l & a & Hj & Hjt & Hv & Ha & Hpa).
  pose proof (sa_vote _ _ _ _ _ Hs _ _ _ _ _ _ _ Hv Ha Ht Hpa Hends Hc) as Hpl.
  destruct (sa_vlog _ _ _ _ _ Hs _ _ _ _ Hv) as (Hlok & Hlag & _).
  destruct (sa_ballot _ _ _ _ _ Hs _ _ _ _ _ Hv Hnone Hi eq_refl) as (e1 & e2 & H1 & H2 & Hup).
  destruct Hends as (ep & Hep & Hept).
  assert (t <= Term e2) as Hte2.
  { rewrite <- Hept. eapply agrees_terms; try done. lia. }
  destruct (agrees_last G (log rf) e1) as (m1 & g1 & Hg1 & Hp1); [apply Hn|by apply (lo_log _ _ _ _ Hlo _ _ Hi)|done|lia|].
  destruct (decide (Term e1 = t)) as [Et|Hne].
  - assert (Term e2 = t) as Et2 by lia. rewrite Et, Hg in Hg1. injection Hg1 as <- <-.
    apply (prefix_weak_total' p (log rf) g); [done|done|]. apply prefix_length in Hpl.
    destruct Hup as [?|[_ ?]]; lia.
  - assert (p `prefix_of` g1) as Hpg1.
    { eapply (sa_elect _ _ _ _ _ Hs t (Term e1)); try done; [lia|by exists ep]. }
    destruct (decide (length p <= length (log rf))%nat) as [|Hlong]; [by eapply prefix_weak_total'|]. exfalso.
    assert (log rf `prefix_of` p) as Hrp by (eapply prefix_weak_total'; [done|done|lia]).
    assert (log rf `prefix_of` g) as Hrg by (by etransitivity).
    pose proof (ho_terms _ _ _ _ _ _ _ Hh) as Hts. unfold terms_le in Hts. rewrite Forall_forall in Hts.
    specialize (Hts e1 (prefix_last_in _ _ _ Hrg H1)). lia.
Qed.

(** ** Steps *)

(** Server [i] moves to [rf'] and may acknowledge more in its term. *)
Record ack_step (G' : history) (A A' : acks) (i : nat) (rf' : Raft) : Prop := {
  as_other : forall j t, (j, t) <> (i, currentTerm rf') -> A' !! (j, t) = A !! (j, t);
  as_grow : forall a, A !! (i, currentTerm rf') = Some a ->
    exists b, A' !! (i, currentTerm rf') = Some b /\ a `prefix_of` b;
  as_new : forall b, A' !! (i, currentTerm rf') = Some b ->
    (exists m g, G' !! currentTerm rf' = Some (m, g) /\ b `prefix_of` g) /\
    forall p, p `prefix_of` b -> (exists a, A !! (i, currentTerm rf') = Some a /\ p `prefix_of` a) \/ p `prefix_of` log rf' }.

Definition acks_grow (A A' : acks) : Prop :=
  forall x a, A !! x = Some a -> exists b, A' !! x = Some b /\ a `prefix_of` b.

#[export] Instance acks_grow_refl : Reflexive acks_grow.
Proof. intros A x a Ha. by exists a. Qed.

Lemma ack_step_grows G' A A' i rf' : ack_step G' A A' i rf' -> acks_grow A A'.
Proof.
  intros [Hoth Hgrow _] [j t] a Ha. destruct (decide ((j, t) = (i, currentTerm rf'))) as [[= -> ->]|Hne]; [by apply Hgrow|].
  exists a. split; [|done]. by rewrite Hoth.
Qed.

Lemma acked_grows G G' A A' i j args : grows G G' -> acks_grow A A' -> acked G A i j args -> acked G' A' i j args.
Proof.
  intros HG HA (g & L & a & Hg & HL & Hc & Ha & HLa). destruct (HG _ _ _ Hg) as (g' & Hg' & [Hp _]).
  destruct (HA _ _ Ha) as (b & Hb & Hab). exists g', L, b. split_and!; [done|by transitivity g|done|done|by transitivity a].
Qed.

(** Less and less is choosable. *)
Lemma choosable_before n G' A A' ns ns' i rf rf' t p :
  ns !! i = Some rf -> ns' = <[i := rf']> ns -> currentTerm rf <= currentTerm rf' -> ack_step G' A A' i rf' ->
  choosable n A' ns' t p -> choosable n A ns t p.
Proof.
  intros Hi -> Hle [Hoth _ _] (Q & HQ & Hall). exists Q. split; [done|]. intros j r Hj Hr Ht.
  destruct (decide (j = i)) as [->|Hne].
  - rewrite Hi in Hr. injection Hr as <-.
    destruct (Hall i rf' Hj) as (a & Ha & Hp); [apply list_lookup_insert_eq; by eapply lookup_lt_Some|lia|].
    rewrite Hoth in Ha by (intros [=]; lia). by exists a.
  - destruct (Hall j r Hj) as (a & Ha & Hp); [by rewrite list_lookup_insert_ne|done|].
    rewrite Hoth in Ha by congruence. by exists a.
Qed.

Lemma arrived_raise (ns : list Raft) i (rf rf' : Raft) j t :
  ns !! i = Some rf -> currentTerm rf <= currentTerm rf' -> arrived ns j t -> arrived (<[i := rf']> ns) j t.
Proof.
  intros Hi Hle (r & Hr & Ht). destruct (decide (i = j)) as [->|Hne].
  - exists rf'. rewrite list_lookup_insert_eq by (by eapply lookup_lt_Some). split; [done|].
    rewrite Hi in Hr. injection Hr as <-. lia.
  - exists r. by rewrite list_lookup_insert_ne by done.
Qed.

Lemma grows_none (G G' : history) t : grows G G' -> G' !! t = None -> G !! t = None.
Proof.
  intros HG Hn. destruct (G !! t) as [[i g]|] eqn:E; [|done]. destruct (HG _ _ _ E) as (g' & Hg' & _). congruence.
Qed.

Lemma vote_up_to_date l (rf : Raft) args :
  log_ok (log rf) -> request_of l args -> vote_ok rf args -> up_to_date l (log rf).
Proof.
  intros Hok (e1 & H1 & Ht & Hx) (e2 & H2 & Hv). pose proof H2 as [Hp Hl]%go_index_val. apply last_go_index in H2. exists e1, e2. split_and!; [done|done|].
  rewrite (log_index _ Hok _ _ Hl) in Hv. rewrite Z2Nat.id in Hv by lia. unfold len in *.
  destruct Hv as [?|[? ?]]; [left; lia|right; split; [lia|lia]].
Qed.

Section Step.
Context {n : nat} {V V' : ledger} {G G' : history} {A A' : acks} {c c' : Cluster} {i : nat} {rf rf' : Raft}.
Context (Hsafe : safe_ok n V G A c) (Hlogs' : logs_ok n V' G' c') (HV : V ⊆ V') (Hfresh : fresh_votes V V' c')
  (HG : grows G G') (Hreq : new_requests c c')
  (Hi : nodes c !! i = Some rf) (Hns : nodes c' = <[i := rf']> (nodes c)) (Hle : currentTerm rf <= currentTerm rf')
  (Hack : ack_step G' A A' i rf')
  (Hsame : currentTerm rf' = currentTerm rf -> log rf' = log rf \/ G' !! currentTerm rf' <> None)
  (Hkeep : forall t a p, A !! (i, t) = Some a -> p `prefix_of` a -> ends t p -> choosable n A (nodes c) t p ->
     p `prefix_of` log rf -> p `prefix_of` log rf').

Lemma step_before t p : choosable n A' (nodes c') t p -> choosable n A (nodes c) t p.
Proof. by eapply choosable_before. Qed.

Lemma step_node j r' : nodes c' !! j = Some r' ->
  (j = i /\ r' = rf') \/ (j <> i /\ nodes c !! j = Some r').
Proof. rewrite Hns. intros [(<- & -> & _)|[Hne Hj]]%list_lookup_insert_Some; [by left|right]. by split. Qed.

Lemma step_keep j r' t a p :
  nodes c' !! j = Some r' -> A' !! (j, t) = Some a -> p `prefix_of` a -> ends t p ->
  choosable n A' (nodes c') t p -> p `prefix_of` log r'.
Proof.
  intros Hj Ha Hp Hends Hc%step_before.
  destruct (step_node j r' Hj) as [[-> ->]|[Hne Hj0]].
  - assert (forall a, A !! (i, t) = Some a -> p `prefix_of` a -> p `prefix_of` log rf') as Hold
      by (intros b Hb Hpb; eapply Hkeep; [done..|]; by eapply (sa_keep _ _ _ _ _ Hsafe)).
    destruct (decide (t = currentTerm rf')) as [->|Hnt].
    + destruct (as_new _ _ _ _ _ Hack _ Ha) as [_ Hnew]. destruct (Hnew p Hp) as [(b & Hb & Hpb)|?]; [by eapply Hold|done].
    + rewrite (as_other _ _ _ _ _ Hack) in Ha by congruence. by eapply Hold.
  - rewrite (as_other _ _ _ _ _ Hack) in Ha by congruence. by eapply (sa_keep _ _ _ _ _ Hsafe).
Qed.

(** A server still in its term, if nobody has led it, has the log it had when it got there. *)
Lemma step_log m r' u :
  nodes c' !! m = Some r' -> currentTerm r' = u -> G' !! u = None -> arrived (nodes c) m u ->
  exists r, nodes c !! m = Some r /\ currentTerm r = u /\ log r' = log r.
Proof.
  intros Hm <- Hnone (r & Hr & Hru).
  destruct (step_node m r' Hm) as [[-> ->]|[Hne Hm0]]; [|exists r'; split_and!; done].
  rewrite Hi in Hr. injection Hr as <-. assert (currentTerm rf' = currentTerm rf) as E by lia.
  exists rf. split_and!; [done|done|]. by destruct (Hsame E).
Qed.

Lemma step_args t m u args r' :
  t ∈ threads c' -> vote_request t = Some (m, u, args) -> G' !! u = None ->
  nodes c' !! m = Some r' -> currentTerm r' = u -> request_of (log r') args.
Proof.
  intros Ht Hr Hnone Hm Hu. destruct (Hreq _ _ _ _ Ht Hr) as [(t0 & Ht0 & Hr0)|(r & Hm0 & Hns' & Htm & Hva)].
  - assert (arrived (nodes c) m u) as Harr.
    { apply list_elem_of_lookup in Ht0 as [k Hk].
      pose proof (co_thread _ _ (eo_ok _ _ _ (lo_el _ _ _ _ (sa_logs _ _ _ _ _ Hsafe))) _ _ Hk) as Hok.
      destruct t0 as [i0 ep0 j0 u0 [|a0|a0 r0]| | | | |]; simpl in Hr0; try done;
        injection Hr0 as -> -> ->; destruct Hok as ((q & Hq & Hqt) & _); exists q; (split; [done|lia]). }
    destruct (step_log m r' u Hm Hu Hnone Harr) as (r & Hmr & Hru & ->).
    eapply (sa_args _ _ _ _ _ Hsafe); try done. by eapply grows_none.
  - rewrite Hns', Hm0 in Hm. injection Hm as <-. unfold vote_args in Hva.
    apply bind_val in Hva as (e & He%last_go_index & [= <-]). by exists e.
Qed.

Lemma step_ballot j u m l r' :
  V' !! (j, u) = Some (Z.of_nat m, l) -> G' !! u = None -> nodes c' !! m = Some r' -> currentTerm r' = u ->
  up_to_date (log r') l.
Proof.
  intros Hv Hnone Hm Hu. destruct (V !! (j, u)) as [[v0 l0]|] eqn:Hv0.
  - pose proof (lookup_weaken _ _ _ _ Hv0 HV) as E. rewrite Hv in E. injection E as <- <-.
    destruct (sa_vlog _ _ _ _ _ Hsafe _ _ _ _ Hv0) as (_ & _ & m' & Em & Harr). apply Nat2Z.inj in Em as <-.
    destruct (step_log m r' u Hm Hu Hnone Harr) as (r & Hmr & Hru & ->).
    eapply (sa_ballot _ _ _ _ _ Hsafe); try done. by eapply grows_none.
  - destruct (Hfresh _ _ _ _ Hv Hv0) as (rj & Hj & Htj & <- & [Em|(k & m' & ep & args & reply & Hk & Em & Hat & Hvok)]).
    + apply Nat2Z.inj in Em as <-. rewrite Hj in Hm. injection Hm as <-.
      pose proof (co_node _ _ (eo_ok _ _ _ (lo_el _ _ _ _ Hlogs')) _ _ Hj) as Hn.
      destruct (log_ok_last_some _ (no_log _ _ _ Hn)) as [e He]. exists e, e. auto.
    + apply Nat2Z.inj in Em as <-.
      pose proof (co_node _ _ (eo_ok _ _ _ (lo_el _ _ _ _ Hlogs')) _ _ Hj) as Hn.
      eapply vote_up_to_date; [apply Hn| |done].
      eapply step_args; try done; [by eapply list_elem_of_lookup_2|done].
Qed.

Lemma step_vote j u v l t a p :
  V' !! (j, u) = Some (v, l) -> A' !! (j, t) = Some a -> t < u -> p `prefix_of` a -> ends t p ->
  choosable n A' (nodes c') t p -> p `prefix_of` l.
Proof.
  intros Hv Ha Htu Hp Hends Hc. pose proof (step_before _ _ Hc) as Hc0.
  destruct (V !! (j, u)) as [[v0 l0]|] eqn:Hv0.
  - pose proof (lookup_weaken _ _ _ _ Hv0 HV) as E. rewrite Hv in E. injection E as <- <-.
    rewrite (as_other _ _ _ _ _ Hack) in Ha; [by eapply (sa_vote _ _ _ _ _ Hsafe)|].
    intros [= -> ->]. destruct (eo_ledger _ _ _ (lo_el _ _ _ _ (sa_logs _ _ _ _ _ Hsafe)) _ _ Hi) as [_ Hn].
    rewrite Hn in Hv0 by lia. done.
  - destruct (Hfresh _ _ _ _ Hv Hv0) as (rj & Hj & _ & <- & _). by eapply step_keep.
Qed.

Lemma step_vlog j u v l : V' !! (j, u) = Some (v, l) ->
  log_ok l /\ agrees G' l /\ exists m, v = Z.of_nat m /\ arrived (nodes c') m u.
Proof.
  intros Hv. destruct (V !! (j, u)) as [[v0 l0]|] eqn:Hv0.
  - pose proof (lookup_weaken _ _ _ _ Hv0 HV) as E. rewrite Hv in E. injection E as <- <-.
    destruct (sa_vlog _ _ _ _ _ Hsafe _ _ _ _ Hv0) as (? & Hag & m & -> & Harr).
    split_and!; [done|by eapply agrees_grows|]. exists m. split; [done|]. rewrite Hns. by eapply arrived_raise.
  - destruct (Hfresh _ _ _ _ Hv Hv0) as (rj & Hj & Htj & <- & Hwhy). pose proof (eo_ok _ _ _ (lo_el _ _ _ _ Hlogs')) as Hok.
    split_and!; [apply (co_node _ _ Hok _ _ Hj)|by apply (lo_log _ _ _ _ Hlogs' _ _ Hj)|].
    destruct Hwhy as [->|(k & m & ep & args & reply & Hk & -> & _)].
    + exists j. split; [done|]. exists rj. split; [done|lia].
    + exists m. split; [done|]. destruct (co_thread _ _ Hok _ _ Hk) as ((q & Hq & Hqt) & _). exists q. split; [done|lia].
Qed.

Lemma step_ack j t a : A' !! (j, t) = Some a ->
  arrived (nodes c') j t /\ exists m g, G' !! t = Some (m, g) /\ a `prefix_of` g.
Proof.
  intros Ha. destruct (decide ((j, t) = (i, currentTerm rf'))) as [[= -> ->]|Hne].
  - split; [|apply (as_new _ _ _ _ _ Hack _ Ha)]. exists rf'. split; [|done].
    rewrite Hns. apply list_lookup_insert_eq. by eapply lookup_lt_Some.
  - rewrite (as_other _ _ _ _ _ Hack) in Ha by done.
    destruct (sa_ack _ _ _ _ _ Hsafe _ _ _ Ha) as (Harr & m & g & Hg & Hp).
    split; [rewrite Hns; by eapply arrived_raise|]. destruct (HG _ _ _ Hg) as (g' & Hg' & [Hpre _]).
    exists m, g'. split; [done|by etransitivity].
Qed.

Lemma safe_step :
  (state rf' = Leader -> A' !! (i, currentTerm rf') = Some (log rf')) ->
  (forall t u m g m' g' p, t < u -> G' !! t = Some (m, g) -> G' !! u = Some (m', g') -> p `prefix_of` g -> ends t p ->
     choosable n A' (nodes c') t p -> p `prefix_of` g') ->
  (forall t m j args, t ∈ threads c' -> success_of t = Some (m, j, args) ->
     (exists t0, t0 ∈ threads c /\ success_of t0 = Some (m, j, args)) \/ acked G' A' m j args) ->
  safe_ok n V' G' A' c'.
Proof.
  intros Hlead Helect Hnew. constructor; [done|exact step_ack| |exact step_keep|exact step_vote|exact step_vlog|done
    |exact step_ballot|exact step_args|].
  2: { intros t m j args Ht Hs. destruct (Hnew _ _ _ _ Ht Hs) as [(t0 & Ht0 & Hs0)|?]; [|done].
       eapply acked_grows; [done|by eapply ack_step_grows|by eapply (sa_acked _ _ _ _ _ Hsafe)]. }
  intros j r' Hj Hst. destruct (step_node j r' Hj) as [[-> ->]|[Hne Hj0]]; [by apply Hlead|].
  rewrite (as_other _ _ _ _ _ Hack) by congruence. by apply (sa_lead _ _ _ _ _ Hsafe).
Qed.

End Step.

Definition safe_next (n : nat) (G : history) (A : acks) (c' : Cluster) : Prop :=
  exists V' G' A', grows G G' /\ acks_grow A A' /\ safe_ok n V' G' A' c'.

(** Nothing is acknowledged. *)
Lemma no_ack G G' A i rf' n V c :
  safe_ok n V G A c -> grows G G' -> ack_step G' A A i rf'.
Proof.
  intros Hs HG. constructor; [done|by eauto|]. intros b Hb. split; [|intros p Hp; left; by exists b].
  destruct (sa_ack _ _ _ _ _ Hs _ _ _ Hb) as (_ & m & g & Hg & Hp).
  destruct (HG _ _ _ Hg) as (g' & Hg' & [Hpre _]). exists m, g'. split; [done|by etransitivity].
Qed.

(** Server [i] acknowledges [b], which is its log or a part of it. *)
Lemma new_ack G' A i rf' m g b :
  G' !! currentTerm rf' = Some (m, g) -> b `prefix_of` g -> b `prefix_of` log rf' ->
  (forall a, A !! (i, currentTerm rf') = Some a -> a `prefix_of` b) ->
  ack_step G' A (<[(i, currentTerm rf') := b]> A) i rf'.
Proof.
  intros Hg Hbg Hbl Hold. constructor.
  - intros j t Hne. by rewrite lookup_insert_ne.
  - intros a Ha. exists b. rewrite lookup_insert_eq. auto.
  - intros b' [[_ <-]|[? _]]%lookup_insert_Some; [|done]. split; [by exists m, g|]. intros p Hp. right. by etransitivity.
Qed.

Lemma safe_same n V V' G A c c' i rf rf' :
  safe_ok n V G A c -> logs_ok n V' G c' -> V ⊆ V' -> fresh_votes V V' c' -> new_requests c c' ->
  nodes c !! i = Some rf -> nodes c' = <[i := rf']> (nodes c) -> currentTerm rf <= currentTerm rf' ->
  (state rf' = Leader -> state rf = Leader /\ currentTerm rf' = currentTerm rf) -> log rf' = log rf ->
  same_successes c c' -> safe_ok n V' G A c'.
Proof.
  intros Hs Hlo' HV Hf Hr Hi Hns Hle Hst Hl Hss.
  assert (ack_step G A A i rf') as Hack by (by eapply no_ack).
  eapply (safe_step Hs Hlo' HV Hf (reflexivity G) Hr Hi Hns Hle Hack).
  - by left.
  - intros t a p _ _ _ _ Hp. by rewrite Hl.
  - intros [E ->]%Hst. rewrite Hl. by apply (sa_lead _ _ _ _ _ Hs).
  - intros t u m g m' g' p Htu Hg Hg' Hp He Hc. eapply (sa_elect _ _ _ _ _ Hs t u); try done. by eapply choosable_before.
  - intros t m j args Ht Hx. left. by eapply Hss.
Qed.

Lemma safe_win n V V' G A c c' i rf rf' :
  let G' := <[currentTerm rf := (i, log rf)]> G in
  let A' := <[(i, currentTerm rf) := log rf]> A in
  safe_ok n V G A c -> logs_ok n V' G' c' -> V ⊆ V' -> fresh_votes V V' c' -> new_requests c c' ->
  nodes c !! i = Some rf -> nodes c' = <[i := rf']> (nodes c) -> state rf' = Leader ->
  currentTerm rf' = currentTerm rf -> log rf' = log rf -> G !! currentTerm rf = None -> grows G G' ->
  chosen n V i (currentTerm rf) -> same_successes c c' -> acks_grow A A' /\ safe_ok n V' G' A' c'.
Proof.
  intros G' A' Hs Hlo' HV Hf Hr Hi Hns Hst Ht Hl Hnone HG Hch Hss.
  assert (ack_step G' A A' i rf') as Hack.
  { unfold A'. rewrite <- Ht. eapply (new_ack _ _ _ _ i (log rf)); [unfold G'; by rewrite Ht, lookup_insert_eq|done|by rewrite Hl|].
    intros a Ha. rewrite Ht in Ha. destruct (sa_ack _ _ _ _ _ Hs _ _ _ Ha) as (_ & m & g & Hg & _). congruence. }
  split; [by eapply ack_step_grows|].
  eapply (safe_step Hs Hlo' HV Hf HG Hr Hi Hns ltac:(lia) Hack).
  - by left.
  - intros t a p _ _ _ _ Hp. by rewrite Hl.
  - intros _. unfold A'. by rewrite Ht, lookup_insert_eq, Hl.
  - intros t u m g m' g' p Htu Hg Hg' Hp He Hc.
    assert (choosable n A (nodes c) t p) as Hc0 by (eapply choosable_before; [done|done| |done|done]; lia).
    assert (t <> currentTerm rf -> G !! t = Some (m, g)) as Hg0.
    { intros Hne. unfold G' in Hg. by rewrite lookup_insert_ne in Hg. }
    destruct (decide (t = currentTerm rf)) as [->|Hne].
    + exfalso. unfold G' in Hg. rewrite lookup_insert_eq in Hg. injection Hg as <- <-.
      destruct He as (e & He & Het). pose proof (co_node _ _ (eo_ok _ _ _ (lo_el _ _ _ _ (sa_logs _ _ _ _ _ Hs))) _ _ Hi) as Hn.
      rewrite last_lookup in He. pose proof (prefix_lookup_Some _ _ _ _ He Hp) as Hk.
      destruct (pred (length p)) as [|k] eqn:Ek.
      * rewrite (log_sentinel _ (no_log _ _ _ Hn)) in Hk. injection Hk as <-. simpl in Het.
        destruct (lo_hist _ _ _ _ Hlo' (currentTerm rf) i (log rf)) as [_ _ _ (? & _ & ?) _]; [apply lookup_insert_eq|]. lia.
      * destruct (lo_log _ _ _ _ (sa_logs _ _ _ _ _ Hs) _ _ Hi _ _ Hk) as (m0 & g0 & Hg & _). congruence.
    + destruct (decide (u = currentTerm rf)) as [->|Hne'].
      * unfold G' in Hg'. rewrite lookup_insert_eq in Hg'. injection Hg' as <- <-.
        eapply winner_has; try done. by apply Hg0.
      * unfold G' in Hg'. rewrite lookup_insert_ne in Hg' by done.
        eapply (sa_elect _ _ _ _ _ Hs t u); try done. by apply Hg0.
  - intros t m j args Htt Hx. left. by eapply Hss.
Qed.

Lemma safe_append n V V' G A c c' i rf rf' e :
  let G' := <[currentTerm rf := (i, log rf ++ [e])]> G in
  let A' := <[(i, currentTerm rf) := log rf ++ [e]]> A in
  safe_ok n V G A c -> logs_ok n V' G' c' -> V ⊆ V' -> fresh_votes V V' c' -> new_requests c c' ->
  nodes c !! i = Some rf -> nodes c' = <[i := rf']> (nodes c) -> state rf = Leader ->
  currentTerm rf' = currentTerm rf -> log rf' = log rf ++ [e] -> grows G G' -> same_successes c c' ->
  acks_grow A A' /\ safe_ok n V' G' A' c'.
Proof.
  intros G' A' Hs Hlo' HV Hf Hr Hi Hns Hst Ht Hl HG Hss.
  pose proof (sa_logs _ _ _ _ _ Hs) as Hlo. pose proof (lo_leader _ _ _ _ Hlo _ _ Hi Hst) as Hg0.
  assert (log rf `prefix_of` log rf ++ [e]) as Hpre by (by apply prefix_app_r).
  assert (ack_step G' A A' i rf') as Hack.
  { unfold A'. rewrite <- Ht. eapply (new_ack _ _ _ _ i (log rf ++ [e])); [unfold G'; by rewrite Ht, lookup_insert_eq|done|by rewrite Hl|].
    intros a Ha. rewrite Ht, (sa_lead _ _ _ _ _ Hs _ _ Hi Hst) in Ha. by injection Ha as <-. }
  split; [by eapply ack_step_grows|].
  eapply (safe_step Hs Hlo' HV Hf HG Hr Hi Hns ltac:(lia) Hack).
  - intros _. right. unfold G'. by rewrite Ht, lookup_insert_eq.
  - intros t a p _ _ _ _ Hp. rewrite Hl. by etransitivity.
  - intros _. unfold A'. by rewrite Ht, lookup_insert_eq, Hl.
  - intros t u m g m' g' p Htu Hg Hg' Hp He Hc.
    assert (choosable n A (nodes c) t p) as Hc0 by (eapply choosable_before; [done|done| |done|done]; lia).
    assert (forall p g1, p `prefix_of` g1 -> G !! u = Some (m', g1) -> p `prefix_of` g') as Hup.
    { intros q g1 Hq Hg1. destruct (HG _ _ _ Hg1) as (g2 & Hg2 & [? _]). rewrite Hg' in Hg2. injection Hg2 as <-. by etransitivity. }
    assert (exists g1, G !! u = Some (m', g1)) as [g1 Hg1].
    { unfold G' in Hg'. apply lookup_insert_Some in Hg' as [[<- [= <- <-]]|[_ ?]]; eauto. }
    destruct (decide (t = currentTerm rf)) as [->|Hne].
    + unfold G' in Hg. rewrite lookup_insert_eq in Hg. injection Hg as <- <-.
      destruct (choosable_voter _ _ _ _ _ _ _ _ (lo_el _ _ _ _ Hlo) Hc0
                  (ho_chosen _ _ _ _ _ _ _ (lo_hist _ _ _ _ Hlo _ _ _ Hg1)) Htu) as (j & rj & l & a & _ & _ & _ & Ha & Hpa).
      destruct (sa_ack _ _ _ _ _ Hs _ _ _ Ha) as (_ & m0 & g0 & Hg2 & Hag). rewrite Hg0 in Hg2. injection Hg2 as <- <-.
      eapply Hup; [|done]. eapply (sa_elect _ _ _ _ _ Hs (currentTerm rf) u); try done. by transitivity a.
    + unfold G' in Hg. rewrite lookup_insert_ne in Hg by done. eapply Hup; [|done]. by eapply (sa_elect _ _ _ _ _ Hs t u).
  - intros t m j args Htt Hx. left. by eapply Hss.
Qed.

Lemma safe_accept n V V' G A c c' i j rf rf' args g L :
  safe_ok n V G A c -> logs_ok n V' G c' -> V ⊆ V' -> fresh_votes V V' c' -> new_requests c c' ->
  nodes c !! j = Some rf -> nodes c' = <[j := rf']> (nodes c) -> state rf' <> Leader ->
  currentTerm rf <= currentTerm rf' -> currentTerm rf' = aea_Term args ->
  G !! aea_Term args = Some (i, g) -> L `prefix_of` g -> merged (log rf) L (log rf') -> cut_from L args ->
  (forall t x, t ∈ threads c' -> success_of t = Some x ->
     (exists t0, t0 ∈ threads c /\ success_of t0 = Some x) \/ x = (i, j, args)) ->
  exists A', acks_grow A A' /\ safe_ok n V' G A' c'.
Proof.
  intros Hs Hlo' HV Hf Hr Hj Hns Hnl Hle Ht Hg HLg Hm Hcut Hnew.
  assert (exists A' b, ack_step G A A' j rf' /\ A' !! (j, aea_Term args) = Some b /\ L `prefix_of` b)
    as (A' & b & Hack & Hb & HLb).
  { destruct (A !! (j, aea_Term args)) as [a|] eqn:Ha.
    - destruct (sa_ack _ _ _ _ _ Hs _ _ _ Ha) as (_ & m & g0 & Hg0 & Hag).
      rewrite Hg in Hg0. injection Hg0 as <- <-.
      destruct (prefix_weak_total _ _ _ HLg Hag) as [HLa|HaL].
      + exists A, a. split_and!; [by eapply no_ack|done|done].
      + exists (<[(j, currentTerm rf') := L]> A), L. split_and!; [|by rewrite <- Ht, lookup_insert_eq|done].
        eapply new_ack; [by rewrite Ht|done|apply Hm|]. rewrite Ht, Ha. by intros ? [= <-].
    - exists (<[(j, currentTerm rf') := L]> A), L. split_and!; [|by rewrite <- Ht, lookup_insert_eq|done].
      eapply new_ack; [by rewrite Ht|done|apply Hm|]. by rewrite Ht, Ha. }
  exists A'. split; [by eapply ack_step_grows|].
  eapply (safe_step Hs Hlo' HV Hf (reflexivity G) Hr Hj Hns Hle Hack).
  - intros _. right. by rewrite Ht, Hg.
  - intros t a p Ha Hp He Hc Hpl. eapply (mg_keeps _ _ _ Hm p g); [done| |done].
    destruct (sa_ack _ _ _ _ _ Hs _ _ _ Ha) as ((r & Hr' & Hrt) & m & gt & Hgt & Hagt).
    rewrite Hj in Hr'. injection Hr' as <-.
    destruct (decide (t = aea_Term args)) as [->|Hne].
    + rewrite Hg in Hgt. injection Hgt as <- <-. by transitivity a.
    + eapply (sa_elect _ _ _ _ _ Hs t (aea_Term args)); try done; [lia|by transitivity a].
  - done.
  - intros t u m g0 m' g' p Htu Hg0 Hg' Hp He Hc. eapply (sa_elect _ _ _ _ _ Hs t u); try done. by eapply choosable_before.
  - intros t m j' args' Htt Hx. destruct (Hnew _ _ Htt Hx) as [?|[= -> -> ->]]; [by left|right]. by exists g, L, b.
Qed.

Lemma step_safe `{!CodecLaws} n V G A c l c' :
  safe_ok n V G A c -> orderly c l = true -> terms_small c' -> step c l = Val c' -> (0 < n)%nat ->
  safe_next n G A c'.
Proof.
  intros Hs Hor Hsm Hstep Hn0. pose proof (sa_logs _ _ _ _ _ Hs) as Hlo.
  destruct (step_logs _ _ _ _ _ _ Hlo Hor Hsm Hstep) as (V' & G' & HV & Hf & Hlo' & Hev & Hr).
  pose proof (log_event_grows _ _ _ _ _ _ Hlo Hev) as HG.
  destruct Hev as [Hns Hss|i rf rf' Hi Hns Hle Hst Hl Hss|i rf rf' Hi Hns Hc Hst Ht Hl Hnone Hch Hss
    |i rf rf' e Hi Hns Hst _ Ht Hl _ Hss|i j rf rf' args u g L Hj Hns Hnl Hle <- Hg [HL _] Hm Hau Hcut Hnew].
  - exists V', G, A. split_and!; [done|done|].
    destruct (lookup_lt_is_Some_2 (nodes c) 0) as [rf Hrf].
    { by rewrite (co_nodes _ _ (eo_ok _ _ _ (lo_el _ _ _ _ Hlo))). }
    eapply (safe_same n V V' G A c c' 0 rf rf); try done. by rewrite list_insert_id.
  - exists V', G, A. split_and!; [done|done|]. by eapply safe_same.
  - destruct (safe_win n V V' G A c c' i rf rf') as [HA Hs']; try done. by eexists V', _, _.
  - destruct (safe_append n V V' G A c c' i rf rf' e) as [HA Hs']; try done. by eexists V', _, _.
  - destruct (safe_accept n V V' G A c c' i j rf rf' args g L) as (A' & HA & Hs'); try done; try congruence.
    by exists V', G, A'.
Qed.

Lemma init_safe n now rnd c : init_cluster n now rnd = Val c -> safe_ok n ∅ ∅ ∅ c.
Proof.
  intros Hc. pose proof (init_logs _ _ _ _ Hc) as Hlo. apply init_nodes in Hc as (_ & Hn & _ & _ & Ht & _).
  constructor; try done.
  - intros i rf Hi E. destruct (Hn i rf Hi) as (_ & _ & _ & _ & E'). congruence.
  - intros t i u args rf Hin. rewrite Ht in Hin. by apply elem_of_nil in Hin.
  - intros t i j args Hin. rewrite Ht in Hin. by apply elem_of_nil in Hin.
Qed.

End Commit.
End RaftCommit.
