(* ===== verification/RaftMachine.v ===== *)
(** * State machine safety

    No two servers apply different commands at the same index.  What is committed was acknowledged by a
    majority in the term of its leader ([committed]); by RaftCommit.v the leaders of later terms have it,
    so committed logs never disagree, and every server applies committed entries only.

    The leader counts [matchIndex], which raft.go does not reset when a server is elected, which a late
    reply may change, and which is counted once more after the server has stepped down.  [disciplined] is
    [orderly] and the condition that
    - an acknowledgement is used in the term of its request;
    - a server that wins an election has no acknowledgements of an earlier term in its [matchIndex];
    - the commit index is moved only by a server that still leads. *)

From stdpp Require Import base list gmap strings relations.
From Stdlib Require Import ZArith Lia.
From S2P Require Import Prelude RaftNode RaftCodec RaftInv RaftCluster RaftClusterInv RaftElection RaftLogs RaftCommit.
Import RaftNode RaftCodec RaftInv RaftCluster RaftClusterInv RaftElection RaftLogs RaftCommit.

Open Scope Z_scope.

Module RaftMachine.

Section Machine.
Context {Cmd : Type} `{Codec Cmd}.
Notation Raft := (Raft Cmd).
Notation Entry := (Entry Cmd).
Notation Cluster := (@Cluster Cmd).
Notation thread := (@thread Cmd).
Notation label := (@label Cmd).
Notation ledger := (gmap (nat * Z) (Z * list Entry)).
Notation history := (gmap Z (nat * list Entry)).
Notation acks := (gmap (nat * Z) (list Entry)).

(** No other server has acknowledged anything to this one. *)
Definition fresh_match (i : nat) (rf : Raft) : bool :=
  forallb (fun j => bool_decide (j = i) || bool_decide (matchIndex rf !! j = Some 0)) (seq 0 (npeers rf)).

(** An acknowledgement is used in the term of its request, and only a leader moves the commit index. *)
Definition prompt (c : Cluster) (l : label) : bool :=
  orderly c l &&
  match l with
  | LThread k _ =>
      match threads c !! k with
      | Some (TBeat i ep j (HReplied args reply)) => negb (Success reply) || (term_of c i =? aea_Term args)
      | _ => true
      end
  | LRun i _ =>
      match nodes c !! i, pcs c !! i with
      | Some rf, Some PCommit => bool_decide (state rf = Leader)
      | _, _ => true
      end
  | _ => true
  end.

(** ... and nothing of an earlier term is counted. *)
Definition disciplined (c : Cluster) (l : label) : bool :=
  prompt c l &&
  match l with
  | LRun i _ =>
      match nodes c !! i, pcs c !! i with
      | Some rf, Some PVotes => negb (bool_decide (state (candidate_check rf) = Leader)) || fresh_match i rf
      | _, _ => true
      end
  | _ => true
  end.

(** A step of a disciplined execution *)
Definition dstep (c c' : Cluster) : Prop :=
  exists l, disciplined c l = true /\ step c l = Val c' /\ small c' = true.

Lemma dsteps_rtc ls c c' : run_while disciplined c ls = Some c' -> rtc dstep c c'.
Proof. apply run_while_rtc. Qed.

(** ** Committed logs *)

(** A majority acknowledged [p] in term [t], from the leader of that term, which made its last entry. *)
Definition committed (n : nat) (G : history) (A : acks) (t : Z) (p : list Entry) : Prop :=
  ends t p /\ (exists i g, G !! t = Some (i, g) /\ p `prefix_of` g) /\
  exists Q, majority n Q /\ forall j, j ∈ Q -> exists a, A !! (j, t) = Some a /\ p `prefix_of` a.

(** The log [l] up to index [ci] is committed, by a leader of a term up to [u]. *)
Definition covered (n : nat) (G : history) (A : acks) (l : list Entry) (ci u : Z) : Prop :=
  0 <= ci /\
  (ci = 0 \/ (ci < len l /\ exists t p, committed n G A t p /\ t <= u /\ take (S (Z.to_nat ci)) l `prefix_of` p)).

(** Entry [e] is committed, at its index. *)
Definition committed_entry (n : nat) (G : history) (A : acks) (e : Entry) : Prop :=
  0 <= Index e /\ exists t p, committed n G A t p /\ p !! Z.to_nat (Index e) = Some e.

Lemma committed_grows n G G' A A' t p :
  grows G G' -> acks_grow A A' -> committed n G A t p -> committed n G' A' t p.
Proof.
  intros HG HA (He & (i & g & Hg & Hp) & Q & HQ & Hall). split; [done|]. split.
  - destruct (HG _ _ _ Hg) as (g' & Hg' & [Hpre _]). exists i, g'. split; [done|by transitivity g].
  - exists Q. split; [done|]. intros j Hj. destruct (Hall j Hj) as (a & Ha & Hpa).
    destruct (HA _ _ Ha) as (b & Hb & Hab). exists b. split; [done|by transitivity a].
Qed.

Lemma covered_grows n G G' A A' l ci u :
  grows G G' -> acks_grow A A' -> covered n G A l ci u -> covered n G' A' l ci u.
Proof.
  intros HG HA [Hp [?|(Hlt & t & p & Hc & Htu & Hpre)]]; (split; [done|]); [by left|right].
  split; [done|]. exists t, p. split_and!; [by eapply committed_grows|done|done].
Qed.

Lemma committed_entry_grows n G G' A A' e :
  grows G G' -> acks_grow A A' -> committed_entry n G A e -> committed_entry n G' A' e.
Proof. intros HG HA (Hp & t & p & Hc & He). split; [done|]. exists t, p. split; [by eapply committed_grows|done]. Qed.

Lemma committed_leader n V G A c t p u i g :
  safe_ok n V G A c -> committed n G A t p -> t <= u -> G !! u = Some (i, g) -> p `prefix_of` g.
Proof.
  intros Hs (He & (j & gt & Hgt & Hp) & Q & HQ & Hall) Htu Hg.
  destruct (decide (t = u)) as [->|Hne]; [congruence|].
  eapply (sa_elect _ _ _ _ _ Hs t u); try done; [lia|]. exists Q. split; [done|]. intros k rf Hk _ _. by apply Hall.
Qed.

(** Committed entries at one index are equal. *)
Lemma committed_entry_unique n V G A c e1 e2 :
  safe_ok n V G A c -> committed_entry n G A e1 -> committed_entry n G A e2 -> Index e1 = Index e2 -> e1 = e2.
Proof.
  intros Hs (_ & t1 & p1 & Hc1 & He1) (_ & t2 & p2 & Hc2 & He2) Hi. rewrite Hi in He1.
  assert (exists g, p1 `prefix_of` g /\ p2 `prefix_of` g) as (g & H1 & H2).
  { destruct (Z.le_ge_cases t1 t2).
    - destruct Hc2 as (? & (i & g & Hg & Hp2) & ?). exists g. split; [by eapply committed_leader|done].
    - destruct Hc1 as (? & (i & g & Hg & Hp1) & ?). exists g. split; [done|by eapply committed_leader]. }
  pose proof (prefix_lookup_Some _ _ _ _ He1 H1). pose proof (prefix_lookup_Some _ _ _ _ He2 H2). congruence.
Qed.

(** ** The invariant *)

(** What leader [i] knows of peer [j]: [j] has acknowledged the log up to index [m]. *)
Definition match_ok (A : acks) (i : nat) (rf : Raft) : Prop :=
  forall j m, j <> i -> matchIndex rf !! j = Some m ->
    m = 0 \/ (0 < m < len (log rf) /\ exists a, A !! (j, currentTerm rf) = Some a /\
                take (S (Z.to_nat m)) (log rf) `prefix_of` a).

Record node_commit (n : nat) (G : history) (A : acks) (i : nat) (rf : Raft) : Prop := {
  nc_commit : covered n G A (log rf) (commitIndex rf) (currentTerm rf);
  nc_applied : 0 <= lastApplied rf;
  nc_match : state rf = Leader -> match_ok A i rf;
  nc_me : forall m, matchIndex rf !! i = Some m -> m < len (log rf) }.

Definition thread_commit (n : nat) (G : history) (A : acks) (t : thread) : Prop :=
  match t with
  | TBeat i _ j (HSent args) =>
      exists g L, G !! aea_Term args = Some (i, g) /\ L `prefix_of` g /\ cut_from L args /\
        covered n G A L (LeaderCommit args) (aea_Term args)
  | TApply _ _ es | TAck _ _ _ es => Forall (committed_entry n G A) es
  | _ => True
  end.

Definition applied_commit (n : nat) (G : history) (A : acks) (ms : list (ApplyMsg Cmd)) : Prop :=
  Forall (fun m => exists e, m = apply_msg e /\ committed_entry n G A e) ms.

Record commits_ok (n : nat) (V : ledger) (G : history) (A : acks) (c : Cluster) : Prop := {
  cm_safe : safe_ok n V G A c;
  cm_node : forall i rf, nodes c !! i = Some rf -> node_commit n G A i rf;
  cm_thread : Forall (thread_commit n G A) (threads c);
  cm_applied : Forall (applied_commit n G A) (applied c) }.

Lemma node_commit_grows n G G' A A' i rf :
  grows G G' -> acks_grow A A' -> node_commit n G A i rf -> node_commit n G' A' i rf.
Proof.
  intros HG HA [Hc Ha Hm Hme]. constructor; [by eapply covered_grows|done| |done].
  intros Hs j m Hj Hmj. destruct (Hm Hs j m Hj Hmj) as [?|(? & a & Hac & Hp)]; [by left|right]. split; [done|].
  destruct (HA _ _ Hac) as (b & Hb & Hab). exists b. split; [done|by transitivity a].
Qed.

Lemma thread_commit_grows n G G' A A' t :
  grows G G' -> acks_grow A A' -> thread_commit n G A t -> thread_commit n G' A' t.
Proof.
  intros HG HA. destruct t as [|i ep j [|args|]| |i ep es|i ep x es|]; simpl; try done.
  - intros (g & L & Hg & HL & Hc & Hcov). destruct (HG _ _ _ Hg) as (g' & Hg' & [Hp _]).
    exists g', L. split_and!; [done|by transitivity g|done|by eapply covered_grows].
  - intros Hes. eapply Forall_impl; [done|]. intros. by eapply committed_entry_grows.
  - intros Hes. eapply Forall_impl; [done|]. intros. by eapply committed_entry_grows.
Qed.

Lemma applied_commit_grows n G G' A A' ms :
  grows G G' -> acks_grow A A' -> applied_commit n G A ms -> applied_commit n G' A' ms.
Proof.
  intros HG HA Hms. eapply Forall_impl; [done|]. intros m (e & -> & He). exists e.
  split; [done|by eapply committed_entry_grows].
Qed.

(** ** Sections that do not touch log, commit index and [matchIndex] *)

Record same_commit (rf rf' : Raft) : Prop := {
  sc_log : log rf' = log rf;
  sc_commit : commitIndex rf' = commitIndex rf;
  sc_match : matchIndex rf' = matchIndex rf;
  sc_applied : lastApplied rf <= lastApplied rf' }.

Lemma node_commit_same n G A i rf rf' :
  same_commit rf rf' -> calm rf rf' \/ (currentTerm rf <= currentTerm rf' /\ state rf' <> Leader) ->
  node_commit n G A i rf -> node_commit n G A i rf'.
Proof.
  intros [Hl Hc Hm Ha] Hst [[Hp Hcov] Hap Hma Hme].
  assert (currentTerm rf <= currentTerm rf') as Hle by (destruct Hst as [[? _]|[? _]]; done).
  constructor; rewrite ?Hl, ?Hc, ?Hm; try done; [|lia|].
  - split; [done|]. destruct Hcov as [?|(Hlt & t & p & Hcm & Htu & Hpre)]; [by left|right]. split; [done|].
    exists t, p. split_and!; [done|lia|done].
  - intros Hs. unfold match_ok. destruct Hst as [[_ [?|[E1 E2]]]|[_ ?]]; [congruence| |done].
    rewrite Hl, Hm, E2. apply Hma. congruence.
Qed.

Lemma RequestVote_commit rf args now rf' reply :
  RequestVote rf args now = Val (rf', reply) -> same_commit rf rf'.
Proof.
  unfold RequestVote. intros Hr.
  destruct (currentTerm rf <? rva_Term args); destruct (_ || _);
    repeat match goal with
    | Hy : _ ≫= _ = Val _ |- _ => apply bind_val in Hy as (? & _ & Hy)
    | Hy : (if ?b then _ else _) = Val _ |- _ => destruct b
    end; injection Hr as <- _; by constructor.
Qed.

Lemma vote_reply_commit rf reply : same_commit rf (vote_reply rf reply).
Proof. unfold vote_reply. destruct (VoteGranted reply); [by constructor|]. destruct (_ <? _); by constructor. Qed.

Lemma apply_ack_commit rf index : same_commit rf (apply_ack rf index).
Proof. unfold apply_ack. destruct (Z.ltb_spec (lastApplied rf) index); constructor; simpl; try done. lia. Qed.

(** ** Counting acknowledgements *)

Lemma count_loop_spec mi i k commit counter minN counter' minN' :
  count_loop mi i k commit counter minN = Val (counter', minN') ->
  exists Q : gset nat,
    (forall j, j ∈ Q -> (i <= j < i + k)%nat /\ exists x, mi !! j = Some x /\ commit < x /\ minN' <= x) /\
    counter' = counter + Z.of_nat (size Q) /\ minN' <= minN /\ (commit < minN -> commit < minN').
Proof.
  revert i counter minN. induction k as [|k IH]; intros i counter minN; simpl.
  - intros [= <- <-]. exists ∅. rewrite size_empty. split_and!; [set_solver|lia|lia|done].
  - intros (x & [_ Hx]%go_index_val & Hr)%bind_val. rewrite Nat2Z.id in Hx.
    destruct (Z.ltb_spec commit x) as [Hlt|Hge].
    + destruct (IH _ _ _ Hr) as (Q & HQ & Hc & Hm & Hmc).
      assert (minN' <= x /\ minN' <= minN) as [Hmx Hmm] by (destruct (Z.ltb_spec x minN); lia).
      assert (i ∉ Q) as Hni by (intros Hin; destruct (HQ i Hin); lia).
      exists ({[ i ]} ∪ Q). split_and!; [|rewrite size_union, size_singleton by set_solver; lia|done|].
      * intros j [->%elem_of_singleton|Hj]%elem_of_union; [split; [lia|by exists x]|].
        destruct (HQ j Hj) as [? ?]. split; [lia|done].
      * intros Hcm. apply Hmc. destruct (Z.ltb_spec x minN); lia.
    + destruct (IH _ _ _ Hr) as (Q & HQ & Hc & Hm & Hmc). exists Q. split_and!; [|lia|done|done].
      intros j Hj. destruct (HQ j Hj) as [? ?]. split; [lia|done].
Qed.

(** The entries handed to an apply goroutine are committed. *)
Lemma sendApplyMsg_commit n G A rf es :
  log_ok (log rf) -> covered n G A (log rf) (commitIndex rf) (currentTerm rf) -> 0 <= lastApplied rf ->
  sendApplyMsg rf = Val (Some es) -> Forall (committed_entry n G A) es.
Proof.
  intros Hok [Hp Hcov] Hla. unfold sendApplyMsg. destruct (Z.ltb_spec (lastApplied rf) (commitIndex rf)) as [Hlt|]; [|done].
  destruct (go_slice _ _ _) as [l|] eqn:Hsl; simpl; [|done]. intros [= <-].
  apply go_slice_val in Hsl as (_ & _ & _ & ->).
  destruct Hcov as [?|(Hlen & t & p & Hc & _ & Hpre)]; [lia|].
  apply Forall_lookup. intros k e [Hk Hkl]%lookup_take_Some. rewrite lookup_drop in Hk.
  pose proof (log_index _ Hok _ _ Hk) as Hi. split; [lia|]. exists t, p. split; [done|].
  eapply prefix_lookup_Some; [|exact Hpre]. rewrite Hi, Nat2Z.id. rewrite lookup_take_lt by lia. done.
Qed.

(** The leader commits what a majority has acknowledged in its term. *)
Lemma advance_commit_commit n V G A c i rf rf' spawn :
  safe_ok n V G A c -> nodes c !! i = Some rf -> state rf = Leader -> node_commit n G A i rf ->
  advance_commit rf = Val (rf', spawn) ->
  node_commit n G A i rf' /\ (forall es, spawn = Some es -> Forall (committed_entry n G A) es).
Proof.
  intros Hs Hi Hst Hnc. pose proof (sa_logs _ _ _ _ _ Hs) as Hlo.
  pose proof (co_node _ _ (eo_ok _ _ _ (lo_el _ _ _ _ Hlo)) _ _ Hi) as Hn.
  unfold advance_commit. intros (mine & [_ Hmine]%go_index_val & Hr)%bind_val.
  assert (forall r, Val (rf, @None (list Entry)) = Val r -> r = (rf', spawn) ->
            node_commit n G A i rf' /\ (forall es, spawn = Some es -> Forall (committed_entry n G A) es)) as Hsame
    by (intros ? [= <-] [= <- <-]; done).
  rewrite (no_me _ _ _ Hn), Nat2Z.id in Hmine.
  destruct (Z.ltb_spec (commitIndex rf) mine) as [Hlt|]; [|injection Hr as <- <-; by eapply Hsame].
  apply bind_val in Hr as ([counter minN] & Hcl & Hr).
  destruct (Z.ltb_spec (Z.quot (Z.of_nat (npeers rf)) 2) counter) as [Hmaj|]; [|injection Hr as <- <-; by eapply Hsame].
  apply bind_val in Hr as (e & [Hp0 He]%go_index_val & Hr).
  destruct (Z.eqb_spec (Term e) (currentTerm rf)) as [Ht|]; [|injection Hr as <- <-; by eapply Hsame].
  apply bind_val in Hr as (sp & Hsp & [= <- <-]).
  destruct (count_loop_spec _ _ _ _ _ _ _ _ Hcl) as (Q & HQ & Hcnt & Hmm & Hmc).
  rewrite (no_npeers _ _ _ Hn) in *. destruct Hnc as [[Hci Hcov] Hap Hmatch Hme].
  pose proof (Hme _ Hmine) as Hlen. pose proof (lookup_lt_Some _ _ _ He) as Hml.
  set (p := take (S (Z.to_nat minN)) (log rf)).
  assert (committed n G A (currentTerm rf) p) as Hcom.
  { split; [|split].
    - exists e. split; [|done]. unfold p. rewrite (take_S_r _ _ e) by done. by rewrite last_snoc.
    - exists i, (log rf). split; [by apply (lo_leader _ _ _ _ Hlo)|apply prefix_take_le].
    - exists Q. split; [split; [intros j Hj; destruct (HQ j Hj) as [? _]; lia|lia]|].
      intros j Hj. destruct (HQ j Hj) as (_ & x & Hx & Hcx & Hmx). destruct (decide (j = i)) as [->|Hne].
      + exists (log rf). split; [by apply (sa_lead _ _ _ _ _ Hs)|apply prefix_take_le].
      + destruct (Hmatch Hst j x Hne Hx) as [?|(_ & a & Ha & Hpa)]; [lia|]. exists a. split; [done|].
        etransitivity; [|exact Hpa]. unfold p.
        apply (prefix_weak_total' _ _ (log rf)); [apply prefix_take_le..|]. rewrite !length_take. lia. }
  assert (covered n G A (log rf) minN (currentTerm rf)) as Hcov'.
  { split; [done|]. right. unfold len. split; [lia|]. exists (currentTerm rf), p. split_and!; [done|lia|done]. }
  split; [by constructor|]. intros es ->.
  apply (sendApplyMsg_commit n G A (set_commitIndex minN rf)); try done. apply Hn.
Qed.

(** A reply of the leader's term: the follower has acknowledged the request. *)
Lemma heartbeat_reply_commit n V G A c i j rf rf' args reply :
  safe_ok n V G A c -> nodes c !! i = Some rf -> node_commit n G A i rf -> j <> i ->
  (Success reply = true -> currentTerm rf = aea_Term args /\ acked G A i j args) -> append_args_ok args ->
  heartbeat_reply rf (Z.of_nat j) args reply = Val rf' -> node_commit n G A i rf'.
Proof.
  intros Hs Hi Hnc Hji Hack Haok. pose proof (sa_logs _ _ _ _ _ Hs) as Hlo. unfold heartbeat_reply.
  case_bool_decide as Hst; simpl; [|by intros [= <-]].
  destruct (Z.ltb_spec (currentTerm rf) (aer_Term reply)).
  { intros [= <-]. eapply (node_commit_same n G A i rf); [by constructor| |done]. right. split; [simpl; lia|done]. }
  destruct (Success reply) eqn:Hsu; simpl.
  - intros (mi & [_ ->]%go_update_val & (ni & _ & [= <-])%bind_val)%bind_val.
    destruct (Hack eq_refl) as (Ht & g & L & a & Hg & HL & [(x & Hx & _) Hcut] & Ha & HLa).
    rewrite <- Ht, (lo_leader _ _ _ _ Hlo _ _ Hi Hst) in Hg. injection Hg as <-.
    pose proof (lookup_lt_Some _ _ _ Hx) as Hxl. pose proof (aa_prev _ Haok) as Hp0.
    assert (PrevLogIndex args + len (Entries args) = len L - 1) as Hm.
    { rewrite Hcut. unfold len. rewrite length_drop. lia. }
    pose proof (prefix_length _ _ HL) as HLl. rewrite Hm, Nat2Z.id in *.
    destruct Hnc as [Hc Hap Hmatch Hme]. constructor; simpl; try done.
    + intros _ j' m' Hj'. simpl. intros [(<- & <- & _)|[_ Hm']]%list_lookup_insert_Some; [|by apply Hmatch].
      destruct (decide (len L - 1 = 0)) as [->|Hne]; [by left|right]. unfold len in *. split; [lia|].
      exists a. split; [by rewrite Ht|]. replace (S (Z.to_nat (Z.of_nat (length L) - 1))) with (length L) by lia.
      destruct HL as [s ->]. by rewrite take_app_length.
    + intros m' [(? & _)|[_ ?]]%list_lookup_insert_Some; [done|by apply Hme].
  - intros (ni & _ & Hr)%bind_val.
    assert (exists ni', rf' = set_nextIndex ni' rf) as [ni' ->].
    { destruct (negb _); [|injection Hr as <-; eauto]. apply bind_val in Hr as ([x|] & _ & Hr).
      - apply bind_val in Hr as (ni' & _ & [= <-]). eauto.
      - injection Hr as <-. eauto. }
    eapply (node_commit_same n G A i rf); [by constructor| |done]. left. split; [done|by right].
Qed.

Lemma Start_append_commit n G A i rf term command rf' index :
  node_commit n G A i rf -> npeers rf = n -> me rf = Z.of_nat i -> state rf = Leader ->
  Start_append rf term command = Val (rf', index) -> node_commit n G A i rf'.
Proof.
  intros [[Hp Hc] Hap Hm Hme] Hnp Hi Hst. unfold Start_append.
  intros (ni & _ & (mi & [_ ->]%go_update_val & [= <- _])%bind_val)%bind_val. simpl. rewrite Hi, Nat2Z.id.
  constructor; simpl.
  - split; [done|]. destruct Hc as [?|(Hlt & t & p & Hcm & Htu & Hpre)]; [by left|right].
    split; [rewrite len_app; unfold len in *; simpl; lia|]. exists t, p. split_and!; [done|done|].
    rewrite take_app_le; [done|]. unfold len in Hlt. lia.
  - done.
  - intros _ j m Hj. simpl. intros [(? & _)|[_ Hm']]%list_lookup_insert_Some; [done|].
    destruct (Hm Hst j m Hj Hm') as [?|(? & a & Ha & Hpa)]; [by left|right].
    split; [rewrite len_app; unfold len in *; simpl; lia|]. exists a. split; [done|].
    rewrite take_app_le; [done|]. unfold len in *. lia.
  - intros m [(_ & <- & _)|[? _]]%list_lookup_insert_Some; [|done]. rewrite !len_app. lia.
Qed.

Lemma Make_commit n G A n' i ps now rnd rf :
  Make n' (Z.of_nat i) ps now rnd = Val rf -> log_ok (log rf) -> node_commit n G A i rf.
Proof.
  unfold Make, readPersist. intros Hmk Hok%log_ok_len.
  assert (commitIndex rf = 0 /\ lastApplied rf = 0 /\ state rf = Follower /\ matchIndex rf = replicate n' 0) as (E1 & E2 & E3 & E4).
  { destruct (_ <? 1); [by injection Hmk as <-|]. destruct (decode_state _) as [[[l t] v]|]; [by injection Hmk as <-|done]. }
  constructor; rewrite ?E1, ?E2, ?E4; [split; [done|by left]|done|congruence|].
  intros m [-> _]%lookup_replicate. lia.
Qed.

(** ** Accepting entries *)

Lemma AppendEntries_fields (rf : Raft) args now rf' reply spawn :
  AppendEntries rf args now = Val (rf', reply, spawn) ->
  lastApplied rf' = lastApplied rf /\
  (matchIndex rf' = matchIndex rf /\ log rf' = log rf \/
   Success reply = true /\ matchIndex rf' = <[Z.to_nat (me rf) := len (log rf') - 1]> (matchIndex rf)) /\
  (forall es, spawn = Some es -> sendApplyMsg rf' = Val (Some es)).
Proof.
  unfold AppendEntries. destruct (aea_Term args <? currentTerm rf); [intros [= <- <- <-]; split_and!; [done|by left|done]|].
  intros ([rf1 [[ok xt] xi]] & Hchk & Hr)%bind_val.
  assert (lastApplied rf1 = lastApplied rf /\
    (matchIndex rf1 = matchIndex rf /\ log rf1 = log rf \/
     ok = true /\ matchIndex rf1 = <[Z.to_nat (me rf) := len (log rf1) - 1]> (matchIndex rf))) as [Hla Hmi].
  { unfold append_check in Hchk. destruct (_ <=? PrevLogIndex args); [injection Hchk as <- _ _ _; split; [done|by left]|].
    apply bind_val in Hchk as (prev & _ & Hchk). destruct (negb _).
    - apply bind_val in Hchk as (x & _ & [= <- _ _ _]). split; [done|by left].
    - apply bind_val in Hchk as (rf2 & Hrf2 & [= <- <- _ _]).
      assert (lastApplied rf2 = lastApplied rf /\
        (matchIndex rf2 = matchIndex rf /\ log rf2 = log rf \/
         matchIndex rf2 = <[Z.to_nat (me rf) := len (log rf2) - 1]> (matchIndex rf))) as [? ?].
      { destruct (0 <? _); [|injection Hrf2 as <-; split; [done|by left]]. apply bind_val in Hrf2 as (l & _ & Hrf2).
        apply bind_val in Hrf2 as (ni & _ & Hrf2). apply bind_val in Hrf2 as (mi & [_ ->]%go_update_val & [= <-]). simpl. auto. }
      destruct (_ <? LeaderCommit args); [destruct (LeaderCommit args <? _)|]; simpl; naive_solver. }
  apply bind_val in Hr as (sp & Hsp & [= <- <- <-]). simpl.
  destruct (currentTerm rf1 <? aea_Term args); simpl in *;
    (split_and!; [done|done|]; intros es ->; destruct (_ <? _); [exact Hsp|done]).
Qed.

Lemma cut_from_unique (L1 L2 g : list Entry) args :
  append_args_ok args -> L1 `prefix_of` g -> L2 `prefix_of` g -> cut_from L1 args -> cut_from L2 args -> L1 = L2.
Proof.
  intros Ha H1 H2 [(x & Hx%lookup_lt_Some & _) E1] [(y & Hy%lookup_lt_Some & _) E2].
  eapply prefix_same_length; [done|done|]. rewrite E1 in E2. apply (f_equal length) in E2. rewrite !length_drop in E2.
  pose proof (aa_prev _ Ha). lia.
Qed.

Lemma prefix_take_eq (q l : list Entry) k : q `prefix_of` l -> length q = k -> take k l = q.
Proof. intros [s ->] <-. by rewrite take_app_length. Qed.

Lemma AppendEntries_commit n V G A c k i ep j args rf now rf' reply spawn :
  commits_ok n V G A c -> threads c !! k = Some (TBeat i ep j (HSent args)) -> nodes c !! j = Some rf ->
  AppendEntries rf args now = Val (rf', reply, spawn) ->
  node_commit n G A j rf' /\ (forall es, spawn = Some es -> Forall (committed_entry n G A) es).
Proof.
  intros Hcm Hk Hj Hae. pose proof (cm_safe _ _ _ _ _ Hcm) as Hs. pose proof (sa_logs _ _ _ _ _ Hs) as Hlo.
  pose proof (eo_ok _ _ _ (lo_el _ _ _ _ Hlo)) as Hok. pose proof (co_node _ _ Hok _ _ Hj) as Hn.
  destruct (co_thread _ _ Hok _ _ Hk) as (_ & _ & _ & Ha). simpl in Ha.
  pose proof (cm_thread _ _ _ _ _ Hcm) as Hth. eapply Forall_lookup_1 in Hth; [|exact Hk].
  destruct Hth as (g0 & L0 & Hg0 & HL0 & Hcut0 & HcovL).
  destruct (AppendEntries_val _ _ _ _ _ _ _ _ Hn Ha Hae) as (Hn' & Hpas & _).
  destruct (AppendEntries_fields _ _ _ _ _ _ Hae) as (Hla & Hmi & Hspawn).
  pose proof (cm_node _ _ _ _ _ Hcm _ _ Hj) as [[Hci Hcov] Hap Hma Hme].
  pose proof (advance_term _ _ (pv_advance _ _ Hpas)) as Hle.
  assert (node_commit n G A j rf') as Hnc.
  { destruct (logs_accept _ _ _ _ _ _ _ _ _ _ _ _ _ _ Hlo Hk Hj Hae)
      as [(Hsu & Hl & Hc)|(Hsu & Hnl & Ht & g & L & Hg & HL & Hcut & _ & Hm & _ & Hc)].
    { eapply (node_commit_same n G A j rf); [|left; by apply passive_calm|by constructor].
      constructor; [done|done|by destruct Hmi as [[? _]|[? _]]; [|congruence]|lia]. }
    rewrite Hg in Hg0. injection Hg0 as <-.
    rewrite (cut_from_unique L0 L g args Ha HL0 (proj1 HL) Hcut0 Hcut) in HcovL.
    pose proof (prefix_length _ _ (mg_has _ _ _ Hm)) as HLl.
    constructor; [|lia|done|].
    - rewrite Ht. destruct (Z.ltb_spec (commitIndex rf) (LeaderCommit args)) as [Hlc|Hlc].
      + destruct HcovL as [_ [?|(HLlen & t & p & Hcp & Htu & Hpre)]]; [lia|]. unfold len in *.
        rewrite Hc, Z.min_l by lia. split; [lia|]. right. split; [unfold len; lia|]. exists t, p. split_and!; [done|done|].
        rewrite (prefix_take_eq (take (S (Z.to_nat (LeaderCommit args))) L)); [done| |rewrite length_take; lia].
        etransitivity; [apply prefix_take_le|apply Hm].
      + rewrite Hc. split; [done|]. destruct Hcov as [?|(Hlt & t & p & Hcp & Htu & Hpre)]; [by left|right].
        assert (take (S (Z.to_nat (commitIndex rf))) (log rf) `prefix_of` log rf') as Hq.
        { apply (mg_keeps _ _ _ Hm _ g); [apply prefix_take_le| |apply HL].
          etransitivity; [exact Hpre|]. eapply committed_leader; [done|done| |done]. lia. }
        unfold len in *. pose proof (prefix_length _ _ Hq) as Hql. rewrite length_take in Hql.
        split; [lia|]. exists t, p. split_and!; [done|lia|].
        rewrite (prefix_take_eq _ _ _ Hq); [done|]. rewrite length_take. lia.
    - intros m Hmm. destruct Hmi as [[E1 E2]|[_ E1]]; rewrite E1 in Hmm; [rewrite E2; by apply Hme|].
      rewrite (no_me _ _ _ Hn), Nat2Z.id in Hmm.
      apply list_lookup_insert_Some in Hmm as [(_ & <- & _)|[? _]]; [lia|done]. }
  split; [done|]. intros es Hes. eapply sendApplyMsg_commit; [apply Hn'|apply Hnc|apply Hnc|by apply Hspawn].
Qed.

(** ** Steps *)

Definition commits_next (n : nat) (c' : Cluster) : Prop := exists V' G' A', commits_ok n V' G' A' c'.

Lemma commits_step n V G A c c' :
  commits_ok n V G A c -> safe_next n G A c' ->
  (forall i rf', nodes c' !! i = Some rf' -> nodes c !! i = Some rf' \/ node_commit n G A i rf') ->
  Forall (thread_commit n G A) (threads c') -> Forall (applied_commit n G A) (applied c') -> commits_next n c'.
Proof.
  intros [Hs Hn Ht Ha] (V' & G' & A' & HG & HA & Hs') Hn' Ht' Ha'. exists V', G', A'. constructor; [done|..].
  - intros i rf' Hi. eapply node_commit_grows; [done|done|]. destruct (Hn' i rf' Hi); [by apply Hn|done].
  - eapply Forall_impl; [exact Ht'|]. intros. by eapply thread_commit_grows.
  - eapply Forall_impl; [exact Ha'|]. intros. by eapply applied_commit_grows.
Qed.

(** Server [i] and some goroutines move, nothing is applied. *)
Lemma commits_move n V G A c c' i rf' :
  commits_ok n V G A c -> safe_next n G A c' -> nodes c' = <[i := rf']> (nodes c) -> node_commit n G A i rf' ->
  Forall (thread_commit n G A) (threads c') -> applied c' = applied c -> commits_next n c'.
Proof.
  intros Hcm Hs Hns Hn Ht Ha. eapply commits_step; try done; [|rewrite Ha; apply Hcm].
  intros j r. rewrite Hns. intros [(<- & <- & _)|[_ ?]]%list_lookup_insert_Some; [by right|by left].
Qed.

Lemma commits_threads n V G A c c' :
  commits_ok n V G A c -> safe_next n G A c' -> nodes c' = nodes c ->
  Forall (thread_commit n G A) (threads c') -> applied c' = applied c -> commits_next n c'.
Proof.
  intros Hcm Hs Hns Ht Ha. eapply commits_step; try done; [|rewrite Ha; apply Hcm]. rewrite Hns. by left.
Qed.

Lemma spawn_threads n G A i ep spawn (c : Cluster) :
  Forall (thread_commit n G A) (threads c) -> (forall es, spawn = Some es -> Forall (committed_entry n G A) es) ->
  Forall (thread_commit n G A) (threads (spawn_apply i ep spawn c)).
Proof. intros Ht Hsp. destruct spawn; simpl; [|done]. apply Forall_app. split; [done|]. apply Forall_singleton. by apply Hsp. Qed.

Lemma run_commits n V G A c i rf p ep now c' :
  commits_ok n V G A c -> nodes c !! i = Some rf -> pcs c !! i = Some p ->
  disciplined c (LRun i now) = true -> safe_next n G A c' -> run_step c i rf p ep now = Val c' -> commits_next n c'.
Proof.
  intros Hcm Hi Hp [[_ Hd1]%andb_true_iff Hd]%andb_true_iff Hsn Hstep. pose proof (cm_node _ _ _ _ _ Hcm _ _ Hi) as Hnc.
  pose proof (cm_safe _ _ _ _ _ Hcm) as Hs. pose proof (lo_el _ _ _ _ (sa_logs _ _ _ _ _ Hs)) as He.
  pose proof (co_node _ _ (eo_ok _ _ _ He) _ _ Hi) as Hn. pose proof (cm_thread _ _ _ _ _ Hcm) as Ht.
  assert (forall q, c' = set_pc i q c -> commits_next n c') as Hgoto
    by (intros q ->; by eapply commits_threads).
  rewrite Hi, Hp in Hd, Hd1. destruct p as [| | | | | |cand|cand j|]; unfold run_step in Hstep.
  - destruct (killed rf); [injection Hstep as <-; by eapply Hgoto|].
    destruct (state rf); injection Hstep as <-; [by eapply Hgoto..|].
    eapply commits_threads; try done. simpl. apply Forall_app. split; [done|]. apply Forall_fmap, Forall_true. done.
  - injection Hstep as <-. by eapply commits_threads.
  - apply bool_decide_eq_true in Hd1. apply bind_val in Hstep as ([rf' spawn] & Hac & [= <-]).
    destruct (advance_commit_commit _ _ _ _ _ _ _ _ _ Hs Hi Hd1 Hnc Hac) as [Hnc' Hsp].
    eapply (commits_move n V G A c _ i rf'); try done; [by destruct spawn|by apply spawn_threads|by destruct spawn].
  - destruct (isElectionTimeout rf now); injection Hstep as <-; by eapply Hgoto.
  - injection Hstep as <-. eapply (commits_move n V G A c _ i (convertTo Candidate rf)); try done.
    eapply (node_commit_same n G A i rf); [by constructor| |done]. by right.
  - destruct (isElectionTimeout rf now); injection Hstep as <-; by eapply Hgoto.
  - injection Hstep as <-. assert (currentTerm rf < max_int) as Hm by (by eapply Forall_lookup_1 in Hi; [|apply He]).
    destruct (begin_election_ok _ _ _ now Hn Hm) as (_ & _ & Htm).
    destruct (lookup_lt_is_Some_2 (epochs c) i) as [ep' Hep].
    { rewrite (co_epochs _ _ (eo_ok _ _ _ He)), <- (co_nodes _ _ (eo_ok _ _ _ He)). by eapply lookup_lt_Some. }
    pose proof (eo_run _ _ _ He _ _ _ _ Hi Hp Hep) as Hrun. simpl in Hrun.
    eapply (commits_move n V G A c _ i (begin_election rf now)); try done.
    eapply (node_commit_same n G A i rf); [by constructor| |done]. right. split; [lia|done].
  - destruct (npeers rf <=? j)%nat; [injection Hstep as <-; by eapply Hgoto|].
    case_bool_decide; [injection Hstep as <-; by eapply Hgoto|].
    case_bool_decide; injection Hstep as <-; [|by eapply Hgoto].
    eapply commits_threads; try done. simpl. apply Forall_app. split; [done|]. by apply Forall_singleton.
  - injection Hstep as <-. eapply (commits_move n V G A c _ i (candidate_check rf)); try done.
    unfold candidate_check in *. rewrite (no_npeers _ _ _ Hn) in *. destruct (_ <? voteCount rf); [|done].
    destruct Hnc as [Hc Ha Hm Hme]. constructor; try done. intros _ j m Hj Hmj. left. simpl in *.
    unfold fresh_match in Hd. rewrite forallb_forall in Hd. specialize (Hd j).
    rewrite (no_npeers _ _ _ Hn) in Hd.
    destruct (orb_prop _ _ (Hd ltac:(apply in_seq; apply lookup_lt_Some in Hmj; rewrite (no_match _ _ _ Hn) in Hmj; lia)))
      as [?%bool_decide_eq_true|E%bool_decide_eq_true]; [done|congruence].
Qed.

(** The goroutine of [runCandidate] that asks for one vote. *)
Lemma vote_thread_commits n V G A c k i ep j t0 st now c' :
  commits_ok n V G A c -> threads c !! k = Some (TVote i ep j t0 st) -> 
  safe_next n G A c' -> thread_step c k (TVote i ep j t0 st) now = Val c' -> commits_next n c'.
Proof.
  intros Hcm Hk Hsn Hstep.
  pose proof (cm_safe _ _ _ _ _ Hcm) as Hs. pose proof (sa_logs _ _ _ _ _ Hs) as Hlo.
  pose proof (eo_ok _ _ _ (lo_el _ _ _ _ Hlo)) as Hok. pose proof (cm_thread _ _ _ _ _ Hcm) as Ht.
  pose proof (cm_node _ _ _ _ _ Hcm) as Hnc. pose proof (co_thread _ _ Hok _ _ Hk) as Hth.
  assert (c' = c -> commits_next n c') as Hsame by (intros ->; by eapply commits_threads).
  destruct st as [|args|args reply]; unfold thread_step in Hstep.
  - destruct (nodes c !! i) as [rf|] eqn:Hi; [|injection Hstep as <-; auto].
    destruct (alive c i ep); [|injection Hstep as <-; auto]. apply bind_val in Hstep as (args & _ & [= <-]).
    eapply commits_threads; try done. by apply Forall_insert.
  - destruct (nodes c !! j) as [rf|] eqn:Hj; [|injection Hstep as <-; auto].
    apply bind_val in Hstep as ([rf' reply] & Hrv & [= <-]).
    destruct Hth as (_ & _ & _ & Hva & _).
    destruct (RequestVote_spec _ _ _ args now (co_node _ _ Hok _ _ Hj) Hva) as (r & rp & E & _ & Hpas & _).
    rewrite Hrv in E. injection E as <- <-.
    eapply (commits_move n V G A c _ j rf'); try done; [|by apply Forall_insert].
    eapply (node_commit_same n G A j rf); [by eapply RequestVote_commit|left; by apply passive_calm|by apply Hnc].
  - destruct (nodes c !! i) as [rf|] eqn:Hi; [|injection Hstep as <-; auto].
    destruct (alive c i ep); injection Hstep as <-; [|auto].
    eapply (commits_move n V G A c _ i (vote_reply rf reply)); try done; [|by apply Forall_insert].
    eapply (node_commit_same n G A i rf); [apply vote_reply_commit|left; apply vote_reply_calm|by apply Hnc].
Qed.

(** The goroutine of [broadcastHeartbeat] for one follower. *)
Lemma beat_thread_commits n V G A c k i ep j st now c' :
  commits_ok n V G A c -> threads c !! k = Some (TBeat i ep j st) -> disciplined c (LThread k now) = true ->
  safe_next n G A c' -> thread_step c k (TBeat i ep j st) now = Val c' -> commits_next n c'.
Proof.
  intros Hcm Hk [[_ Hd]%andb_true_iff _]%andb_true_iff Hsn Hstep.
  pose proof (cm_safe _ _ _ _ _ Hcm) as Hs. pose proof (sa_logs _ _ _ _ _ Hs) as Hlo.
  pose proof (eo_ok _ _ _ (lo_el _ _ _ _ Hlo)) as Hok. pose proof (cm_thread _ _ _ _ _ Hcm) as Ht.
  pose proof (cm_node _ _ _ _ _ Hcm) as Hnc. pose proof (co_thread _ _ Hok _ _ Hk) as Hth.
  assert (c' = c -> commits_next n c') as Hsame by (intros ->; by eapply commits_threads).
  destruct st as [|args|args reply]; unfold thread_step in Hstep.
  - destruct (nodes c !! i) as [rf|] eqn:Hi; [|injection Hstep as <-; auto].
    destruct (alive c i ep); [|injection Hstep as <-; auto].
    apply bind_val in Hstep as ([args|] & Ha & [= <-]); eapply commits_threads; try done; apply Forall_insert; try done.
    destruct (heartbeat_args_val _ _ _ _ _ (co_node _ _ Hok _ _ Hi) Ha) as (_ & Hl & Htm & _ & Hlc & _ & Hprev & Hes).
    exists (log rf), (log rf). rewrite Htm, Hlc. split_and!; [by apply (lo_leader _ _ _ _ Hlo)|done|by split|by eapply nc_commit, Hnc].
  - destruct (nodes c !! j) as [rf|] eqn:Hj; [|injection Hstep as <-; auto].
    destruct (epochs c !! j) as [epj|]; [|injection Hstep as <-; auto].
    apply bind_val in Hstep as ([[rf' reply] spawn] & Hae & [= <-]).
    destruct (AppendEntries_commit _ _ _ _ _ _ _ _ _ _ _ _ _ _ _ Hcm Hk Hj Hae) as [Hnc' Hsp].
    eapply (commits_move n V G A c _ j rf'); try done; [by destruct spawn| |by destruct spawn].
    apply spawn_threads; [|done]. by apply Forall_insert.
  - destruct (nodes c !! i) as [rf|] eqn:Hi; [|injection Hstep as <-; auto].
    destruct (alive c i ep); [|injection Hstep as <-; auto].
    apply bind_val in Hstep as (rf' & Hhr & [= <-]). rewrite Hk in Hd. unfold term_of in Hd. rewrite Hi in Hd. simpl in Hd.
    destruct Hth as (_ & _ & Hji & Haok).
    eapply (commits_move n V G A c _ i rf'); try done; [|by apply Forall_insert].
    eapply heartbeat_reply_commit; try done; [by apply Hnc|]. intros Hsu. rewrite Hsu in Hd. simpl in Hd.
    split; [by apply Z.eqb_eq|]. eapply (sa_acked _ _ _ _ _ Hs); [by eapply list_elem_of_lookup_2|]. simpl. by rewrite Hsu.
Qed.

Lemma thread_commits n V G A c k t now c' :
  commits_ok n V G A c -> threads c !! k = Some t -> disciplined c (LThread k now) = true ->
  safe_next n G A c' -> thread_step c k t now = Val c' -> commits_next n c'.
Proof.
  intros Hcm Hk Hdis Hsn Hstep. pose proof Hdis as [[Hor Hd]%andb_true_iff _]%andb_true_iff.
  pose proof (cm_safe _ _ _ _ _ Hcm) as Hs. pose proof (sa_logs _ _ _ _ _ Hs) as Hlo.
  pose proof (eo_ok _ _ _ (lo_el _ _ _ _ Hlo)) as Hok. pose proof (cm_thread _ _ _ _ _ Hcm) as Ht.
  pose proof (cm_node _ _ _ _ _ Hcm) as Hnc. pose proof (co_thread _ _ Hok _ _ Hk) as Hth.
  assert (c' = c -> commits_next n c') as Hsame by (intros ->; by eapply commits_threads).
  pose proof Ht as Htk. eapply Forall_lookup_1 in Htk; [|exact Hk].
  destruct t as [i ep j t0 st|i ep j st|i ep term command|i ep es|i ep index es|];
    [by eapply vote_thread_commits|by eapply beat_thread_commits|unfold thread_step in Hstep..].
  - destruct (nodes c !! i) as [rf|] eqn:Hi; [|injection Hstep as <-; auto].
    destruct (alive c i ep); [|injection Hstep as <-; auto].
    apply bind_val in Hstep as ([rf' index] & Hst & [= <-]).
    apply andb_true_iff in Hor as [_ Hor]. rewrite Hk, Hi in Hor. apply bool_decide_eq_true in Hor as [Hl _].
    pose proof (co_node _ _ Hok _ _ Hi) as Hn.
    eapply (commits_move n V G A c _ i rf'); try done; [|by apply Forall_insert].
    eapply Start_append_commit; try done; [by apply Hnc|apply Hn|apply Hn].
  - destruct (alive c i ep); [|injection Hstep as <-; auto]. destruct es as [|e es]; injection Hstep as <-.
    + eapply commits_threads; try done. by apply Forall_insert.
    + apply Forall_cons in Htk as [He Hes]. eapply commits_step; try done; simpl.
      * by left.
      * by apply Forall_insert.
      * apply Forall_alter; [apply Hcm|]. intros ms _ Hms. apply Forall_app. split; [done|].
        apply Forall_singleton. by exists e.
  - destruct (nodes c !! i) as [rf|] eqn:Hi; [|injection Hstep as <-; auto].
    destruct (alive c i ep); [|injection Hstep as <-; auto]. injection Hstep as <-.
    destruct (apply_ack_ok _ _ _ index (co_node _ _ Hok _ _ Hi)) as (_ & Hpas).
    eapply (commits_move n V G A c _ i (apply_ack rf index)); try done; [|by apply Forall_insert].
    eapply (node_commit_same n G A i rf); [apply apply_ack_commit|left; by apply passive_calm|by apply Hnc].
  - injection Hstep as <-. auto.
Qed.

Lemma step_commits `{!CodecLaws} n V G A c l c' :
  commits_ok n V G A c -> disciplined c l = true -> terms_small c' -> step c l = Val c' -> (0 < n)%nat -> commits_next n c'.
Proof.
  intros Hcm Hd Hsm Hstep Hn0. pose proof Hd as [[Hor _]%andb_true_iff _]%andb_true_iff. pose proof (cm_safe _ _ _ _ _ Hcm) as Hs.
  pose proof (step_safe _ _ _ _ _ _ _ Hs Hor Hsm Hstep Hn0) as Hsn.
  pose proof (lo_el _ _ _ _ (sa_logs _ _ _ _ _ Hs)) as He. pose proof (cm_thread _ _ _ _ _ Hcm) as Ht.
  assert (c' = c -> commits_next n c') as Hsame by (intros ->; by eapply commits_threads).
  destruct l as [i now|k now|i command|i|i now rnd]; simpl in Hstep.
  - destruct (nodes c !! i) as [rf|] eqn:Hi; [|injection Hstep as <-; auto].
    destruct (pcs c !! i) as [p|] eqn:Hp; [|injection Hstep as <-; auto].
    destruct (epochs c !! i) as [ep|] eqn:Hep; [|injection Hstep as <-; auto]. by eapply run_commits.
  - destruct (threads c !! k) as [t|] eqn:Hk; [|injection Hstep as <-; auto]. by eapply thread_commits.
  - destruct (nodes c !! i) as [rf|] eqn:Hi; [|injection Hstep as <-; auto].
    destruct (epochs c !! i) as [ep|] eqn:Hep; [|injection Hstep as <-; auto].
    destruct (bool_decide (state rf = Leader)); injection Hstep as <-; [|auto].
    eapply commits_threads; try done. simpl. apply Forall_app. split; [done|by apply Forall_singleton].
  - destruct (nodes c !! i) as [rf|] eqn:Hi; injection Hstep as <-; [|auto].
    eapply (commits_move n V G A c _ i (Kill rf)); try done.
    eapply (node_commit_same n G A i rf); [by constructor| |by apply (cm_node _ _ _ _ _ Hcm)]. left. split; [done|by right].
  - destruct (nodes c !! i) as [rf|] eqn:Hi; [|injection Hstep as <-; auto].
    apply bind_val in Hstep as (rf' & Hmk & [= <-]).
    destruct (Make_saved n i rf now rnd (co_node _ _ (eo_ok _ _ _ He) _ _ Hi)) as (r & Hr & Hn' & _).
    rewrite Hmk in Hr. injection Hr as <-. rewrite (no_me _ _ _ (co_node _ _ (eo_ok _ _ _ He) _ _ Hi)) in Hmk.
    eapply (commits_move n V G A c _ i rf'); try done. eapply Make_commit; [done|apply Hn'].
Qed.

Lemma init_commits n now rnd c : init_cluster n now rnd = Val c -> commits_ok n ∅ ∅ ∅ c.
Proof.
  intros Hc. constructor; [by eapply init_safe|..]; pose proof Hc as (_ & Hn & _ & _ & Ht & Ha)%init_nodes.
  - unfold init_cluster in Hc. apply bind_val in Hc as (ns & Hns & [= <-]). simpl in *.
    apply (mapM_seq_val _ (fun i rf => node_commit n ∅ ∅ i rf)) in Hns as [_ Hall]; [done|].
    intros i rf Hi Hmk. eapply Make_commit; [done|].
    destruct (Make_new n i (now i) (rnd i)) as (r & Hr & Hok & _); [lia|]. rewrite Hmk in Hr. injection Hr as <-. apply Hok.
  - by rewrite Ht.
  - rewrite Ha. apply Forall_replicate. by apply Forall_nil.
Qed.

Lemma dsteps_commits `{!CodecLaws} n c c' :
  (0 < n)%nat -> rtc dstep c c' -> commits_next n c -> commits_next n c'.
Proof.
  intros Hn0. induction 1 as [c|c1 c2 c3 (l & Hd & Hst & Hsm) _ IH]; [done|]. intros (V & G & A & Hcm).
  apply IH. apply small_terms in Hsm. by eapply step_commits.
Qed.

(** Messages for one index are equal. *)
Lemma applied_agree n V G A c i j ms1 ms2 m1 m2 :
  commits_ok n V G A c -> applied c !! i = Some ms1 -> applied c !! j = Some ms2 -> m1 ∈ ms1 -> m2 ∈ ms2 ->
  CommandIndex m1 = CommandIndex m2 -> m1 = m2.
Proof.
  intros Hcm Hi Hj H1 H2 Hx. pose proof (cm_applied _ _ _ _ _ Hcm) as Hap. rewrite Forall_lookup in Hap.
  pose proof (Hap _ _ Hi) as Ha1. pose proof (Hap _ _ Hj) as Ha2. unfold applied_commit in Ha1, Ha2.
  rewrite Forall_forall in Ha1, Ha2. destruct (Ha1 m1 H1) as (e1 & -> & He1). destruct (Ha2 m2 H2) as (e2 & -> & He2).
  simpl in Hx. by rewrite (committed_entry_unique n V G A c e1 e2 (cm_safe _ _ _ _ _ Hcm) He1 He2 Hx).
Qed.

Lemma dsteps_init_commits `{!CodecLaws} n now rnd c0 c :
  (0 < n)%nat -> init_cluster n now rnd = Val c0 -> rtc dstep c0 c -> commits_next n c.
Proof. intros Hn0 Hc0 Hr. eapply dsteps_commits; [done|done|]. exists ∅, ∅, ∅. by eapply init_commits. Qed.

(** C3: State machine safety.  In a disciplined execution, no two servers ever hand different commands to
    their applications for the same index, nor does one server before and after a restart, whatever
    crashes and however messages are lost, delayed or reordered. *)
Theorem state_machine_safety `{!CodecLaws} n now rnd c0 c i j ms1 ms2 m1 m2 :
  (0 < n)%nat -> init_cluster n now rnd = Val c0 -> rtc dstep c0 c ->
  applied c !! i = Some ms1 -> applied c !! j = Some ms2 -> m1 ∈ ms1 -> m2 ∈ ms2 ->
  CommandIndex m1 = CommandIndex m2 -> m1 = m2.
Proof.
  intros Hn0 Hc0 Hr. destruct (dsteps_init_commits n now rnd c0 c Hn0 Hc0 Hr) as (V & G & A & Hcm). by eapply applied_agree.
Qed.

End Machine.
(** ** An execution of three servers *)

(** Server 0, just elected, takes command 42, replicates it to server 1, commits and applies it, and tells
    server 1, which applies it. *)
Definition commit_one : list (@label Z) :=
  replicate_one ++ [LThread 3 late; LRun 0 late; LThread 5 late; LRun 0 late] ++ [LThread 6 late; LThread 6 late; LThread 8 late].

Definition commit_end : @Cluster Z := run_from_start disciplined commit_one.

Lemma state_machine_safety_witness :
  applied commit_end = [[mkApplyMsg true (Some 42) 1]; [mkApplyMsg true (Some 42) 1]; []] /\
  forall ms1 ms2 m1 m2, applied commit_end !! 0%nat = Some ms1 -> applied commit_end !! 1%nat = Some ms2 ->
    m1 ∈ ms1 -> m2 ∈ ms2 -> CommandIndex m1 = CommandIndex m2 -> m1 = m2.
Proof.
  assert (rtc dstep start_cluster commit_end) as Hr.
  { apply (dsteps_rtc commit_one). vm_compute. reflexivity. }
  split; [vm_compute; reflexivity|]. intros ms1 ms2 m1 m2.
  exact (state_machine_safety 3 (fun _ => 0) (fun _ => 0) start_cluster commit_end 0 1 ms1 ms2 m1 m2
           ltac:(lia) start_cluster_init Hr).
Defined.

(** ** An execution of five servers *)

Definition start_five : @Cluster Z :=
  match init_cluster 5 (fun _ => 0) (fun _ => 0) with Val c => c | Err _ => mkCluster [] [] [] [] [] end.

Definition campaign_five (i : nat) (now : Z) : list (@label Z) := replicate 10 (LRun i now).
Definition threads_thrice (ks : list nat) (now : Z) : list (@label Z) := ks ≫= (fun k => replicate 3 (LThread k now)).

(** Term 1: server 0 leads with the votes of 1 and 2, takes 11 and 12 and replicates both to server 1. *)
Definition diverge1 : list (@label Z) :=
  campaign_five 0 late ++ threads_thrice [0; 1]%nat late ++ replicate 3 (LRun 0 late) ++
  [LStart 0 11; LThread 4 late; LStart 0 12; LThread 5 late; LRun 0 late] ++ threads_thrice [6]%nat late ++ [LRun 0 late].

(** Term 2: server 2 leads with the votes of 3 and 4, takes 21 and replaces the log of server 0. *)
Definition diverge2 : list (@label Z) :=
  campaign_five 2 (2 * late) ++ threads_thrice [12; 13]%nat (2 * late) ++ replicate 3 (LRun 2 (2 * late)) ++
  [LStart 2 21; LThread 14 (2 * late); LRun 2 (2 * late); LThread 15 (2 * late); LThread 15 (2 * late); LRun 2 (2 * late)].

(** Term 3: server 0 leads again, with the votes of 3 and 4, takes 31 and replicates it to server 3.  Its
    [matchIndex] still says that server 1 has two entries: it commits both of its own and applies them. *)
Definition diverge3 : list (@label Z) :=
  campaign_five 0 (3 * late) ++ threads_thrice [21; 22]%nat (3 * late) ++ replicate 3 (LRun 0 (3 * late)) ++
  [LStart 0 31; LThread 23 (3 * late); LRun 0 (3 * late)] ++ threads_thrice [26]%nat (3 * late) ++
  [LRun 0 (3 * late)] ++ threads_thrice [28]%nat (3 * late) ++ [LThread 20 (3 * late); LThread 20 (3 * late)].

(** Term 4: server 2 leads with the votes of 1 and 4, takes 41, replicates it to both, commits and applies. *)
Definition diverge4 : list (@label Z) :=
  campaign_five 2 (4 * late) ++ threads_thrice [30; 32]%nat (4 * late) ++ replicate 3 (LRun 2 (4 * late)) ++
  [LStart 2 41; LThread 33 (4 * late); LRun 2 (4 * late)] ++ threads_thrice [35; 37]%nat (4 * late) ++
  [LRun 2 (4 * late)] ++ threads_thrice [38]%nat (4 * late).

Definition diverge : list (@label Z) := diverge1 ++ diverge2 ++ diverge3 ++ diverge4.

Definition diverge_end : @Cluster Z := default start_five (run_while prompt start_five diverge).

(** C40: A server that is elected again does not reset [matchIndex], and counts what other servers had
    acknowledged in an earlier term: a reachable execution of five servers, in which every other
    condition of [disciplined] holds, ends with servers 0 and 2 having applied different commands at
    index 2. *)
Theorem stale_match_diverges :
  reachable 5 diverge_end /\
  applied diverge_end !! 0%nat = Some [mkApplyMsg true (Some 21) 1; mkApplyMsg true (Some 31) 2] /\
  applied diverge_end !! 2%nat = Some [mkApplyMsg true (Some 21) 1; mkApplyMsg true (Some 41) 2].
Proof.
  split; [|split; vm_compute; reflexivity].
  eapply (run_while_reachable 5 prompt diverge).
  - eapply (reach_init 5 start_five (fun _ => 0) (fun _ => 0)); [lia|]. vm_compute. reflexivity.
  - vm_compute. reflexivity.
Qed.

End RaftMachine.
