(* ===== verification/RaftApply.v ===== *)
(** * Applying in order

    Each apply goroutine sends a run of consecutive entries that begins right behind [lastApplied], which
    is raised only after an entry has been sent.  Several goroutines of a server may run at once and send
    entries again, and a restarted server begins anew at index 1, but no server ever sends an entry before
    it has sent the entry at the previous index.  This holds in every reachable cluster, however elections
    and replication went. *)

From stdpp Require Import base list gmap strings.
From Stdlib Require Import ZArith Lia.
From S2P Require Import Prelude RaftNode RaftCodec RaftInv RaftCluster RaftClusterInv RaftElection RaftLogs RaftCommit RaftMachine.
Import RaftNode RaftCodec RaftInv RaftCluster RaftClusterInv RaftElection RaftLogs RaftMachine.

Open Scope Z_scope.

Module RaftApply.

Section Apply.
Context {Cmd : Type} `{Codec Cmd}.
Notation Raft := (Raft Cmd).
Notation Entry := (Entry Cmd).
Notation Cluster := (@Cluster Cmd).
Notation thread := (@thread Cmd).
Notation label := (@label Cmd).
Notation ApplyMsg := (ApplyMsg Cmd).

(** The entry at index [x] has been sent; the sentinel counts as sent. *)
Definition sent (ms : list ApplyMsg) (x : Z) : Prop := x = 0 \/ exists m, m ∈ ms /\ CommandIndex m = x.

(** Every message is a command, and behind the message for the previous index. *)
Definition in_order (ms : list ApplyMsg) : Prop :=
  forall k m, ms !! k = Some m -> CommandValid m = true /\ 1 <= CommandIndex m /\ sent (take k ms) (CommandIndex m - 1).

(** Entries of the indices [s], [s+1], ... *)
Definition run_from (s : Z) (es : list Entry) : Prop := forall k e, es !! k = Some e -> Index e = s + Z.of_nat k.

Definition thread_run (ap : list (list ApplyMsg)) (t : thread) : Prop :=
  match t with
  | TApply i _ es => exists s, 1 <= s /\ run_from s es /\ forall ms, ap !! i = Some ms -> sent ms (s - 1)
  | TAck i _ index es => 1 <= index /\ run_from (index + 1) es /\ forall ms, ap !! i = Some ms -> sent ms index
  | _ => True
  end.

Record apply_ok (c : Cluster) : Prop := {
  ao_order : Forall in_order (applied c);
  ao_node : forall i rf, nodes c !! i = Some rf ->
    0 <= lastApplied rf /\ forall ms, applied c !! i = Some ms -> sent ms (lastApplied rf);
  ao_thread : Forall (thread_run (applied c)) (threads c) }.

Lemma sent_app ms ms' x : sent ms x -> sent (ms ++ ms') x.
Proof. intros [->|(m & Hm & Hx)]; [by left|right]. exists m. split; [|done]. apply elem_of_app. by left. Qed.

Lemma in_order_snoc ms m :
  in_order ms -> CommandValid m = true -> 1 <= CommandIndex m -> sent ms (CommandIndex m - 1) -> in_order (ms ++ [m]).
Proof.
  intros Ho Hv Hx Hs k m' [Hk|[Hk Hm]]%lookup_app_Some.
  - destruct (Ho k m' Hk) as (? & ? & ?). pose proof (lookup_lt_Some _ _ _ Hk).
    rewrite take_app_le by lia. done.
  - apply list_lookup_singleton_Some in Hm as [Hk' <-]. replace k with (length ms) by lia. by rewrite take_app_length.
Qed.

Lemma run_from_tail s e es : run_from s (e :: es) -> Index e = s /\ run_from (s + 1) es.
Proof.
  intros Hr. split; [rewrite (Hr 0%nat e eq_refl); lia|]. intros k x Hk. rewrite (Hr (S k) x Hk). lia.
Qed.

(** What an apply goroutine is started with *)
Lemma sendApplyMsg_run (rf : Raft) es :
  log_ok (log rf) -> sendApplyMsg rf = Val (Some es) -> run_from (lastApplied rf + 1) es.
Proof.
  intros Hok. unfold sendApplyMsg. destruct (_ <? _); [|done].
  destruct (go_slice _ _ _) as [l|] eqn:Hs; simpl; [|done]. intros [= <-].
  apply go_slice_val in Hs as (Hp & _ & _ & ->). intros k e [Hk _]%lookup_take_Some. rewrite lookup_drop in Hk.
  rewrite (log_index _ Hok _ _ Hk). lia.
Qed.

(** ** Sections that do not touch [lastApplied] *)

Lemma heartbeat_reply_applied (rf : Raft) index args reply rf' :
  heartbeat_reply rf index args reply = Val rf' -> lastApplied rf' = lastApplied rf.
Proof.
  unfold heartbeat_reply. intros Hr.
  repeat match type of Hr with
  | (if ?b then _ else _) = _ => destruct b
  | _ ≫= _ = Val _ => apply bind_val in Hr as (? & _ & Hr)
  | match ?o with Some _ => _ | None => _ end = _ => destruct o
  end; by injection Hr as <-.
Qed.

Lemma advance_commit_applied (rf rf' : Raft) spawn :
  advance_commit rf = Val (rf', spawn) ->
  lastApplied rf' = lastApplied rf /\ forall es, spawn = Some es -> sendApplyMsg rf' = Val (Some es).
Proof.
  unfold advance_commit. intros (mine & _ & Hr)%bind_val.
  destruct (_ <? mine); [|by injection Hr as <- <-]. apply bind_val in Hr as ([counter minN] & _ & Hr).
  destruct (_ <? counter); [|by injection Hr as <- <-]. apply bind_val in Hr as (e & _ & Hr).
  destruct (_ =? _); [|by injection Hr as <- <-]. apply bind_val in Hr as (sp & Hsp & [= <- <-]).
  split; [done|]. intros es ->. exact Hsp.
Qed.

Lemma RequestVote_applied (rf : Raft) args now rf' reply :
  RequestVote rf args now = Val (rf', reply) -> lastApplied rf' = lastApplied rf.
Proof.
  unfold RequestVote. intros Hr. destruct (currentTerm rf <? rva_Term args); destruct (_ || _);
    repeat match type of Hr with
    | _ ≫= _ = Val _ => apply bind_val in Hr as (? & _ & Hr)
    | (if ?b then _ else _) = Val _ => destruct b
    end; by injection Hr as <- _.
Qed.

Lemma Start_append_applied (rf : Raft) term command rf' index :
  Start_append rf term command = Val (rf', index) -> lastApplied rf' = lastApplied rf.
Proof. unfold Start_append. by intros (ni & _ & (mi & _ & [= <- _])%bind_val)%bind_val. Qed.

Lemma vote_reply_applied (rf : Raft) reply : lastApplied (vote_reply rf reply) = lastApplied rf.
Proof. unfold vote_reply. destruct (VoteGranted reply); [done|]. by destruct (_ <? _). Qed.

Lemma Make_applied n i ps now rnd (rf : Raft) : Make n i ps now rnd = Val rf -> lastApplied rf = 0.
Proof.
  unfold Make, readPersist. destruct (_ <? 1); [by intros [= <-]|].
  by destruct (decode_state _) as [[[l t] v]|]; [intros [= <-]|].
Qed.

(** ** Steps *)

(** Server [i] and some goroutines move, nothing is sent. *)
Lemma apply_move c c' i rf rf' :
  apply_ok c -> nodes c !! i = Some rf -> nodes c' = <[i := rf']> (nodes c) -> lastApplied rf' = lastApplied rf ->
  applied c' = applied c -> Forall (thread_run (applied c)) (threads c') -> apply_ok c'.
Proof.
  intros [Ho Hn Ht] Hi Hns Hla Hap Hts. constructor; rewrite ?Hap; [done| |done].
  intros j r. rewrite Hns. intros [(<- & <- & _)|[_ Hj]]%list_lookup_insert_Some; [|by apply Hn].
  rewrite Hla. by apply Hn.
Qed.

Lemma apply_threads c c' :
  apply_ok c -> nodes c' = nodes c -> applied c' = applied c -> Forall (thread_run (applied c)) (threads c') -> apply_ok c'.
Proof. intros [Ho Hn Ht] Hns Hap Hts. constructor; rewrite ?Hns, ?Hap; done. Qed.

Lemma spawn_run (c c1 : Cluster) i ep spawn rf rf' :
  apply_ok c -> nodes c !! i = Some rf -> log_ok (log rf') -> lastApplied rf' = lastApplied rf ->
  (forall es, spawn = Some es -> sendApplyMsg rf' = Val (Some es)) ->
  Forall (thread_run (applied c)) (threads c1) -> Forall (thread_run (applied c)) (threads (spawn_apply i ep spawn c1)).
Proof.
  intros Hok Hi Hl Hla Hsp Hts. destruct spawn as [es|]; simpl; [|done]. apply Forall_app. split; [done|].
  apply Forall_singleton. exists (lastApplied rf + 1). destruct (ao_node _ Hok _ _ Hi) as [H0 Hs].
  split_and!; [lia|rewrite <- Hla; by apply sendApplyMsg_run, Hsp|].
  intros ms Hms. replace (lastApplied rf + 1 - 1) with (lastApplied rf) by lia. by apply Hs.
Qed.

Lemma run_apply n c i rf p ep now c' :
  cluster_ok n c -> apply_ok c -> nodes c !! i = Some rf -> run_step c i rf p ep now = Val c' -> apply_ok c'.
Proof.
  intros Hok Ha Hi Hstep. pose proof (ao_thread _ Ha) as Ht. pose proof (co_node _ _ Hok _ _ Hi) as Hn.
  assert (forall q, c' = set_pc i q c -> apply_ok c') as Hgoto by (intros q ->; by apply (apply_threads c)).
  destruct p as [| | | | | |cand|cand j|]; unfold run_step in Hstep.
  - destruct (killed rf); [injection Hstep as <-; by eapply Hgoto|].
    destruct (state rf); injection Hstep as <-; [by eapply Hgoto..|].
    apply (apply_threads c); try done. simpl. apply Forall_app. split; [done|]. apply Forall_fmap, Forall_true. done.
  - by injection Hstep as <-.
  - apply bind_val in Hstep as ([rf' spawn] & Hac & [= <-]).
    destruct (advance_commit_applied _ _ _ Hac) as [Hla Hsp].
    destruct (advance_commit_val _ _ _ _ _ Hn Hac) as (Hn' & _ & _).
    eapply (apply_move c _ i rf rf'); try done; [by destruct spawn|by destruct spawn|].
    eapply spawn_run; try done. apply Hn'.
  - destruct (isElectionTimeout rf now); injection Hstep as <-; by eapply Hgoto.
  - injection Hstep as <-. by eapply (apply_move c _ i rf).
  - destruct (isElectionTimeout rf now); injection Hstep as <-; by eapply Hgoto.
  - injection Hstep as <-. by eapply (apply_move c _ i rf).
  - destruct (npeers rf <=? j)%nat; [injection Hstep as <-; by eapply Hgoto|].
    case_bool_decide; [injection Hstep as <-; by eapply Hgoto|].
    case_bool_decide; injection Hstep as <-; [|by eapply Hgoto].
    apply (apply_threads c); try done. simpl. apply Forall_app. split; [done|by apply Forall_singleton].
  - injection Hstep as <-. eapply (apply_move c _ i rf); try done. unfold candidate_check. by destruct (_ <? _).
Qed.

(** An entry is sent. *)
Lemma send_apply (c : Cluster) k i ep e es :
  apply_ok c -> threads c !! k = Some (TApply i ep (e :: es)) ->
  apply_ok (set_thread k (TAck i ep (CommandIndex (apply_msg e)) es) (add_applied i (apply_msg e) c)).
Proof.
  intros [Ho Hn Ht] Hk. pose proof Ht as Htk. eapply Forall_lookup_1 in Htk; [|exact Hk].
  destruct Htk as (s & Hs & [He Hes]%run_from_tail & Hsent). simpl.
  assert (forall j ms', alter (fun l => l ++ [apply_msg e]) i (applied c) !! j = Some ms' ->
    exists ms, applied c !! j = Some ms /\ (ms' = ms /\ j <> i \/ ms' = ms ++ [apply_msg e] /\ j = i)) as Hlook.
  { intros j ms'. destruct (decide (j = i)) as [->|Hne].
    - rewrite list_lookup_alter_eq. destruct (applied c !! i) as [ms|]; simpl; [|done]. intros [= <-]. eauto.
    - rewrite list_lookup_alter_ne by done. eauto. }
  assert (forall j ms' x, alter (fun l => l ++ [apply_msg e]) i (applied c) !! j = Some ms' ->
    (forall ms, applied c !! j = Some ms -> sent ms x) -> sent ms' x) as Hmono.
  { intros j ms' x Hms' Hx. destruct (Hlook j ms' Hms') as (ms & Hms & [[-> _]|[-> _]]); [by apply Hx|by apply sent_app, Hx]. }
  constructor; simpl.
  - apply Forall_lookup. intros j ms' Hms'. destruct (Hlook j ms' Hms') as (ms & Hms & Hcase).
    rewrite Forall_lookup in Ho. pose proof (Ho _ _ Hms) as Hoj.
    destruct Hcase as [[-> _]|[-> ->]]; [done|]. apply in_order_snoc; [done|done|simpl; lia|]. simpl. rewrite He. by apply Hsent.
  - intros j r Hj. destruct (Hn j r Hj) as [H0 Hs0]. split; [done|]. intros ms' Hms'. by eapply Hmono.
  - apply Forall_insert.
    + eapply Forall_impl; [exact Ht|]. intros t. destruct t; simpl; try done.
      * intros (s' & ? & ? & Hs'). exists s'. split_and!; [done|done|]. intros ms' Hms'. by eapply Hmono.
      * intros (? & ? & Hs'). split_and!; [done|done|]. intros ms' Hms'. by eapply Hmono.
    + simpl. rewrite He. split_and!; [done|done|]. intros ms' Hms'. destruct (Hlook i ms' Hms') as (ms & Hms & [[_ ?]|[-> _]]); [done|].
      right. exists (apply_msg e). split; [apply elem_of_app; right; by apply list_elem_of_singleton|done].
Qed.

Lemma thread_apply n c k t now c' :
  cluster_ok n c -> apply_ok c -> threads c !! k = Some t -> thread_step c k t now = Val c' -> apply_ok c'.
Proof.
  intros Hok Ha Hk Hstep. pose proof (ao_thread _ Ha) as Ht. pose proof (co_thread _ _ Hok _ _ Hk) as Hth.
  pose proof Ht as Htk. eapply Forall_lookup_1 in Htk; [|exact Hk].
  destruct t as [i ep j t0 [|args|args reply]|i ep j [|args|args reply]|i ep term command|i ep es|i ep index es|];
    unfold thread_step in Hstep.
  - destruct (nodes c !! i) as [rf|] eqn:Hi; [|by injection Hstep as <-].
    destruct (alive c i ep); [|by injection Hstep as <-]. apply bind_val in Hstep as (args & _ & [= <-]).
    apply (apply_threads c); try done. by apply Forall_insert.
  - destruct (nodes c !! j) as [rf|] eqn:Hj; [|by injection Hstep as <-].
    apply bind_val in Hstep as ([rf' reply] & Hrv & [= <-]).
    eapply (apply_move c _ j rf rf'); try done; [by eapply RequestVote_applied|by apply Forall_insert].
  - destruct (nodes c !! i) as [rf|] eqn:Hi; [|by injection Hstep as <-].
    destruct (alive c i ep); injection Hstep as <-; [|done].
    eapply (apply_move c _ i rf); try done; [apply vote_reply_applied|by apply Forall_insert].
  - destruct (nodes c !! i) as [rf|] eqn:Hi; [|by injection Hstep as <-].
    destruct (alive c i ep); [|by injection Hstep as <-].
    apply bind_val in Hstep as ([args|] & _ & [= <-]); apply (apply_threads c); try done; by apply Forall_insert.
  - destruct (nodes c !! j) as [rf|] eqn:Hj; [|by injection Hstep as <-].
    destruct (epochs c !! j) as [epj|]; [|by injection Hstep as <-].
    apply bind_val in Hstep as ([[rf' reply] spawn] & Hae & [= <-]).
    destruct Hth as (_ & _ & _ & Haok). pose proof (co_node _ _ Hok _ _ Hj) as Hn.
    destruct (AppendEntries_val _ _ _ _ _ _ _ _ Hn Haok Hae) as (Hn' & _ & _).
    destruct (AppendEntries_fields _ _ _ _ _ _ Hae) as (Hla & _ & Hsp).
    eapply (apply_move c _ j rf rf'); try done; [by destruct spawn|by destruct spawn|].
    eapply spawn_run; try done; [apply Hn'|]. by apply Forall_insert.
  - destruct (nodes c !! i) as [rf|] eqn:Hi; [|by injection Hstep as <-].
    destruct (alive c i ep); [|by injection Hstep as <-]. apply bind_val in Hstep as (rf' & Hhr & [= <-]).
    eapply (apply_move c _ i rf rf'); try done; [by eapply heartbeat_reply_applied|by apply Forall_insert].
  - destruct (nodes c !! i) as [rf|] eqn:Hi; [|by injection Hstep as <-].
    destruct (alive c i ep); [|by injection Hstep as <-]. apply bind_val in Hstep as ([rf' index] & Hs & [= <-]).
    eapply (apply_move c _ i rf rf'); try done; [by eapply Start_append_applied|by apply Forall_insert].
  - destruct (alive c i ep); [|by injection Hstep as <-]. destruct es as [|e es]; injection Hstep as <-.
    + apply (apply_threads c); try done. by apply Forall_insert.
    + by apply send_apply.
  - destruct (nodes c !! i) as [rf|] eqn:Hi; [|by injection Hstep as <-].
    destruct (alive c i ep); [|by injection Hstep as <-]. injection Hstep as <-.
    destruct Htk as (Hx & Hes & Hsent). destruct Ha as [Ho Hn _]. constructor; simpl; [done| |].
    + intros j r [(<- & <- & _)|[_ Hj]]%list_lookup_insert_Some; [|by apply Hn]. destruct (Hn _ _ Hi) as [H0 Hs0].
      unfold apply_ack. destruct (Z.ltb_spec (lastApplied rf) index); simpl; [split; [lia|done]|done].
    + apply Forall_insert; [done|]. exists (index + 1). split_and!; [lia|done|]. intros ms Hms.
      replace (index + 1 - 1) with index by lia. by apply Hsent.
  - by injection Hstep as <-.
Qed.

Lemma step_apply n c l c' : cluster_ok n c -> apply_ok c -> step c l = Val c' -> apply_ok c'.
Proof.
  intros Hok Ha Hstep. pose proof (ao_thread _ Ha) as Ht. destruct l as [i now|k now|i command|i|i now rnd]; simpl in Hstep.
  - destruct (nodes c !! i) as [rf|] eqn:Hi; [|by injection Hstep as <-].
    destruct (pcs c !! i) as [p|]; [|by injection Hstep as <-].
    destruct (epochs c !! i) as [ep|]; [|by injection Hstep as <-]. by eapply run_apply.
  - destruct (threads c !! k) as [t|] eqn:Hk; [|by injection Hstep as <-]. by eapply thread_apply.
  - destruct (nodes c !! i) as [rf|] eqn:Hi; [|by injection Hstep as <-].
    destruct (epochs c !! i) as [ep|]; [|by injection Hstep as <-].
    destruct (bool_decide (state rf = Leader)); injection Hstep as <-; [|done].
    apply (apply_threads c); try done. simpl. apply Forall_app. split; [done|by apply Forall_singleton].
  - destruct (nodes c !! i) as [rf|] eqn:Hi; injection Hstep as <-; [|done]. by eapply (apply_move c _ i rf).
  - destruct (nodes c !! i) as [rf|] eqn:Hi; [|by injection Hstep as <-].
    apply bind_val in Hstep as (rf' & Hmk & [= <-]). destruct Ha as [Ho Hn _]. constructor; simpl; [done| |done].
    intros j r [(<- & <- & _)|[_ Hj]]%list_lookup_insert_Some; [|by apply Hn].
    rewrite (Make_applied _ _ _ _ _ _ Hmk). split; [done|]. intros. by left.
Qed.

Lemma reachable_apply `{!CodecLaws} n c : reachable n c -> apply_ok c.
Proof.
  induction 1 as [c now rnd Hn Hc|c l c' Hr IH Hs _]; [|by eapply step_apply; [apply (reachable_ok n)|..]].
  pose proof Hc as (_ & _ & _ & _ & Ht & Ha)%init_nodes. constructor; rewrite ?Ht, ?Ha; try done.
  - apply Forall_replicate. intros k m Hk. done.
  - intros i rf Hi. unfold init_cluster in Hc. apply bind_val in Hc as (ns & Hns & [= <-]).
    apply (mapM_seq_val _ (fun _ rf => lastApplied rf = 0)) in Hns as [_ Hall]; [|intros j r _; apply Make_applied].
    rewrite (Hall _ _ Hi). split; [done|]. intros. by left.
Qed.

(** In every reachable cluster, each server has sent its application commands only, with indices from 1
    on, and none before the command at the previous index (over restarts, repeated entries and
    several apply goroutines at once). *)
Theorem applied_in_order `{!CodecLaws} n c i ms k m :
  reachable n c -> applied c !! i = Some ms -> ms !! k = Some m ->
  CommandValid m = true /\ 1 <= CommandIndex m /\
  (CommandIndex m = 1 \/ exists k' m', (k' < k)%nat /\ ms !! k' = Some m' /\ CommandIndex m' = CommandIndex m - 1).
Proof.
  intros Hr%reachable_apply Hi Hk. pose proof (ao_order _ Hr) as Ho. eapply Forall_lookup_1 in Ho; [|exact Hi].
  destruct (Ho k m Hk) as (Hv & Hx & [?|(m' & Hm' & Hx')]); (split_and!; [done|done|]); [left; lia|right].
  apply list_elem_of_lookup in Hm' as (k' & [Hk' Hlt]%lookup_take_Some). by exists k', m'.
Qed.

End Apply.

(** Both applications of the execution [commit_one] *)
Lemma applied_in_order_witness :
  exists ms, applied commit_end !! 1%nat = Some ms /\ ms !! 0%nat = Some (mkApplyMsg true (Some 42) 1) /\
    CommandValid (mkApplyMsg true (Some 42) 1) = true.
Proof.
  exists [mkApplyMsg true (Some 42) 1]. assert (applied commit_end !! 1%nat = Some [mkApplyMsg true (Some 42) 1]) as E
    by (vm_compute; reflexivity).
  split; [exact E|]. split; [reflexivity|].
  assert (reachable 3 commit_end) as Hr.
  { eapply (run_while_reachable 3 disciplined commit_one).
    - eapply reach_init; [lia|apply start_cluster_init].
    - vm_compute. reflexivity. }
  exact (proj1 (applied_in_order 3 commit_end 1 _ 0 (mkApplyMsg true (Some 42) 1) Hr E eq_refl)).
Defined.

End RaftApply.
