(* ===== verification/MrMaster.v ===== *)
(** * The MapReduce master (mr/master.go, mr/rpc.go)

    The four task queues, the RPC handlers [AskTask] and [TaskDone], one turn of the collector of timed
    out tasks, and [MakeMaster].  A queue is an [option (list _)]: [Pop] tells a nil slice from an empty
    one.  The loops that delete from a slice while walking it keep the source's index; their lemmas show
    what they compute.

    Here [AskTask], [TaskDone] and a turn of [CollectTimeOutQueue] are functions of the whole master: what they do when
    nothing else runs.  MrRace.v has them access by access, as they interleave, and shows that they do this
    alone ([handlers_alone], [collector_alone]); MrJob.v takes them as events, and MrServe.v says when that is
    what the server does. *)

From stdpp Require Import base list gmap strings.
From Stdlib Require Import ZArith Lia.
From S2P Require Import Prelude.

Open Scope Z_scope.

Module MrMaster.

(** ** mr/rpc.go *)

Definition TaskMap : Z := 0.
Definition TaskReduce : Z := 1.
Definition TaskWait : Z := 2.
Definition TaskEnd : Z := 3.

Record TaskInfo := mkTaskInfo {
  TimeStamp : Z;
  State : Z;
  FileName : string;
  FileIndex : Z;
  PartIndex : Z;
  NReduce : Z;
  NFiles : Z }.

(** [TaskInfo{}]; the zero [time.Time] is 0. *)
Definition zeroTask : TaskInfo := mkTaskInfo 0 0 "" 0 0 0 0.

Definition setState (s : Z) (t : TaskInfo) : TaskInfo :=
  mkTaskInfo (TimeStamp t) s (FileName t) (FileIndex t) (PartIndex t) (NReduce t) (NFiles t).

(** ** mr/master.go: task queues *)

Notation TaskQueue := (option (list TaskInfo)).

(** The elements of a slice that may be nil *)
Definition elems (q : TaskQueue) : list TaskInfo := default [] q.

Definition Size (q : TaskQueue) : Z := len (elems q).

Definition Pop (q : TaskQueue) : res (TaskInfo * TaskQueue) :=
  match q with
  | None => mret (setState TaskEnd zeroTask, None)
  | Some l =>
      ret ← go_index l (len l - 1);
      l' ← go_slice l 0 (len l - 1);
      mret (ret, Some l')
  end.

Definition Push (t : TaskInfo) (q : TaskQueue) : TaskQueue := Some (elems q ++ [t]).

(** The loop of [RemoveTask] at index [i]; [fuel] bounds the turns. *)
Fixpoint remove_loop (fuel : nat) (i : nat) (fi pi : Z) (l : list TaskInfo) : list TaskInfo :=
  match fuel with
  | O => l
  | S fuel' =>
      match l !! i with
      | None => l
      | Some t =>
          if (FileIndex t =? fi) && (PartIndex t =? pi)
          then remove_loop fuel' i fi pi (take i l ++ drop (S i) l)
          else remove_loop fuel' (S i) fi pi l
      end
  end.

Definition RemoveTask (fi pi : Z) (q : TaskQueue) : TaskQueue :=
  (fun l => remove_loop (length l) 0 fi pi l) <$> q.

Definition Second : Z := 1000000000.

Definition OutOfTime (now : Z) (t : TaskInfo) : bool := Second * 10 <? now - TimeStamp t.

Definition SetNow (now : Z) (t : TaskInfo) : TaskInfo :=
  mkTaskInfo now (State t) (FileName t) (FileIndex t) (PartIndex t) (NReduce t) (NFiles t).

(** The loop of [TimeOutQueue]; turn [k] reads the clock as [clock k]. *)
Fixpoint timeout_loop (fuel : nat) (clock : nat -> Z) (k i : nat) (l ret : list TaskInfo)
    : list TaskInfo * list TaskInfo :=
  match fuel with
  | O => (l, ret)
  | S fuel' =>
      match l !! i with
      | None => (l, ret)
      | Some t =>
          if OutOfTime (clock k) t
          then timeout_loop fuel' clock (S k) i (take i l ++ drop (S i) l) (ret ++ [t])
          else timeout_loop fuel' clock (S k) (S i) l ret
      end
  end.

Definition TimeOutQueue (clock : nat -> Z) (q : TaskQueue) : TaskQueue * list TaskInfo :=
  match q with
  | None => (None, [])
  | Some l => let '(l', ret) := timeout_loop (length l) clock 0 0 l [] in (Some l', ret)
  end.

(** ** mr/master.go: the master *)

Record Master := mkMaster {
  mapTaskQueuing : TaskQueue;
  reduceTaskQueuing : TaskQueue;
  mapTaskRunning : TaskQueue;
  reduceTaskRunning : TaskQueue;
  isDone : bool;
  filenames : list string }.

Definition AskTask (m : Master) (now : Z) : res (Master * TaskInfo) :=
  if 0 <? Size (reduceTaskQueuing m) then
    '(t, q) ← Pop (reduceTaskQueuing m);
    let t := SetNow now t in
    mret (mkMaster (mapTaskQueuing m) q (mapTaskRunning m) (Push t (reduceTaskRunning m))
            (isDone m) (filenames m), t)
  else if 0 <? Size (mapTaskQueuing m) then
    '(t, q) ← Pop (mapTaskQueuing m);
    let t := SetNow now t in
    mret (mkMaster q (reduceTaskQueuing m) (Push t (mapTaskRunning m)) (reduceTaskRunning m)
            (isDone m) (filenames m), t)
  else if (Size (mapTaskRunning m) =? 0) && (Size (reduceTaskRunning m) =? 0) then
    mret (mkMaster (mapTaskQueuing m) (reduceTaskQueuing m) (mapTaskRunning m) (reduceTaskRunning m)
            true (filenames m), setState TaskEnd zeroTask)
  else mret (m, setState TaskWait zeroTask).

Definition reduceTask (m : Master) (i : nat) : TaskInfo :=
  mkTaskInfo 0 TaskReduce "" 0 (Z.of_nat i) 0 (len (filenames m)).

(** [for i := 0; i < NReduce; i++] pushing task [i] *)
Definition createReduceTask (nreduce : Z) (m : Master) : Master :=
  mkMaster (mapTaskQueuing m)
    (foldl (fun q i => Push (reduceTask m i) q) (reduceTaskQueuing m) (seq 0 (Z.to_nat nreduce)))
    (mapTaskRunning m) (reduceTaskRunning m) (isDone m) (filenames m).

Definition TaskDone (m : Master) (args : TaskInfo) : res Master :=
  if State args =? TaskMap then
    let m1 := mkMaster (mapTaskQueuing m) (reduceTaskQueuing m)
                (RemoveTask (FileIndex args) (PartIndex args) (mapTaskRunning m))
                (reduceTaskRunning m) (isDone m) (filenames m) in
    if (Size (mapTaskRunning m1) =? 0) && (Size (mapTaskQueuing m1) =? 0)
    then mret (createReduceTask (NReduce args) m1) else mret m1
  else if State args =? TaskReduce then
    mret (mkMaster (mapTaskQueuing m) (reduceTaskQueuing m) (mapTaskRunning m)
            (RemoveTask (FileIndex args) (PartIndex args) (reduceTaskRunning m)) (isDone m) (filenames m))
  else Err (EPanic "Wrong Task Done").

Definition Done (m : Master) : bool := isDone m.

Definition requeue (ret : list TaskInfo) (q : TaskQueue) : TaskQueue :=
  if 0 <? len ret then Some (elems q ++ ret) else q.

(** One turn of [CollectTimeOutQueue], after its sleep, when no call runs in between *)
Definition CollectTimeOutQueue (clock1 clock2 : nat -> Z) (m : Master) : Master :=
  let '(rr, rret) := TimeOutQueue clock1 (reduceTaskRunning m) in
  let '(mr, mret') := TimeOutQueue clock2 (mapTaskRunning m) in
  mkMaster (requeue mret' (mapTaskQueuing m)) (requeue rret (reduceTaskQueuing m)) mr rr
    (isDone m) (filenames m).

Definition mapTask (now : nat -> Z) (nReduce nfiles : Z) (i : nat) (f : string) : TaskInfo :=
  mkTaskInfo (now i) TaskMap f (Z.of_nat i) 0 nReduce nfiles.

Definition MakeMaster (files : list string) (nReduce : Z) (now : nat -> Z) : Master :=
  mkMaster
    (foldl (fun q t => Push t q) None (imap (mapTask now nReduce (len files)) files))
    None None None false files.

(** ** The queue operations *)

Lemma Size_zero q : Size q =? 0 = true <-> elems q = [].
Proof. unfold Size, len. rewrite Z.eqb_eq. destruct (elems q); simpl; split; done || lia. Qed.

Lemma Size_pos q : 0 <? Size q = false -> elems q = [].
Proof. rewrite Z.ltb_ge. unfold Size, len. destruct (elems q); simpl; [done|lia]. Qed.

(** Popping a queue that is not empty takes its last element. *)
Lemma Pop_spec q : 0 < Size q -> exists l t, q = Some (l ++ [t]) /\ Pop q = Val (t, Some l).
Proof.
  unfold Size. destruct q as [l|]; simpl; [|done].
  destruct l as [|t l _] using rev_ind; [done|]. intros _. exists l, t. split; [done|].
  unfold Pop. replace (len (l ++ [t]) - 1) with (len l) by (rewrite len_app; unfold len; simpl; lia).
  assert (go_index (l ++ [t]) (len l) = Val t) as ->
    by (apply go_index_nat; by rewrite lookup_app_r, Nat.sub_diag by lia).
  simpl. assert (go_slice (l ++ [t]) 0 (len l) = Val l) as ->.
  { apply go_slice_val. rewrite len_app. split_and!; [lia|apply len_nonneg|unfold len; simpl; lia|].
    rewrite Z.sub_0_r. unfold len. rewrite Nat2Z.id. change (Z.to_nat 0) with 0%nat. by rewrite drop_0, take_app_length. }
  done.
Qed.

Definition same_task (fi pi : Z) (t : TaskInfo) : Prop := FileIndex t = fi /\ PartIndex t = pi.

#[export] Instance same_task_dec fi pi t : Decision (same_task fi pi t).
Proof. unfold same_task. apply _. Defined.

Lemma remove_loop_spec fuel i fi pi l :
  (length l - i <= fuel)%nat -> (i <= length l)%nat ->
  remove_loop fuel i fi pi l = take i l ++ filter (fun t => ~ same_task fi pi t) (drop i l).
Proof.
  revert i l. induction fuel as [|fuel IH]; intros i l Hf Hi; simpl.
  - rewrite drop_ge, filter_nil, app_nil_r, take_ge by lia. done.
  - destruct (l !! i) as [t|] eqn:Ht.
    + pose proof (lookup_lt_Some _ _ _ Ht) as Hlt. rewrite (drop_S _ _ _ Ht).
      assert (length (take i l) = i) as Hti by (rewrite length_take; lia).
      destruct (decide (same_task fi pi t)) as [Hs|Hs].
      * destruct Hs as [E1 E2]. rewrite (proj2 (Z.eqb_eq _ _) E1), (proj2 (Z.eqb_eq _ _) E2). simpl.
        rewrite filter_cons_False by (intros Hn; by apply Hn).
        rewrite IH by (rewrite length_app, length_drop, Hti; lia).
        rewrite take_app_le, take_take, Nat.min_id by lia. f_equal.
        by rewrite drop_app_le, drop_ge, app_nil_l by lia.
      * assert ((FileIndex t =? fi) && (PartIndex t =? pi) = false) as ->.
        { apply not_true_iff_false. rewrite andb_true_iff, !Z.eqb_eq. exact Hs. }
        rewrite filter_cons_True by done. rewrite IH by lia. rewrite (take_S_r _ _ _ Ht), <- app_assoc. done.
    + apply lookup_ge_None in Ht. rewrite drop_ge, filter_nil, app_nil_r, take_ge by lia. done.
Qed.

(** [RemoveTask] deletes every entry for the task, and keeps the rest in order. *)
Lemma RemoveTask_spec fi pi q :
  elems (RemoveTask fi pi q) = filter (fun t => ~ same_task fi pi t) (elems q).
Proof.
  destruct q as [l|]; simpl; [|done]. rewrite remove_loop_spec by lia. done.
Qed.

Lemma timeout_loop_spec fuel clock k i l ret l' ret' :
  timeout_loop fuel clock k i l ret = (l', ret') -> l' ++ ret' ≡ₚ l ++ ret.
Proof.
  revert k i l ret. induction fuel as [|fuel IH]; intros k i l ret; simpl; [by intros [= <- <-]|].
  destruct (l !! i) as [t|] eqn:Ht; [|by intros [= <- <-]].
  destruct (OutOfTime (clock k) t); [|by apply IH].
  intros ->%IH. rewrite <- (take_drop_middle _ _ _ Ht) at 3. solve_Permutation.
Qed.

Lemma TimeOutQueue_spec clock q q' ret :
  TimeOutQueue clock q = (q', ret) -> elems q' ++ ret ≡ₚ elems q.
Proof.
  destruct q as [l|]; simpl; [|by intros [= <- <-]].
  destruct (timeout_loop _ _ _ _ _ _) as [l' r'] eqn:E. intros [= <- <-].
  apply timeout_loop_spec in E. simpl. by rewrite app_nil_r in E.
Qed.

(** What stays was in time at some reading of the clock; what is taken out was not. *)
Lemma timeout_loop_times fuel clock k i l ret l' ret' :
  (length l - i <= fuel)%nat -> timeout_loop fuel clock k i l ret = (l', ret') ->
  (forall t, t ∈ l' -> t ∈ take i l \/ exists n, OutOfTime (clock n) t = false) /\
  (forall t, t ∈ ret' -> t ∈ ret \/ exists n, OutOfTime (clock n) t = true).
Proof.
  revert k i l ret. induction fuel as [|fuel IH]; intros k i l ret Hf; simpl.
  { intros [= <- <-]. rewrite take_ge by lia. auto. }
  destruct (l !! i) as [t|] eqn:Ht.
  2: { intros [= <- <-]. rewrite take_ge by (by apply lookup_ge_None). auto. }
  pose proof (lookup_lt_Some _ _ _ Ht) as Hlt. assert (length (take i l) = i) as Hti by (rewrite length_take; lia).
  destruct (OutOfTime (clock k) t) eqn:Ho; intros Hr; apply IH in Hr as [IH1 IH2].
  - split.
    + intros x [Hx|?]%IH1; [left|by right]. by rewrite take_app_le, take_take, Nat.min_id in Hx by lia.
    + intros x [[?| ->%list_elem_of_singleton]%elem_of_app|?]%IH2; eauto.
  - rewrite length_app, length_drop, Hti. lia.
  - split; [|done]. intros x [Hx|?]%IH1; [|by right]. rewrite (take_S_r _ _ _ Ht) in Hx.
    apply elem_of_app in Hx as [?| ->%list_elem_of_singleton]; eauto.
  - lia.
Qed.

Lemma TimeOutQueue_times clock q q' ret :
  TimeOutQueue clock q = (q', ret) ->
  (forall t, t ∈ elems q' -> exists n, OutOfTime (clock n) t = false) /\
  (forall t, t ∈ ret -> exists n, OutOfTime (clock n) t = true).
Proof.
  destruct q as [l|]; simpl; [|intros [= <- <-]; split; intros t Ht; set_solver].
  destruct (timeout_loop _ _ _ _ _ _) as [l' r'] eqn:E. intros [= <- <-].
  apply timeout_loop_times in E as [E1 E2]; [|lia]. simpl. split.
  - intros t [Ht|?]%E1; [set_solver|done].
  - intros t [Ht|?]%E2; [set_solver|done].
Qed.

Lemma elems_requeue ret q : elems (requeue ret q) = elems q ++ ret.
Proof.
  unfold requeue. destruct (Z.ltb_spec 0 (len ret)) as [|Hn]; [done|].
  destruct ret; [by rewrite app_nil_r|]. unfold len in Hn. simpl in Hn. lia.
Qed.

Lemma elems_foldl_push {A} (f : A -> TaskInfo) xs q :
  elems (foldl (fun q x => Push (f x) q) q xs) = elems q ++ (f <$> xs).
Proof.
  revert q. induction xs as [|x xs IH]; intros q; simpl; [by rewrite app_nil_r|].
  rewrite IH. simpl. by rewrite <- app_assoc.
Qed.

(** A turn of the collector of timed out tasks loses and invents no task, moves back to its queue only
    tasks that were overdue by more than ten seconds, and leaves running only tasks that were not. *)
Theorem collector_requeues_overdue clock1 clock2 m :
  let m' := CollectTimeOutQueue clock1 clock2 m in
  elems (mapTaskQueuing m') ++ elems (mapTaskRunning m') ≡ₚ elems (mapTaskQueuing m) ++ elems (mapTaskRunning m) /\
  elems (reduceTaskQueuing m') ++ elems (reduceTaskRunning m') ≡ₚ
    elems (reduceTaskQueuing m) ++ elems (reduceTaskRunning m) /\
  (forall t, t ∈ elems (mapTaskRunning m') -> exists n, OutOfTime (clock2 n) t = false) /\
  (forall t, t ∈ elems (reduceTaskRunning m') -> exists n, OutOfTime (clock1 n) t = false) /\
  exists back_m back_r,
    elems (mapTaskQueuing m') = elems (mapTaskQueuing m) ++ back_m /\
    elems (reduceTaskQueuing m') = elems (reduceTaskQueuing m) ++ back_r /\
    (forall t, t ∈ back_m -> exists n, OutOfTime (clock2 n) t = true) /\
    (forall t, t ∈ back_r -> exists n, OutOfTime (clock1 n) t = true).
Proof.
  unfold CollectTimeOutQueue.
  destruct (TimeOutQueue clock1 _) as [rr rret] eqn:E1. destruct (TimeOutQueue clock2 _) as [mr mret'] eqn:E2. simpl.
  rewrite !elems_requeue.
  pose proof (TimeOutQueue_spec _ _ _ _ E1) as P1. pose proof (TimeOutQueue_spec _ _ _ _ E2) as P2.
  destruct (TimeOutQueue_times _ _ _ _ E1) as [K1 R1]. destruct (TimeOutQueue_times _ _ _ _ E2) as [K2 R2].
  split_and!; [rewrite <- P2; solve_Permutation|rewrite <- P1; solve_Permutation|done|done|].
  exists mret', rret. done.
Qed.

End MrMaster.
