(* ===== verification/MrJob.v ===== *)
(** * A MapReduce job: the master with its workers

    A [Job] is the master together with the history of what it was told: the tasks it gave to workers and
    the indices of the map and reduce tasks reported done.  Its events are the master's handlers, one at
    a time: a worker asks; a worker reports a task it was given, at any later time and any number of
    times; the collector takes timed out tasks back.  This is the abstract job that the server of MrRace.v, which
    interleaves accesses, refines when it is served one at a time (MrServe.v). *)

From stdpp Require Import base list gmap strings.
From Stdlib Require Import ZArith Lia.
From S2P Require Import Prelude MrMaster.
Import MrMaster.

Open Scope Z_scope.

Module MrJob.

Record Job := mkJob {
  master : Master;
  given : list TaskInfo;
  mapsDone : gset Z;
  reducesDone : gset Z;
  created : bool  (* the reduce tasks have been created *) }.

Inductive event :=
  | EAsk (now : Z)
  | EReport (t : TaskInfo)
  | ECollect (clock1 clock2 : nat -> Z).

Definition is_work (t : TaskInfo) : bool := (State t =? TaskMap) || (State t =? TaskReduce).

Definition jstep (j : Job) (e : event) : res Job :=
  match e with
  | EAsk now =>
      '(m, t) ← AskTask (master j) now;
      mret (mkJob m (if is_work t then given j ++ [t] else given j) (mapsDone j) (reducesDone j) (created j))
  | EReport t =>
      m ← TaskDone (master j) t;
      if State t =? TaskMap then
        mret (mkJob m (given j) ({[ FileIndex t ]} ∪ mapsDone j) (reducesDone j)
                (created j || ((Size (mapTaskRunning m) =? 0) && (Size (mapTaskQueuing m) =? 0))))
      else mret (mkJob m (given j) (mapsDone j) ({[ PartIndex t ]} ∪ reducesDone j) (created j))
  | ECollect clock1 clock2 =>
      mret (mkJob (CollectTimeOutQueue clock1 clock2 (master j)) (given j) (mapsDone j) (reducesDone j)
              (created j))
  end.

(** Workers report only tasks they were given. *)
Definition allowed (j : Job) (e : event) : Prop :=
  match e with EReport t => t ∈ given j | _ => True end.

Definition startJob (files : list string) (nReduce : Z) (now : nat -> Z) : Job :=
  mkJob (MakeMaster files nReduce now) [] ∅ ∅ false.

Inductive job (files : list string) (nReduce : Z) : Job -> Prop :=
  | job_start now : job files nReduce (startJob files nReduce now)
  | job_step j e j' : job files nReduce j -> allowed j e -> jstep j e = Val j' -> job files nReduce j'.

(** ** The invariant *)

Section Inv.
Variables (files : list string) (nReduce : Z).

Record map_task_ok (t : TaskInfo) : Prop := {
  mt_state : State t = TaskMap;
  mt_file : files !! Z.to_nat (FileIndex t) = Some (FileName t);
  mt_index : 0 <= FileIndex t < len files;
  mt_part : PartIndex t = 0;
  mt_reduce : NReduce t = nReduce;
  mt_files : NFiles t = len files }.

Record reduce_task_ok (t : TaskInfo) : Prop := {
  rt_state : State t = TaskReduce;
  rt_index : FileIndex t = 0;
  rt_part : 0 <= PartIndex t < nReduce;
  rt_files : NFiles t = len files }.

(** The tasks the master knows of, waiting or running, time stamps aside *)
Definition untimed (t : TaskInfo) : TaskInfo := SetNow 0 t.
Definition map_tasks (m : Master) : list TaskInfo :=
  untimed <$> (elems (mapTaskQueuing m) ++ elems (mapTaskRunning m)).
Definition reduce_tasks (m : Master) : list TaskInfo :=
  untimed <$> (elems (reduceTaskQueuing m) ++ elems (reduceTaskRunning m)).

Definition all_maps_done (j : Job) : Prop := forall f, 0 <= f < len files -> f ∈ mapsDone j.
Definition all_reduces_done (j : Job) : Prop := forall p, 0 <= p < nReduce -> p ∈ reducesDone j.

Record job_ok (j : Job) : Prop := {
  jo_names : filenames (master j) = files;
  jo_map : Forall map_task_ok (map_tasks (master j));
  jo_reduce : Forall reduce_task_ok (reduce_tasks (master j));
  jo_given : Forall (fun t => map_task_ok t \/ reduce_task_ok t) (given j);
  (* a map task that is not done is with the master or a worker *)
  jo_maps : forall f, 0 <= f < len files ->
    f ∈ mapsDone j \/ exists t, t ∈ map_tasks (master j) /\ FileIndex t = f;
  jo_reduces : created j = true -> forall p, 0 <= p < nReduce ->
    p ∈ reducesDone j \/ exists t, t ∈ reduce_tasks (master j) /\ PartIndex t = p;
  jo_created : created j = false -> reduce_tasks (master j) = [] /\ (map_tasks (master j) = [] -> files = []);
  jo_phase : created j = true -> all_maps_done j;
  jo_done : isDone (master j) = true -> all_maps_done j /\ (files <> [] -> all_reduces_done j) }.

(** Moving tasks between the queues changes nothing. *)
Lemma job_ok_moved j m g :
  job_ok j -> map_tasks m ≡ₚ map_tasks (master j) -> reduce_tasks m ≡ₚ reduce_tasks (master j) ->
  filenames m = filenames (master j) -> isDone m = isDone (master j) ->
  Forall (fun t => map_task_ok t \/ reduce_task_ok t) g ->
  job_ok (mkJob m g (mapsDone j) (reducesDone j) (created j)).
Proof.
  intros [] Hm Hr Hf Hd Hg. constructor; simpl; try done; try congruence.
  - by rewrite Hm.
  - by rewrite Hr.
  - by setoid_rewrite Hm.
  - by setoid_rewrite Hr.
  - intros Hc. destruct (jo_created0 Hc) as [E1 E2]. rewrite E1 in Hr. apply Permutation_nil_r in Hr.
    split; [done|]. intros E. rewrite E in Hm. apply Permutation_nil in Hm. auto.
  - by rewrite Hd.
Qed.

Lemma task_ok_untimed t :
  (map_task_ok (untimed t) <-> map_task_ok t) /\ (reduce_task_ok (untimed t) <-> reduce_task_ok t).
Proof. split; (split; intros []; constructor; done). Qed.

Lemma untimed_SetNow now t : untimed (SetNow now t) = untimed t.
Proof. done. Qed.

(** ** Asking for a task *)

(** Giving out the last task of a queue *)
Lemma give_perm (q r : list TaskInfo) t now :
  untimed <$> (q ++ (r ++ [SetNow now t])) ≡ₚ untimed <$> ((q ++ [t]) ++ r).
Proof. rewrite !fmap_app. simpl. rewrite untimed_SetNow. solve_Permutation. Qed.

Lemma ask_ok j now j' : job_ok j -> jstep j (EAsk now) = Val j' -> job_ok j'.
Proof.
  intros Hok. simpl. unfold AskTask.
  destruct (Z.ltb_spec 0 (Size (reduceTaskQueuing (master j)))) as [Hr|Hr].
  { destruct (Pop_spec _ Hr) as (l & t & Hq & ->). intros [= <-].
    assert (reduce_task_ok t) as Ht.
    { apply task_ok_untimed. pose proof (jo_reduce _ Hok) as Hall. eapply Forall_forall in Hall; [done|].
      unfold reduce_tasks. rewrite Hq. simpl. rewrite !fmap_app. set_solver. }
    apply job_ok_moved; try done.
    - unfold reduce_tasks. simpl. rewrite Hq. apply give_perm.
    - unfold is_work. simpl. rewrite (rt_state _ Ht). apply Forall_app. split; [apply Hok|].
      apply Forall_singleton. right. by destruct Ht; constructor. }
  destruct (Z.ltb_spec 0 (Size (mapTaskQueuing (master j)))) as [Hm|Hm].
  { destruct (Pop_spec _ Hm) as (l & t & Hq & ->). intros [= <-].
    assert (map_task_ok t) as Ht.
    { apply task_ok_untimed. pose proof (jo_map _ Hok) as Hall. eapply Forall_forall in Hall; [done|].
      unfold map_tasks. rewrite Hq. simpl. rewrite !fmap_app. set_solver. }
    apply job_ok_moved; try done.
    - unfold map_tasks. simpl. rewrite Hq. apply give_perm.
    - unfold is_work. simpl. rewrite (mt_state _ Ht). apply Forall_app. split; [apply Hok|].
      apply Forall_singleton. left. by destruct Ht; constructor. }
  destruct (Size (mapTaskRunning (master j)) =? 0) eqn:E1,
           (Size (reduceTaskRunning (master j)) =? 0) eqn:E2; simpl; intros [= <-];
    try (apply job_ok_moved; try done; apply Hok).
  apply Size_zero in E1, E2. apply Z.ltb_ge in Hr, Hm. apply Size_pos in Hr, Hm.
  assert (map_tasks (master j) = []) as Hmt by (unfold map_tasks; by rewrite Hm, E1).
  assert (reduce_tasks (master j) = []) as Hrt by (unfold reduce_tasks; by rewrite Hr, E2).
  assert (all_maps_done j) as Hall.
  { intros f Hf. destruct (jo_maps _ Hok f Hf) as [?|(t & Ht & _)]; [done|]. rewrite Hmt in Ht. set_solver. }
  destruct Hok. constructor; simpl; try done.
  intros _. split; [done|]. intros Hne p Hp. destruct (created j) eqn:Hc.
  - destruct (jo_reduces0 eq_refl p Hp) as [?|(t & Ht & _)]; [done|]. rewrite Hrt in Ht. set_solver.
  - destruct (jo_created0 eq_refl) as [_ Hf]. by destruct (Hne (Hf Hmt)).
Qed.

(** ** Timed out tasks *)

Lemma collect_ok j clock1 clock2 j' : job_ok j -> jstep j (ECollect clock1 clock2) = Val j' -> job_ok j'.
Proof.
  intros Hok [= <-]. unfold CollectTimeOutQueue.
  destruct (TimeOutQueue clock1 _) as [rr rret] eqn:E1. destruct (TimeOutQueue clock2 _) as [mr mret'] eqn:E2.
  apply TimeOutQueue_spec in E1, E2.
  apply job_ok_moved; try done; [| |apply Hok].
  - unfold map_tasks. simpl. rewrite elems_requeue, <- E2. apply fmap_Permutation. solve_Permutation.
  - unfold reduce_tasks. simpl. rewrite elems_requeue, <- E1. apply fmap_Permutation. solve_Permutation.
Qed.

(** ** Reports *)

(** What is left of a list of tasks when one is removed from its second half *)
Lemma removed_tasks fi pi q r t :
  t ∈ untimed <$> (q ++ filter (fun t => ~ same_task fi pi t) r) -> t ∈ untimed <$> (q ++ r).
Proof.
  rewrite !list_elem_of_fmap. intros (x & -> & Hx). exists x. split; [done|].
  rewrite elem_of_app, list_elem_of_filter in Hx. rewrite elem_of_app. naive_solver.
Qed.

Lemma kept_tasks fi pi q r t :
  t ∈ untimed <$> (q ++ r) -> ~ same_task fi pi t ->
  t ∈ untimed <$> (q ++ filter (fun t => ~ same_task fi pi t) r).
Proof.
  rewrite !list_elem_of_fmap. intros (x & -> & Hx) Hn. exists x. split; [done|].
  rewrite elem_of_app, list_elem_of_filter. rewrite elem_of_app in Hx. naive_solver.
Qed.

Lemma report_reduce_ok j t j' :
  job_ok j -> reduce_task_ok t -> jstep j (EReport t) = Val j' -> job_ok j'.
Proof.
  intros Hok Ht. unfold jstep, TaskDone. rewrite (rt_state _ Ht). simpl. intros [= <-].
  destruct Hok. constructor; simpl; try done.
  - apply Forall_forall. intros x Hx. eapply Forall_forall in jo_reduce0; [done|].
    unfold reduce_tasks in *. simpl in Hx. rewrite RemoveTask_spec in Hx. by eapply removed_tasks.
  - intros Hc p Hp. destruct (decide (p = PartIndex t)) as [->|Hne]; [left; set_solver|].
    destruct (jo_reduces0 Hc p Hp) as [Hd|(x & Hx & Hxp)]; [left; set_solver|right].
    exists x. split; [|done]. unfold reduce_tasks. simpl. rewrite RemoveTask_spec.
    apply kept_tasks; [done|]. intros [_ ?]. congruence.
  - intros Hc. destruct (jo_created0 Hc) as [E1 E2]. split; [|done].
    unfold reduce_tasks in *. simpl. rewrite RemoveTask_spec.
    apply fmap_nil_inv in E1. apply app_eq_nil in E1 as [-> ->]. done.
  - intros Hd. destruct (jo_done0 Hd) as [? Hr]. split; [done|]. intros Hne p Hp. specialize (Hr Hne p Hp). set_solver.
Qed.

(** The reduce tasks that are created *)
Lemma created_tasks m n p :
  elems (reduceTaskQueuing (createReduceTask n m)) =
    elems (reduceTaskQueuing m) ++ (reduceTask m <$> seq 0 (Z.to_nat n)) /\
  (0 <= p < n -> exists t, t ∈ reduceTask m <$> seq 0 (Z.to_nat n) /\ PartIndex t = p).
Proof.
  split; [apply elems_foldl_push|]. intros Hp. exists (reduceTask m (Z.to_nat p)). split.
  - apply list_elem_of_fmap. exists (Z.to_nat p). split; [done|]. apply elem_of_seq. lia.
  - simpl. lia.
Qed.

Lemma created_tasks_ok m x :
  filenames m = files -> x ∈ reduceTask m <$> seq 0 (Z.to_nat nReduce) -> reduce_task_ok x.
Proof.
  intros Hf (i & -> & Hi%elem_of_seq)%list_elem_of_fmap. constructor; simpl; [done|done|lia|by rewrite Hf].
Qed.

(** The reduce tasks after [createReduceTask]. *)
Lemma created_reduce_tasks m x :
  x ∈ reduce_tasks (createReduceTask nReduce m) <->
  x ∈ reduce_tasks m \/ x ∈ reduceTask m <$> seq 0 (Z.to_nat nReduce).
Proof.
  unfold reduce_tasks. destruct (created_tasks m nReduce 0) as [-> _]. simpl. rewrite !fmap_app, !elem_of_app.
  assert (untimed <$> (reduceTask m <$> seq 0 (Z.to_nat nReduce)) = reduceTask m <$> seq 0 (Z.to_nat nReduce))
    as -> by (rewrite <- list_fmap_compose; by apply list_fmap_ext).
  tauto.
Qed.

(** A master that is done stays right when more map tasks are reported. *)
Lemma done_more_maps j j1 f :
  job_ok j -> isDone (master j1) = isDone (master j) -> mapsDone j1 = {[ f ]} ∪ mapsDone j ->
  reducesDone j1 = reducesDone j -> isDone (master j1) = true ->
  all_maps_done j1 /\ (files <> [] -> all_reduces_done j1).
Proof.
  intros Hok E1 E2 E3 Hd. rewrite E1 in Hd. destruct (jo_done _ Hok Hd) as [H1 H2].
  split; [|intros Hne p Hp; rewrite E3; by apply H2]. intros g Hg. rewrite E2. specialize (H1 g Hg). set_solver.
Qed.

Lemma report_map_ok j t j' :
  job_ok j -> map_task_ok t -> jstep j (EReport t) = Val j' -> job_ok j'.
Proof.
  intros Hok Ht. unfold jstep, TaskDone. rewrite (mt_state _ Ht). change (TaskMap =? TaskMap) with true.
  cbv iota zeta. set (m1 := mkMaster _ _ _ _ _ _).
  assert (map_tasks m1 = untimed <$> (elems (mapTaskQueuing (master j)) ++
            filter (fun x => ~ same_task (FileIndex t) (PartIndex t) x) (elems (mapTaskRunning (master j)))))
    as Hmt by (unfold map_tasks; simpl; by rewrite RemoveTask_spec).
  assert (forall f, 0 <= f < len files ->
            f ∈ {[ FileIndex t ]} ∪ mapsDone j \/ exists x, x ∈ map_tasks m1 /\ FileIndex x = f) as Hmaps.
  { intros f Hf. destruct (decide (f = FileIndex t)) as [->|Hne]; [left; set_solver|].
    destruct (jo_maps _ Hok f Hf) as [Hd|(x & Hx & Hxf)]; [left; set_solver|right].
    exists x. split; [|done]. rewrite Hmt. apply kept_tasks; [done|]. intros [? _]. congruence. }
  assert (Forall map_task_ok (map_tasks m1)) as Hwf.
  { apply Forall_forall. intros x Hx. pose proof (jo_map _ Hok) as Hall. eapply Forall_forall in Hall; [done|].
    rewrite Hmt in Hx. by eapply removed_tasks. }
  destruct ((Size (mapTaskRunning m1) =? 0) && (Size (mapTaskQueuing m1) =? 0)) eqn:Hempty.
  - apply andb_true_iff in Hempty as [Hz1 Hz2].
    assert (map_tasks m1 = []) as Hnil.
    { unfold map_tasks. apply Size_zero in Hz1, Hz2. by rewrite Hz1, Hz2. }
    rewrite (mt_reduce _ Ht).
    cbn [mbind res_bind mret res_ret].
    change (mapTaskRunning (createReduceTask nReduce m1)) with (mapTaskRunning m1).
    change (mapTaskQueuing (createReduceTask nReduce m1)) with (mapTaskQueuing m1).
    rewrite Hz1, Hz2, orb_true_r. intros [= <-].
    assert (all_maps_done (mkJob (createReduceTask nReduce m1) (given j)
              ({[ FileIndex t ]} ∪ mapsDone j) (reducesDone j) true)) as Hall.
    { intros f Hf. destruct (Hmaps f Hf) as [?|(x & Hx & _)]; [done|]. rewrite Hnil in Hx. set_solver. }
    constructor; simpl; try done; try apply Hok.
    + apply Forall_forall. intros x [Hx|Hx]%created_reduce_tasks.
      * pose proof (jo_reduce _ Hok) as Hr. by eapply Forall_forall in Hr.
      * eapply created_tasks_ok; [|done]. apply Hok.
    + intros _ p Hp. right. destruct (created_tasks m1 nReduce p) as [_ Hc]. destruct (Hc Hp) as (x & Hx & Hxp).
      exists x. split; [|done]. apply created_reduce_tasks. by right.
    + intros Hd. by apply (done_more_maps j _ (FileIndex t)).
  - cbn [mbind res_bind mret res_ret]. rewrite Hempty, orb_false_r. intros [= <-].
    constructor; simpl; try done; try apply Hok.
    + intros Hc. destruct (jo_created _ Hok Hc) as [? _]. split; [done|]. intros E. exfalso.
      apply fmap_nil_inv, app_eq_nil in E as [E1 E2]. simpl in E1, E2.
      apply not_true_iff_false in Hempty. apply Hempty. apply andb_true_iff. split; by apply Size_zero.
    + intros Hc f Hf. pose proof (jo_phase _ Hok Hc f Hf). set_solver.
    + intros Hd. by apply (done_more_maps j _ (FileIndex t)).
Qed.

Lemma start_ok now : job_ok (startJob files nReduce now).
Proof.
  assert (map_tasks (MakeMaster files nReduce now) = untimed <$> imap (mapTask now nReduce (len files)) files) as Hm.
  { unfold map_tasks, MakeMaster. simpl. rewrite app_nil_r.
    f_equal. etransitivity; [exact (elems_foldl_push id _ None)|]. apply list_fmap_id. }
  constructor; simpl; try done.
  - rewrite Hm. apply Forall_fmap, Forall_lookup. intros i t. rewrite list_lookup_imap.
    destruct (files !! i) as [f|] eqn:Hi; simpl; [|done]. intros [= <-].
    apply lookup_lt_Some in Hi as Hlt. constructor; simpl; try done; [by rewrite Nat2Z.id|unfold len; lia].
  - intros f Hf. right. rewrite Hm. unfold len in Hf.
    destruct (lookup_lt_is_Some_2 files (Z.to_nat f)) as [x Hx]; [lia|].
    exists (untimed (mapTask now nReduce (len files) (Z.to_nat f) x)). split; [|simpl; lia].
    apply list_elem_of_fmap. eexists. split; [done|]. apply (list_elem_of_lookup_2 _ (Z.to_nat f)).
    rewrite list_lookup_imap, Hx. done.
  - intros _. split; [done|]. rewrite Hm. intros E. apply fmap_nil_inv in E. by destruct files.
Qed.

Lemma job_job_ok j : job files nReduce j -> job_ok j.
Proof.
  induction 1 as [now|j e j' Hj IH Hal Hs]; [apply start_ok|].
  destruct e as [now|t|clock1 clock2]; [by eapply ask_ok| |by eapply collect_ok].
  destruct (proj1 (Forall_forall _ _) (jo_given _ IH) t Hal) as [Ht|Ht].
  - by eapply report_map_ok.
  - by eapply report_reduce_ok.
Qed.

End Inv.

(** A reduce task is given out only when every map task has been reported done, and it names a
    partition of the job and the number of files to read. *)
Theorem reduce_after_all_maps files nReduce j now m t :
  job files nReduce j -> AskTask (master j) now = Val (m, t) -> State t = TaskReduce ->
  (forall f, 0 <= f < len files -> f ∈ mapsDone j) /\ 0 <= PartIndex t < nReduce /\ NFiles t = len files.
Proof.
  intros Hj Ha Ht. pose proof (job_job_ok _ _ _ Hj) as Hok.
  assert (jstep j (EAsk now) = Val (mkJob m (given j ++ [t]) (mapsDone j) (reducesDone j) (created j))) as Hs.
  { simpl. rewrite Ha. simpl. unfold is_work. by rewrite Ht. }
  pose proof (ask_ok _ _ _ _ _ Hok Hs) as Hok'.
  assert (reduce_task_ok files nReduce t) as Hrt.
  { pose proof (jo_given _ _ _ Hok') as Hg. simpl in Hg. rewrite Forall_app, Forall_singleton in Hg.
    destruct Hg as [_ [Hg|?]]; [|done]. pose proof (mt_state _ _ _ Hg) as E. by rewrite Ht in E. }
  split; [|destruct Hrt; done]. apply (jo_phase _ _ _ Hok). destruct (created j) eqn:Hc; [done|].
  destruct (jo_created _ _ _ Hok Hc) as [E _]. unfold reduce_tasks in E.
  apply fmap_nil_inv, app_eq_nil in E as [E _].
  unfold AskTask, Size in Ha. rewrite E in Ha. simpl in Ha.
  destruct (0 <? _) eqn:Hm; [|destruct (_ && _); injection Ha as <- <-; done].
  apply Z.ltb_lt in Hm. destruct (Pop_spec _ Hm) as (l & x & Hq & Hp). rewrite Hp in Ha. injection Ha as <- <-.
  simpl in Ht. exfalso. pose proof (jo_map _ _ _ Hok) as Hall. unfold map_tasks in Hall. rewrite Hq in Hall.
  simpl in Hall. rewrite !fmap_app in Hall. rewrite !Forall_app in Hall.
  destruct Hall as [[_ Hx] _]. simpl in Hx. rewrite Forall_singleton in Hx. pose proof (mt_state _ _ _ Hx) as E'. simpl in E'. unfold TaskMap, TaskReduce in *. lia.
Qed.

End MrJob.
