(* ===== verification/MrRace.v ===== *)
(** * The master's handlers access by access (mr/master.go)

    net/rpc runs every call in a goroutine of its own, MakeMaster starts the collector of timed out tasks in
    another, and the master takes the lock of a queue for one access at a time.  Here a handler and the collector
    are machines that make one access per step, and a [Server] is the master with the calls in progress and the
    collector, in the order a scheduler chooses.  Alone, a handler does what MrMaster.v says; in an order of the
    scheduler's own, two calls of [AskTask] can end the job with its tasks undone, or pop an empty queue.
    MrServe.v shows what holds when the calls and the collector's turns run one at a time.

    [Size] reads the length of a slice without the lock: here it is an access like the others. *)

From stdpp Require Import base list gmap strings.
From Stdlib Require Import ZArith Lia.
From S2P Require Import Prelude MrMaster MrJob.
Import MrMaster MrJob.

Open Scope Z_scope.

Module MrRace.

(** Where a handler is *)
Inductive hpc :=
  | AReduce                     (* AskTask: reduceTaskQueuing.Size() > 0 *)
  | APopReduce                  (* reduceTaskQueuing.Pop() *)
  | APushReduce (t : TaskInfo)  (* reduceTaskRunning.Push *)
  | AMap                        (* mapTaskQueuing.Size() > 0 *)
  | APopMap
  | APushMap (t : TaskInfo)
  | AMapRunning                 (* mapTaskRunning.Size() == 0 *)
  | AReduceRunning              (* reduceTaskRunning.Size() == 0 *)
  | AEnd                        (* isDone = true *)
  | AReply (t : TaskInfo)       (* AskTask has returned *)
  | DStart (args : TaskInfo)    (* TaskDone: the switch and RemoveTask *)
  | DMapRunning (args : TaskInfo)
  | DMapQueuing (args : TaskInfo)
  | DCreate (i : nat) (n : Z)   (* createReduceTask at task i *)
  | DReply.

Definition set_mapQ q m := mkMaster q (reduceTaskQueuing m) (mapTaskRunning m) (reduceTaskRunning m) (isDone m) (filenames m).
Definition set_reduceQ q m := mkMaster (mapTaskQueuing m) q (mapTaskRunning m) (reduceTaskRunning m) (isDone m) (filenames m).
Definition set_mapR q m := mkMaster (mapTaskQueuing m) (reduceTaskQueuing m) q (reduceTaskRunning m) (isDone m) (filenames m).
Definition set_reduceR q m := mkMaster (mapTaskQueuing m) (reduceTaskQueuing m) (mapTaskRunning m) q (isDone m) (filenames m).
Definition set_done m := mkMaster (mapTaskQueuing m) (reduceTaskQueuing m) (mapTaskRunning m) (reduceTaskRunning m) true (filenames m).

(** One access *)
Definition hstep (m : Master) (p : hpc) (now : Z) : res (Master * hpc) :=
  match p with
  | AReduce => mret (m, if 0 <? Size (reduceTaskQueuing m) then APopReduce else AMap)
  | APopReduce => '(t, q) ← Pop (reduceTaskQueuing m); mret (set_reduceQ q m, APushReduce (SetNow now t))
  | APushReduce t => mret (set_reduceR (Push t (reduceTaskRunning m)) m, AReply t)
  | AMap => mret (m, if 0 <? Size (mapTaskQueuing m) then APopMap else AMapRunning)
  | APopMap => '(t, q) ← Pop (mapTaskQueuing m); mret (set_mapQ q m, APushMap (SetNow now t))
  | APushMap t => mret (set_mapR (Push t (mapTaskRunning m)) m, AReply t)
  | AMapRunning =>
      mret (m, if Size (mapTaskRunning m) =? 0 then AReduceRunning else AReply (setState TaskWait zeroTask))
  | AReduceRunning =>
      mret (m, if Size (reduceTaskRunning m) =? 0 then AEnd else AReply (setState TaskWait zeroTask))
  | AEnd => mret (set_done m, AReply (setState TaskEnd zeroTask))
  | AReply t => mret (m, AReply t)
  | DStart args =>
      if State args =? TaskMap
      then mret (set_mapR (RemoveTask (FileIndex args) (PartIndex args) (mapTaskRunning m)) m, DMapRunning args)
      else if State args =? TaskReduce
      then mret (set_reduceR (RemoveTask (FileIndex args) (PartIndex args) (reduceTaskRunning m)) m, DReply)
      else Err (EPanic "Wrong Task Done")
  | DMapRunning args => mret (m, if Size (mapTaskRunning m) =? 0 then DMapQueuing args else DReply)
  | DMapQueuing args => mret (m, if Size (mapTaskQueuing m) =? 0 then DCreate 0 (NReduce args) else DReply)
  | DCreate i n =>
      if Z.of_nat i <? n then mret (set_reduceQ (Push (reduceTask m i) (reduceTaskQueuing m)) m, DCreate (S i) n)
      else mret (m, DReply)
  | DReply => mret (m, DReply)
  end.

(** A call, as the worker made it *)
Inductive request := RAsk | RDone (args : TaskInfo).

Definition start (r : request) : hpc := match r with RAsk => AReduce | RDone args => DStart args end.

Definition replied (p : hpc) : bool := match p with AReply _ | DReply => true | _ => false end.

(** Where the goroutine [CollectTimeOutQueue] is *)
Inductive cpc :=
  | CReduce                          (* asleep; then reduceTaskRunning.TimeOutQueue() *)
  | CReduceBack (q : list TaskInfo)  (* reduceTaskQueuing gets the tasks back *)
  | CMap                             (* mapTaskRunning.TimeOutQueue() *)
  | CMapBack (q : list TaskInfo).

(** One access of the collector *)
Definition cstep (m : Master) (p : cpc) (clock : nat -> Z) : Master * cpc :=
  match p with
  | CReduce => let '(q, ret) := TimeOutQueue clock (reduceTaskRunning m) in (set_reduceR q m, CReduceBack ret)
  | CReduceBack ret => (set_reduceQ (requeue ret (reduceTaskQueuing m)) m, CMap)
  | CMap => let '(q, ret) := TimeOutQueue clock (mapTaskRunning m) in (set_mapR q m, CMapBack ret)
  | CMapBack ret => (set_mapQ (requeue ret (mapTaskQueuing m)) m, CReduce)
  end.

(** The master, every call made so far with where it is, and the collector [MakeMaster] starts *)
Record Server := mkServer {
  smaster : Master;
  calls : list (request * hpc);
  collector : cpc }.

(** A call comes in; call [k] makes one access; the collector makes one. *)
Inductive label :=
  | LArrive (r : request)
  | LCall (k : nat) (now : Z)
  | LCollect (clock : nat -> Z).

Definition sstep (s : Server) (l : label) : res Server :=
  match l with
  | LArrive r => mret (mkServer (smaster s) (calls s ++ [(r, start r)]) (collector s))
  | LCall k now =>
      match calls s !! k with
      | Some (r, p) =>
          '(m, p') ← hstep (smaster s) p now;
          mret (mkServer m (<[k := (r, p')]> (calls s)) (collector s))
      | None => mret s
      end
  | LCollect clock =>
      let '(m, c) := cstep (smaster s) (collector s) clock in mret (mkServer m (calls s) c)
  end.

(** The tasks workers have been given, and those whose report has been answered *)
Definition handed (s : Server) (t : TaskInfo) : Prop := (RAsk, AReply t) ∈ calls s /\ is_work t = true.
Definition reported (s : Server) (t : TaskInfo) : Prop := (RDone t, DReply) ∈ calls s.

(** Workers report only tasks they were given. *)
Definition may_arrive (s : Server) (l : label) : Prop :=
  match l with LArrive (RDone t) => handed s t | _ => True end.

Definition newServer (files : list string) (nReduce : Z) (now : nat -> Z) : Server :=
  mkServer (MakeMaster files nReduce now) [] CReduce.

(** What the server can become when the scheduler keeps to [sched] *)
Inductive served (sched : Server -> label -> Prop) (files : list string) (nReduce : Z) : Server -> Prop :=
  | served_start now : served sched files nReduce (newServer files nReduce now)
  | served_step s l s' :
      served sched files nReduce s -> may_arrive s l -> sched s l -> sstep s l = Val s' ->
      served sched files nReduce s'.

(** A call that has made no access yet, or is over *)
Definition at_rest (c : request * hpc) : Prop := c.2 = start c.1 \/ replied c.2 = true.

(** Calls and turns of the collector one at a time: none makes an access between two accesses of another. *)
Definition one_at_a_time (s : Server) (l : label) : Prop :=
  match l with
  | LArrive _ => True
  | LCall k _ => collector s = CReduce /\ forall i c, calls s !! i = Some c -> i <> k -> at_rest c
  | LCollect _ => forall i c, calls s !! i = Some c -> at_rest c
  end.

(** Any scheduler *)
Definition any_order (s : Server) (l : label) : Prop := True.

(** A reply stays. *)
Lemma hstep_replied m p now : replied p = true -> hstep m p now = Val (m, p).
Proof. by destruct p. Qed.

Lemma reply_stays s l s' c : sstep s l = Val s' -> c ∈ calls s -> replied c.2 = true -> c ∈ calls s'.
Proof.
  destruct l as [r|k now|clock]; simpl.
  - intros [= <-] Hc _. simpl. set_solver.
  - destruct (calls s !! k) as [[r p]|] eqn:Hk; [|by intros [= <-]].
    intros ([m p'] & Hh & [= <-])%bind_val [i Hi]%list_elem_of_lookup Hr. simpl. apply (list_elem_of_lookup_2 _ i).
    destruct (decide (i = k)) as [->|Hne]; [|by rewrite list_lookup_insert_ne].
    rewrite Hk in Hi. injection Hi as <-. rewrite hstep_replied in Hh by done. injection Hh as <- <-.
    apply list_lookup_insert_eq. by eapply lookup_lt_Some.
  - destruct (cstep _ _ _) as [m c']. by intros [= <-].
Qed.

(** ** A call alone *)

Fixpoint hrun (fuel : nat) (m : Master) (p : hpc) (now : Z) : res (Master * hpc) :=
  match fuel with
  | O => mret (m, p)
  | S fuel' => '(m', p') ← hstep m p now; hrun fuel' m' p' now
  end.

Lemma hrun_S fuel m p now : hrun (S fuel) m p now = ('(m', p') ← hstep m p now; hrun fuel m' p' now).
Proof. done. Qed.

Lemma hrun_reply fuel m t now : hrun fuel m (AReply t) now = Val (m, AReply t).
Proof. by induction fuel. Qed.

Lemma hrun_done fuel m now : hrun fuel m DReply now = Val (m, DReply).
Proof. by induction fuel. Qed.

(** The loop of [createReduceTask] *)
Lemma hrun_create k i n m now :
  (Z.to_nat n - i <= k)%nat ->
  hrun (S k) m (DCreate i n) now =
  Val (set_reduceQ (foldl (fun q i => Push (reduceTask m i) q) (reduceTaskQueuing m) (seq i (Z.to_nat n - i))) m, DReply).
Proof.
  revert i m. induction k as [|k IH]; intros i m Hk.
  - simpl. rewrite (proj2 (Z.ltb_ge _ _)) by lia. simpl. replace (Z.to_nat n - i)%nat with 0%nat by lia. by destruct m.
  - rewrite hrun_S. cbn [hstep]. destruct (Z.ltb_spec (Z.of_nat i) n) as [Hlt|Hge].
    + cbn [mbind res_bind mret res_ret]. rewrite IH by lia.
      replace (Z.to_nat n - i)%nat with (S (Z.to_nat n - S i)) by lia. done.
    + cbn [mbind res_bind mret res_ret]. rewrite hrun_done. replace (Z.to_nat n - i)%nat with 0%nat by lia. by destruct m.
Qed.

(** A call of [AskTask] or [TaskDone] that runs without interruption, access by access, does what the
    handlers of MrMaster.v do as one step, panics included, in at most 6 and [NReduce] + 5 accesses. *)
Theorem handlers_alone m args now :
  hrun 6 m AReduce now = ('(m', t) ← AskTask m now; mret (m', AReply t)) /\
  hrun (Z.to_nat (NReduce args) + 5) m (DStart args) now = (m' ← TaskDone m args; mret (m', DReply)).
Proof.
  split.
  - unfold AskTask. simpl hrun. destruct (0 <? Size (reduceTaskQueuing m)) eqn:E1; simpl.
    { by destruct (Pop (reduceTaskQueuing m)) as [[t q]|e]. }
    destruct (0 <? Size (mapTaskQueuing m)) eqn:E2; simpl.
    { by destruct (Pop (mapTaskQueuing m)) as [[t q]|e]. }
    destruct (Size (mapTaskRunning m) =? 0) eqn:E3; simpl; [|done].
    by destruct (Size (reduceTaskRunning m) =? 0).
  - replace (Z.to_nat (NReduce args) + 5)%nat with (S (S (S (S (S (Z.to_nat (NReduce args))))))) by lia.
    unfold TaskDone. rewrite hrun_S. cbn [hstep]. destruct (State args =? TaskMap).
    + cbn [mbind res_bind mret res_ret]. set (m1 := set_mapR _ m).
      change (mkMaster _ _ _ _ _ _) with m1.
      rewrite hrun_S. cbn [hstep mbind res_bind mret res_ret].
      destruct (Size (mapTaskRunning m1) =? 0) eqn:E1; [|by rewrite hrun_done].
      rewrite hrun_S. cbn [hstep mbind res_bind mret res_ret andb].
      destruct (Size (mapTaskQueuing m1) =? 0) eqn:E2; [|by rewrite hrun_done].
      rewrite hrun_create by lia. by rewrite Nat.sub_0_r.
    + destruct (State args =? TaskReduce); [|done]. cbn [mbind res_bind mret res_ret hstep]. by rewrite hrun_done.
Qed.

(** The four accesses of a turn of the collector, without interruption, are a turn of [CollectTimeOutQueue]. *)
Lemma collector_alone m clock1 clock2 clock3 clock4 :
  let '(m1, c1) := cstep m CReduce clock1 in
  let '(m2, c2) := cstep m1 c1 clock2 in
  let '(m3, c3) := cstep m2 c2 clock3 in
  cstep m3 c3 clock4 = (CollectTimeOutQueue clock1 clock3 m, CReduce).
Proof.
  unfold CollectTimeOutQueue. simpl. destruct (TimeOutQueue clock1 _) as [q ret]. simpl.
  by destruct (TimeOutQueue clock3 _) as [q' ret'].
Qed.

(** ** Two calls *)

Fixpoint srun (s : Server) (ls : list label) : res Server :=
  match ls with
  | [] => mret s
  | l :: ls' => s' ← sstep s l; srun s' ls'
  end.

(** Runs in which no report comes in are executions. *)
Lemma srun_served files nReduce s ls s' :
  served any_order files nReduce s -> (forall l, l ∈ ls -> forall t, l <> LArrive (RDone t)) ->
  srun s ls = Val s' -> served any_order files nReduce s'.
Proof.
  revert s. induction ls as [|l ls IH]; intros s Hs Hls; [by intros [= <-]|].
  intros (s1 & H1 & Hr)%bind_val. apply (IH s1); [|set_solver|done].
  apply (served_step _ _ _ s l); try done. destruct l as [[|t]| |]; try done. by destruct (Hls _ ltac:(by left) t).
Qed.

(** One input file; two workers ask at the same time. *)
Definition two_asks (sched : list nat) : res Server :=
  srun (newServer ["input"] 1 (fun _ => 0)) (LArrive RAsk :: LArrive RAsk :: ((fun k => LCall k 1) <$> sched)).

(** The check for the end of the job races with the hand-out of a task: when a second worker asks while
    the first call has taken the only map task off its queue and not yet entered it as running, the
    master says the job is done, though no task has been reported done; and when both calls see the queue
    before either takes from it, the second pops an empty queue and panics. *)
Theorem ask_races :
  (exists s, served any_order ["input"] 1 s /\ Done (smaster s) = true /\ forall t, ~ reported s t) /\
  two_asks [0; 0; 1; 1; 0; 1]%nat = Err EIndex.
Proof.
  split; [|by vm_compute].
  destruct (two_asks [0; 0; 0; 1; 1; 1; 1; 1]%nat) as [s|e] eqn:E; [|by vm_compute in E].
  exists s. split; [|vm_compute in E; injection E as <-; split; [done|]].
  - eapply srun_served; [apply served_start| |exact E].
    intros l Hl t ->. rewrite !elem_of_cons, list_elem_of_fmap in Hl. naive_solver.
  - intros t [[=]|[[=]|[]%not_elem_of_nil]%elem_of_cons]%elem_of_cons.
Qed.

End MrRace.
