(* ===== verification/MrServe.v ===== *)
(** * The master's calls one at a time

    When the scheduler lets no call, and no turn of the collector, make an access between two accesses of another
    ([one_at_a_time]), the server of MrRace.v refines the job of MrJob.v, whose handlers are one step each: the
    master is the job's, or on the way from it to the next.  So when such a server says it is done, its tasks
    have been reported. *)

From stdpp Require Import base list gmap strings.
From Stdlib Require Import ZArith Lia.
From S2P Require Import Prelude MrMaster MrJob MrRace.
Import MrMaster MrJob MrRace.

Open Scope Z_scope.

Module MrServe.

(** ** On the way through a handler *)

Definition no_queue (m : Master) : Prop := 0 <? Size (reduceTaskQueuing m) = false /\ 0 <? Size (mapTaskQueuing m) = false.

(** The master is [m] when a call of [AskTask] that found it as [m0] is at [p]. *)
Definition ask_mid (m0 m : Master) (p : hpc) : Prop :=
  match p with
  | AReduce => m = m0
  | APopReduce => m = m0 /\ 0 <? Size (reduceTaskQueuing m0) = true
  | APushReduce t => 0 <? Size (reduceTaskQueuing m0) = true /\
      exists now t0 q, Pop (reduceTaskQueuing m0) = Val (t0, q) /\ t = SetNow now t0 /\ m = set_reduceQ q m0
  | AMap => m = m0 /\ 0 <? Size (reduceTaskQueuing m0) = false
  | APopMap => m = m0 /\ 0 <? Size (reduceTaskQueuing m0) = false /\ 0 <? Size (mapTaskQueuing m0) = true
  | APushMap t => 0 <? Size (reduceTaskQueuing m0) = false /\ 0 <? Size (mapTaskQueuing m0) = true /\
      exists now t0 q, Pop (mapTaskQueuing m0) = Val (t0, q) /\ t = SetNow now t0 /\ m = set_mapQ q m0
  | AMapRunning => m = m0 /\ no_queue m0
  | AReduceRunning => m = m0 /\ no_queue m0 /\ Size (mapTaskRunning m0) =? 0 = true
  | AEnd => m = m0 /\ no_queue m0 /\ Size (mapTaskRunning m0) =? 0 = true /\ Size (reduceTaskRunning m0) =? 0 = true
  | AReply t => exists now, AskTask m0 now = Val (m, t)
  | _ => False
  end.

(** The master after [RemoveTask] *)
Definition removed (args : TaskInfo) (m : Master) : Master :=
  set_mapR (RemoveTask (FileIndex args) (PartIndex args) (mapTaskRunning m)) m.

(** The same for a call of [TaskDone] *)
Definition done_mid (args : TaskInfo) (m0 m : Master) (p : hpc) : Prop :=
  let m1 := removed args m0 in
  match p with
  | DStart a => a = args /\ m = m0
  | DMapRunning a => a = args /\ State args =? TaskMap = true /\ m = m1
  | DMapQueuing a => a = args /\ State args =? TaskMap = true /\ m = m1 /\ Size (mapTaskRunning m1) =? 0 = true
  | DCreate i n =>
      n = NReduce args /\ (i <= Z.to_nat n)%nat /\ State args =? TaskMap = true /\
      Size (mapTaskRunning m1) =? 0 = true /\ Size (mapTaskQueuing m1) =? 0 = true /\
      m = set_reduceQ (foldl (fun q i => Push (reduceTask m1 i) q) (reduceTaskQueuing m1) (seq 0 i)) m1
  | DReply => TaskDone m0 args = Val m
  | _ => False
  end.

Definition mid (r : request) : Master -> Master -> hpc -> Prop :=
  match r with RAsk => ask_mid | RDone args => done_mid args end.

(** The same for a turn of the collector *)
Definition collect_mid (m0 m : Master) (c : cpc) : Prop :=
  match c with
  | CReduce => m = m0
  | CReduceBack ret => exists clock q, TimeOutQueue clock (reduceTaskRunning m0) = (q, ret) /\ m = set_reduceR q m0
  | CMap => exists clock q ret, TimeOutQueue clock (reduceTaskRunning m0) = (q, ret) /\
      m = set_reduceQ (requeue ret (reduceTaskQueuing m0)) (set_reduceR q m0)
  | CMapBack ret' => exists clock q ret clock' q', TimeOutQueue clock (reduceTaskRunning m0) = (q, ret) /\
      TimeOutQueue clock' (mapTaskRunning m0) = (q', ret') /\
      m = set_mapR q' (set_reduceQ (requeue ret (reduceTaskQueuing m0)) (set_reduceR q m0))
  end.

Lemma mid_start r m0 m : mid r m0 m (start r) <-> m = m0.
Proof. destruct r; simpl; naive_solver. Qed.

Lemma ask_mid_step m0 m p now m' p' :
  replied p = false -> ask_mid m0 m p -> hstep m p now = Val (m', p') -> ask_mid m0 m' p'.
Proof.
  destruct p; try done; intros _; cbn [ask_mid hstep].
  - intros -> [= <- <-]. destruct (0 <? _) eqn:E; cbn [ask_mid]; auto.
  - intros [-> E] ([t q] & Hp & [= <- <-])%bind_val. cbn [ask_mid]. split; [done|]. by exists now, t, q.
  - intros (E & n & t0 & q & Hp & -> & ->) [= <- <-]. cbn [ask_mid]. exists n. unfold AskTask. rewrite E, Hp. done.
  - intros [-> E] [= <- <-]. destruct (0 <? Size (mapTaskQueuing m0)) eqn:E'; cbn [ask_mid]; unfold no_queue; auto.
  - intros (-> & E & E') ([t q] & Hp & [= <- <-])%bind_val. cbn [ask_mid]. split_and!; [done|done|]. by exists now, t, q.
  - intros (E & E' & n & t0 & q & Hp & -> & ->) [= <- <-]. cbn [ask_mid]. exists n. unfold AskTask. rewrite E, E', Hp. done.
  - intros (-> & Hq) [= <- <-]. destruct (Size (mapTaskRunning m0) =? 0) eqn:E; cbn [ask_mid]; [auto|].
    exists 0. unfold AskTask. destruct Hq as [-> ->]. by rewrite E.
  - intros (-> & Hq & Em) [= <- <-]. destruct (Size (reduceTaskRunning m0) =? 0) eqn:E; cbn [ask_mid]; [auto|].
    exists 0. unfold AskTask. destruct Hq as [-> ->]. by rewrite Em, E.
  - intros (-> & [Hq Hq'] & Em & Er) [= <- <-]. cbn [ask_mid]. exists 0. unfold AskTask. by rewrite Hq, Hq', Em, Er.
Qed.

Lemma TaskDone_map args m :
  State args =? TaskMap = true ->
  TaskDone m args =
    if (Size (mapTaskRunning (removed args m)) =? 0) && (Size (mapTaskQueuing (removed args m)) =? 0)
    then Val (createReduceTask (NReduce args) (removed args m)) else Val (removed args m).
Proof. intros E. unfold TaskDone. by rewrite E. Qed.

Lemma done_mid_step args m0 m p now m' p' :
  replied p = false -> done_mid args m0 m p -> hstep m p now = Val (m', p') -> done_mid args m0 m' p'.
Proof.
  destruct p as [| | | | | | | | | |a|a|a|i n|]; try done; intros _; cbn [done_mid hstep].
  - intros [-> ->]. destruct (State args =? TaskMap) eqn:Em; [by intros [= <- <-]|].
    destruct (State args =? TaskReduce) eqn:Er; [|done]. intros [= <- <-]. cbn [done_mid]. unfold TaskDone. by rewrite Em, Er.
  - intros (-> & Em & ->) [= <- <-]. destruct (Size _ =? 0) eqn:E; cbn [done_mid]; [done|].
    rewrite TaskDone_map by done. simpl. by rewrite E.
  - intros (-> & Em & -> & Er) [= <- <-]. destruct (Size (mapTaskQueuing _) =? 0) eqn:E; cbn [done_mid].
    + by split_and!; try (done || lia).
    + rewrite TaskDone_map, Er by done. simpl. by rewrite E.
  - intros (-> & Hi & Em & Er & Eq & ->). destruct (Z.ltb_spec (Z.of_nat i) (NReduce args)) as [Hlt|Hge]; intros [= <- <-]; cbn [done_mid].
    + split_and!; try done; [lia|]. rewrite seq_S, foldl_app. done.
    + rewrite TaskDone_map, Er, Eq by done. simpl. unfold createReduceTask. by replace i with (Z.to_nat (NReduce args)) by lia.
Qed.

Lemma mid_step r m0 m p now m' p' :
  replied p = false -> mid r m0 m p -> hstep m p now = Val (m', p') -> mid r m0 m' p'.
Proof. destruct r; [apply ask_mid_step|apply done_mid_step]. Qed.

(** The last access of the collector ends a turn of [CollectTimeOutQueue]. *)
Lemma collect_mid_step m0 m c clock m' c' :
  collect_mid m0 m c -> cstep m c clock = (m', c') ->
  match c with
  | CMapBack _ => c' = CReduce /\ exists clock1 clock2, m' = CollectTimeOutQueue clock1 clock2 m0
  | _ => collect_mid m0 m' c'
  end.
Proof.
  destruct c as [|ret| |ret']; simpl.
  - intros ->. destruct (TimeOutQueue _ _) as [q ret] eqn:E. intros [= <- <-]. simpl. eauto.
  - intros (clk & q & E & ->) [= <- <-]. simpl. eauto.
  - intros (clk & q & ret & E & ->). simpl. destruct (TimeOutQueue clock _) as [q' ret'] eqn:E'. intros [= <- <-].
    simpl. exists clk, q, ret, clock, q'. done.
  - intros (clk & q & ret & clk' & q' & E & E' & ->) [= <- <-]. split; [done|]. exists clk, clk'.
    unfold CollectTimeOutQueue. by rewrite E, E'.
Qed.

(** Nothing on the way through a handler or a turn of the collector says the job is done. *)
Lemma mid_isDone r m0 m p : replied p = false -> mid r m0 m p -> isDone m = isDone m0.
Proof.
  destruct r; destruct p; try done; simpl; intros _; try naive_solver.
  all: intros H; repeat match goal with H : _ /\ _ |- _ => destruct H | H : exists _, _ |- _ => destruct H end; by subst.
Qed.

Lemma collect_mid_isDone m0 m c : collect_mid m0 m c -> isDone m = isDone m0.
Proof. destruct c; simpl; naive_solver. Qed.

(** ** The refinement *)

Definition all_rest (cs : list (request * hpc)) : Prop := forall i c, cs !! i = Some c -> at_rest c.
Definition rest_but (k : nat) (cs : list (request * hpc)) : Prop :=
  forall i c, cs !! i = Some c -> i <> k -> at_rest c.

(** The job's master is [m0]; at most one call, or the collector, is on its way from it. *)
Inductive phase (s : Server) (m0 : Master) : Prop :=
  | in_turn : all_rest (calls s) -> collect_mid m0 (smaster s) (collector s) -> phase s m0
  | in_call k r p :
      collector s = CReduce -> calls s !! k = Some (r, p) -> replied p = false -> mid r m0 (smaster s) p ->
      rest_but k (calls s) -> phase s m0.

Record refines (s : Server) (j : Job) : Prop := {
  rf_phase : phase s (master j);
  rf_handed : forall t, handed s t -> t ∈ given j;
  rf_reports : forall t p, (RDone t, p) ∈ calls s -> t ∈ given j;
  rf_maps : forall f, f ∈ mapsDone j -> exists t, reported s t /\ State t = TaskMap /\ FileIndex t = f;
  rf_reduces : forall p, p ∈ reducesDone j -> exists t, reported s t /\ State t = TaskReduce /\ PartIndex t = p }.

Lemma rest_start c : replied c.2 = false -> at_rest c -> c.2 = start c.1.
Proof. intros Hr [?|?]; congruence. Qed.

(** When the scheduler lets call [k] move, it is the one on its way. *)
Lemma moving s m0 k now r p :
  phase s m0 -> one_at_a_time s (LCall k now) -> calls s !! k = Some (r, p) -> replied p = false ->
  collector s = CReduce /\ mid r m0 (smaster s) p /\ rest_but k (calls s).
Proof.
  intros Hp [Hc Hk] Hl Hr. split_and!; [done| |done]. destruct Hp as [Hall Hm|k' r' p' _ Hl' Hr' Hm Hall].
  - rewrite Hc in Hm. apply Hall, rest_start in Hl; [|done]. simpl in Hl. subst p. by apply mid_start.
  - destruct (decide (k' = k)) as [->|Hne]; [congruence|].
    apply Hk, rest_start in Hl'; [|done|done]. simpl in Hl'. subst p'. apply mid_start in Hm.
    apply Hall, rest_start in Hl; [|done|done]. simpl in Hl. subst p. by apply mid_start.
Qed.

(** When it lets the collector move, no call is on its way. *)
Lemma collecting s m0 clock :
  phase s m0 -> one_at_a_time s (LCollect clock) -> all_rest (calls s) /\ collect_mid m0 (smaster s) (collector s).
Proof.
  intros Hp Hall. split; [exact Hall|]. destruct Hp as [_ Hm|k r p Hc Hl Hr Hm _]; [done|].
  apply Hall in Hl. apply rest_start in Hl; [|done]. simpl in Hl. subst p. rewrite Hc. simpl. by apply mid_start in Hm.
Qed.

Lemma rest_insert k cs r p : rest_but k cs -> replied p = true -> all_rest (<[k := (r, p)]> cs).
Proof.
  intros Hk Hp i c [(<- & <- & _)|[Hne Hl]]%list_lookup_insert_Some; [by right|by apply (Hk i)].
Qed.

Lemma rest_but_insert k cs c : rest_but k cs -> rest_but k (<[k := c]> cs).
Proof. intros Hk i c' [(<- & _)|[_ Hl]]%list_lookup_insert_Some Hne; [done|by apply (Hk i)]. Qed.

(** A call that goes on takes nothing from what has been handed out or reported. *)
Lemma calls_insert (cs : list (request * hpc)) (k : nat) r p p' c :
  cs !! k = Some (r, p) ->
  (c ∈ <[k := (r, p')]> cs -> c ∈ cs \/ c = (r, p')) /\ (replied p = false -> replied c.2 = true -> c ∈ cs -> c ∈ <[k := (r, p')]> cs).
Proof.
  intros Hk. split.
  - intros [i [(<- & <- & _)|[_ Hl]]%list_lookup_insert_Some]%list_elem_of_lookup; [by right|left].
    by eapply list_elem_of_lookup_2.
  - intros Hp Hc [i Hi]%list_elem_of_lookup. apply (list_elem_of_lookup_2 _ i).
    rewrite list_lookup_insert_ne; [done|]. intros ->. rewrite Hk in Hi. injection Hi as <-. simpl in Hc. congruence.
Qed.

(** How a call ends *)
Lemma mid_replied r m0 m p :
  replied p = true -> mid r m0 m p ->
  (r = RAsk /\ exists t now, p = AReply t /\ AskTask m0 now = Val (m, t)) \/
  (exists args, r = RDone args /\ p = DReply /\ TaskDone m0 args = Val m /\ (State args = TaskMap \/ State args = TaskReduce)).
Proof.
  intros Hp. destruct r as [|args]; destruct p as [| | | | | | | | |t| | | | |]; try done; simpl.
  - intros [now Ha]. left. eauto.
  - intros Hd. right. exists args. split_and!; try done. unfold TaskDone in Hd.
    destruct (Z.eqb_spec (State args) TaskMap); [auto|]. destruct (Z.eqb_spec (State args) TaskReduce); [auto|done].
Qed.

Section Step.
Variables (s s' : Server) (j : Job) (k : nat) (r : request) (p p' : hpc) (m' : Master).
Hypotheses (Hs : refines s j) (Hk : calls s !! k = Some (r, p)) (Hp : replied p = false)
  (Hc : collector s = CReduce) (Hrest : rest_but k (calls s)) (Hmid : mid r (master j) m' p')
  (Hs' : s' = mkServer m' (<[k := (r, p')]> (calls s)) (collector s)).

Lemma reported_kept t : reported s t -> reported s' t.
Proof. rewrite Hs'. unfold reported. simpl. by apply (calls_insert _ _ _ _ p' _ Hk). Qed.

Lemma tasks_kept (P : TaskInfo -> Prop) : (exists t, reported s t /\ P t) -> exists t, reported s' t /\ P t.
Proof. intros (t & Ht & ?). exists t. split; [by apply reported_kept|done]. Qed.

Lemma reports_kept t q : (RDone t, q) ∈ calls s' -> t ∈ given j.
Proof.
  rewrite Hs'. simpl. intros [?|[= <- <-]]%(calls_insert _ _ _ _ _ _ Hk); [by eapply (rf_reports _ _ Hs)|].
  by eapply (rf_reports _ _ Hs), list_elem_of_lookup_2.
Qed.

Lemma handed_kept t : handed s' t -> handed s t \/ (r = RAsk /\ p' = AReply t /\ is_work t = true).
Proof.
  rewrite Hs'. intros [[?|[= <- <-]]%(calls_insert _ _ _ _ _ _ Hk) Hw]; [by left|]. by right.
Qed.

(** A call that is not over yet *)
Lemma call_goes_on : replied p' = false -> refines s' j.
Proof.
  intros Hp'. constructor.
  - rewrite Hs'. apply (in_call _ _ k r p'); simpl; try done; [|by apply rest_but_insert].
    apply list_lookup_insert_eq. by eapply lookup_lt_Some.
  - intros t [?|(_ & -> & _)]%handed_kept; [by apply (rf_handed _ _ Hs)|done].
  - apply reports_kept.
  - intros f Hf. by apply tasks_kept, (rf_maps _ _ Hs).
  - intros f Hf. by apply tasks_kept, (rf_reduces _ _ Hs).
Qed.

Lemma over_phase m : replied p' = true -> m = m' -> phase s' m.
Proof. intros Hp' ->. rewrite Hs'. apply in_turn; simpl; [by apply rest_insert|by rewrite Hc]. Qed.

(** A call that is over is a step of the job. *)
Lemma call_returns :
  replied p' = true -> exists e j', jstep j e = Val j' /\ (forall t, e = EReport t -> r = RDone t) /\ refines s' j'.
Proof.
  intros Hp'. destruct (mid_replied _ _ _ _ Hp' Hmid) as [(Er & t & now & Ep & Ha)|(args & Er & Ep & Hd & Hst)].
  - eexists (EAsk now), _. cbn [jstep]. rewrite Ha. split_and!; [reflexivity|done|].
    constructor; simpl.
    + by apply over_phase.
    + intros x [Hx%(rf_handed _ _ Hs)|(_ & Ex & Hw)]%handed_kept; [destruct (is_work t); set_solver|].
      rewrite Ep in Ex. injection Ex as <-. rewrite Hw. set_solver.
    + intros x q Hx%reports_kept. destruct (is_work t); set_solver.
    + intros f Hf. by apply tasks_kept, (rf_maps _ _ Hs).
    + intros f Hf. by apply tasks_kept, (rf_reduces _ _ Hs).
  - assert (reported s' args) as Hrep.
    { rewrite Hs'. apply (list_elem_of_lookup_2 _ k). simpl. rewrite Er, Ep. apply list_lookup_insert_eq. by eapply lookup_lt_Some. }
    destruct Hst as [Hst|Hst]; eexists (EReport args), _; cbn [jstep]; rewrite Hd; cbn [mbind res_bind]; rewrite Hst;
      (split_and!; [reflexivity|by intros ? [= <-]|]); (constructor; simpl; [by apply over_phase| |apply reports_kept|..]).
    + intros x [?|(? & _)]%handed_kept; [by apply (rf_handed _ _ Hs)|congruence].
    + intros f [->%elem_of_singleton|Hf%(rf_maps _ _ Hs)]%elem_of_union; [by exists args|by apply tasks_kept].
    + intros f Hf. by apply tasks_kept, (rf_reduces _ _ Hs).
    + intros x [?|(? & _)]%handed_kept; [by apply (rf_handed _ _ Hs)|congruence].
    + intros f Hf. by apply tasks_kept, (rf_maps _ _ Hs).
    + intros f [->%elem_of_singleton|Hf%(rf_reduces _ _ Hs)]%elem_of_union; [by exists args|by apply tasks_kept].
Qed.
End Step.

Lemma handed_arrive s r t : handed (mkServer (smaster s) (calls s ++ [(r, start r)]) (collector s)) t <-> handed s t.
Proof.
  unfold handed. simpl. split; intros [H ?]; (split; [|done]); [|set_solver].
  apply elem_of_app in H as [?|E%list_elem_of_singleton]; [done|]. injection E as <- E. done.
Qed.

(** A call comes in. *)
Lemma arrive_refines s r j :
  refines s j -> (forall t, r = RDone t -> t ∈ given j) ->
  refines (mkServer (smaster s) (calls s ++ [(r, start r)]) (collector s)) j.
Proof.
  intros Hs Hr. assert (at_rest (r, start r)) as Hrest by by left. constructor; simpl.
  - destruct (rf_phase _ _ Hs) as [Hall Hm|k r' p' Hc Hl Hp Hm Hk].
    + apply in_turn; simpl; [|done]. intros i c [Hi|[_ Hi]]%lookup_app_Some; [by apply (Hall i)|].
      apply list_lookup_singleton_Some in Hi as [_ <-]. done.
    + apply (in_call _ _ k r' p'); simpl; try done; [by apply lookup_app_l_Some|].
      intros i c [Hi|[_ Hi]]%lookup_app_Some Hne; [by apply (Hk i)|].
      apply list_lookup_singleton_Some in Hi as [_ <-]. done.
  - intros t Ht. by apply (rf_handed _ _ Hs), (handed_arrive s r).
  - intros t p [Hin|E%list_elem_of_singleton]%elem_of_app; [by eapply (rf_reports _ _ Hs)|].
    injection E as E _. by apply Hr.
  - intros f (t & Ht & ?)%(rf_maps _ _ Hs). exists t. unfold reported in *. simpl. set_solver.
  - intros f (t & Ht & ?)%(rf_reduces _ _ Hs). exists t. unfold reported in *. simpl. set_solver.
Qed.

(** The collector makes an access: inside its turn, or at its end, which is a step of the job. *)
Lemma collect_refines s clock j m c :
  refines s j -> one_at_a_time s (LCollect clock) -> cstep (smaster s) (collector s) clock = (m, c) ->
  exists j', (j' = j \/ exists clock1 clock2, jstep j (ECollect clock1 clock2) = Val j') /\
    refines (mkServer m (calls s) c) j'.
Proof.
  intros Hs Ho Hc. destruct (collecting _ _ _ (rf_phase _ _ Hs) Ho) as [Hall Hm].
  pose proof (collect_mid_step _ _ _ _ _ _ Hm Hc) as Hstep.
  destruct (collector s) as [|ret| |ret'] eqn:E;
    [exists j; split; [by left|]; destruct Hs; constructor; try done; by apply in_turn ..|].
  destruct Hstep as (-> & clock1 & clock2 & ->). eexists. split; [right; by exists clock1, clock2|].
  destruct Hs; constructor; try done. by apply in_turn.
Qed.

(** One step of a server that is served one at a time is none or one of the job. *)
Lemma step_refines s l s' j :
  refines s j -> one_at_a_time s l -> (forall t, l = LArrive (RDone t) -> t ∈ given j) -> sstep s l = Val s' ->
  refines s' j \/
  exists e j', jstep j e = Val j' /\ refines s' j' /\ (forall t, e = EReport t -> exists p, (RDone t, p) ∈ calls s).
Proof.
  intros Hs Ho Har. destruct l as [r|k now|clock]; simpl.
  - intros [= <-]. left. apply arrive_refines; [done|]. intros t ->. by apply Har.
  - destruct (calls s !! k) as [[r p]|] eqn:Hk; [|intros [= <-]; by left].
    intros ([m' p'] & Hh & [= <-])%bind_val. destruct (replied p) eqn:Hp.
    { left. rewrite hstep_replied in Hh by done. injection Hh as <- <-.
      rewrite list_insert_id by done. by destruct s. }
    destruct (moving _ _ _ _ _ _ (rf_phase _ _ Hs) Ho Hk Hp) as (Hc & Hm & Hrest).
    pose proof (mid_step _ _ _ _ _ _ _ Hp Hm Hh) as Hm'. destruct (replied p') eqn:Hp'.
    + right. destruct (call_returns s _ j k r p p' m' Hs Hk Hp Hc Hrest Hm' eq_refl Hp') as (e & j' & Hj & He & Hs').
      exists e, j'. split_and!; [done|done|]. intros t ->%He. exists p. by eapply list_elem_of_lookup_2.
    + left. by apply (call_goes_on s _ j k r p p' m').
  - destruct (cstep _ _ _) as [m c] eqn:Hc. intros [= <-].
    destruct (collect_refines _ _ _ _ _ Hs Ho Hc) as (j' & [->|(clock1 & clock2 & Hj)] & Hs'); [by left|right].
    by exists (ECollect clock1 clock2), j'.
Qed.

Lemma start_refines files nReduce now : refines (newServer files nReduce now) (startJob files nReduce now).
Proof.
  constructor; simpl; try (intros; unfold handed in *; set_solver). by apply in_turn.
Qed.

(** A server that is served one at a time refines a job of MrJob.v. *)
Lemma served_job files nReduce s :
  served one_at_a_time files nReduce s -> exists j, job files nReduce j /\ refines s j.
Proof.
  induction 1 as [now|s l s' Hs (j & Hj & Href) Har Ho Hstep].
  { exists (startJob files nReduce now). split; [apply job_start|apply start_refines]. }
  destruct (step_refines s l s' j) as [?|(e & j' & Hj' & Href' & He)]; try done; [|by exists j|].
  - intros t ->. by apply (rf_handed _ _ Href).
  - exists j'. split; [|done]. apply (job_step _ _ j e); [done| |done].
    destruct e as [|t|]; simpl; try done. destruct (He t eq_refl) as [p Hp]. by eapply (rf_reports _ _ Href).
Qed.

(** A server that says it is done refines a job that is. *)
Lemma refines_done s j : refines s j -> Done (smaster s) = true -> Done (master j) = true.
Proof.
  intros Hs. unfold Done. destruct (rf_phase _ _ Hs) as [_ Hm|k r p _ _ Hp Hm _].
  - by rewrite (collect_mid_isDone _ _ _ Hm).
  - by rewrite (mid_isDone _ _ _ _ Hp Hm).
Qed.

(** C13: When the master says the job is done, workers have reported every map task, and every reduce task if there
    was an input file, however often tasks timed out, were given out again or were reported late or
    repeatedly.  The master's calls and its collector run access by access; the condition, which the locks of
    master.go do not enforce and without which [ask_races] refutes the claim, is that no call of [AskTask] or
    [TaskDone] and no turn of the collector makes an access between two accesses of another ([one_at_a_time]). *)
Theorem done_means_all_done files nReduce s :
  served one_at_a_time files nReduce s -> Done (smaster s) = true ->
  (forall f, 0 <= f < len files -> exists t, reported s t /\ State t = TaskMap /\ FileIndex t = f) /\
  (files <> [] -> forall p, 0 <= p < nReduce -> exists t, reported s t /\ State t = TaskReduce /\ PartIndex t = p).
Proof.
  intros (j & Hj & Hs)%served_job Hd.
  destruct (jo_done _ _ _ (job_job_ok _ _ _ Hj) (refines_done _ _ Hs Hd)) as [Hm Hr]. split.
  - intros f Hf. by apply (rf_maps _ _ Hs), Hm.
  - intros Hne p Hp. by apply (rf_reduces _ _ Hs), Hr.
Qed.

End MrServe.
