(* ===== verification/MrWorker.v ===== *)
(** * The MapReduce worker (mr/worker.go) and the sequential reference (main/mrsequential.go)

    [workerMap] and [workerReduce] as functions on a file system (names to contents): a temporary file
    that is renamed into place is a single update.  The worker's protocol with the master is in
    MrAlone.v.

    JSON and the sorting of [sort.Sort], whose order among equal keys is not specified, are interfaces:
    [Json] with [JsonLaws], [SortByKey] with [SortLaws]. *)

From stdpp Require Import base list gmap strings pretty sorting.
From Stdlib Require Import ZArith Lia Ascii.
From S2P Require Import Prelude MrMaster.
Import MrMaster.

Open Scope Z_scope.

Module MrWorker.

Record KeyValue := mkKeyValue {
  Key : string;
  Value : string }.

#[export] Instance KeyValue_eq_dec : EqDecision KeyValue.
Proof. solve_decision. Defined.

(** [ByKey.Less]: Go compares strings byte by byte. *)
Definition Less (a b : KeyValue) : bool := String.ltb (Key a) (Key b).

(** hash/fnv, [New32a]: FNV-1a with 32 bits *)
Fixpoint fnv32a (h : Z) (s : string) : Z :=
  match s with
  | EmptyString => h
  | String c s' => fnv32a (Z.lxor h (Z.of_N (N_of_ascii c)) * 16777619 mod 2 ^ 32) s'
  end.

Definition ihash (key : string) : Z := Z.land (fnv32a 2166136261 key) 2147483647.

(** strconv.Itoa *)
Definition Itoa (z : Z) : string := pretty z.

Definition newline : string := String (ascii_of_N 10) "".

(** encoding/json on [KeyValue]: what an encoder appends to its file, and what a decoder takes off the
    front of its file ([None]: an error, the end of the file among them). *)
Class Json := {
  json_encode : KeyValue -> option string;
  json_decode : string -> option (KeyValue * string);
  json_text : KeyValue -> Prop  (* the pairs JSON can represent: valid UTF-8 *) }.

Class JsonLaws `{Json} : Prop := {
  json_encodes : forall kv, json_text kv -> exists s, json_encode kv = Some s;
  json_round : forall kv s rest, json_text kv -> json_encode kv = Some s ->
    json_decode (s +:+ rest) = Some (kv, rest);
  json_end : json_decode "" = None;
  json_shorter : forall s kv rest, json_decode s = Some (kv, rest) -> (String.length rest < String.length s)%nat }.

(** sort.Sort(ByKey(...)) *)
Class SortByKey := sort_ByKey : list KeyValue -> list KeyValue.

Class SortLaws `{SortByKey} : Prop := {
  sort_perm : forall l, sort_ByKey l ≡ₚ l;
  sort_sorted : forall l, StronglySorted (fun a b => Less b a = false) (sort_ByKey l) }.

Notation fs := (gmap string string).

Section Worker.
Context `{Json} `{SortByKey}.
Variables (mapf : string -> string -> list KeyValue) (reducef : string -> list string -> string).

(** "mr-X-Y": what map task X has for reduce task Y *)
Definition interName (x y : Z) : string := "mr-" +:+ (Itoa x +:+ ("-" +:+ Itoa y)).
Definition outName (y : Z) : string := "mr-out-" +:+ Itoa y.

Definition readFile (f : fs) (name : string) : res string := of_option (EFatal "cannot open") (f !! name).

(** The loop of [workerMap] over the pairs: each is encoded into the file of its partition. *)
Fixpoint encode_loop (nReduce : Z) (kvs : list KeyValue) (out : list string) : res (list string) :=
  match kvs with
  | [] => mret out
  | kv :: kvs' =>
      if nReduce =? 0 then Err (EPanic "integer divide by zero")
      else
        let outindex := Z.rem (ihash (Key kv)) nReduce in
        old ← go_index out outindex;
        s ← of_option (EPanic "Json encode failed") (json_encode kv);
        out' ← go_update out outindex (old +:+ s);
        encode_loop nReduce kvs' out'
  end.

(** The renaming of the files, from index [k] on *)
Fixpoint rename_loop (x : Z) (k : nat) (out : list string) (f : fs) : fs :=
  match out with
  | [] => f
  | c :: out' => rename_loop x (S k) out' (<[interName x (Z.of_nat k) := c]> f)
  end.

Definition workerMap (t : TaskInfo) (f : fs) : res fs :=
  content ← readFile f (FileName t);
  let intermediate := mapf (FileName t) content in
  if NReduce t <? 0 then Err (EPanic "makeslice: len out of range")
  else
    out ← encode_loop (NReduce t) intermediate (replicate (Z.to_nat (NReduce t)) "");
    mret (rename_loop (FileIndex t) 0 out f).

(** [for { ... dec.Decode(&kv) ... }] *)
Fixpoint decode_loop (fuel : nat) (s : string) : list KeyValue :=
  match fuel with
  | O => []
  | S fuel' =>
      match json_decode s with
      | None => []
      | Some (kv, rest) => kv :: decode_loop fuel' rest
      end
  end.

(** The files of partition [y] from map task [i] on *)
Fixpoint read_loop (f : fs) (y : Z) (i : nat) (k : nat) : res (list KeyValue) :=
  match k with
  | O => mret []
  | S k' =>
      s ← readFile f (interName (Z.of_nat i) y);
      rest ← read_loop f y (S i) k';
      mret (decode_loop (S (String.length s)) s ++ rest)
  end.

(** The inner loop: the first index from [j] on whose key differs *)
Fixpoint scan_key (fuel : nat) (l : list KeyValue) (key : string) (j : nat) : nat :=
  match fuel with
  | O => j
  | S fuel' =>
      match l !! j with
      | Some kv => if String.eqb (Key kv) key then scan_key fuel' l key (S j) else j
      | None => j
      end
  end.

(** fmt.Fprintf(ofile, "%v %v\n", key, output) *)
Definition out_line (key output : string) : string := key +:+ " " +:+ output +:+ newline.

(** The loop over the distinct keys, from index [i] on *)
Fixpoint reduce_loop (fuel : nat) (l : list KeyValue) (i : nat) : list string :=
  match fuel with
  | O => []
  | S fuel' =>
      match l !! i with
      | None => []
      | Some kv =>
          let j := scan_key (length l) l (Key kv) (S i) in
          let values := Value <$> take (j - i) (drop i l) in
          out_line (Key kv) (reducef (Key kv) values) :: reduce_loop fuel' l j
      end
  end.

Definition reduce_lines (intermediate : list KeyValue) : list string :=
  let l := sort_ByKey intermediate in reduce_loop (length l) l 0.

Definition concat_lines (ls : list string) : string := foldr String.append "" ls.

Definition workerReduce (t : TaskInfo) (f : fs) : res fs :=
  intermediate ← read_loop f (PartIndex t) 0 (Z.to_nat (NFiles t));
  mret (<[outName (PartIndex t) := concat_lines (reduce_lines intermediate)]> f).

(** ** main/mrsequential.go *)

Fixpoint map_files (f : fs) (files : list string) : res (list KeyValue) :=
  match files with
  | [] => mret []
  | name :: files' =>
      content ← readFile f name;
      rest ← map_files f files';
      mret (mapf name content ++ rest)
  end.

Definition mrsequential (files : list string) (f : fs) : res fs :=
  intermediate ← map_files f files;
  mret (<["mr-out-0" := concat_lines (reduce_lines intermediate)]> f).

End Worker.

(** ** Strings *)

#[local] Arguments String.append : simpl nomatch.

Lemma append_assoc (a b c : string) : (a +:+ b) +:+ c = a +:+ (b +:+ c).
Proof. induction a as [|x a IH]; simpl; [done|]. by rewrite IH. Qed.

Lemma append_nil (a : string) : a +:+ "" = a.
Proof. induction a as [|x a IH]; simpl; [done|]. by rewrite IH. Qed.

Lemma concat_lines_app l k : concat_lines (l ++ k) = concat_lines l +:+ concat_lines k.
Proof. unfold concat_lines. induction l as [|x l IH]; simpl; [done|]. by rewrite IH, append_assoc. Qed.

Lemma append_inv_head (a b c : string) : a +:+ b = a +:+ c -> b = c.
Proof. induction a as [|x a IH]; simpl; [done|]. intros [= E]. auto. Qed.

(** Of two different strings one is less. *)
Lemma ltb_total (a b : string) : String.ltb a b = false -> String.ltb b a = false -> a = b.
Proof.
  unfold String.ltb. rewrite (String.compare_antisym b a).
  destruct (String.compare a b) eqn:E; simpl; try done.
  intros _ _. by apply String.compare_eq_iff in E.
Qed.

Fixpoint no_dash (s : string) : Prop :=
  match s with EmptyString => True | String c s' => c <> "-"%char /\ no_dash s' end.

Lemma pretty_N_go_no_dash x s : no_dash s -> no_dash (pretty_N_go x s).
Proof.
  revert s. induction (N.lt_wf_0 x) as [x _ IH]; intros s Hs.
  destruct (decide (x = 0%N)) as [->|Hne]; [done|].
  rewrite pretty_N_go_step by lia. apply IH; [apply N.div_lt; lia|]. simpl. split; [|done].
  unfold pretty_N_char. by repeat case_match.
Qed.

Lemma Itoa_no_dash z : 0 <= z -> no_dash (Itoa z).
Proof.
  intros Hz. unfold Itoa, pretty, pretty_Z. destruct z as [|p|p]; simpl; [done| |lia].
  unfold pretty, pretty_positive, pretty, pretty_N. case_decide; [done|]. by apply pretty_N_go_no_dash.
Qed.

Lemma Itoa_inj x y : Itoa x = Itoa y -> x = y.
Proof. apply pretty_Z_inj. Qed.

(** A dash ends the first number. *)
Lemma dash_split a b c d :
  no_dash a -> no_dash c -> a +:+ String "-" b = c +:+ String "-" d -> a = c /\ b = d.
Proof.
  revert c. induction a as [|x a IH]; intros [|y c]; simpl.
  - intros _ _ [= ->]. done.
  - intros _ [Hy _] [= <- _]. done.
  - intros [Hx _] _ [= -> _]. done.
  - intros [_ Ha] [_ Hc] [= -> E]. destruct (IH c Ha Hc E) as [-> ->]. done.
Qed.

Lemma interName_inj x y x' y' :
  0 <= x -> 0 <= x' -> interName x y = interName x' y' -> x = x' /\ y = y'.
Proof.
  unfold interName. intros Hx Hx' E%append_inv_head.
  apply dash_split in E as [E1 E2]; [|by apply Itoa_no_dash..].
  split; by apply Itoa_inj.
Qed.

Lemma outName_inj y y' : outName y = outName y' -> y = y'.
Proof. intros E%append_inv_head. by apply Itoa_inj. Qed.

Lemma Itoa_head z c s : Itoa z = String c s -> c <> "o"%char.
Proof.
  assert (forall x t, (forall c' s', t = String c' s' -> c' <> "o"%char) ->
            forall c' s', pretty_N_go x t = String c' s' -> c' <> "o"%char) as Hgo.
  { intros x. induction (N.lt_wf_0 x) as [x _ IH]; intros t Ht.
    destruct (decide (x = 0%N)) as [->|Hne]; [done|].
    rewrite pretty_N_go_step by lia. apply IH; [apply N.div_lt; lia|].
    intros c' s' [= <- _]. unfold pretty_N_char. by repeat case_match. }
  unfold Itoa, pretty, pretty_Z. destruct z as [|p|p]; simpl.
  - by intros [= <- _].
  - unfold pretty, pretty_positive, pretty, pretty_N. case_decide; [by intros [= <- _]|]. by apply Hgo.
  - by intros [= <- _].
Qed.

Lemma inter_not_out x y z : interName x y <> outName z.
Proof.
  unfold interName, outName. change ("mr-out-" +:+ Itoa z) with ("mr-" +:+ ("out-" +:+ Itoa z)).
  intros E%append_inv_head. destruct (Itoa x) as [|c s] eqn:Hx; simpl in E; [done|].
  injection E as Ec _. by apply Itoa_head in Hx.
Qed.

End MrWorker.
