(* ===== verification/MrReduce.v ===== *)
(** * Grouping by key

    What the loop over sorted pairs in [workerReduce] and in mrsequential computes: one line per distinct
    key, with the reduction of all the values of that key.  For a reduction that does not depend on the
    order of its values, the lines depend only on the collection of pairs, and splitting the pairs by
    the partition of their key splits the lines. *)

From stdpp Require Import base list gmap strings pretty sorting.
From Stdlib Require Import ZArith Lia.
From S2P Require Import Prelude MrWorker.
Import MrWorker.

Open Scope Z_scope.

Module MrReduce.

Section Groups.
Variable (reducef : string -> list string -> string).

Definition has_key (k : string) (kv : KeyValue) : Prop := Key kv = k.

#[export] Instance has_key_dec k kv : Decision (has_key k kv).
Proof. unfold has_key. apply _. Defined.

(** The values of a key, in order *)
Definition values_of (k : string) (l : list KeyValue) : list string := Value <$> filter (has_key k) l.

Definition line_of (l : list KeyValue) (k : string) : string := out_line k (reducef k (values_of k l)).

Definition keys (l : list KeyValue) : gset string := list_to_set (Key <$> l).

Lemma elem_of_keys k l : k ∈ keys l <-> exists kv, kv ∈ l /\ Key kv = k.
Proof. unfold keys. rewrite elem_of_list_to_set, list_elem_of_fmap. naive_solver. Qed.

(** ** The loops on indices are loops on suffixes *)

(** The longest prefix with key [k], and the rest *)
Fixpoint span_key (k : string) (l : list KeyValue) : list KeyValue * list KeyValue :=
  match l with
  | [] => ([], [])
  | kv :: l' =>
      if String.eqb (Key kv) k then let '(a, b) := span_key k l' in (kv :: a, b) else ([], l)
  end.

Lemma span_key_app k l : fst (span_key k l) ++ snd (span_key k l) = l.
Proof.
  induction l as [|kv l IH]; simpl; [done|]. destruct (String.eqb (Key kv) k); [|done].
  destruct (span_key k l) as [a b]. simpl in *. by rewrite IH.
Qed.

Lemma scan_key_span fuel l k j :
  (length l - j <= fuel)%nat -> scan_key fuel l k j = (j + length (fst (span_key k (drop j l))))%nat.
Proof.
  revert j. induction fuel as [|fuel IH]; intros j Hf; simpl.
  - rewrite drop_ge by lia. simpl. lia.
  - destruct (l !! j) as [kv|] eqn:Hj.
    + rewrite (drop_S _ _ _ Hj). simpl. destruct (String.eqb (Key kv) k); simpl; [|lia].
      rewrite IH by (apply lookup_lt_Some in Hj; lia). destruct (span_key k (drop (S j) l)). simpl. lia.
    + rewrite drop_ge by (by apply lookup_ge_None). simpl. lia.
Qed.

Fixpoint groups (fuel : nat) (l : list KeyValue) : list string :=
  match fuel, l with
  | S fuel', kv :: l' =>
      let '(a, b) := span_key (Key kv) l' in
      out_line (Key kv) (reducef (Key kv) (Value <$> kv :: a)) :: groups fuel' b
  | _, _ => []
  end.

Lemma reduce_loop_groups fuel l i : reduce_loop reducef fuel l i = groups fuel (drop i l).
Proof.
  revert i. induction fuel as [|fuel IH]; intros i; simpl; [by destruct (drop i l)|].
  destruct (l !! i) as [kv|] eqn:Hi.
  - rewrite (drop_S _ _ _ Hi). rewrite scan_key_span by lia.
    pose proof (span_key_app (Key kv) (drop (S i) l)) as Happ.
    assert (drop (S i + length (fst (span_key (Key kv) (drop (S i) l)))) l =
            snd (span_key (Key kv) (drop (S i) l))) as Hd.
    { rewrite <- drop_drop. rewrite <- Happ at 2. by rewrite drop_app_length. }
    rewrite IH, Hd.
    destruct (span_key (Key kv) (drop (S i) l)) as [a b]. cbn [fst snd groups] in *.
    replace (S i + length a - i)%nat with (S (length a)) by lia. rewrite <- Happ.
    cbn [take]. by rewrite take_app_length.
  - rewrite drop_ge by (by apply lookup_ge_None). done.
Qed.

(** ** Groups of a sorted list *)

Notation sorted := (StronglySorted (fun a b => Less b a = false)).

(** In a sorted list the pairs of the first key come first. *)
Lemma span_sorted kv l :
  sorted (kv :: l) ->
  span_key (Key kv) l = (filter (has_key (Key kv)) l, filter (fun x => ~ has_key (Key kv) x) l) /\
  sorted (filter (fun x => ~ has_key (Key kv) x) l).
Proof.
  induction l as [|x l IH]; intros Hs; simpl; [split; [done|constructor]|].
  inversion Hs as [|? ? Hs' Hall]; subst. apply Forall_cons in Hall as [Hx Hall].
  inversion Hs' as [|? ? Hs'' Hxl]; subst.
  destruct (String.eqb_spec (Key x) (Key kv)) as [E|Hne].
  - destruct IH as [IH1 IH2]; [by constructor|]. rewrite IH1.
    rewrite (filter_cons_True (has_key (Key kv))) by done.
    rewrite (filter_cons_False (fun x => ~ has_key (Key kv) x)) by (intros Hn; by apply Hn). done.
  - rewrite (filter_cons_False (has_key (Key kv))) by done.
    rewrite (filter_cons_True (fun x => ~ has_key (Key kv) x)) by done.
    assert (forall y, y ∈ l -> ~ has_key (Key kv) y) as Hno.
    { intros y Hy E. apply Hne. unfold has_key in E. eapply Forall_forall in Hxl; [|done]. simpl in Hxl.
      unfold Less in *. rewrite E in Hxl. symmetry. by apply ltb_total. }
    rewrite (filter_none (has_key (Key kv)) l) by done.
    rewrite (filter_all (fun x => ~ has_key (Key kv) x) l) by done. done.
Qed.

Lemma keys_cons kv l : keys (kv :: l) = {[ Key kv ]} ∪ keys (filter (fun x => ~ has_key (Key kv) x) l).
Proof.
  apply set_eq. intros k. rewrite elem_of_union, elem_of_singleton, !elem_of_keys.
  setoid_rewrite list_elem_of_filter. unfold has_key. setoid_rewrite elem_of_cons. split.
  - intros (x & [->|Hx] & <-); [by left|]. destruct (decide (Key x = Key kv)); [by left|right; eauto].
  - intros [->|(x & [? ?] & <-)]; eauto.
Qed.

Lemma groups_sorted fuel l :
  sorted l -> (length l <= fuel)%nat -> groups fuel l ≡ₚ line_of l <$> elements (keys l).
Proof.
  revert l. induction fuel as [|fuel IH]; intros l Hs Hf.
  { destruct l; [done|simpl in Hf; lia]. }
  destruct l as [|kv l]; [done|]. simpl.
  destruct (span_sorted kv l Hs) as [-> Hs']. set (r := filter (fun x => ~ has_key (Key kv) x) l) in *.
  assert (Key kv ∉ keys r) as Hnot.
  { rewrite elem_of_keys. intros (x & [Hx _]%list_elem_of_filter & E). by apply Hx. }
  rewrite keys_cons. fold r. rewrite elements_union_singleton by done. simpl.
  assert (forall k, k ∈ keys r -> values_of k (kv :: l) = values_of k r) as Hvals.
  { intros k Hk. unfold values_of, r. f_equal. rewrite filter_cons_False by (intros E; unfold has_key in E; congruence).
    rewrite list_filter_filter. apply list_filter_iff. intros x. unfold has_key. split; [|tauto].
    intros <-. split; [done|]. intros E. rewrite E in Hk. done. }
  assert (line_of (kv :: l) (Key kv) =
          out_line (Key kv) (reducef (Key kv) (Value kv :: (Value <$> filter (has_key (Key kv)) l)))) as ->.
  { unfold line_of, values_of. by rewrite filter_cons_True. }
  apply perm_skip.
  rewrite IH by (try done; unfold r; pose proof (length_filter (fun x => ~ has_key (Key kv) x) l); simpl in Hf; lia).
  assert (line_of r <$> elements (keys r) = line_of (kv :: l) <$> elements (keys r)) as ->; [|done].
  apply list_fmap_ext. intros i k Hk%list_elem_of_lookup_2%elem_of_elements. unfold line_of. by rewrite Hvals.
Qed.

(** ** Reductions that do not depend on the order of the values *)

Definition order_insensitive : Prop :=
  forall k vs vs', vs ≡ₚ vs' -> reducef k vs = reducef k vs'.

Lemma line_of_perm l l' k : order_insensitive -> l ≡ₚ l' -> line_of l k = line_of l' k.
Proof.
  intros Ho Hl. unfold line_of, values_of. f_equal. apply Ho. by rewrite Hl.
Qed.

Lemma keys_perm l l' : l ≡ₚ l' -> keys l = keys l'.
Proof. intros Hl. apply set_eq. intros k. rewrite !elem_of_keys. by setoid_rewrite Hl. Qed.

(** One line per distinct key, with all its values *)
Lemma reduce_lines_spec `{SortByKey, !SortLaws} l :
  order_insensitive -> reduce_lines reducef l ≡ₚ line_of l <$> elements (keys l).
Proof.
  intros Ho. unfold reduce_lines. rewrite reduce_loop_groups, drop_0.
  rewrite groups_sorted by (try done; apply sort_sorted).
  rewrite (keys_perm _ l) by apply sort_perm.
  assert (line_of (sort_ByKey l) <$> elements (keys l) = line_of l <$> elements (keys l)) as ->; [|done].
  apply list_fmap_ext. intros i k _. apply line_of_perm; [done|apply sort_perm].
Qed.

Lemma eq_perm {A} (l k : list A) : l = k -> l ≡ₚ k.
Proof. by intros ->. Qed.

(** A list splits by the value of a function on its elements. *)
Lemma split_by {A} (h : A -> nat) (xs : list A) n :
  filter (fun x => (h x < n)%nat) xs ≡ₚ concat ((fun p => filter (fun x => h x = p) xs) <$> seq 0 n).
Proof.
  induction n as [|n IH].
  - by rewrite filter_none by (intros; lia).
  - rewrite <- Nat.add_1_r, seq_app, fmap_app, concat_app, <- IH. simpl. rewrite app_nil_r.
    clear IH. induction xs as [|x xs IH]; [done|].
    rewrite !filter_cons. repeat case_decide; try lia; simpl; rewrite ?IH; try done. solve_Permutation.
Qed.

(** The partition of a key *)
Definition part (n : Z) (k : string) : Z := Z.rem (ihash k) n.

Definition in_part (n p : Z) (kv : KeyValue) : Prop := part n (Key kv) = p.

#[export] Instance in_part_dec n p kv : Decision (in_part n p kv).
Proof. unfold in_part. apply _. Defined.

Lemma part_range n k : 0 < n -> 0 <= part n k < n.
Proof.
  intros Hn. unfold part, ihash. apply Z.rem_bound_pos; [|done]. apply Z.land_nonneg. by right.
Qed.

Lemma values_part n p k l : part n k = p -> values_of k (filter (in_part n p) l) = values_of k l.
Proof.
  intros Hp. unfold values_of. f_equal. rewrite list_filter_filter. apply list_filter_iff.
  intros x. unfold has_key, in_part. split; [tauto|]. intros <-. done.
Qed.

Lemma keys_part n p l :
  elements (keys (filter (in_part n p) l)) ≡ₚ filter (fun k => part n k = p) (elements (keys l)).
Proof.
  apply NoDup_Permutation; [apply NoDup_elements|apply NoDup_filter, NoDup_elements|].
  intros k. rewrite list_elem_of_filter, !elem_of_elements, !elem_of_keys.
  setoid_rewrite list_elem_of_filter. unfold in_part. naive_solver.
Qed.

(** The lines of the partitions, together, are the lines of the whole. *)
Lemma reduce_lines_parts `{SortByKey, !SortLaws} n l :
  order_insensitive -> 0 < n ->
  concat ((fun p => reduce_lines reducef (filter (in_part n (Z.of_nat p)) l)) <$> seq 0 (Z.to_nat n)) ≡ₚ
  reduce_lines reducef l.
Proof.
  intros Ho Hn. rewrite reduce_lines_spec by done.
  assert (elements (keys l) ≡ₚ
          concat ((fun p => filter (fun k => part n k = Z.of_nat p) (elements (keys l))) <$> seq 0 (Z.to_nat n)))
    as Hks.
  { rewrite <- (filter_all (fun k => (Z.to_nat (part n k) < Z.to_nat n)%nat) (elements (keys l))) at 1
      by (intros k _; pose proof (part_range n k Hn); lia).
    rewrite (split_by (fun k => Z.to_nat (part n k))). f_equiv. apply eq_perm.
    apply list_fmap_ext. intros i p _. apply list_filter_iff. intros k.
    pose proof (part_range n k Hn). lia. }
  rewrite Hks at 1. clear Hks.
  generalize (seq 0 (Z.to_nat n)) as ps. intros ps. induction ps as [|p ps IH]; simpl; [done|].
  rewrite fmap_app, IH. apply Permutation_app; [|done]. rewrite reduce_lines_spec by done. rewrite keys_part.
  apply eq_perm. apply list_fmap_ext. intros i k [Hk _]%list_elem_of_lookup_2%list_elem_of_filter.
  unfold line_of. by rewrite values_part.
Qed.

End Groups.
End MrReduce.
