(* ===== verification/MrFiles.v ===== *)
(** * The files of map and reduce tasks

    What [workerMap] writes and [workerReduce] reads: the file of map task X for partition Y holds the
    encoding of exactly the pairs of X whose key belongs to Y, and reading it gives them back. *)

From stdpp Require Import base list gmap strings pretty sorting.
From Stdlib Require Import ZArith Lia.
From S2P Require Import Prelude MrMaster MrWorker MrReduce.
Import MrMaster MrWorker MrReduce.

Open Scope Z_scope.

Module MrFiles.

Section Files.
Context `{Json, !JsonLaws} `{SortByKey, !SortLaws}.
Variables (mapf : string -> string -> list KeyValue) (reducef : string -> list string -> string).

(** The encodings of the pairs, one after the other *)
Definition json_all (kvs : list KeyValue) : string :=
  concat_lines ((fun kv => default EmptyString (json_encode kv)) <$> kvs).

Lemma json_all_snoc kvs kv s :
  json_encode kv = Some s -> json_all (kvs ++ [kv]) = json_all kvs +:+ s.
Proof.
  intros Hs. unfold json_all. rewrite fmap_app, concat_lines_app. f_equal.
  unfold concat_lines. simpl. rewrite Hs. apply append_nil.
Qed.

(** Decoding an encoded file gives the pairs back. *)
Lemma decode_loop_spec kvs fuel :
  Forall json_text kvs -> (String.length (json_all kvs) < fuel)%nat -> decode_loop fuel (json_all kvs) = kvs.
Proof.
  intros Hk. revert fuel. induction Hk as [|kv kvs Hkv Hk IH]; intros [|fuel] Hf; try lia; simpl.
  - by rewrite json_end.
  - destruct (json_encodes kv Hkv) as [s Hs].
    assert (json_all (kv :: kvs) = s +:+ json_all kvs) as E
      by (unfold json_all, concat_lines; simpl; by rewrite Hs).
    pose proof (json_round kv s (json_all kvs) Hkv Hs) as Hr. rewrite <- E in Hr. rewrite Hr.
    f_equal. apply IH. apply json_shorter in Hr. lia.
Qed.

(** ** [workerMap] *)

Lemma encode_loop_spec n kvs done out :
  0 < n -> Forall json_text kvs -> length out = Z.to_nat n ->
  (forall p s, out !! p = Some s -> s = json_all (filter (in_part n (Z.of_nat p)) done)) ->
  exists out', encode_loop n kvs out = Val out' /\ length out' = Z.to_nat n /\
    forall p s, out' !! p = Some s -> s = json_all (filter (in_part n (Z.of_nat p)) (done ++ kvs)).
Proof.
  intros Hn Hk. revert done out. induction Hk as [|kv kvs Hkv Hk IH]; intros done out Hlen Hout; simpl.
  { exists out. split_and!; try done. by rewrite app_nil_r. }
  rewrite (proj2 (Z.eqb_neq n 0)) by lia. fold (part n (Key kv)). pose proof (part_range n (Key kv) Hn) as Hp.
  destruct (go_index_in_range out (part n (Key kv))) as [old Hold]; [unfold len; lia|]. rewrite Hold. simpl.
  destruct (json_encodes kv Hkv) as [s Hs]. rewrite Hs. simpl.
  assert (go_update out (part n (Key kv)) (old +:+ s) = Val (<[Z.to_nat (part n (Key kv)) := old +:+ s]> out)) as ->
    by (apply go_update_val; split; [unfold len; lia|done]).
  simpl. rewrite cons_middle, app_assoc. apply IH; [by rewrite length_insert|].
  intros p x [(<- & <- & Hlt)|[Hne Hx]]%list_lookup_insert_Some; rewrite filter_app.
  - apply go_index_val in Hold as [_ Hold]. apply Hout in Hold. rewrite Z2Nat.id in * by lia.
    rewrite filter_cons_True, filter_nil by done. rewrite (json_all_snoc _ _ s Hs). by rewrite Hold.
  - rewrite filter_cons_False, filter_nil, app_nil_r; [by apply Hout|].
    intros E. unfold in_part in E. apply Hne. lia.
Qed.

Lemma rename_loop_spec x k out f :
  0 <= x ->
  (forall p s, out !! p = Some s -> rename_loop x k out f !! interName x (Z.of_nat (k + p)) = Some s) /\
  (forall name, (forall p, (p < length out)%nat -> name <> interName x (Z.of_nat (k + p))) ->
     rename_loop x k out f !! name = f !! name).
Proof.
  intros Hx. revert k f. induction out as [|c out IH]; intros k f; simpl; [done|].
  destruct (IH (S k) (<[interName x (Z.of_nat k) := c]> f)) as [IH1 IH2]. split.
  - intros [|p] s; simpl.
    + intros [= <-]. rewrite Nat.add_0_r. rewrite IH2, lookup_insert_eq; [done|].
      intros p _ E. apply interName_inj in E as [_ E]; [lia|done|done].
    + intros Hs. rewrite <- (IH1 p s Hs). f_equal. f_equal. lia.
  - intros name Hname. rewrite IH2.
    + rewrite lookup_insert_ne; [done|]. intros E. apply (Hname 0%nat); [lia|]. by rewrite Nat.add_0_r.
    + intros p Hp E. apply (Hname (S p)); [lia|]. rewrite E. f_equal. lia.
Qed.

(** The files of map task [x] on the pairs [kvs] *)
Definition mapped (n x : Z) (kvs : list KeyValue) (f : fs) : Prop :=
  forall p, 0 <= p < n -> f !! interName x p = Some (json_all (filter (in_part n p) kvs)).

Lemma workerMap_spec t f content :
  f !! FileName t = Some content -> 0 < NReduce t -> 0 <= FileIndex t ->
  Forall json_text (mapf (FileName t) content) ->
  exists f', workerMap mapf t f = Val f' /\
    mapped (NReduce t) (FileIndex t) (mapf (FileName t) content) f' /\
    forall name, (forall p, name <> interName (FileIndex t) p) -> f' !! name = f !! name.
Proof.
  intros Hf Hn Hx Ht. unfold workerMap, readFile. rewrite Hf. simpl.
  rewrite (proj2 (Z.ltb_ge (NReduce t) 0)) by lia.
  destruct (encode_loop_spec (NReduce t) (mapf (FileName t) content) []
              (replicate (Z.to_nat (NReduce t)) EmptyString)) as (out & -> & Hlen & Hout); [done|done|..].
  { by rewrite length_replicate. }
  { by intros p s [-> _]%lookup_replicate. }
  simpl. eexists. split; [done|]. destruct (rename_loop_spec (FileIndex t) 0 out f Hx) as [Hin Hother]. split.
  - intros p Hp. destruct (lookup_lt_is_Some_2 out (Z.to_nat p)) as [s Hs]; [lia|].
    pose proof (Hin _ _ Hs) as E. simpl in E. rewrite Z2Nat.id in E by lia. rewrite E. f_equal.
    rewrite (Hout _ _ Hs). by rewrite Z2Nat.id by lia.
  - intros name Hname. apply Hother. intros p _. apply Hname.
Qed.

(** ** [workerReduce] *)

Lemma read_loop_spec f p i k kvss :
  length kvss = k ->
  (forall m kvs, kvss !! m = Some kvs -> Forall json_text kvs /\
     f !! interName (Z.of_nat (i + m)) p = Some (json_all kvs)) ->
  read_loop f p i k = Val (concat kvss).
Proof.
  revert i k. induction kvss as [|kvs kvss IH]; intros i k Hlen Hf; simpl in Hlen; subst k; simpl; [done|].
  destruct (Hf 0%nat kvs eq_refl) as [Ht Hfile]. rewrite Nat.add_0_r in Hfile. unfold readFile.
  rewrite Hfile. simpl. rewrite (IH (S i)); [|done|].
  - simpl. f_equal. f_equal. apply (decode_loop_spec kvs (S (String.length (json_all kvs)))); [done|lia].
  - intros m x Hm. destruct (Hf (S m) x Hm) as [? E]. split; [done|]. rewrite <- E. f_equal. f_equal. lia.
Qed.

(** The pairs of all map tasks, each with its own *)
Definition part_lines (n p : Z) (kvss : list (list KeyValue)) : list string :=
  reduce_lines reducef (filter (in_part n p) (concat kvss)).

Lemma filter_concat n p kvss :
  concat (filter (in_part n p) <$> kvss) = filter (in_part n p) (concat kvss).
Proof. induction kvss as [|kvs kvss IH]; simpl; [done|]. by rewrite filter_app, <- IH. Qed.

Lemma workerReduce_spec t f n kvss :
  0 <= PartIndex t < n -> NFiles t = len kvss -> Forall (Forall json_text) kvss ->
  (forall m kvs, kvss !! m = Some kvs -> mapped n (Z.of_nat m) kvs f) ->
  workerReduce reducef t f = Val (<[outName (PartIndex t) := concat_lines (part_lines n (PartIndex t) kvss)]> f).
Proof.
  intros Hp Hn Ht Hm. unfold workerReduce.
  rewrite (read_loop_spec _ _ _ _ (filter (in_part n (PartIndex t)) <$> kvss)).
  - simpl. unfold part_lines. by rewrite filter_concat.
  - rewrite length_fmap, Hn. unfold len. by rewrite Nat2Z.id.
  - intros m kvs. rewrite list_lookup_fmap. destruct (kvss !! m) as [x|] eqn:Hx; simpl; [|done].
    intros [= <-]. split; [|by apply (Hm m x Hx)].
    eapply Forall_lookup_1 in Ht; [|done].
    apply Forall_forall. intros y [_ Hy]%list_elem_of_filter. by eapply Forall_forall in Ht.
Qed.

End Files.
End MrFiles.
