(* ===== verification/MrPipeline.v ===== *)
(** * A whole MapReduce computation

    The master, the workers and the file system they share.  In a [computation] any number of workers live at
    once: their calls and the collector are served access by access (MrRace.v) in an order a scheduler chooses;
    work is done on tasks that were given out, by workers that may die before they report, possibly twice;
    reports come after the work; timed out tasks are given out again.  The work on the files of one task is one
    step.  [world] is the same with the handlers and the collector's turns as one step each; a computation that
    is served one at a time refines it.  The result is that of mrsequential. *)

From stdpp Require Import base list gmap strings pretty sorting.
From Stdlib Require Import ZArith Lia.
From S2P Require Import Prelude MrMaster MrJob MrRace MrServe MrWorker MrReduce MrFiles.
Import MrMaster MrJob MrRace MrServe MrWorker MrReduce MrFiles.

Open Scope Z_scope.

Module MrPipeline.

Section Pipeline.
Context `{Json, !JsonLaws} `{SortByKey, !SortLaws}.
Variables (mapf : string -> string -> list KeyValue) (reducef : string -> list string -> string).

Record World := mkWorld {
  wjob : Job;
  wfiles : fs;
  worked : list TaskInfo  (* the tasks whose work has been done *) }.

(** The two cases of [Worker] that do work, up to the call of [TaskDone] *)
Definition work (t : TaskInfo) (f : fs) : res fs :=
  if State t =? TaskMap then workerMap mapf t f
  else if State t =? TaskReduce then workerReduce reducef t f
  else Err (EPanic "Invalid Task state").

Inductive wevent :=
  | WJob (e : event)
  | WWork (t : TaskInfo).

Definition wstep (w : World) (e : wevent) : res World :=
  match e with
  | WJob e => j ← jstep (wjob w) e; mret (mkWorld j (wfiles w) (worked w))
  | WWork t => f ← work t (wfiles w); mret (mkWorld (wjob w) f (worked w ++ [t]))
  end.

(** Work is done on tasks that were given out, and reported only once it is done. *)
Definition wallowed (w : World) (e : wevent) : Prop :=
  match e with
  | WJob (EReport t) => t ∈ worked w
  | WJob _ => True
  | WWork t => t ∈ given (wjob w)
  end.

Inductive world (files : list string) (nReduce : Z) (f0 : fs) : World -> Prop :=
  | world_start now : world files nReduce f0 (mkWorld (startJob files nReduce now) f0 [])
  | world_step w e w' : world files nReduce f0 w -> wallowed w e -> wstep w e = Val w' -> world files nReduce f0 w'.

(** ** Access by access *)

Record System := mkSystem {
  server : Server;
  sfiles : fs;
  sworked : list TaskInfo }.

Inductive slabel :=
  | SServe (l : label)
  | SWork (t : TaskInfo).

Definition system_step (w : System) (e : slabel) : res System :=
  match e with
  | SServe l => s ← sstep (server w) l; mret (mkSystem s (sfiles w) (sworked w))
  | SWork t => f ← work t (sfiles w); mret (mkSystem (server w) f (sworked w ++ [t]))
  end.

(** Work is done on tasks that were given out, and reported only once it is done. *)
Definition system_allowed (w : System) (e : slabel) : Prop :=
  match e with
  | SServe (LArrive (RDone t)) => t ∈ sworked w
  | SServe _ => True
  | SWork t => handed (server w) t
  end.

(** The scheduler has a say in the accesses only. *)
Definition scheduled (sched : Server -> label -> Prop) (w : System) (e : slabel) : Prop :=
  match e with SServe l => sched (server w) l | SWork _ => True end.

Definition newSystem (files : list string) (nReduce : Z) (f0 : fs) (now : nat -> Z) : System :=
  mkSystem (newServer files nReduce now) f0 [].

Inductive computation (sched : Server -> label -> Prop) (files : list string) (nReduce : Z) (f0 : fs) : System -> Prop :=
  | computation_start now : computation sched files nReduce f0 (newSystem files nReduce f0 now)
  | computation_step w e w' :
      computation sched files nReduce f0 w -> system_allowed w e -> scheduled sched w e -> system_step w e = Val w' ->
      computation sched files nReduce f0 w'.

(** The server of a computation is one of MrRace.v: only tasks that were given out are worked on. *)
Lemma computation_served sched files nReduce f0 w :
  computation sched files nReduce f0 w ->
  served sched files nReduce (server w) /\ forall t, t ∈ sworked w -> handed (server w) t.
Proof.
  induction 1 as [now|w e w' Hw [IH1 IH2] Hal Hsch Hs].
  { split; [apply served_start|]. simpl. set_solver. }
  destruct e as [l|t]; simpl in *; apply bind_val in Hs as (x & Hx & [= <-]); simpl.
  - split.
    + apply (served_step _ _ _ (server w) l); try done. destruct l as [[|t]| |]; simpl; auto.
    + intros t [Ht ?]%IH2. split; [|done]. by eapply reply_stays.
  - split; [done|]. intros t' [?| ->%list_elem_of_singleton]%elem_of_app; auto.
Qed.

(** ** The invariant *)

Section Inv.
Variables (files : list string) (nReduce : Z) (f0 : fs).

(** The names of the input files are not names of files MapReduce writes. *)
Definition input_ok : Prop :=
  forall name, name ∈ files -> is_Some (f0 !! name) /\ (forall x y, name <> interName x y) /\ (forall y, name <> outName y).

Definition content_of (name : string) : string := default EmptyString (f0 !! name).

(** The pairs of each map task *)
Definition pairs : list (list KeyValue) := (fun name => mapf name (content_of name)) <$> files.

Hypothesis (Hinput : input_ok) (Htext : Forall (Forall json_text) pairs) (Hn : 0 < nReduce).

Definition map_correct (f : fs) (t : TaskInfo) : Prop :=
  forall kvs, pairs !! Z.to_nat (FileIndex t) = Some kvs -> mapped nReduce (FileIndex t) kvs f.

Definition reduce_correct (f : fs) (p : Z) : Prop :=
  f !! outName p = Some (concat_lines (part_lines reducef nReduce p pairs)).

Record world_ok (w : World) : Prop := {
  wo_job : job files nReduce (wjob w);
  wo_input : forall name, name ∈ files -> wfiles w !! name = f0 !! name;
  wo_worked : forall t, t ∈ worked w -> t ∈ given (wjob w);
  wo_map : forall t, t ∈ worked w -> State t = TaskMap -> map_correct (wfiles w) t;
  wo_reduce : forall t, t ∈ worked w -> State t = TaskReduce -> reduce_correct (wfiles w) (PartIndex t);
  wo_maps : forall x, x ∈ mapsDone (wjob w) -> exists t, t ∈ worked w /\ State t = TaskMap /\ FileIndex t = x;
  wo_reduces : forall p, p ∈ reducesDone (wjob w) -> exists t, t ∈ worked w /\ State t = TaskReduce /\ PartIndex t = p;
  wo_phase : forall t, t ∈ given (wjob w) -> State t = TaskReduce -> created (wjob w) = true }.

Lemma given_ok w t : world_ok w -> t ∈ given (wjob w) ->
  (map_task_ok files nReduce t /\ State t = TaskMap) \/ (reduce_task_ok files nReduce t /\ State t = TaskReduce).
Proof.
  intros Hw Ht. pose proof (jo_given _ _ _ (job_job_ok _ _ _ (wo_job _ Hw))) as Hg.
  eapply Forall_forall in Hg; [|done]. destruct Hg as [Hg|Hg]; [left|right]; (split; [done|apply Hg]).
Qed.

(** Work on a map task that was given out *)
Lemma work_map w t :
  world_ok w -> t ∈ given (wjob w) -> map_task_ok files nReduce t ->
  exists f', work t (wfiles w) = Val f' /\ map_correct f' t /\
    (forall name, (forall p, name <> interName (FileIndex t) p) -> f' !! name = wfiles w !! name).
Proof.
  intros Hw Ht Hok. unfold work. rewrite (mt_state _ _ _ Hok). simpl.
  pose proof (mt_file _ _ _ Hok) as Hfile. pose proof (list_elem_of_lookup_2 _ _ _ Hfile) as Hin.
  destruct (Hinput _ Hin) as ([c Hc] & _).
  assert (pairs !! Z.to_nat (FileIndex t) = Some (mapf (FileName t) c)) as Hp.
  { unfold pairs. rewrite list_lookup_fmap, Hfile. simpl. unfold content_of. by rewrite Hc. }
  destruct (workerMap_spec mapf t (wfiles w) c) as (f' & Hf' & Hm & Hother).
  - rewrite (wo_input _ Hw _ Hin). done.
  - by rewrite (mt_reduce _ _ _ Hok).
  - apply Hok.
  - pose proof Htext as Ht'. by eapply Forall_lookup_1 in Ht'.
  - exists f'. split_and!; [done| |done]. intros kvs Hkvs. rewrite Hp in Hkvs. injection Hkvs as <-.
    by rewrite (mt_reduce _ _ _ Hok) in Hm.
Qed.

(** Work on a reduce task that was given out *)
Lemma work_reduce w t :
  world_ok w -> t ∈ given (wjob w) -> reduce_task_ok files nReduce t ->
  work t (wfiles w) = Val (<[outName (PartIndex t) := concat_lines (part_lines reducef nReduce (PartIndex t) pairs)]> (wfiles w)).
Proof.
  intros Hw Ht Hok. unfold work. rewrite (rt_state _ _ _ Hok). simpl.
  apply workerReduce_spec; [apply Hok| |done|].
  - rewrite (rt_files _ _ _ Hok). unfold pairs, len. by rewrite length_fmap.
  - intros m kvs Hm. pose proof (lookup_lt_Some _ _ _ Hm) as Hlt. unfold pairs in Hlt. rewrite length_fmap in Hlt.
    pose proof (wo_phase _ Hw _ Ht (rt_state _ _ _ Hok)) as Hc.
    pose proof (jo_phase _ _ _ (job_job_ok _ _ _ (wo_job _ Hw)) Hc) as Hall.
    destruct (wo_maps _ Hw (Z.of_nat m)) as (t' & Ht' & Hs' & Hx'); [apply Hall; unfold len; lia|].
    pose proof (wo_map _ Hw _ Ht' Hs' kvs) as Hmap. rewrite Hx' in Hmap. apply Hmap. by rewrite Nat2Z.id.
Qed.

Lemma work_ok w t w' :
  world_ok w -> t ∈ given (wjob w) -> wstep w (WWork t) = Val w' -> world_ok w'.
Proof.
  intros Hw Ht. simpl. intros (f' & Hf' & [= <-])%bind_val.
  destruct (given_ok w t Hw Ht) as [[Hok Hs]|[Hok Hs]].
  - destruct (work_map w t Hw Ht Hok) as (f & Hf & Hm & Hother). rewrite Hf in Hf'. injection Hf' as <-.
    constructor; simpl; [apply (wo_job _ Hw)|..|apply (wo_phase _ Hw)].
    + intros name Hin. rewrite Hother; [by apply (wo_input _ Hw)|]. intros p. by apply Hinput.
    + intros t' [?| ->%list_elem_of_singleton]%elem_of_app; [by apply (wo_worked _ Hw)|done].
    + intros t' [Ht'| ->%list_elem_of_singleton]%elem_of_app Hs'; [|done].
      intros kvs Hkvs p Hp. destruct (decide (FileIndex t' = FileIndex t)) as [E|Hne].
      * rewrite E in *. by apply Hm.
      * rewrite Hother; [by apply (wo_map _ Hw _ Ht' Hs')|]. intros q Eq.
        destruct (given_ok w t' Hw (wo_worked _ Hw _ Ht')) as [[Hok' _]|[_ E]]; [|by rewrite Hs' in E].
        apply interName_inj in Eq as [? _]; [done|apply Hok'|apply Hok].
    + intros t' [Ht'| ->%list_elem_of_singleton]%elem_of_app Hs'; [|by rewrite Hs in Hs'].
      unfold reduce_correct. rewrite Hother; [exact (wo_reduce _ Hw _ Ht' Hs')|]. intros p E. symmetry in E. by apply inter_not_out in E.
    + intros x Hx. destruct (wo_maps _ Hw x Hx) as (t' & ? & ?). exists t'. set_solver.
    + intros x Hx. destruct (wo_reduces _ Hw x Hx) as (t' & ? & ?). exists t'. set_solver.
  - rewrite (work_reduce w t Hw Ht Hok) in Hf'. injection Hf' as <-.
    constructor; simpl; [apply (wo_job _ Hw)|..|apply (wo_phase _ Hw)].
    + intros name Hin. rewrite lookup_insert_ne; [by apply (wo_input _ Hw)|]. intros E. destruct (Hinput _ Hin) as (_ & _ & Ho). by apply (Ho (PartIndex t)).
    + intros t' [?| ->%list_elem_of_singleton]%elem_of_app; [by apply (wo_worked _ Hw)|done].
    + intros t' [Ht'| ->%list_elem_of_singleton]%elem_of_app Hs'; [|by rewrite Hs in Hs'].
      intros kvs Hkvs p Hp. rewrite lookup_insert_ne; [by apply (wo_map _ Hw _ Ht' Hs')|].
      intros E. symmetry in E. by apply inter_not_out in E.
    + intros t' [Ht'| ->%list_elem_of_singleton]%elem_of_app Hs'; unfold reduce_correct;
        [|by rewrite lookup_insert_eq].
      destruct (decide (PartIndex t' = PartIndex t)) as [->|Hne]; [by rewrite lookup_insert_eq|].
      rewrite lookup_insert_ne; [exact (wo_reduce _ Hw _ Ht' Hs')|]. intros E%outName_inj. congruence.
    + intros x Hx. destruct (wo_maps _ Hw x Hx) as (t' & ? & ?). exists t'. set_solver.
    + intros x Hx. destruct (wo_reduces _ Hw x Hx) as (t' & ? & ?). exists t'. set_solver.
Qed.

(** The job's own history is one of MrJob.v. *)
Lemma job_event_ok w e w' :
  world_ok w -> wallowed w (WJob e) -> wstep w (WJob e) = Val w' -> job files nReduce (wjob w').
Proof.
  intros Hw Hal (j' & Hj' & [= <-])%bind_val. eapply job_step; [apply (wo_job _ Hw)| |done].
  destruct e; simpl in *; try done. by apply (wo_worked _ Hw).
Qed.

(** A reduce task in the master's queues means the map phase is over. *)
Lemma ask_phase j now m t :
  job files nReduce j -> AskTask (master j) now = Val (m, t) -> State t = TaskReduce -> created j = true.
Proof.
  intros Hj Ha Ht. pose proof (job_job_ok _ _ _ Hj) as Hok. destruct (created j) eqn:Hc; [done|].
  destruct (jo_created _ _ _ Hok Hc) as [E _]. unfold reduce_tasks in E. apply fmap_nil_inv, app_eq_nil in E as [E _].
  unfold AskTask, Size in Ha. rewrite E in Ha. simpl in Ha.
  destruct (0 <? _) eqn:Hm; [|destruct (_ && _); by injection Ha as <- <-].
  apply Z.ltb_lt in Hm. destruct (Pop_spec _ Hm) as (l & x & Hq & Hp). rewrite Hp in Ha. injection Ha as <- <-.
  simpl in Ht. pose proof (jo_map _ _ _ Hok) as Hall. unfold map_tasks in Hall. rewrite Hq in Hall.
  simpl in Hall. rewrite !fmap_app, !Forall_app in Hall. destruct Hall as [[_ Hx] _]. simpl in Hx.
  rewrite Forall_singleton in Hx. pose proof (mt_state _ _ _ Hx) as E'. simpl in E'. by rewrite Ht in E'.
Qed.

Lemma event_ok w e w' : world_ok w -> wallowed w (WJob e) -> wstep w (WJob e) = Val w' -> world_ok w'.
Proof.
  intros Hw Hal Hs. pose proof (job_event_ok w e w' Hw Hal Hs) as Hj.
  pose proof (wo_job _ Hw) as Hj0. simpl in Hs. apply bind_val in Hs as (j' & Hj' & [= <-]).
  destruct e as [now|t|clock1 clock2]; simpl in *.
  - apply bind_val in Hj' as ([m t] & Ha & [= <-]). simpl in *.
    constructor; simpl; [done|apply (wo_input _ Hw)| |apply (wo_map _ Hw)|apply (wo_reduce _ Hw)|
                         apply (wo_maps _ Hw)|apply (wo_reduces _ Hw)|].
    + intros x Hx%(wo_worked _ Hw). destruct (is_work t); set_solver.
    + intros x Hx Hst. destruct (is_work t); [|by apply (wo_phase _ Hw x)].
      apply elem_of_app in Hx as [Hx| ->%list_elem_of_singleton]; [by apply (wo_phase _ Hw x)|]. by eapply ask_phase.
  - apply bind_val in Hj' as (m & Ha & Hm).
    destruct (given_ok w t Hw (wo_worked _ Hw _ Hal)) as [[_ Hst]|[_ Hst]]; rewrite Hst in Hm; simpl in Hm; injection Hm as <-.
    + constructor; simpl; [done|apply (wo_input _ Hw)|apply (wo_worked _ Hw)|apply (wo_map _ Hw)|apply (wo_reduce _ Hw)| |
                           apply (wo_reduces _ Hw)|].
      * intros x [->%elem_of_singleton|Hx]%elem_of_union; [by exists t|by apply (wo_maps _ Hw)].
      * intros x Hx Hsx. by rewrite (wo_phase _ Hw x Hx Hsx).
    + constructor; simpl; [done|apply (wo_input _ Hw)|apply (wo_worked _ Hw)|apply (wo_map _ Hw)|apply (wo_reduce _ Hw)|
                           apply (wo_maps _ Hw)| |apply (wo_phase _ Hw)].
      intros x [->%elem_of_singleton|Hx]%elem_of_union; [by exists t|by apply (wo_reduces _ Hw)].
  - injection Hj' as <-. by destruct Hw; constructor.
Qed.

Lemma world_world_ok w : world files nReduce f0 w -> world_ok w.
Proof.
  induction 1 as [now|w e w' Hw IH Hal Hs].
  - constructor; simpl; try done; try (intros x Hx; set_solver). apply job_start.
  - destruct e as [e|t]; [by eapply event_ok|by eapply work_ok].
Qed.

(** ** The refinement *)

Record system_refines (w : System) (W : World) : Prop := {
  sr_world : world files nReduce f0 W;
  sr_server : refines (server w) (wjob W);
  sr_files : sfiles w = wfiles W;
  sr_worked : sworked w = worked W;
  sr_reports : forall t p, (RDone t, p) ∈ calls (server w) -> t ∈ worked W }.

(** Reports in the server are those that came in. *)
Lemma calls_step s l s' t p :
  sstep s l = Val s' -> (RDone t, p) ∈ calls s' -> (exists q, (RDone t, q) ∈ calls s) \/ l = LArrive (RDone t).
Proof.
  destruct l as [r|k now|clock]; simpl.
  - intros [= <-]. simpl. intros [?|E%list_elem_of_singleton]%elem_of_app; [eauto|].
    injection E as <- _. by right.
  - destruct (calls s !! k) as [[r q]|] eqn:Hk; [|intros [= <-]; eauto].
    intros ([m q'] & _ & [= <-])%bind_val. simpl. intros [?|[= <- <-]]%(calls_insert _ _ _ _ _ _ Hk); [eauto|].
    left. exists q. by eapply list_elem_of_lookup_2.
  - destruct (cstep _ _ _) as [m c]. intros [= <-]. eauto.
Qed.

Lemma serve_refines w l s' W :
  system_refines w W -> system_allowed w (SServe l) -> one_at_a_time (server w) l -> sstep (server w) l = Val s' ->
  exists W', system_refines (mkSystem s' (sfiles w) (sworked w)) W'.
Proof.
  intros Hw Hal Ho Hs. pose proof (wo_worked _ (world_world_ok _ (sr_world _ _ Hw))) as Hgiven.
  assert (forall t p, (RDone t, p) ∈ calls s' -> t ∈ worked W) as Hrep.
  { intros t p [[q Hq]|Har]%(calls_step _ _ _ _ _ Hs); [by eapply (sr_reports _ _ Hw)|].
    rewrite <- (sr_worked _ _ Hw). by subst l. }
  destruct (step_refines (server w) l s' (wjob W)) as [Href|(e & j' & Hj & Href & He)]; try done; [apply Hw| |..].
  - intros t ->. apply Hgiven. rewrite <- (sr_worked _ _ Hw). exact Hal.
  - exists W. destruct Hw. by constructor.
  - exists (mkWorld j' (wfiles W) (worked W)). destruct Hw as [Hworld Hserver Hf Hwk Hr]. constructor; simpl; try done.
    apply (world_step _ _ _ W (WJob e)); [done| |simpl; by rewrite Hj].
    destruct e as [|t|]; simpl; try done. destruct (He t eq_refl) as [p Hp]. by eapply Hr.
Qed.

(** A computation served one at a time refines one whose handlers are one step each. *)
Lemma computation_world w : computation one_at_a_time files nReduce f0 w -> exists W, system_refines w W.
Proof.
  induction 1 as [now|w e w' Hw (W & HW) Hal Ho Hs].
  { exists (mkWorld (startJob files nReduce now) f0 []). constructor; simpl; try done;
      [apply world_start|apply start_refines|intros t p Hin; set_solver]. }
  destruct e as [l|t]; simpl in *.
  - apply bind_val in Hs as (s' & Hs & [= <-]). by eapply serve_refines.
  - apply bind_val in Hs as (f & Hf & [= <-]). destruct HW as [Hworld Hserver Hfs Hwk Hr].
    exists (mkWorld (wjob W) f (worked W ++ [t])). constructor; simpl; try done.
    + apply (world_step _ _ _ W (WWork t)); [done| |simpl; by rewrite <- Hfs, Hf]. by apply (rf_handed _ _ Hserver).
    + by rewrite Hwk.
    + intros t' p Hp%Hr. set_solver.
Qed.

(** ** Results *)

Lemma done_outputs w p :
  world files nReduce f0 w -> Done (master (wjob w)) = true -> files <> [] -> 0 <= p < nReduce ->
  reduce_correct (wfiles w) p.
Proof.
  intros Hw%world_world_ok Hd Hne Hp.
  destruct (jo_done _ _ _ (job_job_ok _ _ _ (wo_job _ Hw)) Hd) as [_ Hr].
  destruct (wo_reduces _ Hw p (Hr Hne p Hp)) as (t & Ht & Hs & <-). by apply (wo_reduce _ Hw).
Qed.

Lemma map_files_pairs : map_files mapf f0 files = Val (concat pairs).
Proof.
  unfold pairs. assert (forall l, (forall name, name ∈ l -> is_Some (f0 !! name)) ->
    map_files mapf f0 l = Val (concat ((fun name => mapf name (content_of name)) <$> l))) as Hl.
  { induction l as [|name l IH]; intros Hl; simpl; [done|]. unfold readFile.
    destruct (Hl name) as [c Hc]; [set_solver|]. rewrite Hc. simpl. rewrite IH by (intros; apply Hl; set_solver).
    simpl. unfold content_of. by rewrite Hc. }
  apply Hl. intros name Hin. by apply Hinput.
Qed.

Lemma parts_of_whole :
  order_insensitive reducef ->
  concat ((fun p => part_lines reducef nReduce (Z.of_nat p) pairs) <$> seq 0 (Z.to_nat nReduce)) ≡ₚ
  reduce_lines reducef (concat pairs).
Proof. intros Ho. unfold part_lines. by apply reduce_lines_parts. Qed.

End Inv.

(** The outputs of a finished job are those of the sequential program. *)
Lemma done_matches_sequential files nReduce f0 w :
  order_insensitive reducef -> input_ok files f0 -> Forall (Forall json_text) (pairs files f0) ->
  0 < nReduce -> files <> [] ->
  world files nReduce f0 w -> Done (master (wjob w)) = true ->
  exists (lines : nat -> list string) (seq_lines : list string) f1,
    (forall p, (p < Z.to_nat nReduce)%nat -> wfiles w !! outName (Z.of_nat p) = Some (concat_lines (lines p))) /\
    mrsequential mapf reducef files f0 = Val f1 /\
    f1 !! "mr-out-0" = Some (concat_lines seq_lines) /\
    concat (lines <$> seq 0 (Z.to_nat nReduce)) ≡ₚ seq_lines.
Proof.
  intros Ho Hin Ht Hn Hne Hw Hd.
  exists (fun p => part_lines reducef nReduce (Z.of_nat p) (pairs files f0)), (reduce_lines reducef (concat (pairs files f0))).
  eexists. split_and!.
  - intros p Hp. apply (done_outputs files nReduce f0 Hin Ht Hn w); try done. lia.
  - unfold mrsequential. rewrite (map_files_pairs files nReduce f0) by done. reflexivity.
  - apply lookup_insert_eq.
  - by apply parts_of_whole.
Qed.

(** The same of a computation that is served one at a time *)
Lemma computation_matches_sequential files nReduce f0 w :
  order_insensitive reducef -> input_ok files f0 -> Forall (Forall json_text) (pairs files f0) ->
  0 < nReduce -> files <> [] ->
  computation one_at_a_time files nReduce f0 w -> Done (smaster (server w)) = true ->
  exists (lines : nat -> list string) (seq_lines : list string) f1,
    (forall p, (p < Z.to_nat nReduce)%nat -> sfiles w !! outName (Z.of_nat p) = Some (concat_lines (lines p))) /\
    mrsequential mapf reducef files f0 = Val f1 /\
    f1 !! "mr-out-0" = Some (concat_lines seq_lines) /\
    concat (lines <$> seq 0 (Z.to_nat nReduce)) ≡ₚ seq_lines.
Proof.
  intros Ho Hin Ht Hn Hne (W & HW)%computation_world Hd; [|done..]. rewrite (sr_files _ _ _ _ _ HW).
  apply done_matches_sequential; try done; [apply HW|]. eapply refines_done; [apply HW|done].
Qed.


End Pipeline.
End MrPipeline.
