(* ===== verification/MrAlone.v ===== *)
(** * One worker alone

    [Worker] of worker.go, access by access: the worker asks, works, reports and asks again, while the collector
    MakeMaster started makes its own accesses at any moment in between.  If no turn of the worker takes more than
    ten seconds, the collector finds nothing to take back and the worker ends the job. *)

From stdpp Require Import base list gmap strings pretty sorting.
From Stdlib Require Import ZArith Lia.
From S2P Require Import Prelude MrMaster MrJob MrRace MrServe MrWorker MrReduce MrFiles MrPipeline.
Import MrMaster MrJob MrRace MrServe MrWorker MrReduce MrFiles MrPipeline.

Open Scope Z_scope.

Module MrAlone.

Section Worker.
Context `{Json, !JsonLaws} `{SortByKey, !SortLaws}.
Variables (mapf : string -> string -> list KeyValue) (reducef : string -> list string -> string).

(** One turn of the worker's loop: the clock when it asks, and the collector's accesses before each access of its
    two calls, each with the clock it reads.  What the collector does during the worker's work and its sleep
    comes before the next access. *)
Record Turn := mkTurn {
  t_now : Z;
  t_ask : nat -> list (nat -> Z);
  t_done : nat -> list (nat -> Z) }.

Fixpoint collects (cs : list (nat -> Z)) (w : System) : res System :=
  match cs with
  | [] => mret w
  | clock :: cs' => w' ← system_step mapf reducef w (SServe (LCollect clock)); collects cs' w'
  end.

Definition answered (w : System) (k : nat) : bool :=
  match calls (server w) !! k with Some (_, p) => replied p | None => false end.

(** Call [k] until it is answered; [fuel] bounds its accesses. *)
Fixpoint accesses (fuel i k : nat) (now : Z) (noise : nat -> list (nat -> Z)) (w : System) : res System :=
  if answered w k then mret w
  else match fuel with
  | O => Err (EPanic "fuel")
  | S fuel' =>
      w1 ← collects (noise i) w;
      w2 ← system_step mapf reducef w1 (SServe (LCall k now));
      accesses fuel' (S i) k now noise w2
  end.

(** How many accesses a call makes at most *)
Definition bound (r : request) : nat := match r with RAsk => 6 | RDone args => Z.to_nat (NReduce args) + 5 end.

(** A call, from its arrival to its answer *)
Definition remote (r : request) (now : Z) (noise : nat -> list (nat -> Z)) (w : System) : res System :=
  w1 ← system_step mapf reducef w (SServe (LArrive r));
  accesses (bound r) 0 (length (calls (server w))) now noise w1.

(** The task in the answer to call [k] *)
Definition answer (w : System) (k : nat) : option TaskInfo :=
  match calls (server w) !! k with Some (RAsk, AReply t) => Some t | _ => None end.

(** [Worker], for some turns of its loop; [true] if it was told to end. *)
Fixpoint Worker (turns : list Turn) (w : System) : res (System * bool) :=
  match turns with
  | [] => mret (w, false)
  | tn :: turns' =>
      w1 ← remote RAsk (t_now tn) (t_ask tn) w;
      t ← of_option (EPanic "fuel") (answer w1 (length (calls (server w))));
      if is_work t then
        w2 ← system_step mapf reducef w1 (SWork t);
        w3 ← remote (RDone t) (t_now tn) (t_done tn) w2;
        Worker turns' w3
      else if State t =? TaskWait then Worker turns' w1
      else if State t =? TaskEnd then mret (w1, true)
      else Err (EPanic "Invalid Task state")
  end.

(** No turn takes more than ten seconds: whenever the collector reads the clock, the task was handed out at most
    ten seconds ago. *)
Definition prompt (tn : Turn) : Prop :=
  forall i clock x, clock ∈ t_ask tn i ++ t_done tn i -> clock x - t_now tn <= Second * 10.

(** ** The collector finds nothing *)

Definition idle_pc (c : cpc) : Prop := match c with CReduceBack q | CMapBack q => q = [] | _ => True end.

Definition running (m : Master) : list TaskInfo := elems (mapTaskRunning m) ++ elems (reduceTaskRunning m).

(** Nothing running, or on its way there, was handed out before [n]. *)
Definition recent (n : Z) (m : Master) (p : hpc) : Prop :=
  (forall t, t ∈ running m -> n <= TimeStamp t) /\
  match p with APushReduce t | APushMap t => n <= TimeStamp t | _ => True end.

Lemma timeout_loop_none fuel clock k i l ret :
  (forall t, t ∈ l -> forall x, OutOfTime (clock x) t = false) -> timeout_loop fuel clock k i l ret = (l, ret).
Proof.
  intros Hl. revert k i. induction fuel as [|fuel IH]; intros k i; simpl; [done|].
  destruct (l !! i) as [t|] eqn:Ht; [|done]. rewrite (Hl t) by (by eapply list_elem_of_lookup_2). apply IH.
Qed.

Lemma TimeOutQueue_none clock q :
  (forall t, t ∈ elems q -> forall x, OutOfTime (clock x) t = false) -> TimeOutQueue clock q = (q, []).
Proof. intros Hq. destruct q as [l|]; simpl; [|done]. by rewrite timeout_loop_none. Qed.

Lemma cstep_nothing n m c clock :
  idle_pc c -> (forall t, t ∈ running m -> n <= TimeStamp t) -> (forall x, clock x - n <= Second * 10) ->
  exists c', cstep m c clock = (m, c') /\ idle_pc c'.
Proof.
  intros Hc Hn Hclock.
  assert (forall t, t ∈ running m -> forall x, OutOfTime (clock x) t = false) as Hin.
  { intros t Ht x. apply Z.ltb_ge. specialize (Hn t Ht). specialize (Hclock x). lia. }
  unfold running in Hin. destruct m as [mq rq mr rr d fn]. simpl in Hin.
  destruct c as [|ret| |ret]; simpl in Hc |- *; subst.
  - rewrite TimeOutQueue_none by set_solver. eexists. done.
  - eexists. done.
  - rewrite TimeOutQueue_none by set_solver. eexists. done.
  - eexists. done.
Qed.

(** The collector's accesses change nothing but where it is. *)
Definition set_collector (c : cpc) (w : System) : System :=
  mkSystem (mkServer (smaster (server w)) (calls (server w)) c) (sfiles w) (sworked w).

Lemma collects_nothing n cs w :
  idle_pc (collector (server w)) -> (forall t, t ∈ running (smaster (server w)) -> n <= TimeStamp t) ->
  (forall clock x, clock ∈ cs -> clock x - n <= Second * 10) ->
  exists c, collects cs w = Val (set_collector c w) /\ idle_pc c.
Proof.
  revert w. induction cs as [|clock cs IH]; intros w Hc Hn Hcs; simpl.
  { exists (collector (server w)). split; [|done]. by destruct w as [[] ? ?]. }
  destruct (cstep_nothing n _ _ clock Hc Hn) as (c & -> & Hc'); [intros x; apply Hcs; set_solver|]. simpl.
  apply (IH (set_collector c w)); [done|done|]. intros; apply Hcs; set_solver.
Qed.

(** ** A call with the collector in between *)

Lemma hstep_recent n m p m' p' : recent n m p -> hstep m p n = Val (m', p') -> recent n m' p'.
Proof.
  unfold recent, running. intros [Hm Hp]. destruct p; simpl in Hp |- *; try (intros [= <- <-]; done).
  - intros [= <- <-]. by destruct (0 <? _).
  - intros ([t q] & _ & [= <- <-])%bind_val. simpl. done.
  - intros [= <- <-]. simpl. split; [|done]. set_solver.
  - intros [= <- <-]. by destruct (0 <? _).
  - intros ([t q] & _ & [= <- <-])%bind_val. simpl. done.
  - intros [= <- <-]. simpl. split; [|done]. set_solver.
  - intros [= <- <-]. by destruct (_ =? 0).
  - intros [= <- <-]. by destruct (_ =? 0).
  - destruct (_ =? TaskMap); [|destruct (_ =? TaskReduce); [|done]]; intros [= <- <-]; simpl; (split; [|done]);
      rewrite RemoveTask_spec; intros x [Hx|Hx]%elem_of_app; apply Hm; rewrite elem_of_app; auto;
      apply list_elem_of_filter in Hx as [_ ?]; auto.
  - intros [= <- <-]. by destruct (_ =? 0).
  - intros [= <- <-]. by destruct (_ =? 0).
  - destruct (_ <? _); by intros [= <- <-].
Qed.

Lemma hrun_replied fuel m p now : replied p = true -> hrun fuel m p now = Val (m, p).
Proof. destruct p; try done; intros _; [apply hrun_reply|apply hrun_done]. Qed.

(** With the collector in between, a call does what it does alone. *)
Lemma accesses_alone fuel i k n noise w r p m' p' :
  idle_pc (collector (server w)) -> recent n (smaster (server w)) p -> calls (server w) !! k = Some (r, p) ->
  (forall i clock x, clock ∈ noise i -> clock x - n <= Second * 10) ->
  hrun fuel (smaster (server w)) p n = Val (m', p') -> replied p' = true ->
  exists c, accesses fuel i k n noise w =
    Val (mkSystem (mkServer m' (<[k := (r, p')]> (calls (server w))) c) (sfiles w) (sworked w)) /\
    idle_pc c /\ recent n m' p'.
Proof.
  revert i w p. induction fuel as [|fuel IH]; intros i w p Hc Hrec Hk Hnoise Hrun Hp';
    cbn [accesses]; unfold answered; rewrite Hk; destruct (replied p) eqn:Hp.
  - injection Hrun as <- <-. exists (collector (server w)). rewrite list_insert_id by done. by destruct w as [[] ? ?].
  - injection Hrun as <- <-. congruence.
  - rewrite hrun_replied in Hrun by done. injection Hrun as <- <-.
    exists (collector (server w)). rewrite list_insert_id by done. by destruct w as [[] ? ?].
  - destruct (collects_nothing n (noise i) w) as (c & -> & Hc'); [done|apply Hrec|intros; by eapply Hnoise|].
    rewrite hrun_S in Hrun. apply bind_val in Hrun as ([m1 p1] & Hh & Hrun).
    cbn [mbind res_bind system_step sstep server set_collector calls smaster collector]. rewrite Hk. rewrite Hh.
    cbn [mbind res_bind mret res_ret sfiles sworked].
    destruct (IH (S i) (mkSystem (mkServer m1 (<[k := (r, p1)]> (calls (server w))) c) (sfiles w) (sworked w)) p1)
      as (c1 & Hacc & Hc1 & Hr1); try done.
    + by eapply hstep_recent.
    + simpl. apply list_lookup_insert_eq. by eapply lookup_lt_Some.
    + exists c1. split; [|done]. etransitivity; [exact Hacc|]. simpl. by rewrite list_insert_insert_eq.
Qed.

(** A call on an otherwise quiet server *)
Lemma remote_alone r n noise w m' p' :
  idle_pc (collector (server w)) -> (forall t, t ∈ running (smaster (server w)) -> n <= TimeStamp t) ->
  (forall i clock x, clock ∈ noise i -> clock x - n <= Second * 10) ->
  hrun (bound r) (smaster (server w)) (start r) n = Val (m', p') -> replied p' = true ->
  exists c, remote r n noise w = Val (mkSystem (mkServer m' (calls (server w) ++ [(r, p')]) c) (sfiles w) (sworked w)) /\
    idle_pc c /\ recent n m' p'.
Proof.
  intros Hc Hn Hnoise Hrun Hp'. unfold remote. cbn [mbind res_bind system_step sstep mret res_ret].
  destruct (accesses_alone (bound r) 0 (length (calls (server w))) n noise
    (mkSystem (mkServer (smaster (server w)) (calls (server w) ++ [(r, start r)]) (collector (server w))) (sfiles w) (sworked w))
    r (start r) m' p') as (c & -> & ? & ?); try done.
  - split; [done|]. by destruct r.
  - simpl. by rewrite lookup_app_r, Nat.sub_diag by lia.
  - exists c. simpl. split; [|done]. do 3 f_equal.
    rewrite insert_app_r_alt, Nat.sub_diag by lia. done.
Qed.

(** ** The queues get shorter *)

Section Alone.
Variables (files : list string) (nReduce : Z) (f0 : fs).
Hypothesis (Hinput : input_ok files f0) (Htext : Forall (Forall json_text) (pairs mapf files f0)) (Hn : 0 < nReduce).

(** Nothing is running. *)
Definition idle (m : Master) : Prop := elems (mapTaskRunning m) = [] /\ elems (reduceTaskRunning m) = [].

(** How many tasks are left *)
Definition left (m : Master) : nat :=
  length (elems (reduceTaskQueuing m)) + length (elems (mapTaskQueuing m)) +
  match elems (mapTaskQueuing m) with [] => 0 | _ => Z.to_nat nReduce end.

(** Work on a task that was given out succeeds, and so does the report. *)
Lemma work_and_report w t :
  world mapf reducef files nReduce f0 w -> t ∈ given (wjob w) ->
  exists f m, wstep mapf reducef w (WWork t) = Val (mkWorld (wjob w) f (worked w ++ [t])) /\
    TaskDone (master (wjob w)) t = Val m /\
    (exists j, wstep mapf reducef (mkWorld (wjob w) f (worked w ++ [t])) (WJob (EReport t)) = Val (mkWorld j f (worked w ++ [t])) /\
       master j = m) /\ is_work t = true.
Proof.
  intros Hw%(world_world_ok mapf reducef files nReduce f0 Hinput Htext Hn) Ht.
  assert (exists f, work mapf reducef t (wfiles w) = Val f) as [f Hf].
  { destruct (given_ok mapf reducef files nReduce f0 w t Hw Ht) as [[Hok _]|[Hok _]].
    - destruct (work_map mapf reducef files nReduce f0 Hinput Htext Hn w t Hw Ht Hok) as (f & Hf & _). eauto.
    - rewrite (work_reduce mapf reducef files nReduce f0 Htext w t Hw Ht Hok). eauto. }
  assert (is_work t = true /\ exists m, TaskDone (master (wjob w)) t = Val m) as [His [m Hm]].
  { unfold is_work, TaskDone. destruct (given_ok mapf reducef files nReduce f0 w t Hw Ht) as [[_ E]|[_ E]]; rewrite E; simpl.
    - split; [done|]. destruct (_ && _); eauto.
    - split; [done|]. eauto. }
  exists f, m. simpl. rewrite Hf, Hm. simpl. split_and!; try done.
  destruct (State t =? TaskMap); (eexists; split; [reflexivity|done]).
Qed.

(** What asking, working and reporting leave of the queues, when nothing else is running *)
Lemma turn_master m now t m1 m2 :
  idle m -> AskTask m now = Val (m1, t) -> TaskDone m1 t = Val m2 -> (State t = TaskMap -> NReduce t = nReduce) ->
  (forall x, x ∈ elems (mapTaskQueuing m) -> State x = TaskMap) ->
  (forall x, x ∈ elems (reduceTaskQueuing m) -> State x = TaskReduce) ->
  is_work t = true -> idle m2 /\ (left m2 < left m)%nat.
Proof.
  intros [Em Er] Ha Hd Hnr Hmq Hrq His. unfold AskTask in Ha.
  assert (forall fi pi t0, same_task fi pi t0 ->
            filter (fun x => ~ same_task fi pi x) [t0] = []) as Hrm.
  { intros fi pi t0 Hs. apply filter_none. intros x ->%list_elem_of_singleton Hx. by apply Hx. }
  destruct (Z.ltb_spec 0 (Size (reduceTaskQueuing m))) as [Hr|Hr].
  - destruct (Pop_spec _ Hr) as (l & t0 & Hq & Hp). rewrite Hp in Ha. injection Ha as <- <-.
    assert (State t0 = TaskReduce) as Hst by (apply Hrq; rewrite Hq; simpl; set_solver).
    unfold TaskDone in Hd. change (State (SetNow now t0)) with (State t0) in Hd. rewrite Hst in Hd.
    injection Hd as <-.
    set (run := RemoveTask (FileIndex t0) (PartIndex t0) (Push (SetNow now t0) (reduceTaskRunning m))).
    assert (elems run = []) as Hrun.
    { unfold run. rewrite RemoveTask_spec. cbn [elems Push default from_option]. rewrite Er. by apply Hrm. }
    split; [split; [done|exact Hrun]|]. unfold left. rewrite Hq. simpl. rewrite length_app. simpl. lia.
  - apply Z.ltb_ge, Size_pos in Hr.
    destruct (Z.ltb_spec 0 (Size (mapTaskQueuing m))) as [Hm|Hm];
      [|destruct (_ && _); by injection Ha as <- <-].
    destruct (Pop_spec _ Hm) as (l & t0 & Hq & Hp). rewrite Hp in Ha. injection Ha as <- <-.
    assert (State t0 = TaskMap) as Hst by (apply Hmq; rewrite Hq; simpl; set_solver).
    specialize (Hnr Hst). simpl in Hnr.
    unfold TaskDone in Hd. change (State (SetNow now t0)) with (State t0) in Hd. rewrite Hst in Hd.
    change (TaskMap =? TaskMap) with true in Hd. cbv iota zeta in Hd.
    cbn [mapTaskQueuing mapTaskRunning reduceTaskQueuing reduceTaskRunning isDone filenames
         FileIndex PartIndex NReduce SetNow] in Hd.
    set (run := RemoveTask (FileIndex t0) (PartIndex t0) (Push (SetNow now t0) (mapTaskRunning m))) in *.
    assert (elems run = []) as Hrun.
    { unfold run. rewrite RemoveTask_spec. cbn [elems Push default from_option]. rewrite Em. by apply Hrm. }
    rewrite (proj2 (Size_zero run) Hrun) in Hd. cbn [andb] in Hd.
    unfold left. rewrite Hq, Hr. cbn [elems default from_option].
    destruct (Size (Some l) =? 0) eqn:Hz.
    + injection Hd as <-. apply Size_zero in Hz. simpl in Hz. subst l. rewrite Hnr.
      destruct (created_tasks (mkMaster (Some []) (reduceTaskQueuing m) run (reduceTaskRunning m) (isDone m) (filenames m))
                  nReduce 0) as [Hc _].
      split; [done|]. rewrite Hc. simpl. rewrite Hr, app_nil_l, length_fmap, length_seq. lia.
    + injection Hd as <-. unfold idle. simpl. rewrite Hr. split; [done|]. rewrite length_app. simpl.
      destruct l; [done|]. simpl. lia.
Qed.

Lemma queue_states w :
  world mapf reducef files nReduce f0 w ->
  (forall x, x ∈ elems (mapTaskQueuing (master (wjob w))) -> State x = TaskMap) /\
  (forall x, x ∈ elems (reduceTaskQueuing (master (wjob w))) -> State x = TaskReduce).
Proof.
  intros Hw%(world_world_ok mapf reducef files nReduce f0 Hinput Htext Hn).
  pose proof (job_job_ok _ _ _ (wo_job _ _ _ _ _ _ Hw)) as Hok. split; intros x Hx.
  - pose proof (proj1 (Forall_forall _ _) (jo_map _ _ _ Hok) (untimed x)) as Hall.
    apply (mt_state _ _ _ (Hall ltac:(apply list_elem_of_fmap; exists x; set_solver))).
  - pose proof (proj1 (Forall_forall _ _) (jo_reduce _ _ _ Hok) (untimed x)) as Hall.
    apply (rt_state _ _ _ (Hall ltac:(apply list_elem_of_fmap; exists x; set_solver))).
Qed.

(** An idle master hands out a task, or ends the job. *)
Lemma ask_idle m now :
  idle m -> (forall x, x ∈ elems (mapTaskQueuing m) -> State x = TaskMap) ->
  (forall x, x ∈ elems (reduceTaskQueuing m) -> State x = TaskReduce) ->
  exists m' t, AskTask m now = Val (m', t) /\ (is_work t = true \/ (is_work t = false /\ State t = TaskEnd /\ isDone m' = true)).
Proof.
  intros [Em Er] Hmq Hrq. unfold AskTask.
  destruct (Z.ltb_spec 0 (Size (reduceTaskQueuing m))) as [Hr|Hr].
  { destruct (Pop_spec _ Hr) as (l & t & Hq & ->). eexists _, _. split; [reflexivity|]. left.
    unfold is_work. simpl. rewrite (Hrq t); [done|]. rewrite Hq. simpl. set_solver. }
  destruct (Z.ltb_spec 0 (Size (mapTaskQueuing m))) as [Hm|Hm].
  { destruct (Pop_spec _ Hm) as (l & t & Hq & ->). eexists _, _. split; [reflexivity|]. left.
    unfold is_work. simpl. rewrite (Hmq t); [done|]. rewrite Hq. simpl. set_solver. }
  rewrite (proj2 (Size_zero _) Em), (proj2 (Size_zero _) Er). simpl. eexists _, _. split; [reflexivity|]. by right.
Qed.

(** A system that shows what the world [W] has, whatever its collector is about to do *)
Record shows (w : System) (W : World) : Prop := {
  sh_world : world mapf reducef files nReduce f0 W;
  sh_master : smaster (server w) = master (wjob W);
  sh_files : sfiles w = wfiles W;
  sh_collector : idle_pc (collector (server w)) }.

(** The first half of a turn: the worker asks. *)
Lemma turn_asks w W tn :
  shows w W -> idle (master (wjob W)) -> prompt tn ->
  exists w1 W1 t, remote RAsk (t_now tn) (t_ask tn) w = Val w1 /\ answer w1 (length (calls (server w))) = Some t /\
    AskTask (master (wjob W)) (t_now tn) = Val (master (wjob W1), t) /\ shows w1 W1 /\
    (forall x, x ∈ running (smaster (server w1)) -> t_now tn <= TimeStamp x) /\
    ((is_work t = true /\ t ∈ given (wjob W1)) \/
     (is_work t = false /\ State t = TaskEnd /\ isDone (smaster (server w1)) = true)).
Proof.
  intros [Hw Hm Hf Hc] Hidle Hprompt. destruct (queue_states W Hw) as [Hmq Hrq].
  destruct (ask_idle _ (t_now tn) Hidle Hmq Hrq) as (m' & t & Ha & Hcase).
  destruct (remote_alone RAsk (t_now tn) (t_ask tn) w m' (AReply t)) as (c & Hr & Hc' & Hrec); try done.
  { rewrite Hm. unfold running. destruct Hidle as [-> ->]. simpl. set_solver. }
  { intros i clock x Hx. apply (Hprompt i). set_solver. }
  { simpl bound. rewrite (proj1 (handlers_alone _ zeroTask _)), Hm, Ha. done. }
  eexists _, (mkWorld (mkJob m' (if is_work t then given (wjob W) ++ [t] else given (wjob W))
            (mapsDone (wjob W)) (reducesDone (wjob W)) (created (wjob W))) (wfiles W) (worked W)), t.
  split_and!; [exact Hr|..]; simpl.
  - unfold answer. simpl. by rewrite lookup_app_r, Nat.sub_diag by lia.
  - done.
  - constructor; try done. apply (world_step _ _ _ _ _ W (WJob (EAsk (t_now tn)))); [done|done|]. simpl. by rewrite Ha.
  - apply Hrec.
  - destruct Hcase as [->|?]; [left|by right]. set_solver.
Qed.

(** The second half: it works and reports. *)
Lemma turn_works w W tn t :
  shows w W -> t ∈ given (wjob W) -> prompt tn ->
  (forall x, x ∈ running (smaster (server w)) -> t_now tn <= TimeStamp x) ->
  exists w2 w3 W3, system_step mapf reducef w (SWork t) = Val w2 /\
    remote (RDone t) (t_now tn) (t_done tn) w2 = Val w3 /\
    TaskDone (master (wjob W)) t = Val (master (wjob W3)) /\ shows w3 W3.
Proof.
  intros [Hw Hm Hf Hc] Ht Hprompt Hrec.
  destruct (work_and_report W t Hw Ht) as (f & m2 & Hwork & Htd & (j & Hrep & Hj) & _).
  pose proof (world_step _ _ _ _ _ _ (WWork t) _ Hw Ht Hwork) as Hw2.
  pose proof (world_step _ _ _ _ _ _ (WJob (EReport t)) _ Hw2 ltac:(simpl; set_solver) Hrep) as Hw3.
  assert (work mapf reducef t (sfiles w) = Val f) as Hwk.
  { simpl in Hwork. rewrite Hf. apply bind_val in Hwork as (f' & ? & E). by injection E as <-. }
  destruct (remote_alone (RDone t) (t_now tn) (t_done tn) (mkSystem (server w) f (sworked w ++ [t])) m2 DReply)
    as (c & Hr & Hc' & _); try done.
  { intros i clock x Hx. apply (Hprompt i). set_solver. }
  { cbn [bound start server]. rewrite (proj2 (handlers_alone _ t _)), Hm, Htd. done. }
  eexists _, _, (mkWorld j f (worked W ++ [t])). split_and!; [simpl; by rewrite Hwk|exact Hr|simpl; by rewrite Hj|].
  constructor; try done.
Qed.

Lemma Worker_finishes turns w W :
  shows w W -> idle (master (wjob W)) -> (left (master (wjob W)) < length turns)%nat -> Forall prompt turns ->
  exists w' W', Worker turns w = Val (w', true) /\ shows w' W' /\ Done (smaster (server w')) = true.
Proof.
  revert w W. induction turns as [|tn turns IH]; intros w W Hs Hidle Hlen Hprompt; simpl in Hlen; [lia|].
  apply Forall_cons in Hprompt as [Htn Hprompt]. cbn [Worker].
  destruct (turn_asks w W tn Hs Hidle Htn) as (w1 & W1 & t & -> & Hans & Ha & Hs1 & Hrec & Hcase).
  cbn [mbind res_bind]. rewrite Hans. cbn [of_option mbind res_bind].
  destruct Hcase as [[His Hg]|(-> & Hend & Hd)].
  - destruct (turn_works w1 W1 tn t Hs1 Hg Htn Hrec) as (w2 & w3 & W3 & Hw2 & Hw3 & Htd & Hs3).
    rewrite His, Hw2. cbn [mbind res_bind]. rewrite Hw3. cbn [mbind res_bind].
    destruct (queue_states W (sh_world _ _ Hs)) as [Hmq Hrq].
    destruct (turn_master _ _ _ _ _ Hidle Ha Htd) as [Hidle3 Hless]; try done.
    { intros Hst. pose proof (world_world_ok mapf reducef files nReduce f0 Hinput Htext Hn _ (sh_world _ _ Hs1)) as Hok1.
      destruct (given_ok mapf reducef files nReduce f0 _ t Hok1 Hg) as [[Hok _]|[_ E]]; [apply Hok|]. by rewrite Hst in E. }
    apply (IH w3 W3); try done. lia.
  - rewrite Hend. simpl. eauto.
Qed.

End Alone.

(** ** A worker whose turns the collector leaves alone is served one at a time. *)

Definition undisturbed (tn : Turn) : Prop := forall i, t_ask tn i = [] /\ t_done tn i = [].

Section Quiet.
Variables (files : list string) (nReduce : Z) (f0 : fs).

(** A computation in which only call [k] may be on its way *)
Record only_call (k : nat) (w : System) : Prop := {
  oc_computation : computation mapf reducef one_at_a_time files nReduce f0 w;
  oc_collector : collector (server w) = CReduce;
  oc_rest : rest_but k (calls (server w)) }.

Lemma only_call_answered k k' w : only_call k w -> answered w k = true -> only_call k' w.
Proof.
  intros [? ? Hr] Ha. constructor; try done. intros i c Hi _. destruct (decide (i = k)) as [->|?]; [|by apply (Hr i)].
  right. unfold answered in Ha. rewrite Hi in Ha. by destruct c.
Qed.

Lemma accesses_quiet fuel i k now noise w w' :
  only_call k w -> (forall i, noise i = []) -> accesses fuel i k now noise w = Val w' ->
  only_call k w' /\ answered w' k = true /\ sworked w' = sworked w.
Proof.
  revert i w. induction fuel as [|fuel IH]; intros i w Hw Hn; cbn [accesses];
    (destruct (answered w k) eqn:Ha; [by intros [= <-]|]); [done|].
  rewrite Hn. cbn [collects mbind res_bind mret res_ret]. intros (w2 & Hs & Hacc)%bind_val.
  assert (only_call k w2 /\ sworked w2 = sworked w) as [Hw2 <-]; [|by apply (IH (S i))].
  pose proof Hs as Hs'. cbn [system_step] in Hs'. apply bind_val in Hs' as (s' & Hst & [= <-]). split; [|done].
  constructor; simpl.
  - eapply (computation_step _ _ _ _ _ _ w (SServe (LCall k now))); [apply Hw|done| |exact Hs].
    split; [apply Hw|]. apply Hw.
  - simpl in Hst. destruct (calls (server w) !! k) as [[r p]|]; [|injection Hst as <-; apply Hw].
    apply bind_val in Hst as ([m p'] & _ & [= <-]). apply Hw.
  - simpl in Hst. destruct (calls (server w) !! k) as [[r p]|]; [|injection Hst as <-; apply Hw].
    apply bind_val in Hst as ([m p'] & _ & [= <-]). apply rest_but_insert, Hw.
Qed.

Lemma remote_quiet r now noise w w' :
  only_call (length (calls (server w))) w -> (forall i, noise i = []) -> (forall t, r = RDone t -> t ∈ sworked w) ->
  remote r now noise w = Val w' -> (forall k, only_call k w') /\ sworked w' = sworked w.
Proof.
  intros Hw Hn Hr (w1 & [= <-] & Hacc)%bind_val.
  apply accesses_quiet in Hacc as (Hw' & Ha & Hwk); [split; [|done]; intros k; by eapply only_call_answered| |done].
  constructor; simpl; [|apply Hw|].
  - eapply (computation_step _ _ _ _ _ _ w (SServe (LArrive r))); [apply Hw| |done|done]. destruct r; simpl; auto.
  - intros i c [Hi|[Hle Hi]]%lookup_app_Some Hne; [by apply (oc_rest _ _ Hw i)|].
    apply list_lookup_singleton_Some in Hi as [E _]. lia.
Qed.

Lemma Worker_quiet turns w w' b :
  (forall k, only_call k w) -> Forall undisturbed turns -> Worker turns w = Val (w', b) ->
  computation mapf reducef one_at_a_time files nReduce f0 w'.
Proof.
  revert w. induction turns as [|tn turns IH]; intros w Hw Hq; cbn [Worker].
  { intros [= <- _]. apply (Hw 0%nat). }
  apply Forall_cons in Hq as [Htn Hq]. intros (w1 & Hask & (t & Ht & Hrest)%bind_val)%bind_val.
  apply remote_quiet in Hask as [Hw1 _]; [|done|apply Htn|done].
  destruct (is_work t) eqn:His.
  - apply bind_val in Hrest as (w2 & Hwork & (w3 & Hrep & Hrest)%bind_val).
    pose proof Hwork as Hwork'. apply bind_val in Hwork' as (f & _ & [= <-]).
    apply remote_quiet in Hrep as [Hw3 _]; [by eapply IH|simpl|apply Htn|intros ? [= <-]; simpl; set_solver].
    constructor; [|apply (Hw1 0%nat)|apply (Hw1 (length (calls (server w1))))].
    eapply (computation_step _ _ _ _ _ _ w1 (SWork t)); [apply (Hw1 0%nat)| |done|exact Hwork].
    split; [|done]. unfold answer in Ht. destruct (calls (server w1) !! _) as [[[|] []]|] eqn:Hk; try done.
    injection Ht as <-. by eapply list_elem_of_lookup_2.
  - destruct (State t =? TaskWait); [by eapply IH|]. destruct (State t =? TaskEnd); [|done].
    injection Hrest as <- _. apply (Hw1 0%nat).
Qed.

Lemma newSystem_quiet now k : only_call k (newSystem files nReduce f0 now).
Proof. constructor; [apply computation_start|done|done]. Qed.

End Quiet.

(** C15: One worker is enough, and the job ends.  Let the input files be readable and not named like files
    MapReduce writes, let the pairs Map makes of them survive the JSON encoding, and let there be at least one
    reduce task.  A single worker that does not die makes its calls access by access while the collector makes its
    own accesses at any moment in between.  If whenever the collector reads the clock the worker's task was handed
    out at most ten seconds ago, the worker is told to end after at most one request per input file and reduce
    task and one more, with no panic; the master then says the job is done, and if there was an input file, every
    file mr-out-p holds the lines of its partition. *)
Theorem one_worker_finishes files nReduce f0 now turns :
  input_ok files f0 -> Forall (Forall json_text) (pairs mapf files f0) -> 0 < nReduce ->
  length turns = (length files + Z.to_nat nReduce + 1)%nat -> Forall prompt turns ->
  exists w, Worker turns (newSystem files nReduce f0 now) = Val (w, true) /\ Done (smaster (server w)) = true /\
    (files <> [] -> forall p, 0 <= p < nReduce -> reduce_correct mapf reducef files nReduce f0 (sfiles w) p).
Proof.
  intros Hin Ht Hn Hlen Hp.
  destruct (Worker_finishes files nReduce f0 Hin Ht Hn turns (newSystem files nReduce f0 now)
              (mkWorld (startJob files nReduce now) f0 [])) as (w & W & Hw & Hs & Hd); try done.
  - constructor; try done. apply world_start.
  - unfold left, startJob, MakeMaster. simpl.
    assert (elems (foldl (fun q t => Push t q) None (imap (mapTask now nReduce (len files)) files)) =
            imap (mapTask now nReduce (len files)) files) as ->.
    { etransitivity; [exact (elems_foldl_push id _ None)|]. apply list_fmap_id. }
    rewrite length_imap. destruct (imap _ files); lia.
  - exists w. split_and!; [done|done|]. intros Hne p Hp'. destruct Hs as [Hworld Hm Hf _]. rewrite Hf.
    apply (done_outputs mapf reducef files nReduce f0 Hin Ht Hn W); try done. by rewrite <- Hm.
Qed.

End Worker.
End MrAlone.
