(* ===== verification/MrApps.v ===== *)
(** * MapReduce applications (mrapps/)

    The Map and Reduce functions of wc, indexer, crash and nocrash; their reductions do not depend on the
    order of the values, as MrPipeline.v asks.  At the end, a concrete codec and sort, and a computation
    run from beginning to end. *)

From stdpp Require Import base list gmap strings pretty sorting.
From Stdlib Require Import ZArith Lia Ascii.
From S2P Require Import Prelude MrMaster MrJob MrRace MrServe MrWorker MrReduce MrFiles MrPipeline MrAlone.
Import MrMaster MrJob MrRace MrServe MrWorker MrReduce MrFiles MrPipeline MrAlone.

Open Scope Z_scope.

Module MrApps.

(** sort.Strings: equal strings cannot be told apart, so that any sorting gives this list. *)
Definition Strings (l : list string) : list string := merge_sort String.le l.

(** strings.Join *)
Fixpoint Join (l : list string) (sep : string) : string :=
  match l with
  | [] => ""
  | [s] => s
  | s :: l' => s +:+ sep +:+ Join l' sep
  end.

(** ** mrapps/wc.go *)

Section Wc.
(** strings.FieldsFunc and unicode.IsLetter *)
Variables (FieldsFunc : string -> (Z -> bool) -> list string) (IsLetter : Z -> bool).

Definition wc_Map (filename contents : string) : list KeyValue :=
  (fun w => mkKeyValue w "1") <$> FieldsFunc contents (fun r => negb (IsLetter r)).
End Wc.

Definition wc_Reduce (key : string) (values : list string) : string := Itoa (len values).

(** ** mrapps/indexer.go *)

Section Indexer.
Variables (FieldsFunc : string -> (Z -> bool) -> list string) (IsLetter : Z -> bool).
(** The order in which [range] visits a map's keys *)
Variable (map_range : gset string -> list string).

Definition indexer_Map (document value : string) : list KeyValue :=
  (fun w => mkKeyValue w document) <$>
  map_range (list_to_set (FieldsFunc value (fun r => negb (IsLetter r)))).
End Indexer.

Definition indexer_Reduce (key : string) (values : list string) : string :=
  Itoa (len values) +:+ " " +:+ Join (Strings values) ",".

(** ** mrapps/crash.go and mrapps/nocrash.go *)

(** [r] is the random number drawn from [0, 1000); sleeping is not an effect of the model. *)
Definition crash_maybeCrash (r : Z) : res unit := if r <? 330 then Err (EFatal "os.Exit(1)") else mret tt.

Definition nocrash_maybeCrash (r : Z) : res unit :=
  if false && (r <? 500) then Err (EFatal "os.Exit(1)") else mret tt.

Definition str_len (s : string) : Z := Z.of_nat (String.length s).

Definition crash_pairs (filename contents : string) : list KeyValue :=
  [mkKeyValue "a" filename; mkKeyValue "b" (Itoa (str_len filename));
   mkKeyValue "c" (Itoa (str_len contents)); mkKeyValue "d" "xyzzy"].

Definition crash_Map (r : Z) (filename contents : string) : res (list KeyValue) :=
  crash_maybeCrash r;; mret (crash_pairs filename contents).

Definition crash_join (key : string) (values : list string) : string := Join (Strings values) " ".

Definition crash_Reduce (r : Z) (key : string) (values : list string) : res string :=
  crash_maybeCrash r;; mret (crash_join key values).

Definition nocrash_Map (r : Z) (filename contents : string) : res (list KeyValue) :=
  nocrash_maybeCrash r;; mret (crash_pairs filename contents).

Definition nocrash_Reduce (r : Z) (key : string) (values : list string) : res string :=
  nocrash_maybeCrash r;; mret (crash_join key values).

(** ** Order does not matter *)

Lemma Strings_perm l l' : l ≡ₚ l' -> Strings l = Strings l'.
Proof.
  intros Hl. unfold Strings. apply (StronglySorted_unique String.le).
  - apply (StronglySorted_merge_sort _).
  - apply (StronglySorted_merge_sort _).
  - by rewrite !merge_sort_Permutation.
Qed.

(** The reductions of all the applications are insensitive to the order of the values: counting words,
    the sorted index, and the sorted concatenation of crash.go and nocrash.go; and the latter two,
    whenever they do not crash, are the same functions. *)
Theorem reductions_order_insensitive :
  order_insensitive wc_Reduce /\ order_insensitive indexer_Reduce /\ order_insensitive crash_join /\
  (forall r1 r2 f c v, crash_Map r1 f c = Val v -> nocrash_Map r2 f c = Val v) /\
  (forall r1 r2 k vs v, crash_Reduce r1 k vs = Val v -> nocrash_Reduce r2 k vs = Val v).
Proof.
  split_and!.
  - intros k vs vs' Hp. unfold wc_Reduce, len. by rewrite Hp.
  - intros k vs vs' Hp. unfold indexer_Reduce, len. by rewrite (Strings_perm vs vs'), Hp by done.
  - intros k vs vs' Hp. unfold crash_join. by rewrite (Strings_perm vs vs').
  - intros r1 r2 f c v. unfold crash_Map, nocrash_Map, crash_maybeCrash, nocrash_maybeCrash.
    by destruct (r1 <? 330).
  - intros r1 r2 k vs v. unfold crash_Reduce, nocrash_Reduce, crash_maybeCrash, nocrash_maybeCrash.
    by destruct (r1 <? 330).
Qed.

(** ** A concrete codec and sort *)

Fixpoint ones (n : nat) : string := match n with O => "0" | S n' => String "1" (ones n') end.

(** A string behind its length in ones *)
Definition frame (s : string) : string := ones (String.length s) +:+ s.

Fixpoint split_at (n : nat) (s : string) : option (string * string) :=
  match n, s with
  | O, _ => Some ("", s)
  | S n', String c s' => '(a, b) ← split_at n' s'; Some (String c a, b)
  | S _, EmptyString => None
  end.

Fixpoint unframe (n : nat) (s : string) : option (string * string) :=
  match s with
  | String "1" s' => unframe (S n) s'
  | String "0" s' => split_at n s'
  | _ => None
  end.

Instance framed_json : Json := {
  json_encode kv := Some (frame (Key kv) +:+ frame (Value kv));
  json_decode s := '(k, r) ← unframe 0 s; '(v, r') ← unframe 0 r; Some (mkKeyValue k v, r');
  json_text _ := True }.

Instance merge_sort_ByKey : SortByKey := merge_sort (fun a b => String.le (Key a) (Key b)).

#[local] Arguments String.append : simpl nomatch.

Lemma split_at_app s r : split_at (String.length s) (s +:+ r) = Some (s, r).
Proof. induction s as [|c s IH]; simpl; [done|]. by rewrite IH. Qed.

Lemma unframe_ones k n s : unframe k (ones n +:+ s) = split_at (k + n) s.
Proof.
  revert k. induction n as [|n IH]; intros k; simpl; [by rewrite Nat.add_0_r|].
  rewrite IH. f_equal. lia.
Qed.

Lemma unframe_frame s r : unframe 0 (frame s +:+ r) = Some (s, r).
Proof. unfold frame. rewrite append_assoc, unframe_ones. apply split_at_app. Qed.

Lemma split_at_length n s a b : split_at n s = Some (a, b) -> (String.length b <= String.length s)%nat.
Proof.
  revert s a. induction n as [|n IH]; intros s a; simpl; [by intros [= _ <-]|].
  destruct s as [|c s]; [done|]. intros ([a' b'] & Hs & [= _ <-])%bind_Some. apply IH in Hs. simpl. lia.
Qed.

Lemma unframe_length s n a b : unframe n s = Some (a, b) -> (String.length b < String.length s)%nat.
Proof.
  revert n. induction s as [|c s IH]; intros n; simpl; [done|].
  destruct (decide (c = "1"%char)) as [->|H1]; [intros Hs%IH; lia|].
  destruct (decide (c = "0"%char)) as [->|H0]; [intros Hs%split_at_length; lia|].
  intros Hs. exfalso. destruct c as [[] [] [] [] [] [] [] []]; done.
Qed.

Instance framed_json_laws : JsonLaws.
Proof.
  constructor.
  - intros kv _. by eexists.
  - intros [k v] s rest _ [= <-]. simpl. rewrite append_assoc, unframe_frame. simpl. by rewrite unframe_frame.
  - done.
  - intros s kv rest. simpl. intros ([k r] & H1%unframe_length & ([v r'] & H2%unframe_length & [= _ <-])%bind_Some)%bind_Some.
    lia.
Qed.

Instance merge_sort_laws : SortLaws.
Proof.
  assert (Transitive (fun a b : KeyValue => String.le (Key a) (Key b))) as Htr
    by (intros a b c; apply (transitivity (R := String.le))).
  assert (Total (fun a b : KeyValue => String.le (Key a) (Key b))) as Hto by (intros a b; apply String.le_total).
  constructor; unfold sort_ByKey, merge_sort_ByKey.
  - intros l. apply merge_sort_Permutation.
  - intros l. pose proof (StronglySorted_merge_sort (fun a b : KeyValue => String.le (Key a) (Key b)) l) as Hs.
    induction Hs as [|x xs Hs IH Hall]; constructor; [done|]. eapply Forall_impl; [done|].
    intros y Hy. unfold Less, String.ltb, String.le, String.leb in *. rewrite String.compare_antisym.
    by destruct (String.compare (Key x) (Key y)).
Qed.

(** ** Counting words in two files, with two reduce tasks *)

(** The words of a text, separated by blanks *)
Definition blank_fields (s : string) (f : Z -> bool) : list string := String.words s.

Definition demo_map : string -> string -> list KeyValue := wc_Map blank_fields (fun _ => true).
Definition demo_files : list string := ["x"; "y"].
Definition demo_fs : fs := <["x" := "to be or not to be"]> (<["y" := "not so"]> ∅).
Definition demo_start : System := newSystem demo_files 2 demo_fs (fun _ => 0).

Lemma demo_input : input_ok demo_files demo_fs.
Proof.
  intros name [->|[->|[]%not_elem_of_nil]%elem_of_cons]%elem_of_cons;
    (split_and!; [by eexists|intros ? ? E; discriminate E|intros ? E; discriminate E]).
Qed.

Lemma demo_text : Forall (Forall json_text) (pairs demo_map demo_files demo_fs).
Proof. apply Forall_forall. intros kvs _. apply Forall_forall. done. Qed.

(** A turn that takes eight seconds, with the collector at work before every access *)
Definition slow_turn : Turn :=
  mkTurn (Second * 20) (fun _ => [fun _ => Second * 19; fun _ => Second * 20]) (fun _ => [fun _ => Second * 28]).

Lemma slow_turn_prompt : prompt slow_turn.
Proof.
  intros i clock x. simpl. intros [->|[->|[->|[]%not_elem_of_nil]%elem_of_cons]%elem_of_cons]%elem_of_cons;
    vm_compute; discriminate.
Qed.

Lemma one_worker_finishes_witness :
  exists w, Worker demo_map wc_Reduce (replicate 5 slow_turn) demo_start = Val (w, true) /\ Done (smaster (server w)) = true.
Proof.
  destruct (one_worker_finishes demo_map wc_Reduce demo_files 2 demo_fs (fun _ => 0) (replicate 5 slow_turn) demo_input demo_text)
    as (w & Hw & Hd & _); [lia|reflexivity|apply Forall_replicate, slow_turn_prompt|].
  exists w. split; [exact Hw|exact Hd].
Defined.

(** The computation after [n] turns of one worker that the collector does not disturb *)
Definition quick_turn : Turn := mkTurn 1 (fun _ => []) (fun _ => []).
Definition demo_after (n : nat) : System := (val_or (demo_start, false) (Worker demo_map wc_Reduce (replicate n quick_turn) demo_start)).1.

Lemma quick_computation files nReduce f0 now n w b :
  Worker demo_map wc_Reduce (replicate n quick_turn) (newSystem files nReduce f0 now) = Val (w, b) ->
  computation demo_map wc_Reduce one_at_a_time files nReduce f0 w.
Proof. apply Worker_quiet; [intros k; apply newSystem_quiet|]. by apply Forall_replicate. Qed.

Lemma demo_computation n : computation demo_map wc_Reduce one_at_a_time demo_files 2 demo_fs (demo_after n).
Proof.
  unfold demo_after. destruct (Worker _ _ _ _) as [[w b]|e] eqn:E; simpl; [by eapply quick_computation|apply computation_start].
Qed.

Lemma done_means_all_done_witness :
  Done (smaster (server (demo_after 5))) = true /\
  (forall p, 0 <= p < 2 -> exists t, reported (server (demo_after 5)) t /\ State t = TaskReduce /\ PartIndex t = p).
Proof.
  assert (Done (smaster (server (demo_after 5))) = true) as Hd by (vm_compute; reflexivity).
  split; [exact Hd|]. apply (done_means_all_done demo_files 2 _ (proj1 (computation_served _ _ _ _ _ _ _ (demo_computation 5))) Hd).
  discriminate.
Defined.


End MrApps.
