(* ===== verification/MrTiming.v ===== *)
(** * The timing applications (mrapps/mtiming.go, mrapps/rtiming.go)

    Pseudo-applications that test whether workers run in parallel: [nparallel] leaves a file named after the
    process, counts the files of processes that are alive, sleeps and removes its file.  Processes interleave
    at each access to the directory and at each kill(pid, 0); processes start, die and leave files behind,
    and other programs write any file of the directory and remove it.  The order of Readdirnames is a
    parameter.  What [nparallel] relies on without checking is [orderly]: other programs keep away from names that
    look like a worker's, and a pid is not used again while a file of its last owner is left. *)

From stdpp Require Import base list gmap strings pretty.
From Stdlib Require Import ZArith Lia.
From S2P Require Import Prelude Strconv MrMaster MrWorker MrReduce MrFiles MrPipeline MrApps.
Import Strconv MrWorker MrReduce MrPipeline MrApps.

Open Scope Z_scope.

Module MrTiming.

Inductive phase := PMap | PReduce.

#[global] Instance phase_eq_dec : EqDecision phase.
Proof. solve_decision. Defined.

(** What the format "mr-worker-%s-%d" has in front of the pid *)
Definition lit (ph : phase) : string :=
  match ph with PMap => "mr-worker-map-" | PReduce => "mr-worker-reduce-" end.

Definition myfilename (ph : phase) (pid : Z) : string := lit ph +:+ Itoa pid.

Definition max_names : Z := 1000000.

Section Timing.
(** The names in a directory, in the order of Readdirnames *)
Variable readdir : fs -> list string.

Definition Readdirnames (f : fs) : res (list string) :=
  match take (Z.to_nat max_names) (readdir f) with
  | [] => Err (EPanic "EOF")
  | names => mret names
  end.

(** The body of the loop over the names: what it adds to [ret]; [kill x]: [syscall.Kill(x, 0)] succeeds. *)
Definition check_name (ph : phase) (kill : Z -> bool) (name : string) : Z :=
  match Sscanf_d (lit ph) name with
  | Some xpid => if kill xpid then 1 else 0
  | None => 0
  end.

Definition Remove (name : string) (f : fs) : res fs :=
  match f !! name with
  | Some _ => mret (delete name f)
  | None => Err (EPanic "remove: no such file or directory")
  end.

(** Where a process is in [nparallel] *)
Inductive call :=
  | Idle (last : option Z)                                   (* not in a call; what the last one returned *)
  | Written (ph : phase)                                     (* its file is written *)
  | Scanning (ph : phase) (names : list string) (ret : Z).   (* in the loop over the names *)

Record World := mkWorld {
  dir : fs;
  procs : gmap Z call   (* the processes that are alive *) }.

Definition alive (w : World) (pid : Z) : bool := bool_decide (is_Some (procs w !! pid)).

(** Neither phase takes this name for the file of a worker. *)
Definition foreign (name : string) : bool :=
  bool_decide (Sscanf_d (lit PMap) name = None /\ Sscanf_d (lit PReduce) name = None).

Inductive label :=
  | TFork (pid : Z) | TDie (pid : Z)
  | TBegin (pid : Z) (ph : phase) | TList (pid : Z) | TScan (pid : Z) | TEnd (pid : Z)
  | TWrite (name content : string) | TDelete (name : string).

(** [nparallel] of each process, a section at a time; a label that is not enabled changes nothing. *)
Definition tstep (w : World) (l : label) : res World :=
  match l with
  | TFork pid =>
      if (0 <? pid) && (pid <=? max_int) && negb (alive w pid)
      then mret (mkWorld (dir w) (<[pid := Idle None]> (procs w))) else mret w
  | TDie pid => mret (mkWorld (dir w) (delete pid (procs w)))
  | TBegin pid ph =>
      match procs w !! pid with
      | Some (Idle _) => mret (mkWorld (<[myfilename ph pid := "x"]> (dir w)) (<[pid := Written ph]> (procs w)))
      | _ => mret w
      end
  | TList pid =>
      match procs w !! pid with
      | Some (Written ph) =>
          names ← Readdirnames (dir w);
          mret (mkWorld (dir w) (<[pid := Scanning ph names 0]> (procs w)))
      | _ => mret w
      end
  | TScan pid =>
      match procs w !! pid with
      | Some (Scanning ph (name :: names) ret) =>
          mret (mkWorld (dir w) (<[pid := Scanning ph names (ret + check_name ph (alive w) name)]> (procs w)))
      | _ => mret w
      end
  | TEnd pid =>
      match procs w !! pid with
      | Some (Scanning ph [] ret) =>
          f ← Remove (myfilename ph pid) (dir w);
          mret (mkWorld f (<[pid := Idle (Some ret)]> (procs w)))
      | _ => mret w
      end
  | TWrite name content => mret (mkWorld (<[name := content]> (dir w)) (procs w))
  | TDelete name => mret (mkWorld (delete name (dir w)) (procs w))
  end.

Fixpoint trun (w : World) (ls : list label) : res World :=
  match ls with
  | [] => mret w
  | l :: ls' => w' ← tstep w l; trun w' ls'
  end.

(** Any execution, from any directory without processes *)
Inductive texec : World -> Prop :=
  | texec_init f : texec (mkWorld f ∅)
  | texec_step w l w' : texec w -> tstep w l = Val w' -> texec w'.

(** A pid is not given to a new process while a file of an earlier one with it is left, and other programs write
    and remove no file whose name either phase takes for a worker's. *)
Definition orderly (w : World) (l : label) : Prop :=
  match l with
  | TFork pid => forall ph, dir w !! myfilename ph pid = None
  | TWrite name _ | TDelete name => foreign name = true
  | _ => True
  end.

(** Orderly executions from a directory without files of workers *)
Inductive treach : World -> Prop :=
  | treach_init f : (forall name, is_Some (f !! name) -> foreign name = true) -> treach (mkWorld f ∅)
  | treach_step w l w' : treach w -> orderly w l -> tstep w l = Val w' -> treach w'.

(** ** The applications *)

(** mtiming.go; [ts] is the time formatted with "%.1f", [n] what [nparallel("map")] returned. *)
Definition mtiming_Map (pid n : Z) (ts : string) (filename contents : string) : list KeyValue :=
  [mkKeyValue ("times-" +:+ Itoa pid) ts; mkKeyValue ("parallel-" +:+ Itoa pid) (Itoa n)].

Definition mtiming_Reduce (key : string) (values : list string) : string := Join (Strings values) " ".

(** rtiming.go; [n] is what [nparallel("reduce")] returned. *)
Definition rtiming_Map (filename contents : string) : list KeyValue :=
  (fun k => mkKeyValue k "1") <$> ["a"; "b"; "c"; "d"; "e"; "f"; "g"; "h"; "i"; "j"].

Definition rtiming_Reduce (n : Z) (key : string) (values : list string) : string := Itoa n.

(** ** Files and calls *)

(** In [nparallel(ph)], between writing the file and removing it *)
Definition in_phase (ph : phase) (c : call) : bool :=
  match c with Idle _ => false | Written ph' | Scanning ph' _ _ => bool_decide (ph' = ph) end.

Definition calling (w : World) (ph : phase) : gset Z := dom (filter (fun x => in_phase ph x.2 = true) (procs w)).

Lemma elem_of_calling w ph pid : pid ∈ calling w ph <-> exists c, procs w !! pid = Some c /\ in_phase ph c = true.
Proof. unfold calling. rewrite elem_of_dom. unfold is_Some. by setoid_rewrite map_lookup_filter_Some. Qed.

Lemma Sscanf_myfilename ph pid : 0 <= pid <= max_int -> Sscanf_d (lit ph) (myfilename ph pid) = Some pid.
Proof. apply Sscanf_pretty. Qed.

Lemma Sscanf_other ph ph' pid x : Sscanf_d (lit ph) (myfilename ph' pid) = Some x -> ph = ph'.
Proof. by destruct ph, ph'. Qed.

Lemma myfilename_inj ph ph' pid pid' : myfilename ph pid = myfilename ph' pid' -> ph = ph' /\ pid = pid'.
Proof.
  intros H. assert (ph = ph') as <- by (by destruct ph, ph'). split; [done|].
  unfold myfilename in H. apply (inj (String.append (lit ph))) in H. by apply (inj pretty) in H.
Qed.

Lemma myfilename_not_foreign ph pid : 0 <= pid <= max_int -> foreign (myfilename ph pid) = false.
Proof.
  intros Hp. apply bool_decide_eq_false. pose proof (Sscanf_myfilename ph pid Hp) as E.
  destruct ph; rewrite E; naive_solver.
Qed.

(** A name that a phase takes for the file of a worker is the file of a worker; a live process has a file
    exactly while it is in a call. *)
Record world_ok (w : World) : Prop := {
  wo_pid : forall pid, is_Some (procs w !! pid) -> 0 < pid <= max_int;
  wo_names : forall name ph x, is_Some (dir w !! name) -> Sscanf_d (lit ph) name = Some x ->
    name = myfilename ph x /\ 0 < x <= max_int;
  wo_file : forall pid c ph, procs w !! pid = Some c ->
    is_Some (dir w !! myfilename ph pid) <-> in_phase ph c = true }.

(** A process that changes its place without changing its phase *)
Lemma world_ok_move w pid c c' :
  world_ok w -> procs w !! pid = Some c -> (forall ph, in_phase ph c' = in_phase ph c) ->
  world_ok (mkWorld (dir w) (<[pid := c']> (procs w))).
Proof.
  intros [Hp Hn Hf] Hc Hph. split; simpl; [| done |].
  - intros q. rewrite lookup_insert_is_Some. intros [<-|[_ ?]]; by apply Hp.
  - intros q d ph [[<- <-]|[_ Hq]]%lookup_insert_Some; [|by apply Hf]. by rewrite Hph, (Hf _ _ _ Hc).
Qed.

Lemma fork_ok w pid :
  world_ok w -> (forall ph, dir w !! myfilename ph pid = None) -> 0 < pid <= max_int ->
  world_ok (mkWorld (dir w) (<[pid := Idle None]> (procs w))).
Proof.
  intros [Hp Hn Hf] Hfr Hb. split; simpl; [|done|].
  - intros q. rewrite lookup_insert_is_Some. intros [<-|[_ ?]]; [lia|by apply Hp].
  - intros q c ph [[<- <-]|[_ Hq]]%lookup_insert_Some; [|by apply Hf].
    rewrite Hfr. simpl. split; [by intros [? [=]]|done].
Qed.

Lemma die_ok w pid : world_ok w -> world_ok (mkWorld (dir w) (delete pid (procs w))).
Proof.
  intros [Hp Hn Hf]. split; simpl; [|done|].
  - intros q [c [_ Hq]%lookup_delete_Some]. apply Hp. eauto.
  - intros q c ph [_ Hq]%lookup_delete_Some. by apply Hf.
Qed.

Lemma begin_ok w pid ph last :
  world_ok w -> procs w !! pid = Some (Idle last) ->
  world_ok (mkWorld (<[myfilename ph pid := "x"]> (dir w)) (<[pid := Written ph]> (procs w))).
Proof.
  intros [Hp Hn Hf] Hpid. assert (0 < pid <= max_int) as Hb by (apply Hp; eauto). split; simpl.
  - intros q. rewrite lookup_insert_is_Some. intros [<-|[_ ?]]; [done|by apply Hp].
  - intros name ph' x. rewrite lookup_insert_is_Some. intros [<-|[_ ?]] Hx; [|by apply Hn].
    pose proof (Sscanf_other _ _ _ _ Hx) as ->. rewrite Sscanf_myfilename in Hx by lia. by injection Hx as <-.
  - intros q c ph' [[<- <-]|[Hne Hq]]%lookup_insert_Some; simpl.
    + rewrite lookup_insert_is_Some, bool_decide_eq_true. pose proof (Hf _ _ ph' Hpid) as Hold. simpl in Hold.
      split; [|intros ->; by left]. intros [[Hph _]%myfilename_inj|[_ Hd]]; [done|]. apply Hold in Hd. done.
    + rewrite lookup_insert_ne; [by apply Hf|]. by intros [_ ?]%myfilename_inj.
Qed.

Lemma end_ok w pid ph names ret :
  world_ok w -> procs w !! pid = Some (Scanning ph names ret) ->
  world_ok (mkWorld (delete (myfilename ph pid) (dir w)) (<[pid := Idle (Some ret)]> (procs w))).
Proof.
  intros [Hp Hn Hf] Hpid. split; simpl.
  - intros q. rewrite lookup_insert_is_Some. intros [<-|[_ ?]]; apply Hp; eauto.
  - intros name ph' x [y [_ Hy]%lookup_delete_Some]. apply Hn. eauto.
  - intros q c ph' [[<- <-]|[Hne Hq]]%lookup_insert_Some; simpl.
    + split; [|done]. intros [y [Hny Hy]%lookup_delete_Some].
      pose proof (proj1 (Hf _ _ ph' Hpid) (mk_is_Some _ _ Hy)) as Hin. simpl in Hin.
      apply bool_decide_eq_true in Hin as ->. done.
    + rewrite lookup_delete_ne; [by apply Hf|]. by intros [_ ?]%myfilename_inj.
Qed.

(** Files of other programs *)
Lemma foreign_ok w f :
  world_ok w -> (forall name, foreign name = false -> f !! name = dir w !! name) -> world_ok (mkWorld f (procs w)).
Proof.
  intros [Hp Hn Hf] Heq. split; simpl; [done| |].
  - intros name ph x Hname Hx. apply Hn; [|done]. rewrite <- Heq; [done|]. apply bool_decide_eq_false.
    destruct ph; rewrite Hx; naive_solver.
  - intros q c ph Hq. rewrite Heq; [by apply Hf|]. apply myfilename_not_foreign.
    specialize (Hp q (mk_is_Some _ _ Hq)). lia.
Qed.

Lemma tstep_ok w l w' : world_ok w -> orderly w l -> tstep w l = Val w' -> world_ok w'.
Proof.
  intros Hw Hfr Hs. destruct l as [pid|pid|pid ph|pid|pid|pid|name content|name]; simpl in Hs.
  - destruct (_ && _) eqn:E; [|by injection Hs as <-]. injection Hs as <-.
    apply andb_true_iff in E as [[E1 E2]%andb_true_iff E3]. apply fork_ok; [done|done|lia].
  - injection Hs as <-. by apply die_ok.
  - destruct (procs w !! pid) as [[last|ph'|ph' names ret]|] eqn:Hpid; try by injection Hs as <-.
    injection Hs as <-. by eapply begin_ok.
  - destruct (procs w !! pid) as [[last|ph'|ph' names ret]|] eqn:Hpid; try by injection Hs as <-.
    apply bind_val in Hs as (names & _ & [= <-]). by eapply world_ok_move.
  - destruct (procs w !! pid) as [[last|ph'|ph' [|name names] ret]|] eqn:Hpid; try by injection Hs as <-.
    injection Hs as <-. by eapply world_ok_move.
  - destruct (procs w !! pid) as [[last|ph'|ph' [|name names] ret]|] eqn:Hpid; try by injection Hs as <-.
    apply bind_val in Hs as (f & Hrm & [= <-]). unfold Remove in Hrm.
    destruct (dir w !! myfilename ph' pid) eqn:Hd; [|done]. injection Hrm as <-. by eapply end_ok.
  - injection Hs as <-. apply foreign_ok; [done|]. intros n Hfn. apply lookup_insert_ne. simpl in Hfr. congruence.
  - injection Hs as <-. apply foreign_ok; [done|]. intros n Hfn. apply lookup_delete_ne. simpl in Hfr. congruence.
Qed.

Lemma treach_ok w : treach w -> world_ok w.
Proof.
  induction 1 as [f Hf|w l w' _ IH Hfr Hs]; [|by eapply tstep_ok].
  split; simpl; [by intros ? [? ?%lookup_empty_Some]| |by intros ? ? ? ?%lookup_empty_Some].
  intros name ph x Hname Hx. apply Hf, bool_decide_eq_true in Hname as [H1 H2]. by destruct ph; rewrite Hx in *.
Qed.

(** ** What is counted *)

Definition total (ph : phase) (kill : Z -> bool) (names : list string) : Z :=
  foldr (fun name n => check_name ph kill name + n) 0 names.

(** The live processes whose files are among the names *)
Definition counted (ph : phase) (kill : Z -> bool) (names : list string) : list Z :=
  filter (fun x => kill x = true) (omap (Sscanf_d (lit ph)) names).

Lemma total_counted ph kill names : total ph kill names = len (counted ph kill names).
Proof.
  unfold counted. induction names as [|name names IH]; [done|]. simpl. rewrite IH. unfold check_name.
  destruct (Sscanf_d (lit ph) name) as [x|]; [|done]. rewrite filter_cons. unfold len.
  destruct (kill x) eqn:Ek; [rewrite decide_True by done|rewrite decide_False by done]; cbn [length]; unfold omap; lia.
Qed.

Lemma elem_of_counted w ph names pid :
  world_ok w -> names ≡ₚ (map_to_list (dir w)).*1 -> pid ∈ counted ph (alive w) names <-> pid ∈ calling w ph.
Proof.
  intros Hw Hn. unfold counted. rewrite list_elem_of_filter, list_elem_of_omap, elem_of_calling.
  setoid_rewrite Hn. assert (forall name, name ∈ (map_to_list (dir w)).*1 <-> is_Some (dir w !! name)) as Hd.
  { intros name. rewrite list_elem_of_fmap. split.
    - intros ([k v] & -> & Hin%elem_of_map_to_list). simpl. eauto.
    - intros [v Hv%elem_of_map_to_list]. by exists (name, v). }
  split.
  - intros [[c Hc]%bool_decide_eq_true (name & Hin%Hd & Hx)]. exists c. split; [done|].
    destruct (wo_names _ Hw _ _ _ Hin Hx) as [-> _]. by apply (wo_file _ Hw pid c ph Hc).
  - intros (c & Hc & Hph). split; [apply bool_decide_eq_true; eauto|]. exists (myfilename ph pid).
    rewrite Hd. split; [by apply (wo_file _ Hw pid c ph Hc)|]. apply Sscanf_myfilename.
    pose proof (wo_pid _ Hw pid (mk_is_Some _ _ Hc)). lia.
Qed.

Lemma NoDup_counted w ph names :
  world_ok w -> names ≡ₚ (map_to_list (dir w)).*1 -> NoDup (counted ph (alive w) names).
Proof.
  intros Hw Hn. apply NoDup_filter. assert (NoDup names) as Hnd by (rewrite Hn; apply NoDup_fst_map_to_list).
  assert (forall name, name ∈ names -> is_Some (dir w !! name)) as Hd.
  { intros name. rewrite Hn, list_elem_of_fmap. intros ([k v] & -> & Hin%elem_of_map_to_list). simpl. eauto. }
  clear Hn. induction Hnd as [|name names Hni Hnd IH]; simpl; [constructor|].
  assert (NoDup (omap (Sscanf_d (lit ph)) names)) as IH' by (apply IH; set_solver).
  destruct (Sscanf_d (lit ph) name) as [x|] eqn:Hx; [|done]. constructor; [|done].
  rewrite list_elem_of_omap. intros (name' & Hin & Hx').
  destruct (wo_names _ Hw name ph x) as [-> _]; [apply Hd; set_solver|done|].
  destruct (wo_names _ Hw name' ph x) as [-> _]; [apply Hd; set_solver|done|]. done.
Qed.

(** The whole loop, with the processes of [w] alive throughout *)
Lemma total_calling w ph names :
  world_ok w -> names ≡ₚ (map_to_list (dir w)).*1 ->
  total ph (alive w) names = Z.of_nat (size (calling w ph)).
Proof.
  intros Hw Hn. rewrite total_counted. unfold len. f_equal.
  rewrite <- (size_list_to_set (C := gset Z)) by (by apply (NoDup_counted w)).
  f_equal. apply set_eq. intros pid. rewrite elem_of_list_to_set. by apply elem_of_counted.
Qed.

Hypothesis readdir_perm : forall f, readdir f ≡ₚ (map_to_list f).*1.

Lemma Readdirnames_all f names :
  Z.of_nat (size f) <= max_names -> Readdirnames f = Val names -> names ≡ₚ (map_to_list f).*1.
Proof.
  intros Hs. unfold Readdirnames. rewrite take_ge.
  - rewrite <- readdir_perm. destruct (readdir f); [done|]. by intros [= <-].
  - rewrite readdir_perm, length_fmap, length_map_to_list. lia.
Qed.

(** While process [p] is in its loop no process starts or dies, and [p] does not leave it. *)
Definition quiet (p : Z) (l : label) : Prop :=
  match l with TFork _ | TDie _ => False | TEnd q => q <> p | _ => True end.

(** A quiet step keeps the processes; [p] in its loop goes on with it or stays. *)
Lemma quiet_step w l w' p ph names ret :
  quiet p l -> tstep w l = Val w' -> procs w !! p = Some (Scanning ph names ret) ->
  (forall q, alive w' q = alive w q) /\
  exists names' ret', procs w' !! p = Some (Scanning ph names' ret') /\
    ret' + total ph (alive w) names' = ret + total ph (alive w) names.
Proof.
  intros Hq Hs Hp.
  assert (forall q c c' f, procs w !! q = Some c -> w' = mkWorld f (<[q := c']> (procs w)) ->
    forall x, alive w' x = alive w x) as Hal.
  { intros q c c' f Hc -> x. unfold alive. simpl. apply bool_decide_ext. rewrite lookup_insert_is_Some.
    destruct (decide (q = x)) as [->|]; naive_solver. }
  assert (forall q c' f, q <> p -> w' = mkWorld f (<[q := c']> (procs w)) ->
    procs w' !! p = Some (Scanning ph names ret)) as Hne by (intros q c' f ? ->; simpl; by rewrite lookup_insert_ne).
  destruct l as [q|q|q ph'|q|q|q|name content|name]; simpl in Hs, Hq; try done.
  - destruct (procs w !! q) as [[last|ph2|ph2 ns rt]|] eqn:Hpq; try (injection Hs as <-; by eauto).
    injection Hs as <-. split; [eapply Hal; [exact Hpq|reflexivity]|]. exists names, ret. split; [|done]. eapply (Hne q); [congruence|reflexivity].
  - destruct (procs w !! q) as [[last|ph2|ph2 ns rt]|] eqn:Hpq; try (injection Hs as <-; by eauto).
    apply bind_val in Hs as (ns & _ & [= <-]). split; [eapply Hal; [exact Hpq|reflexivity]|]. exists names, ret. split; [|done].
    eapply (Hne q); [congruence|reflexivity].
  - destruct (procs w !! q) as [[last|ph2|ph2 [|n ns] rt]|] eqn:Hpq; try (injection Hs as <-; by eauto).
    injection Hs as <-. split; [eapply Hal; [exact Hpq|reflexivity]|]. destruct (decide (q = p)) as [->|Hqp].
    + rewrite Hp in Hpq. injection Hpq as <- -> ->. exists ns, (rt + check_name ph (alive w) n). simpl.
      rewrite lookup_insert_eq. split; [done|lia].
    + exists names, ret. split; [eapply (Hne q); [done|reflexivity]|done].
  - destruct (procs w !! q) as [[last|ph2|ph2 [|n ns] rt]|] eqn:Hpq; try (injection Hs as <-; by eauto).
    apply bind_val in Hs as (f & _ & [= <-]). split; [eapply Hal; [exact Hpq|reflexivity]|]. exists names, ret. split; [eapply (Hne q); [done|reflexivity]|done].
  - injection Hs as <-. by eauto.
  - injection Hs as <-. by eauto.
Qed.

Lemma total_ext ph kill kill' names : (forall x, kill x = kill' x) -> total ph kill names = total ph kill' names.
Proof.
  intros Hk. induction names as [|n ns IH]; [done|]. simpl. rewrite IH. f_equal. unfold check_name.
  destruct (Sscanf_d (lit ph) n); [|done]. by rewrite Hk.
Qed.

Lemma quiet_run ls w w' p ph names ret :
  Forall (quiet p) ls -> trun w ls = Val w' -> procs w !! p = Some (Scanning ph names ret) ->
  exists names' ret', procs w' !! p = Some (Scanning ph names' ret') /\
    ret' + total ph (alive w) names' = ret + total ph (alive w) names.
Proof.
  revert w names ret. induction ls as [|l ls IH]; intros w names ret Hq Hr Hp; simpl in Hr.
  { injection Hr as <-. eauto. }
  apply Forall_cons in Hq as [Hq Hqs]. apply bind_val in Hr as (w1 & Hs & Hr).
  destruct (quiet_step _ _ _ _ _ _ _ Hq Hs Hp) as (Hal & n1 & r1 & Hp1 & E1).
  destruct (IH w1 n1 r1 Hqs Hr Hp1) as (n2 & r2 & Hp2 & E2). exists n2, r2. split; [done|].
  rewrite !(total_ext ph (alive w1) (alive w)) in E2 by done. lia.
Qed.

(** C38: [nparallel] counts the workers that are in it.  Let the directory hold no file named like a worker's at
    first, let other programs write and remove no file so named, let a pid not be used again while a file of an
    earlier process with it is left ([treach]), and let the directory hold at most a million names.  Then in any
    interleaving of processes that start, die, begin, scan and end: if no process starts or dies while process
    [p] is in its loop, what [p] has counted at its end is the number of processes, itself included, that were in
    [nparallel] of the same phase when it listed the directory; files that dead processes have left do not
    count. *)
Theorem nparallel_counts w p ph ls w' ret :
  treach w -> procs w !! p = Some (Written ph) -> Z.of_nat (size (dir w)) <= max_names ->
  trun w (TList p :: ls) = Val w' -> Forall (quiet p) ls -> procs w' !! p = Some (Scanning ph [] ret) ->
  ret = Z.of_nat (size (calling w ph)) /\ p ∈ calling w ph.
Proof.
  intros Hw Hp Hsz Hr Hq Hp'. apply treach_ok in Hw. simpl in Hr. rewrite Hp in Hr.
  apply bind_val in Hr as (w1 & (names & Hn & [= <-])%bind_val & Hr).
  destruct (quiet_run _ _ _ p ph names 0 Hq Hr) as (n2 & r2 & Hp2 & E); [simpl; by rewrite lookup_insert_eq|].
  rewrite Hp' in Hp2. injection Hp2 as <- <-. simpl in E. split.
  - rewrite <- (total_calling w ph names Hw) by (by eapply Readdirnames_all). rewrite Z.add_0_r in E. rewrite E.
    apply total_ext. intros x. unfold alive. simpl. apply bool_decide_ext. rewrite lookup_insert_is_Some.
    destruct (decide (p = x)) as [->|]; naive_solver.
  - apply elem_of_calling. exists (Written ph). split; [done|]. by apply bool_decide_eq_true.
Qed.

(** Neither the directory is empty when it is read nor the file gone when it is removed: no step of
    [nparallel] panics. *)
Theorem nparallel_no_panic w l : treach w -> exists w', tstep w l = Val w'.
Proof.
  intros Hw%treach_ok. destruct l as [q|q|q ph'|q|q|q|name content|name]; simpl; repeat case_match; eauto.
  - assert (is_Some (dir w !! myfilename ph q)) as [x Hx] by (apply (wo_file _ Hw q _ ph H); by apply bool_decide_eq_true).
    unfold Readdirnames. destruct (readdir (dir w)) as [|n ns] eqn:E.
    + exfalso. pose proof (readdir_perm (dir w)) as Hpm. rewrite E in Hpm. apply Permutation_nil_l in Hpm.
      assert (myfilename ph q ∈ (map_to_list (dir w)).*1) as Hin.
      { apply list_elem_of_fmap. exists (myfilename ph q, x). split; [done|by apply elem_of_map_to_list]. }
      rewrite <- Hpm in Hin. by apply elem_of_nil in Hin.
    + destruct (Z.to_nat max_names) as [|m] eqn:Em; [by unfold max_names in Em; lia|]. simpl. eauto.
  - assert (is_Some (dir w !! myfilename ph q)) as [x Hx] by (apply (wo_file _ Hw q _ ph H); by apply bool_decide_eq_true).
    unfold Remove. rewrite Hx. simpl. eauto.
Qed.

End Timing.

(** Values of Map and Reduce depend on the order of neither the values nor the pairs. *)
Lemma timing_order_insensitive n : order_insensitive mtiming_Reduce /\ order_insensitive (rtiming_Reduce n).
Proof. split; intros k vs vs' Hp; [|done]. unfold mtiming_Reduce. by rewrite (Strings_perm vs vs'). Qed.

(** ** Three workers: one dies in its call, the others see each other *)

Definition sorted_dir (f : fs) : list string := (map_to_list f).*1.

Definition two_of_three : list label :=
  [TFork 100; TFork 200; TFork 300; TWrite "mr-0-1" "kv"; TBegin 100 PMap; TBegin 200 PMap; TBegin 300 PMap; TDie 300].

Definition before_count : World :=
  val_or (mkWorld ∅ ∅) (trun sorted_dir (mkWorld ∅ ∅) two_of_three).

Definition after_count : World :=
  val_or (mkWorld ∅ ∅) (trun sorted_dir before_count ([TList 100] ++ replicate 4 (TScan 100))).

Lemma before_count_reach : treach sorted_dir before_count.
Proof.
  assert (forall ls w w', treach sorted_dir w -> trun sorted_dir w ls = Val w' ->
    Forall (fun l => match l with TFork q => False | TWrite n _ | TDelete n => foreign n = true | _ => True end) ls -> treach sorted_dir w') as Hrun.
  { induction ls as [|l ls IH]; intros w w' Hw; simpl; [by intros [= <-]|].
    intros (w1 & Hs & Hr)%bind_val [Hl Hls]%Forall_cons. eapply IH; [|done..].
    eapply treach_step; [done| |done]. by destruct l. }
  pose (w3 := mkWorld ∅ {[100 := Idle None; 200 := Idle None; 300 := Idle None]}).
  assert (treach sorted_dir w3) as H3.
  { apply (treach_step _ (mkWorld ∅ {[100 := Idle None; 200 := Idle None]}) (TFork 300)); [|by intros ph|vm_compute; reflexivity].
    apply (treach_step _ (mkWorld ∅ {[100 := Idle None]}) (TFork 200)); [|by intros ph|vm_compute; reflexivity].
    apply (treach_step _ (mkWorld ∅ ∅) (TFork 100)); [|by intros ph|vm_compute; reflexivity].
    apply treach_init. by intros name [? ?%lookup_empty_Some]. }
  apply (Hrun (drop 3 two_of_three) w3); [done|vm_compute; reflexivity|by repeat constructor].
Qed.

Definition reuse : list label :=
  [TFork 100; TBegin 100 PMap; TDie 100; TFork 100; TFork 200; TBegin 200 PMap; TList 200; TScan 200; TScan 200].
Definition after_reuse : World := val_or (mkWorld ∅ ∅) (trun sorted_dir (mkWorld ∅ ∅) reuse).

(** Without the conditions the count can be too high: process 100 dies in its call and leaves its file; a new
    process gets its pid, and process 200, alone in [nparallel], counts 2. *)
Lemma reused_pid_counts :
  exists w, texec sorted_dir w /\ procs w !! 200 = Some (Scanning PMap [] 2) /\ calling w PMap = {[ 200 ]}.
Proof.
  assert (forall ls w w', texec sorted_dir w -> trun sorted_dir w ls = Val w' -> texec sorted_dir w') as Hrun.
  { induction ls as [|l ls IH]; intros w w' Hw; simpl; [by intros [= <-]|].
    intros (w1 & Hs & Hr)%bind_val. eapply IH; [|done]. by eapply texec_step. }
  exists after_reuse. split_and!; [|by vm_compute..]. apply (Hrun reuse (mkWorld ∅ ∅)); [apply texec_init|by vm_compute].
Qed.

(** Process 100 counts 2: itself and process 200. *)
Lemma nparallel_counts_witness : procs after_count !! 100 = Some (Scanning PMap [] 2) /\ 2 = Z.of_nat (size (calling before_count PMap)).
Proof.
  split; [vm_compute; reflexivity|].
  apply (nparallel_counts sorted_dir (fun f => reflexivity _) before_count 100 PMap (replicate 4 (TScan 100)) after_count 2).
  - exact before_count_reach.
  - vm_compute. reflexivity.
  - vm_compute. discriminate.
  - vm_compute. reflexivity.
  - by repeat constructor.
  - vm_compute. reflexivity.
Defined.

End MrTiming.
