(* ===== verification/MrMain.v ===== *)
(** * The commands of MapReduce (main/mrmaster.go, main/mrworker.go, main/mrsequential.go) and their sockets

    How the commands read their arguments, load the application from a plugin, and find each other: the master
    listens on a socket named after the user, and a worker dials it for every call.  A plugin is what
    plugin.Open and Lookup say it is; the sockets of a machine are a set of names; os.Exit and log.Fatal are
    errors. *)

From stdpp Require Import base list gmap strings pretty.
From Stdlib Require Import ZArith Lia.
From S2P Require Import Prelude MrMaster MrJob MrRace MrServe MrWorker MrReduce MrFiles MrPipeline MrAlone MrApps.
Import MrMaster MrJob MrRace MrServe MrWorker MrReduce MrFiles MrPipeline MrAlone MrApps.

Open Scope Z_scope.

Module MrMain.

Notation mapT := (string -> string -> list KeyValue) (only parsing).
Notation reduceT := (string -> list string -> string) (only parsing).

(** ** Plugins *)

(** What a plugin exports under a name, by its type *)
Inductive symbol := SymMap (f : mapT) | SymReduce (f : reduceT) | SymOther.

(** plugin.Open, and Lookup in what it opened; [None] is an error. *)
Notation plugins := (string -> option (string -> option symbol)) (only parsing).

(** The same code in mrworker.go and mrsequential.go *)
Definition loadPlugin (Open : plugins) (filename : string) : res (mapT * reduceT) :=
  p ← of_option (EFatal "cannot load plugin") (Open filename);
  xmapf ← of_option (EFatal "cannot find Map") (p "Map");
  mapf ← match xmapf with SymMap f => mret f | _ => Err (EPanic "interface conversion") end;
  xreducef ← of_option (EFatal "cannot find Reduce") (p "Reduce");
  reducef ← match xreducef with SymReduce f => mret f | _ => Err (EPanic "interface conversion") end;
  mret (mapf, reducef).

(** ** Sockets *)

(** [uid]: os.Getuid() *)
Definition masterSock (uid : Z) : string := "/var/tmp/824-mr-" +:+ Itoa uid.

(** [server]: an old socket of the name is removed; [listen]: net.Listen succeeds. *)
Definition server (uid : Z) (listen : bool) (socks : gset string) : res (gset string) :=
  let sockname := masterSock uid in
  let socks1 := socks ∖ {[ sockname ]} in
  if listen then mret ({[ sockname ]} ∪ socks1) else Err (EFatal "listen error:").

(** [call]: the success and the reply, which stays as it was if the call fails ([handler] gives [None]). *)
Definition call {A R} (uid : Z) (socks : gset string) (handler : string -> A -> option R) (rpcname : string) (args : A) (reply : R)
    : res (bool * R) :=
  if bool_decide (masterSock uid ∈ socks) then
    match handler rpcname args with
    | Some r => mret (true, r)
    | None => mret (false, reply)
    end
  else Err (EFatal "dialing:").

(** The answer of [AskTask], or the zero [TaskInfo] after a failed call *)
Definition CallAskTask (uid : Z) (socks : gset string) (handler : string -> Z -> option TaskInfo) : res TaskInfo :=
  '(_, reply) ← call uid socks handler "Master.AskTask" 0 zeroTask; mret reply.

Definition CallTaskDone (uid : Z) (socks : gset string) (handler : string -> TaskInfo -> option Z) (taskInfo : TaskInfo) : res Z :=
  '(_, reply) ← call uid socks handler "Master.TaskDone" taskInfo 0; mret reply.

(** [Master.Example] and the number [CallExample] prints *)
Definition Example_ (X : Z) : Z := wrap64 (X + 1).

Definition CallExample (uid : Z) (socks : gset string) (handler : string -> Z -> option Z) : res Z :=
  '(_, Y) ← call uid socks handler "Master.Example" 99 0; mret Y.

(** ** The commands *)

Section Commands.
Context `{Json} `{SortByKey}.
Variable Open : plugins.

Definition mrsequential_main (args : list string) (f : fs) : res fs :=
  if len args <? 3 then Err (EFatal "Usage: mrsequential xxx.so inputfiles...")
  else
    so ← go_index args 1;
    '(mapf, reducef) ← loadPlugin Open so;
    files ← go_slice args 2 (len args);
    mrsequential mapf reducef files f.

(** What mrworker hands to [Worker] *)
Definition mrworker_main (args : list string) : res (mapT * reduceT) :=
  if negb (len args =? 2) then Err (EFatal "Usage: mrworker xxx.so")
  else so ← go_index args 1; loadPlugin Open so.

(** The loop of mrmaster: the turn in which the master says it is done, if there is one before [fuel]
    turns are over; [view k] is the master in turn [k]. *)
Fixpoint poll (view : nat -> Master) (k fuel : nat) : option nat :=
  match fuel with
  | O => None
  | S fuel' => if Done (view k) then Some k else poll view (S k) fuel'
  end.

(** The master mrmaster makes, and the sockets then *)
Definition mrmaster_start (args : list string) (uid : Z) (listen : bool) (socks : gset string) (now : nat -> Z)
    : res (Master * gset string) :=
  if len args <? 2 then Err (EFatal "Usage: mrmaster inputfiles...")
  else
    files ← go_slice args 1 (len args);
    socks' ← server uid listen socks;
    mret (MakeMaster files 10 now, socks').

(** [view m k] is what has become of the master [m] in turn [k]. *)
Definition mrmaster_main (args : list string) (uid : Z) (listen : bool) (socks : gset string) (now : nat -> Z)
    (view : Master -> nat -> Master) (fuel : nat) : res (option nat) :=
  '(m, _) ← mrmaster_start args uid listen socks now;
  mret (poll (view m) 0 fuel).

(** One turn of [Worker] with the call it makes: the task, and the files after the work *)
Definition worker_turn (mapf : mapT) (reducef : reduceT) (uid : Z) (socks : gset string)
    (handler : string -> Z -> option TaskInfo) (f : fs) : res (TaskInfo * fs) :=
  t ← CallAskTask uid socks handler;
  if is_work t then f' ← work mapf reducef t f; mret (t, f')
  else if (State t =? TaskWait) || (State t =? TaskEnd) then mret (t, f)
  else Err (EPanic "Invalid Task state").

(** ** Properties *)

Lemma poll_Some view k fuel n : poll view k fuel = Some n -> Done (view n) = true /\ (k <= n)%nat.
Proof.
  revert k. induction fuel as [|fuel IH]; intros k; simpl; [done|].
  destruct (Done (view k)) eqn:E; [by intros [= <-]|]. intros [? ?]%IH. split; [done|lia].
Qed.

Lemma poll_finds view k fuel n :
  (k <= n < k + fuel)%nat -> Done (view n) = true -> exists n', poll view k fuel = Some n' /\ (n' <= n)%nat.
Proof.
  revert k. induction fuel as [|fuel IH]; intros k Hn Hd; [lia|]. simpl.
  destruct (Done (view k)) eqn:E; [exists k; split; [done|lia]|].
  apply IH; [|done]. destruct (decide (n = k)) as [->|]; [congruence|lia].
Qed.

Lemma masterSock_inj u u' : masterSock u = masterSock u' -> u = u'.
Proof. intros E%append_inv_head. by apply Itoa_inj. Qed.

(** A worker reaches the master of its user, whatever was there before, and no other user's. *)
Lemma server_call {A R} uid uid' socks socks' (handler : string -> A -> option R) name args reply :
  server uid true socks = Val socks' ->
  (exists r, call uid socks' handler name args reply = Val r) /\
  (masterSock uid' ∉ socks -> uid' <> uid -> call uid' socks' handler name args reply = Err (EFatal "dialing:")).
Proof.
  intros [= <-]. unfold call. split.
  - rewrite bool_decide_eq_true_2 by set_solver. destruct (handler name args); eauto.
  - intros Hn Hu. rewrite bool_decide_eq_false_2; [done|].
    intros [->%elem_of_singleton%masterSock_inj|?%elem_of_difference]%elem_of_union; naive_solver.
Qed.

(** The zero [TaskInfo] is a map task without a file: a worker whose call fails ends with an error. *)
Lemma failed_ask_fatal mapf reducef uid socks handler f :
  masterSock uid ∈ socks -> handler "Master.AskTask" 0 = None -> f !! "" = None ->
  worker_turn mapf reducef uid socks handler f = Err (EFatal "cannot open").
Proof.
  intros Hu Hh Hf. unfold worker_turn, CallAskTask, call. rewrite bool_decide_eq_true_2, Hh by done. simpl.
  unfold work, workerMap, readFile. simpl. by rewrite Hf.
Qed.

End Commands.


(** ** Counting words with the commands *)

Definition wc_plugin : plugins :=
  fun name => if String.eqb name "wc.so"
              then Some (fun sym => if String.eqb sym "Map" then Some (SymMap demo_map)
                                    else if String.eqb sym "Reduce" then Some (SymReduce wc_Reduce) else None)
              else None.

(** The computation when mrmaster looks for the [k]-th time: one worker does a task in each turn. *)
Definition wc_start : System := newSystem demo_files 10 demo_fs (fun _ => 0).
Definition wc_at (k : nat) : System := (val_or (wc_start, false) (Worker demo_map wc_Reduce (replicate k quick_turn) wc_start)).1.

Lemma wc_computation k : computation demo_map wc_Reduce one_at_a_time demo_files 10 demo_fs (wc_at k).
Proof.
  unfold wc_at. destruct (Worker _ _ _ _) as [[w b]|e] eqn:E; simpl; [by eapply quick_computation|apply computation_start].
Qed.


End MrMain.
