(* ===== verification/Labrpc.v ===== *)
(** * The simulated network (labrpc/labrpc.go)

    Clients send encoded requests through named ends; the network looks the end up, may drop or delay
    requests and replies, and runs the handler at the server the end is connected to.  A request is a
    small machine ([processReq]) and its handler a goroutine of its own: a server that is deleted while
    a handler runs makes the request fail, the handler still runs to its end.

    Servers are compared by address, as the source compares pointers: [nsHeap] holds the servers by address,
    [servers] names to addresses, [None] (nil) after [DeleteServer].  Requests and replies are bytes, and a
    method is a function on the application's state and the bytes of its argument: decoding, calling by
    reflection and encoding are one.  [Err] ends the process ([log.Fatalf]) or is a panic. *)

From stdpp Require Import base list gmap strings.
From Stdlib Require Import ZArith Lia Strings.Byte Ascii.
From S2P Require Import Prelude.

Open Scope Z_scope.

Module Labrpc.

(** Ends and servers are named by values of any comparable type ([interface{}]): the testers use integers
    and strings. *)
Inductive iface := IInt (z : Z) | IStr (s : string).
Coercion IStr : string >-> iface.
Bind Scope string_scope with iface.

#[global] Instance iface_eq_dec : EqDecision iface.
Proof. solve_decision. Defined.

#[global] Instance iface_countable : Countable iface.
Proof.
  refine (inj_countable' (fun x => match x with IInt z => inl z | IStr s => inr s end)
            (fun x => match x with inl z => IInt z | inr s => IStr s end) _).
  by intros [].
Defined.

Section Labrpc.
Context {App : Type}.

Notation method := (App -> list byte -> App * list byte) (only parsing).

(** ** Services and servers *)

Record Service := mkService {
  svc_name : string;
  svc_methods : gmap string method }.

(** What reflection says of a method *)
Record methodDesc := mkMethodDesc {
  md_Name : string;
  md_PkgPath : string;
  md_NumIn : Z;
  md_In2IsPtr : bool;
  md_NumOut : Z;
  md_Func : method }.

Definition suitable (m : methodDesc) : bool :=
  negb (negb (String.eqb (md_PkgPath m) "") || negb (md_NumIn m =? 3) || negb (md_In2IsPtr m) ||
        negb (md_NumOut m =? 0)).

Definition MakeService (name : string) (methods : list methodDesc) : Service :=
  mkService name
    (foldl (fun ms m => if suitable m then <[md_Name m := md_Func m]> ms else ms) ∅ methods).

Record Server := mkServer {
  services : gmap string Service;
  srv_count : Z }.

Definition MakeServer : Server := mkServer ∅ 0.
Definition AddService (svc : Service) (rs : Server) : Server :=
  mkServer (<[svc_name svc := svc]> (services rs)) (srv_count rs).
Definition Server_GetCount (rs : Server) : Z := srv_count rs.

(** strings.LastIndex(s, "."), scanning from index [i] on with [best] found so far *)
Fixpoint last_dot (s : string) (i : nat) (best : option nat) : option nat :=
  match s with
  | EmptyString => best
  | String c s' => last_dot s' (S i) (if Ascii.eqb c "." then Some i else best)
  end.

(** [req.svcMeth[:dot]] and [req.svcMeth[dot+1:]]; without a dot the first slice panics. *)
Definition split_meth (svcMeth : string) : res (string * string) :=
  match last_dot svcMeth 0 None with
  | None => Err EIndex
  | Some dot =>
      mret (String.substring 0 dot svcMeth,
            String.substring (S dot) (String.length svcMeth - S dot) svcMeth)
  end.

Definition Service_dispatch (svc : Service) (methname : string) (args : list byte) (app : App)
    : res (App * list byte) :=
  match svc_methods svc !! methname with
  | Some f => mret (f app args)
  | None => Err (EFatal "labrpc.Service.dispatch(): unknown method")
  end.

Definition Server_dispatch (rs : Server) (svcMeth : string) (args : list byte) (app : App)
    : res (Server * (App * list byte)) :=
  let rs1 := mkServer (services rs) (wrap64 (srv_count rs + 1)) in
  '(serviceName, methodName) ← split_meth svcMeth;
  match services rs1 !! serviceName with
  | Some service => r ← Service_dispatch service methodName args app; mret (rs1, r)
  | None => Err (EFatal "labrpc.Server.dispatch(): unknown service")
  end.

(** ** The network *)

Record Network := mkNetwork {
  reliable : bool;
  longDelays : bool;
  longReordering : bool;
  ends : gset iface;
  enabled : gmap iface bool;
  servers : gmap iface (option nat);
  connections : gmap iface (option iface);
  closed : bool;      (* [done] has been closed *)
  count : Z;
  nbytes : Z }.

Definition MakeNetwork : Network := mkNetwork true false false ∅ ∅ ∅ ∅ false 0 0.

Definition Cleanup (rn : Network) : res Network :=
  if closed rn then Err (EPanic "close of closed channel")
  else mret (mkNetwork (reliable rn) (longDelays rn) (longReordering rn) (ends rn) (enabled rn) (servers rn) (connections rn) true (count rn) (nbytes rn)).
Definition Reliable (yes : bool) (rn : Network) : Network :=
  mkNetwork yes (longDelays rn) (longReordering rn) (ends rn) (enabled rn) (servers rn) (connections rn) (closed rn) (count rn) (nbytes rn).
Definition LongReordering (yes : bool) (rn : Network) : Network :=
  mkNetwork (reliable rn) (longDelays rn) yes (ends rn) (enabled rn) (servers rn) (connections rn) (closed rn) (count rn) (nbytes rn).
Definition LongDelays (yes : bool) (rn : Network) : Network :=
  mkNetwork (reliable rn) yes (longReordering rn) (ends rn) (enabled rn) (servers rn) (connections rn) (closed rn) (count rn) (nbytes rn).

Definition MakeEnd (endname : iface) (rn : Network) : res Network :=
  if decide (endname ∈ ends rn) then Err (EFatal "MakeEnd: already exists")
  else mret (mkNetwork (reliable rn) (longDelays rn) (longReordering rn) ({[ endname ]} ∪ ends rn)
               (<[endname := false]> (enabled rn)) (servers rn) (<[endname := None]> (connections rn)) (closed rn) (count rn) (nbytes rn)).

Definition AddServer (servername : iface) (a : nat) (rn : Network) : Network :=
  mkNetwork (reliable rn) (longDelays rn) (longReordering rn) (ends rn) (enabled rn) (<[servername := Some a]> (servers rn)) (connections rn) (closed rn) (count rn) (nbytes rn).
Definition DeleteServer (servername : iface) (rn : Network) : Network :=
  mkNetwork (reliable rn) (longDelays rn) (longReordering rn) (ends rn) (enabled rn) (<[servername := None]> (servers rn)) (connections rn) (closed rn) (count rn) (nbytes rn).
Definition Connect (endname servername : iface) (rn : Network) : Network :=
  mkNetwork (reliable rn) (longDelays rn) (longReordering rn) (ends rn) (enabled rn) (servers rn) (<[endname := Some servername]> (connections rn)) (closed rn) (count rn) (nbytes rn).
Definition Enable (endname : iface) (yes : bool) (rn : Network) : Network :=
  mkNetwork (reliable rn) (longDelays rn) (longReordering rn) (ends rn) (<[endname := yes]> (enabled rn)) (servers rn) (connections rn) (closed rn) (count rn) (nbytes rn).
Definition add_count (rn : Network) : Network :=
  mkNetwork (reliable rn) (longDelays rn) (longReordering rn) (ends rn) (enabled rn) (servers rn) (connections rn) (closed rn) (wrap32 (count rn + 1)) (nbytes rn).
Definition add_bytes (n : Z) (rn : Network) : Network :=
  mkNetwork (reliable rn) (longDelays rn) (longReordering rn) (ends rn) (enabled rn) (servers rn) (connections rn) (closed rn) (count rn) (wrap64 (nbytes rn + n)).

(** A missing map entry is false or nil. *)
Definition is_enabled (rn : Network) (endname : iface) : bool := default false (enabled rn !! endname).
Definition connected_to (rn : Network) (endname : iface) : option iface := mjoin (connections rn !! endname).
Definition server_at (rn : Network) (servername : iface) : option nat := mjoin (servers rn !! servername).

Definition GetCount (rn : Network) (heap : list Server) (servername : iface) : res Z :=
  a ← of_option ENil (server_at rn servername);
  rs ← of_option ENil (heap !! a);
  mret (Server_GetCount rs).
Definition GetTotalCount (rn : Network) : Z := count rn.
Definition GetTotalBytes (rn : Network) : Z := nbytes rn.

(** enabled, servername, server, reliable, longreordering *)
Definition readEndnameInfo (rn : Network) (endname : iface) : bool * option iface * option nat * bool * bool :=
  (is_enabled rn endname, connected_to rn endname, connected_to rn endname ≫= server_at rn,
   reliable rn, longReordering rn).

Definition isServerDead (rn : Network) (endname servername : iface) (server : nat) : bool :=
  negb (is_enabled rn endname) || negb (bool_decide (server_at rn servername = Some server)).

(** ** A request *)

(** What [processReq] read of the end when it began *)
Record info := mkInfo {
  i_sname : iface;
  i_server : nat;
  i_reliable : bool;
  i_reorder : bool }.

Inductive rstage :=
  | RNew                                       (* sent, processReq not begun *)
  | RFail                                      (* no server: a timer will answer false *)
  | RReady (i : info)                          (* the short delay, then perhaps dropped *)
  | RRun (i : info)                            (* waiting for the handler or the next timer *)
  | RFinal (i : info) (r : option (list byte)) (* the loop has ended, with a reply or not *)
  | RLate (r : list byte)                      (* the reply is delayed *)
  | RDone (ok : bool) (r : list byte)          (* the client has its answer *).

(** The handler's goroutine *)
Inductive hstage := HNone | HRunning (server : nat) | HDone (r : list byte).

Record request := mkRequest {
  rq_end : iface;
  rq_meth : string;
  rq_args : list byte;
  rq_stage : rstage;
  rq_handler : hstage;
  rq_execs : nat  (* how often the handler has been executed *) }.

Record NetState := mkNetState {
  net : Network;
  nsHeap : list Server;
  app : App;
  reqs : list request }.

Definition set_stage (st : rstage) (q : request) : request :=
  mkRequest (rq_end q) (rq_meth q) (rq_args q) st (rq_handler q) (rq_execs q).

(** One section of [processReq]; [timer] says what its [select] takes while the handler runs, [r1] and
    [r2] are the random numbers it draws. *)
Definition process_step (rn : Network) (q : request) (timer : bool) (r1 r2 : Z) : Network * request :=
  match rq_stage q with
  | RNew =>
      match readEndnameInfo rn (rq_end q) with
      | (true, Some sname, Some a, rel, reord) => (rn, set_stage (RReady (mkInfo sname a rel reord)) q)
      | _ => (rn, set_stage RFail q)
      end
  | RFail => (rn, set_stage (RDone false []) q)
  | RReady i =>
      if negb (i_reliable i) && (Z.rem r1 1000 <? 100) then (rn, set_stage (RDone false []) q)
      else (rn, mkRequest (rq_end q) (rq_meth q) (rq_args q) (RRun i) (HRunning (i_server i)) (rq_execs q))
  | RRun i =>
      if timer then
        if isServerDead rn (rq_end q) (i_sname i) (i_server i) then (rn, set_stage (RFinal i None) q) else (rn, q)
      else
        match rq_handler q with
        | HDone r => (rn, set_stage (RFinal i (Some r)) q)
        | _ => (rn, q)
        end
  | RFinal i None => (rn, set_stage (RDone false []) q)
  | RFinal i (Some r) =>
      if isServerDead rn (rq_end q) (i_sname i) (i_server i) then (rn, set_stage (RDone false []) q)
      else if negb (i_reliable i) && (Z.rem r1 1000 <? 100) then (rn, set_stage (RDone false []) q)
      else if i_reorder i && (r2 <? 600) then (rn, set_stage (RLate r) q)
      else (add_bytes (len r) rn, set_stage (RDone true r) q)
  | RLate r => (add_bytes (len r) rn, set_stage (RDone true r) q)
  | RDone _ _ => (rn, q)
  end.

Inductive netop :=
  | OReliable (yes : bool) | OLongReordering (yes : bool) | OLongDelays (yes : bool)
  | OMakeEnd (e : iface) | OMakeServer | OAddService (a : nat) (svc : Service)
  | OAddServer (s : iface) (a : nat) | ODeleteServer (s : iface)
  | OConnect (e s : iface) | OEnable (e : iface) (yes : bool) | OCleanup.

Inductive nlabel :=
  (* ClientEnd.Call, up to the wait; once the network is closed the request may or may not be taken *)
  | NCall (endname : iface) (svcMeth : string) (args : list byte) (sent : bool)
  | NProcess (k : nat) (timer : bool) (r1 r2 : Z)
  | NExec (k : nat)                                      (* the handler of request k runs *)
  | NOp (o : netop).

Definition net_op (s : NetState) (o : netop) : res NetState :=
  let with_net rn := mkNetState rn (nsHeap s) (app s) (reqs s) in
  match o with
  | OReliable yes => mret (with_net (Reliable yes (net s)))
  | OLongReordering yes => mret (with_net (LongReordering yes (net s)))
  | OLongDelays yes => mret (with_net (LongDelays yes (net s)))
  | OMakeEnd e => rn ← MakeEnd e (net s); mret (with_net rn)
  | OMakeServer => mret (mkNetState (net s) (nsHeap s ++ [MakeServer]) (app s) (reqs s))
  | OAddService a svc =>
      rs ← of_option ENil (nsHeap s !! a);
      mret (mkNetState (net s) (<[a := AddService svc rs]> (nsHeap s)) (app s) (reqs s))
  | OAddServer n a => mret (with_net (AddServer n a (net s)))
  | ODeleteServer n => mret (with_net (DeleteServer n (net s)))
  | OConnect e n => mret (with_net (Connect e n (net s)))
  | OEnable e yes => mret (with_net (Enable e yes (net s)))
  | OCleanup => rn ← Cleanup (net s); mret (with_net rn)
  end.

Definition net_step (s : NetState) (l : nlabel) : res NetState :=
  match l with
  | NCall e m args sent =>
      if closed (net s) && negb sent then
        mret (mkNetState (net s) (nsHeap s) (app s) (reqs s ++ [mkRequest e m args (RDone false []) HNone 0]))
      else
        mret (mkNetState (add_bytes (len args) (add_count (net s))) (nsHeap s) (app s)
                (reqs s ++ [mkRequest e m args RNew HNone 0]))
  | NProcess k timer r1 r2 =>
      match reqs s !! k with
      | Some q => let '(rn, q') := process_step (net s) q timer r1 r2 in
                  mret (mkNetState rn (nsHeap s) (app s) (<[k := q']> (reqs s)))
      | None => mret s
      end
  | NExec k =>
      match reqs s !! k with
      | Some q =>
          match rq_handler q with
          | HRunning a =>
              rs ← of_option ENil (nsHeap s !! a);
              '(rs', (app', r)) ← Server_dispatch rs (rq_meth q) (rq_args q) (app s);
              mret (mkNetState (net s) (<[a := rs']> (nsHeap s)) app'
                      (<[k := mkRequest (rq_end q) (rq_meth q) (rq_args q) (rq_stage q) (HDone r) (S (rq_execs q))]> (reqs s)))
          | _ => mret s
          end
      | None => mret s
      end
  | NOp o => net_op s o
  end.

Inductive net_reach (s0 : NetState) : NetState -> Prop :=
  | nr_refl : net_reach s0 s0
  | nr_step s l s' : net_reach s0 s -> net_step s l = Val s' -> net_reach s0 s'.

Definition net_init (a : App) : NetState := mkNetState MakeNetwork [] a [].

Fixpoint net_run (s : NetState) (ls : list nlabel) : res NetState :=
  match ls with
  | [] => mret s
  | l :: ls' => s' ← net_step s l; net_run s' ls'
  end.

(** ** Every request *)

Definition req_ok (q : request) : Prop :=
  match rq_handler q with
  | HNone => rq_execs q = 0%nat /\
      match rq_stage q with RNew | RFail | RReady _ | RDone false _ => True | _ => False end
  | HRunning _ => rq_execs q = 0%nat /\
      match rq_stage q with RRun _ | RFinal _ None | RDone false _ => True | _ => False end
  | HDone r => rq_execs q = 1%nat /\
      match rq_stage q with
      | RRun _ | RFinal _ None | RDone false _ => True
      | RFinal _ (Some r') | RLate r' | RDone true r' => r' = r
      | _ => False
      end
  end.

Lemma process_req_ok rn q timer r1 r2 rn' q' :
  req_ok q -> process_step rn q timer r1 r2 = (rn', q') -> req_ok q'.
Proof.
  intros Hok Hp%(f_equal snd). simpl in Hp. subst q'.
  unfold process_step, set_stage, req_ok in *. destruct q as [e m args st h n]; simpl in *.
  destruct st as [| |i|i|i [r|]|r|ok r]; simpl.
  - destruct (is_enabled rn e), (connected_to rn e) as [sn|]; simpl; [destruct (server_at rn sn)| | |];
      destruct h; simpl in *; tauto.
  - destruct h; simpl in *; tauto.
  - destruct (negb (i_reliable i) && _); destruct h; simpl in *; tauto.
  - destruct timer; [destruct (isServerDead _ _ _ _)|]; destruct h; simpl in *; tauto.
  - destruct (isServerDead _ _ _ _); [|destruct (negb (i_reliable i) && _); [|destruct (i_reorder i && _)]];
      destruct h; simpl in *; tauto.
  - destruct h; simpl in *; tauto.
  - destruct h; simpl in *; tauto.
  - done.
Qed.

Lemma net_op_reqs s o s' : net_op s o = Val s' -> reqs s' = reqs s.
Proof. destruct o; simpl; try (intros [= <-]; done); intros (x & _ & [= <-])%bind_val; done. Qed.

Lemma net_step_ok s l s' : Forall req_ok (reqs s) -> net_step s l = Val s' -> Forall req_ok (reqs s').
Proof.
  intros Hok. destruct l as [e m args sent|k timer r1 r2|k|o]; simpl.
  - destruct (closed (net s) && negb sent); intros [= <-]; (apply Forall_app; split; [done|by apply Forall_singleton]).
  - destruct (reqs s !! k) as [q|] eqn:Hk; [|by intros [= <-]].
    destruct (process_step _ _ _ _ _) as [rn q'] eqn:Hp. intros [= <-]. simpl.
    apply Forall_insert; [done|]. eapply process_req_ok; [|done]. by eapply Forall_lookup_1 in Hok.
  - destruct (reqs s !! k) as [q|] eqn:Hk; [|by intros [= <-]].
    destruct (rq_handler q) as [|a|r] eqn:Hh; [by intros [= <-]| |by intros [= <-]].
    intros (rs & _ & ([rs' [app' r]] & _ & [= <-])%bind_val)%bind_val. simpl.
    apply Forall_insert; [done|]. eapply Forall_lookup_1 in Hok; [|done]. unfold req_ok in *. rewrite Hh in Hok. simpl.
    destruct Hok as [-> Hst]. split; [done|]. by destruct (rq_stage q) as [| |i|i|i [x|]|x|[] x].
  - intros E%net_op_reqs. by rewrite E.
Qed.

Lemma net_reach_ok a s : net_reach (net_init a) s -> Forall req_ok (reqs s).
Proof. induction 1 as [|s l s' _ IH Hs]; [constructor|by eapply net_step_ok]. Qed.

(** A client's answer is final. *)
Lemma process_done rn q timer r1 r2 ok r :
  rq_stage q = RDone ok r -> process_step rn q timer r1 r2 = (rn, q).
Proof. intros E. unfold process_step. by rewrite E. Qed.

Lemma net_step_done s l s' k q ok r :
  net_step s l = Val s' -> reqs s !! k = Some q -> rq_stage q = RDone ok r ->
  exists q', reqs s' !! k = Some q' /\ rq_stage q' = RDone ok r.
Proof.
  intros Hs Hk Hd. destruct l as [e m args sent|k' timer r1 r2|k'|o]; simpl in Hs.
  - exists q. destruct (closed (net s) && negb sent); injection Hs as <-; simpl; (split; [by apply lookup_app_l_Some|done]).
  - destruct (reqs s !! k') as [q0|] eqn:Hk'; [|injection Hs as <-; eauto].
    destruct (process_step _ _ _ _ _) as [rn q'] eqn:Hp. injection Hs as <-. simpl.
    destruct (decide (k' = k)) as [->|Hne].
    + rewrite Hk in Hk'. injection Hk' as <-. rewrite (process_done _ _ _ _ _ _ _ Hd) in Hp. injection Hp as <- <-.
      exists q. split; [|done]. apply list_lookup_insert_eq. by eapply lookup_lt_Some.
    + exists q. by rewrite list_lookup_insert_ne.
  - destruct (reqs s !! k') as [q0|] eqn:Hk'; [|injection Hs as <-; eauto].
    destruct (rq_handler q0) as [|a|x]; [injection Hs as <-; eauto| |injection Hs as <-; eauto].
    apply bind_val in Hs as (rs & _ & ([rs' [app' x]] & _ & [= <-])%bind_val). simpl.
    destruct (decide (k' = k)) as [->|Hne].
    + rewrite Hk in Hk'. injection Hk' as <-. eexists.
      rewrite list_lookup_insert_eq by (by eapply lookup_lt_Some). done.
    + exists q. by rewrite list_lookup_insert_ne.
  - apply net_op_reqs in Hs. rewrite Hs. eauto.
Qed.

(** C14: A remote call is executed at most once and answered at most once: in every reachable state of the
    network a request's handler has run at most once; a client that got a positive answer got the
    reply of its handler, which has run; and an answer, once given, never changes. *)
Theorem rpc_at_most_once a s k q :
  net_reach (net_init a) s -> reqs s !! k = Some q ->
  (rq_execs q <= 1)%nat /\
  (forall r, rq_stage q = RDone true r -> rq_execs q = 1%nat /\ rq_handler q = HDone r) /\
  (forall l s' ok r, net_step s l = Val s' -> rq_stage q = RDone ok r ->
     exists q', reqs s' !! k = Some q' /\ rq_stage q' = RDone ok r).
Proof.
  intros Hs%net_reach_ok Hk. eapply Forall_lookup_1 in Hs; [|exact Hk]. unfold req_ok in Hs. split_and!.
  - destruct (rq_handler q); lia.
  - intros r Hr. rewrite Hr in Hs. destruct (rq_handler q); try tauto. destruct Hs as [? ->]. done.
  - intros l s' ok r Hst Hd. by eapply net_step_done.
Qed.

(** ** Disabled ends *)

(** A request on an end that was disabled when it was processed *)
Definition unsent (q : request) : Prop :=
  rq_execs q = 0%nat /\ rq_handler q = HNone /\
  match rq_stage q with RNew | RFail | RDone false _ => True | _ => False end.

Definition enables (e : iface) (l : nlabel) : Prop :=
  match l with NOp (OEnable e' true) => e' = e | _ => False end.

Record cut_off (e : iface) (n0 : nat) (s : NetState) : Prop := {
  cu_disabled : is_enabled (net s) e = false;
  cu_len : (n0 <= length (reqs s))%nat;
  cu_unsent : forall k q, (n0 <= k)%nat -> reqs s !! k = Some q -> rq_end q = e -> unsent q }.

Lemma process_net rn q timer r1 r2 rn' q' :
  process_step rn q timer r1 r2 = (rn', q') ->
  enabled rn' = enabled rn /\ connections rn' = connections rn /\ servers rn' = servers rn /\
  reliable rn' = reliable rn /\ closed rn' = closed rn /\ rq_end q' = rq_end q.
Proof.
  unfold process_step. destruct (rq_stage q) as [| |i|i|i [r|]|r|ok r].
  - destruct (readEndnameInfo _ _) as [[[[[] [sn|]] [a|]] rel] reord]; by intros [= <- <-].
  - by intros [= <- <-].
  - destruct (negb (i_reliable i) && _); by intros [= <- <-].
  - destruct timer; [destruct (isServerDead _ _ _ _)|destruct (rq_handler q)]; by intros [= <- <-].
  - destruct (isServerDead _ _ _ _); [|destruct (negb (i_reliable i) && _); [|destruct (i_reorder i && _)]];
      by intros [= <- <-].
  - by intros [= <- <-].
  - by intros [= <- <-].
  - by intros [= <- <-].
Qed.

Lemma net_op_disabled e s o s' :
  is_enabled (net s) e = false -> ~ enables e (NOp o) -> net_op s o = Val s' -> is_enabled (net s') e = false.
Proof.
  unfold is_enabled. intros Hd Hne Hs.
  destruct o as [yes|yes|yes|e'| |a svc|n a|n|e' n|e' yes|]; simpl in Hs; try (injection Hs as <-; exact Hd).
  - apply bind_val in Hs as (rn & Hm & [= <-]). unfold MakeEnd in Hm.
    destruct (decide _); [done|]. injection Hm as <-. simpl.
    destruct (decide (e' = e)) as [->|Hn]; [by rewrite lookup_insert_eq|]. by rewrite lookup_insert_ne.
  - apply bind_val in Hs as (rs & _ & [= <-]). exact Hd.
  - injection Hs as <-. simpl. destruct (decide (e' = e)) as [->|Hn]; [|by rewrite lookup_insert_ne].
    rewrite lookup_insert_eq. simpl in *. by destruct yes.
  - apply bind_val in Hs as (rn & Hm & [= <-]). unfold Cleanup in Hm. destruct (closed (net s)); [done|].
    injection Hm as <-. exact Hd.
Qed.

Lemma cut_off_step e n0 s l s' : cut_off e n0 s -> ~ enables e l -> net_step s l = Val s' -> cut_off e n0 s'.
Proof.
  intros [Hd Hl Hu] Hne. destruct l as [e' m args sent|k timer r1 r2|k|o]; simpl.
  - assert (forall st, (st = RNew \/ st = RDone false []) ->
      forall k q, (n0 <= k)%nat -> (reqs s ++ [mkRequest e' m args st HNone 0]) !! k = Some q -> rq_end q = e -> unsent q) as Hadd.
    { intros st Hst k q Hk [Hq|[_ Hq]]%lookup_app_Some He; [by eapply Hu|].
      apply list_lookup_singleton_Some in Hq as [_ <-]. by destruct Hst as [->| ->]. }
    destruct (closed (net s) && negb sent); intros [= <-]; constructor; simpl; try done;
      try (rewrite length_app; lia); apply Hadd; auto.
  - destruct (reqs s !! k) as [q|] eqn:Hk; [|by intros [= <-]].
    destruct (process_step _ _ _ _ _) as [rn q'] eqn:Hp. intros [= <-].
    destruct (process_net _ _ _ _ _ _ _ Hp) as (E1 & _ & _ & _ & _ & Ee). constructor; simpl.
    + unfold is_enabled. by rewrite E1.
    + by rewrite length_insert.
    + intros k' x Hk' [(<- & <- & _)|[_ Hx]]%list_lookup_insert_Some He; [|by eapply Hu].
      rewrite Ee in He. destruct (Hu k q Hk' Hk He) as (Hex & Hh & Hst).
      unfold process_step, readEndnameInfo in Hp. rewrite He, Hd in Hp.
      destruct (rq_stage q) as [| |i|i|i [r|]|r|[] r] eqn:Eq; try tauto; apply (f_equal snd) in Hp; simpl in Hp; subst q'; unfold unsent; simpl;
        rewrite ?Eq; auto.
  - destruct (reqs s !! k) as [q|] eqn:Hk; [|by intros [= <-]].
    destruct (rq_handler q) as [|a|r] eqn:Hh; [by intros [= <-]| |by intros [= <-]].
    intros (rs & _ & ([rs' [app' r]] & _ & [= <-])%bind_val)%bind_val. constructor; simpl; [done|by rewrite length_insert|].
    intros k' x Hk' [(<- & <- & _)|[_ Hx]]%list_lookup_insert_Some He; [|by eapply Hu].
    simpl in He. destruct (Hu k q Hk' Hk He) as (_ & Hh' & _). congruence.
  - intros Hs. pose proof (net_op_reqs _ _ _ Hs) as E. constructor; [|by rewrite E|by rewrite E].
    by eapply net_op_disabled.
Qed.

Lemma cut_off_run e n0 ls s s' :
  cut_off e n0 s -> Forall (fun l => ~ enables e l) ls -> net_run s ls = Val s' -> cut_off e n0 s'.
Proof.
  intros Hc Hls. revert s Hc. induction Hls as [|l ls Hl _ IH]; intros s Hc; simpl; [by intros [= <-]|].
  intros (s1 & Hs1 & Hr)%bind_val. eapply IH; [|done]. by eapply cut_off_step.
Qed.

(** A disabled end is cut off: requests sent through it while it stays disabled are never executed at
    any server, and if they are answered at all, the answer is failure. *)
Theorem disabled_end_cut_off e s ls s' k q :
  is_enabled (net s) e = false -> Forall (fun l => ~ enables e l) ls -> net_run s ls = Val s' ->
  (length (reqs s) <= k)%nat -> reqs s' !! k = Some q -> rq_end q = e ->
  rq_execs q = 0%nat /\ (forall ok r, rq_stage q = RDone ok r -> ok = false).
Proof.
  intros Hd Hls Hr Hk Hq He.
  assert (cut_off e (length (reqs s)) s) as Hc.
  { constructor; [done|lia|]. intros k' x Hk' Hx%lookup_lt_Some. lia. }
  eapply cut_off_run in Hc; [|done..].
  destruct (cu_unsent _ _ _ Hc k q Hk Hq He) as (Hex & _ & Hst). split; [done|].
  intros ok r E. rewrite E in Hst. by destruct ok.
Qed.

(** ** Deleted servers *)

(** No name refers to the server at address [a]. *)
Definition gone (a : nat) (s : NetState) : Prop := forall n, server_at (net s) n <> Some a.

Definition installs (a : nat) (l : nlabel) : Prop :=
  match l with NOp (OAddServer _ a') => a' = a | _ => False end.

(** The request was given to the server at [a] and is not answered. *)
Definition pending_at (a : nat) (q : request) : Prop :=
  match rq_stage q with RReady i | RRun i | RFinal i _ => i_server i = a | _ => False end.

Definition pending_or_failed (a : nat) (q : request) : Prop :=
  pending_at a q \/ exists r, rq_stage q = RDone false r.

Lemma gone_dead a s e n : gone a s -> isServerDead (net s) e n a = true.
Proof. intros Hg. unfold isServerDead. rewrite bool_decide_eq_false_2 by apply Hg. apply orb_true_r. Qed.

Lemma gone_step a s l s' : gone a s -> ~ installs a l -> net_step s l = Val s' -> gone a s'.
Proof.
  intros Hg Hi Hs n. specialize (Hg n). unfold server_at in *. destruct l as [e m args sent|k timer r1 r2|k|o]; simpl in Hs.
  - by destruct (closed (net s) && negb sent); injection Hs as <-.
  - destruct (reqs s !! k) as [q|]; [|by injection Hs as <-].
    destruct (process_step _ _ _ _ _) as [rn q'] eqn:Hp. injection Hs as <-. simpl.
    by destruct (process_net _ _ _ _ _ _ _ Hp) as (_ & _ & -> & _).
  - destruct (reqs s !! k) as [q|]; [|by injection Hs as <-].
    destruct (rq_handler q); [by injection Hs as <-| |by injection Hs as <-].
    by apply bind_val in Hs as (rs & _ & ([rs' [app' r]] & _ & [= <-])%bind_val).
  - destruct o as [yes|yes|yes|e'| |a' svc|n' a'|n'|e' n'|e' yes|]; simpl in Hs; try (injection Hs as <-; exact Hg).
    + apply bind_val in Hs as (rn & Hm & [= <-]). unfold MakeEnd in Hm. destruct (decide _); [done|]. by injection Hm as <-.
    + by apply bind_val in Hs as (rs & _ & [= <-]).
    + injection Hs as <-. simpl. destruct (decide (n' = n)) as [->|Hn]; [|by rewrite lookup_insert_ne].
      rewrite lookup_insert_eq. simpl. intros [= ->]. by apply Hi.
    + injection Hs as <-. simpl. destruct (decide (n' = n)) as [->|Hn]; [|by rewrite lookup_insert_ne].
      by rewrite lookup_insert_eq.
    + apply bind_val in Hs as (rn & Hm & [= <-]). unfold Cleanup in Hm. destruct (closed (net s)); [done|]. by injection Hm as <-.
Qed.

Lemma pending_process a s q timer r1 r2 rn q' :
  gone a s -> pending_or_failed a q -> process_step (net s) q timer r1 r2 = (rn, q') -> pending_or_failed a q'.
Proof.
  unfold pending_or_failed, pending_at, process_step. intros Hg Hq Hp%(f_equal snd). simpl in Hp. subst q'.
  destruct (rq_stage q) as [| |i|i|i [r|]|r|ok r] eqn:Eq; try (naive_solver done).
  - destruct (negb (i_reliable i) && _); simpl; naive_solver.
  - destruct Hq as [Hq|[? [=]]]. rewrite Hq, (gone_dead a s) by done.
    destruct timer; simpl; [by left|]. destruct (rq_handler q); simpl; rewrite ?Eq; by left.
  - destruct Hq as [Hq|[? [=]]]. rewrite Hq, (gone_dead a s) by done. simpl. eauto.
Qed.

Lemma pending_step a s l s' k q :
  gone a s -> net_step s l = Val s' -> reqs s !! k = Some q -> pending_or_failed a q ->
  exists q', reqs s' !! k = Some q' /\ pending_or_failed a q'.
Proof.
  intros Hg Hs Hk Hq. destruct l as [e m args sent|k' timer r1 r2|k'|o]; simpl in Hs.
  - exists q. destruct (closed (net s) && negb sent); injection Hs as <-; simpl; (split; [by apply lookup_app_l_Some|done]).
  - destruct (reqs s !! k') as [q0|] eqn:Hk'; [|injection Hs as <-; eauto].
    destruct (process_step _ _ _ _ _) as [rn q'] eqn:Hp. injection Hs as <-. simpl.
    destruct (decide (k' = k)) as [->|Hne]; [|exists q; by rewrite list_lookup_insert_ne].
    rewrite Hk in Hk'. injection Hk' as <-. exists q'.
    rewrite list_lookup_insert_eq by (by eapply lookup_lt_Some). split; [done|]. by eapply pending_process.
  - destruct (reqs s !! k') as [q0|] eqn:Hk'; [|injection Hs as <-; eauto].
    destruct (rq_handler q0) as [|a'|x]; [injection Hs as <-; eauto| |injection Hs as <-; eauto].
    apply bind_val in Hs as (rs & _ & ([rs' [app' x]] & _ & [= <-])%bind_val). simpl.
    destruct (decide (k' = k)) as [->|Hne]; [|exists q; by rewrite list_lookup_insert_ne].
    rewrite Hk in Hk'. injection Hk' as <-. eexists.
    rewrite list_lookup_insert_eq by (by eapply lookup_lt_Some). split; [done|]. exact Hq.
  - apply net_op_reqs in Hs. rewrite Hs. eauto.
Qed.

(** A request that was given to a server which has since been deleted (or replaced by another one under
    its name) is never answered positively, whatever happens next, as long as that server is not
    installed again: the client cannot take a reply from a server whose persister has been superseded. *)
Theorem deleted_server_never_answers a ls s s' k q q' :
  gone a s -> Forall (fun l => ~ installs a l) ls -> net_run s ls = Val s' ->
  reqs s !! k = Some q -> pending_at a q -> reqs s' !! k = Some q' ->
  forall ok r, rq_stage q' = RDone ok r -> ok = false.
Proof.
  intros Hg Hls Hr Hk Hq Hk'. assert (pending_or_failed a q) as Hp by (by left). clear Hq.
  revert s q Hg Hr Hk Hp. induction Hls as [|l ls Hl _ IH]; intros s q Hg Hr Hk Hp; simpl in Hr.
  - injection Hr as <-. rewrite Hk in Hk'. injection Hk' as <-. intros ok r E.
    unfold pending_or_failed, pending_at in Hp. rewrite E in Hp. naive_solver.
  - apply bind_val in Hr as (s1 & Hs1 & Hr). destruct (pending_step _ _ _ _ _ _ Hg Hs1 Hk Hp) as (q1 & Hq1 & Hp1).
    eapply IH; [|done..]. by eapply gone_step.
Qed.

(** ** A call on a reliable network *)

Fixpoint no_dot (s : string) : bool :=
  match s with EmptyString => true | String c s' => negb (Ascii.eqb c ".") && no_dot s' end.

#[local] Arguments String.append : simpl nomatch.

Lemma last_dot_none b i best : no_dot b = true -> last_dot b i best = best.
Proof.
  revert i best. induction b as [|c b IH]; intros i best Hb; simpl in *; [done|].
  apply andb_true_iff in Hb as [Hc Hb]. destruct (Ascii.eqb c "."); [done|]. by apply IH.
Qed.

Lemma last_dot_app a b i best :
  no_dot b = true -> last_dot (String.append a (String "." b)) i best = Some (i + String.length a)%nat.
Proof.
  intros Hb. revert i best. induction a as [|c a IH]; intros i best; simpl.
  - rewrite last_dot_none by done. f_equal. lia.
  - rewrite IH. f_equal. lia.
Qed.

Lemma substring_all b : String.substring 0 (String.length b) b = b.
Proof. induction b as [|c b IH]; simpl; [done|by rewrite IH]. Qed.

Lemma substring_prefix a b : String.substring 0 (String.length a) (String.append a b) = a.
Proof. induction a as [|c a IH]; simpl; [by destruct b|by rewrite IH]. Qed.

Lemma substring_suffix a b n m : String.substring (String.length a + n) m (String.append a b) = String.substring n m b.
Proof. induction a as [|c a IH]; simpl; [done|exact IH]. Qed.

Lemma string_length_app a b : String.length (String.append a b) = (String.length a + String.length b)%nat.
Proof. induction a as [|c a IH]; simpl; [done|by rewrite IH]. Qed.

(** The name of the service may contain dots, the method's may not. *)
Lemma split_meth_app svc meth :
  no_dot meth = true -> split_meth (String.append svc (String "." meth)) = Val (svc, meth).
Proof.
  intros Hm. unfold split_meth. rewrite last_dot_app by done. simpl (0 + _)%nat.
  rewrite substring_prefix, string_length_app. simpl (String.length (String _ _)).
  replace (S (String.length svc)) with (String.length svc + 1)%nat by lia.
  replace (String.length svc + S (String.length meth) - _)%nat with (String.length meth) by lia.
  rewrite substring_suffix. simpl. by rewrite substring_all.
Qed.

(** The request [k] of a call while its handler runs *)
Definition running (s : NetState) (e : iface) (m : string) (args : list byte) (i : info) : NetState :=
  mkNetState (add_bytes (len args) (add_count (net s))) (nsHeap s) (app s)
    (reqs s ++ [mkRequest e m args (RRun i) (HRunning (i_server i)) 0]).

Lemma insert_snoc {A} (l : list A) (x y : A) : <[length l := y]> (l ++ [x]) = l ++ [y].
Proof. rewrite insert_app_r_alt by lia. by rewrite Nat.sub_diag. Qed.

Lemma call_starts s e m args n a r1 r2 r3 r4 t1 t2 :
  reliable (net s) = true -> is_enabled (net s) e = true -> connected_to (net s) e = Some n ->
  server_at (net s) n = Some a ->
  net_run s [NCall e m args true; NProcess (length (reqs s)) t1 r1 r2; NProcess (length (reqs s)) t2 r3 r4] =
  Val (running s e m args (mkInfo n a true (longReordering (net s)))).
Proof.
  intros Hr He Hc Ha. unfold net_run, net_step. rewrite andb_false_r. simpl.
  rewrite lookup_app_r, Nat.sub_diag by lia. simpl. unfold process_step, readEndnameInfo, is_enabled, connected_to, server_at in *.
  simpl. rewrite He, Hc. simpl. unfold server_at. simpl. rewrite Ha, Hr. simpl.
  rewrite insert_snoc, lookup_app_r, Nat.sub_diag by lia. simpl. by rewrite insert_snoc.
Qed.

Lemma ticks_wait s e m args i j :
  isServerDead (net s) e (i_sname i) (i_server i) = false ->
  net_run (running s e m args i) (replicate j (NProcess (length (reqs s)) true 0 0)) = Val (running s e m args i).
Proof.
  intros Hd. induction j as [|j IH]; [done|]. cbn [replicate net_run net_step].
  unfold running at 1. simpl reqs. rewrite lookup_app_r, Nat.sub_diag by lia. simpl lookup. cbn [process_step rq_stage].
  change (isServerDead _ _ _ _) with (isServerDead (net s) e (i_sname i) (i_server i)). rewrite Hd.
  simpl. rewrite insert_snoc. exact IH.
Qed.

Lemma net_run_app s ls ls' s1 : net_run s ls = Val s1 -> net_run s (ls ++ ls') = net_run s1 ls'.
Proof.
  revert s. induction ls as [|l ls IH]; intros s; simpl; [by intros [= ->]|].
  intros (s2 & -> & Hr)%bind_val. simpl. by apply IH.
Qed.

(** On a reliable network without reordering, a call of [svc.meth] through an enabled end connected to a
    live server that offers it runs the method once, on the arguments sent, and returns its reply with
    success, however often the 100 ms timer fires meanwhile; the server's count, the network's count and its bytes
    are updated, nothing else of the network changes. *)
Theorem reliable_call_returns s e svc meth args n a rs service f j :
  reliable (net s) = true -> longReordering (net s) = false -> is_enabled (net s) e = true ->
  connected_to (net s) e = Some n -> server_at (net s) n = Some a -> nsHeap s !! a = Some rs ->
  services rs !! svc = Some service -> svc_methods service !! meth = Some f -> no_dot meth = true ->
  let m := String.append svc (String "." meth) in
  let k := length (reqs s) in
  let '(app', r) := f (app s) args in
  net_run s ([NCall e m args true; NProcess k false 0 0; NProcess k false 0 0] ++
             replicate j (NProcess k true 0 0) ++
             [NExec k; NProcess k false 0 0; NProcess k false 0 0]) =
  Val (mkNetState (add_bytes (len r) (add_bytes (len args) (add_count (net s))))
         (<[a := mkServer (services rs) (wrap64 (srv_count rs + 1))]> (nsHeap s)) app'
         (reqs s ++ [mkRequest e m args (RDone true r) (HDone r) 1])).
Proof.
  intros Hr Ho He Hc Ha Hrs Hsv Hf Hm m k. destruct (f (app s) args) as [app' r] eqn:Hfr.
  rewrite (net_run_app _ _ _ _ (call_starts s e m args n a 0 0 0 0 false false Hr He Hc Ha)). rewrite Ho.
  assert (isServerDead (net s) e n a = false) as Hd.
  { unfold isServerDead. rewrite He, bool_decide_eq_true_2 by done. done. }
  rewrite (net_run_app _ _ _ _ (ticks_wait s e m args (mkInfo n a true false) j Hd)).
  cbn [net_run net_step]. unfold running. simpl reqs. subst k. rewrite lookup_app_r, Nat.sub_diag by lia. simpl lookup.
  cbn [rq_handler i_server nsHeap rq_meth rq_args Labrpc.app]. rewrite Hrs. simpl of_option.
  unfold Server_dispatch. subst m. rewrite split_meth_app by done. simpl. rewrite Hsv. simpl.
  unfold Service_dispatch. rewrite Hf, Hfr. simpl.
  rewrite insert_snoc, lookup_app_r, Nat.sub_diag by lia. simpl.
  rewrite insert_snoc, lookup_app_r, Nat.sub_diag by lia. unfold process_step. simpl.
  change (isServerDead (add_bytes _ _) e n a) with (isServerDead (net s) e n a). rewrite Hd. simpl.
  by rewrite insert_snoc.
Qed.

End Labrpc.

(** ** A network with one server, one client and a counter behind them *)

Module Demo.

(** The handler adds the length of its argument to the counter and replies with one byte. *)
Definition bump (c : Z) (args : list byte) : Z * list byte := (c + len args, [x2a]).

Definition counter_service : Service (App := Z) :=
  MakeService "Counter" [mkMethodDesc "Bump" "" 3 true 0 bump; mkMethodDesc "helper" "main" 3 true 0 bump].

Definition setup : list (nlabel (App := Z)) :=
  [NOp (OMakeEnd "c0"); NOp OMakeServer; NOp (OAddService 0 counter_service); NOp (OAddServer "s0" 0); NOp (OConnect "c0" "s0")].

Definition enabled_setup : list (nlabel (App := Z)) := setup ++ [NOp (OEnable "c0" true)].

Definition state_of (ls : list (nlabel (App := Z))) : NetState :=
  match net_run (net_init 0) ls with Val s => s | Err _ => net_init 0 end.

Definition the_call : list (nlabel (App := Z)) :=
  [NCall "c0" "Counter.Bump" [x00; x01] true; NProcess 0 false 0 0; NProcess 0 false 0 0; NExec 0;
   NProcess 0 false 0 0; NProcess 0 false 0 0].

Definition no_request : request := mkRequest "" "" [] RNew HNone 0.
Definition request_of (s : NetState (App := Z)) (k : nat) : request := default no_request (reqs s !! k).

Lemma net_run_reach {App} (s0 s s' : NetState (App := App)) ls : net_reach s0 s -> net_run s ls = Val s' -> net_reach s0 s'.
Proof.
  revert s. induction ls as [|l ls IH]; intros s Hs; simpl; [by intros [= <-]|].
  intros (s1 & Hs1 & Hr)%bind_val. eapply IH; [|done]. by eapply nr_step.
Qed.

Lemma state_of_reach ls : is_val (net_run (net_init 0) ls) = true -> net_reach (net_init 0) (state_of ls).
Proof.
  unfold state_of. destruct (net_run (net_init 0) ls) as [s|e] eqn:E; [|done]. intros _.
  eapply net_run_reach; [apply nr_refl|exact E].
Qed.

End Demo.

Lemma rpc_at_most_once_witness :
  let s := Demo.state_of (Demo.enabled_setup ++ Demo.the_call) in
  rq_stage (Demo.request_of s 0) = RDone true [x2a] /\ (rq_execs (Demo.request_of s 0) <= 1)%nat.
Proof.
  intros s. split; [vm_compute; reflexivity|].
  apply (rpc_at_most_once 0 s 0 (Demo.request_of s 0)).
  - apply Demo.state_of_reach. vm_compute. reflexivity.
  - vm_compute. reflexivity.
Defined.

Lemma disabled_end_cut_off_witness :
  let s := Demo.state_of Demo.setup in let s' := Demo.state_of (Demo.setup ++ Demo.the_call) in
  is_enabled (net s) "c0" = false /\ rq_stage (Demo.request_of s' 0) = RDone false [] /\
  rq_execs (Demo.request_of s' 0) = 0%nat.
Proof.
  intros s s'. split; [vm_compute; reflexivity|]. split; [vm_compute; reflexivity|].
  apply (disabled_end_cut_off "c0" s Demo.the_call s' 0 (Demo.request_of s' 0)).
  - vm_compute. reflexivity.
  - repeat constructor; intros [].
  - vm_compute. reflexivity.
  - vm_compute. lia.
  - vm_compute. reflexivity.
  - vm_compute. reflexivity.
Defined.

(** The server is deleted while its handler runs; the handler ends, the client gets no answer. *)
Lemma deleted_server_never_answers_witness :
  let sent : list (nlabel (App := Z)) := [NCall "c0" "Counter.Bump" [x00; x01] true; NProcess 0 false 0 0; NProcess 0 false 0 0] in
  let s := Demo.state_of (Demo.enabled_setup ++ sent ++ [NOp (ODeleteServer "s0")]) in
  let ls : list (nlabel (App := Z)) := [NExec 0; NProcess 0 false 0 0; NProcess 0 false 0 0] in
  let s' := Demo.state_of (Demo.enabled_setup ++ sent ++ [NOp (ODeleteServer "s0")] ++ ls) in
  rq_execs (Demo.request_of s' 0) = 1%nat /\ forall ok r, rq_stage (Demo.request_of s' 0) = RDone ok r -> ok = false.
Proof.
  intros sent s ls s'. split; [vm_compute; reflexivity|].
  apply (deleted_server_never_answers 0 ls s s' 0 (Demo.request_of s 0) (Demo.request_of s' 0)).
  - intros n. unfold server_at. replace (servers (net s)) with ({[IStr "s0" := None]} : gmap iface (option nat))
      by (vm_compute; reflexivity).
    destruct (decide (n = IStr "s0")) as [->|Hn]; [vm_compute; discriminate|].
    rewrite lookup_singleton_ne by congruence. discriminate.
  - repeat constructor; intros [].
  - vm_compute. reflexivity.
  - vm_compute. reflexivity.
  - vm_compute. reflexivity.
  - vm_compute. reflexivity.
Defined.

Lemma reliable_call_returns_witness :
  let s := Demo.state_of Demo.enabled_setup in
  exists s', net_run s ([NCall "c0" "Counter.Bump" [x00; x01] true; NProcess 0 false 0 0; NProcess 0 false 0 0] ++
    replicate 2 (NProcess 0 true 0 0) ++ [NExec 0; NProcess 0 false 0 0; NProcess 0 false 0 0]) = Val s' /\ app s' = 2.
Proof.
  intros s. eexists. split.
  - apply (reliable_call_returns s "c0" "Counter" "Bump" [x00; x01] "s0" 0 (AddService Demo.counter_service MakeServer)
      Demo.counter_service Demo.bump 2); vm_compute; reflexivity.
  - reflexivity.
Defined.

End Labrpc.
