(* ===== verification/TestRand.v ===== *)
(** * Random names and orders (the heads of the testers' config.go, nrand of the clerks)

    The testers name the ends of the simulated network with random strings: random bytes in base64 (the URL
    alphabet of RFC 4648, as encoding/base64 has it), cut to length.  [random_handles] shuffles the ends.  The random
    bytes and numbers are arguments. *)

From stdpp Require Import base list strings.
From Stdlib Require Import ZArith Lia Strings.Byte Ascii NArith.
From S2P Require Import Prelude.

Open Scope Z_scope.

Module TestRand.

Definition alphabet : string := "ABCDEFGHIJKLMNOPQRSTUVWXYZabcdefghijklmnopqrstuvwxyz0123456789-_".

Definition digit (n : N) : ascii := default "="%char (String.get (N.to_nat n) alphabet).

(** base64.URLEncoding.EncodeToString: three bytes are four digits of six bits, the rest is padded. *)
Fixpoint EncodeToString (b : list byte) : string :=
  match b with
  | b0 :: b1 :: b2 :: rest =>
      let v := (N.shiftl (Byte.to_N b0) 16 + N.shiftl (Byte.to_N b1) 8 + Byte.to_N b2)%N in
      String (digit (N.land (N.shiftr v 18) 63)) (String (digit (N.land (N.shiftr v 12) 63))
        (String (digit (N.land (N.shiftr v 6) 63)) (String (digit (N.land v 63)) (EncodeToString rest))))
  | [b0; b1] =>
      let v := (N.shiftl (Byte.to_N b0) 16 + N.shiftl (Byte.to_N b1) 8)%N in
      String (digit (N.land (N.shiftr v 18) 63)) (String (digit (N.land (N.shiftr v 12) 63))
        (String (digit (N.land (N.shiftr v 6) 63)) (String "="%char EmptyString)))
  | [b0] =>
      let v := N.shiftl (Byte.to_N b0) 16 in
      String (digit (N.land (N.shiftr v 18) 63)) (String (digit (N.land (N.shiftr v 12) 63))
        (String "="%char (String "="%char EmptyString)))
  | [] => EmptyString
  end.

(** [b] are the bytes [crand.Read] has filled in, 2n of them. *)
Definition randstring (b : list byte) (n : nat) : res string :=
  let s := EncodeToString b in
  if (n <=? String.length s)%nat then mret (String.substring 0 n s) else Err EIndex.

(** [bigx] is a random number below 2^62. *)
Definition makeSeed (bigx : Z) : Z := wrap64 bigx.

(** [nrand] of the clerks, likewise *)
Definition nrand (bigx : Z) : Z := wrap64 bigx.

(** Some distinct inputs *)
Definition some_bytes (k i j : nat) : list byte := replicate 40 (default x00 (Byte.of_N (N.of_nat (100 * k + 10 * i + j)))).

Lemma EncodeToString_length b : (length b <= String.length (EncodeToString b))%nat.
Proof.
  revert b. fix IH 1. intros [|b0 [|b1 [|b2 b]]]; simpl; [lia..|]. specialize (IH b). lia.
Qed.

Lemma substring_length n s : (n <= String.length s)%nat -> String.length (String.substring 0 n s) = n.
Proof.
  revert n. induction s as [|c s IH]; intros [|n] Hn; simpl in *; try lia. rewrite IH; lia.
Qed.

(** [randstring(n)] never slices out of bounds and returns a string of n characters. *)
Theorem randstring_total b n :
  length b = (2 * n)%nat -> exists s, randstring b n = Val s /\ String.length s = n.
Proof.
  intros Hb. unfold randstring. pose proof (EncodeToString_length b) as Hl.
  destruct (Nat.leb_spec n (String.length (EncodeToString b))); [|lia].
  eexists. split; [done|]. by apply substring_length.
Qed.

Lemma randstring_total_witness : exists s, randstring [x4d; x61; x6e; xff] 2 = Val s /\ String.length s = 2%nat.
Proof. exact (randstring_total [x4d; x61; x6e; xff] 2 eq_refl). Defined.

(** The conversions to int64 keep the number. *)
Lemma nrand_range bigx : 0 <= bigx < Z.shiftl 1 62 -> nrand bigx = bigx /\ makeSeed bigx = bigx.
Proof. change (Z.shiftl 1 62) with (2 ^ 62). intros Hb. unfold nrand, makeSeed. split; apply wrap64_small; unfold min_int, max_int; lia. Qed.

(** ** [random_handles] *)

Section Shuffle.
Context {A : Type}.

(** [sa[i], sa[j] = sa[j], sa[i]] *)
Definition swap (i j : nat) (sa : list A) : res (list A) :=
  x ← of_option EIndex (sa !! i); y ← of_option EIndex (sa !! j); mret (<[j := x]> (<[i := y]> sa)).

(** [draw i] is what [rand.Intn(i + 1)] gives. *)
Fixpoint shuffle_loop (draw : nat -> nat) (idx : list nat) (sa : list A) : res (list A) :=
  match idx with
  | [] => mret sa
  | i :: rest => sa' ← swap i (draw i) sa; shuffle_loop draw rest sa'
  end.

Definition random_handles (draw : nat -> nat) (kvh : list A) : res (list A) := shuffle_loop draw (seq 0 (length kvh)) kvh.

(** A swap that touches only the end of a list *)
Lemma swap_end i l x : (i < length l)%nat -> exists y, l !! i = Some y /\ swap (length l) i (l ++ [x]) = Val (<[i := x]> l ++ [y]).
Proof.
  intros Hi. destruct (lookup_lt_is_Some_2 _ _ Hi) as [y Hy]. exists y. split; [done|]. unfold swap.
  rewrite (lookup_app_l_Some _ _ _ _ Hy), lookup_app_r, Nat.sub_diag by lia. simpl. rewrite insert_app_r_alt, Nat.sub_diag by lia. simpl. by rewrite insert_app_l.
Qed.

Lemma swap_last l x : swap (length l) (length l) (l ++ [x]) = Val (l ++ [x]).
Proof. unfold swap. rewrite lookup_app_r, Nat.sub_diag by lia. simpl. rewrite list_insert_insert_eq, insert_app_r_alt, Nat.sub_diag by lia. done. Qed.

(** A loop over the indices of [l] leaves what comes behind it. *)
Lemma shuffle_front draw idx l l' k :
  shuffle_loop draw idx l = Val l' -> Forall (fun i => (i < length l)%nat /\ (draw i < length l)%nat) idx -> shuffle_loop draw idx (l ++ k) = Val (l' ++ k).
Proof.
  revert l. induction idx as [|i idx IH]; intros l; simpl; [by intros [= ->]|]. intros Hs [[Hi Hj] His]%Forall_cons.
  destruct (lookup_lt_is_Some_2 _ _ Hi) as [x Hx], (lookup_lt_is_Some_2 _ _ Hj) as [y Hy]. unfold swap in *.
  rewrite Hx, Hy in Hs. rewrite (lookup_app_l_Some _ _ _ _ Hx), (lookup_app_l_Some _ _ _ _ Hy). simpl in *.
  rewrite insert_app_l, insert_app_l by (rewrite ?length_insert; done). apply IH; [done|]. by rewrite !length_insert.
Qed.

Lemma shuffle_app draw idx js l : shuffle_loop draw (idx ++ js) l = l' ← shuffle_loop draw idx l; shuffle_loop draw js l'.
Proof. revert l. induction idx as [|i idx IH]; intros l; simpl; [done|]. destruct (swap i (draw i) l); simpl; [apply IH|done]. Qed.

Lemma shuffle_snoc draw l l' x :
  (forall i, (draw i <= i)%nat) -> random_handles draw l = Val l' -> random_handles draw (l ++ [x]) = swap (length l) (draw (length l)) (l' ++ [x]).
Proof.
  intros Hd Hl. unfold random_handles. rewrite length_app, seq_app, shuffle_app. simpl. rewrite (shuffle_front _ _ _ _ _ Hl).
  - simpl. by destruct (swap _ _ _).
  - apply Forall_seq. intros i Hi. specialize (Hd i). lia.
Qed.

Lemma shuffle_ext draw draw' idx (l : list A) : Forall (fun i => draw i = draw' i) idx -> shuffle_loop draw idx l = shuffle_loop draw' idx l.
Proof.
  intros HF. revert l. induction HF as [|i idx Hi _ IH]; intros l; simpl; [done|]. rewrite Hi. destruct (swap i (draw' i) l); simpl; [apply IH|done].
Qed.

Lemma insert_exchange (k : list A) i x y : k !! i = Some x -> <[i := y]> k ++ [x] ≡ₚ k ++ [y].
Proof.
  intros Hx. rewrite <- (take_drop_middle k i x Hx) at 2. rewrite insert_take_drop by (by eapply lookup_lt_Some).
  rewrite <- !app_assoc. simpl. apply Permutation_app_head. solve_Permutation.
Qed.

(** [random_handles] returns the handles in another order, without an index out of range. *)
Lemma random_handles_perm draw kvh : (forall i, (draw i <= i)%nat) -> exists sa, random_handles draw kvh = Val sa /\ sa ≡ₚ kvh.
Proof.
  intros Hd. induction kvh as [|x l (l' & Hl & Hp)] using rev_ind; [by exists []|].
  rewrite (shuffle_snoc draw l l' x Hd Hl). rewrite <- (Permutation_length Hp).
  destruct (decide (draw (length l') = length l')) as [->|Hne]; [rewrite swap_last; eexists; split; [done|by rewrite Hp]|].
  destruct (swap_end (draw (length l')) l' x) as (y & Hy & ->); [specialize (Hd (length l')); lia|]. eexists. split; [done|].
  rewrite (insert_exchange l' _ y x Hy). by rewrite Hp.
Qed.

(** [random_handles] is a shuffle: whatever [rand.Intn] draws it returns the handles in another order, without an
    index out of range, and every order is the result of some draws. *)
Theorem random_handles_shuffles kvh :
  (forall draw, (forall i, (draw i <= i)%nat) -> exists sa, random_handles draw kvh = Val sa /\ sa ≡ₚ kvh) /\
  (forall sa, sa ≡ₚ kvh -> exists draw, (forall i, (draw i <= i)%nat) /\ random_handles draw kvh = Val sa).
Proof.
  split; [intros draw; apply random_handles_perm|]. induction kvh as [|x l IH] using rev_ind; intros sa Hp.
  { apply Permutation_nil_r in Hp as ->. exists (fun _ => 0%nat). split; [lia|done]. }
  assert (x ∈ sa) as (i & Hi)%list_elem_of_lookup by (rewrite Hp; apply elem_of_app; right; by apply list_elem_of_singleton).
  assert (length sa = S (length l)) as Hlen by (rewrite (Permutation_length Hp), length_app; simpl; lia).
  destruct sa as [|y k _] using rev_ind; [done|]. rewrite length_app in Hlen. simpl in Hlen.
  (* the list before the last swap, and that swap *)
  assert (exists k' j, k' ≡ₚ l /\ (j <= length l)%nat /\ swap (length l) j (k' ++ [x]) = Val (k ++ [y])) as (k' & j & Hk' & Hj & Hsw).
  { destruct (decide (i < length k)%nat) as [Hik|Hik].
    - rewrite lookup_app_l in Hi by done. exists (<[i := y]> k), i. split; [|split; [lia|]].
      + apply (Permutation_app_inv_r [x]). by rewrite (insert_exchange k i x y Hi).
      + replace (length l) with (length (<[i := y]> k)) by (rewrite length_insert; lia).
        destruct (swap_end i (<[i := y]> k) x) as (z & Hz & ->); [by rewrite length_insert|].
        rewrite list_lookup_insert_eq in Hz by done. injection Hz as <-. by rewrite list_insert_insert_eq, list_insert_id.
    - rewrite lookup_app_r in Hi by lia. apply list_lookup_singleton_Some in Hi as [Hi0 ->]. exists k, (length l).
      split; [by apply (Permutation_app_inv_r [x])|]. split; [done|]. replace (length l) with (length k) by lia. apply swap_last. }
  destruct (IH k' Hk') as (draw & Hd & Hr). exists (fun n => if decide (n = length l) then j else draw n).
  assert (forall n, ((if decide (n = length l) then j else draw n) <= n)%nat) as Hd' by (intros n; case_decide; [lia|apply Hd]).
  split; [done|]. rewrite (shuffle_snoc _ l k' x Hd').
  - by rewrite decide_True.
  - rewrite <- Hr. apply shuffle_ext, Forall_seq. intros n Hn. rewrite decide_False; [done|lia].
Qed.

End Shuffle.

End TestRand.
