(* ===== verification/RaftTester.v ===== *)
(** * The tester of Raft (raft/config.go)

    The tester keeps servers, their persisters and the ends of the network between them.  Raft servers and
    persisters are objects on heaps ([instances], [persisters]), because the tester and a server share a
    persister until the server is crashed, and a crashed server's goroutines go on.  [None] is nil.

    What runs meanwhile in other goroutines is an argument: the answers of [GetState] and [Start], the configuration
    at each look at the logs, the clock, the order of a range over a map.  [Fatalf] ends the test: it
    is the value [Err (EFatal _)]. *)

From stdpp Require Import base list gmap strings.
From Stdlib Require Import ZArith Lia Strings.Byte.
From S2P Require Import Prelude RaftNode RaftCodec Labrpc TestRand.
Import RaftNode RaftCodec TestRand.

Open Scope Z_scope.

Module RaftTester.

Notation Network := Labrpc.Network.
Notation IInt := Labrpc.IInt.
Notation IStr := Labrpc.IStr.

Definition Second : Z := 1000000000.

Section Tester.
Context {Cmd : Type} `{!EqDecision Cmd, !Codec Cmd}.

(** What reflection finds of the methods of the server at an address *)
Context {App : Type} (methods_of : nat -> list (Labrpc.methodDesc (App := App))).

Notation Raft := (Raft Cmd).
Notation ApplyMsg := (ApplyMsg Cmd).
Notation Server := (Labrpc.Server (App := App)).

(** A running server and the address of its persister *)
Record instance := mkInstance {
  in_raft : Raft;
  in_persister : nat }.

Record config := mkConfig {
  net : Network;
  n : nat;
  rafts : list (option nat);
  applyErr : list string;
  connected : list bool;
  saved : list (option nat);
  endnames : list (option (list string));
  logs : list (gmap Z (option Cmd));
  start : Z;
  t0 : Z;
  rpcs0 : Z;
  cmds0 : Z;
  bytes0 : Z;
  maxIndex : Z;
  maxIndex0 : Z;
  failed : bool;                 (* t.Failed() *)
  instances : list instance;
  persisters : list Persister;
  servers : list Server }.

Definition with_net (v : Network) (cfg : config) : config :=
  mkConfig v (n cfg) (rafts cfg) (applyErr cfg) (connected cfg) (saved cfg) (endnames cfg) (logs cfg) (start cfg) (t0 cfg) (rpcs0 cfg) (cmds0 cfg) (bytes0 cfg) (maxIndex cfg) (maxIndex0 cfg) (failed cfg) (instances cfg) (persisters cfg) (servers cfg).
Definition with_rafts (v : list (option nat)) (cfg : config) : config :=
  mkConfig (net cfg) (n cfg) v (applyErr cfg) (connected cfg) (saved cfg) (endnames cfg) (logs cfg) (start cfg) (t0 cfg) (rpcs0 cfg) (cmds0 cfg) (bytes0 cfg) (maxIndex cfg) (maxIndex0 cfg) (failed cfg) (instances cfg) (persisters cfg) (servers cfg).
Definition with_connected (v : list bool) (cfg : config) : config :=
  mkConfig (net cfg) (n cfg) (rafts cfg) (applyErr cfg) v (saved cfg) (endnames cfg) (logs cfg) (start cfg) (t0 cfg) (rpcs0 cfg) (cmds0 cfg) (bytes0 cfg) (maxIndex cfg) (maxIndex0 cfg) (failed cfg) (instances cfg) (persisters cfg) (servers cfg).
Definition with_saved (v : list (option nat)) (cfg : config) : config :=
  mkConfig (net cfg) (n cfg) (rafts cfg) (applyErr cfg) (connected cfg) v (endnames cfg) (logs cfg) (start cfg) (t0 cfg) (rpcs0 cfg) (cmds0 cfg) (bytes0 cfg) (maxIndex cfg) (maxIndex0 cfg) (failed cfg) (instances cfg) (persisters cfg) (servers cfg).
Definition with_endnames (v : list (option (list string))) (cfg : config) : config :=
  mkConfig (net cfg) (n cfg) (rafts cfg) (applyErr cfg) (connected cfg) (saved cfg) v (logs cfg) (start cfg) (t0 cfg) (rpcs0 cfg) (cmds0 cfg) (bytes0 cfg) (maxIndex cfg) (maxIndex0 cfg) (failed cfg) (instances cfg) (persisters cfg) (servers cfg).
Definition with_logs (v : list (gmap Z (option Cmd))) (m : Z) (cfg : config) : config :=
  mkConfig (net cfg) (n cfg) (rafts cfg) (applyErr cfg) (connected cfg) (saved cfg) (endnames cfg) v (start cfg) (t0 cfg) (rpcs0 cfg) (cmds0 cfg) (bytes0 cfg) m (maxIndex0 cfg) (failed cfg) (instances cfg) (persisters cfg) (servers cfg).
Definition with_test (t r c b m : Z) (cfg : config) : config :=
  mkConfig (net cfg) (n cfg) (rafts cfg) (applyErr cfg) (connected cfg) (saved cfg) (endnames cfg) (logs cfg) (start cfg) t r c b (maxIndex cfg) m (failed cfg) (instances cfg) (persisters cfg) (servers cfg).
Definition with_instances (v : list instance) (cfg : config) : config :=
  mkConfig (net cfg) (n cfg) (rafts cfg) (applyErr cfg) (connected cfg) (saved cfg) (endnames cfg) (logs cfg) (start cfg) (t0 cfg) (rpcs0 cfg) (cmds0 cfg) (bytes0 cfg) (maxIndex cfg) (maxIndex0 cfg) (failed cfg) v (persisters cfg) (servers cfg).
Definition with_persisters (v : list Persister) (cfg : config) : config :=
  mkConfig (net cfg) (n cfg) (rafts cfg) (applyErr cfg) (connected cfg) (saved cfg) (endnames cfg) (logs cfg) (start cfg) (t0 cfg) (rpcs0 cfg) (cmds0 cfg) (bytes0 cfg) (maxIndex cfg) (maxIndex0 cfg) (failed cfg) (instances cfg) v (servers cfg).
Definition with_servers (v : list Server) (cfg : config) : config :=
  mkConfig (net cfg) (n cfg) (rafts cfg) (applyErr cfg) (connected cfg) (saved cfg) (endnames cfg) (logs cfg) (start cfg) (t0 cfg) (rpcs0 cfg) (cmds0 cfg) (bytes0 cfg) (maxIndex cfg) (maxIndex0 cfg) (failed cfg) (instances cfg) (persisters cfg) v.

(** A new persister object *)
Definition new_persister (ps : Persister) (cfg : config) : nat * config :=
  (length (persisters cfg), with_persisters (persisters cfg ++ [ps]) cfg).

(** ** Attaching and detaching servers *)

(** [cfg.endnames[i][j]] *)
Definition endname_at (cfg : config) (i j : nat) : res string :=
  names ← go_index (endnames cfg) (Z.of_nat i);
  match names with
  | Some l => go_index l (Z.of_nat j)
  | None => Err EIndex
  end.

Definition enable (e : string) (yes : bool) (cfg : config) : config := with_net (Labrpc.Enable (IStr e) yes (net cfg)) cfg.

Definition connect (i : nat) (cfg : config) : res config :=
  conn ← go_update (connected cfg) (Z.of_nat i) true;
  let cfg1 := with_connected conn cfg in
  cfg2 ← go_for 0 (n cfg1) (fun j cfg =>
    cj ← go_index (connected cfg) (Z.of_nat j);
    if (cj : bool) then endname ← endname_at cfg i j; mret (enable endname true cfg) else mret cfg) cfg1;
  go_for 0 (n cfg2) (fun j cfg =>
    cj ← go_index (connected cfg) (Z.of_nat j);
    if (cj : bool) then endname ← endname_at cfg j i; mret (enable endname true cfg) else mret cfg) cfg2.

Definition disconnect (i : nat) (cfg : config) : res config :=
  conn ← go_update (connected cfg) (Z.of_nat i) false;
  let cfg1 := with_connected conn cfg in
  cfg2 ← go_for 0 (n cfg1) (fun j cfg =>
    names ← go_index (endnames cfg) (Z.of_nat i);
    match names with
    | Some l => endname ← go_index l (Z.of_nat j); mret (enable endname false cfg)
    | None => mret cfg
    end) cfg1;
  go_for 0 (n cfg2) (fun j cfg =>
    names ← go_index (endnames cfg) (Z.of_nat j);
    match names with
    | Some l => endname ← go_index l (Z.of_nat i); mret (enable endname false cfg)
    | None => mret cfg
    end) cfg2.

(** ** Crashing and starting servers *)

(** A section of the server at address [a]: it reads and writes the persister it was made with. *)
Definition run_section (a : nat) (f : Raft -> res Raft) (cfg : config) : res config :=
  ins ← of_option ENil (instances cfg !! a);
  ps ← of_option ENil (persisters cfg !! in_persister ins);
  rf' ← f (set_persister ps (in_raft ins));
  mret (with_instances (<[a := mkInstance rf' (in_persister ins)]> (instances cfg))
          (with_persisters (<[in_persister ins := persister rf']> (persisters cfg)) cfg)).

Definition crash1 (i : nat) (cfg : config) : res config :=
  cfg1 ← disconnect i cfg;
  let cfg2 := with_net (Labrpc.DeleteServer (IInt (Z.of_nat i)) (net cfg1)) cfg1 in
  sv ← go_index (saved cfg2) (Z.of_nat i);
  cfg3 ← match sv with
         | Some p =>
             ps ← of_option ENil (persisters cfg2 !! p);
             let '(p', cfg') := new_persister (Copy ps) cfg2 in
             mret (with_saved (<[i := Some p']> (saved cfg')) cfg')
         | None => mret cfg2
         end;
  rf ← go_index (rafts cfg3) (Z.of_nat i);
  cfg4 ← match rf with
         | Some a =>
             cfg' ← run_section a (fun rf => mret (Kill rf)) cfg3;
             mret (with_rafts (<[i := None]> (rafts cfg')) cfg')
         | None => mret cfg3
         end;
  sv' ← go_index (saved cfg4) (Z.of_nat i);
  match sv' with
  | Some p =>
      ps ← of_option ENil (persisters cfg4 !! p);
      let raftlog := ReadRaftState ps in
      let '(p', cfg') := new_persister (SaveRaftState (mkPersister [] []) raftlog) cfg4 in
      mret (with_saved (<[i := Some p']> (saved cfg')) cfg')
  | None => mret cfg4
  end.

(** The names of the new ends; [rnds] are the random bytes of each. *)
Definition fresh_names (k : nat) (rnds : nat -> list byte) : res (list string) :=
  mapM (fun j => randstring (rnds j) 20) (seq 0 k).

(** The second half of [start1]: a persister of its own for the new server, the server, its RPC server.  [now],
    [rnd]: the clock and the random number [Make] reads.  The goroutine that reads the apply channel is
    [apply_one] below. *)
Definition boot (i : nat) (now rnd : Z) (cfg : config) : res config :=
  sv ← go_index (saved cfg) (Z.of_nat i);
  '(p, cfg1) ← match sv with
         | Some p => ps ← of_option ENil (persisters cfg !! p); mret (new_persister (Copy ps) cfg)
         | None => mret (new_persister MakePersister cfg)
         end;
  let cfg2 := with_saved (<[i := Some p]> (saved cfg1)) cfg1 in
  ps ← of_option ENil (persisters cfg2 !! p);
  rf ← Make (n cfg2) (Z.of_nat i) ps now rnd;
  let a := length (instances cfg2) in
  let cfg3 := with_instances (instances cfg2 ++ [mkInstance rf p]) cfg2 in
  rs ← go_update (rafts cfg3) (Z.of_nat i) (Some a);
  let cfg4 := with_rafts rs cfg3 in
  let svc := Labrpc.MakeService "Raft" (methods_of a) in
  let srv := Labrpc.AddService svc Labrpc.MakeServer in
  mret (with_net (Labrpc.AddServer (IInt (Z.of_nat i)) (length (servers cfg4)) (net cfg4))
          (with_servers (servers cfg4 ++ [srv]) cfg4)).

(** [rnds]: the random bytes of the new ends' names *)
Definition start1 (i : nat) (rnds : nat -> list byte) (now rnd : Z) (cfg : config) : res config :=
  cfg1 ← crash1 i cfg;
  names ← fresh_names (n cfg1) rnds;
  eps ← go_update (endnames cfg1) (Z.of_nat i) (Some names);
  let cfg2 := with_endnames eps cfg1 in
  cfg3 ← go_for 0 (n cfg2) (fun j cfg =>
    e ← endname_at cfg i j;
    rn ← Labrpc.MakeEnd (IStr e) (net cfg);
    mret (with_net (Labrpc.Connect (IStr e) (IInt (Z.of_nat j)) rn) cfg)) cfg2;
  boot i now rnd cfg3.

Definition setunreliable (unrel : bool) (cfg : config) : config := with_net (Labrpc.Reliable (negb unrel) (net cfg)) cfg.
Definition setlongreordering (longrel : bool) (cfg : config) : config := with_net (Labrpc.LongReordering longrel (net cfg)) cfg.

(** The state [make_config] starts from *)
Definition blank (k : nat) (now : Z) : config :=
  mkConfig Labrpc.MakeNetwork k (replicate k None) (replicate k "") (replicate k false) (replicate k None) (replicate k None)
    (replicate k ∅) now 0 0 0 0 0 0 false [] [] [].

Definition make_config (k : nat) (unreliable : bool) (now0 : Z) (rnds : nat -> nat -> list byte) (now rnd : nat -> Z) : res config :=
  let cfg := setunreliable unreliable (blank k now0) in
  let cfg1 := with_net (Labrpc.LongDelays true (net cfg)) cfg in
  cfg2 ← go_for 0 k (fun i cfg => start1 i (rnds i) (now i) (rnd i) cfg) cfg1;
  go_for 0 k connect cfg2.

(** [Fatal] unless the test has failed already *)
Definition checkTimeout (now : Z) (cfg : config) : res config :=
  if negb (failed cfg) && (120 * Second <? now - start cfg) then Err (EFatal "test took longer than 120 seconds") else mret cfg.

Definition cleanup (now : Z) (cfg : config) : res config :=
  cfg1 ← go_for 0 (length (rafts cfg)) (fun i cfg =>
    rf ← go_index (rafts cfg) (Z.of_nat i);
    match rf with Some a => run_section a (fun rf => mret (Kill rf)) cfg | None => mret cfg end) cfg;
  rn ← Labrpc.Cleanup (net cfg1);
  checkTimeout now (with_net rn cfg1).

Definition rpcCount (cfg : config) (server : nat) : res Z := Labrpc.GetCount (net cfg) (servers cfg) (IInt (Z.of_nat server)).
Definition rpcTotal (cfg : config) : Z := Labrpc.GetTotalCount (net cfg).
Definition bytesTotal (cfg : config) : Z := Labrpc.GetTotalBytes (net cfg).

Definition begin_ (now : Z) (cfg : config) : config := with_test now (rpcTotal cfg) 0 (bytesTotal cfg) (maxIndex cfg) cfg.

(** The numbers [end] prints, if the test has not failed: time, servers, RPCs, bytes, agreements *)
Definition end_ (now : Z) (cfg : config) : res (option (Z * Z * Z * Z * Z)) :=
  cfg1 ← checkTimeout now cfg;
  if negb (failed cfg1) then
    mret (Some (now - t0 cfg1, Z.of_nat (n cfg1), wrap64 (rpcTotal cfg1 - rpcs0 cfg1), wrap64 (bytesTotal cfg1 - bytes0 cfg1),
                wrap64 (maxIndex cfg1 - maxIndex0 cfg1)))
  else mret None.

(** ** Checking what is applied *)

(** The loop over the logs: the last server whose log has another command at the index *)
Fixpoint disagreement (ls : list (gmap Z (option Cmd))) (j : nat) (index : Z) (v : option Cmd) (found : option nat) : option nat :=
  match ls with
  | [] => found
  | l :: ls' =>
      disagreement ls' (S j) index v
        (match l !! index with Some old => if decide (old = v) then found else Some j | None => found end)
  end.

(** One message from the apply channel of server [i]; an error ends the process. *)
Definition apply_one (i : nat) (m : ApplyMsg) (cfg : config) : res config :=
  if negb (CommandValid m) then mret cfg
  else
    let v := am_Command m in
    let bad := disagreement (logs cfg) 0 (CommandIndex m) v None in
    li ← go_index (logs cfg) (Z.of_nat i);
    let prevok := bool_decide (is_Some (li !! (CommandIndex m - 1))) in
    let mi := if maxIndex cfg <? CommandIndex m then CommandIndex m else maxIndex cfg in
    let cfg1 := with_logs (<[i := <[CommandIndex m := v]> li]> (logs cfg)) mi cfg in
    if (1 <? CommandIndex m) && negb prevok then Err (EFatal "apply error: apply out of order")
    else match bad with
         | Some _ => Err (EFatal "apply error: commit index")
         | None => mret cfg1
         end.

(** How many servers have a command at [index], and which *)
Definition nCommitted (cfg : config) (index : Z) : res (Z * option Cmd) :=
  go_for 0 (length (rafts cfg)) (fun i '(count, cmd) =>
    err ← go_index (applyErr cfg) (Z.of_nat i);
    if negb (String.eqb err "") then Err (EFatal err)
    else
      li ← go_index (logs cfg) (Z.of_nat i);
      match li !! index with
      | Some cmd1 =>
          if (0 <? count) && negb (bool_decide (cmd = cmd1)) then Err (EFatal "committed values do not match")
          else mret (count + 1, cmd1)
      | None => mret (count, cmd)
      end) (0, None).

(** ** Looking for leaders *)

(** [cfg.rafts[i].GetState()], which answers [st] *)
Definition ask_state (cfg : config) (i : nat) (st : Z * bool) : res (Z * bool) :=
  rf ← go_index (rafts cfg) (Z.of_nat i);
  match rf with Some _ => mret st | None => Err ENil end.

(** The leaders by term; [st] are the answers of the servers. *)
Definition find_leaders (cfg : config) (st : nat -> Z * bool) : res (gmap Z (list Z)) :=
  go_for 0 (n cfg) (fun i leaders =>
    ci ← go_index (connected cfg) (Z.of_nat i);
    if (ci : bool) then
      '(term, leader) ← ask_state cfg i (st i);
      if (leader : bool) then mret (<[term := default [] (leaders !! term) ++ [Z.of_nat i]]> leaders) else mret leaders
    else mret leaders) ∅.

(** The loop over the map of leaders, in some order *)
Fixpoint last_term (ls : list (Z * list Z)) (lastTermWithLeader : Z) : res Z :=
  match ls with
  | [] => mret lastTermWithLeader
  | (term, leaders) :: ls' =>
      if 1 <? len leaders then Err (EFatal "term has (>1) leaders")
      else last_term ls' (if lastTermWithLeader <? term then term else lastTermWithLeader)
  end.

Fixpoint one_leader_loop (cfg : config) (getState : nat -> nat -> Z * bool) (range : gmap Z (list Z) -> list (Z * list Z))
    (iters k : nat) : res Z :=
  match k with
  | O => Err (EFatal "expected one leader, got none")
  | S k' =>
      leaders ← find_leaders cfg (getState iters);
      lastTermWithLeader ← last_term (range leaders) (-1);
      if negb (bool_decide (size leaders = 0%nat))
      then go_index (default [] (leaders !! lastTermWithLeader)) 0
      else one_leader_loop cfg getState range (S iters) k'
  end.

(** [getState iters i] is the answer of server [i] in turn [iters], [range] the order of a range over a map. *)
Definition checkOneLeader (cfg : config) (getState : nat -> nat -> Z * bool)
    (range : gmap Z (list Z) -> list (Z * list Z)) : res Z :=
  one_leader_loop cfg getState range 0 10.

Definition checkTerms (cfg : config) (st : nat -> Z * bool) : res Z :=
  go_for 0 (n cfg) (fun i term =>
    ci ← go_index (connected cfg) (Z.of_nat i);
    if (ci : bool) then
      '(xterm, _) ← ask_state cfg i (st i);
      if term =? -1 then mret xterm
      else if negb (term =? xterm) then Err (EFatal "servers disagree on term") else mret term
    else mret term) (-1).

Definition checkNoLeader (cfg : config) (st : nat -> Z * bool) : res unit :=
  go_for 0 (n cfg) (fun i _ =>
    ci ← go_index (connected cfg) (Z.of_nat i);
    if (ci : bool) then
      '(_, is_leader) ← ask_state cfg i (st i);
      if (is_leader : bool) then Err (EFatal "expected no leader") else mret tt
    else mret tt) tt.

(** ** Waiting for agreement *)

(** What [wait] returns: a command, or -1 because a server has moved on to another term *)
Inductive waited := WCmd (cmd : option Cmd) | WMovedOn.

(** The loop over the servers: has one a term beyond [startTerm]? *)
Fixpoint moved_on (rs : list (option nat)) (terms : nat -> Z) (i : nat) (startTerm : Z) : res bool :=
  match rs with
  | [] => mret false
  | None :: _ => Err ENil
  | Some _ :: rs' => if startTerm <? terms i then mret true else moved_on rs' terms (S i) startTerm
  end.

(** [view iters] is the configuration in turn [iters], [terms iters i] the term of server [i] then, [final]
    the configuration after the loop. *)
Fixpoint wait_loop (view : nat -> config) (terms : nat -> nat -> Z) (final : config) (index expected startTerm : Z)
    (iters k : nat) : res waited :=
  match k with
  | O =>
      '(nd, cmd) ← nCommitted final index;
      if nd <? expected then Err (EFatal "only some decided") else mret (WCmd cmd)
  | S k' =>
      '(nd, _) ← nCommitted (view iters) index;
      if expected <=? nd then
        '(nd', cmd) ← nCommitted final index;
        if nd' <? expected then Err (EFatal "only some decided") else mret (WCmd cmd)
      else
        moved ← (if -1 <? startTerm then moved_on (rafts (view iters)) (terms iters) 0 startTerm else mret false);
        if (moved : bool) then mret WMovedOn
        else wait_loop view terms final index expected startTerm (S iters) k'
  end.

Definition wait (view : nat -> config) (terms : nat -> nat -> Z) (final : config) (index expected startTerm : Z) : res waited :=
  wait_loop view terms final index expected startTerm 0 30.

(** What a turn of the loops of [one] sees: the configuration, the answers of [Start], how long its work takes and how
    much longer than asked its sleep is *)
Record snapshot := mkSnapshot {
  s_cfg : config;
  s_start : nat -> Z * Z * bool;
  s_took : Z;
  s_over : Z }.

(** The loop over the servers of [one]: the index a leader gave the command, or -1 *)
Fixpoint try_start (cfg : config) (ans : nat -> Z * Z * bool) (starts : nat) (k : nat) : res (Z * nat) :=
  match k with
  | O => mret (-1, starts)
  | S k' =>
      let starts' := ((starts + 1) mod n cfg)%nat in
      cs ← go_index (connected cfg) (Z.of_nat starts');
      rf ← (if (cs : bool) then go_index (rafts cfg) (Z.of_nat starts') else mret None);
      match rf with
      | Some _ =>
          let '(index1, _, ok) := ans starts' in
          if (ok : bool) then mret (index1, starts') else try_start cfg ans starts' k'
      | None => try_start cfg ans starts' k'
      end
  end.

(** Where [one] is: in the outer loop, or in the inner one since [t1] *)
Inductive one_at := OuterAt | InnerAt (index t1 : Z).

(** [env q] is what turn [q] sees and [now] the clock when it tests the time.  The outcome comes with the clock
    then; [None]: not finished with this fuel. *)
Fixpoint one_loop (env : nat -> snapshot) (cmd : Cmd) (expectedServers : Z) (retry : bool) (t0 : Z)
    (starts q : nat) (now : Z) (at_ : one_at) (fuel : nat) : option (res Z * Z) :=
  match fuel with
  | O => None
  | S fuel' =>
      let e := env q in
      let now1 := now + s_took e in
      match at_ with
      | OuterAt =>
          if now - t0 <? 10 * Second then
            match try_start (s_cfg e) (s_start e) starts (n (s_cfg e)) with
            | Err x => Some (Err x, now1)
            | Val (index, starts') =>
                if negb (index =? -1)
                then one_loop env cmd expectedServers retry t0 starts' (S q) now1 (InnerAt index now1) fuel'
                else one_loop env cmd expectedServers retry t0 starts' (S q) (now1 + 50 * Millisecond + s_over e) OuterAt fuel'
            end
          else Some (Err (EFatal "one failed to reach agreement"), now)
      | InnerAt index t1 =>
          if now - t1 <? 2 * Second then
            match nCommitted (s_cfg e) index with
            | Err x => Some (Err x, now1)
            | Val (nd, cmd1) =>
                if (0 <? nd) && (expectedServers <=? nd) && bool_decide (cmd1 = Some cmd) then Some (Val index, now)
                else one_loop env cmd expectedServers retry t0 starts (S q) (now1 + 20 * Millisecond + s_over e) at_ fuel'
            end
          else if negb retry then Some (Err (EFatal "one failed to reach agreement"), now)
          else one_loop env cmd expectedServers retry t0 starts (S q) now OuterAt fuel'
      end
  end.

(** [t0]: the clock when [one] is called *)
Definition one (env : nat -> snapshot) (cmd : Cmd) (expectedServers : Z) (retry : bool) (t0 : Z) (fuel : nat) : option (res Z * Z) :=
  one_loop env cmd expectedServers retry t0 0 0 t0 OuterAt fuel.

(** ** The wiring of the network *)

Definition name_of (cfg : config) (i j : nat) : option string := o ← endnames cfg !! i; l ← o; l !! j.

Definition is_connected (cfg : config) (i : nat) : Prop := connected cfg !! i = Some true.

(** The ends of the running servers are distinct, end [i][j] leads to server [j], and the ends that are
    enabled are those between connected servers; the ends of crashed servers are all disabled. *)
Record wired (cfg : config) : Prop := {
  w_connected : length (connected cfg) = n cfg;
  w_endnames : length (endnames cfg) = n cfg;
  w_row : forall i l, endnames cfg !! i = Some (Some l) -> length l = n cfg;
  w_inj : forall i j i' j' e, name_of cfg i j = Some e -> name_of cfg i' j' = Some e -> i = i' /\ j = j';
  w_ends : forall i j e, name_of cfg i j = Some e -> IStr e ∈ Labrpc.ends (net cfg);
  w_names : forall i, is_connected cfg i -> exists l, endnames cfg !! i = Some (Some l);
  w_to : forall i j e, name_of cfg i j = Some e -> Labrpc.connected_to (net cfg) (IStr e) = Some (IInt (Z.of_nat j));
  w_enabled : forall x, Labrpc.is_enabled (net cfg) x = true <->
    exists i j e, x = IStr e /\ name_of cfg i j = Some e /\ is_connected cfg i /\ is_connected cfg j }.

Definition set_enabled (E : gmap Labrpc.iface bool) (cfg : config) : config :=
  with_net (Labrpc.mkNetwork (Labrpc.reliable (net cfg)) (Labrpc.longDelays (net cfg)) (Labrpc.longReordering (net cfg))
    (Labrpc.ends (net cfg)) E (Labrpc.servers (net cfg)) (Labrpc.connections (net cfg)) (Labrpc.closed (net cfg))
    (Labrpc.count (net cfg)) (Labrpc.nbytes (net cfg))) cfg.

Definition on (E : gmap Labrpc.iface bool) (x : Labrpc.iface) : bool := default false (E !! x).

Lemma set_enabled_id cfg : set_enabled (Labrpc.enabled (net cfg)) cfg = cfg.
Proof. by destruct cfg as [[] ? ? ? ? ? ? ? ? ? ? ? ? ? ? ? ? ? ?]. Qed.

Lemma enable_set e yes E cfg : enable e yes (set_enabled E cfg) = set_enabled (<[IStr e := yes]> E) cfg.
Proof. done. Qed.

Lemma on_insert E e yes x : on (<[IStr e := yes]> E) x = if decide (x = IStr e) then yes else on E x.
Proof. unfold on. case_decide as He; [subst; by rewrite lookup_insert_eq|by rewrite lookup_insert_ne]. Qed.

(** A loop that switches the ends [sel j] *)
Lemma switch_loop (f : nat -> config -> res config) (sel : nat -> option string) (yes : bool) m cfg cfg' E0 :
  (forall j E c', (j < m)%nat -> f j (set_enabled E cfg) = Val c' ->
     c' = match sel j with Some e => enable e yes (set_enabled E cfg) | None => set_enabled E cfg end) ->
  go_for 0 m f (set_enabled E0 cfg) = Val cfg' ->
  exists E, cfg' = set_enabled E cfg /\
    forall x, (on E x = yes <-> on E0 x = yes \/ exists j e, (j < m)%nat /\ sel j = Some e /\ x = IStr e).
Proof.
  intros Hf Hr.
  apply (go_for_inv (fun k c => exists E, c = set_enabled E cfg /\
    forall x, (on E x = yes <-> on E0 x = yes \/ exists j e, (j < k)%nat /\ sel j = Some e /\ x = IStr e))) in Hr; [done| |].
  - exists E0. split; [done|]. intros x. split; [by left|]. intros [?|(j & e & Hj & _)]; [done|lia].
  - intros j c c' Hj (E & -> & HE) Hc'. apply Hf in Hc'; [|lia]. subst c'. destruct (sel j) as [e|] eqn:Hs.
    + rewrite enable_set. eexists. split; [done|]. intros x. rewrite on_insert. case_decide as Hx.
      * split; [|done]. intros _. right. exists j, e. split_and!; [lia|done|done].
      * rewrite HE. split; (intros [?|(j' & e' & Hj' & Hs' & Hx')]; [by left|right]).
        -- exists j', e'. split_and!; [lia|done|done].
        -- exists j', e'. split_and!; [|done|done]. destruct (decide (j' = j)) as [->|]; [congruence|lia].
    + exists E. split; [done|]. intros x. rewrite HE. split; (intros [?|(j' & e' & Hj' & Hs' & Hx')]; [by left|right]).
      * exists j', e'. split_and!; [lia|done|done].
      * exists j', e'. split_and!; [|done|done]. destruct (decide (j' = j)) as [->|]; [congruence|lia].
Qed.

Lemma endname_at_val cfg i j e : endname_at cfg i j = Val e <-> name_of cfg i j = Some e.
Proof.
  unfold endname_at, name_of. rewrite bind_val. setoid_rewrite go_index_of_nat. split.
  - intros (o & Ho & Hr). rewrite Ho. simpl. destruct o as [l|]; [|done]. by apply go_index_of_nat in Hr.
  - destruct (endnames cfg !! i) as [[l|]|] eqn:Ho; simpl; [|done|done]. intros Hl. exists (Some l). split; [done|].
    by apply go_index_of_nat.
Qed.

(** What [connect] and [disconnect] do: the flag, and the ends from and to the server *)
Lemma connect_spec i cfg cfg' :
  connect i cfg = Val cfg' -> (i < length (connected cfg))%nat /\
  exists E, cfg' = set_enabled E (with_connected (<[i := true]> (connected cfg)) cfg) /\
    forall x, on E x = true <-> on (Labrpc.enabled (net cfg)) x = true \/
      exists j e, (j < n cfg)%nat /\ <[i := true]> (connected cfg) !! j = Some true /\
        (name_of cfg i j = Some e \/ name_of cfg j i = Some e) /\ x = IStr e.
Proof.
  unfold connect. intros (conn & [Hi ->]%go_update_val & (cfg2 & H2 & H3)%bind_val)%bind_val.
  rewrite Nat2Z.id in *. unfold len in Hi. split; [lia|]. set (cfg1 := with_connected _ cfg) in *.
  set (sel := fun (a : nat -> nat -> option string) j =>
    match <[i := true]> (connected cfg) !! j with Some true => a i j | _ => None end).
  assert (forall (nm : nat -> nat -> option string) (at_ : nat -> config -> res string),
    (forall j E e, at_ j (set_enabled E cfg1) = Val e -> nm i j = Some e) ->
    forall j E c', (j < n cfg)%nat ->
      (cj ← go_index (connected (set_enabled E cfg1)) (Z.of_nat j);
       if (cj : bool) then endname ← at_ j (set_enabled E cfg1); mret (enable endname true (set_enabled E cfg1))
       else mret (set_enabled E cfg1)) = Val c' ->
      c' = match sel nm j with Some e => enable e true (set_enabled E cfg1) | None => set_enabled E cfg1 end) as Hbody.
  { intros nm at_ Hat j E c' Hj (cj & Hcj%go_index_of_nat & Hr)%bind_val. unfold sel. simpl in Hcj. rewrite Hcj.
    destruct cj; [|by injection Hr as <-]. apply bind_val in Hr as (e & He & [= <-]). by rewrite (Hat _ _ _ He). }
  rewrite <- (set_enabled_id cfg1) in H2.
  apply (switch_loop _ (sel (name_of cfg)) true) in H2 as (E1 & -> & HE1).
  2: { intros j E c' Hj. apply (Hbody (name_of cfg) (fun j c => endname_at c i j)); [|done]. intros k E' e He%endname_at_val. exact He. }
  apply (switch_loop _ (sel (fun a b => name_of cfg b a)) true) in H3 as (E2 & -> & HE2).
  2: { intros j E c' Hj. apply (Hbody (fun a b => name_of cfg b a) (fun j c => endname_at c j i)); [|done]. intros k E' e He%endname_at_val. exact He. }
  exists E2. split; [done|]. intros x. rewrite HE2, HE1. unfold sel. split.
  - intros [[?|(j & e & Hj & Hs & ->)]|(j & e & Hj & Hs & ->)]; [by left|right..];
      destruct (_ !! j) as [[]|] eqn:Hc; try done; exists j, e; split_and!; auto.
  - intros [?|(j & e & Hj & Hc & [He|He] & ->)]; [by left; left|left; right|right];
      exists j, e; rewrite Hc; done.
Qed.

Lemma disconnect_spec i cfg cfg' :
  disconnect i cfg = Val cfg' -> (i < length (connected cfg))%nat /\
  exists E, cfg' = set_enabled E (with_connected (<[i := false]> (connected cfg)) cfg) /\
    forall x, on E x = false <-> on (Labrpc.enabled (net cfg)) x = false \/
      exists j e, (j < n cfg)%nat /\ (name_of cfg i j = Some e \/ name_of cfg j i = Some e) /\ x = IStr e.
Proof.
  unfold disconnect. intros (conn & [Hi ->]%go_update_val & (cfg2 & H2 & H3)%bind_val)%bind_val.
  rewrite Nat2Z.id in *. unfold len in Hi. split; [lia|]. set (cfg1 := with_connected _ cfg) in *.
  assert (forall a b E c', (names ← go_index (endnames (set_enabled E cfg1)) (Z.of_nat a);
     match names with
     | Some l => endname ← go_index l (Z.of_nat b); mret (enable endname false (set_enabled E cfg1))
     | None => mret (set_enabled E cfg1)
     end) = Val c' ->
     c' = match name_of cfg a b with Some e => enable e false (set_enabled E cfg1) | None => set_enabled E cfg1 end) as Hbody.
  { intros a b E c' (o & Ho%go_index_of_nat & Hr)%bind_val. simpl in Ho. unfold name_of. rewrite Ho. simpl.
    destruct o as [l|]; [|by injection Hr as <-]. apply bind_val in Hr as (e & He%go_index_of_nat & [= <-]). simpl. by rewrite He. }
  rewrite <- (set_enabled_id cfg1) in H2.
  apply (switch_loop _ (fun j => name_of cfg i j) false) in H2 as (E1 & -> & HE1); [|intros j E c' _; apply Hbody].
  apply (switch_loop _ (fun j => name_of cfg j i) false) in H3 as (E2 & -> & HE2); [|intros j E c' _; apply Hbody].
  exists E2. split; [done|]. intros x. rewrite HE2, HE1. split.
  - intros [[?|(j & e & Hj & He & ->)]|(j & e & Hj & He & ->)]; [by left|right..]; exists j, e; split_and!; auto.
  - intros [?|(j & e & Hj & [He|He] & ->)]; [by left; left|left; right|right]; exists j, e; done.
Qed.

Lemma name_of_lt cfg i j e : wired cfg -> name_of cfg i j = Some e -> (i < n cfg)%nat /\ (j < n cfg)%nat.
Proof.
  intros Hw. unfold name_of. destruct (endnames cfg !! i) as [[l|]|] eqn:Hi; simpl; [|done|done]. intros Hj%lookup_lt_Some.
  rewrite (w_row _ Hw _ _ Hi) in Hj. apply lookup_lt_Some in Hi. rewrite (w_endnames _ Hw) in Hi. done.
Qed.

Lemma wired_connect i cfg cfg' : wired cfg -> (exists l, endnames cfg !! i = Some (Some l)) -> connect i cfg = Val cfg' -> wired cfg'.
Proof.
  intros Hw Hnm (Hi & E & -> & HE)%connect_spec.
  assert (forall j, <[i := true]> (connected cfg) !! j = Some true <-> j = i \/ is_connected cfg j) as Hconn.
  { intros j. unfold is_connected. rewrite list_lookup_insert_Some. destruct (decide (j = i)) as [->|]; naive_solver. }
  assert (forall x, on E x = true <-> exists a b e, x = IStr e /\ name_of cfg a b = Some e /\
            (a = i \/ is_connected cfg a) /\ (b = i \/ is_connected cfg b)) as HE'.
  { intros x. rewrite HE. pose proof (w_enabled _ Hw x) as Hold. unfold Labrpc.is_enabled in Hold. unfold on. rewrite Hold. split.
    - intros [(a & b & e & -> & He & Ha & Hb)|(j & e & Hj & Hc%Hconn & [He|He] & ->)].
      + exists a, b, e. split_and!; auto.
      + exists i, j, e. split_and!; auto.
      + exists j, i, e. split_and!; auto.
    - intros (a & b & e & -> & He & [->|Ha] & Hb).
      + right. exists b, e. split_and!; [apply (name_of_lt _ _ _ _ Hw He)|by apply Hconn|by left|done].
      + destruct Hb as [->|Hb]; [|left; exists a, b, e; split_and!; auto].
        right. exists a, e. split_and!; [apply (name_of_lt _ _ _ _ Hw He)|apply Hconn; by right|by right|done]. }
  constructor; try apply Hw; simpl.
  - rewrite length_insert. apply Hw.
  - intros j. unfold is_connected. simpl. rewrite Hconn. intros [->|Hj]; [done|by apply Hw].
  - intros x. unfold Labrpc.is_enabled. simpl. unfold is_connected. simpl. setoid_rewrite Hconn. apply HE'.
Qed.

Lemma wired_disconnect i cfg cfg' :
  wired cfg -> disconnect i cfg = Val cfg' -> wired cfg' /\ ~ is_connected cfg' i /\
  endnames cfg' = endnames cfg /\ n cfg' = n cfg /\ rafts cfg' = rafts cfg /\ saved cfg' = saved cfg /\
  instances cfg' = instances cfg /\ persisters cfg' = persisters cfg.
Proof.
  intros Hw (Hi & E & -> & HE)%disconnect_spec.
  assert (forall j, <[i := false]> (connected cfg) !! j = Some true <-> j <> i /\ is_connected cfg j) as Hconn.
  { intros j. unfold is_connected. rewrite list_lookup_insert_Some. destruct (decide (j = i)) as [->|]; naive_solver. }
  assert (forall x, on E x = true <-> exists a b e, x = IStr e /\ name_of cfg a b = Some e /\
            (a <> i /\ is_connected cfg a) /\ (b <> i /\ is_connected cfg b)) as HE'.
  { intros x. rewrite <- not_false_iff_true, HE. pose proof (w_enabled _ Hw x) as Hold. unfold Labrpc.is_enabled in Hold. split.
    - intros Hn. assert (on (Labrpc.enabled (net cfg)) x = true) as Hon.
      { apply not_false_iff_true. intros Hf. apply Hn. by left. }
      apply Hold in Hon as (a & b & e & -> & He & Ha & Hb). exists a, b, e.
      destruct (name_of_lt _ _ _ _ Hw He) as [Hla Hlb].
      split_and!; try done; intros ->; apply Hn; right; [exists b, e|exists a, e]; split_and!; auto.
    - intros (a & b & e & -> & He & [Hna Ha] & [Hnb Hb]) [Hf|(j & e' & Hj & Hnm & [= ->])].
      + unfold on in Hf. assert (default false (Labrpc.enabled (net cfg) !! IStr e) = true) as Ht by (apply Hold; exists a, b, e; split_and!; auto). congruence.
      + destruct Hnm as [Hnm|Hnm]; destruct (w_inj _ Hw _ _ _ _ _ He Hnm); done. }
  split; [|split_and!; try done; unfold is_connected; simpl; rewrite Hconn; naive_solver].
  constructor; try apply Hw; simpl.
  - rewrite length_insert. apply Hw.
  - intros j. unfold is_connected. simpl. rewrite Hconn. intros [_ Hj]. by apply Hw.
  - intros x. unfold Labrpc.is_enabled. simpl. unfold is_connected. simpl. setoid_rewrite Hconn. apply HE'.
Qed.

(** What the wiring depends on *)
Definition wiring (cfg : config) :=
  (n cfg, connected cfg, endnames cfg, Labrpc.ends (net cfg), Labrpc.enabled (net cfg), Labrpc.connections (net cfg)).

Lemma wired_wiring cfg cfg' : wiring cfg' = wiring cfg -> wired cfg -> wired cfg'.
Proof.
  intros E []. injection E as E1 E2 E3 E4 E5 E6.
  constructor; unfold name_of, is_connected, Labrpc.is_enabled, Labrpc.connected_to in *;
    rewrite ?E1, ?E2, ?E3, ?E4, ?E5, ?E6; done.
Qed.

Lemma run_section_wiring a f cfg cfg' : run_section a f cfg = Val cfg' -> wiring cfg' = wiring cfg /\ saved cfg' = saved cfg.
Proof. unfold run_section. intros Hr. inv_res. split; reflexivity. Qed.

Lemma crash1_wired i cfg cfg' :
  wired cfg -> crash1 i cfg = Val cfg' -> wired cfg' /\ ~ is_connected cfg' i /\ endnames cfg' = endnames cfg /\ n cfg' = n cfg.
Proof.
  intros Hw. unfold crash1. intros (cfg1 & H1 & Hr)%bind_val.
  destruct (wired_disconnect _ _ _ Hw H1) as (Hw1 & Hnc & Hen & Hn & _).
  assert (wiring cfg' = wiring cfg1) as Hwr.
  { apply bind_val in Hr as (sv & _ & (cfg3 & H3 & (rf & _ & (cfg4 & H4 & (sv' & _ & H5)%bind_val)%bind_val)%bind_val)%bind_val).
    assert (wiring cfg3 = wiring cfg1) as E3.
    { destruct sv as [p0|]; [|by injection H3 as <-]. apply bind_val in H3 as (ps & _ & [= <-]). done. }
    assert (wiring cfg4 = wiring cfg3) as E4.
    { destruct rf as [a|]; [|by inv_res]. apply bind_val in H4 as (c' & [E _]%run_section_wiring & [= <-]). exact E. }
    rewrite <- E3, <- E4. destruct sv' as [p0|]; [|by injection H5 as <-]. apply bind_val in H5 as (ps & _ & [= <-]). done. }
  split; [by eapply wired_wiring|]. injection Hwr as E1 E2 E3 _ _ _. unfold is_connected in *. rewrite E1, E2, E3. done.
Qed.

(** The loop that makes the ends of a new server *)
Record made (cfg cfg' : config) (names : list string) (k : nat) : Prop := {
  md_net : exists rn, cfg' = with_net rn cfg;
  md_ends : forall x, x ∈ Labrpc.ends (net cfg') <->
    x ∈ Labrpc.ends (net cfg) \/ exists j e, (j < k)%nat /\ names !! j = Some e /\ x = IStr e;
  md_fresh : forall j e, (j < k)%nat -> names !! j = Some e -> IStr e ∉ Labrpc.ends (net cfg);
  md_inj : forall j j' e, (j < k)%nat -> (j' < k)%nat -> names !! j = Some e -> names !! j' = Some e -> j = j';
  md_off : forall j e, (j < k)%nat -> names !! j = Some e -> Labrpc.is_enabled (net cfg') (IStr e) = false;
  md_to : forall j e, (j < k)%nat -> names !! j = Some e -> Labrpc.connected_to (net cfg') (IStr e) = Some (IInt (Z.of_nat j));
  md_old : forall x, x ∈ Labrpc.ends (net cfg) ->
    Labrpc.is_enabled (net cfg') x = Labrpc.is_enabled (net cfg) x /\
    Labrpc.connected_to (net cfg') x = Labrpc.connected_to (net cfg) x;
  md_known : forall x, x ∉ Labrpc.ends (net cfg') -> Labrpc.is_enabled (net cfg') x = Labrpc.is_enabled (net cfg) x }.

Lemma made_step (cfg c c' : config) names j e rn :
  made cfg c names j -> names !! j = Some e -> Labrpc.MakeEnd (IStr e) (net c) = Val rn ->
  c' = with_net (Labrpc.Connect (IStr e) (IInt (Z.of_nat j)) rn) c -> made cfg c' names (S j).
Proof.
  intros [(rn0 & ->) Hends Hfr Hinj Hoff Hto Hold Hkn] He Hmk ->. unfold Labrpc.MakeEnd in Hmk. simpl in *.
  destruct (decide _) as [|Hnew]; [done|]. injection Hmk as <-.
  assert (forall j' e', (j' < S j)%nat -> names !! j' = Some e' -> j' = j /\ e' = e \/ (j' < j)%nat /\ e' <> e) as Hcase.
  { intros j' e' Hj' He'. destruct (decide (j' = j)) as [->|]; [left; naive_solver|right]. split; [lia|].
    intros ->. apply Hnew, Hends. right. exists j', e. split_and!; [lia|done|done]. }
  unfold Labrpc.is_enabled, Labrpc.connected_to in *.
  constructor; simpl; unfold Labrpc.is_enabled, Labrpc.connected_to; simpl.
  - by eexists.
  - intros x. rewrite elem_of_union, elem_of_singleton, Hends. split.
    + intros [->|[?|(j' & e' & ? & ? & ->)]]; [right; exists j, e; split_and!; [lia|done|done]|by left|].
      right. exists j', e'. split_and!; [lia|done|done].
    + intros [?|(j' & e' & Hj' & He' & ->)]; [by right; left|]. destruct (Hcase j' e' Hj' He') as [[-> ->]|[? _]]; [by left|].
      right. right. exists j', e'. done.
  - intros j' e' Hj' He'. destruct (Hcase j' e' Hj' He') as [[-> ->]|[? _]]; [|by eapply Hfr]. intros Hin. apply Hnew, Hends. by left.
  - intros j1 j2 e' H1 H2 E1 E2. destruct (Hcase j1 e' H1 E1) as [[-> ->]|[? ?]], (Hcase j2 _ H2 E2) as [[-> ?]|[? ?]]; try done. by eapply Hinj.
  - intros j' e' Hj' He'. destruct (Hcase j' e' Hj' He') as [[-> ->]|[? ?]]; [by rewrite lookup_insert_eq|].
    rewrite lookup_insert_ne by congruence. by eapply Hoff.
  - intros j' e' Hj' He'. destruct (Hcase j' e' Hj' He') as [[-> ->]|[? ?]]; [by rewrite lookup_insert_eq|].
    rewrite !lookup_insert_ne by congruence. by eapply Hto.
  - intros x Hx. assert (x <> IStr e) as Hne by (intros ->; apply Hnew, Hends; by left).
    rewrite !lookup_insert_ne by congruence. by apply Hold.
  - intros x Hx. rewrite lookup_insert_ne by set_solver. apply Hkn. set_solver.
Qed.


Lemma make_ends cfg names i cfg' :
  endnames cfg !! i = Some (Some names) ->
  go_for 0 (n cfg) (fun j cfg =>
    e ← endname_at cfg i j;
    rn ← Labrpc.MakeEnd (IStr e) (net cfg);
    mret (with_net (Labrpc.Connect (IStr e) (IInt (Z.of_nat j)) rn) cfg)) cfg = Val cfg' -> made cfg cfg' names (n cfg).
Proof.
  intros Hi Hr. apply (go_for_inv (fun k c => made cfg c names k)) in Hr; [done| |].
  - constructor; try (intros; lia); try done; [|intros x; split; [by left|intros [?|(j & e & ? & _)]; [done|lia]]].
    exists (net cfg). by destruct cfg.
  - intros j c c' Hj Hm (e & He%endname_at_val & (rn & Hmk & [= <-])%bind_val)%bind_val.
    eapply made_step; try done. destruct (md_net _ _ _ _ Hm) as (rn' & ->). unfold name_of in He. simpl in He. by rewrite Hi in He.
Qed.

Lemma fresh_names_length k rnds names : fresh_names k rnds = Val names -> length names = k.
Proof. unfold fresh_names. intros Hn. by apply (mapM_seq_val _ (fun _ _ => True)) in Hn as [? _]. Qed.

(** A configuration in which server [i] has been given new ends, all disabled *)
Lemma made_wired cfg cfg' i names :
  wired cfg -> ~ is_connected cfg i -> (i < n cfg)%nat -> length names = n cfg ->
  made (with_endnames (<[i := Some names]> (endnames cfg)) cfg) cfg' names (n cfg) -> wired cfg'.
Proof.
  intros Hw Hnc Hi Hlen [(rn & ->) Hends Hfr Hinj Hoff Hto Hold Hkn]. simpl in *.
  assert (forall a b, name_of (with_net rn (with_endnames (<[i := Some names]> (endnames cfg)) cfg)) a b =
            if decide (a = i) then names !! b else name_of cfg a b) as Hname.
  { intros a b. unfold name_of. simpl. case_decide as Ha.
    - subst a. rewrite list_lookup_insert_eq by (by rewrite (w_endnames _ Hw)). done.
    - by rewrite list_lookup_insert_ne. }
  assert (forall b e, names !! b = Some e -> (b < n cfg)%nat) as Hlt by (intros b e Hb%lookup_lt_Some; lia).
  constructor; simpl; [apply Hw|rewrite length_insert; apply Hw| | | | | |].
  - intros a l [(_ & [= <-] & _)|[_ Ha]]%list_lookup_insert_Some; [done|by eapply (w_row _ Hw)].
  - intros a b a' b' e. rewrite !Hname. repeat case_decide; subst; intros H1 H2.
    + split; [done|]. by eapply Hinj; eauto.
    + exfalso. eapply Hfr; [by eapply Hlt|exact H1|]. by eapply (w_ends _ Hw).
    + exfalso. eapply Hfr; [by eapply Hlt|exact H2|]. by eapply (w_ends _ Hw).
    + by eapply (w_inj _ Hw).
  - intros a b e. rewrite Hname, Hends. case_decide as Ha; intros He.
    + right. exists b, e. split_and!; [by eapply Hlt|done|done].
    + left. by eapply (w_ends _ Hw).
  - intros a Ha. destruct (decide (a = i)) as [->|Hne]; [done|]. rewrite list_lookup_insert_ne by done. by apply (w_names _ Hw).
  - intros a b e. rewrite Hname. case_decide as Ha; intros He.
    + eapply Hto; [by eapply Hlt|done].
    + destruct (Hold (IStr e)) as [_ ->]; [by eapply (w_ends _ Hw)|]. by eapply (w_to _ Hw).
  - intros x. unfold is_connected. simpl. split.
    + intros Hx. assert (x ∈ Labrpc.ends (net cfg) \/ x ∉ Labrpc.ends rn) as Hx'.
      { destruct (decide (x ∈ Labrpc.ends rn)) as [Hin|]; [left|by right]. apply Hends in Hin as [?|(j & e & Hj & He & ->)]; [done|].
        rewrite (Hoff j e Hj He) in Hx. done. }
      assert (Labrpc.is_enabled (net cfg) x = true) as Hx0.
      { destruct Hx' as [Hin|Hout]; [by rewrite <- (proj1 (Hold x Hin))|by rewrite <- Hkn]. }
      apply (w_enabled _ Hw) in Hx0 as (a & b & e & -> & He & Ha & Hb). exists a, b, e. rewrite Hname.
      rewrite decide_False by (intros ->; done). done.
    + intros (a & b & e & -> & He & Ha & Hb). rewrite Hname in He. rewrite decide_False in He by (intros ->; done).
      rewrite (proj1 (Hold (IStr e) (w_ends _ Hw _ _ _ He))). apply (w_enabled _ Hw). exists a, b, e. done.
Qed.

(** [connect] panics on a server that was never started. *)
Lemma connect_named i cfg cfg' :
  wired cfg -> connect i cfg = Val cfg' -> exists l, endnames cfg !! i = Some (Some l).
Proof.
  intros Hw Hc. pose proof Hc as [Hi _]%connect_spec. rewrite (w_connected _ Hw) in Hi.
  unfold connect in Hc. apply bind_val in Hc as (conn & [Hr ->]%go_update_val & (cfg2 & H2 & _)%bind_val). rewrite Nat2Z.id in *.
  apply (go_for_inv (fun k c => (connected c, endnames c) = (<[i := true]> (connected cfg), endnames cfg) /\
    ((i < k)%nat -> exists l, endnames cfg !! i = Some (Some l)))) in H2; [by apply H2| |].
  - split; [done|lia].
  - intros j c c' Hj [[= Ec Ee] Hk] (cj & Hcj%go_index_of_nat & Hb)%bind_val. rewrite Ec in Hcj.
    destruct cj; [apply bind_val in Hb as (e & He%endname_at_val & [= <-])|injection Hb as <-]; (split; [by simpl; congruence|]).
    + intros Hij. destruct (decide (i < j)%nat) as [|]; [by apply Hk|]. assert (j = i) as -> by lia.
      unfold name_of in He. rewrite Ee in He. destruct (endnames cfg !! i) as [[l|]|]; simpl in He; [by exists l|done|done].
    + intros Hij. apply Hk. destruct (decide (j = i)) as [->|]; [|lia].
      rewrite list_lookup_insert_eq in Hcj by (unfold len in Hr; lia). done.
Qed.

Lemma boot_wiring i now rnd cfg cfg' : boot i now rnd cfg = Val cfg' -> wiring cfg' = wiring cfg.
Proof.
  unfold boot. intros (sv & _ & ([p cfg1] & H1 & Hr)%bind_val)%bind_val.
  assert (wiring cfg1 = wiring cfg) as <-.
  { destruct sv as [q|]; [apply bind_val in H1 as (ps & _ & [= _ <-])|injection H1 as _ <-]; done. }
  by apply bind_val in Hr as (ps & _ & (rf & _ & (rs & _ & [= <-])%bind_val)%bind_val).
Qed.

Lemma start1_wired i rnds now rnd cfg cfg' :
  wired cfg -> start1 i rnds now rnd cfg = Val cfg' -> wired cfg'.
Proof.
  intros Hw. unfold start1. intros (cfg1 & H1 & (names & Hnm & (eps & [Hi ->]%go_update_val & (cfg3 & H3 & Hr)%bind_val)%bind_val)%bind_val)%bind_val.
  destruct (crash1_wired _ _ _ Hw H1) as (Hw1 & Hnc & _ & _). rewrite Nat2Z.id in *.
  pose proof (fresh_names_length _ _ _ Hnm) as Hlen. unfold len in Hi. rewrite (w_endnames _ Hw1) in Hi.
  apply (make_ends _ names i) in H3; [|simpl; apply list_lookup_insert_eq; rewrite (w_endnames _ Hw1); lia].
  assert (wired cfg3) as Hw3 by (eapply made_wired; [exact Hw1|done|lia|done|exact H3]).
  apply (wired_wiring cfg3); [|done]. by apply (boot_wiring i now rnd).
Qed.

(** The operations a test uses *)
Inductive tester_op :=
  | OpConnect (i : nat) | OpDisconnect (i : nat) | OpCrash (i : nat)
  | OpStart (i : nat) (rnds : nat -> list byte) (now rnd : Z)
  | OpUnreliable (yes : bool) | OpReordering (yes : bool)
  | OpSection (a : nat) (f : Raft -> res Raft)   (* some goroutine of a server, crashed or not *)
  | OpApply (i : nat) (m : ApplyMsg).

Definition tester_step (o : tester_op) (cfg : config) : res config :=
  match o with
  | OpConnect i => connect i cfg
  | OpDisconnect i => disconnect i cfg
  | OpCrash i => crash1 i cfg
  | OpStart i rnds now rnd => start1 i rnds now rnd cfg
  | OpUnreliable yes => mret (setunreliable yes cfg)
  | OpReordering yes => mret (setlongreordering yes cfg)
  | OpSection a f => run_section a f cfg
  | OpApply i m => apply_one i m cfg
  end.

Fixpoint tester_run (os : list tester_op) (cfg : config) : res config :=
  match os with
  | [] => mret cfg
  | o :: os' => cfg' ← tester_step o cfg; tester_run os' cfg'
  end.

Lemma tester_step_wired o cfg cfg' : wired cfg -> tester_step o cfg = Val cfg' -> wired cfg'.
Proof.
  intros Hw. destruct o as [i|i|i|i rnds now rnd|yes|yes|a f|i m]; simpl.
  - intros Hc. eapply wired_connect; [done|by eapply connect_named|done].
  - intros Hc. by apply (wired_disconnect i cfg).
  - intros Hc. by apply (crash1_wired i cfg).
  - by apply start1_wired.
  - intros [= <-]. by eapply wired_wiring; [|exact Hw].
  - intros [= <-]. by eapply wired_wiring; [|exact Hw].
  - intros [E _]%run_section_wiring. by eapply wired_wiring.
  - intros Ha. apply (wired_wiring cfg); [|done]. unfold apply_one in Ha. destruct (negb _); [by injection Ha as <-|].
    apply bind_val in Ha as (li & _ & Ha). destruct (_ && _); [done|]. by destruct (disagreement _ _ _ _ _); [|injection Ha as <-].
Qed.

Lemma tester_run_wired os cfg cfg' : wired cfg -> tester_run os cfg = Val cfg' -> wired cfg'.
Proof.
  revert cfg. induction os as [|o os IH]; intros cfg Hw; simpl; [by intros [= <-]|].
  intros (cfg1 & H1 & Hr)%bind_val. eapply IH; [|done]. by eapply tester_step_wired.
Qed.

Lemma blank_wired k now : wired (blank k now).
Proof.
  assert (forall i j e, name_of (blank k now) i j <> Some e) as Hno.
  { intros i j e. unfold name_of. simpl. destruct (_ !! i) as [o|] eqn:E; simpl; [|done]. by apply lookup_replicate in E as [-> _]. }
  constructor; simpl; rewrite ?length_replicate; try done.
  - intros i l [? _]%lookup_replicate. done.
  - intros i j i' j' e He. by destruct (Hno i j e).
  - intros i j e He. by destruct (Hno i j e).
  - intros i. unfold is_connected. simpl. intros [? _]%lookup_replicate. done.
  - intros i j e He. by destruct (Hno i j e).
  - intros x. split; [done|]. intros (i & j & e & _ & He & _). by destruct (Hno i j e).
Qed.

Lemma make_config_wired k unreliable now0 rnds now rnd cfg :
  make_config k unreliable now0 rnds now rnd = Val cfg -> wired cfg.
Proof.
  unfold make_config. intros (cfg2 & H2 & H3)%bind_val.
  apply (go_for_inv (fun _ c => wired c)) in H2.
  - apply (go_for_inv (fun _ c => wired c)) in H3; [done|done|].
    intros j c c' _ Hw Hc. by apply (tester_step_wired (OpConnect j) c).
  - eapply wired_wiring; [|apply (blank_wired k now0)]. done.
  - intros j c c' _ Hw Hc. by eapply start1_wired.
Qed.

(** C18: The network of the tester is wired as its books say.  After [make_config] and any sequence of
    connecting, disconnecting, crashing and starting servers, whatever the servers do meanwhile, an end
    is enabled exactly if it is the current end from a connected server to a connected server, and
    leads to the latter.  So an end that a restart has replaced is disabled.  A crashed server keeps its ends:
    [crash1] disconnects it, and a test that connects it before starting it again enables them. *)
Theorem tester_wiring k unreliable now0 rnds now rnd cfg0 os cfg x :
  make_config k unreliable now0 rnds now rnd = Val cfg0 -> tester_run os cfg0 = Val cfg ->
  Labrpc.is_enabled (net cfg) x = true <->
  exists i j e, x = IStr e /\ name_of cfg i j = Some e /\ is_connected cfg i /\ is_connected cfg j /\
    Labrpc.connected_to (net cfg) x = Some (IInt (Z.of_nat j)).
Proof.
  intros H0%make_config_wired Hr. pose proof (tester_run_wired _ _ _ H0 Hr) as Hw. rewrite (w_enabled _ Hw). split.
  - intros (i & j & e & -> & He & Hi & Hj). exists i, j, e. split_and!; try done. by apply (w_to _ Hw i).
  - intros (i & j & e & -> & He & Hi & Hj & _). by exists i, j, e.
Qed.

(** ** Crashed servers *)

(** Server [i] runs at address [a], and the tester shares its persister, which holds [ps]. *)
Record running_at (cfg : config) (i a : nat) (ins : instance) (ps : Persister) : Prop := {
  ra_raft : rafts cfg !! i = Some (Some a);
  ra_instance : instances cfg !! a = Some ins;
  ra_saved : saved cfg !! i = Some (Some (in_persister ins));
  ra_persister : persisters cfg !! in_persister ins = Some ps }.

Lemma crash1_saved i a ins ps cfg cfg' :
  running_at cfg i a ins ps -> crash1 i cfg = Val cfg' ->
  n cfg' = n cfg /\
  instances cfg' = <[a := mkInstance (Kill (set_persister ps (in_raft ins))) (in_persister ins)]> (instances cfg) /\
  exists p, saved cfg' !! i = Some (Some p) /\ persisters cfg' !! p = Some (mkPersister (raftstate ps) []) /\
    (length (persisters cfg) <= p)%nat.
Proof.
  intros [Hrf Hin Hsv Hps]. unfold crash1. intros (cfg1 & (_ & E & -> & _)%disconnect_spec & Hr)%bind_val. revert Hr. simpl.
  intros (sv & Hsv'%go_index_of_nat & Hr)%bind_val. simpl in Hsv'. rewrite Hsv in Hsv'. injection Hsv' as <-.
  apply bind_val in Hr as (cfg3 & H3 & Hr). simpl in H3. rewrite Hps in H3. injection H3 as <-.
  apply bind_val in Hr as (rf & Hrf'%go_index_of_nat & Hr). simpl in Hrf'. rewrite Hrf in Hrf'. injection Hrf' as <-.
  apply bind_val in Hr as (cfg4 & H4 & Hr). apply bind_val in H4 as (c4 & H4 & [= <-]).
  pose proof (lookup_lt_Some _ _ _ Hsv) as Hi. pose proof (lookup_lt_Some _ _ _ Hps) as Hp.
  unfold run_section in H4. simpl in H4. rewrite Hin in H4. simpl in H4.
  rewrite lookup_app_l, Hps in H4 by done. simpl in H4. injection H4 as <-.
  apply bind_val in Hr as (sv' & Hsv2%go_index_of_nat & Hr). simpl in Hsv2. rewrite list_lookup_insert_eq in Hsv2 by done.
  injection Hsv2 as <-. apply bind_val in Hr as (ps' & Hps'%of_option_val & [= <-]). simpl in *.
  rewrite insert_app_l, list_insert_id in Hps' by done.
  rewrite lookup_app_r, Nat.sub_diag in Hps' by lia. injection Hps' as <-.
  split_and!; [done|done|]. eexists. split_and!.
  - apply list_lookup_insert_eq. by rewrite length_insert.
  - rewrite lookup_app_r, Nat.sub_diag by lia. done.
  - rewrite length_insert, length_app. simpl. lia.
Qed.

Lemma boot_running i p ps now rnd cfg cfg' :
  saved cfg !! i = Some (Some p) -> persisters cfg !! p = Some ps -> boot i now rnd cfg = Val cfg' ->
  exists rf, Make (n cfg) (Z.of_nat i) ps now rnd = Val rf /\
    running_at cfg' i (length (instances cfg)) (mkInstance rf (length (persisters cfg))) ps /\
    instances cfg' = instances cfg ++ [mkInstance rf (length (persisters cfg))].
Proof.
  intros Hsv Hps. unfold boot. intros (sv & Hsv'%go_index_of_nat & Hr)%bind_val. rewrite Hsv in Hsv'. injection Hsv' as <-.
  rewrite Hps in Hr. simpl in Hr. rewrite lookup_app_r, Nat.sub_diag in Hr by lia. simpl in Hr. unfold Copy in Hr.
  replace (mkPersister (raftstate ps) (RaftNode.snapshot ps)) with ps in Hr by (by destruct ps).
  apply bind_val in Hr as (rf & Hmk & (rs & [Hrs ->]%go_update_val & [= <-])%bind_val). rewrite Nat2Z.id.
  pose proof (lookup_lt_Some _ _ _ Hsv) as Hi.
  exists rf. split_and!; [done| |done]. constructor; simpl.
  - apply list_lookup_insert_eq. unfold len in Hrs. lia.
  - by rewrite lookup_app_r, Nat.sub_diag.
  - by apply list_lookup_insert_eq.
  - by rewrite lookup_app_r, Nat.sub_diag.
Qed.

(** Whatever another server does, with another persister, it changes nothing of this one. *)
Lemma run_section_other cfg cfg' i a a' ins ins' ps f :
  running_at cfg i a ins ps -> instances cfg !! a' = Some ins' -> a' <> a -> in_persister ins' <> in_persister ins ->
  run_section a' f cfg = Val cfg' -> running_at cfg' i a ins ps.
Proof.
  intros [? ? ? ?] Ha' Hne Hp. unfold run_section. rewrite Ha'. simpl.
  intros (ps' & _ & (rf & _ & [= <-])%bind_val)%bind_val. constructor; simpl; rewrite ?list_lookup_insert_ne by done; done.
Qed.

(** A restart isolates the old server.  Starting server [i] again makes a new server from the state the
    old one had saved, with a persister of its own, and kills the old one; whatever the old one's
    goroutines still do, they change neither the new server nor its persister. *)
Theorem restart_isolates i a ins ps rnds now rnd cfg cfg' :
  running_at cfg i a ins ps -> start1 i rnds now rnd cfg = Val cfg' ->
  exists a' p' rf', running_at cfg' i a' (mkInstance rf' p') (mkPersister (raftstate ps) []) /\
    Make (n cfg) (Z.of_nat i) (mkPersister (raftstate ps) []) now rnd = Val rf' /\
    (exists rf, instances cfg' !! a = Some (mkInstance rf (in_persister ins)) /\ killed rf = true) /\
    forall f cfg'', run_section a f cfg' = Val cfg'' ->
      running_at cfg'' i a' (mkInstance rf' p') (mkPersister (raftstate ps) []).
Proof.
  intros Hra. unfold start1. intros (cfg1 & H1 & (names & _ & (eps & _ & (cfg3 & H3 & Hb)%bind_val)%bind_val)%bind_val)%bind_val.
  destruct (crash1_saved _ _ _ _ _ _ Hra H1) as (Hn & Hins & p & Hsv & Hps & Hp).
  assert ((n cfg3, instances cfg3, saved cfg3, persisters cfg3) = (n cfg1, instances cfg1, saved cfg1, persisters cfg1)) as [= E1 E2 E3 E4].
  { apply (go_for_inv (fun _ c => (n c, instances c, saved c, persisters c) = (n cfg1, instances cfg1, saved cfg1, persisters cfg1))) in H3;
      [done|done|]. intros j c c' _ Hc (e & _ & (rn & _ & [= <-])%bind_val)%bind_val. done. }
  apply (boot_running i p (mkPersister (raftstate ps) [])) in Hb as (rf' & Hmk & Hrun & Hin); [|congruence..].
  pose proof (lookup_lt_Some _ _ _ (ra_instance _ _ _ _ _ Hra)) as Ha. pose proof (lookup_lt_Some _ _ _ (ra_persister _ _ _ _ _ Hra)) as Hpp.
  assert (instances cfg' !! a = Some (mkInstance (Kill (set_persister ps (in_raft ins))) (in_persister ins))) as HIa.
  { rewrite Hin, E2, Hins, lookup_app_l by (by rewrite length_insert). by apply list_lookup_insert_eq. }
  pose proof (lookup_lt_Some _ _ _ Hps) as Hpl.
  eexists _, _, rf'. split_and!; [exact Hrun|by rewrite <- Hn, <- E1|eexists; split; [exact HIa|done]|].
  intros f cfg''. apply (run_section_other _ _ _ _ _ _ _ _ _ Hrun HIa); simpl; [|rewrite E4; lia].
  rewrite E2, Hins, length_insert. lia.
Qed.

End Tester.

(** ** Two servers *)

(** No methods: the tests below send no requests. *)
Definition no_methods (a : nat) : list (Labrpc.methodDesc (App := unit)) := [].

Lemma bind_at {A B} (o : option A) (f : A -> option B) x y : o = Some x -> o ≫= f = Some y -> f x = Some y.
Proof. by intros ->. Qed.

Definition two_servers : config (Cmd := Z) (App := unit) :=
  val_or (blank 2 0) (make_config no_methods 2 false 0 (some_bytes 0) (fun _ => 0) (fun _ => 0)).

Definition crash_and_restart : list (tester_op (Cmd := Z)) :=
  [OpCrash 1; OpSection 1 (fun rf => mret (persist rf)); OpStart 1 (some_bytes 1 1) 5 7; OpUnreliable true; OpConnect 1; OpDisconnect 0].

Definition one_left : config (Cmd := Z) (App := unit) :=
  val_or (two_servers) (tester_run no_methods crash_and_restart two_servers).

(** The new end of server 1 to itself is the only one that is enabled. *)
Lemma tester_wiring_witness :
  exists e, name_of one_left 1 1 = Some e /\ Labrpc.is_enabled (net one_left) (IStr e) = true.
Proof.
  destruct (name_of one_left 1 1) as [e|] eqn:He.
  - exists e. split; [reflexivity|].
    destruct (tester_wiring no_methods 2 false 0 (some_bytes 0) (fun _ => 0) (fun _ => 0) two_servers crash_and_restart one_left (IStr e))
      as [_ Hw]; [apply is_val_or; vm_compute; reflexivity|apply is_val_or; vm_compute; reflexivity|].
    apply Hw. exists 1%nat, 1%nat, e. split_and!; [done|exact He|vm_compute; reflexivity|vm_compute; reflexivity|].
    apply (bind_at _ (fun e => Labrpc.connected_to (net one_left) (IStr e)) _ _ He). vm_compute. reflexivity.
  - assert (bool_decide (is_Some (name_of one_left 1 1)) = true) as Hs by (vm_compute; reflexivity).
    apply bool_decide_eq_true_1 in Hs. rewrite He in Hs. destruct Hs as [? [=]].
Defined.

Definition two_restarted : config (Cmd := Z) (App := unit) :=
  val_or (two_servers) (start1 no_methods 1 (some_bytes 1 1) 5 7 two_servers).

Definition idle_persister : Persister := default MakePersister (persisters two_servers !! 1%nat).

Lemma restart_isolates_witness : exists a' p' rf', running_at two_restarted 1 a' (mkInstance rf' p') (mkPersister (raftstate idle_persister) []).
Proof.
  destruct (instances two_servers !! 1%nat) as [ins|] eqn:Hins.
  - assert (fmap in_persister (instances two_servers !! 1%nat) = Some 1%nat) as Hp by (vm_compute; reflexivity).
    rewrite Hins in Hp. injection Hp as Hp.
    destruct (restart_isolates no_methods 1 1 ins idle_persister (some_bytes 1 1) 5 7 two_servers two_restarted)
      as (a' & p' & rf' & Hrun & _).
    + constructor; [vm_compute; reflexivity|exact Hins|rewrite Hp; vm_compute; reflexivity|rewrite Hp; vm_compute; reflexivity].
    + apply is_val_or. vm_compute. reflexivity.
    + by exists a', p', rf'.
  - assert (is_Some (instances two_servers !! 1%nat)) as [? E] by (apply lookup_lt_is_Some_2; apply Nat.ltb_lt; vm_compute; reflexivity).
    congruence.
Defined.

End RaftTester.
