(* ===== verification/RaftTesterCheck.v ===== *)
(** * The tester and the servers it tests

    What the checks of raft/config.go say about the cluster they look at.  The checker of applied commands
    accepts whatever a disciplined execution applies, and [nCommitted] then counts the servers that
    applied an index; [checkOneLeader] finds the one leader of the highest term it sees; [one] returns, and
    returns an index only if enough servers have applied its command there. *)

From stdpp Require Import base list gmap strings.
From Stdlib Require Import ZArith Lia.
From S2P Require Import Prelude RaftNode RaftCodec RaftInv RaftCluster RaftClusterInv RaftElection RaftLogs RaftCommit RaftMachine RaftApply Labrpc RaftTester.
Import RaftNode RaftCodec RaftInv RaftCluster RaftClusterInv RaftElection RaftLogs RaftMachine RaftApply RaftTester.

Open Scope Z_scope.

Module RaftTesterCheck.

Section Check.
Context {Cmd : Type} `{!EqDecision Cmd, !Codec Cmd}.
Context {App : Type}.
Notation ApplyMsg := (ApplyMsg Cmd).
Notation Cluster := (@Cluster Cmd).
Notation config := (@config Cmd App).

(** ** Deliveries *)

(** Messages as the goroutines that read the apply channels get them: server, message *)
Notation deliveries := (list (nat * ApplyMsg)).

Fixpoint deliver (ds : deliveries) (cfg : config) : res config :=
  match ds with
  | [] => mret cfg
  | (i, m) :: ds' => cfg' ← apply_one i m cfg; deliver ds' cfg'
  end.

(** Those of server [i] *)
Definition delivered (i : nat) (ds : deliveries) : list ApplyMsg := (filter (fun d => d.1 = i) ds).*2.

(** The books of a tester of [k] servers, no error noted *)
Record books (k : nat) (cfg : config) : Prop := {
  bk_rafts : length (rafts cfg) = k;
  bk_errs : applyErr cfg = replicate k "";
  bk_logs : length (logs cfg) = k }.

(** The logs hold what [ds] has delivered. *)
Definition logged (ds : deliveries) (cfg : config) : Prop :=
  forall i l, logs cfg !! i = Some l ->
    forall x v, l !! x = Some v <-> exists m, m ∈ delivered i ds /\ CommandIndex m = x /\ am_Command m = v.

(** Deliveries that agree on every index *)
Definition agree (ds : deliveries) : Prop :=
  forall d1 d2, d1 ∈ ds -> d2 ∈ ds -> CommandIndex d1.2 = CommandIndex d2.2 -> am_Command d1.2 = am_Command d2.2.

Lemma elem_of_delivered i m ds : m ∈ delivered i ds <-> (i, m) ∈ ds.
Proof.
  unfold delivered. rewrite list_elem_of_fmap. split.
  - intros ([j m'] & -> & [Hj Hd]%list_elem_of_filter). simpl in *. by subst.
  - intros Hd. exists (i, m). split; [done|]. by apply list_elem_of_filter.
Qed.

Lemma delivered_snoc i j m ds :
  delivered i (ds ++ [(j, m)]) = delivered i ds ++ (if decide (j = i) then [m] else []).
Proof.
  unfold delivered. rewrite filter_app, fmap_app. f_equal. by rewrite filter_cons; simpl; case_decide.
Qed.

Lemma disagreement_none (ls : list (gmap Z (option Cmd))) j x v (found : option nat) :
  (forall l old, l ∈ ls -> l !! x = Some old -> old = v) -> disagreement ls j x v found = found.
Proof.
  revert j found. induction ls as [|l ls IH]; intros j found Hall; simpl; [done|].
  rewrite IH by (intros l' old Hl'; apply Hall; set_solver).
  destruct (l !! x) as [old|] eqn:E; [|done]. by rewrite decide_True by (apply (Hall l); [set_solver|done]).
Qed.

(** One more message *)
Lemma apply_one_ok k ds i m cfg :
  books k cfg -> logged ds cfg -> (i < k)%nat -> agree (ds ++ [(i, m)]) -> in_order (delivered i (ds ++ [(i, m)])) ->
  exists cfg', apply_one i m cfg = Val cfg' /\ books k cfg' /\ logged (ds ++ [(i, m)]) cfg'.
Proof.
  intros Hb Hl Hi Ha Ho. rewrite delivered_snoc, decide_True in Ho by done.
  destruct (Ho (length (delivered i ds)) m) as (Hv & Hx & Hs); [by rewrite lookup_app_r, Nat.sub_diag|].
  rewrite take_app_length in Hs. unfold apply_one. rewrite Hv. simpl.
  destruct (lookup_lt_is_Some_2 (logs cfg) i) as [li Hli]; [by rewrite (bk_logs _ _ Hb)|].
  rewrite (proj2 (go_index_of_nat _ _ _) Hli). simpl.
  assert ((1 <? CommandIndex m) && negb (bool_decide (is_Some (li !! (CommandIndex m - 1)))) = false) as ->.
  { destruct (Z.ltb_spec 1 (CommandIndex m)); [|done]. simpl. apply negb_false_iff, bool_decide_eq_true.
    destruct Hs as [?|(m' & Hm' & Hx')]; [lia|]. exists (am_Command m'). apply (Hl i li Hli). by exists m'. }
  rewrite disagreement_none.
  - eexists. split; [done|]. split.
    + destruct Hb. constructor; simpl; [done|done|by rewrite length_insert].
    + intros i' l'. simpl. intros Hl' x v. rewrite delivered_snoc. apply list_lookup_insert_Some in Hl' as [(<- & <- & _)|[Hne Hl']].
      * rewrite decide_True by done. destruct (decide (x = CommandIndex m)) as [->|Hnx].
        -- rewrite lookup_insert_eq. split; [intros [= <-]; exists m; set_solver|]. intros (m' & Hm' & Hx' & <-). f_equal.
           apply (Ha (i, m) (i, m')); [set_solver| |done]. apply elem_of_delivered. rewrite delivered_snoc, decide_True by done. done.
        -- rewrite lookup_insert_ne by done. rewrite (Hl i li Hli). split.
           ++ intros (m' & ? & ? & ?). exists m'. set_solver.
           ++ intros (m' & [?|Hm1%list_elem_of_singleton]%elem_of_app & ? & ?); [by exists m'|subst m'; congruence].
      * rewrite decide_False, app_nil_r by done. by apply Hl.
  - intros l old [j Hj]%list_elem_of_lookup_1 Hold. apply (Hl j l Hj) in Hold as (m' & Hm'%elem_of_delivered & Hx' & <-).
    apply (Ha (j, m') (i, m)); [set_solver..|done].
Qed.

Lemma in_order_prefix (ms ms' : list ApplyMsg) : ms `prefix_of` ms' -> in_order ms' -> in_order ms.
Proof.
  intros [r ->] Ho k m Hk. pose proof (lookup_lt_Some _ _ _ Hk). destruct (Ho k m) as (? & ? & ?); [by apply lookup_app_l_Some|].
  by rewrite take_app_le in * by lia.
Qed.

Lemma deliver_ok k ds0 ds cfg :
  books k cfg -> logged ds0 cfg -> Forall (fun d => (d.1 < k)%nat) ds -> agree (ds0 ++ ds) ->
  (forall i, in_order (delivered i (ds0 ++ ds))) ->
  exists cfg', deliver ds cfg = Val cfg' /\ books k cfg' /\ logged (ds0 ++ ds) cfg'.
Proof.
  revert ds0 cfg. induction ds as [|[i m] ds IH]; intros ds0 cfg Hb Hl Hk Ha Ho; simpl.
  - exists cfg. by rewrite app_nil_r.
  - apply Forall_cons_1 in Hk as [Hi Hk]. replace (ds0 ++ (i, m) :: ds) with ((ds0 ++ [(i, m)]) ++ ds) in * by (by rewrite <- app_assoc).
    destruct (apply_one_ok k ds0 i m cfg) as (cfg1 & -> & Hb1 & Hl1); [done|done|done| | |simpl; by apply IH].
    + intros d1 d2 H1 H2. apply Ha; set_solver.
    + eapply in_order_prefix; [|apply (Ho i)]. unfold delivered. rewrite (filter_app _ _ ds), fmap_app. by exists (filter (fun d => d.1 = i) ds).*2.
Qed.

(** The servers a message of index [x] was delivered from *)
Definition appliers (ds : deliveries) (x : Z) (k : nat) : list nat :=
  filter (fun i => Exists (fun m => CommandIndex m = x) (delivered i ds)) (seq 0 k).

Lemma appliers_S ds x j :
  appliers ds x (S j) = appliers ds x j ++ (if decide (Exists (fun m => CommandIndex m = x) (delivered j ds)) then [j] else []).
Proof. unfold appliers. by rewrite seq_S, filter_app. Qed.

(** [nCommitted] on such books *)
Lemma nCommitted_counts k ds x cfg :
  books k cfg -> logged ds cfg -> agree ds ->
  exists cmd, nCommitted cfg x = Val (len (appliers ds x k), cmd) /\
    forall i m, (i < k)%nat -> (i, m) ∈ ds -> CommandIndex m = x -> cmd = am_Command m.
Proof.
  intros Hb Hl Ha. unfold nCommitted. rewrite (bk_rafts _ _ Hb).
  match goal with |- context [go_for 0 k ?f ?a] =>
    destruct (go_for_total (fun j '(cnt, cmd) => cnt = len (appliers ds x j) /\
      forall i m, (i < j)%nat -> (i, m) ∈ ds -> CommandIndex m = x -> cmd = am_Command m) 0 k f a) as ([cnt cmd] & Hr & Hc & Hcmd)
  end.
  - split; [done|]. intros. lia.
  - intros j [cnt cmd] Hj [-> Hcmd]. rewrite (bk_errs _ _ Hb).
    rewrite (proj2 (go_index_of_nat (replicate k "") j "")) by (apply lookup_replicate; split; [done|lia]). simpl.
    destruct (lookup_lt_is_Some_2 (logs cfg) j) as [lj Hlj]; [rewrite (bk_logs _ _ Hb); lia|].
    rewrite (proj2 (go_index_of_nat _ _ _) Hlj). simpl.
    pose proof (appliers_S ds x j) as HS. destruct (lj !! x) as [v|] eqn:E.
    + apply (Hl j lj Hlj) in E as (m & Hm & Hx & <-).
      rewrite decide_True in HS by (apply Exists_exists; by exists m).
      assert ((0 <? len (appliers ds x j)) && negb (bool_decide (cmd = am_Command m)) = false) as ->.
      { destruct (appliers ds x j) as [|i r] eqn:Eap; [done|].
        assert (i ∈ appliers ds x j) as [He Hin%elem_of_seq]%list_elem_of_filter by (rewrite Eap; set_solver).
        apply Exists_exists in He as (m' & Hm' & Hx'). apply elem_of_delivered in Hm', Hm.
        rewrite (Hcmd i m') by (done || lia). rewrite bool_decide_eq_true_2; [by rewrite andb_false_r|].
        apply (Ha (i, m') (j, m)); [done|done|simpl; congruence]. }
      eexists. split; [done|]. split; [unfold len; rewrite HS, length_app; simpl; lia|].
      intros i m' Hi Hm' Hx'. apply elem_of_delivered in Hm. apply (Ha (j, m) (i, m')); [done|done|simpl; congruence].
    + assert (~ Exists (fun m => CommandIndex m = x) (delivered j ds)) as Hno.
      { intros (m & Hm & Hx)%Exists_exists. assert (lj !! x = Some (am_Command m)) by (apply (Hl j lj Hlj); by exists m). congruence. }
      rewrite decide_False, app_nil_r in HS by done. eexists. split; [done|]. split; [by rewrite HS|].
      intros i m Hi Hm Hx. apply (Hcmd i m); [|done|done]. destruct (decide (i = j)) as [->|]; [|lia].
      exfalso. apply Hno, Exists_exists. exists m. by rewrite elem_of_delivered.
  - exists cmd. simpl in Hr. rewrite Hr. by subst cnt.
Qed.

Lemma dsteps_reachable n c c' : reachable n c -> rtc dstep c c' -> reachable n c'.
Proof.
  intros Hc Hr. induction Hr as [c|c1 c2 c3 (l & _ & Hst & Hsm) _ IH]; [done|]. apply IH.
  eapply reach_step; [exact Hc|exact Hst|by apply small_terms].
Qed.

(** The checker of the tester accepts every disciplined execution.  Whatever the servers apply, and
    however the goroutines that read their apply channels interleave, no message is found out of order or
    different from another server's; and [nCommitted] then returns how many servers have applied an
    index and the command they applied. *)
Theorem checker_accepts `{!CodecLaws} k now rnd c0 c cfg ds :
  (0 < k)%nat -> init_cluster k now rnd = Val c0 -> rtc dstep c0 c ->
  books k cfg -> Forall (fun l => l = ∅) (logs cfg) ->
  Forall (fun d => (d.1 < k)%nat) ds ->
  (forall i ms, applied c !! i = Some ms -> delivered i ds `prefix_of` ms) ->
  exists cfg', deliver ds cfg = Val cfg' /\
    forall x, exists cmd, nCommitted cfg' x = Val (len (appliers ds x k), cmd) /\
      forall i m, (i, m) ∈ ds -> CommandIndex m = x -> cmd = am_Command m.
Proof.
  intros Hk Hc0 Hr Hb Hl Hd Hp. pose proof (reach_init k c0 now rnd Hk Hc0) as Hrc.
  pose proof (dsteps_reachable _ _ _ Hrc Hr) as Hreach. pose proof (reachable_apply _ _ Hreach) as Hap.
  destruct (reachable_ok _ _ Hreach) as [Hok _].
  destruct (dsteps_init_commits k now rnd c0 c Hk Hc0 Hr) as (V & G & A & Hcm).
  assert (forall i m, (i, m) ∈ ds -> exists ms, applied c !! i = Some ms /\ m ∈ ms) as Hin.
  { intros i m Him. rewrite Forall_forall in Hd. pose proof (Hd _ Him) as Hlt. simpl in Hlt.
    destruct (lookup_lt_is_Some_2 (applied c) i) as [ms Hms]; [by rewrite (co_applied _ _ Hok)|].
    exists ms. split; [done|]. apply elem_of_delivered in Him. destruct (Hp i ms Hms) as [r ->]. set_solver. }
  assert (agree ds) as Ha.
  { intros [i1 m1] [i2 m2] (ms1 & H1 & Hm1)%Hin (ms2 & H2 & Hm2)%Hin Hx. simpl in *. f_equal.
    by eapply (applied_agree k V G A c i1 i2). }
  destruct (deliver_ok k [] ds cfg) as (cfg' & Hdel & Hb' & Hl'); [done| |done|done| |].
  - intros i l Hi x v. eapply Forall_lookup_1 in Hl; [|exact Hi]. subst l. rewrite lookup_empty. split; [done|].
    intros (m & Hm & _). by apply elem_of_nil in Hm.
  - intros i. simpl. destruct (applied c !! i) as [ms|] eqn:Ei.
    + eapply in_order_prefix; [by apply Hp|]. eapply Forall_lookup_1; [apply Hap|done].
    + destruct (delivered i ds) as [|m r] eqn:E; [by intros ? ?|]. exfalso.
      assert ((i, m) ∈ ds) as (ms & Hms & _)%Hin by (apply elem_of_delivered; rewrite E; set_solver). congruence.
  - exists cfg'. split; [done|]. intros x. destruct (nCommitted_counts k ds x cfg' Hb' Hl' Ha) as (cmd & Hn & Hcmd).
    exists cmd. split; [done|]. intros i m Him. apply (Hcmd i); [|done]. rewrite Forall_forall in Hd. by apply (Hd _ Him).
Qed.

(** ** The check for one leader *)

(** The tester of [k] servers, the connected ones running *)
Record running (k : nat) (cfg : config) : Prop := {
  rn_n : n cfg = k;
  rn_connected : length (connected cfg) = k;
  rn_rafts : forall i, is_connected cfg i -> exists a, rafts cfg !! i = Some (Some a) }.

#[local] Instance is_connected_dec (cfg : config) i : Decision (is_connected cfg i).
Proof. unfold is_connected. apply _. Defined.

(** The connected servers below [k] that answered they lead [t] *)
Definition leaders_in (cfg : config) (st : nat -> Z * bool) (t : Z) (k : nat) : list Z :=
  Z.of_nat <$> filter (fun i => is_connected cfg i /\ st i = (t, true)) (seq 0 k).

Lemma leaders_in_S cfg st t j :
  leaders_in cfg st t (S j) = leaders_in cfg st t j ++ (if decide (is_connected cfg j /\ st j = (t, true)) then [Z.of_nat j] else []).
Proof.
  unfold leaders_in. rewrite seq_S, filter_app, fmap_app. f_equal. simpl. rewrite filter_cons. by case_decide.
Qed.

Lemma elem_of_leaders_in cfg st t k z :
  z ∈ leaders_in cfg st t k <-> exists i, z = Z.of_nat i /\ (i < k)%nat /\ is_connected cfg i /\ st i = (t, true).
Proof.
  unfold leaders_in. rewrite list_elem_of_fmap. setoid_rewrite list_elem_of_filter. setoid_rewrite elem_of_seq.
  split; [intros (i & -> & [? ?] & ?)|intros (i & -> & ? & ? & ?)]; exists i; split_and!; (done || lia).
Qed.

(** The map lists, by term, the servers that lead it. *)
Lemma find_leaders_spec k cfg st :
  running k cfg -> exists L, find_leaders cfg st = Val L /\
    forall t, default [] (L !! t) = leaders_in cfg st t k /\ L !! t <> Some [].
Proof.
  intros Hrn. unfold find_leaders. rewrite (rn_n _ _ Hrn).
  apply (go_for_total (fun j (L : gmap Z (list Z)) => forall t, default [] (L !! t) = leaders_in cfg st t j /\ L !! t <> Some [])).
  - intros t. by rewrite lookup_empty.
  - intros j L Hj HL. destruct (lookup_lt_is_Some_2 (connected cfg) j) as [b Hb]; [rewrite (rn_connected _ _ Hrn); lia|].
    rewrite (proj2 (go_index_of_nat _ _ _) Hb). simpl. setoid_rewrite leaders_in_S.
    assert (forall t, st j <> (t, true) \/ b = false -> (if decide (is_connected cfg j /\ st j = (t, true)) then [Z.of_nat j] else []) = []) as Hnot.
    { intros t Ht. apply decide_False. unfold is_connected. rewrite Hb. intros [[= ->] ?]. naive_solver. }
    destruct b; [|exists L; split; [done|]; intros t; rewrite Hnot, app_nil_r by (by right); apply HL].
    unfold ask_state. destruct (rn_rafts _ _ Hrn j Hb) as [a Ha]. rewrite (proj2 (go_index_of_nat _ _ _) Ha). simpl.
    destruct (st j) as [term []] eqn:Est; simpl.
    + eexists. split; [done|]. intros t. destruct (decide (t = term)) as [->|Hne].
      * rewrite lookup_insert_eq. simpl. rewrite decide_True by done. rewrite (proj1 (HL term)). split; [done|].
        intros [= E]. by destruct (leaders_in cfg st term j).
      * rewrite lookup_insert_ne by done. rewrite decide_False, app_nil_r by (intros [_ [= E]]; done). apply HL.
    + exists L. split; [done|]. intros t. rewrite Hnot, app_nil_r by (left; congruence). apply HL.
Qed.

(** The loop over the map finds the highest term, if no term has two leaders. *)
Lemma last_term_max ls a :
  (forall t l, (t, l) ∈ ls -> len l <= 1) ->
  exists t, last_term ls a = Val t /\ a <= t /\ (t = a \/ exists l, (t, l) ∈ ls) /\ forall t' l, (t', l) ∈ ls -> t' <= t.
Proof.
  revert a. induction ls as [|[t0 l0] ls IH]; intros a Hl; simpl.
  - exists a. split_and!; [done|lia|by left|]. intros t' l Hin%elem_of_nil. done.
  - assert (len l0 <= 1) as H0 by (apply (Hl t0); set_solver). destruct (Z.ltb_spec 1 (len l0)); [lia|].
    destruct (IH (if a <? t0 then t0 else a)) as (t & -> & Hge & Hin & Hmax); [intros t l ?; apply (Hl t); set_solver|].
    exists t. split; [done|]. destruct (Z.ltb_spec a t0); (split_and!; [lia| |]).
    + right. destruct Hin as [->|[l ?]]; [exists l0|exists l]; set_solver.
    + intros t' l [[= -> ->]|?]%elem_of_cons; [lia|by eapply Hmax].
    + destruct Hin as [->|[l ?]]; [by left|right; exists l; set_solver].
    + intros t' l [[= -> ->]|?]%elem_of_cons; [lia|by eapply Hmax].
Qed.

Section Leader.
Context (k : nat) (cfg : config) (range : gmap Z (list Z) -> list (Z * list Z)) (getState : nat -> nat -> Z * bool).
Hypothesis cfg_running : running k cfg.
Hypothesis range_once : forall m, range m ≡ₚ map_to_list m.
(** In one turn no two connected servers answer that they lead the same term. *)
Hypothesis one_per_term : forall q i j t, (i < k)%nat -> (j < k)%nat -> getState q i = (t, true) -> getState q j = (t, true) -> i = j.
Hypothesis terms_nonneg : forall q i, (i < k)%nat -> 0 <= (getState q i).1.

Definition no_leader_at (q : nat) : Prop := forall i, (i < k)%nat -> is_connected cfg i -> (getState q i).2 = false.

(** The answer is a leader of the highest term of the first turn with a leader. *)
Definition found_leader (q : nat) (z : Z) : Prop :=
  exists i t, z = Z.of_nat i /\ (i < k)%nat /\ is_connected cfg i /\ getState q i = (t, true) /\
    forall j t', (j < k)%nat -> is_connected cfg j -> getState q j = (t', true) -> t' <= t.

Lemma leaders_in_short q t : len (leaders_in cfg (getState q) t k) <= 1.
Proof.
  assert (NoDup (leaders_in cfg (getState q) t k)) as Hnd.
  { unfold leaders_in. apply NoDup_fmap_2; [apply _|]. apply NoDup_filter, NoDup_seq. }
  destruct (leaders_in cfg (getState q) t k) as [|z1 [|z2 r]] eqn:E; [done|done|exfalso].
  assert (forall z, z ∈ [z1; z2] -> z ∈ leaders_in cfg (getState q) t k) as Hz by (rewrite E; set_solver).
  destruct (proj1 (elem_of_leaders_in _ _ _ _ _) (Hz z1 ltac:(set_solver))) as (i & -> & Hi & _ & Hi').
  destruct (proj1 (elem_of_leaders_in _ _ _ _ _) (Hz z2 ltac:(set_solver))) as (j & -> & Hj & _ & Hj').
  apply NoDup_cons in Hnd as [Hnd _]. apply Hnd. rewrite (one_per_term q i j t Hi Hj Hi' Hj'). set_solver.
Qed.

Lemma one_leader_turn q m :
  (no_leader_at q /\ one_leader_loop cfg getState range q (S m) = one_leader_loop cfg getState range (S q) m) \/
  exists z, found_leader q z /\ one_leader_loop cfg getState range q (S m) = Val z.
Proof.
  simpl. destruct (find_leaders_spec k cfg (getState q) cfg_running) as (L & -> & HL). simpl.
  assert (forall t l, (t, l) ∈ range L <-> L !! t = Some l) as Hra by (intros; by rewrite range_once, elem_of_map_to_list).
  destruct (last_term_max (range L) (-1)) as (t & -> & Hge & Hin & Hmax).
  { intros t l Hl%Hra. pose proof (leaders_in_short q t) as Hs. by rewrite <- (proj1 (HL t)), Hl in Hs. }
  simpl. destruct (decide (L = ∅)) as [->|Hne].
  - left. split; [|by rewrite map_size_empty]. intros i Hi Hc. destruct (getState q i) as [ti []] eqn:E; [|done]. exfalso.
    destruct (HL ti) as [HLi _]. rewrite lookup_empty in HLi. simpl in HLi.
    assert (Z.of_nat i ∈ leaders_in cfg (getState q) ti k) as Hz by (apply elem_of_leaders_in; by exists i).
    rewrite <- HLi in Hz. by apply elem_of_nil in Hz.
  - right. rewrite bool_decide_eq_false_2 by (by intros ?%map_size_empty_iff). simpl.
    assert (exists l, L !! t = Some l) as [l Hl].
    { destruct Hin as [->|[l Hl]]; [exfalso|exists l; by apply Hra]. apply map_choose in Hne as (t0 & l0 & H0).
      pose proof (Hmax t0 l0 (proj2 (Hra _ _) H0)). destruct (HL t0) as [E HN]. rewrite H0 in E, HN. simpl in E.
      destruct l0 as [|z l0]; [done|]. assert (z ∈ leaders_in cfg (getState q) t0 k) as (i & -> & Hi & _ & Hi')%elem_of_leaders_in
        by (rewrite <- E; set_solver).
      pose proof (terms_nonneg q i Hi) as Hp. rewrite Hi' in Hp. simpl in Hp. lia. }
    destruct (HL t) as [E HN]. rewrite Hl in *. simpl in *. destruct l as [|z l]; [done|].
    assert (z ∈ leaders_in cfg (getState q) t k) as (i & -> & Hi & Hc & Hi')%elem_of_leaders_in by (rewrite <- E; set_solver).
    exists (Z.of_nat i). split; [|done]. exists i, t. split_and!; try done. intros j t' Hj Hcj Hj'.
    assert (Z.of_nat j ∈ leaders_in cfg (getState q) t' k) as Hz by (apply elem_of_leaders_in; by exists j).
    rewrite <- (proj1 (HL t')) in Hz. destruct (L !! t') as [l'|] eqn:El; [|by apply elem_of_nil in Hz].
    eapply Hmax. by apply Hra.
Qed.

Lemma one_leader_loop_finds m q :
  (exists q' z, (q <= q' < q + m)%nat /\ (forall r, (q <= r < q')%nat -> no_leader_at r) /\ found_leader q' z /\
     one_leader_loop cfg getState range q m = Val z) \/
  ((forall r, (q <= r < q + m)%nat -> no_leader_at r) /\
     one_leader_loop cfg getState range q m = Err (EFatal "expected one leader, got none")).
Proof.
  revert q. induction m as [|m IH]; intros q; [right; split; [lia|done]|].
  destruct (one_leader_turn q m) as [[Hno ->]|(z & Hf & ->)].
  - destruct (IH (S q)) as [(q' & z & Hq & Hr & Hf & E)|[Hr E]]; [left; exists q', z|right]; (split_and!; [|try done..]);
      try lia; intros r Hrq; (destruct (decide (r = q)) as [->|]; [done|apply Hr; lia]).
  - left. exists q, z. split_and!; [lia|lia|lia|done|done].
Qed.

End Leader.

(** What server [i] answers when turn [q] asks it, the cluster being [seen q i] *)
Definition state_seen (seen : nat -> nat -> Cluster) (q i : nat) : Z * bool :=
  match nodes (seen q i) !! i with Some rf => GetState rf | None => (0, false) end.

Lemma state_seen_leads seen q i t : state_seen seen q i = (t, true) -> leads (seen q i) i t.
Proof.
  unfold state_seen, leads, GetState. destruct (nodes (seen q i) !! i) as [rf|]; [|done].
  intros [= ? Hb%bool_decide_eq_true]. by exists rf.
Qed.

Lemma seen_from (seen : nat -> nat -> Cluster) q i j :
  (forall q i, rtc tstep (seen q i) (seen q (S i))) -> (i <= j)%nat -> rtc tstep (seen q i) (seen q j).
Proof. intros Hs. induction 1 as [|j _ IH]; [done|]. etransitivity; [exact IH|apply Hs]. Qed.

(** C16: [checkOneLeader] asks the servers one after the other, while the cluster goes on.  In a timely
    execution it never finds two leaders of a term: it returns a connected server that led when it
    was asked, in the first turn in which one did, with no connected leader of a higher term in
    that turn; or it fails because none of ten turns saw a connected leader. *)
Theorem checkOneLeader_finds `{!CodecLaws} k now rnd c0 cfg range seen :
  init_cluster k now rnd = Val c0 ->
  (forall q, rtc tstep c0 (seen q 0%nat)) -> (forall q i, rtc tstep (seen q i) (seen q (S i))) ->
  running k cfg -> (forall m, range m ≡ₚ map_to_list m) ->
  (exists q i t, (q < 10)%nat /\ checkOneLeader cfg (state_seen seen) range = Val (Z.of_nat i) /\
     is_connected cfg i /\ leads (seen q i) i t /\
     (forall r, (r < q)%nat -> no_leader_at k cfg (state_seen seen) r) /\
     forall j t', (j < k)%nat -> is_connected cfg j -> leads (seen q j) j t' -> t' <= t) \/
  ((forall r, (r < 10)%nat -> no_leader_at k cfg (state_seen seen) r) /\
     checkOneLeader cfg (state_seen seen) range = Err (EFatal "expected one leader, got none")).
Proof.
  intros Hc0 H0 Hs Hrn Hra.
  assert (forall q i, exists V, election_ok k V (seen q i)) as He.
  { intros q i. destruct (tsteps_election k ∅ c0 (seen q i)) as (V & _ & ?); [|by eapply init_election|by exists V].
    transitivity (seen q 0%nat); [apply (H0 q)|]. apply seen_from; [done|lia]. }
  destruct (one_leader_loop_finds k cfg range (state_seen seen) Hrn Hra) with (m := 10%nat) (q := 0%nat)
    as [(q & z & Hq & Hr & (i & t & -> & Hi & Hc & Hi' & Hmax) & E)|[Hr E]].
  - intros q i j t _ _ Hi%state_seen_leads Hj%state_seen_leads.
    destruct (Nat.le_ge_cases i j) as [Hij|Hij]; [destruct (He q i) as [V HV]|symmetry; destruct (He q j) as [V HV]];
      (eapply (leaders_agree k V); [exact HV|apply (seen_from _ _ _ _ Hs Hij)|done|done]).
  - intros q i _. unfold state_seen. destruct (He q i) as [V HV]. destruct (nodes (seen q i) !! i) as [rf|] eqn:E; [|done].
    apply (no_term _ _ _ (co_node _ _ (eo_ok _ _ _ HV) _ _ E)).
  - left. exists q, i, t. split_and!; [lia|exact E|done|by apply state_seen_leads|intros r ?; apply Hr; lia|].
    intros j t' Hj Hcj (rf & Hrf & Hst & Ht). apply (Hmax j); [done|done|]. unfold state_seen. rewrite Hrf. unfold GetState.
    by rewrite Ht, bool_decide_eq_true_2.
  - right. split; [|exact E]. intros r Hr'. apply Hr. lia.
Qed.

(** ** Agreement on a command *)

(** Books the checker has accepted *)
Record checked (k : nat) (cfg : config) : Prop := {
  ck_n : n cfg = k;
  ck_connected : length (connected cfg) = k;
  ck_books : books k cfg;
  ck_logged : exists ds, logged ds cfg /\ agree ds }.

Lemma try_start_total k cfg ans starts m :
  (0 < k)%nat -> checked k cfg ->
  exists index starts', try_start cfg ans starts m = Val (index, starts') /\
    (index = -1 \/ exists i term, ans i = (index, term, true)).
Proof.
  intros Hk Hc. revert starts. induction m as [|m IH]; intros starts; simpl; [eexists _, _; split; [done|by left]|].
  rewrite (ck_n _ _ Hc). set (s' := ((starts + 1) mod k)%nat). assert (s' < k)%nat as Hs by (apply Nat.mod_upper_bound; lia).
  destruct (lookup_lt_is_Some_2 (connected cfg) s') as [b Hb]; [by rewrite (ck_connected _ _ Hc)|].
  rewrite (proj2 (go_index_of_nat _ _ _) Hb). simpl.
  destruct (lookup_lt_is_Some_2 (rafts cfg) s') as [o Ho]; [by rewrite (bk_rafts _ _ (ck_books _ _ Hc))|].
  destruct b; simpl; [rewrite (proj2 (go_index_of_nat _ _ _) Ho); simpl|apply IH].
  destruct o as [a|]; [|apply IH]. destruct (ans s') as [[index1 term] []] eqn:E; [|apply IH].
  eexists _, _. split; [done|]. right. by exists s', term.
Qed.

Section One.
Context (k : nat) (env : nat -> snapshot (Cmd := Cmd) (App := App)) (cmd : Cmd) (expectedServers : Z) (retry : bool) (t0 : Z).
Hypothesis k_pos : (0 < k)%nat.
Hypothesis env_checked : forall q, checked k (s_cfg (env q)).
Hypothesis env_times : forall q, 0 <= s_took (env q) /\ 0 <= s_over (env q).

(** A server took the command for [index] in a turn before [q] that began within ten seconds; it was [t1] then. *)
Definition taken (q : nat) (index t1 : Z) : Prop :=
  exists q' i term, (q' < q)%nat /\ s_start (env q') i = (index, term, true) /\ 0 <= t1 - t0 < 10 * Second + s_took (env q').

(** At [now] enough servers have applied the command at [index], less than two seconds after one took it. *)
Definition agreed (index now : Z) : Prop :=
  exists q t1 nd, taken q index t1 /\ 0 <= now - t1 < 2 * Second /\
    nCommitted (s_cfg (env q)) index = Val (nd, Some cmd) /\ 0 < nd /\ expectedServers <= nd.

(** At [now] ten seconds are over, or, without retry, two seconds since a server took the command. *)
Definition gave_up (now : Z) : Prop :=
  10 * Second <= now - t0 \/ (retry = false /\ exists q index t1, taken q index t1 /\ 2 * Second <= now - t1).

(** Where the loops can be in turn [q] at [now]: a turn sleeps 20 ms at least, but for the two that enter and leave the
    inner loop, and that lasts two seconds. *)
Definition in_time (q : nat) (now : Z) (at_ : one_at) : Prop :=
  match at_ with
  | OuterAt => (q <= 613)%nat /\ Second * Z.of_nat q <= 51 * (now - t0)
  | InnerAt index t1 =>
      (q <= 612)%nat /\ taken q index t1 /\ t1 <= now /\ Second * Z.of_nat q <= 511 * Second + 50 * (now - t1) /\
      Second * Z.of_nat q <= 51 * (t1 - t0) + Second + 50 * (now - t1)
  end.

Lemma taken_later q index t1 : taken q index t1 -> taken (S q) index t1.
Proof. intros (q' & i & term & ? & ?). exists q', i, term. split; [lia|done]. Qed.

Definition decided (r : option (res Z * Z)) : Prop :=
  (exists index now, r = Some (Val index, now) /\ agreed index now) \/
  (exists now, r = Some (Err (EFatal "one failed to reach agreement"), now) /\ gave_up now).

Lemma one_loop_decides fuel starts q now at_ :
  in_time q now at_ -> (614 <= q + fuel)%nat ->
  decided (one_loop env cmd expectedServers retry t0 starts q now at_ fuel).
Proof.
  revert starts q now at_. induction fuel as [|fuel IH]; intros starts q now at_ Hin Hf.
  { destruct at_; simpl in Hin; lia. }
  pose proof (env_times q) as [Htook Hover]. destruct at_ as [|index t1]; cbn [one_loop].
  - destruct Hin as [Hq Hin]. destruct (Z.ltb_spec (now - t0) (10 * Second)) as [Hlt|Hge].
    + destruct (try_start_total k (s_cfg (env q)) (s_start (env q)) starts (n (s_cfg (env q))) k_pos (env_checked q)) as (index & starts' & -> & Hidx).
      destruct (Z.eqb_spec index (-1)) as [->|Hne]; simpl.
      * apply IH; [|lia]. cbn [in_time]. unfold Millisecond, Second in *. lia.
      * destruct Hidx as [?|(i & term & Hi)]; [done|]. apply IH; [|lia]. cbn [in_time].
        split_and!; [unfold Second in *; lia| |lia|unfold Second in *; lia..].
        exists q, i, term. split_and!; [lia|done|unfold Second in *; lia|lia].
    + right. exists now. split; [done|]. left. lia.
  - destruct Hin as (Hq & Htk & Ht1 & Hb1 & Hb2).
    destruct (Z.ltb_spec (now - t1) (2 * Second)) as [Hlt|Hge].
    + destruct (ck_logged _ _ (env_checked q)) as (ds & Hl & Ha).
      destruct (nCommitted_counts k ds index (s_cfg (env q)) (ck_books _ _ (env_checked q)) Hl Ha) as (cmd1 & Hn & _). rewrite Hn.
      destruct ((0 <? _) && _ && _) eqn:E.
      * left. exists index, now. split; [done|]. apply andb_true_iff in E as [[? ?]%andb_true_iff ->%bool_decide_eq_true].
        exists q, t1, (len (appliers ds index k)). split_and!; [done|lia|lia|done|lia|lia].
      * apply IH; [|lia]. cbn [in_time]. pose proof (taken_later _ _ _ Htk). unfold Millisecond, Second in *.
        split_and!; [lia|done|lia|lia|lia].
    + destruct retry eqn:Hre; simpl.
      * apply IH; [|lia]. cbn [in_time]. unfold Second in *. lia.
      * right. exists now. split; [done|]. right. split; [done|]. by exists q, index, t1.
Qed.

End One.

(** C17: [one] decides.  Its sleeps move the clock on by at least what they ask for, and whatever else takes time:
    within 614 turns [one] ends.  On the books of accepted deliveries, over whatever the servers answer, it returns
    an index only if a [Start], made in a turn that began in the first ten seconds, gave the command that index
    and, less than two seconds later, as many servers as expected have applied this very command there; else it
    fails, and then, at that moment, ten seconds have passed since the call, or, if it may not retry, two since a
    server took the command. *)
Theorem one_decides k env cmd expectedServers retry t0 :
  (0 < k)%nat -> (forall q, checked k (s_cfg (env q))) -> (forall q, 0 <= s_took (env q) /\ 0 <= s_over (env q)) ->
  (exists index now, one env cmd expectedServers retry t0 614 = Some (Val index, now) /\
     agreed env cmd expectedServers t0 index now) \/
  (exists now, one env cmd expectedServers retry t0 614 = Some (Err (EFatal "one failed to reach agreement"), now) /\
     gave_up env retry t0 now).
Proof.
  intros Hk Hc Ht. apply (one_loop_decides k env cmd expectedServers retry t0 Hk Hc Ht); [simpl; lia|lia].
Qed.

End Check.

(** ** Three servers *)

Definition msg42 : ApplyMsg Z := mkApplyMsg true (Some 42) 1.

Definition some_books : config (Cmd := Z) (App := unit) := with_connected [true; false; true] (with_rafts [Some 0; Some 1; Some 2]%nat (blank 3 0)).

Lemma some_books_ok : books 3 some_books.
Proof. constructor; vm_compute; reflexivity. Qed.

(** Both servers that have applied command 42 in [commit_end] *)
Lemma checker_accepts_witness :
  exists cfg', deliver [(1%nat, msg42); (0%nat, msg42)] some_books = Val cfg' /\ exists cmd, nCommitted cfg' 1 = Val (2, cmd).
Proof.
  destruct (checker_accepts 3 (fun _ => 0) (fun _ => 0) start_cluster commit_end some_books [(1%nat, msg42); (0%nat, msg42)])
    as (cfg' & Hd & Hn).
  - lia.
  - exact start_cluster_init.
  - apply (dsteps_rtc commit_one). vm_compute. reflexivity.
  - exact some_books_ok.
  - by repeat constructor.
  - repeat constructor; simpl; lia.
  - intros i ms. assert (applied commit_end = [[msg42]; [msg42]; []]) as -> by (vm_compute; reflexivity).
    intros Hi. by destruct i as [|[|[|i]]]; [injection Hi as <-..|].
  - exists cfg'. split; [exact Hd|]. destruct (Hn 1) as (cmd & Hc & _). exists cmd. exact Hc.
Defined.

(** Server 0 leads in [fair_end]. *)
Lemma checkOneLeader_finds_witness : exists i, checkOneLeader some_books (state_seen (fun _ _ => fair_end)) map_to_list = Val (Z.of_nat i).
Proof.
  destruct (checkOneLeader_finds 3 (fun _ => 0) (fun _ => 0) start_cluster some_books map_to_list (fun _ _ => fair_end))
    as [(q & i & t & _ & E & _)|[Hno _]].
  - exact start_cluster_init.
  - intros _. apply (tsteps_rtc fair_election). vm_compute. reflexivity.
  - intros _ _. apply rtc_refl.
  - constructor; [reflexivity|reflexivity|]. intros [|[|[|i]]] Hi; (done || eexists; reflexivity).
  - intros m. reflexivity.
  - by exists i.
  - exfalso. assert ((state_seen (fun _ _ => fair_end) 0 0).2 = true) as E by (vm_compute; reflexivity).
    rewrite (Hno 0%nat ltac:(lia) 0%nat ltac:(lia) eq_refl) in E. done.
Defined.

Definition agreed_books : config (Cmd := Z) (App := unit) :=
  val_or (some_books) (deliver [(0%nat, msg42); (2%nat, msg42)] some_books).

(** Server 2 takes command 42 at once, and two servers have applied it. *)
Definition agreed_env (q : nat) : snapshot (Cmd := Z) (App := unit) :=
  mkSnapshot agreed_books (fun i => (1, 1, bool_decide (i = 2%nat))) 1000000 500000.

Lemma agreed_books_checked : checked 3 agreed_books.
Proof.
  destruct (deliver_ok 3 [] [(0%nat, msg42); (2%nat, msg42)] some_books) as (cfg & Hd & Hb & Hl).
  - exact some_books_ok.
  - intros i l Hi x v. assert (l = ∅) as -> by (by destruct i as [|[|[|i]]]; [injection Hi as <-..|]).
    rewrite lookup_empty. split; [done|]. intros (m & Hm & _). by apply elem_of_nil in Hm.
  - repeat constructor; simpl; lia.
  - intros d1 d2 H1 H2 _. set_solver.
  - intros i j m Hj. assert (m = msg42) as ->.
    { apply list_elem_of_lookup_2, elem_of_delivered in Hj. set_solver. }
    split_and!; [done|done|by left].
  - unfold agreed_books. rewrite Hd. constructor; [| |done|].
    + assert (fmap n (Val cfg) = Val 3%nat) as E by (rewrite <- Hd; vm_compute; reflexivity). by injection E.
    + assert (fmap (fun c => length (connected c)) (Val cfg) = Val 3%nat) as E by (rewrite <- Hd; vm_compute; reflexivity). by injection E.
    + exists [(0%nat, msg42); (2%nat, msg42)]. split; [done|]. intros d1 d2 H1 H2 _. set_solver.
Qed.

Lemma one_decides_witness : exists r, one agreed_env 42 2 true 0 614 = Some r.
Proof.
  destruct (one_decides 3 agreed_env 42 2 true 0) as [(index & now & E & _)|(now & E & _)].
  - lia.
  - intros q. exact agreed_books_checked.
  - intros q. simpl. lia.
  - by eexists.
  - by eexists.
Defined.

End RaftTesterCheck.
