(* ===== verification/RaftNet.v ===== *)
(** * Raft on the simulated network, under its tester

    Here the parts meet that the other files take one by one: Raft servers (RaftNode.v) whose goroutines call each
    other through ends of labrpc (Labrpc.v), made, connected, crashed and started again by the tester
    (RaftTester.v).  A call is a request of the network: it is encoded, looked up, perhaps dropped or
    delayed, dispatched to the method of the server at the other end, and its reply decoded
    ([sendRequestVote] and [sendAppendEntries] of raft.go).  A crashed server is not gone: its loops and
    goroutines go on at their address, with the persister they had.

    [sstep] is one step of this system; the clock and random numbers are in the labels.  [Err] is a panic or
    a Fatalf. *)

From stdpp Require Import base list gmap strings.
From Stdlib Require Import ZArith Lia Strings.Byte.
From S2P Require Import Prelude RaftNode RaftCluster RaftElection RaftLogs RaftMachine Labrpc TestRand RaftTester.
Import RaftNode.

Open Scope Z_scope.

Module RaftNet.

Notation pc := RaftCluster.pc.
Notation PTop := RaftCluster.PTop.

(** What labgob makes of the arguments and replies of Raft's two methods.  A decoder is given a zero value to
    fill. *)
Class RpcCodec (Cmd : Type) := {
  enc_rva : RequestVoteArgs -> list byte;
  dec_rva : list byte -> RequestVoteArgs;
  enc_rvr : RequestVoteReply -> list byte;
  dec_rvr : list byte -> RequestVoteReply;
  enc_aea : AppendEntriesArgs Cmd -> list byte;
  dec_aea : list byte -> AppendEntriesArgs Cmd;
  enc_aer : AppendEntriesReply -> list byte;
  dec_aer : list byte -> AppendEntriesReply }.

(** What encoding/gob documents of structs with exported fields *)
Class RpcCodecLaws (Cmd : Type) `{!RpcCodec Cmd} : Prop := {
  rva_round : forall x, dec_rva (enc_rva x) = x;
  rvr_round : forall x, dec_rvr (enc_rvr x) = x;
  aea_round : forall x, dec_aea (enc_aea x) = x;
  aer_round : forall x, dec_aer (enc_aer x) = x }.

(** A goroutine that makes one call: it has not read its arguments, is about to call, waits for request [q],
    has its reply. *)
Inductive cstage (A R : Type) :=
  | CNew | CReady (args : A) | CWait (args : A) (q : nat) | CGot (args : A) (reply : R).
Arguments CNew {A R}.
Arguments CReady {A R} _.
Arguments CWait {A R} _ _.
Arguments CGot {A R} _ _.

Section Net.
Context {Cmd : Type} `{!EqDecision Cmd, !Codec Cmd, !RpcCodec Cmd}.
Notation Raft := (Raft Cmd).
Notation Entry := (Entry Cmd).
Notation ApplyMsg := (ApplyMsg Cmd).
Notation AppendEntriesArgs := (AppendEntriesArgs Cmd).
Notation instance := (RaftTester.instance (Cmd := Cmd)).

(** ** Servers on the heap *)

Definition heap : Type := list instance * list Persister.

(** The server at an address, with what its persister holds *)
Definition node_in (h : heap) (a : nat) : option Raft :=
  ins ← h.1 !! a;
  ps ← h.2 !! RaftTester.in_persister ins;
  Some (set_persister ps (RaftTester.in_raft ins)).

Definition put_in (h : heap) (a : nat) (rf : Raft) : heap :=
  match h.1 !! a with
  | Some ins =>
      (<[a := RaftTester.mkInstance rf (RaftTester.in_persister ins)]> h.1,
       <[RaftTester.in_persister ins := persister rf]> h.2)
  | None => h
  end.

(** ** The methods a server offers *)

(** What a handler may touch: the clock, the heap, the apply goroutines it starts (with the address of the
    server), and whether it has panicked *)
Record Host := mkHost {
  h_now : Z;
  h_heap : heap;
  h_spawned : list (nat * list Entry);
  h_panic : option go_error }.

Definition panicked (e : go_error) (h : Host) : Host := mkHost (h_now h) (h_heap h) (h_spawned h) (Some e).

(** A method of the server at [a] as the network calls it: decode, run, encode *)
Definition handle {A R} (dec : list byte -> A) (enc : R -> list byte) (a : nat)
    (f : Raft -> A -> Z -> res (Raft * R * option (list Entry))) (h : Host) (args : list byte) : Host * list byte :=
  match node_in (h_heap h) a with
  | Some rf =>
      match f rf (dec args) (h_now h) with
      | Val (rf', r, spawn) =>
          (mkHost (h_now h) (put_in (h_heap h) a rf')
             (h_spawned h ++ match spawn with Some es => [(a, es)] | None => [] end) (h_panic h), enc r)
      | Err e => (panicked e h, [])
      end
  | None => (panicked ENil h, [])
  end.

Definition vote_handler (rf : Raft) (args : RequestVoteArgs) (now : Z) : res (Raft * RequestVoteReply * option (list Entry)) :=
  '(rf', reply) ← RequestVote rf args now; mret (rf', reply, None).

(** What reflection finds: two methods that can be called, and some that cannot *)
Definition raft_methods (a : nat) : list (Labrpc.methodDesc (App := Host)) :=
  let no h (b : list byte) := (h, b) in
  [Labrpc.mkMethodDesc "AppendEntries" "" 3 true 0 (handle dec_aea enc_aer a AppendEntries);
   Labrpc.mkMethodDesc "GetState" "" 1 false 2 no;
   Labrpc.mkMethodDesc "Kill" "" 1 false 0 no;
   Labrpc.mkMethodDesc "RequestVote" "" 3 true 0 (handle dec_rva enc_rvr a vote_handler);
   Labrpc.mkMethodDesc "Run" "" 1 false 0 no;
   Labrpc.mkMethodDesc "Start" "" 2 false 3 no].

(** ** The system *)

Notation config := (RaftTester.config (Cmd := Cmd) (App := Host)).

(** What belongs to the server at an address, besides its [Raft]: its number, the ends it was made with, where its
    [Run] loop is, and what it has sent on its apply channel *)
Record proc := mkProc {
  p_server : nat;
  p_ends : list string;
  p_pc : pc;
  p_out : list ApplyMsg }.

(** Goroutines of the server at address [a]; [j] is the server called.  The term [t] in which a vote goroutine
    was started is not kept by the source. *)
Inductive gthread :=
  | GVote (a j : nat) (t : Z) (st : cstage RequestVoteArgs RequestVoteReply)
  | GBeat (a j : nat) (st : cstage AppendEntriesArgs AppendEntriesReply)
  | GStart (a : nat) (term : Z) (command : Cmd)
  | GApply (a : nat) (entries : list Entry)
  | GAck (a : nat) (index : Z) (entries : list Entry)
  | GDone.

Record Sys := mkSys {
  s_cfg : config;
  s_procs : list proc;
  s_threads : list gthread;
  s_reqs : list Labrpc.request }.

Definition heap_of (cfg : config) : heap := (RaftTester.instances cfg, RaftTester.persisters cfg).
Definition set_heap (h : heap) (cfg : config) : config :=
  RaftTester.with_instances h.1 (RaftTester.with_persisters h.2 cfg).

Definition node_at (s : Sys) (a : nat) : option Raft := node_in (heap_of (s_cfg s)) a.
Definition put_node (a : nat) (rf : Raft) (s : Sys) : Sys :=
  mkSys (set_heap (put_in (heap_of (s_cfg s)) a rf) (s_cfg s)) (s_procs s) (s_threads s) (s_reqs s).

Definition set_p_pc (p : pc) (pr : proc) : proc := mkProc (p_server pr) (p_ends pr) p (p_out pr).
Definition add_p_out (m : ApplyMsg) (pr : proc) : proc := mkProc (p_server pr) (p_ends pr) (p_pc pr) (p_out pr ++ [m]).

Definition put_proc (a : nat) (f : proc -> proc) (s : Sys) : Sys :=
  mkSys (s_cfg s) (alter f a (s_procs s)) (s_threads s) (s_reqs s).
Definition put_thread (k : nat) (t : gthread) (s : Sys) : Sys :=
  mkSys (s_cfg s) (s_procs s) (<[k := t]> (s_threads s)) (s_reqs s).
Definition go (ts : list gthread) (s : Sys) : Sys :=
  mkSys (s_cfg s) (s_procs s) (s_threads s ++ ts) (s_reqs s).

Definition go_apply (a : nat) (spawn : option (list Entry)) : list gthread :=
  match spawn with Some es => [GApply a es] | None => [] end.

(** ** The sections of a server's own goroutines *)

(** One turn of the [Run] loop at address [a]: the server, where the loop is then, what it has started *)
Definition run_turn (a : nat) (rf : Raft) (p : pc) (now : Z) : res (Raft * pc * list gthread) :=
  let me_ := Z.to_nat (me rf) in
  match p with
  | RaftCluster.PTop =>
      if killed rf then mret (rf, RaftCluster.PStopped, [])
      else
        match state rf with
        | Leader =>
            mret (rf, RaftCluster.PCommit, (fun j => GBeat a j CNew) <$> RaftCluster.others (npeers rf) me_)
        | Follower => mret (rf, RaftCluster.PFollower, [])
        | Candidate => mret (rf, RaftCluster.PCandidate, [])
        end
  | RaftCluster.PStopped => mret (rf, RaftCluster.PStopped, [])
  | RaftCluster.PCommit => '(rf', spawn) ← advance_commit rf; mret (rf', PTop, go_apply a spawn)
  | RaftCluster.PFollower => mret (rf, if isElectionTimeout rf now then RaftCluster.PConvert else PTop, [])
  | RaftCluster.PConvert => mret (convertTo Candidate rf, RaftCluster.PElect false, [])
  | RaftCluster.PCandidate =>
      mret (rf, if isElectionTimeout rf now then RaftCluster.PElect true else RaftCluster.PVotes, [])
  | RaftCluster.PElect cand => mret (begin_election rf now, RaftCluster.PAsk cand 0, [])
  | RaftCluster.PAsk cand j =>
      let back := if cand then RaftCluster.PVotes else PTop in
      if (npeers rf <=? j)%nat then mret (rf, back, [])
      else if bool_decide (j = me_) then mret (rf, RaftCluster.PAsk cand (S j), [])
      else if negb (bool_decide (state rf = Candidate)) then mret (rf, back, [])
      else mret (rf, RaftCluster.PAsk cand (S j), [GVote a j (currentTerm rf) CNew])
  | RaftCluster.PVotes => mret (candidate_check rf, PTop, [])
  end.

(** The next section of goroutine [k], unless it is about to call or waits for a reply *)
Definition thread_turn (s : Sys) (k : nat) (g : gthread) (now : Z) : res Sys :=
  match g with
  | GVote a j t CNew =>
      rf ← of_option ENil (node_at s a);
      args ← vote_args rf; mret (put_thread k (GVote a j t (CReady args)) s)
  | GVote a j t (CGot args reply) =>
      rf ← of_option ENil (node_at s a);
      mret (put_thread k GDone (put_node a (vote_reply rf reply) s))
  | GBeat a j CNew =>
      rf ← of_option ENil (node_at s a);
      o ← heartbeat_args rf (Z.of_nat j);
      mret (put_thread k (match o with Some args => GBeat a j (CReady args) | None => GDone end) s)
  | GBeat a j (CGot args reply) =>
      rf ← of_option ENil (node_at s a);
      rf' ← heartbeat_reply rf (Z.of_nat j) args reply;
      mret (put_thread k GDone (put_node a rf' s))
  | GStart a term command =>
      rf ← of_option ENil (node_at s a);
      '(rf', _) ← Start_append rf term command;
      mret (put_thread k GDone (put_node a rf' s))
  | GApply a [] => mret (put_thread k GDone s)
  | GApply a (e :: rest) =>
      mret (put_thread k (GAck a (CommandIndex (apply_msg e)) rest) (put_proc a (add_p_out (apply_msg e)) s))
  | GAck a index entries =>
      rf ← of_option ENil (node_at s a);
      mret (put_thread k (GApply a entries) (put_node a (apply_ack rf index) s))
  | _ => mret s
  end.

(** ** Calls *)

(** The network with the servers behind it, at a time *)
Definition net_of (s : Sys) (now : Z) : Labrpc.NetState (App := Host) :=
  Labrpc.mkNetState (RaftTester.net (s_cfg s)) (RaftTester.servers (s_cfg s)) (mkHost now (heap_of (s_cfg s)) [] None) (s_reqs s).

(** ... and the system after a step of it *)
Definition of_net (s : Sys) (ns : Labrpc.NetState (App := Host)) : res Sys :=
  match h_panic (Labrpc.app ns) with
  | Some e => Err e
  | None =>
      mret (mkSys (RaftTester.with_net (Labrpc.net ns) (RaftTester.with_servers (Labrpc.nsHeap ns)
                     (set_heap (h_heap (Labrpc.app ns)) (s_cfg s))))
              (s_procs s) (s_threads s ++ ((fun x => GApply x.1 x.2) <$> h_spawned (Labrpc.app ns))) (Labrpc.reqs ns))
  end.

Definition net_turn (s : Sys) (now : Z) (l : Labrpc.nlabel) : res Sys :=
  ns ← Labrpc.net_step (net_of s now) l; of_net s ns.

(** [rf.peers[j].Call(meth, args, reply)], up to the wait *)
Definition send (s : Sys) (a j : nat) (meth : string) (args : list byte) (sent : bool) : res Sys :=
  pr ← of_option ENil (s_procs s !! a);
  e ← of_option EIndex (p_ends pr !! j);
  net_turn s 0 (Labrpc.NCall (Labrpc.IStr e) meth args sent).

(** [sendRequestVote] and [sendAppendEntries] of goroutine [k]: its call *)
Definition call_turn (s : Sys) (k : nat) (g : gthread) (sent : bool) : res Sys :=
  match g with
  | GVote a j t (CReady args) =>
      s' ← send s a j "Raft.RequestVote" (enc_rva args) sent;
      mret (put_thread k (GVote a j t (CWait args (length (s_reqs s)))) s')
  | GBeat a j (CReady args) =>
      s' ← send s a j "Raft.AppendEntries" (enc_aea args) sent;
      mret (put_thread k (GBeat a j (CWait args (length (s_reqs s)))) s')
  | _ => mret s
  end.

(** What a request has come to: nothing yet, a failure, a reply *)
Definition answer (s : Sys) (q : nat) : option (option (list byte)) :=
  match Labrpc.rq_stage <$> s_reqs s !! q with
  | Some (Labrpc.RDone true r) => Some (Some r)
  | Some (Labrpc.RDone false _) => Some None
  | _ => None
  end.

(** ... and its return, when the request is done; after a failure the goroutine ends. *)
Definition return_turn (s : Sys) (k : nat) (g : gthread) : Sys :=
  match g with
  | GVote a j t (CWait args q) =>
      match answer s q with
      | Some (Some r) => put_thread k (GVote a j t (CGot args (dec_rvr r))) s
      | Some None => put_thread k GDone s
      | None => s
      end
  | GBeat a j (CWait args q) =>
      match answer s q with
      | Some (Some r) => put_thread k (GBeat a j (CGot args (dec_aer r))) s
      | Some None => put_thread k GDone s
      | None => s
      end
  | _ => s
  end.

(** ** Steps *)

Inductive sys_op :=
  | SConnect (i : nat) | SDisconnect (i : nat) | SCrash (i : nat)
  | SStart (i : nat) (rnds : nat -> list byte) (now rnd : Z)
  | SUnreliable (yes : bool) | SReordering (yes : bool).

Inductive slabel :=
  | SRun (a : nat) (now : Z)                         (* a turn of a server's loop *)
  | SThread (k : nat) (now : Z)                      (* a section of a goroutine *)
  | SCall (k : nat) (sent : bool)                    (* a goroutine calls *)
  | SReturn (k : nat)                                (* its call returns *)
  | SProcess (q : nat) (timer : bool) (r1 r2 : Z)    (* the network works on a request *)
  | SExec (q : nat) (now : Z)                        (* the handler of a request runs *)
  | SClient (i : nat) (command : Cmd)                (* the tester calls [Start] *)
  | STester (o : sys_op).                            (* the tester *)

Definition with_cfg (cfg : config) (s : Sys) : Sys := mkSys cfg (s_procs s) (s_threads s) (s_reqs s).

(** The names of the ends of server [i] *)
Definition names_of (cfg : config) (i : nat) : list string := default [] (mjoin (RaftTester.endnames cfg !! i)).

Definition op_step (s : Sys) (o : sys_op) : res Sys :=
  match o with
  | SConnect i => cfg ← RaftTester.connect i (s_cfg s); mret (with_cfg cfg s)
  | SDisconnect i => cfg ← RaftTester.disconnect i (s_cfg s); mret (with_cfg cfg s)
  | SCrash i => cfg ← RaftTester.crash1 i (s_cfg s); mret (with_cfg cfg s)
  | SStart i rnds now rnd =>
      cfg ← RaftTester.start1 raft_methods i rnds now rnd (s_cfg s);
      mret (mkSys cfg (s_procs s ++ [mkProc i (names_of cfg i) PTop []]) (s_threads s) (s_reqs s))
  | SUnreliable yes => mret (with_cfg (RaftTester.setunreliable yes (s_cfg s)) s)
  | SReordering yes => mret (with_cfg (RaftTester.setlongreordering yes (s_cfg s)) s)
  end.

Definition sstep (s : Sys) (l : slabel) : res Sys :=
  match l with
  | SRun a now =>
      match node_at s a, s_procs s !! a with
      | Some rf, Some pr =>
          '(rf', p, ts) ← run_turn a rf (p_pc pr) now;
          mret (go ts (put_proc a (set_p_pc p) (put_node a rf' s)))
      | _, _ => mret s
      end
  | SThread k now => match s_threads s !! k with Some g => thread_turn s k g now | None => mret s end
  | SCall k sent => match s_threads s !! k with Some g => call_turn s k g sent | None => mret s end
  | SReturn k => match s_threads s !! k with Some g => mret (return_turn s k g) | None => mret s end
  | SProcess q timer r1 r2 => net_turn s 0 (Labrpc.NProcess q timer r1 r2)
  | SExec q now => net_turn s now (Labrpc.NExec q)
  | SClient i command =>
      match mjoin (RaftTester.rafts (s_cfg s) !! i) ≫= fun a => (a,.) <$> node_at s a with
      | Some (a, rf) =>
          let '(term, isLeader) := GetState rf in
          if (isLeader : bool) then mret (go [GStart a term command] s) else mret s
      | None => mret s
      end
  | STester o => op_step s o
  end.

(** [make_config] with [n] servers *)
Definition sys_init (n : nat) (unreliable : bool) (now0 : Z) (rnds : nat -> nat -> list byte) (now rnd : nat -> Z) : res Sys :=
  cfg ← RaftTester.make_config raft_methods n unreliable now0 rnds now rnd;
  mret (mkSys cfg ((fun i => mkProc i (names_of cfg i) PTop []) <$> seq 0 n) [] []).

(** The server at address [a] is what the tester has as server [i]. *)
Definition current (s : Sys) (i a : nat) : Prop := RaftTester.rafts (s_cfg s) !! i = Some (Some a).

(** What a running server hands to the tester in a step: the goroutine of [start1] that reads its apply channel
    gets the message in that very step, as the channel has no buffer. *)
Definition emits (s : Sys) (l : slabel) : option (nat * ApplyMsg) :=
  match l with
  | SThread k _ =>
      match s_threads s !! k with
      | Some (GApply a (e :: _)) => '(i, _) ← list_find (fun o => o = Some a) (RaftTester.rafts (s_cfg s)); Some (i, apply_msg e)
      | _ => None
      end
  | _ => None
  end.

(** A test connects servers that run. *)
Definition allowed (s : Sys) (l : slabel) : Prop :=
  match l with STester (SConnect i) => exists a, current s i a | _ => True end.

Definition terms_below (s : Sys) : Prop :=
  Forall (fun ins => currentTerm (RaftTester.in_raft ins) < max_int) (RaftTester.instances (s_cfg s)).

(** ** Well-timed steps *)

Definition owner (s : Sys) (a : nat) : nat := default 0%nat (p_server <$> s_procs s !! a).

(** A goroutine as RaftCluster.v has it, for server [i] and incarnation [e] *)
Definition vote_stage_of (st : cstage RequestVoteArgs RequestVoteReply) : RaftCluster.vote_stage :=
  match st with
  | CNew => RaftCluster.VNew
  | CReady args | CWait args _ => RaftCluster.VSent args
  | CGot args reply => RaftCluster.VReplied args reply
  end.

Definition beat_stage_of (st : cstage AppendEntriesArgs AppendEntriesReply) : RaftCluster.beat_stage (Cmd := Cmd) :=
  match st with
  | CNew => RaftCluster.HNew
  | CReady args | CWait args _ => RaftCluster.HSent args
  | CGot args reply => RaftCluster.HReplied args reply
  end.

Definition thread_of (i e : nat) (g : gthread) : RaftCluster.thread (Cmd := Cmd) :=
  match g with
  | GVote a j t st => RaftCluster.TVote i e j t (vote_stage_of st)
  | GBeat a j st => RaftCluster.TBeat i e j (beat_stage_of st)
  | GStart a term command => RaftCluster.TStart i e term command
  | GApply a entries => RaftCluster.TApply i e entries
  | GAck a index entries => RaftCluster.TAck i e index entries
  | GDone => RaftCluster.TDone
  end.

Definition address (g : gthread) : option nat :=
  match g with
  | GVote a _ _ _ | GBeat a _ _ | GStart a _ _ | GApply a _ | GAck a _ _ => Some a
  | GDone => None
  end.

(** One server and perhaps one goroutine of it, for the conditions of RaftMachine.v to look at *)
Definition probe (i : nat) (rf : Raft) (p : pc) (ts : list (RaftCluster.thread (Cmd := Cmd))) : RaftCluster.Cluster (Cmd := Cmd) :=
  RaftCluster.mkCluster (replicate (S i) rf) (replicate (S i) p) [] ts [].

(** The step, if it is one of a running server, is [disciplined]. *)
Definition well_timed (s : Sys) (l : slabel) : Prop :=
  match l with
  | SRun a now =>
      forall i rf pr, current s i a -> node_at s a = Some rf -> s_procs s !! a = Some pr ->
        RaftMachine.disciplined (probe i rf (p_pc pr) []) (RaftCluster.LRun i now) = true
  | SThread k now =>
      forall i a rf g, s_threads s !! k = Some g -> address g = Some a -> current s i a -> node_at s a = Some rf ->
        RaftMachine.disciplined (probe i rf PTop [thread_of i 0 g]) (RaftCluster.LThread 0 now) = true
  | _ => True
  end.

(** Executions, with a condition on their steps *)
Inductive sys_reach (n : nat) (ok : Sys -> slabel -> Prop) : Sys -> Prop :=
  | sr_init unreliable now0 rnds now rnd s :
      (0 < n)%nat -> sys_init n unreliable now0 rnds now rnd = Val s -> sys_reach n ok s
  | sr_step s l s' :
      sys_reach n ok s -> allowed s l -> ok s l -> sstep s l = Val s' -> terms_below s' -> sys_reach n ok s'.

(** ... and with the messages that running servers have handed over, in their order *)
Inductive sys_trace (n : nat) (ok : Sys -> slabel -> Prop) : Sys -> list (nat * ApplyMsg) -> Prop :=
  | tr_init unreliable now0 rnds now rnd s :
      (0 < n)%nat -> sys_init n unreliable now0 rnds now rnd = Val s -> sys_trace n ok s []
  | tr_step s l s' ds :
      sys_trace n ok s ds -> allowed s l -> ok s l -> sstep s l = Val s' -> terms_below s' ->
      sys_trace n ok s' (ds ++ match emits s l with Some d => [d] | None => [] end).

Lemma reach_trace n ok s : sys_reach n ok s -> exists ds, sys_trace n ok s ds.
Proof. induction 1 as [unrel now0 rnds now rnd s Hn Hi|s l s' _ [ds IH] Hal Hok Hst Ht]; eexists; [by eapply tr_init|by eapply tr_step]. Qed.

End Net.
End RaftNet.
