(* ===== verification/RaftNetSim.v ===== *)
(** * The cluster behind the network

    The servers of RaftNet.v, with calls that go through labrpc and crashes that leave old servers running,
    behave like the cluster of RaftCluster.v, where a call is one step at the other server and a crash leaves
    nothing.  [sim] relates the two: the running servers, their loops and goroutines are those of the
    cluster; a request that may still be executed is a goroutine of the cluster whose request is sent; a
    server that was crashed matters only through what it had saved.  Every step of the system is a step of
    the cluster or none. *)

From stdpp Require Import base list gmap strings.
From Stdlib Require Import ZArith Lia Strings.Byte.
From S2P Require Import Prelude RaftNode RaftInv RaftCluster RaftClusterInv RaftElection RaftLogs RaftMachine.
From S2P Require Import Labrpc TestRand RaftTester RaftNet.
Import RaftNode RaftInv RaftCluster RaftClusterInv RaftNet.

Open Scope Z_scope.

Module RaftNetSim.

Notation net := RaftTester.net.
Notation rafts := RaftTester.rafts.
Notation instances := RaftTester.instances.
Notation persisters := RaftTester.persisters.
Notation in_raft := RaftTester.in_raft.
Notation in_persister := RaftTester.in_persister.
Notation IInt := Labrpc.IInt.
Notation IStr := Labrpc.IStr.

Section Sim.
Context {Cmd : Type} `{!EqDecision Cmd, !Codec Cmd, !RpcCodec Cmd}.
Notation Raft := (Raft Cmd).
Notation Entry := (Entry Cmd).
Notation Cluster := (@Cluster Cmd).
Notation thread := (@thread Cmd).
Notation label := (@label Cmd).
Notation Sys := (@Sys Cmd).
Notation gthread := (@gthread Cmd).
Notation slabel := (@slabel Cmd).
Notation config := (RaftTester.config (Cmd := Cmd) (App := @Host Cmd)).

(** ** The heap *)

Lemma set_persister_id (rf : Raft) : set_persister (persister rf) rf = rf.
Proof. by destruct rf. Qed.

Lemma persister_node (h : heap) a (rf : Raft) :
  node_in h a = Some rf ->
  exists ins, h.1 !! a = Some ins /\ h.2 !! in_persister ins = Some (persister rf) /\
    rf = set_persister (persister rf) (in_raft ins).
Proof.
  unfold node_in. destruct (h.1 !! a) as [ins|]; simpl; [|done].
  destruct (h.2 !! in_persister ins) as [ps|] eqn:Hp; simpl; [|done]. intros [= <-]. by exists ins.
Qed.

Definition disjoint_heap (h : @heap Cmd) : Prop :=
  forall a a' ins ins', h.1 !! a = Some ins -> h.1 !! a' = Some ins' -> in_persister ins = in_persister ins' -> a = a'.

Lemma node_in_put h a (rf rf' : Raft) : node_in h a = Some rf -> node_in (put_in h a rf') a = Some rf'.
Proof.
  intros (ins & Hi & Hp & _)%persister_node. unfold put_in, node_in. rewrite Hi. simpl.
  rewrite list_lookup_insert_eq by (by eapply lookup_lt_Some). simpl.
  rewrite list_lookup_insert_eq by (by eapply lookup_lt_Some). simpl. by rewrite set_persister_id.
Qed.

Lemma node_in_put_ne h a a' (rf' : Raft) :
  disjoint_heap h -> a' <> a -> node_in (put_in h a rf') a' = node_in h a'.
Proof.
  intros Hd Hne. unfold put_in, node_in. destruct (h.1 !! a) as [ins|] eqn:Ha; [|done]. simpl.
  rewrite list_lookup_insert_ne by done. destruct (h.1 !! a') as [ins'|] eqn:Ha'; simpl; [|done].
  rewrite list_lookup_insert_ne; [done|]. intros E. apply Hne. symmetry. by eapply Hd.
Qed.

(** What a section leaves of the heap besides the server *)
Lemma put_in_shape h a (rf : Raft) :
  in_persister <$> (put_in h a rf).1 = in_persister <$> h.1 /\ length (put_in h a rf).2 = length h.2 /\
  (forall p, (forall ins, h.1 !! a = Some ins -> in_persister ins <> p) -> (put_in h a rf).2 !! p = h.2 !! p).
Proof.
  unfold put_in. destruct (h.1 !! a) as [ins|] eqn:Ha; simpl; [|done]. split_and!.
  - rewrite list_fmap_insert. simpl. apply list_insert_id. by rewrite list_lookup_fmap, Ha.
  - apply length_insert.
  - intros p Hp. apply list_lookup_insert_ne. by apply Hp.
Qed.

(** ** A server's own sections in the cluster *)

Lemma set_node_id (c : Cluster) i rf : nodes c !! i = Some rf -> set_node i rf c = c.
Proof. intros Hi. unfold set_node. rewrite list_insert_id by done. by destruct c. Qed.

Lemma set_pc_id (c : Cluster) i p : pcs c !! i = Some p -> set_pc i p c = c.
Proof. intros Hi. unfold set_pc. rewrite list_insert_id by done. by destruct c. Qed.

Lemma add_threads_nil (c : Cluster) : add_threads [] c = c.
Proof. unfold add_threads. rewrite app_nil_r. by destruct c. Qed.

Lemma spawn_apply_go i ep a (spawn : option (list Entry)) (c : Cluster) :
  spawn_apply i ep spawn c = add_threads (thread_of i ep <$> go_apply a spawn) c.
Proof. destruct spawn; simpl; [done|by rewrite add_threads_nil]. Qed.

Lemma run_turn_step (c : Cluster) i rf p ep a now rf' p' gs :
  nodes c !! i = Some rf -> pcs c !! i = Some p -> me rf = Z.of_nat i ->
  run_turn a rf p now = Val (rf', p', gs) ->
  run_step c i rf p ep now = Val (add_threads (thread_of i ep <$> gs) (set_pc i p' (set_node i rf' c))).
Proof.
  intros Hn Hp Hme. assert (set_node i rf c = c) as Hid by (by apply set_node_id).
  unfold run_turn. rewrite Hme, Nat2Z.id. destruct p as [| | | | | |cand|cand j|]; simpl.
  - destruct (killed rf); [|destruct (state rf)]; intros [= <- <- <-]; simpl; rewrite ?add_threads_nil, Hid; try done.
    unfold mret, res_ret, add_threads, set_pc. simpl. by rewrite <- list_fmap_compose.
  - intros [= <- <- <-]. simpl. rewrite add_threads_nil, Hid, set_pc_id; done.
  - intros ([r spawn] & -> & [= <- <- <-])%bind_val. simpl. by rewrite (spawn_apply_go i ep a).
  - intros [= <- <- <-]. simpl. rewrite add_threads_nil, Hid. by destruct (isElectionTimeout rf now).
  - intros [= <- <- <-]. simpl. by rewrite add_threads_nil.
  - intros [= <- <- <-]. simpl. rewrite add_threads_nil, Hid. by destruct (isElectionTimeout rf now).
  - intros [= <- <- <-]. simpl. by rewrite add_threads_nil.
  - destruct (npeers rf <=? j)%nat; [|destruct (bool_decide (j = i)); [|destruct (negb _)]];
      intros [= <- <- <-]; simpl; rewrite ?add_threads_nil, Hid; done.
  - intros [= <- <- <-]. simpl. by rewrite add_threads_nil.
Qed.

(** Raft never writes a snapshot. *)
Definition keeps (rf rf' : Raft) : Prop := snapshot (persister rf') = snapshot (persister rf).

(** Opens a section down to the states it can end in *)
Ltac open_section := repeat (inv_res; case_match; simplify_eq/=); inv_res.

Lemma RequestVote_keeps (rf : Raft) args now rf' reply : RequestVote rf args now = Val (rf', reply) -> keeps rf rf'.
Proof. unfold RequestVote, keeps. intros H. open_section; done. Qed.

Lemma append_check_keeps (rf : Raft) args rf' r : append_check rf args = Val (rf', r) -> keeps rf rf'.
Proof. unfold append_check, keeps. intros H. open_section; done. Qed.

Lemma AppendEntries_keeps (rf : Raft) args now rf' reply spawn :
  AppendEntries rf args now = Val (rf', reply, spawn) -> keeps rf rf'.
Proof.
  unfold AppendEntries. destruct (_ <? _); [by intros [= <- _ _]|].
  intros ([rf1 [[ok xt] xi]] & H1%append_check_keeps & (sp & _ & [= <- _ _])%bind_val)%bind_val.
  unfold keeps in *. simpl. by destruct (currentTerm rf1 <? aea_Term args).
Qed.

Lemma vote_reply_keeps (rf : Raft) reply : keeps rf (vote_reply rf reply).
Proof. unfold vote_reply, keeps. by repeat case_match. Qed.

Lemma heartbeat_reply_keeps (rf : Raft) j args reply rf' : heartbeat_reply rf j args reply = Val rf' -> keeps rf rf'.
Proof. unfold heartbeat_reply, keeps. intros H. open_section; done. Qed.

Lemma Start_append_keeps (rf : Raft) term command rf' index :
  Start_append rf term command = Val (rf', index) -> keeps rf rf'.
Proof. unfold Start_append, keeps. intros H. open_section; done. Qed.

Lemma apply_ack_keeps (rf : Raft) index : keeps rf (apply_ack rf index).
Proof. unfold apply_ack, keeps. by case_match. Qed.

Lemma run_turn_keeps a (rf : Raft) p now rf' p' gs : run_turn a rf p now = Val (rf', p', gs) -> keeps rf rf'.
Proof.
  unfold run_turn, keeps. destruct p as [| | | | | |cand|cand j|]; simpl.
  - destruct (killed rf); [|destruct (state rf)]; by intros [= <- _ _].
  - by intros [= <- _ _].
  - intros ([r sp] & Ha & [= <- _ _])%bind_val. unfold advance_commit in Ha. open_section; done.
  - by intros [= <- _ _].
  - by intros [= <- _ _].
  - by intros [= <- _ _].
  - by intros [= <- _ _].
  - repeat case_match; by intros [= <- _ _].
  - intros [= <- _ _]. unfold candidate_check. by case_match.
Qed.

Lemma Make_keeps n i ps now rnd (rf : Raft) : Make n i ps now rnd = Val rf -> persister rf = ps.
Proof. unfold Make, readPersist. intros H. open_section; done. Qed.

(** ** The books of the tester *)

(** The parts of a configuration that the sections of servers and requests leave alone *)
Record same_books (cfg cfg' : config) : Prop := {
  sb_wiring : RaftTester.wiring cfg' = RaftTester.wiring cfg;
  sb_rafts : rafts cfg' = rafts cfg;
  sb_saved : RaftTester.saved cfg' = RaftTester.saved cfg;
  sb_at : Labrpc.servers (net cfg') = Labrpc.servers (net cfg);
  sb_services : Labrpc.services <$> RaftTester.servers cfg' = Labrpc.services <$> RaftTester.servers cfg;
  sb_addresses : in_persister <$> instances cfg' = in_persister <$> instances cfg;
  sb_persisters : length (persisters cfg') = length (persisters cfg) }.

(** Servers are where the books say: each address has a persister of its own, the methods of its server, and ends
    that no later server shares; the server an end leads to is the one that runs. *)
Record books (cfg : config) (ends : list (nat * list string)) : Prop := {
  bk_wired : RaftTester.wired cfg;
  bk_rafts : length (rafts cfg) = RaftTester.n cfg;
  bk_saved : length (RaftTester.saved cfg) = RaftTester.n cfg;
  bk_ends_len : length ends = length (instances cfg);
  bk_servers : length (RaftTester.servers cfg) = length (instances cfg);
  bk_disj : disjoint_heap (heap_of cfg);
  bk_alloc : forall a ins, instances cfg !! a = Some ins -> (in_persister ins < length (persisters cfg))%nat;
  bk_service : forall a rs, RaftTester.servers cfg !! a = Some rs ->
    Labrpc.services rs !! "Raft" = Some (Labrpc.MakeService "Raft" (raft_methods a));
  bk_conn : forall i, RaftTester.is_connected cfg i -> exists a, rafts cfg !! i = Some (Some a);
  bk_at : forall x a, Labrpc.server_at (net cfg) x = Some a <->
    exists i, x = IInt (Z.of_nat i) /\ rafts cfg !! i = Some (Some a);
  bk_up : forall i a, rafts cfg !! i = Some (Some a) -> exists ins names,
    instances cfg !! a = Some ins /\ RaftTester.saved cfg !! i = Some (Some (in_persister ins)) /\
    ends !! a = Some (i, names) /\ RaftTester.endnames cfg !! i = Some (Some names);
  bk_down : forall i p, rafts cfg !! i = Some None -> RaftTester.saved cfg !! i = Some (Some p) ->
    (p < length (persisters cfg))%nat /\ forall a ins, instances cfg !! a = Some ins -> in_persister ins <> p;
  bk_names : forall a i names j e, ends !! a = Some (i, names) -> names !! j = Some e ->
    IStr e ∈ Labrpc.ends (net cfg) /\
    forall i' j', RaftTester.name_of cfg i' j' = Some e -> i' = i /\ j' = j /\
      forall a', rafts cfg !! i' = Some (Some a') -> a' = a }.

Lemma fmap_lookup {A B} (f : A -> B) (l l' : list A) k x :
  f <$> l' = f <$> l -> l' !! k = Some x -> exists y, l !! k = Some y /\ f y = f x.
Proof.
  intros E Hk. assert ((f <$> l) !! k = Some (f x)) as Hf by (rewrite <- E, list_lookup_fmap, Hk; done).
  rewrite list_lookup_fmap in Hf. destruct (l !! k) as [y|]; [|done]. injection Hf as Hf. by exists y.
Qed.

Lemma fmap_length_eq {A B} (f : A -> B) (l l' : list A) : f <$> l' = f <$> l -> length l' = length l.
Proof. intros E%(f_equal length). by rewrite !length_fmap in E. Qed.

Lemma same_books_ok cfg cfg' ends : same_books cfg cfg' -> books cfg ends -> books cfg' ends.
Proof.
  intros [Ew Er Es Ea Ev Ei Ep] [].
  pose proof (RaftTester.wired_wiring _ _ Ew bk_wired0) as Hw. injection Ew as En Ec Ee Eends Een Eco.
  pose proof (fmap_length_eq _ _ _ Ei) as Eli. pose proof (fmap_length_eq _ _ _ Ev) as Elv.
  constructor; try done; rewrite ?Er, ?Es, ?En, ?Eli, ?Elv, ?Ep; try done.
  - intros a a' ins ins' Ha Ha' E. simpl in *. destruct (fmap_lookup _ _ _ _ _ Ei Ha) as (y & Hy & Ey).
    destruct (fmap_lookup _ _ _ _ _ Ei Ha') as (y' & Hy' & Ey'). by eapply bk_disj0; [exact Hy|exact Hy'|congruence].
  - intros a ins Ha. destruct (fmap_lookup _ _ _ _ _ Ei Ha) as (y & Hy & <-). by eapply bk_alloc0.
  - intros a rs Ha. destruct (fmap_lookup _ _ _ _ _ Ev Ha) as (y & Hy & <-). by eapply bk_service0.
  - intros i. unfold RaftTester.is_connected. rewrite Ec. apply bk_conn0.
  - intros x a. unfold Labrpc.server_at. rewrite Ea. apply bk_at0.
  - intros i a Hi. destruct (bk_up0 i a Hi) as (ins & names & Ha & Hsv & He & Hn).
    destruct (fmap_lookup _ _ _ a ins (eq_sym Ei) Ha) as (y & Hy & Ey). exists y, names. rewrite Ee, Ey. done.
  - intros i p Hi Hsv. destruct (bk_down0 i p Hi Hsv) as [Hp Hno]. split; [done|].
    intros a ins Ha. destruct (fmap_lookup _ _ _ _ _ Ei Ha) as (y & Hy & <-). by eapply Hno.
  - intros a i names j e Ha Hj. rewrite Eends. destruct (bk_names0 a i names j e Ha Hj) as [Hin Hc]. split; [done|].
    intros i' j'. unfold RaftTester.name_of. rewrite Ee. apply Hc.
Qed.

(** An end that is enabled is one of the server that runs. *)
Lemma enabled_current cfg ends a i names j e :
  books cfg ends -> ends !! a = Some (i, names) -> names !! j = Some e ->
  Labrpc.is_enabled (net cfg) (IStr e) = true ->
  rafts cfg !! i = Some (Some a) /\ Labrpc.connected_to (net cfg) (IStr e) = Some (IInt (Z.of_nat j)).
Proof.
  intros Hb Ha Hj He. apply (RaftTester.w_enabled _ (bk_wired _ _ Hb)) in He as (i' & j' & e' & [= <-] & Hn & Hi & _).
  destruct (bk_names _ _ Hb _ _ _ _ _ Ha Hj) as [_ Hc]. destruct (Hc _ _ Hn) as (-> & -> & Hcur).
  destruct (bk_conn _ _ Hb _ Hi) as [a' Ha']. rewrite Ha', (Hcur _ Ha'). split; [done|].
  by apply (RaftTester.w_to _ (bk_wired _ _ Hb) i).
Qed.

(** ** The relation *)

Definition ends_of (s : Sys) : list (nat * list string) := (fun pr => (p_server pr, p_ends pr)) <$> s_procs s.

(** Server [i] runs at address [a], as incarnation [e]. *)
Definition runs (s : Sys) (c : Cluster) (i a e : nat) : Prop :=
  exists rf pr ms, node_at s a = Some rf /\ s_procs s !! a = Some pr /\ snapshot (persister rf) = [] /\
    nodes c !! i = Some rf /\ pcs c !! i = Some (p_pc pr) /\ epochs c !! i = Some e /\
    applied c !! i = Some ms /\ p_out pr `suffix_of` ms.

(** Server [i] has been crashed: what it had saved is kept. *)
Definition down (s : Sys) (c : Cluster) (i : nat) : Prop :=
  exists rf p, nodes c !! i = Some rf /\ RaftTester.saved (s_cfg s) !! i = Some (Some p) /\
    persisters (s_cfg s) !! p = Some (persister rf) /\ snapshot (persister rf) = [] /\ currentTerm rf < max_int.

(** A request that has not been executed and still may be; [a] is the address of the caller. *)
Definition may_run (s : Sys) (a : nat) (r : Labrpc.request) : Prop :=
  match Labrpc.rq_handler r with
  | Labrpc.HRunning _ => True
  | Labrpc.HNone =>
      match Labrpc.rq_stage r with
      | Labrpc.RNew => exists i, current s i a
      | Labrpc.RReady _ => True
      | _ => False
      end
  | Labrpc.HDone _ => False
  end.

(** The request of the cluster's goroutine [T], to server [j] *)
Definition request_of (r : Labrpc.request) (j : nat) (T : option thread) : Prop :=
  (exists i e t args, T = Some (TVote i e j t (VSent args)) /\
     Labrpc.rq_meth r = "Raft.RequestVote" /\ Labrpc.rq_args r = enc_rva args) \/
  (exists i e args, T = Some (TBeat i e j (HSent args)) /\
     Labrpc.rq_meth r = "Raft.AppendEntries" /\ Labrpc.rq_args r = enc_aea args).

(** A request that has been given to a server that no longer runs, or has failed *)
Definition doomed (s : Sys) (r : Labrpc.request) : Prop :=
  match Labrpc.rq_stage r with
  | Labrpc.RRun inf | Labrpc.RFinal inf (Some _) => forall i, ~ current s i (Labrpc.i_server inf)
  | Labrpc.RFinal _ None | Labrpc.RDone false _ => True
  | _ => False
  end.

(** The address [a] is one of server [j]. *)
Definition address_of (s : Sys) (j a : nat) : Prop := exists names, ends_of s !! a = Some (j, names).

(** What the network has read for a request *)
Definition info_of (st : Labrpc.rstage) : option Labrpc.info :=
  match st with Labrpc.RReady inf | Labrpc.RRun inf | Labrpc.RFinal inf _ => Some inf | _ => None end.

(** Requests go to addresses of the server that was called. *)
Record given_to (s : Sys) (j : nat) (r : Labrpc.request) : Prop := {
  gt_ok : Labrpc.req_ok r;
  gt_info : forall inf, info_of (Labrpc.rq_stage r) = Some inf ->
    Labrpc.i_sname inf = IInt (Z.of_nat j) /\ address_of s j (Labrpc.i_server inf);
  gt_running : forall a', Labrpc.rq_handler r = Labrpc.HRunning a' -> address_of s j a' /\
    forall inf, Labrpc.rq_stage r = Labrpc.RRun inf -> Labrpc.i_server inf = a' }.

Record req_rel (s : Sys) (c : Cluster) (qm : gmap nat nat) (q : nat) (r : Labrpc.request) (a i : nat) (names : list string) (j : nat) (e : string) : Prop := {
  rr_caller : ends_of s !! a = Some (i, names);
  rr_name : names !! j = Some e;
  rr_end : Labrpc.rq_end r = IStr e;
  rr_given : given_to s j r;
  rr_sent : may_run s a r -> exists x, qm !! q = Some x /\ request_of r j (threads c !! x) }.

(** The goroutine of the cluster when the reply [b] has been sent *)
Definition replied (i e : nat) (g : gthread) (b : list byte) : thread :=
  match g with
  | GVote a j t (CWait args q) => TVote i e j t (VReplied args (dec_rvr b))
  | GBeat a j (CWait args q) => TBeat i e j (HReplied args (dec_aer b))
  | _ => TDone
  end.

Definition waits_for (g : gthread) : option nat :=
  match g with
  | GVote _ _ _ (CWait _ q) | GBeat _ _ (CWait _ q) => Some q
  | _ => None
  end.

(** Goroutine [g] at address [a] and goroutine [x] of the cluster *)
Definition thr_rel (s : Sys) (c : Cluster) (qm : gmap nat nat) (x i e a : nat) (g : gthread) : Prop :=
  match waits_for g with
  | None => threads c !! x = Some (thread_of i e g) /\ forall q, qm !! q <> Some x
  | Some q => exists r, s_reqs s !! q = Some r /\ qm !! q = Some x /\
      match Labrpc.rq_handler r with
      | Labrpc.HDone b => threads c !! x = Some (replied i e g b) \/ doomed s r
      | _ => may_run s a r -> threads c !! x = Some (thread_of i e g)
      end
  end.

Record sim (n : nat) (s : Sys) (c : Cluster) (ep : list nat) (tm qm : gmap nat nat) : Prop := {
  sm_books : books (s_cfg s) (ends_of s);
  sm_n : RaftTester.n (s_cfg s) = n;
  sm_ep : length ep = length (s_procs s);
  sm_up : forall i a, current s i a -> exists e, ep !! a = Some e /\ runs s c i a e;
  sm_down : forall i, rafts (s_cfg s) !! i = Some None -> down s c i;
  sm_tm : forall k x, tm !! k = Some x -> (k < length (s_threads s))%nat /\ (x < length (threads c))%nat;
  sm_tm_inj : forall k k' x, tm !! k = Some x -> tm !! k' = Some x -> k = k';
  sm_qm : forall q x, qm !! q = Some x -> (q < length (s_reqs s))%nat /\ (x < length (threads c))%nat;
  sm_qm_inj : forall q q' x, qm !! q = Some x -> qm !! q' = Some x -> q = q';
  sm_thr : forall k g a i, s_threads s !! k = Some g -> address g = Some a -> current s i a ->
    exists x e, tm !! k = Some x /\ ep !! a = Some e /\ thr_rel s c qm x i e a g;
  sm_req : forall q r, s_reqs s !! q = Some r -> exists a i names j e, req_rel s c qm q r a i names j e }.

(** ** Frames *)

(** Of the servers that run, some may stop. *)
Record fewer (s s' : Sys) : Prop := {
  fw_ends : ends_of s' = ends_of s;
  fw_current : forall i a, current s' i a -> current s i a }.

Lemma may_run_fewer s s' a r : fewer s s' -> may_run s' a r -> may_run s a r.
Proof.
  intros Hv. unfold may_run. destruct (Labrpc.rq_handler r); [|done..]. destruct (Labrpc.rq_stage r); try done.
  intros [i Hi]. exists i. by apply Hv.
Qed.

Lemma doomed_fewer s s' r : fewer s s' -> doomed s r -> doomed s' r.
Proof.
  intros Hv. unfold doomed. destruct (Labrpc.rq_stage r) as [| | |inf|inf [b|]| |[] b]; try done;
    intros Hn i Hi; by eapply Hn, Hv.
Qed.

Lemma given_fewer s s' j r : fewer s s' -> given_to s j r -> given_to s' j r.
Proof. intros [E _] [H1 H2 H3]. constructor; unfold address_of in *; rewrite ?E; done. Qed.

Lemma thr_fewer s s' c c' qm qm' x i e a g :
  fewer s s' -> threads c' !! x = threads c !! x ->
  (forall q, qm' !! q = Some x -> qm !! q = Some x) ->
  (forall q r, waits_for g = Some q -> qm !! q = Some x -> s_reqs s !! q = Some r ->
     s_reqs s' !! q = Some r /\ qm' !! q = Some x) ->
  thr_rel s c qm x i e a g -> thr_rel s' c' qm' x i e a g.
Proof.
  intros Hv Hx Hq1 Hq2. unfold thr_rel. rewrite Hx. destruct (waits_for g) as [q|].
  - intros (r & Hr & Hq & Hh). destruct (Hq2 q r eq_refl Hq Hr) as [Hr' Hq']. exists r. split_and!; [done|done|].
    destruct (Labrpc.rq_handler r) as [| |b]; [by intros ?%(may_run_fewer s s')%Hh..|].
    destruct Hh as [?|?]; [by left|right; by apply (doomed_fewer s s')].
  - intros [HT Hno]. split; [done|]. intros q Hq%Hq1. by apply (Hno q).
Qed.

Lemma req_fewer s s' c c' qm qm' q r a i names j e :
  fewer s s' ->
  (may_run s a r -> forall x, qm !! q = Some x -> qm' !! q = Some x /\ threads c' !! x = threads c !! x) ->
  req_rel s c qm q r a i names j e -> req_rel s' c' qm' q r a i names j e.
Proof.
  intros Hv Hx [H1 H2 H3 H4 H5]. constructor; [by rewrite (fw_ends _ _ Hv)|done|done|by eapply given_fewer|].
  intros Hm%(may_run_fewer s s'); [|done]. destruct (H5 Hm) as (x & Hq & Ho). exists x.
  destruct (Hx Hm x Hq) as [Hq' HT]. split; [done|]. by rewrite HT.
Qed.

(** The same servers run, with the same ends. *)
Record near (s s' : Sys) : Prop := {
  nr_ends : ends_of s' = ends_of s;
  nr_rafts : rafts (s_cfg s') = rafts (s_cfg s) }.

Lemma current_near s s' i a : near s s' -> current s' i a <-> current s i a.
Proof. intros [_ E]. unfold current. by rewrite E. Qed.

Lemma may_run_near s s' a r : near s s' -> may_run s' a r <-> may_run s a r.
Proof.
  intros Hv. unfold may_run. destruct (Labrpc.rq_handler r); [|done..]. destruct (Labrpc.rq_stage r); try done.
  by setoid_rewrite (current_near s s').
Qed.

Lemma doomed_near s s' r : near s s' -> doomed s' r <-> doomed s r.
Proof.
  intros Hv. unfold doomed. destruct (Labrpc.rq_stage r) as [| | |inf|inf [b|]| |[] b]; try done;
    by setoid_rewrite (current_near s s').
Qed.

Lemma near_fewer s s' : near s s' -> fewer s s'.
Proof. intros Hv. constructor; [apply Hv|]. intros i a Hi. by apply (current_near s s' i a Hv). Qed.

Lemma given_near s s' j r : near s s' -> given_to s j r -> given_to s' j r.
Proof. intros Hv. eapply given_fewer, near_fewer, Hv. Qed.

Lemma thr_near s s' c c' qm qm' x i e a g :
  near s s' -> threads c' !! x = threads c !! x ->
  (forall q, qm' !! q = Some x -> qm !! q = Some x) ->
  (forall q r, waits_for g = Some q -> qm !! q = Some x -> s_reqs s !! q = Some r ->
     s_reqs s' !! q = Some r /\ qm' !! q = Some x) ->
  thr_rel s c qm x i e a g -> thr_rel s' c' qm' x i e a g.
Proof. intros Hv. eapply thr_fewer, near_fewer, Hv. Qed.

Lemma req_near s s' c c' qm qm' q r a i names j e :
  near s s' ->
  (may_run s a r -> forall x, qm !! q = Some x -> qm' !! q = Some x /\ threads c' !! x = threads c !! x) ->
  req_rel s c qm q r a i names j e -> req_rel s' c' qm' q r a i names j e.
Proof. intros Hv. eapply req_fewer, near_fewer, Hv. Qed.

(** What the relation of goroutines and requests looks at *)
Record same_view (s s' : Sys) : Prop := {
  sv_reqs : s_reqs s' = s_reqs s;
  sv_ends : ends_of s' = ends_of s;
  sv_rafts : rafts (s_cfg s') = rafts (s_cfg s) }.

Lemma same_view_near s s' : same_view s s' -> near s s'.
Proof. by intros []. Qed.

Lemma thr_frame s s' c c' qm x i e a g :
  same_view s s' -> threads c' !! x = threads c !! x -> thr_rel s c qm x i e a g -> thr_rel s' c' qm x i e a g.
Proof.
  intros Hv Hx. apply thr_near; [by apply same_view_near|done|done|].
  intros q r _ Hq Hr. by rewrite (sv_reqs _ _ Hv).
Qed.

Lemma req_frame s s' c c' qm q r a i names j e :
  same_view s s' -> (forall x, qm !! q = Some x -> threads c' !! x = threads c !! x) ->
  req_rel s c qm q r a i names j e -> req_rel s' c' qm q r a i names j e.
Proof. intros Hv Hx. apply req_near; [by apply same_view_near|]. intros _ x Hq. split; [done|by apply Hx]. Qed.

(** The goroutines and the requests, when neither they nor the goroutines of the cluster change *)
Lemma thr_same (s s' : Sys) (c c' : Cluster) (ep : list nat) (tm qm : gmap nat nat) :
  same_view s s' -> s_threads s' = s_threads s -> threads c' = threads c ->
  (forall k g a i, s_threads s !! k = Some g -> address g = Some a -> current s i a ->
    exists x e, tm !! k = Some x /\ ep !! a = Some e /\ thr_rel s c qm x i e a g) ->
  forall k g a i, s_threads s' !! k = Some g -> address g = Some a -> current s' i a ->
    exists x e, tm !! k = Some x /\ ep !! a = Some e /\ thr_rel s' c' qm x i e a g.
Proof.
  intros Hv Ht Hc Hold k g a i. rewrite Ht, (current_near s s') by (by apply same_view_near). intros Hk Ha Hi.
  destruct (Hold k g a i Hk Ha Hi) as (x & e & Hx & He & Hr). exists x, e. split_and!; [done|done|].
  eapply thr_frame; [done|by rewrite Hc|done].
Qed.

Lemma req_same (s s' : Sys) (c c' : Cluster) (qm : gmap nat nat) :
  same_view s s' -> threads c' = threads c ->
  (forall q r, s_reqs s !! q = Some r -> exists a i names j e, req_rel s c qm q r a i names j e) ->
  forall q r, s_reqs s' !! q = Some r -> exists a i names j e, req_rel s' c' qm q r a i names j e.
Proof.
  intros Hv Hc Hold q r. rewrite (sv_reqs _ _ Hv). intros (a & i & names & j & e & Hr)%Hold.
  exists a, i, names, j, e. eapply req_frame; [done| |done]. by rewrite Hc.
Qed.

(** The running servers have distinct addresses. *)
Lemma current_inj s i i' a : books (s_cfg s) (ends_of s) -> current s i a -> current s i' a -> i = i'.
Proof.
  intros Hb Hi Hi'. destruct (bk_up _ _ Hb _ _ Hi) as (? & n1 & _ & _ & E1 & _).
  destruct (bk_up _ _ Hb _ _ Hi') as (? & n2 & _ & _ & E2 & _). congruence.
Qed.

Lemma runs_or_not (s : Sys) a : (exists i, current s i a) \/ (forall i, ~ current s i a).
Proof.
  destruct (decide (Some a ∈ rafts (s_cfg s))) as [Hi|Hn].
  - left. by apply list_elem_of_lookup in Hi.
  - right. intros i Hi. apply Hn. by eapply list_elem_of_lookup_2.
Qed.

(** ** A section of a server *)

Lemma set_heap_books (cfg : config) h :
  in_persister <$> h.1 = in_persister <$> instances cfg -> length h.2 = length (persisters cfg) ->
  same_books cfg (set_heap h cfg).
Proof. intros H1 H2. by constructor. Qed.

Lemma put_node_view a (rf : Raft) s : same_view s (put_node a rf s).
Proof. done. Qed.

Lemma put_node_books a (rf : Raft) s : books (s_cfg s) (ends_of s) -> books (s_cfg (put_node a rf s)) (ends_of (put_node a rf s)).
Proof.
  intros Hb. eapply same_books_ok; [|exact Hb]. destruct (put_in_shape (heap_of (s_cfg s)) a rf) as (H1 & H2 & _).
  by apply set_heap_books.
Qed.

Lemma node_at_put s a a' (rf : Raft) :
  books (s_cfg s) (ends_of s) -> is_Some (node_at s a) ->
  node_at (put_node a rf s) a' = if decide (a' = a) then Some rf else node_at s a'.
Proof.
  intros Hb [rf0 Ha]. unfold node_at, put_node, heap_of, set_heap. simpl.
  change (node_in (put_in (heap_of (s_cfg s)) a rf) a' = if decide (a' = a) then Some rf else node_in (heap_of (s_cfg s)) a').
  case_decide as E; [subst a'; by eapply node_in_put|]. apply node_in_put_ne; [apply Hb|done].
Qed.

(** What crashed servers had saved is out of reach. *)
Lemma put_node_down s c c' a (rf : Raft) i :
  books (s_cfg s) (ends_of s) -> rafts (s_cfg s) !! i = Some None -> nodes c' !! i = nodes c !! i ->
  down s c i -> down (put_node a rf s) c' i.
Proof.
  intros Hb Hi Hn (rf0 & p & Hrf & Hsv & Hp & Hsn & Ht). exists rf0, p. rewrite Hn. split_and!; try done.
  destruct (put_in_shape (heap_of (s_cfg s)) a rf) as (_ & _ & H3). simpl. unfold set_heap. simpl. rewrite H3; [done|].
  intros ins Ha. destruct (bk_down _ _ Hb _ _ Hi Hsv) as [_ Hno]. by eapply Hno.
Qed.

Lemma sim_put_cur n s c ep tm qm i a rf rf' :
  sim n s c ep tm qm -> current s i a -> node_at s a = Some rf -> keeps rf rf' ->
  sim n (put_node a rf' s) (set_node i rf' c) ep tm qm.
Proof.
  intros [] Hc Hrf Hk. pose proof (put_node_view a rf' s) as Hv. constructor; try done; [..|by apply (req_same s _ c _ qm Hv)].
  - by apply put_node_books.
  - intros i' a' Hc'. destruct (sm_up0 i' a' Hc') as (e & He & rf0 & pr & ms & H1 & H2 & H3 & H4 & H5 & H6 & H7 & H8).
    exists e. split; [done|]. change (current s i' a') in Hc'.
    destruct (decide (a' = a)) as [->|Hne].
    + assert (i' = i) as -> by (eapply current_inj; done). exists rf', pr, ms.
      rewrite (node_at_put s a a), decide_True by eauto. rewrite Hrf in H1. injection H1 as <-.
      split_and!; try done; [by rewrite Hk|]. simpl. apply list_lookup_insert_eq. by eapply lookup_lt_Some.
    + exists rf0, pr, ms. rewrite (node_at_put s a a'), decide_False by eauto. split_and!; try done.
      simpl. rewrite list_lookup_insert_ne; [done|]. intros <-. unfold current in *. congruence.
  - intros i' Hi'. eapply (put_node_down s c); [done|exact Hi'| |by apply sm_down0]. simpl.
    apply list_lookup_insert_ne. intros ->. unfold current in Hc. simpl in Hi'. congruence.
Qed.

Lemma sim_put_old n s c ep tm qm a rf rf' :
  sim n s c ep tm qm -> (forall i, ~ current s i a) -> node_at s a = Some rf ->
  sim n (put_node a rf' s) c ep tm qm.
Proof.
  intros [] Hc Hrf. pose proof (put_node_view a rf' s) as Hv. constructor; try done; [..|by apply (req_same s _ c _ qm Hv)].
  - by apply put_node_books.
  - intros i' a' Hc'. destruct (sm_up0 i' a' Hc') as (e & He & rf0 & pr & ms & H1 & H2).
    exists e. split; [done|]. exists rf0, pr, ms. rewrite (node_at_put s a a'), decide_False; [done|..]; eauto.
    intros ->. by eapply Hc.
  - intros i' Hi'. eapply (put_node_down s c); [done|exact Hi'|done|by apply sm_down0].
Qed.

(** ** The rest of a server: its loop, its output, its goroutines *)

Lemma put_proc_ends a f (s : Sys) :
  (forall pr, p_server (f pr) = p_server pr /\ p_ends (f pr) = p_ends pr) -> ends_of (put_proc a f s) = ends_of s.
Proof.
  intros Hf. unfold ends_of, put_proc. simpl. apply list_eq. intros k. rewrite !list_lookup_fmap, list_lookup_alter.
  case_decide as Hk; [subst k|done]. destruct (s_procs s !! a) as [pr|]; simpl; [|done]. by destruct (Hf pr) as [-> ->].
Qed.

Lemma sim_proc n s (c c' : Cluster) ep tm qm a f :
  sim n s c ep tm qm -> (forall pr, p_server (f pr) = p_server pr /\ p_ends (f pr) = p_ends pr) ->
  nodes c' = nodes c -> epochs c' = epochs c -> threads c' = threads c ->
  (forall i pr ms, current s i a -> s_procs s !! a = Some pr -> pcs c !! i = Some (p_pc pr) ->
     applied c !! i = Some ms -> p_out pr `suffix_of` ms ->
     pcs c' !! i = Some (p_pc (f pr)) /\ exists ms', applied c' !! i = Some ms' /\ p_out (f pr) `suffix_of` ms') ->
  (forall i, ~ current s i a -> pcs c' !! i = pcs c !! i /\ applied c' !! i = applied c !! i) ->
  sim n (put_proc a f s) c' ep tm qm.
Proof.
  intros [] Hf En Ee Et Hcur Hold. assert (same_view s (put_proc a f s)) as Hv by (constructor; [done|by apply put_proc_ends|done]).
  constructor; rewrite ?Et, ?(sv_ends _ _ Hv); try done; [|..|by eapply (thr_same s _ c)|by eapply (req_same s _ c)].
  - simpl. by rewrite length_alter.
  - intros i a' Hc. destruct (sm_up0 i a' Hc) as (e & He & rf & pr & ms & H1 & H2 & H3 & H4 & H5 & H6 & H7 & H8).
    exists e. split; [done|]. unfold runs. rewrite En, Ee. destruct (decide (a' = a)) as [->|Hne].
    + destruct (Hcur i pr ms Hc H2 H5 H7 H8) as (Hp & ms' & Hms & Hsuf).
      exists rf, (f pr), ms'. split_and!; try done. simpl. by rewrite list_lookup_alter_eq, H2.
    + assert (~ current s i a) as Hn by (unfold current in *; simpl in Hc; congruence).
      destruct (Hold i Hn) as [-> ->]. exists rf, pr, ms. split_and!; try done. simpl. by rewrite list_lookup_alter_ne.
  - intros i Hi. unfold down. rewrite En. by apply sm_down0.
Qed.

Lemma sim_pc n s c ep tm qm i a p :
  sim n s c ep tm qm -> current s i a -> (i < length (pcs c))%nat ->
  sim n (put_proc a (set_p_pc p) s) (set_pc i p c) ep tm qm.
Proof.
  intros Hs Hc Hi. eapply sim_proc; try done.
  - intros i' pr ms Hc' Hpr Hp Hms Hsuf. assert (i' = i) as -> by (eapply current_inj; [apply Hs|done..]).
    split; [by apply list_lookup_insert_eq|]. by exists ms.
  - intros i' Hn. split; [|done]. simpl. rewrite list_lookup_insert_ne; [done|]. by intros ->.
Qed.

Lemma sim_out n s c ep tm qm i a m :
  sim n s c ep tm qm -> current s i a -> sim n (put_proc a (add_p_out m) s) (add_applied i m c) ep tm qm.
Proof.
  intros Hs Hc. eapply sim_proc; try done.
  - intros i' pr ms Hc' Hpr Hp Hms Hsuf. assert (i' = i) as -> by (eapply current_inj; [apply Hs|done..]).
    split; [done|]. exists (ms ++ [m]). simpl. rewrite list_lookup_alter_eq, Hms. split; [done|].
    destruct Hsuf as [k ->]. exists k. by rewrite app_assoc.
  - intros i' Hn. split; [done|]. simpl. rewrite list_lookup_alter_ne; [done|]. by intros ->.
Qed.

(** A change of a server that no longer runs *)
Lemma sim_proc_old n s c ep tm qm a f :
  sim n s c ep tm qm -> (forall i, ~ current s i a) ->
  (forall pr, p_server (f pr) = p_server pr /\ p_ends (f pr) = p_ends pr) ->
  sim n (put_proc a f s) c ep tm qm.
Proof. intros Hs Hn Hf. eapply sim_proc; try done. intros i pr ms Hc. by destruct (Hn i). Qed.

(** New goroutines *)
Lemma sim_go_cur n s c ep tm qm i a e gs :
  sim n s c ep tm qm -> current s i a -> ep !! a = Some e ->
  (forall g, g ∈ gs -> address g = Some a /\ waits_for g = None) ->
  exists tm', sim n (go gs s) (add_threads (thread_of i e <$> gs) c) ep tm' qm.
Proof.
  intros Hs Hc He. revert s c tm Hs Hc. induction gs as [|g gs IH]; intros s c tm Hs Hc Hgs.
  { exists tm. simpl. rewrite add_threads_nil. unfold go. rewrite app_nil_r. by destruct s. }
  assert (address g = Some a /\ waits_for g = None) as [Hga Hgw] by (apply Hgs; set_solver).
  assert (sim n (go [g] s) (add_threads [thread_of i e g] c) ep (<[length (s_threads s) := length (threads c)]> tm) qm) as Hs1.
  { destruct Hs. assert (same_view s (go [g] s)) as Hv by done.
    assert (forall x, (x < length (threads c))%nat -> (threads c ++ [thread_of i e g]) !! x = threads c !! x) as Hx
      by (intros; by apply lookup_app_l).
    constructor; try done; simpl.
    - intros k x [[<- <-]|[_ Hk]]%lookup_insert_Some; rewrite !length_app; simpl; [lia|].
      destruct (sm_tm0 _ _ Hk). lia.
    - intros k k' x [[<- <-]|[Hne Hk]]%lookup_insert_Some [[<- Hx']|[Hne' Hk']]%lookup_insert_Some; try done.
      + destruct (sm_tm0 _ _ Hk'). lia.
      + subst x. destruct (sm_tm0 _ _ Hk). lia.
      + by eapply sm_tm_inj0.
    - intros q x Hq. rewrite length_app. simpl. destruct (sm_qm0 _ _ Hq). lia.
    - intros k g' a' i' Hk Ha' Hc'. apply lookup_snoc_Some in Hk as [[Hlt Hk]|[-> <-]].
      + destruct (sm_thr0 k g' a' i' Hk Ha' Hc') as (x & e' & Hkx & He' & Hr). exists x, e'.
        rewrite lookup_insert_ne by lia. split_and!; [done|done|]. eapply thr_frame; [done| |done].
        apply Hx. by apply (sm_tm0 _ _ Hkx).
      + assert (a' = a) as -> by congruence. assert (i' = i) as -> by (by eapply current_inj).
        exists (length (threads c)), e. rewrite lookup_insert_eq. split_and!; [done|done|]. unfold thr_rel. rewrite Hgw.
        simpl. rewrite lookup_app_r, Nat.sub_diag by lia. split; [done|]. intros q Hq. destruct (sm_qm0 _ _ Hq). lia.
    - intros q r Hq. destruct (sm_req0 q r Hq) as (a0 & i0 & names0 & j0 & e0 & Hr). exists a0, i0, names0, j0, e0.
      eapply req_frame; [done| |done]. intros x Hqx. apply Hx. by apply (sm_qm0 _ _ Hqx). }
  destruct (IH _ _ _ Hs1) as [tm' Hs2]; [done|intros; apply Hgs; set_solver|].
  exists tm'. unfold go, add_threads in *. simpl in *. by rewrite <- !app_assoc in Hs2.
Qed.

Lemma sim_go_old n s c ep tm qm gs :
  sim n s c ep tm qm -> (forall g a i, g ∈ gs -> address g = Some a -> ~ current s i a) -> sim n (go gs s) c ep tm qm.
Proof.
  intros [] Hgs. assert (same_view s (go gs s)) as Hv by done. constructor; try done; simpl.
  - intros k x Hk. destruct (sm_tm0 _ _ Hk). rewrite length_app. split; [lia|done].
  - intros k g a i [Hk|[_ Hk]]%lookup_app_Some Ha Hc; [by eapply sm_thr0|].
    exfalso. eapply Hgs; [by eapply list_elem_of_lookup_2|done|done].
  - by apply (req_same s _ c _ qm Hv).
Qed.

(** A goroutine that goes on by itself *)
Lemma sim_thread_cur n s c ep tm qm k g g' x i a e :
  sim n s c ep tm qm -> s_threads s !! k = Some g -> address g = Some a -> waits_for g = None -> current s i a ->
  tm !! k = Some x -> ep !! a = Some e -> (address g' = Some a \/ g' = GDone) -> waits_for g' = None ->
  sim n (put_thread k g' s) (set_thread x (thread_of i e g') c) ep tm qm.
Proof.
  intros [] Hk Ha Hw Hc Hx He Ha' Hw'. assert (same_view s (put_thread k g' s)) as Hv by done.
  destruct (sm_thr0 k g a i Hk Ha Hc) as (x0 & e0 & Hx0 & _ & Hrel). rewrite Hx in Hx0. injection Hx0 as <-.
  unfold thr_rel in Hrel. rewrite Hw in Hrel. destruct Hrel as [HT Hq].
  constructor; try done; simpl; rewrite ?length_insert; try done.
  - intros k2 g2 a2 i2 Hk2 Ha2 Hc2. apply list_lookup_insert_Some in Hk2 as [(<- & <- & _)|[Hne Hk2]].
    + destruct Ha' as [Ha'| ->]; [|done]. assert (a2 = a) as -> by congruence.
      assert (i2 = i) as -> by (by eapply current_inj). exists x, e. split_and!; [done|done|].
      unfold thr_rel. rewrite Hw'. simpl. split; [|done]. apply list_lookup_insert_eq. by apply (sm_tm0 _ _ Hx).
    + destruct (sm_thr0 k2 g2 a2 i2 Hk2 Ha2 Hc2) as (x2 & e2 & Hx2 & He2 & Hr2). exists x2, e2. split_and!; [done|done|].
      eapply thr_frame; [done| |done]. simpl. apply list_lookup_insert_ne. intros <-. by destruct Hne; eapply sm_tm_inj0.
  - intros q r Hr. destruct (sm_req0 q r Hr) as (a1 & i1 & names1 & j1 & e1 & Hrel). exists a1, i1, names1, j1, e1.
    eapply req_frame; [done| |done]. intros x' Hx'. simpl. apply list_lookup_insert_ne. intros <-. by destruct (Hq q).
Qed.

Lemma sim_thread_old n s c ep tm qm k g g' a :
  sim n s c ep tm qm -> s_threads s !! k = Some g -> (forall i, ~ current s i a) -> (address g' = Some a \/ g' = GDone) ->
  sim n (put_thread k g' s) c ep tm qm.
Proof.
  intros [] Hk Hn Ha'. assert (same_view s (put_thread k g' s)) as Hv by done.
  constructor; try done; simpl; rewrite ?length_insert; try done.
  - intros k2 g2 a2 i2 Hk2 Ha2 Hc2. apply list_lookup_insert_Some in Hk2 as [(<- & <- & _)|[Hne Hk2]]; [|by eapply sm_thr0].
    destruct Ha' as [Ha'| ->]; [|done]. assert (a2 = a) as -> by congruence. by destruct (Hn i2).
  - by apply (req_same s _ c _ qm Hv).
Qed.

(** ** The loops and goroutines of the running servers *)

(** The message a step of the cluster applies *)
Definition tells (c : Cluster) (l : label) : option (nat * ApplyMsg Cmd) :=
  match l with
  | LThread k _ =>
      match threads c !! k with
      | Some (TApply i ep (e :: _)) => if alive c i ep then Some (i, apply_msg e) else None
      | _ => None
      end
  | _ => None
  end.

Definition with_told (o : option (nat * ApplyMsg Cmd)) (ap : list (list (ApplyMsg Cmd))) : list (list (ApplyMsg Cmd)) :=
  match o with Some (i, m) => alter (fun ms => ms ++ [m]) i ap | None => ap end.

Lemma step_applied (c : Cluster) l c' : step c l = Val c' -> applied c' = with_told (tells c l) (applied c).
Proof.
  destruct l as [i now|k now|i command|i|i now rnd]; simpl; intros Hst.
  - unfold run_step, spawn_apply in Hst. repeat (inv_res; case_match; simplify_eq/=); inv_res; simplify_eq/=; try done.
  - destruct (threads c !! k) as [t|]; [|by injection Hst as <-].
    destruct t as [i ep j t0 [|args|args reply]|i ep j [|args|args reply]|i ep term command|i ep [|e es]|i ep index es|]; simpl in Hst;
      unfold spawn_apply in Hst; repeat (inv_res; case_match; simplify_eq/=); inv_res; simplify_eq/=; try done; by destruct o.
  - repeat (inv_res; case_match; simplify_eq/=); inv_res; by simplify_eq/=.
  - repeat (inv_res; case_match; simplify_eq/=); inv_res; by simplify_eq/=.
  - repeat (inv_res; case_match; simplify_eq/=); inv_res; by simplify_eq/=.
Qed.

(** The cluster makes the step, or none; a well-timed step is disciplined; what a running server hands over is
    what the cluster applies. *)
Definition follows (s : Sys) (l : slabel) (c c' : Cluster) : Prop :=
  (c' = c /\ emits s l = None) \/
  exists l', step c l' = Val c' /\ (well_timed s l -> RaftMachine.disciplined c l' = true) /\ tells c l' = emits s l.

Lemma follows_applied (s : Sys) l (c c' : Cluster) : follows s l c c' -> applied c' = with_told (emits s l) (applied c).
Proof. intros [[-> ->]|(l' & Hst & _ & <-)]; [done|by apply step_applied]. Qed.

(** What the goroutine of a running server emits *)
Lemma emits_current n s c ep tm qm k g a i now :
  sim n s c ep tm qm -> s_threads s !! k = Some g -> address g = Some a -> current s i a ->
  emits s (SThread k now) = match g with GApply _ (e :: _) => Some (i, apply_msg e) | _ => None end.
Proof.
  intros Hs Hk Ha Hc. simpl. rewrite Hk. destruct g as [| | |a' [|e es]| |]; try done. injection Ha as ->.
  destruct (list_find_elem_of (fun o => o = Some a) (rafts (s_cfg s)) (Some a)) as [[i' o] Hf]; [by eapply list_elem_of_lookup_2|done|].
  rewrite Hf. simpl. apply list_find_Some in Hf as (Hi' & -> & _). f_equal. f_equal. by eapply current_inj; [apply Hs|..].
Qed.

Lemma emits_old (s : Sys) k g a now :
  s_threads s !! k = Some g -> address g = Some a -> (forall i, ~ current s i a) -> emits s (SThread k now) = None.
Proof.
  intros Hk Ha Hn. simpl. rewrite Hk. destruct g as [| | |a' [|e es]| |]; try done. injection Ha as ->.
  destruct (list_find _ _) as [[i o]|] eqn:Hf; [|done]. apply list_find_Some in Hf as (Hi & -> & _). by destruct (Hn i).
Qed.

Lemma disciplined_run i rf p (c : Cluster) now :
  nodes c !! i = Some rf -> pcs c !! i = Some p ->
  RaftMachine.disciplined c (LRun i now) = RaftMachine.disciplined (probe i rf p []) (LRun i now).
Proof.
  intros Hn Hp. assert ((replicate (S i) rf) !! i = Some rf) as H1 by (apply lookup_replicate; split; [done|lia]).
  assert ((replicate (S i) p) !! i = Some p) as H2 by (apply lookup_replicate; split; [done|lia]).
  unfold RaftMachine.disciplined, RaftMachine.prompt, RaftLogs.orderly, RaftElection.timely, probe.
  cbn [nodes pcs threads]. by rewrite Hn, Hp, H1, H2.
Qed.

Lemma disciplined_thread i e rf (c : Cluster) x (g : gthread) p now :
  nodes c !! i = Some rf -> threads c !! x = Some (thread_of i e g) -> address g <> None ->
  RaftMachine.disciplined c (LThread x now) = RaftMachine.disciplined (probe i rf p [thread_of i 0 g]) (LThread 0 now).
Proof.
  intros Hn Hx Hg. assert ((replicate (S i) rf) !! i = Some rf) as H1 by (apply lookup_replicate; split; [done|lia]).
  unfold RaftMachine.disciplined, RaftMachine.prompt, RaftLogs.orderly, RaftElection.timely, RaftElection.term_of, probe.
  cbn [nodes pcs threads]. rewrite Hx. cbn [lookup list_lookup].
  destruct g as [a j t st|a j st| | | |]; try done; simpl thread_of; cbn iota beta; rewrite ?Hn, ?H1; done.
Qed.

Lemma sim_nodes n s c ep tm qm i a :
  cluster_ok n c -> sim n s c ep tm qm -> current s i a ->
  exists e rf pr, ep !! a = Some e /\ node_at s a = Some rf /\ s_procs s !! a = Some pr /\ nodes c !! i = Some rf /\
    pcs c !! i = Some (p_pc pr) /\ epochs c !! i = Some e /\ me rf = Z.of_nat i /\ (i < length (pcs c))%nat /\ alive c i e = true.
Proof.
  intros Hok Hs Hc. destruct (sm_up _ _ _ _ _ _ Hs i a Hc) as (e & He & rf & pr & ms & H1 & H2 & _ & H3 & H4 & H5 & _).
  exists e, rf, pr. split_and!; try done; [apply (co_node _ _ Hok _ _ H3)|by eapply lookup_lt_Some|].
  by apply bool_decide_eq_true.
Qed.

Lemma node_at_proc n s c ep tm qm a rf : sim n s c ep tm qm -> node_at s a = Some rf -> is_Some (s_procs s !! a).
Proof.
  intros Hs (ins & Ha & _)%persister_node. apply lookup_lt_is_Some_2. apply lookup_lt_Some in Ha.
  pose proof (bk_ends_len _ _ (sm_books _ _ _ _ _ _ Hs)) as E. unfold ends_of in E. rewrite length_fmap in E. by rewrite E.
Qed.

(** What a loop starts belongs to its server. *)
Lemma run_turn_go a (rf : Raft) p now rf' p' gs :
  run_turn a rf p now = Val (rf', p', gs) -> forall g, g ∈ gs -> address g = Some a /\ waits_for g = None.
Proof.
  unfold run_turn. intros Ht. destruct p; simpl in Ht;
    repeat (inv_res; case_match; simplify_eq/=); inv_res; simplify_eq/=; try set_solver.
  intros g Hg. destruct o; simpl in Hg; set_solver.
Qed.

Lemma run_sim n s c ep tm qm a now s' :
  cluster_ok n c -> sim n s c ep tm qm -> sstep s (SRun a now) = Val s' ->
  exists c' tm', follows s (SRun a now) c c' /\ sim n s' c' ep tm' qm.
Proof.
  intros Hok Hs. simpl. destruct (node_at s a) as [rf|] eqn:Hrf; [|intros [= <-]; exists c, tm; split; [by left|done]].
  destruct (node_at_proc _ _ _ _ _ _ _ _ Hs Hrf) as [pr Hpr]. rewrite Hpr.
  intros ([[rf' p'] gs] & Ht & [= <-])%bind_val. pose proof (run_turn_keeps _ _ _ _ _ _ _ Ht) as Hk.
  pose proof (run_turn_go _ _ _ _ _ _ _ Ht) as Hgs.
  destruct (runs_or_not s a) as [[i Hc]|Hn].
  - destruct (sim_nodes n s c ep tm qm i a Hok Hs Hc) as (e & rf0 & pr0 & He & Hrf0 & Hpr0 & Hni & Hpi & Hei & Hme & Hlt & _).
    rewrite Hrf in Hrf0. injection Hrf0 as <-. rewrite Hpr in Hpr0. injection Hpr0 as <-.
    pose proof (sim_put_cur _ _ _ _ _ _ _ _ _ _ Hs Hc Hrf Hk) as Hs1.
    pose proof (sim_pc _ _ _ _ _ _ i a p' Hs1 Hc Hlt) as Hs2.
    destruct (sim_go_cur _ _ _ _ _ _ i a e gs Hs2 Hc He Hgs) as [tm' Hs3].
    eexists _, tm'. split; [|exact Hs3]. right. exists (LRun i now). split.
    + simpl. rewrite Hni, Hpi, Hei. by eapply run_turn_step.
    + split; [|done]. intros Hwt. rewrite (disciplined_run i rf (p_pc pr)) by done. by apply (Hwt i rf pr).
  - exists c, tm. split; [by left|]. apply sim_go_old; [|intros g a' i Hg Ha; destruct (Hgs g Hg) as [Ha' _]; rewrite Ha in Ha'; injection Ha' as ->; by apply Hn].
    apply sim_proc_old; [by eapply sim_put_old|done|done].
Qed.

(** What a section of a goroutine does besides moving on *)
Inductive effect := Quiet | Writes (rf : Raft) | Sends (m : ApplyMsg Cmd).

Definition on_sys (a : nat) (ef : effect) (s : Sys) : Sys :=
  match ef with Quiet => s | Writes rf => put_node a rf s | Sends m => put_proc a (add_p_out m) s end.
Definition on_cluster (i : nat) (ef : effect) (c : Cluster) : Cluster :=
  match ef with Quiet => c | Writes rf => set_node i rf c | Sends m => add_applied i m c end.
Definition keeps_at (s : Sys) (a : nat) (ef : effect) : Prop :=
  match ef with Writes rf' => exists rf, node_at s a = Some rf /\ keeps rf rf' | _ => True end.

Lemma sim_effect_cur n s c ep tm qm i a ef :
  sim n s c ep tm qm -> current s i a -> keeps_at s a ef -> sim n (on_sys a ef s) (on_cluster i ef c) ep tm qm.
Proof.
  intros Hs Hc. destruct ef as [|rf'|m]; simpl; [done| |by intros; apply sim_out].
  intros (rf & Hrf & Hk). by eapply sim_put_cur.
Qed.

Lemma sim_effect_old n s c ep tm qm a ef :
  sim n s c ep tm qm -> (forall i, ~ current s i a) -> keeps_at s a ef -> sim n (on_sys a ef s) c ep tm qm.
Proof.
  intros Hs Hn. destruct ef as [|rf'|m]; simpl; [done| |by intros; apply sim_proc_old].
  intros (rf & Hrf & Hk). by eapply sim_put_old.
Qed.

Lemma thread_turn_shape (s : Sys) k g now s' :
  thread_turn s k g now = Val s' ->
  (s' = s /\ forall a e es, g <> GApply a (e :: es)) \/ exists a g' ef, address g = Some a /\ waits_for g = None /\ (address g' = Some a \/ g' = GDone) /\
    waits_for g' = None /\ keeps_at s a ef /\ s' = put_thread k g' (on_sys a ef s) /\
    forall c i e x rf, nodes c !! i = Some rf -> node_at s a = Some rf -> alive c i e = true ->
      thread_step c x (thread_of i e g) now = Val (set_thread x (thread_of i e g') (on_cluster i ef c)).
Proof.
  destruct g as [a j t [|args|args q|args reply]|a j [|args|args q|args reply]|a term command|a [|en rest]|a index es|]; simpl;
    try (by intros [= <-]; left; split; [|intros ???]); intros Ht; right; exists a;
    try (apply bind_val in Ht as (rf & Hrf%of_option_val & Ht)).
  - apply bind_val in Ht as (args & Ha & [= <-]). exists (GVote a j t (CReady args)), Quiet. split_and!; try done; [by left|].
    intros c i e x rf' Hn Hrf' ->. rewrite Hn. simplify_eq. by rewrite Ha.
  - injection Ht as <-. exists GDone, (Writes (vote_reply rf reply)). split_and!; try done; [by right| |].
    + exists rf. split; [done|]. apply vote_reply_keeps.
    + intros c i e x rf' Hn Hrf' ->. rewrite Hn. by simplify_eq.
  - apply bind_val in Ht as (o & Ha & [= <-]).
    exists (match o with Some args => GBeat a j (CReady args) | None => GDone end), Quiet.
    split_and!; try done; [destruct o; auto|by destruct o|].
    intros c i e x rf' Hn Hrf' ->. rewrite Hn. simplify_eq. rewrite Ha. by destruct o.
  - apply bind_val in Ht as (rf1 & Ha & [= <-]). exists GDone, (Writes rf1). split_and!; try done; [by right| |].
    + exists rf. split; [done|]. by eapply heartbeat_reply_keeps.
    + intros c i e x rf' Hn Hrf' ->. rewrite Hn. simplify_eq. by rewrite Ha.
  - apply bind_val in Ht as ([rf1 idx] & Ha & [= <-]). exists GDone, (Writes rf1). split_and!; try done; [by right| |].
    + exists rf. split; [done|]. by eapply Start_append_keeps.
    + intros c i e x rf' Hn Hrf' ->. rewrite Hn. simplify_eq. by rewrite Ha.
  - injection Ht as <-. exists GDone, Quiet. split_and!; try done; [by right|]. by intros c i e x rf' Hn Hrf' ->.
  - injection Ht as <-. exists (GAck a (CommandIndex (apply_msg en)) rest), (Sends (apply_msg en)).
    split_and!; try done; [by left|]. by intros c i e x rf' Hn Hrf' ->.
  - injection Ht as <-. exists (GApply a es), (Writes (apply_ack rf index)). split_and!; try done; [by left| |].
    + exists rf. split; [done|]. apply apply_ack_keeps.
    + intros c i e x rf' Hn Hrf' ->. rewrite Hn. by simplify_eq.
Qed.

Lemma on_sys_threads a ef (s : Sys) : s_threads (on_sys a ef s) = s_threads s.
Proof. by destruct ef. Qed.

Lemma thread_sim n s c ep tm qm k now s' :
  cluster_ok n c -> sim n s c ep tm qm -> sstep s (SThread k now) = Val s' ->
  exists c', follows s (SThread k now) c c' /\ sim n s' c' ep tm qm.
Proof.
  intros Hok Hs. cbn [sstep]. destruct (s_threads s !! k) as [g|] eqn:Hk; [|intros [= <-]; exists c; split; [left; split; [done|simpl; by rewrite Hk]|done]].
  intros [[-> Hem]|(a & g' & ef & Ha & Hw & Ha' & Hw' & Hkp & -> & Hstep)]%thread_turn_shape; [exists c; split; [left; split; [done|simpl; rewrite Hk; destruct g as [| | |a [|en es]| |]; try done; by destruct (Hem a en es)]|done]|].
  destruct (runs_or_not s a) as [[i Hc]|Hn].
  - destruct (sim_nodes n s c ep tm qm i a Hok Hs Hc) as (e & rf & pr & He & Hrf & _ & Hni & _ & _ & _ & _ & Hal).
    destruct (sm_thr _ _ _ _ _ _ Hs k g a i Hk Ha Hc) as (x & e0 & Hx & He0 & Hr). rewrite He in He0. injection He0 as <-.
    unfold thr_rel in Hr. rewrite Hw in Hr. destruct Hr as [HT _].
    eexists. split; [right; exists (LThread x now); split; [simpl; rewrite HT; by eapply Hstep|split]|].
    + intros Hwt. rewrite (disciplined_thread i e rf c x g PTop) by (done || congruence). by apply (Hwt i a rf g).
    + rewrite (emits_current _ _ _ _ _ _ _ _ _ _ _ Hs Hk Ha Hc). simpl. rewrite HT. destruct g as [| | |? [|en es]| |]; try done. simpl. by rewrite Hal.
    + pose proof (sim_effect_cur _ _ _ _ _ _ i a ef Hs Hc Hkp) as Hs1.
      eapply sim_thread_cur; try done; [by rewrite on_sys_threads|by destruct ef].
  - exists c. split; [left; split; [done|by eapply emits_old]|]. pose proof (sim_effect_old _ _ _ _ _ _ a ef Hs Hn Hkp) as Hs1.
    eapply (sim_thread_old _ _ _ _ _ _ k g g' a); try done; [by rewrite on_sys_threads|by destruct ef].
Qed.

End Sim.
End RaftNetSim.
