(* ===== verification/RaftNetCalls.v ===== *)
(** * Calls between servers

    The steps of the network in the simulation of RaftNetSim.v: a call, the work of the network on its request, the
    execution of its handler, and its return.  Only the execution is a step of the cluster, and only when
    the server that executes it still runs: what a crashed server would answer never arrives. *)

From stdpp Require Import base list gmap strings.
From Stdlib Require Import ZArith Lia Strings.Byte.
From S2P Require Import Prelude RaftNode RaftInv RaftCluster RaftClusterInv RaftElection RaftLogs RaftMachine.
From S2P Require Import Labrpc TestRand RaftTester RaftNet RaftNetSim.
Import RaftNode RaftInv RaftCluster RaftClusterInv RaftNet RaftNetSim.

Open Scope Z_scope.

Module RaftNetCalls.

Section Calls.
Context {Cmd : Type} `{!EqDecision Cmd, !Codec Cmd, !RpcCodec Cmd}.
Notation Raft := (Raft Cmd).
Notation Entry := (Entry Cmd).
Notation Cluster := (@Cluster Cmd).
Notation thread := (@thread Cmd).
Notation Sys := (@Sys Cmd).
Notation gthread := (@gthread Cmd).
Notation slabel := (@slabel Cmd).
Notation config := (RaftTester.config (Cmd := Cmd) (App := @Host Cmd)).

(** ** Steps that change neither the servers nor the books *)

(** The system with other requests, and a network of the same wiring *)
Record same_servers (s s' : Sys) : Prop := {
  ss_books : same_books (s_cfg s) (s_cfg s');
  ss_heap : heap_of (s_cfg s') = heap_of (s_cfg s);
  ss_procs : s_procs s' = s_procs s }.

Lemma same_servers_near s s' : same_servers s s' -> near s s'.
Proof. intros [[] _ Hp]. constructor; [unfold ends_of; by rewrite Hp|done]. Qed.

Lemma sim_core n s s' (c c' : Cluster) ep tm qm tm' qm' :
  sim n s c ep tm qm -> same_servers s s' ->
  nodes c' = nodes c -> pcs c' = pcs c -> epochs c' = epochs c -> applied c' = applied c ->
  (forall k x, tm' !! k = Some x -> (k < length (s_threads s'))%nat /\ (x < length (threads c'))%nat) ->
  (forall k k' x, tm' !! k = Some x -> tm' !! k' = Some x -> k = k') ->
  (forall q x, qm' !! q = Some x -> (q < length (s_reqs s'))%nat /\ (x < length (threads c'))%nat) ->
  (forall q q' x, qm' !! q = Some x -> qm' !! q' = Some x -> q = q') ->
  (forall k g a i, s_threads s' !! k = Some g -> address g = Some a -> current s i a ->
    exists x e, tm' !! k = Some x /\ ep !! a = Some e /\ thr_rel s' c' qm' x i e a g) ->
  (forall q r, s_reqs s' !! q = Some r -> exists a i names j e, req_rel s' c' qm' q r a i names j e) ->
  sim n s' c' ep tm' qm'.
Proof.
  intros [] Hss En Ep Ee Ea H1 H2 H3 H4 H5 H6. pose proof (same_servers_near _ _ Hss) as Hv.
  destruct Hss as [Hb Hh Hp].
  constructor; rewrite ?(nr_ends _ _ Hv), ?Hp; try done.
  - by eapply same_books_ok.
  - pose proof (sb_wiring _ _ Hb) as Hw. injection Hw as Hn _ _ _ _ _. by rewrite Hn.
  - intros i a. rewrite (current_near s s') by done. intros Hc. destruct (sm_up0 i a Hc) as (e & He & Hr). exists e. split; [done|].
    unfold runs, node_at in *. by rewrite Hh, Hp, En, Ep, Ee, Ea.
  - intros i. rewrite (nr_rafts _ _ Hv). intros Hi. destruct (sm_down0 i Hi) as (rf & p & Hd). exists rf, p.
    rewrite En, (sb_saved _ _ Hb). replace (persisters (s_cfg s')) with (heap_of (s_cfg s')).2 by done. by rewrite Hh.
  - intros k g a i Hk Ha. rewrite (current_near s s') by done. by apply H5.
Qed.

Lemma sim_servers n s s' c ep tm qm :
  sim n s c ep tm qm -> same_servers s s' -> s_threads s' = s_threads s -> s_reqs s' = s_reqs s -> sim n s' c ep tm qm.
Proof.
  intros [] Hss Ht Hr. assert (same_view s s') as Hv by (pose proof (same_servers_near _ _ Hss) as []; by constructor).
  eapply (sim_core n s s' c c ep tm qm); try done; rewrite ?Ht, ?Hr; try done.
  - intros k g a i Hk Ha Hc. destruct (sm_thr0 k g a i Hk Ha Hc) as (x & e & Hx & He & Hrel). exists x, e.
    split_and!; [done|done|]. by eapply thr_frame.
  - rewrite <- Hr. by apply (req_same s _ c _ qm Hv).
Qed.

(** ** A goroutine calls *)

(** What a goroutine that is about to call asks for, and the goroutine when it waits *)
Definition calls (g : gthread) : option (nat * nat * string * list byte * (nat -> gthread)) :=
  match g with
  | GVote a j t (CReady args) => Some (a, j, "Raft.RequestVote"%string, enc_rva args, fun q => GVote a j t (CWait args q))
  | GBeat a j (CReady args) => Some (a, j, "Raft.AppendEntries"%string, enc_aea args, fun q => GBeat a j (CWait args q))
  | _ => None
  end.

Lemma call_turn_calls (s : Sys) k g sent :
  call_turn s k g sent =
    match calls g with
    | Some (a, j, m, b, w) => s' ← send s a j m b sent; mret (put_thread k (w (length (s_reqs s))) s')
    | None => mret s
    end.
Proof. by destruct g as [? ? ? []|? ? []| | | |]. Qed.

Lemma calls_spec g a j m b w q : calls g = Some (a, j, m, b, w) ->
  address g = Some a /\ waits_for g = None /\ address (w q) = Some a /\ waits_for (w q) = Some q /\
  (forall i e, thread_of i e (w q) = thread_of i e g) /\
  forall i e r, Labrpc.rq_meth r = m -> Labrpc.rq_args r = b -> request_of r j (Some (thread_of i e g)).
Proof.
  destruct g as [a0 j0 t [|args|args q0|args reply]|a0 j0 [|args|args q0|args reply]| | | |]; try done; intros [= -> -> <- <- <-];
    (split_and!; [done..|]); intros i e r Hm Hb; [left; by exists i, e, t, args|right; by exists i, e, args].
Qed.

Lemma send_spec (s : Sys) a j m b sent s1 :
  send s a j m b sent = Val s1 -> exists pr e r, s_procs s !! a = Some pr /\ p_ends pr !! j = Some e /\
    same_servers s s1 /\ s_threads s1 = s_threads s /\ s_reqs s1 = s_reqs s ++ [r] /\
    Labrpc.rq_end r = Labrpc.IStr e /\ Labrpc.rq_meth r = m /\ Labrpc.rq_args r = b /\ Labrpc.rq_handler r = Labrpc.HNone /\
    Labrpc.rq_execs r = 0%nat /\ (Labrpc.rq_stage r = Labrpc.RNew \/ Labrpc.rq_stage r = Labrpc.RDone false []).
Proof.
  unfold send. intros (pr & Hpr%of_option_val & (e & He%of_option_val & Hn)%bind_val)%bind_val.
  exists pr, e. unfold net_turn in Hn. apply bind_val in Hn as (ns & Hns & Ho). simpl in Hns.
  destruct (Labrpc.closed _ && negb sent); injection Hns as <-; unfold of_net in Ho; simpl in Ho; injection Ho as <-;
    eexists; (split_and!; [done|done| | |done|..]); try done; try (simpl; by rewrite app_nil_r); auto; by constructor.
Qed.

Lemma caller_ends (s : Sys) a pr : s_procs s !! a = Some pr -> ends_of s !! a = Some (p_server pr, p_ends pr).
Proof. intros Hp. unfold ends_of. by rewrite list_lookup_fmap, Hp. Qed.

(** The new request of the caller at [a] *)
Lemma new_request s s' (c : Cluster) qm q r a pr j e :
  near s s' -> s_procs s !! a = Some pr -> p_ends pr !! j = Some e -> Labrpc.rq_end r = Labrpc.IStr e ->
  Labrpc.rq_handler r = Labrpc.HNone -> Labrpc.rq_execs r = 0%nat ->
  (Labrpc.rq_stage r = Labrpc.RNew \/ Labrpc.rq_stage r = Labrpc.RDone false []) ->
  ((exists i, current s i a) -> exists x, qm !! q = Some x /\ request_of r j (threads c !! x)) ->
  req_rel s' c qm q r a (p_server pr) (p_ends pr) j e.
Proof.
  intros Hv Hpr He Hend Hh Hex Hst Hq. constructor; [rewrite (nr_ends _ _ Hv); by apply caller_ends|done|done| |].
  - constructor.
    + unfold Labrpc.req_ok. rewrite Hh. split; [done|]. by destruct Hst as [-> | ->].
    + intros inf Hinf. by destruct Hst as [Hst|Hst]; rewrite Hst in Hinf.
    + rewrite Hh. done.
  - rewrite (may_run_near s s') by done. unfold may_run. rewrite Hh. destruct Hst as [-> | ->]; [done|done].
Qed.

(** The request that a goroutine makes is appended, and the goroutine waits for it. *)
Record asks (s s' : Sys) (k : nat) (g' : gthread) (a j : nat) (r : Labrpc.request) : Prop := {
  as_servers : same_servers s s';
  as_reqs : s_reqs s' = s_reqs s ++ [r];
  as_threads : s_threads s' = <[k := g']> (s_threads s);
  as_address : address g' = Some a;
  as_waits : waits_for g' = Some (length (s_reqs s));
  as_handler : Labrpc.rq_handler r = Labrpc.HNone;
  as_new : forall (c : Cluster) qm, ((exists i, current s i a) -> exists x, qm !! length (s_reqs s) = Some x /\ request_of r j (threads c !! x)) ->
    exists i names e, req_rel s' c qm (length (s_reqs s)) r a i names j e }.

Lemma asks_old s s' k g' a j r q r0 :
  asks s s' k g' a j r -> s_reqs s !! q = Some r0 -> q <> length (s_reqs s) /\ s_reqs s' !! q = Some r0.
Proof.
  intros Hk Hq. rewrite (as_reqs _ _ _ _ _ _ _ Hk). split; [|by apply lookup_app_l_Some]. apply lookup_lt_Some in Hq. lia.
Qed.

Lemma asks_reqs s s' k g' a j r (c : Cluster) qm qm' :
  asks s s' k g' a j r -> (forall q, q <> length (s_reqs s) -> qm' !! q = qm !! q) ->
  ((exists i, current s i a) -> exists x, qm' !! length (s_reqs s) = Some x /\ request_of r j (threads c !! x)) ->
  (forall q r, s_reqs s !! q = Some r -> exists a i names j e, req_rel s c qm q r a i names j e) ->
  forall q r, s_reqs s' !! q = Some r -> exists a i names j e, req_rel s' c qm' q r a i names j e.
Proof.
  intros Hk Hqm Hnew Hrq q r2. rewrite (as_reqs _ _ _ _ _ _ _ Hk). intros [Hq|[Hge Hq]]%lookup_app_Some.
  - destruct (Hrq q r2 Hq) as (a1 & i1 & n1 & j1 & e1 & Hr2). exists a1, i1, n1, j1, e1.
    destruct (asks_old _ _ _ _ _ _ _ _ _ Hk Hq) as [Hne _].
    eapply req_near; [eapply same_servers_near, Hk| |done]. intros _ x2 Hx2. by rewrite Hqm.
  - apply list_lookup_singleton_Some in Hq as [Hq0 <-]. assert (q = length (s_reqs s)) as -> by lia.
    destruct (as_new _ _ _ _ _ _ _ Hk c qm' Hnew) as (i & names & e & Hr). by exists a, i, names, j, e.
Qed.

Lemma asks_cur n s s' c ep tm qm k g g' a i j r :
  sim n s c ep tm qm -> asks s s' k g' a j r -> s_threads s !! k = Some g -> address g = Some a -> waits_for g = None ->
  current s i a -> (forall e, thread_of i e g' = thread_of i e g) -> (forall e, request_of r j (Some (thread_of i e g))) ->
  exists qm', sim n s' c ep tm qm'.
Proof.
  intros Hs Hk Hg Ha Hw Hc HT Hreq. destruct (sm_thr _ _ _ _ _ _ Hs k g a i Hg Ha Hc) as (x & ei & Hx & Hei & Hrel).
  unfold thr_rel in Hrel. rewrite Hw in Hrel. destruct Hrel as [HTx Hno]. destruct Hs. pose proof Hk as [].
  exists (<[length (s_reqs s) := x]> qm).
  eapply (sim_core n s s' c c ep tm qm); try done; rewrite ?as_reqs0, ?as_threads0, ?length_insert, ?length_app; simpl.
  - done.
  - intros q x' [[<- <-]|[_ Hq]]%lookup_insert_Some; [split; [lia|by apply (sm_tm0 _ _ Hx)]|].
    destruct (sm_qm0 _ _ Hq). lia.
  - intros q q' x' [[<- <-]|[Hne Hq]]%lookup_insert_Some [[<- Hx']|[Hne' Hq']]%lookup_insert_Some; try done.
    + by destruct (Hno q').
    + subst x'. by destruct (Hno q).
    + by eapply sm_qm_inj0.
  - intros k2 g2 a2 i2 Hk2 Ha2 Hc2. apply list_lookup_insert_Some in Hk2 as [(<- & <- & _)|[Hne Hk2]].
    + assert (a2 = a) as -> by congruence. assert (i2 = i) as -> by (by eapply current_inj).
      exists x, ei. split_and!; [done|done|]. unfold thr_rel. rewrite as_waits0. exists r. rewrite lookup_insert_eq, as_reqs0, as_handler0.
      split_and!; [by apply list_lookup_middle|done|]. intros _. by rewrite HT.
    + destruct (sm_thr0 k2 g2 a2 i2 Hk2 Ha2 Hc2) as (x2 & e2 & Hx2 & He2 & Hr2). exists x2, e2. split_and!; [done|done|].
      assert (x2 <> x) as Hxne by (intros ->; by destruct Hne; eapply sm_tm_inj0).
      eapply thr_near; [by apply same_servers_near|done| | |done].
      * intros q [[_ <-]|[_ Hq]]%lookup_insert_Some; done.
      * intros q r2 _ Hq Hrq2. destruct (asks_old _ _ _ _ _ _ _ _ _ Hk Hrq2). split; [done|]. by rewrite lookup_insert_ne.
  - rewrite <- as_reqs0. eapply asks_reqs; [done| |intros _; exists x|done].
    + intros q Hq. by rewrite lookup_insert_ne.
    + rewrite lookup_insert_eq, HTx. split; [done|]. apply Hreq.
Qed.

Lemma asks_gone n s s' c ep tm qm k g' a j r :
  sim n s c ep tm qm -> asks s s' k g' a j r -> (forall i, ~ current s i a) -> sim n s' c ep tm qm.
Proof.
  intros [] Hk Hn. pose proof Hk as [].
  eapply (sim_core n s s' c c ep tm qm); try done; rewrite ?as_reqs0, ?as_threads0, ?length_insert, ?length_app; simpl.
  - done.
  - intros q x Hq. destruct (sm_qm0 _ _ Hq). lia.
  - intros k2 g2 a2 i2 Hk2 Ha2 Hc2. apply list_lookup_insert_Some in Hk2 as [(<- & <- & _)|[Hne Hk2]].
    + assert (a2 = a) as -> by congruence. by destruct (Hn i2).
    + destruct (sm_thr0 k2 g2 a2 i2 Hk2 Ha2 Hc2) as (x2 & e2 & Hx2 & He2 & Hr2). exists x2, e2. split_and!; [done|done|].
      eapply thr_near; [by apply same_servers_near|done|done| |done]. intros q r2 _ Hq Hrq2. by destruct (asks_old _ _ _ _ _ _ _ _ _ Hk Hrq2).
  - rewrite <- as_reqs0. eapply asks_reqs; [done|done| |done]. intros [i Hi]. by destruct (Hn i).
Qed.

Lemma call_sim n s c ep tm qm k sent s' :
  sim n s c ep tm qm -> sstep s (SCall k sent) = Val s' -> exists qm', sim n s' c ep tm qm'.
Proof.
  intros Hs. simpl. destruct (s_threads s !! k) as [g|] eqn:Hk; [|intros [= <-]; by exists qm].
  rewrite call_turn_calls. destruct (calls g) as [[[[[a j] m] b] w]|] eqn:Hg; [|intros [= <-]; by exists qm].
  intros (s1 & (pr & e & r & Hpr & He & Hss & Ht1 & Hr1 & Hend & Hm & Hb & Hh & Hex & Hst)%send_spec & [= <-])%bind_val.
  destruct (calls_spec _ _ _ _ _ _ (length (s_reqs s)) Hg) as (Ha & Hw & Ha' & Hw' & HT & Hreq).
  assert (asks s (put_thread k (w (length (s_reqs s))) s1) k (w (length (s_reqs s))) a j r) as Hasks.
  { constructor; try done; [by destruct Hss|simpl; by rewrite Ht1|].
    intros c' qm' Hq. exists (p_server pr), (p_ends pr), e. eapply (new_request s); try done.
    apply same_servers_near. by destruct Hss. }
  destruct (runs_or_not s a) as [[i Hc]|Hn]; [|exists qm; by eapply asks_gone].
  eapply asks_cur; try done. intros ei. by apply Hreq.
Qed.

(** ** A call returns *)

(** The goroutine when its call has returned [o] *)
Definition returned (g : gthread) (o : option (list byte)) : gthread :=
  match o, g with
  | Some b, GVote a j t (CWait args q) => GVote a j t (CGot args (dec_rvr b))
  | Some b, GBeat a j (CWait args q) => GBeat a j (CGot args (dec_aer b))
  | _, _ => GDone
  end.

Lemma return_turn_waits (s : Sys) k g :
  return_turn s k g = match waits_for g ≫= fun q => answer s q with Some o => put_thread k (returned g o) s | None => s end.
Proof. by destruct g as [? ? ? []|? ? []| | | |]; simpl; try done; destruct (answer s _) as [[b|]|]. Qed.

Lemma returned_spec g q b :
  waits_for g = Some q ->
  (address (returned g (Some b)) = address g) /\ waits_for (returned g (Some b)) = None /\
  (forall i e, thread_of i e (returned g (Some b)) = replied i e g b).
Proof. by destruct g as [? ? ? []|? ? []| | | |]. Qed.

Lemma answer_val (s : Sys) q o : answer s q = Some o -> exists r, s_reqs s !! q = Some r /\
  match o with Some b => Labrpc.rq_stage r = Labrpc.RDone true b | None => exists b, Labrpc.rq_stage r = Labrpc.RDone false b end.
Proof.
  unfold answer. destruct (s_reqs s !! q) as [r|]; simpl; [|done]. intros H. exists r. split; [done|].
  destruct (Labrpc.rq_stage r) as [| | | | | |[] b]; simplify_eq/=; eauto.
Qed.

(** A positive answer is the reply of the handler, and the cluster's goroutine has it. *)
Lemma positive_reply n s c ep tm qm x i e a g q b :
  sim n s c ep tm qm -> thr_rel s c qm x i e a g -> waits_for g = Some q -> answer s q = Some (Some b) ->
  qm !! q = Some x /\ threads c !! x = Some (replied i e g b) /\
  exists r, s_reqs s !! q = Some r /\ Labrpc.rq_handler r = Labrpc.HDone b.
Proof.
  intros Hs Hrel Hw (r & Hr & Hst)%answer_val. destruct (sm_req _ _ _ _ _ _ Hs q r Hr) as (a1 & i1 & n1 & j1 & e1 & Hrr).
  pose proof (gt_ok _ _ _ (rr_given _ _ _ _ _ _ _ _ _ _ Hrr)) as Hok.
  unfold thr_rel in Hrel. rewrite Hw in Hrel. destruct Hrel as (r0 & Hr0 & Hq & Hh). rewrite Hr in Hr0. injection Hr0 as <-.
  unfold Labrpc.req_ok in Hok. rewrite Hst in Hok. destruct (Labrpc.rq_handler r) as [| |b'] eqn:Hd; [tauto|tauto|].
  destruct Hok as [_ <-]. split_and!; [done| |by exists r]. destruct Hh as [Hh|Hh]; [done|].
  unfold doomed in Hh. by rewrite Hst in Hh.
Qed.

Lemma sim_thread_end n s c ep tm qm k : sim n s c ep tm qm -> sim n (put_thread k GDone s) c ep tm qm.
Proof.
  intros []. assert (near s (put_thread k GDone s)) as Hv by done.
  eapply (sim_core n s _ c c ep tm qm); try done; simpl; rewrite ?length_insert; try done.
  - intros k2 g2 a2 i2 Hk2 Ha2 Hc2. apply list_lookup_insert_Some in Hk2 as [(<- & <- & _)|[Hne Hk2]]; [done|].
    destruct (sm_thr0 k2 g2 a2 i2 Hk2 Ha2 Hc2) as (x2 & e2 & Hx2 & He2 & Hr2). exists x2, e2. split_and!; [done|done|].
    by eapply thr_near.
  - intros q' r2 Hr2. destruct (sm_req0 q' r2 Hr2) as (a1 & i1 & n1 & j1 & e1 & Hrr). exists a1, i1, n1, j1, e1. by eapply req_near.
Qed.

(** The goroutine [x] of the cluster, which has its reply, is the one that goes on as [g']. *)
Lemma sim_thread_got n s c ep tm qm k g g' a i q b :
  sim n s c ep tm qm -> s_threads s !! k = Some g -> address g = Some a -> current s i a ->
  waits_for g = Some q -> answer s q = Some (Some b) ->
  address g' = address g -> waits_for g' = None -> (forall i e, thread_of i e g' = replied i e g b) ->
  sim n (put_thread k g' s) c ep tm (delete q qm).
Proof.
  intros Hs Hk Ha Hc Hw Ho Ha' Hw' HT'. destruct (sm_thr _ _ _ _ _ _ Hs k g a i Hk Ha Hc) as (x & ei & Hx & Hei & Hrel).
  destruct (positive_reply _ _ _ _ _ _ _ _ _ _ _ _ _ Hs Hrel Hw Ho) as (Hq & HT & r & Hr & Hd).
  assert (near s (put_thread k g' s)) as Hv by done. destruct Hs.
  eapply (sim_core n s _ c c ep tm qm); try done; simpl; rewrite ?length_insert; try done.
  - intros q' x' [_ Hq']%lookup_delete_Some. by apply sm_qm0.
  - intros q' q2 x' [_ Hq']%lookup_delete_Some [_ Hq2]%lookup_delete_Some. by eapply sm_qm_inj0.
  - intros k2 g2 a2 i2 Hk2 Ha2 Hc2. apply list_lookup_insert_Some in Hk2 as [(<- & <- & _)|[Hne Hk2]].
    + assert (a2 = a) as -> by congruence. assert (i2 = i) as -> by (by eapply current_inj).
      exists x, ei. split_and!; [done|done|]. unfold thr_rel. rewrite Hw', HT'. split; [done|].
      intros q' [Hne Hq']%lookup_delete_Some. by destruct Hne; eapply sm_qm_inj0.
    + destruct (sm_thr0 k2 g2 a2 i2 Hk2 Ha2 Hc2) as (x2 & e2 & Hx2 & He2 & Hr2). exists x2, e2. split_and!; [done|done|].
      assert (x2 <> x) as Hxne by (intros ->; by destruct Hne; eapply sm_tm_inj0).
      eapply thr_near; [done|done| | |done]; [by intros q' [_ ?]%lookup_delete_Some|].
      intros q' r2 _ Hq' Hr'. split; [done|]. rewrite lookup_delete_ne; [done|]. intros ->. congruence.
  - intros q' r2 Hr2. destruct (sm_req0 q' r2 Hr2) as (a1 & i1 & n1 & j1 & e1 & Hrr). exists a1, i1, n1, j1, e1.
    eapply req_near; [done| |done]. intros Hm x2 Hx2. rewrite lookup_delete_ne; [done|]. intros ->.
    unfold may_run in Hm. rewrite Hr in Hr2. injection Hr2 as <-. by rewrite Hd in Hm.
Qed.

Lemma return_sim n s c ep tm qm k s' :
  sim n s c ep tm qm -> sstep s (SReturn k) = Val s' -> exists qm', sim n s' c ep tm qm'.
Proof.
  intros Hs. simpl. destruct (s_threads s !! k) as [g|] eqn:Hk; [|intros [= <-]; by exists qm].
  rewrite return_turn_waits. destruct (waits_for g) as [q|] eqn:Hw; simpl; [|intros [= <-]; by exists qm].
  destruct (answer s q) as [[b|]|] eqn:Ho; intros [= <-]; [|exists qm|by exists qm].
  - assert (exists a, address g = Some a) as [a Ha] by (destruct g; try done; eauto).
    destruct (returned_spec g q b Hw) as (Ha' & Hw' & HT'). destruct (runs_or_not s a) as [[i Hc]|Hn].
    + eexists. by eapply sim_thread_got.
    + exists qm. eapply (sim_thread_old _ _ _ _ _ _ k g _ a); try done. left. exact (eq_trans Ha' Ha).
  - by apply sim_thread_end.
Qed.

(** ** The network works on a request *)

(** The request [q], at a server's own, becomes [r']; nothing else changes. *)
Definition put_req (q : nat) (r : Labrpc.request) (s : Sys) : Sys :=
  mkSys (s_cfg s) (s_procs s) (s_threads s) (<[q := r]> (s_reqs s)).

Lemma process_may_run (s : Sys) rn a r timer r1 r2 :
  Labrpc.req_ok r ->
  (Labrpc.rq_stage r = Labrpc.RNew -> Labrpc.is_enabled rn (Labrpc.rq_end r) = true -> exists i, current s i a) ->
  may_run s a (Labrpc.process_step rn r timer r1 r2).2 -> may_run s a r.
Proof.
  destruct r as [e m args st h nx]. unfold Labrpc.req_ok, may_run, Labrpc.process_step. simpl. intros Hok Hen.
  destruct h as [|a'|b].
  - destruct st as [| |inf|inf|inf [b|]|b|ok b]; simpl; try (by repeat case_match).
    unfold Labrpc.readEndnameInfo. destruct (Labrpc.is_enabled rn e); [by intros _; apply Hen|done].
  - done.
  - destruct st; simpl in *; repeat (case_match; simplify_eq/=); tauto.
Qed.

Lemma process_doomed n (s : Sys) c ep tm qm j r timer r1 r2 :
  sim n s c ep tm qm -> given_to s j r -> doomed s r ->
  doomed s (Labrpc.process_step (net (s_cfg s)) r timer r1 r2).2.
Proof.
  intros Hs [_ Hgi _] Hd. destruct r as [e m args st h nx]. simpl in *.
  assert (forall inf b, st = Labrpc.RFinal inf (Some b) ->
    Labrpc.isServerDead (net (s_cfg s)) e (Labrpc.i_sname inf) (Labrpc.i_server inf) = true) as Hdead.
  { intros inf b ->. destruct (Hgi inf) as [-> _]; [done|]. unfold Labrpc.isServerDead. apply orb_true_iff. right.
    apply negb_true_iff, bool_decide_eq_false. intros (i & [= Hj%Nat2Z.inj] & Hi)%(bk_at _ _ (sm_books _ _ _ _ _ _ Hs)).
    by apply (Hd i). }
  unfold doomed, Labrpc.process_step in *. simpl in *.
  destruct st as [| |inf|inf|inf [b|]|b|[] b]; simpl in *; try done.
  - destruct timer; [by destruct (Labrpc.isServerDead _ _ _ _)|]. by destruct h.
  - by rewrite (Hdead inf b).
Qed.

Lemma process_info rn r timer r1 r2 inf :
  info_of (Labrpc.rq_stage (Labrpc.process_step rn r timer r1 r2).2) = Some inf ->
  info_of (Labrpc.rq_stage r) = Some inf \/
  (Labrpc.is_enabled rn (Labrpc.rq_end r) = true /\ Labrpc.connected_to rn (Labrpc.rq_end r) = Some (Labrpc.i_sname inf) /\
   Labrpc.server_at rn (Labrpc.i_sname inf) = Some (Labrpc.i_server inf)).
Proof.
  unfold Labrpc.process_step, Labrpc.readEndnameInfo.
  destruct (Labrpc.rq_stage r) as [| |inf0|inf0|inf0 [b|]|b|ok b] eqn:Hst; simpl.
  - destruct (Labrpc.is_enabled _ _); [|done]. destruct (Labrpc.connected_to _ _) as [sn|]; [|done]. simpl.
    destruct (Labrpc.server_at rn sn) as [a'|] eqn:Hat; [|done]. intros [= <-]. by right.
  - done.
  - destruct (negb _ && _); [done|]. by left.
  - destruct timer; [destruct (Labrpc.isServerDead _ _ _ _)|destruct (Labrpc.rq_handler r)]; simpl; rewrite ?Hst; by left.
  - destruct (Labrpc.isServerDead _ _ _ _); [done|]. destruct (negb _ && _); [done|]. by destruct (Labrpc.i_reorder _ && _).
  - done.
  - done.
  - by rewrite Hst.
Qed.

Lemma process_running rn r timer r1 r2 a' :
  Labrpc.req_ok r -> Labrpc.rq_handler (Labrpc.process_step rn r timer r1 r2).2 = Labrpc.HRunning a' ->
  (exists inf, Labrpc.rq_stage r = Labrpc.RReady inf /\ Labrpc.i_server inf = a') \/
  (Labrpc.rq_handler r = Labrpc.HRunning a' /\
   forall inf, Labrpc.rq_stage (Labrpc.process_step rn r timer r1 r2).2 = Labrpc.RRun inf -> Labrpc.rq_stage r = Labrpc.RRun inf).
Proof.
  destruct r as [e m args st h nx]. unfold Labrpc.process_step, Labrpc.readEndnameInfo, Labrpc.req_ok. simpl. intros Hok.
  destruct st as [| |inf0|inf0|inf0 [b|]|b|ok b]; simpl.
  - destruct (Labrpc.is_enabled rn e), (Labrpc.connected_to rn e) as [sn|]; simpl; try (destruct (Labrpc.server_at rn sn)); by right.
  - by right.
  - destruct (negb _ && _); simpl; [by right|]. intros [= <-]. left. by exists inf0.
  - destruct timer; [destruct (Labrpc.isServerDead _ _ _ _)|destruct h]; by right.
  - destruct (Labrpc.isServerDead _ _ _ _); [|destruct (negb _ && _); [|destruct (Labrpc.i_reorder _ && _)]]; by right.
  - by right.
  - by right.
  - by right.
Qed.

Lemma process_given n (s : Sys) c ep tm qm q r a i names j e timer r1 r2 :
  sim n s c ep tm qm -> req_rel s c qm q r a i names j e ->
  given_to s j (Labrpc.process_step (net (s_cfg s)) r timer r1 r2).2.
Proof.
  intros Hs [Hca Hna Hen [Hok Hgi Hgr] _]. constructor.
  - eapply Labrpc.process_req_ok; [done|apply surjective_pairing].
  - intros inf [Hinf|(Hena & Hto & Hat)]%process_info; [by apply Hgi|]. rewrite Hen in *.
    destruct (enabled_current _ _ _ _ _ _ _ (sm_books _ _ _ _ _ _ Hs) Hca Hna Hena) as [_ Hto']. rewrite Hto in Hto'. injection Hto' as Hsn.
    split; [done|]. apply (bk_at _ _ (sm_books _ _ _ _ _ _ Hs)) in Hat as (j' & Hj' & Hj). rewrite Hsn in Hj'. injection Hj' as <-%Nat2Z.inj.
    destruct (bk_up _ _ (sm_books _ _ _ _ _ _ Hs) _ _ Hj) as (_ & names' & _ & _ & He & _). by exists names'.
  - intros a' [(inf & Hst & <-)|[Hh Hst]]%process_running; [| |done].
    + rewrite Hst in Hgi. destruct (Hgi inf eq_refl) as [_ Hadr]. split; [done|]. intros inf'.
      unfold Labrpc.process_step. rewrite Hst. by destruct (negb _ && _); intros [= <-].
    + destruct (Hgr a' Hh) as [Hadr Hinf]. split; [done|]. intros inf Hst'. by apply Hinf, Hst.
Qed.

Lemma process_keeps rn r timer r1 r2 : let r' := (Labrpc.process_step rn r timer r1 r2).2 in
  Labrpc.rq_end r' = Labrpc.rq_end r /\ Labrpc.rq_meth r' = Labrpc.rq_meth r /\ Labrpc.rq_args r' = Labrpc.rq_args r.
Proof.
  destruct r as [e m args st h nx]. unfold Labrpc.process_step. simpl. repeat (case_match; simplify_eq/=); done.
Qed.

Lemma process_step_net rn r timer r1 r2 :
  (Labrpc.process_step rn r timer r1 r2).1 = rn \/ exists k, (Labrpc.process_step rn r timer r1 r2).1 = Labrpc.add_bytes k rn.
Proof. unfold Labrpc.process_step. repeat (case_match; simplify_eq/=); eauto. Qed.

Lemma process_turn_spec (s : Sys) q timer r1 r2 s' :
  net_turn s 0 (Labrpc.NProcess q timer r1 r2) = Val s' ->
  same_servers s s' /\ s_threads s' = s_threads s /\
  (s_reqs s' = s_reqs s \/ exists r, s_reqs s !! q = Some r /\
     s_reqs s' = <[q := (Labrpc.process_step (net (s_cfg s)) r timer r1 r2).2]> (s_reqs s)).
Proof.
  unfold net_turn. intros (ns & Hns & Ho)%bind_val. simpl in Hns. destruct (s_reqs s !! q) as [r|] eqn:Hq.
  - destruct (Labrpc.process_step _ _ _ _ _) as [rn r'] eqn:Hp. pose proof (process_step_net (net (s_cfg s)) r timer r1 r2) as Hrn.
    rewrite Hp in Hrn. simpl in Hrn. injection Hns as <-. injection Ho as <-. simpl. rewrite app_nil_r. split_and!; [|done|].
    + constructor; [|done|done]. destruct Hrn as [->|[k ->]]; by constructor.
    + right. exists r. rewrite Hp. done.
  - injection Hns as <-. injection Ho as <-. simpl. rewrite app_nil_r. split_and!; [|done|by left]. by constructor.
Qed.

(** Request [q] becomes [r'] and the goroutines of the cluster do not change. *)
Lemma sim_request n s s' c ep tm qm q r r' :
  sim n s c ep tm qm -> same_servers s s' -> s_threads s' = s_threads s ->
  s_reqs s !! q = Some r -> s_reqs s' = <[q := r']> (s_reqs s) ->
  Labrpc.rq_end r' = Labrpc.rq_end r -> Labrpc.rq_meth r' = Labrpc.rq_meth r -> Labrpc.rq_args r' = Labrpc.rq_args r ->
  (forall a i names j e, req_rel s c qm q r a i names j e -> given_to s j r' /\ (may_run s a r' -> may_run s a r)) ->
  (forall x i e a g, current s i a -> waits_for g = Some q -> thr_rel s c qm x i e a g -> thr_rel s' c qm x i e a g) ->
  sim n s' c ep tm qm.
Proof.
  intros [] Hss Ht Hq Hr He Hm Ha Hreq Hthr. pose proof (same_servers_near _ _ Hss) as Hv.
  eapply (sim_core n s s' c c ep tm qm); try done; rewrite ?Ht, ?Hr, ?length_insert; try done.
  - intros k g a i Hk Hg Hc. destruct (sm_thr0 k g a i Hk Hg Hc) as (x & e & Hx & Hep & Hrel). exists x, e. split_and!; [done|done|].
    destruct (decide (waits_for g = Some q)) as [Hw|Hw]; [by apply Hthr|].
    eapply thr_near; [done|done|done| |done]. intros q' r0 Hw' Hqx Hr0. rewrite Hr. split; [|done].
    rewrite list_lookup_insert_ne; [done|]. by intros <-.
  - intros q' r0 [(<- & <- & _)|[Hne Hr0]]%list_lookup_insert_Some.
    + destruct (sm_req0 q r Hq) as (a & i & names & j & e & Hrel). exists a, i, names, j, e.
      destruct (Hreq _ _ _ _ _ Hrel) as [Hgv Hmr]. destruct Hrel as [H1 H2 H3 H4 H5].
      constructor; [by rewrite (nr_ends _ _ Hv)|done|by rewrite He|by eapply given_near|].
      rewrite (may_run_near s s') by done. unfold request_of. rewrite Hm, Ha. intros Hmay. by apply H5, Hmr.
    + destruct (sm_req0 q' r0 Hr0) as (a & i & names & j & e & Hrel). exists a, i, names, j, e. by eapply req_near.
Qed.

Lemma process_handler rn r timer r1 r2 b :
  Labrpc.req_ok r -> Labrpc.rq_handler (Labrpc.process_step rn r timer r1 r2).2 = Labrpc.HDone b ->
  Labrpc.rq_handler r = Labrpc.HDone b.
Proof.
  destruct r as [e m args st h nx]. unfold Labrpc.process_step. simpl. intros _. repeat (case_match; simplify_eq/=); done.
Qed.

Lemma process_sim n s c ep tm qm q timer r1 r2 s' :
  sim n s c ep tm qm -> sstep s (SProcess q timer r1 r2) = Val s' -> sim n s' c ep tm qm.
Proof.
  intros Hs (Hss & Ht & Hr)%process_turn_spec. pose proof (same_servers_near _ _ Hss) as Hv. destruct Hr as [Hr|(r & Hq & Hr)].
  { by apply (sim_servers n s s'). }
  destruct (process_keeps (net (s_cfg s)) r timer r1 r2) as (He & Hm & Ha).
  destruct (sm_req _ _ _ _ _ _ Hs q r Hq) as (a0 & i0 & names0 & j0 & e0 & Hrel0).
  pose proof (rr_given _ _ _ _ _ _ _ _ _ _ Hrel0) as Hgv0. pose proof (gt_ok _ _ _ Hgv0) as Hok.
  eapply (sim_request n s s' c ep tm qm q r); try done.
  - intros a i names j e Hrel. split; [by eapply process_given|]. apply process_may_run; [done|]. intros _ Hena.
    destruct Hrel as [Hca Hna Hen _ _]. rewrite Hen in Hena.
    destruct (enabled_current _ _ _ _ _ _ _ (sm_books _ _ _ _ _ _ Hs) Hca Hna Hena) as [Hcur _]. by exists i.
  - intros x i e a g Hc Hw. unfold thr_rel. rewrite Hw. intros (r0 & Hr0 & Hqx & Hh). rewrite Hq in Hr0. injection Hr0 as <-.
    exists (Labrpc.process_step (net (s_cfg s)) r timer r1 r2).2. split_and!; [|done|].
    { rewrite Hr. apply list_lookup_insert_eq. by eapply lookup_lt_Some. }
    assert (may_run s' a (Labrpc.process_step (net (s_cfg s)) r timer r1 r2).2 -> may_run s a r) as Hmr.
    { rewrite (may_run_near s s') by done. apply process_may_run; [done|]. intros _ _. by exists i. }
    destruct (Labrpc.rq_handler (Labrpc.process_step _ _ _ _ _).2) as [| |b] eqn:Hd.
    3: { apply process_handler in Hd; [|done]. rewrite Hd in Hh. destruct Hh as [Hh|Hh]; [by left|right].
         rewrite (doomed_near s s') by done. by eapply process_doomed. }
    all: intros Hm'%Hmr; destruct (Labrpc.rq_handler r) eqn:Hd'; [by apply Hh|by apply Hh|].
    all: unfold may_run in Hm'; by rewrite Hd' in Hm'.
Qed.

(** ** A handler runs *)

Lemma handle_val {A R} (dec : list byte -> A) (enc : R -> list byte) a
    (f : Raft -> A -> Z -> res (Raft * R * option (list Entry))) h args h' b :
  handle dec enc a f h args = (h', b) -> h_panic h' = None -> h_panic h = None ->
  exists rf rf' r spawn, node_in (h_heap h) a = Some rf /\ f rf (dec args) (h_now h) = Val (rf', r, spawn) /\
    h' = mkHost (h_now h) (put_in (h_heap h) a rf') (h_spawned h ++ match spawn with Some es => [(a, es)] | None => [] end) None /\
    b = enc r.
Proof.
  unfold handle. destruct (node_in (h_heap h) a) as [rf|]; [|by intros [= <- _]].
  destruct (f rf (dec args) (h_now h)) as [[[rf' r] spawn]|e] eqn:Hf; [|by intros [= <- _]].
  intros [= <- <-] _ Hp. exists rf, rf', r, spawn. by rewrite Hp.
Qed.

(** The two methods are found under their names. *)
Lemma dispatch_raft (cfg : config) ends a rs h args rs' h' b m :
  books cfg ends -> RaftTester.servers cfg !! a = Some rs -> Labrpc.Server_dispatch rs m args h = Val (rs', (h', b)) ->
  Labrpc.services rs' = Labrpc.services rs /\
  (m = "Raft.RequestVote"%string -> handle dec_rva enc_rvr a vote_handler h args = (h', b)) /\
  (m = "Raft.AppendEntries"%string -> handle dec_aea enc_aer a AppendEntries h args = (h', b)).
Proof.
  intros Hb Hrs. unfold Labrpc.Server_dispatch.
  intros ([svc meth] & Hm & Hd)%bind_val. simpl in Hd. destruct (Labrpc.services rs !! svc) as [sv|] eqn:Hsv; [|done].
  apply bind_val in Hd as ([h0 b0] & Hd & [= <- <- <-]). split; [done|]. split; intros ->;
    vm_compute in Hm; injection Hm as <- <-; rewrite (bk_service _ _ Hb _ _ Hrs) in Hsv; injection Hsv as <-;
    unfold Labrpc.Service_dispatch in Hd.
  - assert (Labrpc.svc_methods (Labrpc.MakeService "Raft" (raft_methods a)) !! "RequestVote"%string = Some (handle dec_rva enc_rvr a vote_handler)) as E by reflexivity.
    rewrite E in Hd. by injection Hd as ->.
  - assert (Labrpc.svc_methods (Labrpc.MakeService "Raft" (raft_methods a)) !! "AppendEntries"%string = Some (handle dec_aea enc_aer a AppendEntries)) as E by reflexivity.
    rewrite E in Hd. by injection Hd as ->.
Qed.

(** Request [r] with the reply [b] of its handler *)
Definition with_reply (b : list byte) (r : Labrpc.request) : Labrpc.request :=
  Labrpc.mkRequest (Labrpc.rq_end r) (Labrpc.rq_meth r) (Labrpc.rq_args r) (Labrpc.rq_stage r) (Labrpc.HDone b) (S (Labrpc.rq_execs r)).

(** The server at [a] has executed request [q] and become [rf']. *)
Record executed (s s' : Sys) (q : nat) (r : Labrpc.request) (a : nat) (rf rf' : Raft) (b : list byte) (spawn : option (list Entry)) : Prop := {
  ex_node : node_at s a = Some rf;
  ex_servers : same_servers (put_node a rf' s) s';
  ex_threads : s_threads s' = s_threads s ++ go_apply a spawn;
  ex_reqs : s_reqs s' = <[q := with_reply b r]> (s_reqs s) }.

(** ... and that is what the cluster's goroutine [T] does at server [j]; who waits has the reply then. *)
Definition answers (j : nat) (T : thread) (now : Z) (rf rf' : Raft) (b : list byte) (spawn : option (list Entry)) : Prop :=
  keeps rf rf' /\ exists T',
    (forall c x ej, nodes c !! j = Some rf -> epochs c !! j = Some ej ->
       thread_step c x T now = Val (spawn_apply j ej spawn (set_thread x T' (set_node j rf' c)))) /\
    forall i e g q, waits_for g = Some q -> T = thread_of i e g -> T' = replied i e g b.

Context `{!RpcCodecLaws Cmd}.

Lemma vote_answers i e j t args now (rf rf' : Raft) reply :
  RequestVote rf args now = Val (rf', reply) ->
  answers j (TVote i e j t (VSent args)) now rf rf' (enc_rvr reply) None.
Proof.
  intros Hv. split; [by eapply RequestVote_keeps|]. exists (TVote i e j t (VReplied args reply)). split.
  - intros c x ej Hj _. simpl. by rewrite Hj, Hv.
  - intros i' e' g q Hw HT. destruct g as [a0 j0 t0 []|a0 j0 []| | | |]; simplify_eq/=. by rewrite rvr_round.
Qed.

Lemma beat_answers i e j args now (rf rf' : Raft) reply spawn :
  AppendEntries rf args now = Val (rf', reply, spawn) ->
  answers j (TBeat i e j (HSent args)) now rf rf' (enc_aer reply) spawn.
Proof.
  intros Hv. split; [by eapply AppendEntries_keeps|]. exists (TBeat i e j (HReplied args reply)). split.
  - intros c x ej Hj He. simpl. by rewrite Hj, He, Hv.
  - intros i' e' g q Hw HT. destruct g as [a0 j0 t0 []|a0 j0 []| | | |]; simplify_eq/=. by rewrite aer_round.
Qed.

Lemma exec_turn_spec (s : Sys) q now s' r a j T :
  books (s_cfg s) (ends_of s) -> s_reqs s !! q = Some r -> Labrpc.rq_handler r = Labrpc.HRunning a ->
  request_of r j (Some T) -> net_turn s now (Labrpc.NExec q) = Val s' ->
  exists rf rf' b spawn, executed s s' q r a rf rf' b spawn /\ answers j T now rf rf' b spawn.
Proof.
  intros Hb Hq Hh Hreq. unfold net_turn. simpl. rewrite Hq, Hh.
  intros (ns & (rs & Hrs%of_option_val & ([rs' [h' b]] & Hd & [= <-])%bind_val)%bind_val & Ho)%bind_val.
  unfold of_net in Ho. simpl in Ho. destruct (h_panic h') eqn:Hp; [done|]. injection Ho as <-.
  destruct (dispatch_raft _ _ _ _ _ _ _ _ _ _ Hb Hrs Hd) as (Hsv & Hvote & Hbeat).
  assert (forall rf' spawn, h' = mkHost now (put_in (heap_of (s_cfg s)) a rf') (match spawn with Some es => [(a, es)] | None => [] end) None ->
    forall rf, node_in (heap_of (s_cfg s)) a = Some rf -> executed s (mkSys (RaftTester.with_net (net (s_cfg s))
       (RaftTester.with_servers (<[a:=rs']> (RaftTester.servers (s_cfg s))) (set_heap (h_heap h') (s_cfg s)))) (s_procs s)
       (s_threads s ++ ((fun x => GApply x.1 x.2) <$> h_spawned h')) (<[q:=with_reply b r]> (s_reqs s))) q r a rf rf' b spawn) as Hex.
  { intros rf' spawn -> rf Hrf. constructor; [done| |by destruct spawn|done]. constructor; [|done|done].
    constructor; try done. simpl. rewrite list_fmap_insert, Hsv. apply list_insert_id. by rewrite list_lookup_fmap, Hrs. }
  destruct Hreq as [(i & e & t & args & [= ->] & Hm & Ha)|(i & e & args & [= ->] & Hm & Ha)].
  - destruct (handle_val _ _ _ _ _ _ _ _ (Hvote Hm) Hp eq_refl) as (rf & rf' & reply & spawn & Hn & Hf & Eh & ->).
    rewrite Ha, rva_round in Hf. apply bind_val in Hf as ([rf1 r1] & Hf & [= -> -> <-]).
    exists rf, rf', (enc_rvr reply), None. split; [by apply Hex|by apply vote_answers].
  - destruct (handle_val _ _ _ _ _ _ _ _ (Hbeat Hm) Hp eq_refl) as (rf & rf' & reply & spawn & Hn & Hf & Eh & ->).
    rewrite Ha, aea_round in Hf. exists rf, rf', (enc_aer reply), spawn. split; [by apply Hex|by apply beat_answers].
Qed.

Lemma reply_given (s : Sys) j r a b :
  given_to s j r -> Labrpc.rq_handler r = Labrpc.HRunning a -> given_to s j (with_reply b r).
Proof.
  intros [Hok Hgi Hgr] Hh. constructor; [|done|done]. unfold Labrpc.req_ok in *. rewrite Hh in Hok. simpl.
  destruct Hok as [-> Hst]. split; [done|]. by destruct (Labrpc.rq_stage r) as [| |inf|inf|inf [x|]|x|[] x].
Qed.

Lemma running_may_run (s : Sys) a r a' : Labrpc.rq_handler r = Labrpc.HRunning a' -> may_run s a r.
Proof. intros Hh. unfold may_run. by rewrite Hh. Qed.

(** The request has its reply, and so has goroutine [x] of the cluster. *)
Lemma sim_answer n s s' c ep tm qm q r a x T T' b :
  sim n s c ep tm qm -> same_servers s s' -> s_threads s' = s_threads s ->
  s_reqs s !! q = Some r -> Labrpc.rq_handler r = Labrpc.HRunning a -> s_reqs s' = <[q := with_reply b r]> (s_reqs s) ->
  qm !! q = Some x -> threads c !! x = Some T ->
  (forall i e g q, waits_for g = Some q -> T = thread_of i e g -> T' = replied i e g b) ->
  sim n s' (set_thread x T' c) ep tm qm.
Proof.
  intros [] Hss Ht Hq Hh Hr Hx HT HT'. pose proof (same_servers_near _ _ Hss) as Hv.
  eapply (sim_core n s s' c _ ep tm qm); try done; rewrite ?Ht, ?Hr, ?length_insert; try done; simpl; rewrite ?length_insert; try done.
  - intros k g a0 i Hk Hg Hc. destruct (sm_thr0 k g a0 i Hk Hg Hc) as (x0 & e & Hx0 & Hep & Hrel). exists x0, e. split_and!; [done|done|].
    destruct (decide (waits_for g = Some q)) as [Hw|Hw].
    + unfold thr_rel in *. rewrite Hw in *. destruct Hrel as (r0 & Hr0 & Hqx & Hmr). rewrite Hq in Hr0. injection Hr0 as <-.
      rewrite Hx in Hqx. injection Hqx as <-. rewrite Hh in Hmr. rewrite HT in Hmr.
      assert (T = thread_of i e g) as Hth by (by apply (inj Some), Hmr, (running_may_run _ _ _ a)).
      exists (with_reply b r). split_and!; [rewrite Hr; apply list_lookup_insert_eq; by eapply lookup_lt_Some|done|].
      left. simpl. rewrite list_lookup_insert_eq by (by eapply lookup_lt_Some). by rewrite (HT' i e g q).
    + assert (x0 <> x) as Hxne.
      { intros ->. unfold thr_rel in Hrel. destruct (waits_for g) as [q0|]; [|by destruct Hrel as [_ Hno]; apply (Hno q)].
        destruct Hrel as (r0 & _ & Hq0 & _). apply Hw. f_equal. by eapply sm_qm_inj0. }
      eapply thr_near; [done| |done| |done]; [simpl; by apply list_lookup_insert_ne|].
      intros q' r0 Hw' Hqx Hr0. rewrite Hr. split; [|done]. rewrite list_lookup_insert_ne; [done|]. by intros <-.
  - intros q' r0 [(<- & <- & _)|[Hne Hr0]]%list_lookup_insert_Some.
    + destruct (sm_req0 q r Hq) as (a0 & i & names & j & e & [H1 H2 H3 H4 H5]). exists a0, i, names, j, e.
      constructor; [by rewrite (nr_ends _ _ Hv)|done|done| |done]. eapply given_near; [done|]. by eapply reply_given.
    + destruct (sm_req0 q' r0 Hr0) as (a0 & i & names & j & e & Hrel). exists a0, i, names, j, e.
      eapply req_near; [done| |done]. intros _ x2 Hx2. split; [done|]. simpl. apply list_lookup_insert_ne.
      intros <-. by destruct Hne; eapply sm_qm_inj0.
Qed.

(** A server that no longer runs has answered: the answer will not arrive. *)
Lemma sim_answer_old n s s' c ep tm qm q r a b :
  sim n s c ep tm qm -> same_servers s s' -> s_threads s' = s_threads s ->
  s_reqs s !! q = Some r -> Labrpc.rq_handler r = Labrpc.HRunning a -> s_reqs s' = <[q := with_reply b r]> (s_reqs s) ->
  (forall i, ~ current s i a) -> sim n s' c ep tm qm.
Proof.
  intros Hs Hss Ht Hq Hh Hr Hn. pose proof (same_servers_near _ _ Hss) as Hv.
  destruct (sm_req _ _ _ _ _ _ Hs q r Hq) as (a0 & i0 & names0 & j0 & e0 & Hrel0).
  pose proof (rr_given _ _ _ _ _ _ _ _ _ _ Hrel0) as [Hok _ Hgr].
  eapply (sim_request n s s' c ep tm qm q r (with_reply b r)); try done.
  - intros a' i names j e Hrel. split; [|done]. eapply reply_given; [apply Hrel|done].
  - intros x i e a' g Hc Hw. unfold thr_rel. rewrite Hw. intros (r0 & Hr0 & Hqx & _). rewrite Hq in Hr0. injection Hr0 as <-.
    exists (with_reply b r). split_and!; [rewrite Hr; apply list_lookup_insert_eq; by eapply lookup_lt_Some|done|].
    right. rewrite (doomed_near s s') by done. unfold doomed, Labrpc.req_ok in *. rewrite Hh in Hok. simpl.
    destruct (Hgr a Hh) as [_ Hinf].
    destruct (Labrpc.rq_stage r) as [| |inf|inf|inf [y|]|y|[] y]; try tauto. by rewrite (Hinf inf).
Qed.

Lemma exec_cur n s s' c ep tm qm q r a rf rf' b spawn j x T now :
  cluster_ok n c -> sim n s c ep tm qm -> executed s s' q r a rf rf' b spawn -> answers j T now rf rf' b spawn ->
  s_reqs s !! q = Some r -> Labrpc.rq_handler r = Labrpc.HRunning a -> qm !! q = Some x -> threads c !! x = Some T ->
  current s j a -> exists c' tm', step c (LThread x now) = Val c' /\ sim n s' c' ep tm' qm.
Proof.
  intros Hok Hs [Hrf Hss Ht Hr] (Hk & T' & Hstep & HT') Hq Hh Hx HT Hc.
  destruct (sim_nodes n s c ep tm qm j a Hok Hs Hc) as (e & rf0 & pr & He & Hrf0 & _ & Hn & _ & Hep & _).
  rewrite Hrf in Hrf0. injection Hrf0 as <-. simpl. rewrite HT, (Hstep c x e Hn Hep).
  pose proof (sim_put_cur _ _ _ _ _ _ _ _ _ _ Hs Hc Hrf Hk) as Hs1.
  set (s2 := mkSys (s_cfg s') (s_procs s') (s_threads s) (s_reqs s')).
  assert (sim n s2 (set_thread x T' (set_node j rf' c)) ep tm qm) as Hs2
    by (eapply (sim_answer n (put_node a rf' s) s2); try done; by destruct Hss).
  assert (current s2 j a) as Hc2 by (by apply (current_near _ _ j a (same_servers_near _ _ Hss))).
  destruct (sim_go_cur _ _ _ _ _ _ j a e (go_apply a spawn) Hs2 Hc2 He) as [tm' Hs3].
  { intros g Hg. destruct spawn; simpl in Hg; [|set_solver]. by apply list_elem_of_singleton in Hg as ->. }
  eexists _, tm'. split; [done|]. rewrite (spawn_apply_go j e a).
  replace s' with (go (go_apply a spawn) s2); [exact Hs3|]. unfold go. simpl. rewrite <- Ht. by destruct s'.
Qed.

Lemma exec_old n s s' c ep tm qm q r a rf rf' b spawn :
  sim n s c ep tm qm -> executed s s' q r a rf rf' b spawn ->
  s_reqs s !! q = Some r -> Labrpc.rq_handler r = Labrpc.HRunning a -> (forall i, ~ current s i a) -> sim n s' c ep tm qm.
Proof.
  intros Hs [Hrf Hss Ht Hr] Hq Hh Hn. pose proof (sim_put_old _ _ _ _ _ _ _ _ rf' Hs Hn Hrf) as Hs1.
  set (s2 := mkSys (s_cfg s') (s_procs s') (s_threads s) (s_reqs s')).
  assert (sim n s2 c ep tm qm) as Hs2 by (eapply (sim_answer_old n (put_node a rf' s) s2); try done; by destruct Hss).
  replace s' with (go (go_apply a spawn) s2); [|unfold go; simpl; rewrite <- Ht; by destruct s'].
  apply sim_go_old; [done|]. intros g a' i Hg Ha'. assert (a' = a) as ->.
  { destruct spawn; simpl in Hg; [|set_solver]. apply list_elem_of_singleton in Hg as ->. by injection Ha'. }
  intros Hc. apply (Hn i). by apply (current_near _ _ i a (same_servers_near _ _ Hss)).
Qed.

Lemma disciplined_sent (c : Cluster) x r j now :
  request_of r j (threads c !! x) -> RaftMachine.disciplined c (LThread x now) = true.
Proof.
  unfold RaftMachine.disciplined, RaftMachine.prompt, RaftLogs.orderly, RaftElection.timely.
  by intros [(i & e & t & args & -> & _)|(i & e & args & -> & _)].
Qed.

(** There is nothing to execute, or a server executes the request as the cluster's goroutine would. *)
Lemma exec_cases n s c ep tm qm q now s' :
  sim n s c ep tm qm -> net_turn s now (Labrpc.NExec q) = Val s' ->
  (same_servers s s' /\ s_threads s' = s_threads s /\ s_reqs s' = s_reqs s) \/
  exists r a j x T rf rf' b spawn, s_reqs s !! q = Some r /\ Labrpc.rq_handler r = Labrpc.HRunning a /\ address_of s j a /\
    qm !! q = Some x /\ threads c !! x = Some T /\ request_of r j (Some T) /\
    executed s s' q r a rf rf' b spawn /\ answers j T now rf rf' b spawn.
Proof.
  intros Hs Hn.
  assert ((exists r a, s_reqs s !! q = Some r /\ Labrpc.rq_handler r = Labrpc.HRunning a) \/
          net_turn s now (Labrpc.NExec q) = of_net s (net_of s now)) as [(r & a & Hq & Hh)|E].
  { unfold net_turn. simpl. destruct (s_reqs s !! q) as [r|]; [|by right].
    destruct (Labrpc.rq_handler r) as [|a|b] eqn:Hh; [by right|left; by exists r, a|by right]. }
  2: { left. rewrite E in Hn. injection Hn as <-. split_and!; [by constructor|simpl; by rewrite app_nil_r|done]. }
  destruct (sm_req _ _ _ _ _ _ Hs q r Hq) as (a0 & i & names & j & e & [H1 H2 H3 [_ _ Hgr] H5]).
  destruct (H5 (running_may_run _ _ _ a Hh)) as (x & Hx & Hreq).
  destruct (threads c !! x) as [T|] eqn:HT; [|by destruct Hreq as [(?&?&?&?&?&_)|(?&?&?&?&_)]].
  destruct (exec_turn_spec s q now s' r a j T (sm_books _ _ _ _ _ _ Hs) Hq Hh Hreq Hn) as (rf & rf' & b & spawn & Hex & Hans).
  right. exists r, a, j, x, T, rf, rf', b, spawn. destruct (Hgr a Hh). done.
Qed.

Lemma exec_sim n s c ep tm qm q now s' :
  cluster_ok n c -> sim n s c ep tm qm -> sstep s (SExec q now) = Val s' ->
  exists c' tm', follows s (SExec q now) c c' /\ sim n s' c' ep tm' qm.
Proof.
  intros Hok Hs Hn. destruct (exec_cases _ _ _ _ _ _ _ _ _ Hs Hn) as
    [(Hss & Ht & Hr)|(r & a & j & x & T & rf & rf' & b & spawn & Hq & Hh & [names' Hj] & Hx & HT & Hreq & Hex & Hans)].
  { exists c, tm. split; [by left|by eapply sim_servers]. }
  destruct (runs_or_not s a) as [[j' Hc]|Hnc].
  - assert (j' = j) as -> by (destruct (bk_up _ _ (sm_books _ _ _ _ _ _ Hs) _ _ Hc) as (_ & n2 & _ & _ & Hj' & _); congruence).
    destruct (exec_cur _ _ _ _ _ _ _ _ _ _ _ _ _ _ _ _ _ _ Hok Hs Hex Hans Hq Hh Hx HT Hc) as (c' & tm' & Hst & Hs').
    exists c', tm'. split; [|done]. right. exists (LThread x now). split; [done|]. split.
    + intros _. apply (disciplined_sent c x r j). by rewrite HT.
    + simpl. rewrite HT. by destruct Hreq as [(? & ? & ? & ? & [= ->] & _)|(? & ? & ? & [= ->] & _)].
  - exists c, tm. split; [by left|]. by eapply exec_old.
Qed.

(** ** The tester proposes a command *)

Lemma client_sim n s c ep tm qm i command s' :
  cluster_ok n c -> sim n s c ep tm qm -> sstep s (SClient i command) = Val s' ->
  exists c' tm', follows s (SClient i command) c c' /\ sim n s' c' ep tm' qm.
Proof.
  intros Hok Hs. simpl. assert (follows s (SClient i command) c c) as Hst by (by left).
  destruct (rafts (s_cfg s) !! i) as [[a|]|] eqn:Hc; simpl; [|intros [= <-]; by exists c, tm..].
  destruct (sim_nodes n s c ep tm qm i a Hok Hs Hc) as (e & rf & pr & He & Hrf & _ & Hn & _ & Hep & _). rewrite Hrf. simpl.
  destruct (bool_decide (state rf = Leader)) eqn:Hl; [|intros [= <-]; by exists c, tm]. intros [= <-].
  destruct (sim_go_cur _ _ _ _ _ _ i a e [GStart a (currentTerm rf) command] Hs Hc He) as [tm' Hs'].
  { by intros g ->%list_elem_of_singleton. }
  eexists _, tm'. split; [|exact Hs']. right. exists (LStart i command). split; [|split; done]. simpl. by rewrite Hn, Hep, Hl.
Qed.

End Calls.
End RaftNetCalls.
