(* ===== verification/RaftNetTester.v ===== *)
(** * The tester in the simulation

    What [connect], [disconnect], [crash1] and [start1] do to the books and to the relation of RaftNetSim.v.  A
    crash is no step of the cluster: the server that was crashed keeps what it had saved, and what it does
    from then on reaches nobody.  Starting it again is the cluster's crash-and-restart. *)

From stdpp Require Import base list gmap strings.
From Stdlib Require Import ZArith Lia Strings.Byte.
From S2P Require Import Prelude RaftNode RaftInv RaftCluster RaftClusterInv RaftElection RaftLogs RaftMachine.
From S2P Require Import Labrpc TestRand RaftTester RaftNet RaftNetSim RaftNetCalls.
Import RaftNode RaftInv RaftCluster RaftClusterInv RaftNet RaftNetSim RaftNetCalls.

Open Scope Z_scope.

Module RaftNetTester.

Notation is_connected := RaftTester.is_connected.
Notation endnames := RaftTester.endnames.
Notation saved_at cfg i := (RaftTester.saved cfg !! i).

Section Ops.
Context {Cmd : Type} `{!EqDecision Cmd, !Codec Cmd, !RpcCodec Cmd}.
Notation Raft := (Raft Cmd).
Notation Cluster := (@Cluster Cmd).
Notation Sys := (@Sys Cmd).
Notation config := (RaftTester.config (Cmd := Cmd) (App := @Host Cmd)).
Notation instance := (RaftTester.instance (Cmd := Cmd)).

(** ** The books *)

(** Connecting and disconnecting change which servers are connected, and nothing else the books speak of. *)
Record rewired (cfg cfg' : config) : Prop := {
  rw_n : RaftTester.n cfg' = RaftTester.n cfg;
  rw_rafts : rafts cfg' = rafts cfg;
  rw_saved : RaftTester.saved cfg' = RaftTester.saved cfg;
  rw_names : endnames cfg' = endnames cfg;
  rw_ends : Labrpc.ends (net cfg') = Labrpc.ends (net cfg);
  rw_at : Labrpc.servers (net cfg') = Labrpc.servers (net cfg);
  rw_servers : RaftTester.servers cfg' = RaftTester.servers cfg;
  rw_heap : heap_of cfg' = heap_of cfg }.

Lemma rewired_books cfg cfg' ends :
  books cfg ends -> rewired cfg cfg' -> RaftTester.wired cfg' ->
  (forall i, is_connected cfg' i -> exists a, rafts cfg !! i = Some (Some a)) -> books cfg' ends.
Proof.
  intros [] [En Er Es Ee Eends Eat Esv Eh] Hw Hc. injection Eh as Ei Ep.
  constructor; unfold disjoint_heap, heap_of, Labrpc.server_at, RaftTester.name_of in *; simpl in *;
    rewrite ?Er, ?Es, ?En, ?Ee, ?Eends, ?Eat, ?Esv, ?Ei, ?Ep; done.
Qed.

Lemma connect_rewired i (cfg cfg' : config) : RaftTester.connect i cfg = Val cfg' -> rewired cfg cfg' /\
  forall j, is_connected cfg' j -> j = i \/ is_connected cfg j.
Proof.
  intros (Hi & E & -> & _)%RaftTester.connect_spec. split; [done|]. intros j. unfold is_connected. simpl.
  rewrite list_lookup_insert_Some. naive_solver.
Qed.

Lemma disconnect_rewired i (cfg cfg' : config) : RaftTester.disconnect i cfg = Val cfg' -> rewired cfg cfg' /\
  forall j, is_connected cfg' j -> j <> i /\ is_connected cfg j.
Proof.
  intros (Hi & E & -> & _)%RaftTester.disconnect_spec. split; [done|]. intros j. unfold is_connected. simpl.
  rewrite list_lookup_insert_Some. naive_solver.
Qed.

Lemma connect_books i cfg cfg' ends :
  books cfg ends -> (exists a, rafts cfg !! i = Some (Some a)) -> RaftTester.connect i cfg = Val cfg' -> books cfg' ends.
Proof.
  intros Hb Hi Hc. destruct (connect_rewired _ _ _ Hc) as [Hr Hcon]. eapply rewired_books; [done|done| |].
  - pose proof (bk_wired _ _ Hb) as Hw. eapply (RaftTester.wired_connect raft_methods); [done|by eapply RaftTester.connect_named|done].
  - intros j [->|Hj]%Hcon; [done|]. by apply (bk_conn _ _ Hb).
Qed.

Lemma disconnect_books i cfg cfg' ends : books cfg ends -> RaftTester.disconnect i cfg = Val cfg' -> books cfg' ends.
Proof.
  intros Hb Hc. destruct (disconnect_rewired _ _ _ Hc) as [Hr Hcon]. eapply rewired_books; [done|done| |].
  - by apply (RaftTester.wired_disconnect raft_methods i cfg cfg' (bk_wired _ _ Hb)).
  - intros j [_ Hj]%Hcon. by apply (bk_conn _ _ Hb).
Qed.

(** ** Crashing *)

Record crashed (i : nat) (cfg cfg' : config) : Prop := {
  cr_wired : RaftTester.wired cfg';
  cr_conn : forall j, is_connected cfg' j -> j <> i /\ is_connected cfg j;
  cr_n : RaftTester.n cfg' = RaftTester.n cfg;
  cr_names : endnames cfg' = endnames cfg;
  cr_ends : Labrpc.ends (net cfg') = Labrpc.ends (net cfg);
  cr_at : Labrpc.servers (net cfg') = <[IInt (Z.of_nat i) := None]> (Labrpc.servers (net cfg));
  cr_servers : RaftTester.servers cfg' = RaftTester.servers cfg;
  cr_rafts : rafts cfg' = <[i := None]> (rafts cfg);
  cr_addresses : in_persister <$> instances cfg' = in_persister <$> instances cfg;
  cr_others : forall a, rafts cfg !! i <> Some (Some a) -> instances cfg' !! a = instances cfg !! a;
  cr_old : exists l, persisters cfg' = persisters cfg ++ l;
  cr_len : length (RaftTester.saved cfg') = length (RaftTester.saved cfg);
  cr_saved : forall j, j <> i -> saved_at cfg' j = saved_at cfg j;
  cr_copy : match saved_at cfg i with
            | Some (Some p) => exists ps p', persisters cfg !! p = Some ps /\ saved_at cfg' i = Some (Some p') /\
                (length (persisters cfg) <= p')%nat /\ persisters cfg' !! p' = Some (mkPersister (raftstate ps) [])
            | o => saved_at cfg' i = o
            end }.

(** The persister a killed server writes back is the one it read. *)
Lemma kill_section a (cfg cfg' : config) :
  RaftTester.run_section a (fun rf => mret (Kill rf)) cfg = Val cfg' ->
  exists ins rf, instances cfg !! a = Some ins /\
    cfg' = RaftTester.with_instances (<[a := RaftTester.mkInstance rf (in_persister ins)]> (instances cfg)) cfg.
Proof.
  unfold RaftTester.run_section. intros (ins & Hi%of_option_val & (ps & Hp%of_option_val & [= <-])%bind_val)%bind_val.
  exists ins, (Kill (set_persister ps (in_raft ins))). split; [done|]. simpl. rewrite (list_insert_id _ _ ps) by done. by destruct cfg.
Qed.

(** The first half of [crash1]: disconnected, removed from the network, its persister copied *)
Record cut_loose (i : nat) (cfg cfg' : config) : Prop := {
  cl_n : RaftTester.n cfg' = RaftTester.n cfg;
  cl_ends : Labrpc.ends (net cfg') = Labrpc.ends (net cfg);
  cl_at : Labrpc.servers (net cfg') = <[IInt (Z.of_nat i) := None]> (Labrpc.servers (net cfg));
  cl_servers : RaftTester.servers cfg' = RaftTester.servers cfg;
  cl_rafts : rafts cfg' = rafts cfg;
  cl_instances : instances cfg' = instances cfg;
  cl_conn : forall j, is_connected cfg' j -> j <> i /\ is_connected cfg j;
  cl_copy : match saved_at cfg i with
            | Some (Some p) => exists ps, persisters cfg !! p = Some ps /\ persisters cfg' = persisters cfg ++ [ps] /\
                RaftTester.saved cfg' = <[i := Some (length (persisters cfg))]> (RaftTester.saved cfg)
            | _ => persisters cfg' = persisters cfg /\ RaftTester.saved cfg' = RaftTester.saved cfg
            end }.

Lemma Copy_same ps : Copy ps = ps.
Proof. by destruct ps. Qed.

Lemma crash1_first i (cfg cfg1 cfg3 : config) sv :
  RaftTester.disconnect i cfg = Val cfg1 -> let cfg2 := RaftTester.with_net (Labrpc.DeleteServer (IInt (Z.of_nat i)) (net cfg1)) cfg1 in
  saved_at cfg2 i = Some sv ->
  match sv with
  | Some p =>
      ps ← of_option ENil (persisters cfg2 !! p);
      let '(p', cfg') := RaftTester.new_persister (Copy ps) cfg2 in
      mret (RaftTester.with_saved (<[i := Some p']> (RaftTester.saved cfg')) cfg')
  | None => mret cfg2
  end = Val cfg3 -> cut_loose i cfg cfg3.
Proof.
  intros Hd cfg2 Hsv H3. destruct (disconnect_rewired _ _ _ Hd) as [[E1 E2 E3 E4 E5 E6 E7 E8] Hcon]. injection E8 as Ei Ep.
  assert (saved_at cfg i = Some sv) as Hsv' by (by rewrite <- E3). destruct sv as [p|].
  - apply bind_val in H3 as (ps & Hps%of_option_val & [= <-]). unfold cfg2 in *. simpl in *. rewrite Copy_same, Ep in *.
    constructor; simpl; rewrite ?E6, ?Hsv'; try done. exists ps. by rewrite E3.
  - injection H3 as <-. constructor; simpl; rewrite ?E6, ?Hsv'; done.
Qed.

Lemma crash1_crashed i (cfg cfg' : config) :
  RaftTester.wired cfg -> length (RaftTester.saved cfg) = RaftTester.n cfg -> length (rafts cfg) = RaftTester.n cfg ->
  RaftTester.crash1 i cfg = Val cfg' -> crashed i cfg cfg'.
Proof.
  intros Hw Hls Hlr Hcr. destruct (RaftTester.crash1_wired raft_methods _ _ _ Hw Hcr) as (Hw' & Hnc & Hen & Hn).
  unfold RaftTester.crash1 in Hcr. apply bind_val in Hcr as (cfg1 & Hd & Hcr).
  apply bind_val in Hcr as (sv & Hsv%go_index_of_nat & (cfg3 & H3 & (rf & Hrf%go_index_of_nat & (cfg4 & H4 & (sv' & Hsv'%go_index_of_nat & H5)%bind_val)%bind_val)%bind_val)%bind_val).
  pose proof (crash1_first _ _ _ _ _ Hd Hsv H3) as [C1 C2 C3 C4 C5 C6 C7 C8]. clear Hd Hsv H3 cfg1.
  assert (exists l, cfg4 = RaftTester.with_rafts (<[i := None]> (rafts cfg)) (RaftTester.with_instances l cfg3) /\
    in_persister <$> l = in_persister <$> instances cfg /\ forall a, rafts cfg !! i <> Some (Some a) -> l !! a = instances cfg !! a)
    as (l & -> & Hl & Hla).
  { rewrite C5 in Hrf. destruct rf as [a|].
    - apply bind_val in H4 as (c4 & (ins & rf & Hi & ->)%kill_section & [= <-]). rewrite C6 in Hi.
      eexists. split; [simpl; by rewrite C5|]. rewrite C6. split.
      + rewrite list_fmap_insert. apply list_insert_id. by rewrite list_lookup_fmap, Hi.
      + intros a' Ha'. apply list_lookup_insert_ne. congruence.
    - injection H4 as <-. exists (instances cfg). rewrite list_insert_id by done. rewrite <- C5, <- C6. split_and!; [by destruct cfg3|done|done]. }
  simpl in Hsv'. assert (i < length (RaftTester.saved cfg))%nat as Hi by (apply lookup_lt_Some in Hrf; rewrite C5 in Hrf; lia).
  destruct (saved_at cfg i) as [[p|]|] eqn:Hs.
  - destruct C8 as (ps & Hps & Ep & Es). rewrite Es, list_lookup_insert_eq in Hsv' by done. injection Hsv' as <-.
    apply bind_val in H5 as (ps' & Hps'%of_option_val & [= <-]). simpl in Hps'.
    rewrite Ep, lookup_app_r, Nat.sub_diag in Hps' by lia. injection Hps' as <-.
    constructor; simpl; try done; rewrite ?Ep, ?Es, ?length_insert; try done.
    + exists ([ps] ++ [mkPersister (raftstate ps) []]). by rewrite app_assoc.
    + intros j Hj. by rewrite !list_lookup_insert_ne.
    + rewrite Hs. exists ps, (length (persisters cfg ++ [ps])). split_and!; [done|apply list_lookup_insert_eq; by rewrite length_insert|rewrite length_app; lia|].
      by rewrite lookup_app_r, Nat.sub_diag.
  - destruct C8 as [Ep Es]. rewrite Es, Hs in Hsv'. injection Hsv' as <-. injection H5 as <-.
    constructor; simpl; try done; rewrite ?Es, ?Hs; try done. exists []. by rewrite app_nil_r.
  - apply lookup_ge_None in Hs. lia.
Qed.

Lemma crashed_raft i cfg cfg' j a :
  crashed i cfg cfg' -> rafts cfg' !! j = Some (Some a) -> j <> i /\ rafts cfg !! j = Some (Some a).
Proof. intros Hc. rewrite (cr_rafts _ _ _ Hc), list_lookup_insert_Some. naive_solver. Qed.

Lemma crashed_books i cfg cfg' ends : books cfg ends -> crashed i cfg cfg' -> books cfg' ends.
Proof.
  intros [] Hcr. pose proof (crashed_raft i cfg cfg') as Hra. pose proof Hcr as []. destruct cr_old0 as [l Ep].
  pose proof (fmap_length_eq _ _ _ cr_addresses0) as El.
  constructor; rewrite ?cr_n0, ?cr_servers0, ?El, ?cr_len0; try done.
  - by rewrite cr_rafts0, length_insert.
  - intros a a' ins ins' Ha Ha' E. simpl in *. destruct (fmap_lookup _ _ _ _ _ cr_addresses0 Ha) as (y & Hy & Ey).
    destruct (fmap_lookup _ _ _ _ _ cr_addresses0 Ha') as (y' & Hy' & Ey'). by eapply bk_disj0; [exact Hy|exact Hy'|congruence].
  - intros a ins Ha. destruct (fmap_lookup _ _ _ _ _ cr_addresses0 Ha) as (y & Hy & <-).
    rewrite Ep, length_app. apply bk_alloc0 in Hy. lia.
  - intros j Hj. destruct (cr_conn0 j Hj) as [Hne Hj']. rewrite cr_rafts0, list_lookup_insert_ne by done. by apply bk_conn0.
  - intros x a. unfold Labrpc.server_at. rewrite cr_at0. destruct (decide (x = IInt (Z.of_nat i))) as [->|Hne].
    + rewrite lookup_insert_eq. split; [done|]. intros (j & [= <-%Nat2Z.inj] & Hj). by destruct (Hra i a Hcr Hj).
    + rewrite lookup_insert_ne by done. rewrite (bk_at0 x a). rewrite cr_rafts0.
      split; intros (j & -> & Hj); exists j; (split; [done|]); rewrite list_lookup_insert_ne in *; congruence.
  - intros j a Hj. destruct (Hra j a Hcr Hj) as [Hne Hj']. destruct (bk_up0 j a Hj') as (ins & names & Ha & Hsv & He & Hn).
    destruct (fmap_lookup _ _ _ a ins (eq_sym cr_addresses0) Ha) as (y & Hy & Ey). exists y, names.
    by rewrite cr_saved0, cr_names0, Ey.
  - intros j p Hj Hsv. destruct (decide (j = i)) as [->|Hne].
    + destruct (saved_at cfg i) as [[p0|]|]; [|congruence..]. destruct cr_copy0 as (ps & p' & _ & Hs' & Hge & Hp').
      rewrite Hsv in Hs'. injection Hs' as <-. split; [by eapply lookup_lt_Some|].
      intros a ins Ha. destruct (fmap_lookup _ _ _ _ _ cr_addresses0 Ha) as (y & Hy & <-). apply bk_alloc0 in Hy. lia.
    + rewrite cr_saved0 in Hsv by done. rewrite cr_rafts0, list_lookup_insert_ne in Hj by done.
      destruct (bk_down0 j p Hj Hsv) as [Hp Hno]. split; [rewrite Ep, length_app; lia|].
      intros a ins Ha. destruct (fmap_lookup _ _ _ _ _ cr_addresses0 Ha) as (y & Hy & <-). by eapply Hno.
  - intros a k names j e Ha Hj. destruct (bk_names0 a k names j e Ha Hj) as [Hin Hu]. rewrite cr_ends0. split; [done|].
    intros i' j' Hij. unfold RaftTester.name_of in Hij. rewrite cr_names0 in Hij. destruct (Hu i' j' Hij) as (-> & -> & Hcur).
    split_and!; [done|done|]. intros a' Ha'. destruct (Hra _ _ Hcr Ha') as [_ Ha2]. by apply Hcur.
Qed.

(** ** Starting *)

(** The second half of [start1], from a configuration with the new ends *)
Record booted (i : nat) (now rnd : Z) (cfg cfg' : config) (rf : Raft) (ps : Persister) : Prop := {
  bo_wiring : RaftTester.wiring cfg' = RaftTester.wiring cfg;
  bo_make : Make (RaftTester.n cfg) (Z.of_nat i) ps now rnd = Val rf;
  bo_from : match saved_at cfg i with
            | Some (Some p) => persisters cfg !! p = Some ps
            | _ => ps = MakePersister
            end;
  bo_lt : (i < length (rafts cfg))%nat;
  bo_rafts : rafts cfg' = <[i := Some (length (instances cfg))]> (rafts cfg);
  bo_saved : RaftTester.saved cfg' = <[i := Some (length (persisters cfg))]> (RaftTester.saved cfg);
  bo_persisters : persisters cfg' = persisters cfg ++ [ps];
  bo_instances : instances cfg' = instances cfg ++ [RaftTester.mkInstance rf (length (persisters cfg))];
  bo_servers : exists rs, RaftTester.servers cfg' = RaftTester.servers cfg ++ [rs] /\
    Labrpc.services rs !! "Raft" = Some (Labrpc.MakeService "Raft" (raft_methods (length (instances cfg))));
  bo_at : Labrpc.servers (net cfg') = <[IInt (Z.of_nat i) := Some (length (RaftTester.servers cfg))]> (Labrpc.servers (net cfg)) }.

Lemma boot_booted i now rnd cfg cfg' :
  RaftTester.boot raft_methods i now rnd cfg = Val cfg' -> exists rf ps, booted i now rnd cfg cfg' rf ps.
Proof.
  intros Hb. pose proof (RaftTester.boot_wiring _ _ _ _ _ _ Hb) as Hw. unfold RaftTester.boot in Hb.
  apply bind_val in Hb as (sv & Hsv%go_index_of_nat & ([p cfg1] & H1 & Hr)%bind_val).
  assert (exists ps, match sv with Some p => persisters cfg !! p = Some ps | None => ps = MakePersister end /\
    p = length (persisters cfg) /\ cfg1 = RaftTester.with_persisters (persisters cfg ++ [ps]) cfg) as (ps & Hps & -> & ->).
  { destruct sv as [q|]; [|injection H1 as <- <-; by exists MakePersister].
    apply bind_val in H1 as (ps & Hps%of_option_val & [= <- <-]). exists ps. by rewrite Copy_same. }
  simpl in Hr. rewrite lookup_app_r, Nat.sub_diag in Hr by lia. simpl in Hr.
  apply bind_val in Hr as (rf & Hmk & (rs & [Hrs ->]%go_update_val & [= <-])%bind_val). rewrite Nat2Z.id.
  exists rf, ps. constructor; try done; simpl.
  - rewrite Hsv. by destruct sv.
  - unfold len in Hrs. lia.
  - eexists. split; [done|]. apply lookup_insert_eq.
Qed.

(** A crashed server [i] starts again, with ends [names]. *)
Record started (i : nat) (names : list string) (now rnd : Z) (cfg cfg' : config) (rf : Raft) (ps : Persister) : Prop := {
  st_wired : RaftTester.wired cfg';
  st_down : rafts cfg !! i = Some None;
  st_n : RaftTester.n cfg' = RaftTester.n cfg;
  st_conn : RaftTester.connected cfg' = RaftTester.connected cfg;
  st_names : endnames cfg' = <[i := Some names]> (endnames cfg);
  st_ends : forall x, x ∈ Labrpc.ends (net cfg) \/ (exists j e, names !! j = Some e /\ x = IStr e) -> x ∈ Labrpc.ends (net cfg');
  st_fresh : forall j e, names !! j = Some e -> IStr e ∉ Labrpc.ends (net cfg);
  st_make : Make (RaftTester.n cfg) (Z.of_nat i) ps now rnd = Val rf;
  st_from : match saved_at cfg i with
            | Some (Some p) => persisters cfg !! p = Some ps
            | _ => ps = MakePersister
            end;
  st_rafts : rafts cfg' = <[i := Some (length (instances cfg))]> (rafts cfg);
  st_saved : RaftTester.saved cfg' = <[i := Some (length (persisters cfg))]> (RaftTester.saved cfg);
  st_persisters : persisters cfg' = persisters cfg ++ [ps];
  st_instances : instances cfg' = instances cfg ++ [RaftTester.mkInstance rf (length (persisters cfg))];
  st_servers : exists rs, RaftTester.servers cfg' = RaftTester.servers cfg ++ [rs] /\
    Labrpc.services rs !! "Raft" = Some (Labrpc.MakeService "Raft" (raft_methods (length (instances cfg))));
  st_at : Labrpc.servers (net cfg') = <[IInt (Z.of_nat i) := Some (length (RaftTester.servers cfg))]> (Labrpc.servers (net cfg)) }.

(** The ends a server is made with do not touch the servers. *)
Lemma made_servers (cfg cfg' : config) i :
  go_for 0 (RaftTester.n cfg) (fun j cfg =>
    e ← RaftTester.endname_at cfg i j;
    rn ← Labrpc.MakeEnd (IStr e) (net cfg);
    mret (RaftTester.with_net (Labrpc.Connect (IStr e) (IInt (Z.of_nat j)) rn) cfg)) cfg = Val cfg' ->
  Labrpc.servers (net cfg') = Labrpc.servers (net cfg).
Proof.
  intros Hr. apply (go_for_inv (fun _ c => Labrpc.servers (net c) = Labrpc.servers (net cfg))) in Hr; [done|done|].
  intros j c c' _ Hc (e & _ & (rn & Hmk & [= <-])%bind_val)%bind_val. simpl. unfold Labrpc.MakeEnd in Hmk.
  destruct (decide _); [done|]. by injection Hmk as <-.
Qed.

Lemma start1_started i rnds now rnd cfg cfg' :
  RaftTester.wired cfg -> length (RaftTester.saved cfg) = RaftTester.n cfg -> length (rafts cfg) = RaftTester.n cfg ->
  RaftTester.start1 raft_methods i rnds now rnd cfg = Val cfg' ->
  exists cfg1 names rf ps, crashed i cfg cfg1 /\ started i names now rnd cfg1 cfg' rf ps.
Proof.
  intros Hw Hls Hlr Hst. pose proof (RaftTester.start1_wired _ _ _ _ _ _ _ Hw Hst) as Hw'. unfold RaftTester.start1 in Hst.
  apply bind_val in Hst as (cfg1 & H1 & (names & Hnm & (eps & [Hi ->]%go_update_val & (cfg3 & H3 & Hr)%bind_val)%bind_val)%bind_val).
  pose proof (crash1_crashed _ _ _ Hw Hls Hlr H1) as Hcr. rewrite Nat2Z.id in H3. unfold len in Hi.
  pose proof (RaftTester.fresh_names_length _ _ _ Hnm) as Hlen.
  pose proof (made_servers _ _ _ H3) as Hat. simpl in Hat.
  apply (RaftTester.make_ends raft_methods _ names i) in H3; [|simpl; apply list_lookup_insert_eq; lia].
  destruct (RaftTester.md_net _ _ _ _ H3) as [rn ->].
  destruct (boot_booted _ _ _ _ _ Hr) as (rf & ps & []). injection bo_wiring0 as E1 E2 E3 E4 E5 E6. simpl in *.
  exists cfg1, names, rf, ps. split; [done|]. constructor; try done.
  - rewrite (cr_rafts _ _ _ Hcr) in *. apply list_lookup_insert_eq. by rewrite length_insert in bo_lt0.
  - intros x Hx. rewrite E4. apply (RaftTester.md_ends _ _ _ _ H3). destruct Hx as [?|(j & e & He & ->)]; [by left|right].
    exists j, e. split_and!; [|done|done]. apply lookup_lt_Some in He. simpl. lia.
  - intros j e He. apply (RaftTester.md_fresh _ _ _ _ H3 j e); [|done]. apply lookup_lt_Some in He. simpl. lia.
  - by rewrite bo_at0, Hat.
Qed.

Section Started.
Context (i : nat) (names : list string) (now rnd : Z) (cfg cfg' : config) (rf : Raft) (ps : Persister) (ends : list (nat * list string)).
Context (Hb : books cfg ends) (Hst : started i names now rnd cfg cfg' rf ps) (Hnc : ~ is_connected cfg i).

Lemma started_lt : (i < RaftTester.n cfg)%nat.
Proof. rewrite <- (bk_rafts _ _ Hb). eapply lookup_lt_Some, Hst. Qed.

Lemma started_raft j a :
  rafts cfg' !! j = Some (Some a) <-> j = i /\ a = length (instances cfg) \/ j <> i /\ rafts cfg !! j = Some (Some a).
Proof.
  pose proof started_lt as Hi. rewrite <- (bk_rafts _ _ Hb) in Hi. rewrite (st_rafts _ _ _ _ _ _ _ _ Hst), list_lookup_insert_Some. naive_solver.
Qed.

Lemma started_instance a ins :
  instances cfg' !! a = Some ins <->
  instances cfg !! a = Some ins \/ a = length (instances cfg) /\ ins = RaftTester.mkInstance rf (length (persisters cfg)).
Proof. rewrite (st_instances _ _ _ _ _ _ _ _ Hst), lookup_snoc_Some. split; [naive_solver|]. intros [Ha|Ha]; [left|naive_solver]. split; [by eapply lookup_lt_Some|done]. Qed.

Lemma started_name j k e :
  RaftTester.name_of cfg' j k = Some e <-> j = i /\ names !! k = Some e \/ j <> i /\ RaftTester.name_of cfg j k = Some e.
Proof.
  unfold RaftTester.name_of. rewrite (st_names _ _ _ _ _ _ _ _ Hst). destruct (decide (j = i)) as [->|Hne].
  - rewrite list_lookup_insert_eq by (rewrite (RaftTester.w_endnames _ (bk_wired _ _ Hb)); apply started_lt). simpl. naive_solver.
  - rewrite list_lookup_insert_ne by done. naive_solver.
Qed.

Lemma started_disjoint : disjoint_heap (heap_of cfg').
Proof.
  intros a a' ins ins' Ha%started_instance Ha'%started_instance E. simpl in *.
  destruct Ha as [Ha|[-> ->]], Ha' as [Ha'|[-> ->]]; simpl in *; [by eapply (bk_disj _ _ Hb)| | |done].
  - apply (bk_alloc _ _ Hb) in Ha. lia.
  - apply (bk_alloc _ _ Hb) in Ha'. lia.
Qed.

Lemma started_at x a :
  Labrpc.server_at (net cfg') x = Some a <-> exists j, x = IInt (Z.of_nat j) /\ rafts cfg' !! j = Some (Some a).
Proof.
  setoid_rewrite started_raft. unfold Labrpc.server_at. rewrite (st_at _ _ _ _ _ _ _ _ Hst).
  destruct (decide (x = IInt (Z.of_nat i))) as [->|Hne].
  - rewrite lookup_insert_eq. simpl. rewrite (bk_servers _ _ Hb). split.
    + intros [= <-]. exists i. split; [done|]. by left.
    + intros (j & [= <-%Nat2Z.inj] & [[_ ->]|[? _]]); done.
  - rewrite lookup_insert_ne by done. split.
    + intros (j & -> & Hj)%(bk_at _ _ Hb). exists j. split; [done|]. right. split; [by intros ->|done].
    + intros (j & -> & [[-> _]|[_ Hj]]); [done|]. apply (bk_at _ _ Hb). by exists j.
Qed.

Lemma started_up j a : rafts cfg' !! j = Some (Some a) -> exists ins nm,
  instances cfg' !! a = Some ins /\ saved_at cfg' j = Some (Some (in_persister ins)) /\
  (ends ++ [(i, names)]) !! a = Some (j, nm) /\ endnames cfg' !! j = Some (Some nm).
Proof.
  rewrite started_raft, (st_saved _ _ _ _ _ _ _ _ Hst), (st_names _ _ _ _ _ _ _ _ Hst). pose proof started_lt as Hi.
  intros [[-> ->]|[Hne Hj]].
  - exists (RaftTester.mkInstance rf (length (persisters cfg))), names. split_and!.
    + apply started_instance. by right.
    + apply list_lookup_insert_eq. by rewrite (bk_saved _ _ Hb).
    + by rewrite <- (bk_ends_len _ _ Hb), lookup_app_r, Nat.sub_diag.
    + apply list_lookup_insert_eq. by rewrite (RaftTester.w_endnames _ (bk_wired _ _ Hb)).
  - destruct (bk_up _ _ Hb j a Hj) as (ins & nm & Ha & Hsv & He & Hn). exists ins, nm. rewrite !list_lookup_insert_ne by done.
    split_and!; [apply started_instance; by left|done|by apply lookup_app_l_Some|done].
Qed.

Lemma started_names a k nm j e :
  (ends ++ [(i, names)]) !! a = Some (k, nm) -> nm !! j = Some e ->
  IStr e ∈ Labrpc.ends (net cfg') /\
  forall i' j', RaftTester.name_of cfg' i' j' = Some e -> i' = k /\ j' = j /\
    forall a', rafts cfg' !! i' = Some (Some a') -> a' = a.
Proof.
  intros Ha Hj. apply lookup_snoc_Some in Ha as [[Hlt Ha]|[-> [= <- <-]]].
  - destruct (bk_names _ _ Hb a k nm j e Ha Hj) as [Hin Hu]. split; [apply (st_ends _ _ _ _ _ _ _ _ Hst); by left|].
    intros i' j' [[-> Hn]|[Hne Hn]]%started_name; [by destruct (st_fresh _ _ _ _ _ _ _ _ Hst j' e Hn)|].
    destruct (Hu i' j' Hn) as (-> & -> & Hcur). split_and!; [done|done|].
    intros a' [[-> _]|[_ Ha']]%started_raft; [done|by apply Hcur].
  - split; [apply (st_ends _ _ _ _ _ _ _ _ Hst); right; by exists j, e|]. intros i' j' Hn.
    assert (RaftTester.name_of cfg' i j = Some e) as Hkj by (apply started_name; by left).
    destruct (RaftTester.w_inj _ (st_wired _ _ _ _ _ _ _ _ Hst) _ _ _ _ _ Hn Hkj) as [-> ->]. split_and!; [done|done|].
    intros a' [[_ ->]|[? _]]%started_raft; [by rewrite (bk_ends_len _ _ Hb)|done].
Qed.

Lemma started_books : books cfg' (ends ++ [(i, names)]).
Proof.
  pose proof started_up as Hup. pose proof started_names as Hnm. pose proof started_at as Hat. pose proof started_disjoint as Hdis.
  pose proof started_instance as Hins. pose proof started_raft as Hra. pose proof started_lt as Hi.
  destruct Hst, Hb. destruct st_servers0 as (rs & Es & Hrs). constructor; try done.
  - by rewrite st_rafts0, length_insert, st_n0.
  - by rewrite st_saved0, length_insert, st_n0.
  - rewrite st_instances0, !length_app. simpl. lia.
  - rewrite st_instances0, Es, !length_app. simpl. lia.
  - intros a ins Ha. rewrite st_persisters0, length_app. simpl. apply Hins in Ha as [Ha|[-> ->]]; simpl; [apply bk_alloc0 in Ha|]; lia.
  - rewrite Es. intros a rs' [[_ Ha]|[-> <-]]%lookup_snoc_Some; [by apply bk_service0|]. by rewrite bk_servers0.
  - intros j Hj. unfold RaftTester.is_connected in *. rewrite st_conn0 in Hj. destruct (bk_conn0 j Hj) as [a Ha]. exists a.
    apply Hra. right. split; [by intros ->|done].
  - rewrite st_rafts0, st_saved0, st_persisters0, length_app. intros j p Hj Hsv. destruct (decide (j = i)) as [->|Hne].
    { rewrite list_lookup_insert_eq in Hj by lia. done. }
    rewrite list_lookup_insert_ne in Hj by done. rewrite list_lookup_insert_ne in Hsv by done.
    destruct (bk_down0 j p Hj Hsv) as [Hp Hno]. split; [simpl; lia|].
    intros a ins [Ha|[-> ->]]%Hins; [by eapply Hno|simpl; lia].
Qed.

Lemma started_node a rf0 : node_in (heap_of cfg) a = Some rf0 -> node_in (heap_of cfg') a = Some rf0.
Proof.
  intros (ins & Ha & Hp & E)%persister_node. unfold node_in, heap_of. simpl in *.
  rewrite (st_instances _ _ _ _ _ _ _ _ Hst), (st_persisters _ _ _ _ _ _ _ _ Hst).
  rewrite (lookup_app_l_Some _ _ _ _ Ha). simpl. rewrite (lookup_app_l_Some _ _ _ _ Hp). simpl. by rewrite <- E.
Qed.

Lemma started_new : node_in (heap_of cfg') (length (instances cfg)) = Some rf.
Proof.
  unfold node_in, heap_of. simpl. rewrite (st_instances _ _ _ _ _ _ _ _ Hst), (st_persisters _ _ _ _ _ _ _ _ Hst).
  rewrite lookup_app_r, Nat.sub_diag by done. simpl. rewrite lookup_app_r, Nat.sub_diag by done. simpl.
  rewrite <- (Make_keeps _ _ _ _ _ _ (st_make _ _ _ _ _ _ _ _ Hst)). by rewrite set_persister_id.
Qed.

End Started.

(** ** The relation *)

Lemma sim_rewired n s (c : Cluster) ep tm qm cfg' :
  sim n s c ep tm qm -> rewired (s_cfg s) cfg' -> books cfg' (ends_of s) -> sim n (with_cfg cfg' s) c ep tm qm.
Proof.
  intros [] [] Hb. assert (same_view s (with_cfg cfg' s)) as Hv by (by constructor).
  constructor; try done; simpl; [by rewrite rw_n0| | | |by apply (req_same s _ c _ qm Hv)].
  - intros i a. unfold current. simpl. rewrite rw_rafts0. intros Hc. destruct (sm_up0 i a Hc) as (e & He & Hr). exists e. split; [done|].
    unfold runs, node_at in *. simpl. by rewrite rw_heap0.
  - rewrite rw_rafts0. intros i Hi. destruct (sm_down0 i Hi) as (rf & p & Hd). exists rf, p. simpl. rewrite rw_saved0.
    injection rw_heap0 as _ Ep. by rewrite Ep.
  - intros k g a i Hk Ha. unfold current. simpl. rewrite rw_rafts0. intros Hc.
    destruct (sm_thr0 k g a i Hk Ha Hc) as (x & e & Hx & He & Hr). exists x, e. split_and!; [done|done|]. by eapply thr_frame.
Qed.

(** A server that has been started and does not run is down in the relation; so is one that is crashed now. *)
Lemma known_saved n s (c : Cluster) ep tm qm i :
  sim n s c ep tm qm -> (i < n)%nat -> terms_small c ->
  exists rf p, nodes c !! i = Some rf /\ saved_at (s_cfg s) i = Some (Some p) /\
    persisters (s_cfg s) !! p = Some (persister rf) /\ snapshot (persister rf) = [] /\ currentTerm rf < max_int.
Proof.
  intros Hs Hi Hsm. destruct (rafts (s_cfg s) !! i) as [[a|]|] eqn:Hr.
  - destruct (sm_up _ _ _ _ _ _ Hs i a Hr) as (e & _ & rf & pr & ms & H1 & _ & H3 & H4 & _).
    destruct (bk_up _ _ (sm_books _ _ _ _ _ _ Hs) _ _ Hr) as (ins & nm & Ha & Hsv & _).
    apply persister_node in H1 as (ins' & Ha' & Hp & _). simpl in *. rewrite Ha in Ha'. injection Ha' as <-.
    exists rf, (in_persister ins). split_and!; try done. by eapply (Forall_lookup_1 _ _ _ _ Hsm).
  - by apply (sm_down _ _ _ _ _ _ Hs).
  - apply lookup_ge_None in Hr. rewrite (bk_rafts _ _ (sm_books _ _ _ _ _ _ Hs)), (sm_n _ _ _ _ _ _ Hs) in Hr. lia.
Qed.

Lemma crashed_node i a cfg cfg' rf :
  crashed i cfg cfg' -> rafts cfg !! i <> Some (Some a) -> node_in (heap_of cfg) a = Some rf -> node_in (heap_of cfg') a = Some rf.
Proof.
  intros Hcr Hne. unfold node_in. simpl. rewrite (cr_others _ _ _ Hcr a Hne). destruct (instances cfg !! a) as [ins|]; [|done]. simpl.
  destruct (cr_old _ _ _ Hcr) as [l ->]. destruct (persisters cfg !! in_persister ins) as [ps|] eqn:Hp; [|done].
  by rewrite (lookup_app_l_Some _ _ _ _ Hp).
Qed.

Lemma sim_crashed n s (c : Cluster) ep tm qm i cfg' :
  sim n s c ep tm qm -> terms_small c -> (i < n)%nat -> crashed i (s_cfg s) cfg' -> sim n (with_cfg cfg' s) c ep tm qm.
Proof.
  intros Hs Hsm Hi Hcr. destruct (known_saved _ _ _ _ _ _ i Hs Hi Hsm) as (rfi & pi & Hni & Hsvi & Hpsi & Hsni & Hti). pose proof Hs as [].
  assert (fewer s (with_cfg cfg' s)) as Hv by (constructor; [done|]; intros j a Hj; by apply (crashed_raft i _ cfg')).
  constructor; try done; simpl.
  - by eapply crashed_books.
  - by rewrite (cr_n _ _ _ Hcr).
  - intros j a Hj. destruct (crashed_raft i _ cfg' j a Hcr Hj) as [Hne Hj']. destruct (sm_up0 j a Hj') as (e & He & rf & pr & ms & H1 & H2).
    exists e. split; [done|]. exists rf, pr, ms. split; [|done]. eapply crashed_node; [done| |done].
    intros Ha. apply Hne. by eapply (current_inj s).
  - intros j Hj. destruct (decide (j = i)) as [->|Hne].
    + pose proof (cr_copy _ _ _ Hcr) as Hcp. rewrite Hsvi in Hcp. destruct Hcp as (ps & p' & Hps & Hsv' & _ & Hp').
      rewrite Hpsi in Hps. injection Hps as <-. exists rfi, p'. split_and!; try done. simpl. rewrite Hp'.
      destruct (persister rfi) as [st sn]. simpl in *. by rewrite Hsni.
    + rewrite (cr_rafts _ _ _ Hcr), list_lookup_insert_ne in Hj by done. destruct (sm_down0 j Hj) as (rf & p & H1 & H2 & H3 & H4).
      exists rf, p. simpl. rewrite (cr_saved _ _ _ Hcr) by done. destruct (cr_old _ _ _ Hcr) as [l ->].
      by rewrite (lookup_app_l_Some _ _ _ _ H3).
  - intros k g a j Hk Ha Hj. apply (fw_current _ _ Hv) in Hj. destruct (sm_thr0 k g a j Hk Ha Hj) as (x & e & Hx & He & Hr).
    exists x, e. split_and!; [done|done|]. by eapply thr_fewer.
  - intros q r Hr. destruct (sm_req0 q r Hr) as (a & i0 & nm & j & e & Hrel). exists a, i0, nm, j, e. by eapply req_fewer.
Qed.

(** Goroutines belong to servers that have been started. *)
Definition placed (s : Sys) : Prop :=
  forall k g a, s_threads s !! k = Some g -> address g = Some a -> (a < length (s_procs s))%nat.

Section Grown.
Context (n : nat) (s : Sys) (c : Cluster) (ep : list nat) (tm qm : gmap nat nat).
Context (i : nat) (names : list string) (now rnd : Z) (cfg' : config) (rf : Raft) (ps : Persister).
Context (Hok : cluster_ok n c) (Hs : sim n s c ep tm qm) (Hpl : placed s).
Context (Hst : started i names now rnd (s_cfg s) cfg' rf ps) (Hnc : ~ is_connected (s_cfg s) i).

Let s' : Sys := mkSys cfg' (s_procs s ++ [mkProc i names PTop []]) (s_threads s) (s_reqs s).

Lemma procs_instances : length (s_procs s) = length (instances (s_cfg s)).
Proof. rewrite <- (bk_ends_len _ _ (sm_books _ _ _ _ _ _ Hs)). unfold ends_of. by rewrite length_fmap. Qed.

Lemma grown_ends : ends_of s' = ends_of s ++ [(i, names)].
Proof. unfold ends_of. simpl. by rewrite fmap_app. Qed.

Lemma grown_current j a : current s' j a <-> j = i /\ a = length (s_procs s) \/ current s j a.
Proof.
  unfold current. simpl. rewrite (started_raft i names now rnd (s_cfg s) cfg' rf ps (ends_of s) (sm_books _ _ _ _ _ _ Hs) Hst Hnc), procs_instances.
  split; [naive_solver|]. intros [?|Hj]; [by left|right]. split; [|done]. intros ->. rewrite (st_down _ _ _ _ _ _ _ _ Hst) in Hj. done.
Qed.

Lemma grown_old j a : (a < length (s_procs s))%nat -> current s' j a -> current s j a.
Proof. intros Ha [[_ ->]|?]%grown_current; [lia|done]. Qed.

Lemma ends_procs a x : ends_of s !! a = Some x -> (a < length (s_procs s))%nat.
Proof. intros H%lookup_lt_Some. unfold ends_of in H. by rewrite length_fmap in H. Qed.

Lemma grown_given j r : given_to s j r -> given_to s' j r.
Proof.
  assert (forall a, address_of s j a -> address_of s' j a) as Ha.
  { intros a [nm Hnm]. exists nm. rewrite grown_ends. by apply lookup_app_l_Some. }
  intros [H1 H2 H3]. constructor; [done| |].
  - intros inf Hinf. destruct (H2 inf Hinf) as [? ?]. auto.
  - intros a' Ha'. destruct (H3 a' Ha') as [? ?]. auto.
Qed.

Lemma grown_doomed j r : given_to s j r -> doomed s r -> doomed s' r.
Proof.
  intros [_ Hgi _]. unfold doomed. destruct (Labrpc.rq_stage r) as [| | |inf|inf [b|]| |[] b]; try done;
    intros Hn k Hk; (destruct (Hgi inf eq_refl) as [_ [nm Hnm]]); apply (Hn k);
    (eapply grown_old; [by eapply ends_procs|done]).
Qed.

Lemma grown_may_run a r : (a < length (s_procs s))%nat -> may_run s' a r -> may_run s a r.
Proof.
  intros Ha. unfold may_run. destruct (Labrpc.rq_handler r); try done. destruct (Labrpc.rq_stage r); try done.
  intros [k Hk]. exists k. by eapply grown_old.
Qed.

Lemma grown_thr (c' : Cluster) x j e a g :
  threads c' = threads c -> (a < length (s_procs s))%nat -> thr_rel s c qm x j e a g -> thr_rel s' c' qm x j e a g.
Proof.
  intros Et Ha. unfold thr_rel. rewrite Et. destruct (waits_for g) as [q|]; [|done]. intros (r & Hr & Hq & Hh). exists r. split_and!; [done|done|].
  destruct (sm_req _ _ _ _ _ _ Hs q r Hr) as (a0 & i0 & nm & j0 & e0 & Hrel).
  destruct (Labrpc.rq_handler r) as [| |b]; [by intros ?%grown_may_run; auto..|].
  destruct Hh as [?|?]; [by left|right]. eapply grown_doomed; [apply Hrel|done].
Qed.

Lemma grown_req (c' : Cluster) q r a k nm j e :
  threads c' = threads c -> req_rel s c qm q r a k nm j e -> req_rel s' c' qm q r a k nm j e.
Proof.
  intros Et [H1 H2 H3 H4 H5]. constructor; try done.
  - rewrite grown_ends. by apply lookup_app_l_Some.
  - by apply grown_given.
  - intros Hm%grown_may_run; [|by eapply ends_procs]. rewrite Et. by apply H5.
Qed.

Lemma grown_node a rf0 : node_at s a = Some rf0 -> node_at s' a = Some rf0.
Proof. by apply (started_node i names now rnd (s_cfg s) cfg' rf ps). Qed.

Lemma grown_new : node_at s' (length (s_procs s)) = Some rf.
Proof. rewrite procs_instances. by apply (started_new i names now rnd (s_cfg s) cfg' rf ps). Qed.

(** The running servers and the crashed ones afterwards, when the cluster has restarted server [i] *)
Lemma grown_up (c' : Cluster) e ms j a :
  nodes c' = <[i := rf]> (nodes c) -> pcs c' = <[i := PTop]> (pcs c) -> epochs c' = alter S i (epochs c) -> applied c' = applied c ->
  (i < n)%nat -> epochs c !! i = Some e -> applied c !! i = Some ms -> snapshot (persister rf) = [] ->
  current s' j a -> exists e', (ep ++ [S e]) !! a = Some e' /\ runs s' c' j a e'.
Proof.
  intros En Epc Ee Ea Hi He Hms Hsn. unfold runs. rewrite En, Epc, Ee, Ea. intros [[-> ->]|Hj]%grown_current.
  - exists (S e). rewrite <- (sm_ep _ _ _ _ _ _ Hs), lookup_app_r, Nat.sub_diag by lia. split; [done|].
    exists rf, (mkProc i names PTop []), ms. rewrite (sm_ep _ _ _ _ _ _ Hs). simpl. rewrite list_lookup_alter_eq, He.
    split_and!; try done; [apply grown_new|by rewrite lookup_app_r, Nat.sub_diag|..].
    + apply list_lookup_insert_eq. by rewrite (co_nodes _ _ Hok).
    + apply list_lookup_insert_eq. by rewrite (co_pcs _ _ Hok).
    + apply suffix_nil.
  - assert (j <> i) as Hne by (intros ->; unfold current in Hj; rewrite (st_down _ _ _ _ _ _ _ _ Hst) in Hj; done).
    destruct (sm_up _ _ _ _ _ _ Hs j a Hj) as (e' & He' & rf' & pr & ms' & H1 & H2 & H3 & H4 & H5 & H6 & H7 & H8).
    exists e'. split; [by apply lookup_app_l_Some|]. exists rf', pr, ms'. simpl.
    rewrite !list_lookup_insert_ne, list_lookup_alter_ne by done.
    split_and!; try done; [by apply grown_node|by apply lookup_app_l_Some].
Qed.

Lemma grown_down (c' : Cluster) j :
  nodes c' = <[i := rf]> (nodes c) -> (i < n)%nat -> rafts cfg' !! j = Some None -> down s' c' j.
Proof.
  intros En Hi. unfold down. rewrite En, (st_rafts _ _ _ _ _ _ _ _ Hst). intros Hj. destruct (decide (j = i)) as [->|Hne].
  { rewrite list_lookup_insert_eq in Hj; [done|]. by rewrite (bk_rafts _ _ (sm_books _ _ _ _ _ _ Hs)), (sm_n _ _ _ _ _ _ Hs). }
  rewrite list_lookup_insert_ne in Hj by done. destruct (sm_down _ _ _ _ _ _ Hs j Hj) as (rf' & p' & H1 & H2 & H3 & H4).
  exists rf', p'. simpl. rewrite (st_saved _ _ _ _ _ _ _ _ Hst), (st_persisters _ _ _ _ _ _ _ _ Hst), !list_lookup_insert_ne by done.
  by rewrite (lookup_app_l_Some _ _ _ _ H3).
Qed.

Lemma sim_started : exists c' ep', step c (LCrash i now rnd) = Val c' /\ sim n s' c' ep' tm qm.
Proof.
  pose proof (sm_books _ _ _ _ _ _ Hs) as Hb. pose proof (sm_n _ _ _ _ _ _ Hs) as En.
  assert (i < n)%nat as Hi by (rewrite <- En; by eapply (started_lt i names now rnd (s_cfg s))).
  destruct (sm_down _ _ _ _ _ _ Hs i (st_down _ _ _ _ _ _ _ _ Hst)) as (rf0 & p & Hn0 & Hsv & Hp & Hsn & Ht).
  destruct (co_node _ _ Hok _ _ Hn0) as [Hnp Hme _ _ _ _ _ _ _ _].
  pose proof (st_from _ _ _ _ _ _ _ _ Hst) as Hfrom. rewrite Hsv, Hp in Hfrom. injection Hfrom as Hfrom.
  pose proof (st_make _ _ _ _ _ _ _ _ Hst) as Hmk. rewrite En, <- Hfrom in Hmk.
  destruct (lookup_lt_is_Some_2 (epochs c) i) as [e He]; [by rewrite (co_epochs _ _ Hok)|].
  destruct (lookup_lt_is_Some_2 (applied c) i) as [ms Hms]; [by rewrite (co_applied _ _ Hok)|].
  eexists _, (ep ++ [S e]). simpl. rewrite Hn0. rewrite Hnp, Hme, Hmk. split; [done|].
  constructor; simpl; try (by apply Hs).
  - rewrite grown_ends. by apply (started_books i names now rnd (s_cfg s) cfg' rf ps).
  - by rewrite (st_n _ _ _ _ _ _ _ _ Hst).
  - rewrite !length_app. simpl. by rewrite (sm_ep _ _ _ _ _ _ Hs).
  - intros j a. eapply (grown_up _ e ms); try done. by rewrite (Make_keeps _ _ _ _ _ _ Hmk).
  - intros j. by eapply grown_down.
  - intros k g a j Hk Ha Hj%grown_old; [|by eapply Hpl].
    destruct (sm_thr _ _ _ _ _ _ Hs k g a j Hk Ha Hj) as (x & e' & Hx & He' & Hr). exists x, e'.
    split_and!; [done|by apply lookup_app_l_Some|]. apply grown_thr; [done|by eapply Hpl|done].
  - intros q r Hr. destruct (sm_req _ _ _ _ _ _ Hs q r Hr) as (a & k & nm & j & e' & Hrel). exists a, k, nm, j, e'. by apply grown_req.
Qed.

End Grown.

Lemma crash1_lt i (cfg cfg' : config) : RaftTester.wired cfg -> RaftTester.crash1 i cfg = Val cfg' -> (i < RaftTester.n cfg)%nat.
Proof.
  intros Hw (cfg1 & [Hi _]%RaftTester.disconnect_spec & _)%bind_val. by rewrite (RaftTester.w_connected _ Hw) in Hi.
Qed.

Lemma op_sim n s c ep tm qm o s' :
  cluster_ok n c -> terms_small c -> sim n s c ep tm qm -> placed s -> allowed s (STester o) -> sstep s (STester o) = Val s' ->
  exists c' ep', follows s (STester o) c c' /\ sim n s' c' ep' tm qm.
Proof.
  intros Hok Hsm Hs Hpl Hal. assert (follows s (STester o) c c) as Hid by (by left).
  pose proof (sm_books _ _ _ _ _ _ Hs) as Hb. pose proof (bk_wired _ _ Hb) as Hw.
  pose proof (bk_rafts _ _ Hb) as Hlr. pose proof (bk_saved _ _ Hb) as Hls.
  destruct o as [i|i|i|i rnds now rnd|yes|yes]; simpl.
  - intros (cfg & Hc & [= <-])%bind_val. exists c, ep. split; [done|].
    apply sim_rewired; [done|by apply (connect_rewired i)|by eapply connect_books].
  - intros (cfg & Hc & [= <-])%bind_val. exists c, ep. split; [done|].
    apply sim_rewired; [done|by apply (disconnect_rewired i)|by eapply disconnect_books].
  - intros (cfg & Hc & [= <-])%bind_val. exists c, ep. split; [done|].
    apply (sim_crashed _ _ _ _ _ _ i); [done|done| |by apply crash1_crashed]. rewrite <- (sm_n _ _ _ _ _ _ Hs). by eapply crash1_lt.
  - intros (cfg & Hc & [= <-])%bind_val. pose proof Hc as (cfg0 & Hcr%crash1_lt & _)%bind_val; [|done]. rewrite (sm_n _ _ _ _ _ _ Hs) in Hcr.
    destruct (start1_started _ _ _ _ _ _ Hw Hls Hlr Hc) as (cfg1 & names & rf & ps & Hcd & Hst).
    pose proof (sim_crashed _ _ _ _ _ _ i cfg1 Hs Hsm Hcr Hcd) as Hs1.
    assert (~ is_connected cfg1 i) as Hnc by (intros Hi; by destruct (cr_conn _ _ _ Hcd i Hi)).
    destruct (sim_started n (with_cfg cfg1 s) c ep tm qm i names now rnd cfg rf ps Hok Hs1 Hpl Hst Hnc) as (c' & ep' & Hstep & Hs').
    exists c', ep'. split; [right; by exists (LCrash i now rnd)|].
    assert (names_of cfg i = names) as ->; [|exact Hs'].
    unfold names_of. rewrite (st_names _ _ _ _ _ _ _ _ Hst), list_lookup_insert_eq; [done|].
    rewrite (cr_names _ _ _ Hcd), (RaftTester.w_endnames _ Hw). by rewrite (sm_n _ _ _ _ _ _ Hs).
  - intros [= <-]. exists c, ep. split; [done|]. apply sim_rewired; [done|done|].
    eapply rewired_books; [done|done|by eapply RaftTester.wired_wiring; [|exact Hw]|apply Hb].
  - intros [= <-]. exists c, ep. split; [done|]. apply sim_rewired; [done|done|].
    eapply rewired_books; [done|done|by eapply RaftTester.wired_wiring; [|exact Hw]|apply Hb].
Qed.

End Ops.
End RaftNetTester.
