(* ===== verification/RaftStack.v ===== *)
(** * Raft with its network and its tester

    The simulation of RaftNetSim.v, RaftNetCalls.v and RaftNetTester.v put together: from [make_config] on, whatever the
    tester does, whatever the network loses, delays or reorders, and whatever crashed servers still do, the running
    servers are those of a reachable cluster.  So what is proved of the cluster holds of the whole system:
    the invariants of its servers always, and the safety of what is applied in well-timed executions. *)

From stdpp Require Import base list gmap strings.
From Stdlib Require Import ZArith Lia Strings.Byte.
From S2P Require Import Prelude RaftNode RaftCodec RaftInv RaftCluster RaftClusterInv RaftElection RaftLogs RaftCommit RaftMachine.
From S2P Require Import Labrpc TestRand RaftTester RaftTesterCheck RaftNet RaftNetSim RaftNetCalls RaftNetTester.
Import RaftNode RaftInv RaftCluster RaftClusterInv RaftNet RaftNetSim RaftNetCalls RaftNetTester.

Open Scope Z_scope.

Module RaftStack.

Section Stack.
Context {Cmd : Type} `{!EqDecision Cmd, !Codec Cmd, !RpcCodec Cmd, !RpcCodecLaws Cmd, !CodecLaws}.
Notation Raft := (Raft Cmd).
Notation Cluster := (@Cluster Cmd).
Notation Sys := (@Sys Cmd).
Notation slabel := (@slabel Cmd).
Notation gthread := (@gthread Cmd).
Notation config := (RaftTester.config (Cmd := Cmd) (App := @Host Cmd)).

(** ** Every step *)

Lemma placed_go (s : Sys) gs :
  placed s -> (forall g a, g ∈ gs -> address g = Some a -> (a < length (s_procs s))%nat) -> placed (go gs s).
Proof.
  intros Hp Hg k g a Hk Ha. apply lookup_app_Some in Hk as [Hk|[_ Hk]]; [by eapply Hp|]. eapply Hg; [by eapply list_elem_of_lookup_2|done].
Qed.

Lemma placed_thread (s : Sys) k g g' :
  placed s -> s_threads s !! k = Some g -> (address g' = address g \/ g' = GDone) -> placed (put_thread k g' s).
Proof.
  intros Hp Hk Hg k' g0 a Hk' Ha. apply list_lookup_insert_Some in Hk' as [(<- & <- & _)|[_ Hk']]; [|by eapply Hp].
  destruct Hg as [E|E]; [rewrite E in Ha; by eapply Hp|by subst].
Qed.

Lemma placed_same (s s' : Sys) :
  placed s -> s_threads s' = s_threads s -> (length (s_procs s) <= length (s_procs s'))%nat -> placed s'.
Proof. intros Hp Ht Hl k g a Hk Ha. rewrite Ht in Hk. pose proof (Hp _ _ _ Hk Ha). lia. Qed.

(** Goroutines are started by servers there are, and stay with them. *)
Lemma placed_step n s c ep tm qm l s' :
  sim n s c ep tm qm -> placed s -> sstep s l = Val s' -> placed s'.
Proof.
  intros Hs Hp. destruct l as [a now|k now|k sent|k|q timer r1 r2|q now|i command|o]; simpl.
  - destruct (node_at s a) as [rf|]; [|by intros [= <-]]. destruct (s_procs s !! a) as [pr|] eqn:Hpr; [|by intros [= <-]].
    intros ([[rf' p] gs] & Ht & [= <-])%bind_val. apply placed_go.
    + eapply placed_same; [exact Hp|done|simpl; by rewrite length_alter].
    + intros g a' Hg Ha'. destruct (run_turn_go _ _ _ _ _ _ _ Ht g Hg) as [Hga _]. simpl. rewrite length_alter.
      assert (a' = a) as -> by congruence. by eapply lookup_lt_Some.
  - destruct (s_threads s !! k) as [g|] eqn:Hk; [|by intros [= <-]].
    intros [[-> _]|(a & g' & ef & Ha & _ & Ha' & _ & _ & -> & _)]%thread_turn_shape; [done|].
    eapply placed_thread; [|by rewrite on_sys_threads|rewrite Ha; done].
    eapply placed_same; [exact Hp|by rewrite on_sys_threads|by destruct ef; simpl; rewrite ?length_alter].
  - destruct (s_threads s !! k) as [g|] eqn:Hk; [|by intros [= <-]]. rewrite call_turn_calls.
    destruct (calls g) as [[[[[a j] m] b] w]|] eqn:Hg; [|by intros [= <-]].
    intros (s1 & (pr & e & r & _ & _ & Hss & Ht1 & _)%send_spec & [= <-])%bind_val.
    destruct (calls_spec _ _ _ _ _ _ (length (s_reqs s)) Hg) as (Ha & _ & Ha' & _).
    eapply placed_thread; [|by rewrite Ht1|left; congruence].
    eapply placed_same; [exact Hp|done|by rewrite (ss_procs _ _ Hss)].
  - destruct (s_threads s !! k) as [g|] eqn:Hk; [|by intros [= <-]]. rewrite return_turn_waits.
    destruct (waits_for g) as [q|] eqn:Hw; simpl; [|by intros [= <-]].
    destruct (answer s q) as [[b|]|]; intros [= <-]; [| |done]; (eapply placed_thread; [done|done|]); [left|by right].
    by destruct (returned_spec g q b Hw).
  - intros (Hss & Ht & _)%process_turn_spec. eapply placed_same; [exact Hp|done|by rewrite (ss_procs _ _ Hss)].
  - intros Hn. destruct (exec_cases _ _ _ _ _ _ _ _ _ Hs Hn) as [(Hss & Ht & _)|(r & a & j & x & T & rf & rf' & b & spawn & _ & _ & [nm Hj] & _ & _ & _ & [_ Hss Ht _] & _)].
    + eapply placed_same; [exact Hp|done|by rewrite (ss_procs _ _ Hss)].
    + intros k g a' Hk Ha'. rewrite (ss_procs _ _ Hss). simpl. rewrite Ht in Hk.
      apply lookup_app_Some in Hk as [Hk|[_ Hk%list_elem_of_lookup_2]]; [by eapply Hp|].
      destruct spawn; simpl in Hk; [|set_solver]. apply list_elem_of_singleton in Hk as ->. injection Ha' as <-. by eapply ends_procs.
  - destruct (rafts (s_cfg s) !! i) as [[a|]|] eqn:Hc; simpl; [|by intros [= <-]..].
    destruct (node_at s a) as [rf|] eqn:Hrf; simpl; [|by intros [= <-]]. destruct (bool_decide _); intros [= <-]; [|done].
    apply placed_go; [done|]. intros g a' ->%list_elem_of_singleton [= <-]. eapply lookup_lt_is_Some_1, node_at_proc; done.
  - destruct o as [i|i|i|i rnds now rnd|yes|yes]; simpl;
      try (intros (cfg & _ & [= <-])%bind_val); try (intros [= <-]); (eapply placed_same; [exact Hp|done|]); simpl; rewrite ?length_app; lia.
Qed.

(** The cluster follows every step of the system. *)
Lemma sim_step n s c ep tm qm l s' :
  reachable n c -> sim n s c ep tm qm -> placed s -> allowed s l -> sstep s l = Val s' ->
  exists c' ep' tm' qm', follows s l c c' /\ sim n s' c' ep' tm' qm'.
Proof.
  intros Hr Hs Hp Hal Hst. destruct (reachable_ok n c Hr) as [Hok Hsm].
  destruct l as [a now|k now|k sent|k|q timer r1 r2|q now|i command|o].
  - destruct (run_sim _ _ _ _ _ _ _ _ _ Hok Hs Hst) as (c' & tm' & ? & ?). by exists c', ep, tm', qm.
  - destruct (thread_sim _ _ _ _ _ _ _ _ _ Hok Hs Hst) as (c' & ? & ?). by exists c', ep, tm, qm.
  - destruct (call_sim _ _ _ _ _ _ _ _ _ Hs Hst) as (qm' & ?). exists c, ep, tm, qm'. by split; [left|].
  - destruct (return_sim _ _ _ _ _ _ _ _ Hs Hst) as (qm' & ?). exists c, ep, tm, qm'. by split; [left|].
  - exists c, ep, tm, qm. split; [by left|by eapply process_sim].
  - destruct (exec_sim _ _ _ _ _ _ _ _ _ Hok Hs Hst) as (c' & tm' & ? & ?). by exists c', ep, tm', qm.
  - destruct (client_sim _ _ _ _ _ _ _ _ _ Hok Hs Hst) as (c' & tm' & ? & ?). by exists c', ep, tm', qm.
  - destruct (op_sim _ _ _ _ _ _ _ _ Hok Hsm Hs Hp Hal Hst) as (c' & ep' & ? & ?). by exists c', ep', tm, qm.
Qed.

(** No term of the system is too large: none of the cluster is. *)
Lemma sim_terms n s c ep tm qm :
  sim n s c ep tm qm -> length (nodes c) = n -> terms_below s -> terms_small c.
Proof.
  intros Hs Hlen Ht. apply Forall_lookup. intros i rf Hi.
  destruct (rafts (s_cfg s) !! i) as [[a|]|] eqn:Hr.
  - destruct (sm_up _ _ _ _ _ _ Hs i a Hr) as (e & _ & rf' & pr & ms & H1 & _ & _ & H4 & _). rewrite Hi in H4. injection H4 as <-.
    apply persister_node in H1 as (ins & Ha & _ & ->). by eapply (Forall_lookup_1 _ _ _ _ Ht).
  - destruct (sm_down _ _ _ _ _ _ Hs i Hr) as (rf' & p & H1 & _ & _ & _ & H5). by rewrite Hi in H1; injection H1 as <-.
  - apply lookup_ge_None in Hr. apply lookup_lt_Some in Hi.
    rewrite (bk_rafts _ _ (sm_books _ _ _ _ _ _ Hs)), (sm_n _ _ _ _ _ _ Hs) in Hr. lia.
Qed.

(** ** The first state *)

(** The first [k] of [n] servers have been started, at the addresses [0] to [k - 1]. *)
Record first_started (n : nat) (now rnd : nat -> Z) (k : nat) (cfg : config) : Prop := {
  fs_books : books cfg ((fun i => (i, names_of cfg i)) <$> seq 0 k);
  fs_n : RaftTester.n cfg = n;
  fs_up : forall i, (i < k)%nat -> rafts cfg !! i = Some (Some i);
  fs_not_yet : forall i, (k <= i < n)%nat -> rafts cfg !! i = Some None /\ RaftTester.saved cfg !! i = Some None;
  fs_node : forall i, (i < k)%nat -> exists rf, Make n (Z.of_nat i) MakePersister (now i) (rnd i) = Val rf /\ node_in (heap_of cfg) i = Some rf }.

Lemma blank_books (cfg : config) n now0 :
  RaftTester.wiring cfg = RaftTester.wiring (RaftTester.blank (Cmd := Cmd) (App := @Host Cmd) n now0) ->
  rafts cfg = replicate n None -> RaftTester.saved cfg = replicate n None -> instances cfg = [] -> persisters cfg = [] ->
  RaftTester.servers cfg = [] -> Labrpc.servers (net cfg) = ∅ -> books cfg [].
Proof.
  intros Hw Hr Hs Hi Hp Hsv Hat. pose proof (RaftTester.wired_wiring _ _ Hw (RaftTester.blank_wired n now0)) as Hwd.
  injection Hw as En Ec _ _ _ _.
  constructor; unfold disjoint_heap, heap_of, Labrpc.server_at; simpl; rewrite ?Hr, ?Hs, ?Hi, ?Hp, ?Hsv, ?Hat, ?En, ?length_replicate; try done.
  - intros i. unfold RaftTester.is_connected. rewrite Ec. by intros [? _]%lookup_replicate.
  - intros x a. split; [done|]. by intros (i & _ & [? _]%lookup_replicate).
  - by intros i a [? _]%lookup_replicate.
  - by intros i p _ [? _]%lookup_replicate.
Qed.

Lemma start_next n now rnd rnds k cfg cfg' :
  (k < n)%nat -> first_started n now rnd k cfg -> RaftTester.start1 raft_methods k rnds (now k) (rnd k) cfg = Val cfg' ->
  first_started n now rnd (S k) cfg'.
Proof.
  intros Hk [Hb Hn Hup Hny Hnode] Hst. destruct (Hny k) as [Hrk Hsk]; [lia|].
  destruct (start1_started k rnds (now k) (rnd k) cfg cfg' (bk_wired _ _ Hb) (bk_saved _ _ Hb) (bk_rafts _ _ Hb) Hst)
    as (cfg1 & names & rf & ps & Hcr & Hs1).
  pose proof (crashed_books _ _ _ _ Hb Hcr) as Hb1.
  assert (~ is_connected cfg1 k) as Hnc by (intros Hc; by destruct (cr_conn _ _ _ Hcr k Hc)).
  pose proof (started_books _ _ _ _ _ _ _ _ _ Hb1 Hs1 Hnc) as Hb2.
  assert (length (instances cfg1) = k) as Hlen.
  { rewrite (fmap_length_eq _ _ _ (cr_addresses _ _ _ Hcr)), <- (bk_ends_len _ _ Hb). by rewrite length_fmap, length_seq. }
  assert (ps = MakePersister) as ->.
  { pose proof (st_from _ _ _ _ _ _ _ _ Hs1) as Hf. pose proof (cr_copy _ _ _ Hcr) as Hc. rewrite Hsk in Hc. by rewrite Hc in Hf. }
  constructor.
  - replace ((fun i => (i, names_of cfg' i)) <$> seq 0 (S k)) with (((fun i => (i, names_of cfg i)) <$> seq 0 k) ++ [(k, names)]); [done|].
    rewrite seq_S, fmap_app. simpl. f_equal; [|].
    + apply list_fmap_ext. intros j i [-> Hj]%lookup_seq. simpl. unfold names_of.
      rewrite (st_names _ _ _ _ _ _ _ _ Hs1), (cr_names _ _ _ Hcr), list_lookup_insert_ne by lia. done.
    + unfold names_of. rewrite (st_names _ _ _ _ _ _ _ _ Hs1), list_lookup_insert_eq; [done|].
      rewrite (RaftTester.w_endnames _ (bk_wired _ _ Hb1)), (cr_n _ _ _ Hcr). lia.
  - by rewrite (st_n _ _ _ _ _ _ _ _ Hs1), (cr_n _ _ _ Hcr).
  - intros i Hi. rewrite (st_rafts _ _ _ _ _ _ _ _ Hs1), Hlen, (cr_rafts _ _ _ Hcr). destruct (decide (i = k)) as [->|Hne].
    + apply list_lookup_insert_eq. rewrite length_insert, (bk_rafts _ _ Hb). lia.
    + rewrite !list_lookup_insert_ne by done. apply Hup. lia.
  - intros i Hi. rewrite (st_rafts _ _ _ _ _ _ _ _ Hs1), (st_saved _ _ _ _ _ _ _ _ Hs1), (cr_rafts _ _ _ Hcr), !list_lookup_insert_ne by lia.
    rewrite (cr_saved _ _ _ Hcr) by lia. apply Hny. lia.
  - intros i Hi. destruct (decide (i = k)) as [->|Hne].
    + exists rf. split; [rewrite <- Hn, <- (cr_n _ _ _ Hcr); apply Hs1|]. rewrite <- Hlen. by eapply started_new.
    + destruct (Hnode i) as (rf0 & Hmk & Hin); [lia|]. exists rf0. split; [done|].
      eapply started_node; [done|]. eapply (crashed_node k); [done|by rewrite Hrk|done].
Qed.

Lemma connect_next n now rnd k cfg cfg' :
  (k < n)%nat -> first_started n now rnd n cfg -> RaftTester.connect k cfg = Val cfg' -> first_started n now rnd n cfg'.
Proof.
  intros Hk [Hb Hn Hup Hny Hnode] Hc. pose proof (connect_books _ _ _ _ Hb (ex_intro _ k (Hup k Hk)) Hc) as Hb'.
  destruct (connect_rewired _ _ _ Hc) as [[] _]. constructor; unfold names_of in *; rewrite ?rw_n0, ?rw_rafts0, ?rw_saved0, ?rw_names0, ?rw_heap0; done.
Qed.

Lemma stack_config_started n unreliable now0 rnds now rnd cfg :
  RaftTester.make_config raft_methods n unreliable now0 rnds now rnd = Val cfg -> first_started n now rnd n cfg.
Proof.
  unfold RaftTester.make_config. intros (cfg2 & H2 & H3)%bind_val.
  apply (go_for_inv (first_started n now rnd)) in H2.
  - apply (go_for_inv (fun _ => first_started n now rnd n)) in H3; [done|done|]. intros j c c' Hj Hf Hc. eapply connect_next; [|done|done]. lia.
  - constructor; simpl; try lia; try done; [by apply (blank_books _ n now0)|].
    intros i [_ Hi]. split; apply lookup_replicate; done.
  - intros j c c' Hj Hf Hc. eapply start_next; [|done|done]. lia.
Qed.

Lemma init_sim n unreliable now0 rnds now rnd s :
  sys_init n unreliable now0 rnds now rnd = Val s ->
  placed s /\ exists c ep, init_cluster n now rnd = Val c /\ sim n s c ep ∅ ∅.
Proof.
  intros (cfg & [Hb Hn Hup Hny Hnode]%stack_config_started & [= <-])%bind_val. split; [done|].
  destruct (mapM_val (fun i => Make n (Z.of_nat i) MakePersister (now i) (rnd i)) (seq 0 n)) as (ns & Hns & Hall).
  { intros i [_ Hi]%elem_of_seq. destruct (Hnode i) as (rf & Hrf & _); [lia|]. by exists rf. }
  exists (mkCluster ns (replicate n PTop) (replicate n 0%nat) [] (replicate n [])), (replicate n 0%nat).
  split; [unfold init_cluster; by rewrite Hns|].
  assert (forall i a, rafts cfg !! i = Some (Some a) -> (i < n)%nat /\ a = i) as Hcur.
  { intros i a Hi. pose proof (lookup_lt_Some _ _ _ Hi) as Hl. rewrite (bk_rafts _ _ Hb), Hn in Hl. rewrite (Hup i Hl) in Hi. by injection Hi as <-. }
  constructor; simpl; try done.
  - unfold ends_of. simpl. rewrite <- list_fmap_compose. exact Hb.
  - by rewrite length_replicate, length_fmap, length_seq.
  - intros i a Hc. destruct (Hcur i a Hc) as [Hi ->]. destruct (Hnode i Hi) as (rf & Hmk & Hrf). exists 0%nat.
    assert (forall A (x : A), replicate n x !! i = Some x) as Hrep by (intros; by apply lookup_replicate).
    split; [apply Hrep|]. exists rf, (mkProc i (names_of cfg i) PTop []), []. simpl. split_and!; try apply Hrep; try done.
    + rewrite list_lookup_fmap, lookup_seq_lt by done. done.
    + by rewrite (Make_keeps _ _ _ _ _ _ Hmk).
    + destruct (Forall2_lookup_l _ _ _ i i Hall) as (rf' & Hrf' & Hmk'); [by apply lookup_seq_lt|]. simpl in Hmk'. rewrite Hmk in Hmk'. by injection Hmk' as <-.
  - intros i Hi. pose proof (lookup_lt_Some _ _ _ Hi) as Hl. rewrite (bk_rafts _ _ Hb), Hn in Hl. by rewrite (Hup i Hl) in Hi.
Qed.

(** ** What holds of the whole system *)

(** The system in state [s] is simulated by a cluster in state [c] that has run from its start, in disciplined
    steps if the steps of the system are well-timed. *)
Definition simulated (n : nat) (ok : Sys -> slabel -> Prop) (s : Sys) (c : Cluster) : Prop :=
  reachable n c /\ placed s /\ (exists ep tm qm, sim n s c ep tm qm) /\
  ((forall s l, ok s l -> well_timed s l) -> exists now rnd c0, init_cluster n now rnd = Val c0 /\ rtc RaftMachine.dstep c0 c).

Lemma delivered_told n (ap : list (list (ApplyMsg Cmd))) ds o :
  length ap = n -> (forall i, (i < n)%nat -> ap !! i = Some (RaftTesterCheck.delivered i ds)) ->
  forall i, (i < n)%nat -> with_told o ap !! i = Some (RaftTesterCheck.delivered i (ds ++ match o with Some d => [d] | None => [] end)).
Proof.
  intros Hlen Hap i Hi. unfold RaftTesterCheck.delivered. rewrite filter_app, fmap_app. destruct o as [[j m]|]; simpl; [|rewrite app_nil_r; by apply Hap].
  rewrite filter_cons. simpl. case_decide as Hj; simpl.
  - subst j. rewrite list_lookup_alter_eq, (Hap i Hi). done.
  - rewrite app_nil_r, list_lookup_alter_ne by done. by apply Hap.
Qed.

(** The cluster has applied what the running servers have handed over. *)
Lemma trace_simulated n ok s ds : sys_trace n ok s ds -> (0 < n)%nat /\ exists c, simulated n ok s c /\
  forall i, (i < n)%nat -> applied c !! i = Some (RaftTesterCheck.delivered i ds).
Proof.
  induction 1 as [unrel now0 rnds now rnd s Hn Hi|s l s' ds _ [Hn (c & (Hr & Hp & (ep & tm & qm & Hs) & Hd) & Hap)] Hal Hok Hst Ht].
  - split; [done|]. destruct (init_sim _ _ _ _ _ _ _ Hi) as (Hp & c & ep & Hc & Hs). exists c. split; [split_and!; [by eapply reach_init|done|by eauto|]|].
    + intros _. exists now, rnd, c. split; [done|apply rtc_refl].
    + intros i Hlt. destruct (init_nodes _ _ _ _ Hc) as (_ & _ & _ & _ & _ & ->). by apply lookup_replicate.
  - split; [done|]. destruct (sim_step _ _ _ _ _ _ _ _ Hr Hs Hp Hal Hst) as (c' & ep' & tm' & qm' & Hf & Hs').
    pose proof (placed_step _ _ _ _ _ _ _ _ Hs Hp Hst) as Hp'. exists c'. destruct (reachable_ok n c Hr) as [Hcok Hcsm].
    split; [|rewrite (follows_applied _ _ _ _ Hf); apply (delivered_told n); [by apply (co_applied _ _ Hcok)|done]].
    destruct Hf as [[-> _]|(l' & Hl & Hdis & _)].
    { split_and!; [done|done|by eauto|done]. }
    assert (terms_small c') as Hsm.
    { destruct (step_ok n c l' c' Hcok Hcsm Hl) as [Hc' _]. eapply sim_terms; [exact Hs'|apply (co_nodes _ _ Hc')|done]. }
    split_and!; [by eapply reach_step|done|by eauto|]. intros Hwt. destruct (Hd Hwt) as (now & rnd & c0 & Hc0 & Hrtc).
    exists now, rnd, c0. split; [done|]. eapply rtc_r; [done|]. exists l'. split_and!; [by apply Hdis, Hwt|done|by apply RaftElection.small_terms].
Qed.

Lemma sys_simulated n ok s : sys_reach n ok s -> (0 < n)%nat /\ exists c, simulated n ok s c.
Proof. intros [ds Htr]%reach_trace. destruct (trace_simulated _ _ _ _ Htr) as (Hn & c & Hs & _). eauto. Qed.

(** What the tester sees of a running server *)
Record running (s : Sys) (i a : nat) (rf : Raft) (out : list (ApplyMsg Cmd)) : Prop := {
  rn_current : current s i a;
  rn_node : node_at s a = Some rf;
  rn_out : exists pr, s_procs s !! a = Some pr /\ out = p_out pr }.

Lemma running_sim n s c ep tm qm i a rf out :
  sim n s c ep tm qm -> running s i a rf out ->
  nodes c !! i = Some rf /\ exists ms, applied c !! i = Some ms /\ out `suffix_of` ms.
Proof.
  intros Hs [Hc Hn (pr & Hpr & ->)]. destruct (sm_up _ _ _ _ _ _ Hs i a Hc) as (e & _ & rf' & pr' & ms & H1 & H2 & _ & H4 & _ & _ & H7 & H8).
  rewrite Hn in H1. injection H1 as <-. rewrite Hpr in H2. injection H2 as <-. eauto.
Qed.

Lemma dsteps_tsteps (c c' : Cluster) : rtc RaftMachine.dstep c c' -> rtc RaftElection.tstep c c'.
Proof.
  apply rtc_subrel. intros x y (l & Hd & Hst & Hsm). exists l. split_and!; [|done|done].
  unfold RaftMachine.disciplined, RaftMachine.prompt, RaftLogs.orderly in Hd. by repeat (apply andb_true_iff in Hd as [Hd _]).
Qed.

(** C5: Raft behind its network and its tester is the cluster of servers.  Let the tester connect only servers that
    run ([allowed]: a test starts a crashed server before it connects it, as the tests of test_test.go do), and let
    no term reach the largest int.  Then whatever sequence of calls, losses, delays, reorderings, partitions,
    crashes and restarts the tester and the network go through, and whatever the goroutines of crashed servers
    go on doing, there is a reachable state of the cluster in which every running server has the state the tester's
    has, and what that one has sent on its channel is the end of what it has applied. *)
Theorem stack_refines_cluster n s :
  sys_reach n (fun _ _ => True) s ->
  exists c, reachable n c /\ forall i a rf out, running s i a rf out ->
    nodes c !! i = Some rf /\ exists ms, applied c !! i = Some ms /\ out `suffix_of` ms.
Proof.
  intros [_ (c & Hr & _ & (ep & tm & qm & Hs) & _)]%sys_simulated. exists c. split; [done|]. intros i a rf out. by apply (running_sim n s c ep tm qm).
Qed.

(** C4: Raft is safe over the simulated network.  If servers that run take their steps in time, then at every moment
    of a test at most one of them leads a term, and no two of them have sent different commands for one
    index to their applications, whatever the network and the tester do. *)
Theorem stack_safe n s i a rf out i' a' rf' out' :
  sys_reach n well_timed s -> running s i a rf out -> running s i' a' rf' out' ->
  (state rf = Leader -> state rf' = Leader -> currentTerm rf = currentTerm rf' -> i = i') /\
  (forall m m', m ∈ out -> m' ∈ out' -> CommandIndex m = CommandIndex m' -> m = m').
Proof.
  intros [Hn (c & Hr & _ & (ep & tm & qm & Hs) & Hd)]%sys_simulated H1 H2. destruct Hd as (now & rnd & c0 & Hc0 & Hrtc); [done|].
  destruct (running_sim _ _ _ _ _ _ _ _ _ _ Hs H1) as (Hn1 & ms1 & Ha1 & [l1 ->]).
  destruct (running_sim _ _ _ _ _ _ _ _ _ _ Hs H2) as (Hn2 & ms2 & Ha2 & [l2 ->]). split.
  - intros Hl Hl' Ht. destruct (RaftElection.tsteps_election _ _ _ _ (dsteps_tsteps _ _ Hrtc) (RaftElection.init_election _ _ _ _ Hc0)) as (V & _ & He).
    eapply (RaftElection.leaders_agree n V c c); [done|apply rtc_refl|by exists rf|by exists rf'].
  - intros m m' Hm Hm' Hi. destruct (RaftMachine.dsteps_init_commits _ _ _ _ _ Hn Hc0 Hrtc) as (V & G & A & Hcm).
    eapply (RaftMachine.applied_agree _ _ _ _ _ _ _ _ _ m m' Hcm Ha1 Ha2); [apply elem_of_app; by right..|done].
Qed.

End Stack.

(** ** Running the system *)

Section Run.
Context {Cmd : Type} `{!EqDecision Cmd, !Codec Cmd, !RpcCodec Cmd}.
Notation Sys := (@Sys Cmd).
Notation slabel := (@slabel Cmd).

Definition is_current (s : Sys) (i a : nat) : bool := bool_decide (rafts (s_cfg s) !! i = Some (Some a)).

(** Of every server that runs at [a], [f] holds. *)
Definition at_current (s : Sys) (a : nat) (f : nat -> bool) : bool :=
  forallb (fun i => negb (is_current s i a) || f i) (seq 0 (length (rafts (s_cfg s)))).

Lemma at_current_true s a f : at_current s a f = true -> forall i, current s i a -> f i = true.
Proof.
  unfold at_current. rewrite forallb_forall. intros Hf i Hi. assert (In i (seq 0 (length (rafts (s_cfg s))))) as Hin.
  { apply in_seq. apply lookup_lt_Some in Hi. lia. }
  apply Hf in Hin. unfold is_current in Hin. by rewrite bool_decide_eq_true_2 in Hin.
Qed.

Definition timed (s : Sys) (l : slabel) : bool :=
  match l with
  | SRun a now =>
      match node_at s a, s_procs s !! a with
      | Some rf, Some pr => at_current s a (fun i => RaftMachine.disciplined (probe i rf (p_pc pr) []) (LRun i now))
      | _, _ => true
      end
  | SThread k now =>
      match s_threads s !! k with
      | Some g =>
          match address g with
          | Some a =>
              match node_at s a with
              | Some rf => at_current s a (fun i => RaftMachine.disciplined (probe i rf PTop [thread_of i 0 g]) (LThread 0 now))
              | None => true
              end
          | None => true
          end
      | None => true
      end
  | _ => true
  end.

Lemma timed_well s l : timed s l = true -> well_timed s l.
Proof.
  destruct l as [a now|k now|k sent|k|q timer r1 r2|q now|i command|o]; simpl; try done.
  - intros H i rf pr Hc Hn Hp. rewrite Hn, Hp in H. by apply (at_current_true _ _ _ H).
  - intros H i a rf g Hk Ha Hc Hn. rewrite Hk, Ha, Hn in H. by apply (at_current_true _ _ _ H).
Qed.

Definition permitted (s : Sys) (l : slabel) : bool :=
  match l with STester (SConnect i) => match rafts (s_cfg s) !! i with Some (Some _) => true | _ => false end | _ => true end.

Lemma permitted_allowed s l : permitted s l = true -> allowed s l.
Proof.
  destruct l as [| | | | | | |[i| | | | |]]; try done. simpl. unfold current.
  destruct (rafts (s_cfg s) !! i) as [[a|]|]; [by exists a|done..].
Qed.

Definition below (s : Sys) : bool := forallb (fun ins => currentTerm (in_raft ins) <? max_int) (instances (s_cfg s)).

Lemma below_terms s : below s = true -> terms_below s.
Proof. unfold below, terms_below. rewrite forallb_forall, Forall_forall. intros H ins Hi. apply Z.ltb_lt, H. by apply list_elem_of_In. Qed.

Fixpoint sys_run (s : Sys) (ls : list slabel) : option Sys :=
  match ls with
  | [] => Some s
  | l :: ls' =>
      if permitted s l && timed s l then
        match sstep s l with
        | Val s' => if below s' then sys_run s' ls' else None
        | Err _ => None
        end
      else None
  end.

Lemma sys_run_reach n s ls s' : sys_reach n well_timed s -> sys_run s ls = Some s' -> sys_reach n well_timed s'.
Proof.
  revert s. induction ls as [|l ls IH]; intros s Hs; simpl; [by intros [= <-]|].
  destruct (permitted s l) eqn:Hp; [|done]. destruct (timed s l) eqn:Ht; [|done]. simpl.
  destruct (sstep s l) as [s1|] eqn:Hst; [|done]. destruct (below s1) eqn:Hb; [|done]. apply IH.
  eapply sr_step; [done|by apply permitted_allowed|by apply timed_well|done|by apply below_terms].
Qed.

Lemma sys_reach_weaken n (ok ok' : Sys -> slabel -> Prop) s :
  (forall s l, ok s l -> ok' s l) -> sys_reach n ok s -> sys_reach n ok' s.
Proof.
  intros Hok. induction 1 as [unrel now0 rnds now rnd s Hn Hi|s l s' _ IH Hal Hl Hst Ht]; [by eapply sr_init|].
  eapply sr_step; [done|done|by apply Hok|done|done].
Qed.

End Run.

(** ** A codec for the calls

    For integer commands, to show that the laws can be met and to run the system; it is not gob's format. *)

Import RaftCodec.

Definition enc_bool (b : bool) : list byte := if b then [x01] else [x00].
Definition dec_bool (l : list byte) : bool := match l with x01 :: _ => true | _ => false end.

Definition read (l : list byte) : Z * list byte := default (0, []) (dec_Z l).

Lemma read_enc z r : read (enc_Z z ++ r) = (z, r).
Proof. unfold read. by rewrite dec_enc_Z. Qed.

#[export] Instance Z_rpc_codec : RpcCodec Z := {
  enc_rva a := enc_Z (rva_Term a) ++ enc_Z (CandidateId a) ++ enc_Z (LastLogIndex a) ++ enc_Z (LastLogTerm a) ++ [];
  dec_rva b := let '(t, b1) := read b in let '(c, b2) := read b1 in let '(i, b3) := read b2 in let '(lt, _) := read b3 in
    mkRequestVoteArgs t c i lt;
  enc_rvr r := enc_Z (rvr_Term r) ++ enc_bool (VoteGranted r);
  dec_rvr b := let '(t, b1) := read b in mkRequestVoteReply t (dec_bool b1);
  enc_aea a := enc_Z (aea_Term a) ++ enc_Z (LeaderId a) ++ enc_Z (PrevLogIndex a) ++ enc_Z (PrevLogTerm a) ++
    enc_Z (LeaderCommit a) ++ enc_entries (Entries a) ++ [];
  dec_aea b := let '(t, b1) := read b in let '(l, b2) := read b1 in let '(pi, b3) := read b2 in let '(pt, b4) := read b3 in
    let '(lc, b5) := read b4 in mkAppendEntriesArgs t l pi pt lc (fst (default ([], []) (dec_entries (length b5) b5)));
  enc_aer r := enc_Z (aer_Term r) ++ enc_Z (XTerm r) ++ enc_Z (XIndex r) ++ enc_bool (Success r);
  dec_aer b := let '(t, b1) := read b in let '(xt, b2) := read b1 in let '(xi, b3) := read b2 in
    mkAppendEntriesReply t (dec_bool b3) xt xi }.

#[export] Instance Z_rpc_codec_laws : RpcCodecLaws Z.
Proof.
  split.
  - intros []. simpl. by rewrite !read_enc.
  - intros [t []]; simpl; by rewrite read_enc.
  - intros []. simpl. rewrite !read_enc. rewrite dec_enc_entries; [done|]. rewrite length_app. lia.
  - intros [t [] xt xi]; simpl; by rewrite !read_enc.
Qed.

(** ** A test of three servers *)

Import RaftElection.

Definition no_sys : @Sys Z := mkSys (RaftTester.blank 0 0) [] [] [].
Definition three : @Sys Z := val_or no_sys (sys_init 3 false 0 (TestRand.some_bytes 0) (fun _ => 0) (fun _ => 0)).

(** The call of goroutine [k], whose request is number [q], up to the reply at the caller *)
Definition rpc (k q : nat) : list (@slabel Z) :=
  [SThread k late; SCall k true; SProcess q false 0 0; SProcess q false 0 0; SExec q late;
   SProcess q false 0 0; SProcess q false 0 0; SReturn k].

(** Server 0 is elected with the vote of server 1, takes 42 and replicates it to server 1; meanwhile server 2 is
    crashed, goes on for a while, and is started again; server 0 commits and applies, tells server 1, which applies. *)
Definition three_test : list (@slabel Z) :=
  replicate 8 (SRun 0 late) ++ rpc 0 0 ++ [SThread 0 late] ++ replicate 3 (SRun 0 late) ++
  [SClient 0 42; SThread 2 late; SRun 0 late] ++ rpc 3 1 ++ [SThread 3 late] ++
  [STester (SCrash 2); SRun 2 late; STester (SStart 2 (TestRand.some_bytes 1 2) late 7); STester (SConnect 2); SRun 2 late] ++
  [SRun 0 late; SThread 5 late; SRun 0 late] ++ rpc 6 2 ++ [SThread 8 late].

Definition three_end : @Sys Z := default no_sys (sys_run three three_test).

Definition three_out (a : nat) : list (ApplyMsg Z) := default [] (p_out <$> s_procs three_end !! a).

Lemma three_reach : sys_reach 3 well_timed three_end.
Proof.
  apply (sys_run_reach 3 three three_test).
  - eapply (sr_init 3 _ false 0 (TestRand.some_bytes 0) (fun _ => 0) (fun _ => 0)); [lia|]. apply is_val_or. vm_compute. reflexivity.
  - assert (bool_decide (is_Some (sys_run three three_test)) = true) as Hs by (vm_compute; reflexivity).
    apply bool_decide_eq_true_1 in Hs as [s' Hs]. unfold three_end. by rewrite Hs.
Qed.

Lemma three_running i a : rafts (s_cfg three_end) !! i = Some (Some a) -> exists rf, running three_end i a rf (three_out a).
Proof.
  intros Hi. destruct (sys_simulated 3 well_timed three_end three_reach) as [_ (c & _ & _ & (ep & tm & qm & Hs) & _)].
  destruct (sm_up _ _ _ _ _ _ Hs i a Hi) as (e & _ & rf & pr & ms & H1 & H2 & _). exists rf.
  constructor; [done|done|]. exists pr. split; [done|]. unfold three_out. by rewrite H2.
Qed.

Lemma stack_refines_cluster_witness :
  exists c rf ms, reachable 3 c /\ running three_end 1 1 rf [mkApplyMsg true (Some 42) 1] /\ nodes c !! 1%nat = Some rf /\
    applied c !! 1%nat = Some ms /\ [mkApplyMsg true (Some 42) 1] `suffix_of` ms.
Proof.
  destruct (stack_refines_cluster 3 three_end) as (c & Hr & Hall).
  { apply (sys_reach_weaken 3 well_timed); [done|apply three_reach]. }
  destruct (three_running 1 1) as [rf Hrun]; [vm_compute; reflexivity|].
  assert (three_out 1 = [mkApplyMsg true (Some 42) 1]) as E by (vm_compute; reflexivity). rewrite E in Hrun.
  destruct (Hall 1%nat 1%nat rf _ Hrun) as (Hn & ms & Ha & Hsuf).
  exists c, rf, ms. exact (conj Hr (conj Hrun (conj Hn (conj Ha Hsuf)))).
Defined.

Lemma stack_safe_witness :
  three_out 0 = [mkApplyMsg true (Some 42) 1] /\ three_out 1 = three_out 0 /\
  forall m m', m ∈ three_out 0 -> m' ∈ three_out 1 -> CommandIndex m = CommandIndex m' -> m = m'.
Proof.
  split; [vm_compute; reflexivity|]. split; [vm_compute; reflexivity|].
  destruct (three_running 0 0) as [rf Hrun]; [vm_compute; reflexivity|].
  destruct (three_running 1 1) as [rf' Hrun']; [vm_compute; reflexivity|].
  exact (proj2 (stack_safe 3 three_end 0 0 rf _ 1 1 rf' _ three_reach Hrun Hrun')).
Defined.

End RaftStack.
