(* ===== verification/RaftStackCheck.v ===== *)
(** * The tester's checker on the whole system

    The goroutine that start1 (raft/config.go) makes for a server reads its apply channel and looks every message up
    in the logs of all servers.  Here it reads what running servers of RaftStack.v hand over, behind them by any
    number of messages: it accepts every test that is well-timed.  What a crashed server may still send on
    its old channel is not among the messages. *)

From stdpp Require Import base list gmap strings.
From Stdlib Require Import ZArith Lia.
From S2P Require Import Prelude RaftNode RaftCodec RaftInv RaftCluster RaftClusterInv RaftElection RaftMachine RaftTester RaftTesterCheck.
From S2P Require Import Labrpc TestRand RaftNet RaftNetSim RaftNetCalls RaftNetTester RaftStack.
Import RaftNode RaftCodec RaftCluster RaftNet RaftStack.

Open Scope Z_scope.

Module RaftStackCheck.

Section Checked.
Context {Cmd : Type} `{!EqDecision Cmd, !Codec Cmd, !RpcCodec Cmd, !RpcCodecLaws Cmd, !CodecLaws} {App : Type}.
Notation config := (RaftTester.config (Cmd := Cmd) (App := App)).
Notation delivered := RaftTesterCheck.delivered.

(** C12: The checker of the tester accepts every well-timed test of the whole system.  Over calls that are lost, delayed
    and reordered, partitions, crashes and restarts, whatever the running servers hand over, and however the goroutines
    that read their apply channels interleave and lag behind, no message is found out of order or different from
    another server's; and [nCommitted] then returns how many servers have applied an index and the command they applied. *)
Theorem stack_checker_accepts n s ds (cfg : config) read :
  sys_trace n well_timed s ds -> RaftTesterCheck.books n cfg -> Forall (fun l => l = ∅) (RaftTester.logs cfg) ->
  Forall (fun d => (d.1 < n)%nat) read -> (forall i, delivered i read `prefix_of` delivered i ds) ->
  exists cfg', RaftTesterCheck.deliver read cfg = Val cfg' /\
    forall x, exists cmd, RaftTester.nCommitted cfg' x = Val (len (RaftTesterCheck.appliers read x n), cmd) /\
      forall i m, (i, m) ∈ read -> CommandIndex m = x -> cmd = am_Command m.
Proof.
  intros Htr Hb Hl Hlt Hp. destruct (trace_simulated n well_timed s ds Htr) as (Hn & c & (_ & _ & _ & Hd) & Hap).
  destruct Hd as (now & rnd & c0 & Hc0 & Hr); [done|]. eapply (RaftTesterCheck.checker_accepts n now rnd c0 c); try done.
  intros i ms Hms. destruct (decide (i < n)%nat) as [Hi|Hi].
  - rewrite (Hap i Hi) in Hms. injection Hms as <-. apply Hp.
  - destruct (delivered i read) as [|m r] eqn:E; [apply prefix_nil|]. exfalso. apply Hi.
    assert ((i, m) ∈ read) as Hin by (apply RaftTesterCheck.elem_of_delivered; rewrite E; left).
    rewrite Forall_forall in Hlt. by apply (Hlt (i, m)).
Qed.

End Checked.

(** ** The test of three servers of RaftStack.v *)

Fixpoint trace_of (s : @Sys Z) (ls : list (@slabel Z)) : list (nat * ApplyMsg Z) :=
  match ls with
  | [] => []
  | l :: ls' => match emits s l with Some d => [d] | None => [] end ++ match sstep s l with Val s' => trace_of s' ls' | Err _ => [] end
  end.

Lemma sys_run_trace n s ls s' ds :
  sys_trace n well_timed s ds -> sys_run s ls = Some s' -> sys_trace n well_timed s' (ds ++ trace_of s ls).
Proof.
  revert s ds. induction ls as [|l ls IH]; intros s ds Hs; cbn [sys_run trace_of]; [intros [= <-]; by rewrite app_nil_r|].
  destruct (permitted s l) eqn:Hp; [|done]. destruct (timed s l) eqn:Ht; [|done]. cbn [andb].
  destruct (sstep s l) as [s1|] eqn:Hst; [|done]. destruct (below s1) eqn:Hb; [|done]. intros Hrun. rewrite app_assoc. apply IH; [|done].
  eapply tr_step; [done|by apply permitted_allowed|by apply timed_well|done|by apply below_terms].
Qed.

Definition three_trace : list (nat * ApplyMsg Z) := trace_of three three_test.

Lemma three_traced : sys_trace 3 well_timed three_end three_trace.
Proof.
  assert (sys_trace 3 well_timed three []) as H0.
  { eapply (tr_init 3 _ false 0 (TestRand.some_bytes 0) (fun _ => 0) (fun _ => 0)); [lia|]. apply is_val_or. vm_compute. reflexivity. }
  assert (sys_run three three_test = Some three_end) as Hrun.
  { assert (bool_decide (is_Some (sys_run three three_test)) = true) as Hs by (vm_compute; reflexivity).
    apply bool_decide_eq_true_1 in Hs as [s' Hs]. unfold three_end. by rewrite Hs. }
  pose proof (sys_run_trace 3 three three_test three_end [] H0 Hrun) as Ht. rewrite app_nil_l in Ht. exact Ht.
Qed.

(** Server 1's message is read, that of server 0 not yet. *)
Lemma stack_checker_accepts_witness :
  exists cfg', RaftTesterCheck.deliver [(1%nat, RaftTesterCheck.msg42)] RaftTesterCheck.some_books = Val cfg' /\ exists cmd, RaftTester.nCommitted cfg' 1 = Val (1, cmd).
Proof.
  destruct (stack_checker_accepts 3 three_end three_trace RaftTesterCheck.some_books [(1%nat, RaftTesterCheck.msg42)]) as (cfg' & Hd & Hn).
  - exact three_traced.
  - exact RaftTesterCheck.some_books_ok.
  - by repeat constructor.
  - repeat constructor; simpl; lia.
  - assert (three_trace = [(0%nat, RaftTesterCheck.msg42); (1%nat, RaftTesterCheck.msg42)]) as -> by (vm_compute; reflexivity).
    intros [|[|i]]; [apply prefix_nil|reflexivity|apply prefix_nil].
  - exists cfg'. split; [exact Hd|]. destruct (Hn 1) as (cmd & Hc & _). exists cmd. exact Hc.
Defined.

End RaftStackCheck.
