(* ===== verification/Shard.v ===== *)
(** * The clients of the sharded key/value store (shardmaster/client.go, shardkv/client.go)

    A clerk tries the servers it knows one after the other, for ever, until one of them accepts.  The
    servers and the network are not part of the clients: [Env] is the interface the clerks call, a state
    and the effect of one remote call on it, where a call may be lost ([None]), executed or both.

    The loops take the number of rounds they may run as fuel: [None] says that they are still trying. *)

From stdpp Require Import base list gmap strings.
From Stdlib Require Import ZArith Lia Ascii.
From S2P Require Import Prelude.

Open Scope Z_scope.

Module Shard.

(** ** Configurations and messages *)

Definition NShards : Z := 10.

Record Config := mkConfig {
  Num : Z;
  Shards : list Z;               (* [NShards]int *)
  Groups : gmap Z (list string) }.

Definition zeroConfig : Config := mkConfig 0 (replicate (Z.to_nat NShards) 0) ∅.

(** The methods of the shard master and their arguments *)
Inductive MasterArgs :=
  | JoinArgs (Servers : gmap Z (list string))
  | LeaveArgs (GIDs : list Z)
  | MoveArgs (Shard GID : Z)
  | QueryArgs (Num : Z).

(** The replies of the four methods; only [Query] fills [Config]. *)
Record MasterReply := mkMasterReply {
  WrongLeader : bool;
  mr_Err : string;
  mr_Config : Config }.

Definition OK : string := "OK".
Definition ErrNoKey : string := "ErrNoKey".
Definition ErrWrongGroup : string := "ErrWrongGroup".
Definition ErrWrongLeader : string := "ErrWrongLeader".

Inductive KvArgs :=
  | GetArgs (Key : string)
  | PutAppendArgs (Key Value Op : string).

(** [GetReply] and [PutAppendReply]; the latter has no value. *)
Record KvReply := mkKvReply {
  kr_Err : string;
  kr_Value : string }.

(** ** The environment *)

(** [master w i args] is a call to the [i]-th server of the shard master, [group w name args] one to the
    end that [make_end] gives for a server of a group. *)
Class Env (W : Type) := {
  master : W -> nat -> MasterArgs -> W * option MasterReply;
  group : W -> string -> KvArgs -> W * option KvReply }.

Section Clerks.
Context {W : Type} `{Env W}.

(** ** The shard master's clerk *)

(** The clerk knows [n] servers. *)
Record MasterClerk := mkMasterClerk { servers : nat }.
Definition MakeMasterClerk (n : nat) : MasterClerk := mkMasterClerk n.

Definition accepted (r : option MasterReply) : option MasterReply :=
  match r with
  | Some reply => if WrongLeader reply then None else Some reply
  | None => None
  end.

(** One turn over the servers [i, i+1, .., i+k-1] *)
Fixpoint try_each (w : W) (args : MasterArgs) (i k : nat) : W * option MasterReply :=
  match k with
  | O => (w, None)
  | S k' =>
      let '(w1, r) := master w i args in
      match accepted r with
      | Some reply => (w1, Some reply)
      | None => try_each w1 args (S i) k'
      end
  end.

Fixpoint try_rounds (fuel : nat) (ck : MasterClerk) (w : W) (args : MasterArgs) : W * option MasterReply :=
  match fuel with
  | O => (w, None)
  | S fuel' =>
      let '(w1, r) := try_each w args 0 (servers ck) in
      match r with
      | Some reply => (w1, Some reply)
      | None => try_rounds fuel' ck w1 args
      end
  end.

Definition Query (fuel : nat) (ck : MasterClerk) (w : W) (num : Z) : W * option Config :=
  let '(w1, r) := try_rounds fuel ck w (QueryArgs num) in (w1, mr_Config <$> r).
Definition Join (fuel : nat) (ck : MasterClerk) (w : W) (srvs : gmap Z (list string)) : W * option unit :=
  let '(w1, r) := try_rounds fuel ck w (JoinArgs srvs) in (w1, (fun _ => tt) <$> r).
Definition Leave (fuel : nat) (ck : MasterClerk) (w : W) (gids : list Z) : W * option unit :=
  let '(w1, r) := try_rounds fuel ck w (LeaveArgs gids) in (w1, (fun _ => tt) <$> r).
Definition Move (fuel : nat) (ck : MasterClerk) (w : W) (shard gid : Z) : W * option unit :=
  let '(w1, r) := try_rounds fuel ck w (MoveArgs shard gid) in (w1, (fun _ => tt) <$> r).

(** ** The store's clerk *)

Definition key2shard (key : string) : Z :=
  let shard := match key with EmptyString => 0 | String c _ => Z.of_nat (nat_of_ascii c) end in
  Z.rem shard NShards.

Record Clerk := mkClerk {
  sm : MasterClerk;
  config : Config }.

Definition MakeClerk (n : nat) : Clerk := mkClerk (MakeMasterClerk n) zeroConfig.

(** What a reply means to the loop over a group's servers *)
Inductive verdict := Return | Break | Next.

Definition get_verdict (r : option KvReply) : verdict :=
  match r with
  | Some reply =>
      if String.eqb (kr_Err reply) OK || String.eqb (kr_Err reply) ErrNoKey then Return
      else if String.eqb (kr_Err reply) ErrWrongGroup then Break
      else Next
  | None => Next
  end.

Definition put_verdict (r : option KvReply) : verdict :=
  match r with
  | Some reply =>
      if String.eqb (kr_Err reply) OK then Return
      else if String.eqb (kr_Err reply) ErrWrongGroup then Break
      else Next
  | None => Next
  end.

Fixpoint try_group (v : option KvReply -> verdict) (w : W) (args : KvArgs) (srvs : list string) : W * option KvReply :=
  match srvs with
  | [] => (w, None)
  | srv :: srvs' =>
      let '(w1, r) := group w srv args in
      match v r with
      | Return => (w1, r)
      | Break => (w1, None)
      | Next => try_group v w1 args srvs'
      end
  end.

(** The loop that [Get] and [PutAppend] share; [qfuel] is the fuel of each [Query]. *)
Fixpoint kv_rounds (fuel qfuel : nat) (v : option KvReply -> verdict) (ck : Clerk) (w : W) (key : string) (args : KvArgs)
    : res (Clerk * W * option KvReply) :=
  match fuel with
  | O => mret (ck, w, None)
  | S fuel' =>
      gid ← go_index (Shards (config ck)) (key2shard key);
      let '(w1, r) :=
        match Groups (config ck) !! gid with
        | Some srvs => try_group v w args srvs
        | None => (w, None)
        end in
      match r with
      | Some reply => mret (ck, w1, Some reply)
      | None =>
          let '(w2, c) := Query qfuel (sm ck) w1 (-1) in
          match c with
          | Some c' => kv_rounds fuel' qfuel v (mkClerk (sm ck) c') w2 key args
          | None => mret (ck, w2, None)
          end
      end
  end.

Definition Get (fuel qfuel : nat) (ck : Clerk) (w : W) (key : string) : res (Clerk * W * option string) :=
  match kv_rounds fuel qfuel get_verdict ck w key (GetArgs key) with
  | Val (ck', w', r) => Val (ck', w', kr_Value <$> r)
  | Err e => Err e
  end.

Definition PutAppend (fuel qfuel : nat) (ck : Clerk) (w : W) (key value op : string) : res (Clerk * W * option unit) :=
  match kv_rounds fuel qfuel put_verdict ck w key (PutAppendArgs key value op) with
  | Val (ck', w', r) => Val (ck', w', (fun _ => tt) <$> r)
  | Err e => Err e
  end.

Definition Put (fuel qfuel : nat) (ck : Clerk) (w : W) (key value : string) := PutAppend fuel qfuel ck w key value "Put".
Definition Append (fuel qfuel : nat) (ck : Clerk) (w : W) (key value : string) := PutAppend fuel qfuel ck w key value "Append".

(** ** Where an answer comes from *)

Lemma key2shard_range key : 0 <= key2shard key < NShards.
Proof.
  unfold key2shard, NShards. apply Z.rem_bound_pos; [|lia]. destruct key; lia.
Qed.

Definition wf_config (c : Config) : Prop := len (Shards c) = NShards.

(** What a call makes of the world *)
Definition called (w w' : W) : Prop := (exists i a, w' = (master w i a).1) \/ (exists srv a, w' = (group w srv a).1).

(** [c] is the answer, after some of the clerk's calls from the world [w] on, of a server of the master to a query for
    the latest configuration. *)
Definition from_master (w : W) (ck : MasterClerk) (c : Config) : Prop :=
  exists w0 i w' reply, rtc called w w0 /\ (i < servers ck)%nat /\ master w0 i (QueryArgs (-1)) = (w', Some reply) /\
    WrongLeader reply = false /\ mr_Config reply = c.

Lemma called_master w i a w' r : master w i a = (w', r) -> called w w'.
Proof. intros E. left. exists i, a. by rewrite E. Qed.

Lemma called_group w srv a w' r : group w srv a = (w', r) -> called w w'.
Proof. intros E. right. exists srv, a. by rewrite E. Qed.

Lemma accepted_Some r reply : accepted r = Some reply <-> r = Some reply /\ WrongLeader reply = false.
Proof. destruct r as [x|]; simpl; [destruct (WrongLeader x) eqn:E|]; naive_solver congruence. Qed.

Lemma try_each_Some w args i k w' reply :
  try_each w args i k = (w', Some reply) ->
  exists w0 j, rtc called w w0 /\ (i <= j < i + k)%nat /\ master w0 j args = (w', Some reply) /\ WrongLeader reply = false.
Proof.
  revert w i. induction k as [|k IH]; intros w i; simpl; [done|].
  destruct (master w i args) as [w1 r] eqn:Hm. destruct (accepted r) as [x|] eqn:Hr.
  - intros [= -> ->]. apply accepted_Some in Hr as [-> Hr]. exists w, i. split; [apply rtc_refl|]. split; [lia|done].
  - intros (w0 & j & Hr0 & Hj & Hw)%IH. exists w0, j. split; [|split; [lia|done]].
    eapply rtc_l; [by eapply called_master|done].
Qed.

Lemma try_each_called w args i k : rtc called w (try_each w args i k).1.
Proof.
  revert w i. induction k as [|k IH]; intros w i; simpl; [apply rtc_refl|].
  destruct (master w i args) as [w1 r] eqn:Hm. apply called_master in Hm.
  destruct (accepted r); simpl; [by apply rtc_once|]. eapply rtc_l; [done|apply IH].
Qed.

Lemma try_rounds_called fuel ck w args : rtc called w (try_rounds fuel ck w args).1.
Proof.
  revert w. induction fuel as [|fuel IH]; intros w; simpl; [apply rtc_refl|].
  pose proof (try_each_called w args 0 (servers ck)) as He.
  destruct (try_each w args 0 (servers ck)) as [w1 [x|]]; simpl in *; [done|]. etransitivity; [done|apply IH].
Qed.

Lemma try_group_called v w args srvs : rtc called w (try_group v w args srvs).1.
Proof.
  revert w. induction srvs as [|srv srvs IH]; intros w; simpl; [apply rtc_refl|].
  destruct (group w srv args) as [w1 r] eqn:Hg. apply called_group in Hg.
  destruct (v r); simpl; [by apply rtc_once..|]. eapply rtc_l; [done|apply IH].
Qed.

Lemma try_rounds_Some fuel ck w args w' reply :
  try_rounds fuel ck w args = (w', Some reply) ->
  exists w0 j, rtc called w w0 /\ (j < servers ck)%nat /\ master w0 j args = (w', Some reply) /\ WrongLeader reply = false.
Proof.
  revert w. induction fuel as [|fuel IH]; intros w; simpl; [done|].
  pose proof (try_each_called w args 0 (servers ck)) as Hc.
  destruct (try_each w args 0 (servers ck)) as [w1 [x|]] eqn:He.
  - intros [= -> ->]. apply try_each_Some in He as (w0 & j & Hr0 & Hj & Hw). exists w0, j. split; [done|]. split; [lia|done].
  - intros (w0 & j & Hr0 & Hj & Hw)%IH. exists w0, j. split; [by etransitivity|done].
Qed.

Lemma Query_from_master fuel ck w w' c : Query fuel ck w (-1) = (w', Some c) -> rtc called w w' /\ from_master w ck c.
Proof.
  unfold Query. pose proof (try_rounds_called fuel ck w (QueryArgs (-1))) as Hc.
  destruct (try_rounds fuel ck w (QueryArgs (-1))) as [w1 [reply|]] eqn:E; [|done].
  intros [= <- <-]. split; [done|]. apply try_rounds_Some in E as (w0 & j & ? & Hj & Hm & Hl). by exists w0, j, w1, reply.
Qed.

Lemma try_group_Some v w args srvs w' reply :
  try_group v w args srvs = (w', Some reply) ->
  exists w0 srv, rtc called w w0 /\ srv ∈ srvs /\ group w0 srv args = (w', Some reply) /\ v (Some reply) = Return.
Proof.
  revert w. induction srvs as [|srv srvs IH]; intros w; simpl; [done|].
  destruct (group w srv args) as [w1 r] eqn:Hg. destruct (v r) eqn:Hv; [|done|].
  - intros [= -> ->]. exists w, srv. split; [apply rtc_refl|]. split; [by left|done].
  - intros (w0 & x & Hr0 & Hx & Hw)%IH. exists w0, x. split; [|split; [by right|done]].
    eapply rtc_l; [by eapply called_group|done].
Qed.

(** [srv] serves the shard of [key] in [c]. *)
Definition serves (c : Config) (key srv : string) : Prop :=
  exists gid srvs, Shards c !! Z.to_nat (key2shard key) = Some gid /\ Groups c !! gid = Some srvs /\ srv ∈ srvs.

Lemma from_master_later w w1 ck c : rtc called w w1 -> from_master w1 ck c -> from_master w ck c.
Proof. intros Hr (w0 & i & w' & reply & Hr0 & Hi). exists w0, i, w', reply. split; [by etransitivity|done]. Qed.

Lemma kv_rounds_Some fuel qfuel v ck w key args ck' w' reply :
  kv_rounds fuel qfuel v ck w key args = Val (ck', w', Some reply) ->
  sm ck' = sm ck /\ (config ck' = config ck \/ from_master w (sm ck) (config ck')) /\
  exists w0 srv, rtc called w w0 /\ serves (config ck') key srv /\ group w0 srv args = (w', Some reply) /\ v (Some reply) = Return.
Proof.
  revert ck w. induction fuel as [|fuel IH]; intros ck w; simpl; [done|].
  intros (gid & Hgid%go_index_val & Hk)%bind_val. revert Hk.
  destruct (match Groups (config ck) !! gid with Some srvs => try_group v w args srvs | None => (w, None) end)
    as [w1 [x|]] eqn:Ht.
  - intros [= <- <- <-]. destruct (Groups (config ck) !! gid) as [srvs|] eqn:Hs; [|done].
    apply try_group_Some in Ht as (w0 & srv & Hr0 & Hin & Hg & Hv). split; [done|]. split; [by left|].
    exists w0, srv. split; [done|]. split; [|done]. exists gid, srvs. naive_solver.
  - assert (rtc called w w1) as H1.
    { destruct (Groups (config ck) !! gid) as [srvs|]; [|injection Ht as <-; apply rtc_refl].
      pose proof (try_group_called v w args srvs) as Hc. by rewrite Ht in Hc. }
    destruct (Query qfuel (sm ck) w1 (-1)) as [w2 [c|]] eqn:Hq; [|done].
    apply Query_from_master in Hq as [H2 Hq]. intros (Hsm & Hc & w0 & srv & Hr0 & Hx)%IH. simpl in *. split; [done|]. split.
    + right. destruct Hc as [->|Hc]; [by eapply from_master_later|]. apply (from_master_later w w2); [by etransitivity|done].
    + exists w0, srv. split; [|done]. by do 2 (etransitivity; [done|]).
Qed.

(** C35: What [Get] returns is the answer of a server in charge: the value comes from a reply [OK] or [ErrNoKey] to
    this key of a server that serves the key's shard in the clerk's configuration at the end, and that
    configuration is the one it began with or one a server of the master (not a wrong leader) sent as
    its latest after some of the clerk's calls. *)
Theorem Get_answer_from_owner fuel qfuel ck w key ck' w' v :
  Get fuel qfuel ck w key = Val (ck', w', Some v) ->
  (config ck' = config ck \/ from_master w (sm ck) (config ck')) /\
  exists w0 srv reply, rtc called w w0 /\ serves (config ck') key srv /\ group w0 srv (GetArgs key) = (w', Some reply) /\
    (kr_Err reply = OK \/ kr_Err reply = ErrNoKey) /\ kr_Value reply = v.
Proof.
  unfold Get. destruct (kv_rounds _ _ _ _ _ _ _) as [[[ck1 w1] [reply|]]|e] eqn:E; [|done..]. intros [= <- <- <-].
  apply kv_rounds_Some in E as (_ & Hc & w0 & srv & Hr0 & Hs & Hg & Hv). split; [done|].
  exists w0, srv, reply. split; [done|]. split; [done|]. split; [done|]. split; [|done].
  unfold get_verdict in Hv. destruct (String.eqb_spec (kr_Err reply) OK); [by left|].
  destruct (String.eqb_spec (kr_Err reply) ErrNoKey); [by right|]. simpl in Hv. by destruct (String.eqb _ _).
Qed.

(** ** Termination *)

(** [ready] worlds: calls keep the world ready, some server of the master leads and every one that says it leads sends [cfg],
    which gives the key to the servers [srvs], none of which refuses the group and one of which answers. *)
Record stable (ready : W -> Prop) (ck : MasterClerk) (cfg : Config) (key : string) (args : KvArgs)
    (v : option KvReply -> verdict) : Prop := {
  st_master w i a : ready w -> ready (master w i a).1;
  st_group w s a : ready w -> ready (group w s a).1;
  st_leader w : ready w -> exists i, (i < servers ck)%nat /\ forall w', ready w' -> accepted (master w' i (QueryArgs (-1))).2 <> None;
  st_config w i reply : ready w -> accepted (master w i (QueryArgs (-1))).2 = Some reply -> mr_Config reply = cfg;
  st_owner : exists gid srvs srv, Shards cfg !! Z.to_nat (key2shard key) = Some gid /\ Groups cfg !! gid = Some srvs /\
    srv ∈ srvs /\ (forall w, ready w -> v (group w srv args).2 = Return) /\
    (forall w s, ready w -> s ∈ srvs -> v (group w s args).2 <> Break) }.

Section Stable.
Context (ready : W -> Prop) (ck : MasterClerk) (cfg : Config) (key : string) (args : KvArgs) (v : option KvReply -> verdict).
Hypothesis Hst : stable ready ck cfg key args v.
Hypothesis Hv : v None <> Return.

Lemma try_each_ready w a i k : ready w -> ready (try_each w a i k).1.
Proof.
  revert w i. induction k as [|k IH]; intros w i Hw; simpl; [done|].
  pose proof (st_master _ _ _ _ _ _ Hst w i a Hw) as Hw1. destruct (master w i a) as [w1 r]. simpl in Hw1.
  destruct (accepted r); [done|]. by apply IH.
Qed.

Lemma try_each_leader w i k j :
  ready w -> (i <= j < i + k)%nat -> (forall w', ready w' -> accepted (master w' j (QueryArgs (-1))).2 <> None) ->
  exists w' reply, try_each w (QueryArgs (-1)) i k = (w', Some reply) /\ ready w' /\ mr_Config reply = cfg.
Proof.
  revert w i. induction k as [|k IH]; intros w i Hw Hj Hl; simpl; [lia|].
  pose proof (st_master _ _ _ _ _ _ Hst w i (QueryArgs (-1)) Hw) as Hw1.
  pose proof (fun r => st_config _ _ _ _ _ _ Hst w i r Hw) as Hc. specialize (Hl w Hw) as Hlw.
  destruct (master w i (QueryArgs (-1))) as [w1 r] eqn:Hm. simpl in Hw1, Hc.
  destruct (accepted r) as [x|] eqn:Hr; [exists w1, x; naive_solver|].
  apply IH; [done| |done]. destruct (decide (i = j)) as [->|]; [|lia]. rewrite Hm in Hlw. done.
Qed.

Lemma Query_ready qfuel w :
  ready w -> (1 <= qfuel)%nat -> exists w', Query qfuel ck w (-1) = (w', Some cfg) /\ ready w'.
Proof.
  intros Hw Hq. destruct qfuel as [|qfuel]; [lia|]. destruct (st_leader _ _ _ _ _ _ Hst w Hw) as (j & Hj & Hl).
  destruct (try_each_leader w 0 (servers ck) j Hw) as (w' & reply & He & Hw' & Hc); [lia|done|].
  exists w'. unfold Query. simpl. rewrite He. simpl. by rewrite Hc.
Qed.

Lemma try_group_ready w srvs : ready w -> ready (try_group v w args srvs).1.
Proof.
  revert w. induction srvs as [|s srvs IH]; intros w Hw; simpl; [done|].
  pose proof (st_group _ _ _ _ _ _ Hst w s args Hw) as Hw1. destruct (group w s args) as [w1 r]. simpl in Hw1.
  destruct (v r); [done|done|]. by apply IH.
Qed.

Lemma try_group_answers w srvs srv :
  ready w -> srv ∈ srvs -> (forall w, ready w -> v (group w srv args).2 = Return) ->
  (forall w s, ready w -> s ∈ srvs -> v (group w s args).2 <> Break) ->
  exists w' reply, try_group v w args srvs = (w', Some reply).
Proof.
  revert w. induction srvs as [|s srvs IH]; intros w Hw Hin Ha Hb; [set_solver|]. simpl.
  pose proof (st_group _ _ _ _ _ _ Hst w s args Hw) as Hw1.
  pose proof (Hb w s Hw ltac:(by left)) as Hbs. pose proof (Ha w Hw) as Has.
  destruct (group w s args) as [w1 r] eqn:Hg. simpl in Hw1, Hbs. destruct (v r) eqn:Hr; [|done|].
  - destruct r as [reply|]; [eauto|]. done.
  - apply IH; [done| |done|]; [|intros; apply Hb; [done|by right]].
    apply elem_of_cons in Hin as [->|Hin]; [|done]. rewrite Hg in Has. simpl in Has. congruence.
Qed.

Lemma owner_round fuel qfuel c w :
  ready w -> (1 <= fuel)%nat -> sm c = ck -> config c = cfg ->
  exists w' reply, kv_rounds fuel qfuel v c w key args = Val (c, w', Some reply).
Proof.
  intros Hw Hf Hsm Hc. destruct fuel as [|fuel]; [lia|]. simpl.
  destruct (st_owner _ _ _ _ _ _ Hst) as (gid & srvs & srv & Hg & Hs & Hin & Ha & Hb).
  rewrite Hc. assert (go_index (Shards cfg) (key2shard key) = Val gid) as ->.
  { apply go_index_val. pose proof (key2shard_range key). auto with lia. }
  simpl. rewrite Hs. destruct (try_group_answers w srvs srv Hw Hin Ha Hb) as (w' & reply & ->). by exists w', reply.
Qed.

Lemma kv_rounds_finish fuel qfuel c w :
  ready w -> (2 <= fuel)%nat -> (1 <= qfuel)%nat -> sm c = ck -> wf_config (config c) ->
  exists c' w' reply, kv_rounds fuel qfuel v c w key args = Val (c', w', Some reply).
Proof.
  intros Hw Hf Hq Hsm Hc. destruct fuel as [|fuel]; [lia|]. simpl.
  destruct (go_index_in_range (Shards (config c)) (key2shard key)) as [gid ->].
  { rewrite Hc. apply key2shard_range. }
  simpl. assert (ready (match Groups (config c) !! gid with Some srvs => try_group v w args srvs | None => (w, None) end).1) as Hw1.
  { destruct (Groups (config c) !! gid); [by apply try_group_ready|done]. }
  destruct (match Groups (config c) !! gid with Some srvs => try_group v w args srvs | None => (w, None) end)
    as [w1 [x|]]; [by exists c, w1, x|]. simpl in Hw1. rewrite Hsm.
  destruct (Query_ready qfuel w1 Hw1 Hq) as (w2 & -> & Hw2).
  destruct (owner_round fuel qfuel (mkClerk ck cfg) w2) as (w' & reply & ->); [done|lia|done|done|].
  by exists (mkClerk ck cfg), w', reply.
Qed.

End Stable.

(** C36: The clerk gives up never and wins once the system is stable: from any configuration it may remember, [Get] and
    [PutAppend] return after at most one query and two rounds.  Stable means that from now on some server of the
    master claims to lead, every one that does sends the same configuration, no server of the group that owns the
    key's shard in it says ErrWrongGroup, and one of its servers always answers; losses and wrong leaders on the
    way only cost further calls. *)
Theorem clerk_finishes ready cfg ck w key fuel qfuel :
  ready w -> (2 <= fuel)%nat -> (1 <= qfuel)%nat -> wf_config (config ck) ->
  (stable ready (sm ck) cfg key (GetArgs key) get_verdict ->
     exists ck' w' v, Get fuel qfuel ck w key = Val (ck', w', Some v)) /\
  (forall value op, stable ready (sm ck) cfg key (PutAppendArgs key value op) put_verdict ->
     exists ck' w', PutAppend fuel qfuel ck w key value op = Val (ck', w', Some tt)).
Proof.
  intros Hw Hf Hq Hc. split; [intros Hst|intros value op Hst].
  - destruct (kv_rounds_finish _ _ _ _ _ _ Hst ltac:(done) fuel qfuel ck w) as (c' & w' & reply & E); [done..|].
    exists c', w', (kr_Value reply). unfold Get. by rewrite E.
  - destruct (kv_rounds_finish _ _ _ _ _ _ Hst ltac:(done) fuel qfuel ck w) as (c' & w' & reply & E); [done..|].
    exists c', w'. unfold PutAppend. by rewrite E.
Qed.

End Clerks.

(** ** A master of two servers and a group of two *)

Module Demo.

Definition cfg : Config := mkConfig 1 (replicate 10 7) {[ 7 := ["a"; "b"]%string ]}.

(** The world is the value stored; server 0 of the master does not lead, server [a] never answers. *)
#[export] Instance env : Env string := {|
  master w i args := match i with
                     | 1%nat => (w, Some (mkMasterReply false OK cfg))
                     | _ => (w, Some (mkMasterReply true "" zeroConfig))
                     end;
  group w srv args :=
    if String.eqb srv "b" then
      match args with
      | GetArgs _ => (w, Some (mkKvReply OK w))
      | PutAppendArgs _ value op =>
          (if String.eqb op "Append" then String.append w value else value, Some (mkKvReply OK ""))
      end
    else (w, None) |}.

Lemma stable_get : stable (fun _ => True) (mkMasterClerk 2) cfg "k" (GetArgs "k") get_verdict.
Proof.
  constructor; try done.
  - intros w _. exists 1%nat. split; [simpl; lia|done].
  - intros w [|[|i]] reply _; simpl; [done|by intros [= <-]|done].
  - exists 7, ["a"; "b"]%string, "b"%string. split_and!; [done|done|set_solver|done|].
    intros w s _ [->|[->|[]%not_elem_of_nil]%elem_of_cons]%elem_of_cons; done.
Qed.

Lemma stable_put value op :
  stable (fun _ => True) (mkMasterClerk 2) cfg "k" (PutAppendArgs "k" value op) put_verdict.
Proof.
  constructor; try done.
  - intros w _. exists 1%nat. split; [simpl; lia|done].
  - intros w [|[|i]] reply _; simpl; [done|by intros [= <-]|done].
  - exists 7, ["a"; "b"]%string, "b"%string. split_and!; [done|done|set_solver|done|].
    intros w s _ [->|[->|[]%not_elem_of_nil]%elem_of_cons]%elem_of_cons; done.
Qed.

End Demo.

#[local] Existing Instance Demo.env.

Lemma Get_answer_from_owner_witness :
  Get 2 1 (MakeClerk 2) "v"%string "k" = Val (mkClerk (mkMasterClerk 2) Demo.cfg, "v"%string, Some "v"%string) /\
  (Demo.cfg = zeroConfig \/ from_master (W := string) "v"%string (mkMasterClerk 2) Demo.cfg).
Proof.
  split; [reflexivity|].
  apply (Get_answer_from_owner 2 1 (MakeClerk 2) "v"%string "k" (mkClerk (mkMasterClerk 2) Demo.cfg) "v"%string "v"%string).
  reflexivity.
Defined.

Lemma clerk_finishes_witness :
  (exists ck' w' v, Get 2 1 (MakeClerk 2) "v"%string "k" = Val (ck', w', Some v)) /\
  (exists ck' w', PutAppend 2 1 (MakeClerk 2) "v"%string "k" "x" "Append" = Val (ck', w', Some tt)).
Proof.
  split.
  - apply (clerk_finishes (fun _ => True) Demo.cfg (MakeClerk 2) "v"%string "k" 2 1); [done|lia|lia|done|].
    exact Demo.stable_get.
  - apply (clerk_finishes (fun _ => True) Demo.cfg (MakeClerk 2) "v"%string "k" 2 1); [done|lia|lia|done|].
    exact (Demo.stable_put "x" "Append").
Defined.

End Shard.
