(* ===== verification/Skeleton.v ===== *)
(** * The services that are still skeletons (kvraft/client.go, kvraft/server.go, and the handlers of
    shardmaster/server.go and shardkv/server.go)

    The handlers of the three services have empty bodies, so that a call returns the zero reply, and so do the
    operations of kvraft's clerk.  What the finished clerks of shardmaster and shardkv make of such servers
    follows: the shard master answers every query with the empty configuration, and a clerk of the store
    asks for ever. *)

From stdpp Require Import base list gmap strings.
From Stdlib Require Import ZArith Lia.
From S2P Require Import Prelude Shard.
Import Shard.

Open Scope Z_scope.

Module Skeleton.

(** ** kvraft *)

Record KvPutAppendArgs := mkKvPutAppendArgs { pa_Key : string; pa_Value : string; pa_Op : string }.
Record KvPutAppendReply := mkKvPutAppendReply { pa_Err : string }.
Record KvGetArgs := mkKvGetArgs { g_Key : string }.
Record KvGetReply := mkKvGetReply { g_Err : string; g_Value : string }.

(** The handlers, from the reply they are given to the reply they leave *)
Definition KVServer_Get (args : KvGetArgs) (reply : KvGetReply) : KvGetReply := reply.
Definition KVServer_PutAppend (args : KvPutAppendArgs) (reply : KvPutAppendReply) : KvPutAppendReply := reply.

(** The clerk's operations, with the servers as the state [w] they leave alone *)
Definition Clerk_Get {W} (w : W) (key : string) : W * string := (w, "").
Definition Clerk_PutAppend {W} (w : W) (key value op : string) : W := w.
Definition Clerk_Put {W} (w : W) (key value : string) : W := Clerk_PutAppend w key value "Put".
Definition Clerk_Append {W} (w : W) (key value : string) : W := Clerk_PutAppend w key value "Append".

(** ** shardmaster and shardkv *)

Definition zeroMasterReply : MasterReply := mkMasterReply false "" zeroConfig.
Definition zeroKvReply : KvReply := mkKvReply "" "".

Definition ShardMaster_Join (args : gmap Z (list string)) (reply : MasterReply) : MasterReply := reply.
Definition ShardMaster_Leave (args : list Z) (reply : MasterReply) : MasterReply := reply.
Definition ShardMaster_Move (shard gid : Z) (reply : MasterReply) : MasterReply := reply.
Definition ShardMaster_Query (num : Z) (reply : MasterReply) : MasterReply := reply.

Definition ShardKV_Get (key : string) (reply : KvReply) : KvReply := reply.
Definition ShardKV_PutAppend (key value op : string) (reply : KvReply) : KvReply := reply.

Definition ShardMaster_handle (args : MasterArgs) : MasterReply :=
  match args with
  | JoinArgs srvs => ShardMaster_Join srvs zeroMasterReply
  | LeaveArgs gids => ShardMaster_Leave gids zeroMasterReply
  | MoveArgs shard gid => ShardMaster_Move shard gid zeroMasterReply
  | QueryArgs num => ShardMaster_Query num zeroMasterReply
  end.

Definition ShardKV_handle (args : KvArgs) : KvReply :=
  match args with
  | GetArgs key => ShardKV_Get key zeroKvReply
  | PutAppendArgs key value op => ShardKV_PutAppend key value op zeroKvReply
  end.

(** These servers behind a network: [W] is the number of calls made so far, [lost k] says whether call
    number [k] is lost. *)
Section Env.
Variable lost : nat -> bool.

#[local] Instance skeleton_env : Env nat := {
  master w i args := (S w, if lost w then None else Some (ShardMaster_handle args));
  group w name args := (S w, if lost w then None else Some (ShardKV_handle args)) }.

Lemma handle_zero args : ShardMaster_handle args = zeroMasterReply.
Proof. by destruct args. Qed.

Lemma skeleton_query fuel ck w c w' : Query fuel ck w (-1) = (w', Some c) -> c = zeroConfig.
Proof.
  intros [_ (w0 & i & w1 & reply & _ & _ & Hm & _ & <-)]%Query_from_master. simpl in Hm. destruct (lost w0); [done|]. by injection Hm as _ <-.
Qed.

(** A call that is not lost is the end of a loop of the shard master's clerk. *)
Lemma skeleton_try_rounds ck w args k :
  (0 < servers ck)%nat -> lost (w + k) = false -> (forall j, (j < k)%nat -> lost (w + j) = true) ->
  exists w', try_rounds (S k) ck w args = (w', Some zeroMasterReply).
Proof.
  intros Hn. revert w. assert (forall i n w, (0 < n)%nat -> lost w = false ->
    try_each w args i n = (S w, Some zeroMasterReply)) as Hok.
  { intros i [|n] w Hn' Hl; [lia|]. simpl. by rewrite Hl, handle_zero. }
  assert (forall n i w k, lost (w + k) = false -> (forall j, (j < k)%nat -> lost (w + j) = true) ->
    if (k <? n)%nat then exists w', try_each w args i n = (w', Some zeroMasterReply)
    else try_each w args i n = (w + n, None)%nat) as Hall.
  { clear -lost. induction n as [|n IH]; intros i w k Hk Hj; simpl; [f_equal; lia|].
    destruct k as [|k]; simpl.
    - rewrite Nat.add_0_r in Hk. rewrite Hk, handle_zero. eauto.
    - pose proof (Hj 0%nat ltac:(lia)) as H0. rewrite Nat.add_0_r in H0. rewrite H0. simpl.
      specialize (IH (S i) (S w) k). rewrite Nat.add_succ_r in Hk. simpl in IH. specialize (IH Hk).
      replace (w + S n)%nat with (S (w + n)) by lia. apply IH. intros j Hjk. rewrite <- Nat.add_succ_r. apply Hj. lia. }
  induction k as [k IH] using lt_wf_ind. intros w Hk Hj. cbn [try_rounds].
  specialize (Hall (servers ck) 0%nat w k Hk Hj). destruct (Nat.ltb_spec k (servers ck)) as [Hlt|Hge].
  - destruct Hall as [w' ->]. eauto.
  - rewrite Hall. destruct k as [|k]; [lia|]. destruct (IH (S k - servers ck)%nat ltac:(lia) (w + servers ck)%nat) as [w' Hw'].
    + replace (w + servers ck + (S k - servers ck))%nat with (w + S k)%nat by lia. done.
    + intros j Hjk. rewrite <- Nat.add_assoc. apply Hj. lia.
    + exists w'. assert (forall f g w r, (f <= g)%nat -> try_rounds f ck w args = (w', Some r) -> try_rounds g ck w args = (w', Some r)) as Hmono.
      { clear. induction f as [|f IHf]; intros [|g] w r Hfg; simpl; try done; [lia|].
        destruct (try_each w args 0 (servers ck)) as [w1 [x|]]; [done|]. apply IHf. lia. }
      apply (Hmono (S (S k - servers ck))); [lia|done].
Qed.

Lemma skeleton_kv_rounds fuel qfuel v ck w key args ck' w' r :
  config ck = zeroConfig -> kv_rounds fuel qfuel v ck w key args = Val (ck', w', r) -> r = None.
Proof.
  revert ck w. induction fuel as [|fuel IH]; intros ck w Hc; simpl; [by intros [= _ _ <-]|].
  rewrite Hc. intros (gid & _ & Hk)%bind_val. simpl in Hk. rewrite lookup_empty in Hk.
  destruct (Query qfuel (sm ck) w (-1)) as [w2 [c|]] eqn:Hq; [|by injection Hk as _ _ <-].
  apply skeleton_query in Hq as ->. by eapply IH; [|exact Hk].
Qed.

(** What the repository's servers answer.  The masters' handlers are empty, so that as soon as a call is not
    lost [Query] returns the empty configuration, and [Join], [Leave] and [Move] return, having done nothing;
    a new clerk of the store therefore never gets an answer, however long [Get] and [PutAppend] go on, while
    kvraft's [Get] returns the empty string whatever was put. *)
Theorem skeleton_services ck k w srvs gids shard gid n fuel qfuel key value op ck' w' :
  (0 < servers ck)%nat -> lost (w + k) = false -> (forall j, (j < k)%nat -> lost (w + j) = true) ->
  (exists w1, Query (S k) ck w (-1) = (w1, Some zeroConfig)) /\
  (exists w1, Join (S k) ck w srvs = (w1, Some tt)) /\ (exists w1, Leave (S k) ck w gids = (w1, Some tt)) /\
  (exists w1, Move (S k) ck w shard gid = (w1, Some tt)) /\
  (forall r, Get fuel qfuel (MakeClerk n) w key = Val (ck', w', r) -> r = None) /\
  (forall r, PutAppend fuel qfuel (MakeClerk n) w key value op = Val (ck', w', r) -> r = None) /\
  (Clerk_Get (Clerk_Put w key value) key).2 = "".
Proof.
  intros Hn Hk Hj. assert (forall args, exists w1, try_rounds (S k) ck w args = (w1, Some zeroMasterReply)) as Hr
    by (intros args; by apply skeleton_try_rounds).
  split_and!.
  - unfold Query. destruct (Hr (QueryArgs (-1))) as [w1 ->]. eauto.
  - unfold Join. destruct (Hr (JoinArgs srvs)) as [w1 ->]. eauto.
  - unfold Leave. destruct (Hr (LeaveArgs gids)) as [w1 ->]. eauto.
  - unfold Move. destruct (Hr (MoveArgs shard gid)) as [w1 ->]. eauto.
  - intros r. unfold Get. destruct (kv_rounds _ _ _ _ _ _ _) as [[[c2 w2] r2]|] eqn:E; [|done].
    apply skeleton_kv_rounds in E as ->; [|done]. by intros [= _ _ <-].
  - intros r. unfold PutAppend. destruct (kv_rounds _ _ _ _ _ _ _) as [[[c2 w2] r2]|] eqn:E; [|done].
    apply skeleton_kv_rounds in E as ->; [|done]. by intros [= _ _ <-].
  - done.
Qed.

End Env.

(** The first call is lost, the second is answered. *)
Lemma skeleton_services_witness :
  exists w1, Query (H := skeleton_env (fun k => (k =? 0)%nat)) 2 (MakeMasterClerk 3) 0%nat (-1) = (w1, Some zeroConfig).
Proof.
  apply (skeleton_services (fun k => (k =? 0)%nat) (MakeMasterClerk 3) 1 0 ∅ [] 0 0 3 5 5 "k" "v" "Put" (MakeClerk 3) 0).
  - simpl. lia.
  - reflexivity.
  - intros [|j] Hj; [reflexivity|lia].
Defined.

End Skeleton.
