(* ===== verification/ServiceTester.v ===== *)
(** * The testers of the replicated services (kvraft/config.go, shardmaster/config.go and their servers)

    Both testers are the same program over another server: a server with a Raft inside, which [RaftService]
    abstracts, and which the key/value server and the shard master instantiate.  As in RaftTester.v
    servers and persisters are objects on heaps, and what goroutines do meanwhile is an argument.  A clerk is
    an object too, known by its address; a client end is known by its name. *)

From stdpp Require Import base list gmap strings.
From Stdlib Require Import ZArith Lia Strings.Byte.
From S2P Require Import Prelude RaftNode RaftCodec Labrpc TestRand Shard.
Import RaftNode RaftCodec TestRand.

Open Scope Z_scope.

Module ServiceTester.

Notation Network := Labrpc.Network.
Notation IInt := Labrpc.IInt.
Notation IStr := Labrpc.IStr.

Definition Second : Z := 1000000000.

(** What the tester uses of a server: its Raft, [Kill], and its start with settings [X] of the tester *)
Class RaftService (Cmd Srv X : Type) := {
  srv_rf : Srv -> Raft Cmd;
  srv_set_rf : Raft Cmd -> Srv -> Srv;
  srv_Kill : Srv -> Srv;
  srv_start : X -> nat -> Z -> Persister -> Z -> Z -> res Srv;
  srv_name : string }.

(** What it relies on: killing the server kills its Raft, and a server starts with the Raft [Make] builds from
    the persister. *)
Class RaftServiceLaws {Cmd Srv X : Type} `{!Codec Cmd, !RaftService Cmd Srv X} : Prop := {
  srv_rf_set : forall rf (s : Srv), srv_rf (X := X) (srv_set_rf (X := X) rf s) = rf;
  srv_rf_Kill : forall s : Srv, srv_rf (X := X) (srv_Kill (X := X) s) = Kill (srv_rf (X := X) s);
  srv_start_Make : forall (x : X) k me ps now rnd (s : Srv), srv_start x k me ps now rnd = Val s ->
    Make k me ps now rnd = Val (srv_rf (X := X) s) }.

(** ** The servers *)

Section Servers.
Context {Cmd : Type} `{!Codec Cmd}.

Record KVServer := mkKVServer {
  kv_me : Z;
  kv_rf : Raft Cmd;
  kv_dead : Z;
  kv_maxraftstate : Z }.

Definition KVServer_Kill (kv : KVServer) : KVServer := mkKVServer (kv_me kv) (Kill (kv_rf kv)) 1 (kv_maxraftstate kv).

Definition KVServer_killed (kv : KVServer) : bool := kv_dead kv =? 1.

(** [k] is the number of ends in [servers]; [Op] has no fields for [labgob.Register] to look at. *)
Definition StartKVServer (k : nat) (me : Z) (persister : Persister) (maxraftstate now rnd : Z) : res KVServer :=
  rf ← Make k me persister now rnd;
  mret (mkKVServer me rf 0 maxraftstate).

Record ShardMaster := mkShardMaster {
  sm_me : Z;
  sm_rf : Raft Cmd;
  sm_configs : list Shard.Config }.

Definition ShardMaster_Kill (sm : ShardMaster) : ShardMaster := mkShardMaster (sm_me sm) (Kill (sm_rf sm)) (sm_configs sm).

Definition ShardMaster_Raft (sm : ShardMaster) : Raft Cmd := sm_rf sm.

Definition StartServer_master (k : nat) (me : Z) (persister : Persister) (now rnd : Z) : res ShardMaster :=
  rf ← Make k me persister now rnd;
  mret (mkShardMaster me rf [Shard.zeroConfig]).

End Servers.

(** Swapping elements at random; [rnd i] is [rand.Intn(i+1)]. *)
Definition random_handles {A} (kvh : list A) (rnd : nat -> Z) : res (list A) :=
  go_for 0 (length kvh) (fun i sa =>
    let j := rnd i in
    x ← go_index sa (Z.of_nat i);
    y ← go_index sa j;
    sa' ← go_update sa (Z.of_nat i) y;
    go_update sa' j x) kvh.

Section Tester.
Context {Cmd Srv X App : Type} `{!Codec Cmd, !RaftService Cmd Srv X}.

(** What reflection finds of the methods of the server at an address, and of its Raft *)
Context (service_methods raft_methods : nat -> list (Labrpc.methodDesc (App := App))).

Notation Raft := (Raft Cmd).
Notation Server := (Labrpc.Server (App := App)).

Record instance := mkInstance {
  in_server : Srv;
  in_persister : nat }.

(** A clerk: the ends it calls, by name *)
Record Clerk := mkClerk { ck_servers : list string }.

Definition MakeClerk (servers : list string) : Clerk := mkClerk servers.

(** [settings] are the fields only one of the testers has. *)
Record config := mkConfig {
  net : Network;
  n : nat;
  servers : list (option nat);
  saved : list (option nat);
  endnames : list (option (list string));
  clerks : gmap nat (list string);
  nextClientId : Z;
  start : Z;
  settings : X;
  failed : bool;                 (* t.Failed() *)
  instances : list instance;
  persisters : list Persister;
  clerk_objects : list Clerk;
  lab_servers : list Server }.

Definition with_net (v : Network) (cfg : config) : config :=
  mkConfig v (n cfg) (servers cfg) (saved cfg) (endnames cfg) (clerks cfg) (nextClientId cfg) (start cfg) (settings cfg) (failed cfg) (instances cfg) (persisters cfg) (clerk_objects cfg) (lab_servers cfg).
Definition with_servers (v : list (option nat)) (cfg : config) : config :=
  mkConfig (net cfg) (n cfg) v (saved cfg) (endnames cfg) (clerks cfg) (nextClientId cfg) (start cfg) (settings cfg) (failed cfg) (instances cfg) (persisters cfg) (clerk_objects cfg) (lab_servers cfg).
Definition with_saved (v : list (option nat)) (cfg : config) : config :=
  mkConfig (net cfg) (n cfg) (servers cfg) v (endnames cfg) (clerks cfg) (nextClientId cfg) (start cfg) (settings cfg) (failed cfg) (instances cfg) (persisters cfg) (clerk_objects cfg) (lab_servers cfg).
Definition with_endnames (v : list (option (list string))) (cfg : config) : config :=
  mkConfig (net cfg) (n cfg) (servers cfg) (saved cfg) v (clerks cfg) (nextClientId cfg) (start cfg) (settings cfg) (failed cfg) (instances cfg) (persisters cfg) (clerk_objects cfg) (lab_servers cfg).
Definition with_clerks (v : gmap nat (list string)) (id : Z) (o : list Clerk) (cfg : config) : config :=
  mkConfig (net cfg) (n cfg) (servers cfg) (saved cfg) (endnames cfg) v id (start cfg) (settings cfg) (failed cfg) (instances cfg) (persisters cfg) o (lab_servers cfg).
Definition with_settings (v : X) (cfg : config) : config :=
  mkConfig (net cfg) (n cfg) (servers cfg) (saved cfg) (endnames cfg) (clerks cfg) (nextClientId cfg) (start cfg) v (failed cfg) (instances cfg) (persisters cfg) (clerk_objects cfg) (lab_servers cfg).
Definition with_instances (v : list instance) (cfg : config) : config :=
  mkConfig (net cfg) (n cfg) (servers cfg) (saved cfg) (endnames cfg) (clerks cfg) (nextClientId cfg) (start cfg) (settings cfg) (failed cfg) v (persisters cfg) (clerk_objects cfg) (lab_servers cfg).
Definition with_persisters (v : list Persister) (cfg : config) : config :=
  mkConfig (net cfg) (n cfg) (servers cfg) (saved cfg) (endnames cfg) (clerks cfg) (nextClientId cfg) (start cfg) (settings cfg) (failed cfg) (instances cfg) v (clerk_objects cfg) (lab_servers cfg).
Definition with_lab_servers (v : list Server) (cfg : config) : config :=
  mkConfig (net cfg) (n cfg) (servers cfg) (saved cfg) (endnames cfg) (clerks cfg) (nextClientId cfg) (start cfg) (settings cfg) (failed cfg) (instances cfg) (persisters cfg) (clerk_objects cfg) v.

Definition checkTimeout (now : Z) (cfg : config) : res config :=
  if negb (failed cfg) && (120 * Second <? now - start cfg) then Err (EFatal "test took longer than 120 seconds") else mret cfg.

(** A section of the Raft of the server at address [a], on the persister it was made with *)
Definition run_section (a : nat) (f : Srv -> res Srv) (cfg : config) : res config :=
  ins ← of_option ENil (instances cfg !! a);
  ps ← of_option ENil (persisters cfg !! in_persister ins);
  s' ← f (srv_set_rf (X := X) (set_persister ps (srv_rf (X := X) (in_server ins))) (in_server ins));
  mret (with_instances (<[a := mkInstance s' (in_persister ins)]> (instances cfg))
          (with_persisters (<[in_persister ins := persister (srv_rf (X := X) s')]> (persisters cfg)) cfg)).

Definition cleanup (now : Z) (cfg : config) : res config :=
  cfg1 ← go_for 0 (length (servers cfg)) (fun i cfg =>
    sv ← go_index (servers cfg) (Z.of_nat i);
    match sv with Some a => run_section a (fun s => mret (srv_Kill (X := X) s)) cfg | None => mret cfg end) cfg;
  rn ← Labrpc.Cleanup (net cfg1);
  checkTimeout now (with_net rn cfg1).

(** The maximum of [size] over the saved states *)
Definition max_saved (size : Persister -> Z) (cfg : config) : res Z :=
  go_for 0 (n cfg) (fun i logsize =>
    sv ← go_index (saved cfg) (Z.of_nat i);
    p ← of_option ENil sv;
    ps ← of_option ENil (persisters cfg !! p);
    let m := size ps in
    mret (if logsize <? m then m else logsize)) 0.

Definition LogSize (cfg : config) : res Z := max_saved RaftStateSize cfg.
Definition tester_SnapshotSize (cfg : config) : res Z := max_saved SnapshotSize cfg.

(** ** Connections between servers *)

(** [cfg.endnames[i][j]] *)
Definition endname_at (cfg : config) (i j : Z) : res string :=
  names ← go_index (endnames cfg) i;
  match names with
  | Some l => go_index l j
  | None => Err EIndex
  end.

Definition enable (e : string) (yes : bool) (cfg : config) : config := with_net (Labrpc.Enable (IStr e) yes (net cfg)) cfg.

Definition connectUnlocked (i : Z) (to : list Z) (cfg : config) : res config :=
  cfg1 ← go_for 0 (length to) (fun j cfg =>
    tj ← go_index to (Z.of_nat j); endname ← endname_at cfg i tj; mret (enable endname true cfg)) cfg;
  go_for 0 (length to) (fun j cfg =>
    tj ← go_index to (Z.of_nat j); endname ← endname_at cfg tj i; mret (enable endname true cfg)) cfg1.

(** The second loop looks at [cfg.endnames[j]], not at [cfg.endnames[from[j]]]. *)
Definition disconnectUnlocked (i : Z) (from : list Z) (cfg : config) : res config :=
  cfg1 ← go_for 0 (length from) (fun j cfg =>
    names ← go_index (endnames cfg) i;
    match names with
    | Some _ => fj ← go_index from (Z.of_nat j); endname ← endname_at cfg i fj; mret (enable endname false cfg)
    | None => mret cfg
    end) cfg;
  go_for 0 (length from) (fun j cfg =>
    names ← go_index (endnames cfg) (Z.of_nat j);
    match names with
    | Some _ => fj ← go_index from (Z.of_nat j); endname ← endname_at cfg fj i; mret (enable endname false cfg)
    | None => mret cfg
    end) cfg1.

Definition connect (i : Z) (to : list Z) (cfg : config) : res config := connectUnlocked i to cfg.
Definition disconnect (i : Z) (from : list Z) (cfg : config) : res config := disconnectUnlocked i from cfg.

Definition All (cfg : config) : list Z := Z.of_nat <$> seq 0 (n cfg).

Definition ConnectAll (cfg : config) : res config :=
  go_for 0 (n cfg) (fun i cfg => connectUnlocked (Z.of_nat i) (All cfg) cfg) cfg.

Definition partition (p1 p2 : list Z) (cfg : config) : res config :=
  cfg1 ← go_for 0 (length p1) (fun i cfg =>
    x ← go_index p1 (Z.of_nat i); cfg' ← disconnectUnlocked x p2 cfg; connectUnlocked x p1 cfg') cfg;
  go_for 0 (length p2) (fun i cfg =>
    x ← go_index p2 (Z.of_nat i); cfg' ← disconnectUnlocked x p1 cfg; connectUnlocked x p2 cfg') cfg1.

(** ** Clients *)

(** [cfg.clerks[ck]] *)
Definition clerk_names (cfg : config) (ck : nat) : list string := default [] (clerks cfg !! ck).

Definition ConnectClientUnlocked (ck : nat) (to : list Z) (cfg : config) : res config :=
  go_for 0 (length to) (fun j cfg =>
    tj ← go_index to (Z.of_nat j); s ← go_index (clerk_names cfg ck) tj; mret (enable s true cfg)) cfg.

Definition DisconnectClientUnlocked (ck : nat) (from : list Z) (cfg : config) : res config :=
  go_for 0 (length from) (fun j cfg =>
    fj ← go_index from (Z.of_nat j); s ← go_index (clerk_names cfg ck) fj; mret (enable s false cfg)) cfg.

Definition ConnectClient (ck : nat) (to : list Z) (cfg : config) : res config := ConnectClientUnlocked ck to cfg.
Definition DisconnectClient (ck : nat) (from : list Z) (cfg : config) : res config := DisconnectClientUnlocked ck from cfg.

(** A new end to each server; the names are returned. *)
Definition fresh_ends (rnds : nat -> list byte) (cfg : config) : res (list string * config) :=
  go_for 0 (n cfg) (fun j '(names, cfg) =>
    e ← randstring (rnds j) 20;
    rn ← Labrpc.MakeEnd (IStr e) (net cfg);
    mret (names ++ [e], with_net (Labrpc.Connect (IStr e) (IInt (Z.of_nat j)) rn) cfg)) ([], cfg).

Definition makeClient (to : list Z) (rnds : nat -> list byte) (rnd : nat -> Z) (cfg : config) : res (nat * config) :=
  '(names, cfg1) ← fresh_ends rnds cfg;
  handles ← random_handles names rnd;
  let ck := length (clerk_objects cfg1) in
  let cfg2 := with_clerks (<[ck := names]> (clerks cfg1)) (wrap64 (nextClientId cfg1 + 1)) (clerk_objects cfg1 ++ [MakeClerk handles]) cfg1 in
  cfg3 ← ConnectClientUnlocked ck to cfg2;
  mret (ck, cfg3).

(** The files that are removed, which are named like the ends, and the tester without the clerk *)
Definition deleteClient (ck : nat) (cfg : config) : list string * config :=
  (clerk_names cfg ck, with_clerks (delete ck (clerks cfg)) (nextClientId cfg) (clerk_objects cfg) cfg).

(** ** Shutting down and starting servers *)

Definition new_persister (ps : Persister) (cfg : config) : nat * config :=
  (length (persisters cfg), with_persisters (persisters cfg ++ [ps]) cfg).

Definition ShutdownServer (i : nat) (cfg : config) : res config :=
  cfg1 ← disconnectUnlocked (Z.of_nat i) (All cfg) cfg;
  let cfg2 := with_net (Labrpc.DeleteServer (IInt (Z.of_nat i)) (net cfg1)) cfg1 in
  sv ← go_index (saved cfg2) (Z.of_nat i);
  cfg3 ← match sv with
         | Some p =>
             ps ← of_option ENil (persisters cfg2 !! p);
             let '(p', cfg') := new_persister (Copy ps) cfg2 in
             mret (with_saved (<[i := Some p']> (saved cfg')) cfg')
         | None => mret cfg2
         end;
  kv ← go_index (servers cfg3) (Z.of_nat i);
  match kv with
  | Some a =>
      cfg' ← run_section a (fun s => mret (srv_Kill (X := X) s)) cfg3;
      mret (with_servers (<[i := None]> (servers cfg')) cfg')
  | None => mret cfg3
  end.

(** The second half of [StartServer]: the persister, the server, its RPC server *)
Definition boot (i : nat) (now rnd : Z) (cfg : config) : res config :=
  sv ← go_index (saved cfg) (Z.of_nat i);
  '(p, cfg1) ← match sv with
         | Some p => ps ← of_option ENil (persisters cfg !! p); mret (new_persister (Copy ps) cfg)
         | None => mret (new_persister MakePersister cfg)
         end;
  let cfg2 := with_saved (<[i := Some p]> (saved cfg1)) cfg1 in
  ps ← of_option ENil (persisters cfg2 !! p);
  kv ← srv_start (settings cfg2) (n cfg2) (Z.of_nat i) ps now rnd;
  let a := length (instances cfg2) in
  let cfg3 := with_instances (instances cfg2 ++ [mkInstance kv p]) cfg2 in
  sv' ← go_update (servers cfg3) (Z.of_nat i) (Some a);
  let cfg4 := with_servers sv' cfg3 in
  let kvsvc := Labrpc.MakeService (srv_name (Srv := Srv)) (service_methods a) in
  let rfsvc := Labrpc.MakeService "Raft" (raft_methods a) in
  let srv := Labrpc.AddService rfsvc (Labrpc.AddService kvsvc Labrpc.MakeServer) in
  mret (with_net (Labrpc.AddServer (IInt (Z.of_nat i)) (length (lab_servers cfg4)) (net cfg4))
          (with_lab_servers (lab_servers cfg4 ++ [srv]) cfg4)).

Definition StartServer (i : nat) (rnds : nat -> list byte) (now rnd : Z) (cfg : config) : res config :=
  names ← mapM (fun j => randstring (rnds j) 20) (seq 0 (n cfg));
  eps ← go_update (endnames cfg) (Z.of_nat i) (Some names);
  let cfg1 := with_endnames eps cfg in
  cfg2 ← go_for 0 (n cfg1) (fun j cfg =>
    e ← endname_at cfg (Z.of_nat i) (Z.of_nat j);
    rn ← Labrpc.MakeEnd (IStr e) (net cfg);
    mret (with_net (Labrpc.Connect (IStr e) (IInt (Z.of_nat j)) rn) cfg)) cfg1;
  boot i now rnd cfg2.

(** ** Leaders and partitions *)

(** The first server that says it leads; [is_leader i] is what server [i] answers. *)
Fixpoint leader_loop (cfg : config) (is_leader : nat -> bool) (i k : nat) : res (bool * Z) :=
  match k with
  | O => mret (false, 0)
  | S k' =>
      sv ← go_index (servers cfg) (Z.of_nat i);
      match sv with
      | None => Err ENil
      | Some _ => if is_leader i then mret (true, Z.of_nat i) else leader_loop cfg is_leader (S i) k'
      end
  end.

Definition Leader (cfg : config) (is_leader : nat -> bool) : res (bool * Z) := leader_loop cfg is_leader 0 (n cfg).

(** The loop that fills [p1] and then [p2] with the servers that do not lead *)
Definition fill_partitions (k : nat) (l : Z) : res (list Z * list Z * Z) :=
  go_for 0 k (fun i '(p1, p2, j) =>
    if negb (Z.of_nat i =? l) then
      '(p1', p2') ← (if j <? len p1 then p ← go_update p1 j (Z.of_nat i); mret (p, p2)
                     else p ← go_update p2 (j - len p1) (Z.of_nat i); mret (p1, p));
      mret (p1', p2', j + 1)
    else mret (p1, p2, j)) (replicate (k / 2 + 1) 0, replicate (k / 2) 0, 0).

Definition make_partition (cfg : config) (is_leader : nat -> bool) : res (list Z * list Z) :=
  '(_, l) ← Leader cfg is_leader;
  '(p1, p2, _) ← fill_partitions (n cfg) l;
  p2' ← go_update p2 (len p2 - 1) l;
  mret (p1, p2').

(** ** The whole tester *)

Definition blank (k : nat) (x : X) (now : Z) : config :=
  mkConfig Labrpc.MakeNetwork k (replicate k None) (replicate k None) (replicate k None) ∅ (Z.of_nat k + 1000) now x false [] [] [] [].

Definition make_config (k : nat) (unreliable : bool) (x : X) (now0 : Z) (rnds : nat -> nat -> list byte) (now rnd : nat -> Z) : res config :=
  cfg1 ← go_for 0 k (fun i cfg => StartServer i (rnds i) (now i) (rnd i) cfg) (blank k x now0);
  cfg2 ← ConnectAll cfg1;
  mret (with_net (Labrpc.Reliable (negb unreliable) (net cfg2)) cfg2).

End Tester.

(** ** The tester of the key/value service *)

Section KvTester.
Context {Cmd App : Type} `{!Codec Cmd}.
Notation KVServer := (@KVServer Cmd).

Record kvSettings := mkKvSettings {
  maxraftstate : Z;
  t0 : Z;
  rpcs0 : Z;
  ops : Z }.

#[export] Instance kv_service : RaftService Cmd KVServer kvSettings := {
  srv_rf := kv_rf;
  srv_set_rf rf kv := mkKVServer (kv_me kv) rf (kv_dead kv) (kv_maxraftstate kv);
  srv_Kill := KVServer_Kill;
  srv_start x k me ps now rnd := StartKVServer k me ps (maxraftstate x) now rnd;
  srv_name := "KVServer" }.

#[export] Instance kv_service_laws : RaftServiceLaws (Cmd := Cmd) (Srv := KVServer) (X := kvSettings).
Proof.
  split; [done|done|]. intros x k me ps now rnd kv. simpl. unfold StartKVServer. by intros (rf & Hrf & [= <-])%bind_val.
Qed.

Notation kvConfig := (@config KVServer kvSettings App).

Definition rpcTotal (cfg : kvConfig) : Z := Labrpc.GetTotalCount (net cfg).

Definition begin_ (now : Z) (cfg : kvConfig) : kvConfig :=
  with_settings (mkKvSettings (maxraftstate (settings cfg)) now (rpcTotal cfg) 0) cfg.

(** [atomic.AddInt32] *)
Definition op (cfg : kvConfig) : kvConfig :=
  let x := settings cfg in with_settings (mkKvSettings (maxraftstate x) (t0 x) (rpcs0 x) (wrap32 (ops x + 1))) cfg.

(** The numbers [end] prints, if the test has not failed: time, servers, RPCs, operations *)
Definition end_ (now : Z) (cfg : kvConfig) : res (option (Z * Z * Z * Z)) :=
  cfg1 ← checkTimeout now cfg;
  let x := settings cfg1 in
  if negb (failed cfg1) then mret (Some (now - t0 x, Z.of_nat (n cfg1), wrap64 (rpcTotal cfg1 - rpcs0 x), ops x)) else mret None.

End KvTester.

(** ** The tester of the shard master, which is a copy of the other *)

Section MasterTester.
Context {Cmd App : Type} `{!Codec Cmd}.
Notation ShardMaster := (@ShardMaster Cmd).

#[export] Instance master_service : RaftService Cmd ShardMaster unit := {
  srv_rf := ShardMaster_Raft;
  srv_set_rf rf sm := mkShardMaster (sm_me sm) rf (sm_configs sm);
  srv_Kill := ShardMaster_Kill;
  srv_start _ k me ps now rnd := StartServer_master k me ps now rnd;
  srv_name := "ShardMaster" }.

#[export] Instance master_service_laws : RaftServiceLaws (Cmd := Cmd) (Srv := ShardMaster) (X := unit).
Proof.
  split; [done|done|]. intros x k me ps now rnd sm. simpl. unfold StartServer_master. by intros (rf & Hrf & [= <-])%bind_val.
Qed.

Context (service_methods raft_methods : nat -> list (Labrpc.methodDesc (App := App))).

Definition masterConfig : Type := @config ShardMaster unit App.

Definition master_checkTimeout : Z -> masterConfig -> res masterConfig := checkTimeout.
Definition master_cleanup : Z -> masterConfig -> res masterConfig := cleanup (Cmd := Cmd).
Definition master_LogSize : masterConfig -> res Z := LogSize.
Definition master_connectUnlocked : Z -> list Z -> masterConfig -> res masterConfig := connectUnlocked.
Definition master_disconnectUnlocked : Z -> list Z -> masterConfig -> res masterConfig := disconnectUnlocked.
Definition master_connect : Z -> list Z -> masterConfig -> res masterConfig := connect.
Definition master_disconnect : Z -> list Z -> masterConfig -> res masterConfig := disconnect.
Definition master_All : masterConfig -> list Z := All.
Definition master_ConnectAll : masterConfig -> res masterConfig := ConnectAll.
Definition master_partition : list Z -> list Z -> masterConfig -> res masterConfig := partition.
Definition master_makeClient : list Z -> (nat -> list byte) -> (nat -> Z) -> masterConfig -> res (nat * masterConfig) := makeClient.
Definition master_deleteClient : nat -> masterConfig -> list string * masterConfig := deleteClient.
Definition master_ConnectClientUnlocked : nat -> list Z -> masterConfig -> res masterConfig := ConnectClientUnlocked.
Definition master_DisconnectClientUnlocked : nat -> list Z -> masterConfig -> res masterConfig := DisconnectClientUnlocked.
Definition master_ConnectClient : nat -> list Z -> masterConfig -> res masterConfig := ConnectClient.
Definition master_DisconnectClient : nat -> list Z -> masterConfig -> res masterConfig := DisconnectClient.
Definition master_ShutdownServer : nat -> masterConfig -> res masterConfig := ShutdownServer (Cmd := Cmd).
Definition master_StartServer : nat -> (nat -> list byte) -> Z -> Z -> masterConfig -> res masterConfig :=
  StartServer (Cmd := Cmd) service_methods raft_methods.
Definition master_Leader : masterConfig -> (nat -> bool) -> res (bool * Z) := Leader.
Definition master_make_partition : masterConfig -> (nat -> bool) -> res (list Z * list Z) := make_partition.
Definition master_make_config (k : nat) (unreliable : bool) (now0 : Z) (rnds : nat -> nat -> list byte) (now rnd : nat -> Z) : res masterConfig :=
  make_config (Cmd := Cmd) service_methods raft_methods k unreliable tt now0 rnds now rnd.

End MasterTester.
End ServiceTester.
