(* ===== verification/ServicePartition.v ===== *)
(** * Partitions of the service testers

    [make_partition] puts the leader into the smaller of two groups, and [partition] then connects the servers of
    each group with each other and cuts the groups apart.  The proofs are for any [RaftService]. *)

From stdpp Require Import base list gmap strings.
From Stdlib Require Import ZArith Lia Strings.Byte.
From S2P Require Import Prelude RaftNode RaftCodec Labrpc TestRand ServiceTester.
Import RaftNode RaftCodec TestRand ServiceTester.

Open Scope Z_scope.

Module ServicePartition.

(** ** Random order *)

Lemma swap_permutes {A} (l : list A) (i j : nat) x y :
  l !! i = Some x -> l !! j = Some y -> <[j := x]> (<[i := y]> l) ≡ₚ l.
Proof.
  intros Hi Hj. destruct (decide (i = j)) as [->|Hne].
  - rewrite list_insert_insert_eq. rewrite Hi in Hj. injection Hj as ->. by rewrite list_insert_id.
  - apply Permutation_inj. split; [by rewrite !length_insert|].
    exists (fun k => if decide (k = i) then j else if decide (k = j) then i else k). split.
    + intros a b. repeat case_decide; congruence.
    + intros k. pose proof (lookup_lt_Some _ _ _ Hi). pose proof (lookup_lt_Some _ _ _ Hj). repeat case_decide; subst.
      * rewrite list_lookup_insert_ne, list_lookup_insert_eq by done. done.
      * rewrite list_lookup_insert_eq by (by rewrite length_insert). done.
      * by rewrite !list_lookup_insert_ne by done.
Qed.

Lemma random_handles_permutes {A} (kvh : list A) rnd :
  (forall i, 0 <= rnd i <= Z.of_nat i) -> exists sa, random_handles kvh rnd = Val sa /\ sa ≡ₚ kvh.
Proof.
  intros Hr. unfold random_handles.
  apply (go_for_total (fun _ sa => sa ≡ₚ kvh)); [done|]. intros i sa Hi Hp.
  pose proof (Permutation_length Hp) as Hl. specialize (Hr i).
  destruct (lookup_lt_is_Some_2 sa i) as [x Hx]; [lia|]. destruct (lookup_lt_is_Some_2 sa (Z.to_nat (rnd i))) as [y Hy]; [lia|].
  rewrite (proj2 (go_index_of_nat _ _ _) Hx). simpl.
  rewrite (proj2 (go_index_val _ _ _) (conj (proj1 Hr) Hy)). simpl.
  rewrite (proj2 (go_update_val sa (Z.of_nat i) y _)) by (split; [unfold len; lia|done]). simpl. rewrite Nat2Z.id.
  rewrite (proj2 (go_update_val _ (rnd i) x _)) by (split; [unfold len; rewrite length_insert; lia|done]).
  eexists. split; [done|]. by rewrite swap_permutes.
Qed.

(** ** Two groups *)

(** The first [h] elements of [l], padded with zeros *)
Definition pad (h : nat) (l : list Z) : list Z := take h (l ++ replicate h 0).

Lemma pad_length h l : length (pad h l) = h.
Proof. unfold pad. rewrite length_take, length_app, length_replicate. lia. Qed.

Lemma pad_insert h l x : (length l < h)%nat -> <[length l := x]> (pad h l) = pad h (l ++ [x]).
Proof.
  intros Hl. unfold pad. rewrite (take_app_ge l), (take_app_ge (l ++ [x])) by (rewrite ?length_app; simpl; lia).
  rewrite insert_app_r_alt by lia. rewrite Nat.sub_diag, length_app. simpl. rewrite <- app_assoc. f_equal. simpl.
  rewrite !take_replicate. replace ((h - length l) `min` h)%nat with (S ((h - (length l + 1)) `min` h)) by lia. done.
Qed.

Lemma pad_full h l x : (h <= length l)%nat -> pad h (l ++ x) = pad h l.
Proof. intros Hl. unfold pad. rewrite !take_app_le by (rewrite ?length_app; lia). done. Qed.

(** The servers below [k] that are not [l] *)
Definition non_leaders (k : nat) (l : Z) : list Z := filter (fun z => z <> l) (Z.of_nat <$> seq 0 k).

Lemma non_leaders_S k l : non_leaders (S k) l = non_leaders k l ++ (if decide (Z.of_nat k <> l) then [Z.of_nat k] else []).
Proof. unfold non_leaders. by rewrite seq_S, fmap_app, filter_app. Qed.

Lemma non_leaders_length k l : 0 <= l -> length (non_leaders k l) = if decide (l < Z.of_nat k) then (k - 1)%nat else k.
Proof.
  intros Hl. induction k as [|k IH]; [by case_decide; simpl|]. rewrite non_leaders_S, length_app, IH.
  repeat case_decide; simpl; lia.
Qed.

Lemma fill_partitions_spec k l :
  0 <= l < Z.of_nat k -> exists p1 p2 j, fill_partitions k l = Val (p1, p2, j) /\
    p1 = pad (k / 2 + 1) (non_leaders k l) /\ p2 = pad (k / 2) (drop (k / 2 + 1) (non_leaders k l)).
Proof.
  intros Hl. unfold fill_partitions. set (h1 := (k / 2 + 1)%nat). set (h2 := (k / 2)%nat).
  match goal with |- context [go_for 0 k ?f ?a] =>
    destruct (go_for_total (fun i '(p1, p2, j) => p1 = pad h1 (non_leaders i l) /\ p2 = pad h2 (drop h1 (non_leaders i l)) /\
      j = len (non_leaders i l)) 0 k f a) as ([[p1 p2] j] & Hr & -> & -> & ->)
  end.
  - change (non_leaders 0 l) with (@nil Z). rewrite drop_nil. unfold pad. simpl app. by rewrite !take_replicate, !Nat.min_id.
  - intros i [[p1 p2] j] Hi (-> & -> & ->). rewrite non_leaders_S. pose proof (non_leaders_length i l (proj1 Hl)) as Hlen.
    destruct (Z.eqb_spec (Z.of_nat i) l) as [E|Hne]; simpl.
    { rewrite decide_False by (intros Hn; by apply Hn). rewrite app_nil_r. eexists. split; [done|]. done. }
    rewrite decide_True by done. set (N := non_leaders i l) in *.
    assert (k = 2 * h2 \/ k = 2 * h2 + 1)%nat as Hk by (unfold h2; pose proof (Nat.div_mod_eq k 2); pose proof (Nat.mod_upper_bound k 2); lia).
    replace (len (pad h1 N)) with (Z.of_nat h1) by (unfold len; by rewrite pad_length). destruct (Z.ltb_spec (len N) (Z.of_nat h1)) as [Hlt|Hge]; simpl.
    + rewrite (proj2 (go_update_val _ _ _ _)) by (split; [unfold len in *; rewrite pad_length; lia|done]). simpl.
      eexists. split; [done|]. replace (Z.to_nat (len N)) with (length N) by (unfold len; lia). rewrite pad_insert by (unfold len in Hlt; lia).
      split_and!; [done| |rewrite len_app; done]. unfold len in Hlt. rewrite !drop_ge by (rewrite ?length_app; simpl; lia). done.
    + assert (length (drop h1 N) < h2)%nat as Hd by (rewrite length_drop, Hlen; case_decide; unfold h1 in *; lia).
      unfold len in Hge. assert (len N - Z.of_nat h1 = Z.of_nat (length (drop h1 N))) as -> by (unfold len; rewrite length_drop; lia).
      rewrite (proj2 (go_update_val _ _ _ _)) by (split; [unfold len; rewrite pad_length; lia|done]). simpl.
      eexists. split; [done|]. rewrite Nat2Z.id, pad_full, pad_insert by lia.
      split_and!; [done| |rewrite len_app; done]. by rewrite drop_app_le by lia.
  - exists (pad h1 (non_leaders k l)), (pad h2 (drop h1 (non_leaders k l))), (len (non_leaders k l)). done.
Qed.

(** An odd number of servers fits: the last place of the second group is left for [l]. *)
Lemma fill_odd h l :
  (1 <= h)%nat -> 0 <= l < Z.of_nat (2 * h + 1) ->
  exists p1 p2 j p2', fill_partitions (2 * h + 1) l = Val (p1, p2, j) /\ go_update p2 (len p2 - 1) l = Val p2' /\
    length p1 = (h + 1)%nat /\ length p2' = h /\ l ∈ p2' /\ p1 ++ p2' ≡ₚ Z.of_nat <$> seq 0 (2 * h + 1).
Proof.
  intros Hh Hl. assert ((2 * h + 1) / 2 = h)%nat as Ediv by (symmetry; apply (Nat.div_unique _ 2 h 1); lia).
  destruct (fill_partitions_spec (2 * h + 1) l Hl) as (p1 & p2 & j & Hf & E1 & E2). rewrite Ediv in E1, E2.
  set (N := non_leaders (2 * h + 1) l) in *.
  assert (length N = 2 * h)%nat as HN by (unfold N; rewrite non_leaders_length, decide_True by lia; lia).
  assert (length (drop (h + 1) N) = h - 1)%nat as Hd by (rewrite length_drop; lia).
  exists p1, p2, j, (drop (h + 1) N ++ [l]). split; [done|]. split_and!.
  - apply go_update_val. subst p2. unfold len. rewrite pad_length. split; [lia|].
    replace (Z.to_nat (Z.of_nat h - 1)) with (length (drop (h + 1) N)) by lia. rewrite pad_insert by lia.
    unfold pad. rewrite take_app_le by (rewrite length_app; simpl; lia). symmetry. apply take_ge. rewrite length_app. simpl. lia.
  - subst p1. apply pad_length.
  - rewrite length_app. simpl. lia.
  - set_solver.
  - subst p1. unfold pad. rewrite take_app_le, app_assoc, take_drop by lia. apply NoDup_Permutation.
    + apply NoDup_app. unfold N, non_leaders. split_and!; [apply NoDup_filter, NoDup_fmap_2; [apply _|apply NoDup_seq]| |by apply NoDup_singleton].
      intros x [Hx _]%list_elem_of_filter Hx'%list_elem_of_singleton. done.
    + apply NoDup_fmap_2; [apply _|apply NoDup_seq].
    + intros x. unfold N, non_leaders. rewrite elem_of_app, list_elem_of_filter, list_elem_of_singleton. split; [|destruct (decide (x = l)); naive_solver].
      intros [[_ ?]| ->]; [done|]. apply list_elem_of_fmap. exists (Z.to_nat l). rewrite elem_of_seq. lia.
Qed.

Section Tester.
Context {Cmd Srv X App : Type} `{!Codec Cmd, !RaftService Cmd Srv X}.
Notation config := (@config Srv X App).

(** All servers have been started. *)
Definition all_running (cfg : config) : Prop := forall i, (i < n cfg)%nat -> exists a, servers cfg !! i = Some (Some a).

Lemma leader_loop_finds cfg is_leader i k :
  (i + k = n cfg)%nat -> all_running cfg -> (forall j, (j < i)%nat -> is_leader j = false) ->
  exists b l, leader_loop cfg is_leader i k = Val (b, Z.of_nat l) /\
    if (b : bool) then (l < n cfg)%nat /\ is_leader l = true else l = 0%nat /\ forall j, (j < n cfg)%nat -> is_leader j = false.
Proof.
  revert i. induction k as [|k IH]; intros i Hk Hr Hno; simpl.
  - exists false, 0%nat. split; [done|]. split; [done|]. intros j Hj. apply Hno. lia.
  - destruct (Hr i) as [a Ha]; [lia|]. rewrite (proj2 (go_index_of_nat _ _ _) Ha). simpl. destruct (is_leader i) eqn:El.
    + exists true, i. split; [done|]. split; [lia|done].
    + apply IH; [lia|done|]. intros j Hj. destruct (decide (j = i)) as [->|]; [done|apply Hno; lia].
Qed.

(** C32: With an odd number of servers, three or more, all of them running, [make_partition] never indexes out of
    bounds.  It splits the servers into a majority and the rest, each server in one group, and if a server
    leads, one that leads is in the minority. *)
Theorem make_partition_splits cfg is_leader h :
  n cfg = (2 * h + 1)%nat -> (1 <= h)%nat -> all_running cfg ->
  exists p1 p2, make_partition cfg is_leader = Val (p1, p2) /\
    length p1 = (h + 1)%nat /\ length p2 = h /\ p1 ++ p2 ≡ₚ All cfg /\
    ((exists i, (i < n cfg)%nat /\ is_leader i = true) -> exists l, Z.of_nat l ∈ p2 /\ is_leader l = true).
Proof.
  intros Hn Hh Hr. unfold make_partition, Leader.
  destruct (leader_loop_finds cfg is_leader 0 (n cfg)) as (b & l & -> & Hl); [lia|done|lia|]. simpl.
  destruct (fill_odd h (Z.of_nat l)) as (p1 & p2 & j & p2' & Hf & Hu & H1 & H2 & Hin & HP); [done|destruct b; lia|].
  rewrite Hn, Hf. simpl. rewrite Hu. simpl. exists p1, p2'. split_and!; [done|done|done|unfold All; by rewrite Hn|].
  intros (i & Hi & Ei). exists l. split; [done|]. destruct b; [apply Hl|]. destruct Hl as [_ Hno]. rewrite Hno in Ei by lia. done.
Qed.

(** ** Links *)

(** The servers have ends to each other, under different names. *)
Record named (cfg : config) : Prop := {
  nm_endnames : length (endnames cfg) = n cfg;
  nm_row : forall i l, endnames cfg !! i = Some (Some l) -> length l = n cfg;
  nm_inj : forall i j i' j' e, endname_at cfg i j = Val e -> endname_at cfg i' j' = Val e -> i = i' /\ j = j';
  nm_ends : forall i j e, endname_at cfg i j = Val e -> IStr e ∈ Labrpc.ends (net cfg) }.

(** Server [a] can send to server [b]. *)
Definition link (cfg : config) (a b : Z) : bool :=
  match endname_at cfg a b with Val e => Labrpc.is_enabled (net cfg) (IStr e) | Err _ => false end.

Definition is_server (cfg : config) (a : Z) : Prop := 0 <= a < Z.of_nat (n cfg).

(** Every server has been started. *)
Definition all_named (cfg : config) : Prop := named cfg /\ forall i, (i < n cfg)%nat -> exists l, endnames cfg !! i = Some (Some l).

Lemma endname_total cfg a b : all_named cfg -> is_server cfg a -> is_server cfg b -> exists e, endname_at cfg a b = Val e.
Proof.
  intros [Hnm Hall] Ha Hb. unfold is_server in *. destruct (Hall (Z.to_nat a)) as [l Hl]; [lia|]. unfold endname_at.
  rewrite (proj2 (go_index_val _ _ _) (conj (proj1 Ha) Hl)). simpl.
  destruct (lookup_lt_is_Some_2 l (Z.to_nat b)) as [e He]; [rewrite (nm_row _ Hnm _ _ Hl); lia|].
  exists e. apply go_index_val. split; [lia|done].
Qed.

(** A configuration that differs in what is enabled only *)
Definition relinked (cfg cfg' : config) : Prop :=
  exists E, cfg' = with_net (Labrpc.mkNetwork (Labrpc.reliable (net cfg)) (Labrpc.longDelays (net cfg)) (Labrpc.longReordering (net cfg))
    (Labrpc.ends (net cfg)) E (Labrpc.servers (net cfg)) (Labrpc.connections (net cfg)) (Labrpc.closed (net cfg))
    (Labrpc.count (net cfg)) (Labrpc.nbytes (net cfg))) cfg.

#[local] Instance relinked_refl : Reflexive relinked.
Proof. intros [[] ? ? ? ? ? ? ? ? ? ? ? ? ?]. by eexists. Qed.
#[local] Instance relinked_trans : Transitive relinked.
Proof. intros c1 c2 c3 [E1 ->] [E2 ->]. by exists E2. Qed.

Lemma relinked_enable e yes cfg : relinked cfg (enable e yes cfg).
Proof. by eexists. Qed.

Lemma relinked_named cfg cfg' : relinked cfg cfg' -> all_named cfg -> all_named cfg'.
Proof. intros [E ->] [[] Hall]. split; [|done]. by constructor. Qed.

Lemma relinked_endname cfg cfg' a b : relinked cfg cfg' -> endname_at cfg' a b = endname_at cfg a b.
Proof. by intros [E ->]. Qed.

Lemma relinked_n cfg cfg' : relinked cfg cfg' -> n cfg' = n cfg.
Proof. by intros [E ->]. Qed.

(** Switching one link *)
Lemma link_enable cfg a b e yes a' b' :
  named cfg -> endname_at cfg a b = Val e ->
  link (enable e yes cfg) a' b' = if bool_decide (a' = a /\ b' = b) then yes else link cfg a' b'.
Proof.
  intros Hnm He. unfold link. change (endname_at (enable e yes cfg) a' b') with (endname_at cfg a' b').
  destruct (endname_at cfg a' b') as [e'|] eqn:He'.
  - unfold Labrpc.is_enabled. simpl. case_bool_decide as Hd.
    + destruct Hd as [-> ->]. rewrite He in He'. injection He' as <-. by rewrite lookup_insert_eq.
    + rewrite lookup_insert_ne; [done|]. intros [= ->]. apply Hd. by destruct (nm_inj _ Hnm _ _ _ _ _ He' He).
  - case_bool_decide as Hd; [|done]. destruct Hd as [-> ->]. congruence.
Qed.

(** A loop that switches the links [pairs] *)
Lemma link_loop (f : nat -> config -> res config) (pairs : list (Z * Z)) yes cfg :
  all_named cfg -> (forall a b, (a, b) ∈ pairs -> is_server cfg a /\ is_server cfg b) ->
  (forall j a b c e, pairs !! j = Some (a, b) -> relinked cfg c -> endname_at c a b = Val e -> f j c = Val (enable e yes c)) ->
  exists cfg', go_for 0 (length pairs) f cfg = Val cfg' /\ relinked cfg cfg' /\
    forall a b, link cfg' a b = if bool_decide ((a, b) ∈ pairs) then yes else link cfg a b.
Proof.
  intros Hnm Hsrv Hf.
  destruct (go_for_total (fun k c => relinked cfg c /\
    forall a b, link c a b = if bool_decide ((a, b) ∈ take k pairs) then yes else link cfg a b) 0 (length pairs) f cfg)
    as (cfg' & Hr & Hre & Hl).
  - split; [done|]. intros a b. by rewrite bool_decide_eq_false_2 by (rewrite take_0; apply not_elem_of_nil).
  - intros j c Hj [Hre Hl]. destruct (lookup_lt_is_Some_2 pairs j) as [[a b] Hab]; [lia|].
    destruct (Hsrv a b) as [Ha Hb]; [by eapply list_elem_of_lookup_2|].
    pose proof (relinked_named _ _ Hre Hnm) as Hnc.
    destruct (endname_total c a b Hnc) as [e He]; [unfold is_server in *; by rewrite (relinked_n _ _ Hre)..|].
    exists (enable e yes c). split; [by eapply Hf|]. split; [etransitivity; [exact Hre|apply relinked_enable]|].
    intros a' b'. rewrite (link_enable c a b e yes a' b' (proj1 Hnc) He), Hl, (take_S_r _ _ _ Hab).
    rewrite (bool_decide_ext ((a', b') ∈ take j pairs ++ [(a, b)]) ((a' = a /\ b' = b) \/ (a', b') ∈ take j pairs)).
    + rewrite bool_decide_or. by destruct (bool_decide (a' = a /\ b' = b)), (bool_decide ((a', b') ∈ take j pairs)).
    + rewrite elem_of_app, list_elem_of_singleton, pair_eq. tauto.
  - exists cfg'. split_and!; [done|done|]. intros a b. by rewrite Hl, take_ge by done.
Qed.

(** Both directions between the servers of [P] and those of [q] *)
Definition reach (P q : list Z) (a b : Z) : Prop := (a ∈ P /\ b ∈ q) \/ (b ∈ P /\ a ∈ q).

#[local] Instance reach_dec P q a b : Decision (reach P q a b).
Proof. unfold reach. apply _. Defined.

Lemma reach_snoc P x q a b : reach (P ++ [x]) q a b <-> reach P q a b \/ reach [x] q a b.
Proof. unfold reach. rewrite !elem_of_app. tauto. Qed.

Lemma reach_apart p q P P' a b :
  (forall x, x ∈ p -> x ∉ q) -> P ⊆ p -> P' ⊆ p -> reach P p a b -> reach P' q a b -> False.
Proof.
  intros Hd HP HP' [[Ha%HP Hb]|[Hb%HP Ha]] [[Ha' Hb']|[Hb' Ha']]; first [by apply (Hd b)|by apply (Hd a)].
Qed.

(** Two loops, one per direction *)
Lemma spokes_loops (f g : nat -> config -> res config) i to yes cfg :
  all_named cfg -> is_server cfg i -> (forall x, x ∈ to -> is_server cfg x) ->
  (forall j x c e, to !! j = Some x -> relinked cfg c -> endname_at c i x = Val e -> f j c = Val (enable e yes c)) ->
  (forall j x c e, to !! j = Some x -> relinked cfg c -> endname_at c x i = Val e -> g j c = Val (enable e yes c)) ->
  exists cfg', (cfg1 ← go_for 0 (length to) f cfg; go_for 0 (length to) g cfg1) = Val cfg' /\ relinked cfg cfg' /\
    forall a b, link cfg' a b = if bool_decide (reach [i] to a b) then yes else link cfg a b.
Proof.
  intros Hnm Hi Hto Hf Hg.
  destruct (link_loop f (pair i <$> to) yes cfg) as (cfg1 & H1 & Hre1 & Hl1); [done| | |].
  - intros a b (x & [= -> ->] & Hx)%list_elem_of_fmap. auto.
  - intros j a b c e Hj. rewrite list_lookup_fmap in Hj. destruct (to !! j) as [x|] eqn:Ex; [|done]. injection Hj as <- <-. by eapply Hf.
  - destruct (link_loop g ((fun x => (x, i)) <$> to) yes cfg1) as (cfg2 & H2 & Hre2 & Hl2); [by eapply relinked_named| | |].
    + intros a b (x & [= -> ->] & Hx)%list_elem_of_fmap. unfold is_server in *. rewrite (relinked_n _ _ Hre1). auto.
    + intros j a b c e Hj. rewrite list_lookup_fmap in Hj. destruct (to !! j) as [x|] eqn:Ex; [|done]. injection Hj as <- <-.
      intros Hc. eapply Hg; [done|]. by etransitivity.
    + rewrite length_fmap in H1, H2. exists cfg2. rewrite H1. split_and!; [exact H2|by etransitivity|].
      intros a b. rewrite Hl2, Hl1.
      rewrite (bool_decide_ext (reach [i] to a b) ((a, b) ∈ (fun x => (x, i)) <$> to \/ (a, b) ∈ pair i <$> to)).
      * rewrite bool_decide_or. by destruct (bool_decide ((a, b) ∈ (fun x => (x, i)) <$> to)), (bool_decide ((a, b) ∈ pair i <$> to)).
      * unfold reach. rewrite !list_elem_of_fmap, !list_elem_of_singleton. split.
        -- intros [[-> Hb]|[-> Ha]]; [right; by exists b|left; by exists a].
        -- intros [(x & [= -> ->] & Hx)|(x & [= -> ->] & Hx)]; [right|left]; done.
Qed.

Lemma connectUnlocked_links i to cfg :
  all_named cfg -> is_server cfg i -> (forall x, x ∈ to -> is_server cfg x) ->
  exists cfg', connectUnlocked i to cfg = Val cfg' /\ relinked cfg cfg' /\
    forall a b, link cfg' a b = if bool_decide (reach [i] to a b) then true else link cfg a b.
Proof.
  intros Hnm Hi Hto. apply spokes_loops; [done|done|done|..]; intros j x c e Hj _ He;
    rewrite (proj2 (go_index_of_nat _ _ _) Hj); simpl; by rewrite He.
Qed.

Lemma disconnectUnlocked_links i from cfg :
  all_named cfg -> is_server cfg i -> (forall x, x ∈ from -> is_server cfg x) -> (length from <= n cfg)%nat ->
  exists cfg', disconnectUnlocked i from cfg = Val cfg' /\ relinked cfg cfg' /\
    forall a b, link cfg' a b = if bool_decide (reach [i] from a b) then false else link cfg a b.
Proof.
  intros Hnm Hi Hfrom Hlen. assert (forall c j, relinked cfg c -> (j < n cfg)%nat -> exists l, go_index (endnames c) (Z.of_nat j) = Val (Some l)) as Hrow.
  { intros c j [E ->] Hj. destruct (proj2 Hnm j Hj) as [l Hl]. exists l. by apply go_index_of_nat. }
  apply spokes_loops; [done|done|done|..]; intros j x c e Hj Hre He.
  - destruct (Hrow c (Z.to_nat i) Hre) as [l Hl]; [unfold is_server in Hi; lia|]. rewrite Z2Nat.id in Hl by apply Hi. rewrite Hl. simpl.
    rewrite (proj2 (go_index_of_nat _ _ _) Hj). simpl. by rewrite He.
  - apply lookup_lt_Some in Hj as Hlt. destruct (Hrow c j Hre) as [l Hl]; [lia|]. rewrite Hl. simpl.
    rewrite (proj2 (go_index_of_nat _ _ _) Hj). simpl. by rewrite He.
Qed.

(** One turn of the loop over a group *)
Definition group_loop (p q : list Z) (i : nat) (cfg : config) : res config :=
  x ← go_index p (Z.of_nat i); cfg' ← disconnectUnlocked x q cfg; connectUnlocked x p cfg'.

Lemma group_links p q cfg :
  all_named cfg -> (forall x, x ∈ p ++ q -> is_server cfg x) -> (forall x, x ∈ p -> x ∉ q) -> (length q <= n cfg)%nat ->
  exists cfg', go_for 0 (length p) (group_loop p q) cfg = Val cfg' /\ relinked cfg cfg' /\
    forall a b, link cfg' a b = if bool_decide (reach p p a b) then true else if bool_decide (reach p q a b) then false else link cfg a b.
Proof.
  intros Hnm Hsrv Hdis Hlen.
  destruct (go_for_total (fun k c => relinked cfg c /\ forall a b, link c a b =
    if bool_decide (reach (take k p) p a b) then true else if bool_decide (reach (take k p) q a b) then false else link cfg a b)
    0 (length p) (group_loop p q) cfg) as (cfg' & Hr & Hre & Hl).
  - split; [done|]. intros a b. rewrite !bool_decide_eq_false_2; [done|unfold reach; rewrite take_0; set_solver..].
  - intros k c Hk [Hre Hl]. destruct (lookup_lt_is_Some_2 p k) as [x Hx]; [lia|]. unfold group_loop.
    rewrite (proj2 (go_index_of_nat _ _ _) Hx). simpl.
    assert (x ∈ p) as Hxp by (by eapply list_elem_of_lookup_2).
    assert (forall c', relinked cfg c' -> all_named c' /\ (forall y, y ∈ p ++ q -> is_server c' y) /\ (length q <= n c')%nat) as Hc.
    { intros c' Hc'. unfold is_server in *. rewrite (relinked_n _ _ Hc'). split; [by eapply relinked_named|done]. }
    destruct (Hc c Hre) as (Hnc & Hsc & Hlc).
    destruct (disconnectUnlocked_links x q c) as (c1 & -> & Hre1 & Hl1); [done|apply Hsc; set_solver|intros; apply Hsc; set_solver|done|]. simpl.
    assert (relinked cfg c1) as Hre1' by (by etransitivity). destruct (Hc c1 Hre1') as (Hnc1 & Hsc1 & _).
    destruct (connectUnlocked_links x p c1) as (c2 & -> & Hre2 & Hl2); [done|apply Hsc1; set_solver|intros; apply Hsc1; set_solver|].
    exists c2. split; [done|]. split; [by etransitivity|]. intros a b. rewrite Hl2, Hl1, Hl, (take_S_r _ _ _ Hx).
    assert (take k p ⊆ p) as Htk by (intros y (? & Hy & _)%elem_of_take; by eapply list_elem_of_lookup_2).
    assert ([x] ⊆ p) as Hxs by (intros y ->%list_elem_of_singleton; done).
    rewrite (bool_decide_ext _ _ (reach_snoc (take k p) x p a b)), (bool_decide_ext _ _ (reach_snoc (take k p) x q a b)), !bool_decide_or.
    pose proof (reach_apart p q (take k p) [x] a b Hdis Htk Hxs) as Hap.
    case_bool_decide; [by rewrite orb_true_r|]. case_bool_decide; [|by rewrite !orb_false_r].
    rewrite bool_decide_eq_false_2 by (intros ?; by apply Hap). by rewrite orb_true_r.
  - exists cfg'. split_and!; [done|done|]. intros a b. by rewrite Hl, !take_ge by done.
Qed.

Lemma partition_links p1 p2 cfg :
  all_named cfg -> (forall x, x ∈ p1 ++ p2 -> is_server cfg x) -> NoDup (p1 ++ p2) ->
  exists cfg', partition p1 p2 cfg = Val cfg' /\ relinked cfg cfg' /\
    forall a b, a ∈ p1 ++ p2 -> b ∈ p1 ++ p2 -> link cfg' a b = bool_decide (a ∈ p1 <-> b ∈ p1).
Proof.
  intros Hnm Hsrv (Hn1 & Hdis & Hn2)%NoDup_app.
  assert (forall p, NoDup p -> (forall x, x ∈ p -> is_server cfg x) -> (length p <= n cfg)%nat) as Hle.
  { intros p Hp Hin.  assert (p ⊆+ seqZ 0 (Z.of_nat (n cfg))) as Hsub%submseteq_length; [|rewrite length_seqZ in Hsub; lia].
    apply NoDup_submseteq; [done|]. intros x Hx. apply elem_of_seqZ. specialize (Hin x Hx). unfold is_server in Hin. lia. }
  destruct (group_links p1 p2 cfg) as (c1 & H1 & Hre1 & Hl1); [done|done|set_solver|apply Hle; [done|set_solver]|].
  destruct (group_links p2 p1 c1) as (c2 & H2 & Hre2 & Hl2).
  - by eapply relinked_named.
  - intros x Hx. unfold is_server in *. rewrite (relinked_n _ _ Hre1). set_solver.
  - set_solver.
  - rewrite (relinked_n _ _ Hre1). apply Hle; [done|set_solver].
  - exists c2. split; [|split; [by etransitivity|]].
    + unfold partition. unfold group_loop in H1, H2. rewrite H1. exact H2.
    + intros a b [Ha|Ha]%elem_of_app [Hb|Hb]%elem_of_app; rewrite Hl2, Hl1.
      * rewrite (bool_decide_eq_false_2 (reach p2 p2 a b)) by (intros [[? ?]|[? ?]]; by eapply (Hdis a)).
        rewrite (bool_decide_eq_false_2 (reach p2 p1 a b)) by (intros [[? ?]|[? ?]]; [by eapply (Hdis a)|by eapply (Hdis b)]).
        rewrite (bool_decide_eq_true_2 (reach p1 p1 a b)) by (by left). symmetry. by apply bool_decide_eq_true_2.
      * rewrite (bool_decide_eq_false_2 (reach p2 p2 a b)) by (intros [[? ?]|[? ?]]; by eapply (Hdis a)).
        rewrite (bool_decide_eq_true_2 (reach p2 p1 a b)) by (by right). symmetry. apply bool_decide_eq_false_2. intros [Hab _]. by eapply (Hdis b); [apply Hab|].
      * rewrite (bool_decide_eq_false_2 (reach p2 p2 a b)) by (intros [[? ?]|[? ?]]; by eapply (Hdis b)).
        rewrite (bool_decide_eq_true_2 (reach p2 p1 a b)) by (by left). symmetry. apply bool_decide_eq_false_2. intros [_ Hba]. by eapply (Hdis a); [apply Hba|].
      * rewrite (bool_decide_eq_true_2 (reach p2 p2 a b)) by (by left). symmetry. apply bool_decide_eq_true_2.
        split; intros Hin; exfalso; [by eapply (Hdis a)|by eapply (Hdis b)].
Qed.

(** ** Names over a whole test *)

(** The same names, and perhaps more ends *)
Definition keeps_names (cfg cfg' : config) : Prop :=
  n cfg' = n cfg /\ endnames cfg' = endnames cfg /\ Labrpc.ends (net cfg) ⊆ Labrpc.ends (net cfg').

#[local] Instance keeps_names_refl : Reflexive keeps_names.
Proof. by intros cfg. Qed.
#[local] Instance keeps_names_trans : Transitive keeps_names.
Proof. intros c1 c2 c3 (E1 & E2 & E3) (F1 & F2 & F3). split_and!; [congruence|congruence|by etransitivity]. Qed.

Lemma keeps_named cfg cfg' : keeps_names cfg cfg' -> named cfg -> named cfg'.
Proof.
  intros (E1 & E2 & E3) []. constructor; unfold endname_at in *; rewrite ?E1, ?E2; eauto.
Qed.

Lemma keeps_all_named cfg cfg' : keeps_names cfg cfg' -> all_named cfg -> all_named cfg'.
Proof. intros Hk [Hnm Hall]. split; [by eapply keeps_named|]. destruct Hk as (-> & -> & _). done. Qed.

Lemma loop_keeps_names f i m cfg cfg' :
  (forall j c c', f j c = Val c' -> keeps_names c c') -> go_for i m f cfg = Val cfg' -> keeps_names cfg cfg'.
Proof.
  intros Hf Hr. apply (go_for_inv (fun _ c => keeps_names cfg c)) in Hr; [done|done|].
  intros j c c' _ Hc Hs%Hf. by transitivity c.
Qed.

Ltac keeps :=
  repeat match goal with
  | H : _ ≫= _ = Val _ |- _ => apply bind_val in H as (? & ? & H)
  | H : go_for _ _ _ _ = Val _ |- keeps_names _ _ => apply loop_keeps_names in H; [|clear H; intros ? ? ? H; simpl in H]
  | H : match ?o with Some _ => _ | None => _ end = Val _ |- _ => destruct o
  | H : mret _ = Val _ |- _ => injection H as <-
  | H : keeps_names ?c ?c' |- keeps_names ?c _ => apply (keeps_names_trans _ _ _ H); clear H
  end; try (split_and!; done).

Lemma connectUnlocked_keeps i to cfg cfg' : connectUnlocked i to cfg = Val cfg' -> keeps_names cfg cfg'.
Proof.
  unfold connectUnlocked. intros (c1 & H1 & H2)%bind_val. transitivity c1; [clear H2; keeps|clear H1; keeps].
Qed.

Lemma disconnectUnlocked_keeps i from cfg cfg' : disconnectUnlocked i from cfg = Val cfg' -> keeps_names cfg cfg'.
Proof.
  unfold disconnectUnlocked. intros (c1 & H1 & H2)%bind_val. transitivity c1; [clear H2; keeps|clear H1; keeps].
Qed.

Lemma partition_keeps p1 p2 cfg cfg' : partition p1 p2 cfg = Val cfg' -> keeps_names cfg cfg'.
Proof.
  unfold partition. intros (c1 & H1 & H2)%bind_val.
  transitivity c1; [apply loop_keeps_names in H1|apply loop_keeps_names in H2]; try done;
    intros j c c' (x & _ & (c2 & Hd%disconnectUnlocked_keeps & Hc%connectUnlocked_keeps)%bind_val)%bind_val; by transitivity c2.
Qed.

Lemma run_section_keeps a f cfg cfg' : run_section (Cmd := Cmd) a f cfg = Val cfg' -> keeps_names cfg cfg'.
Proof. unfold run_section. intros Hr. keeps. Qed.

Lemma ShutdownServer_keeps i cfg cfg' : ShutdownServer (Cmd := Cmd) i cfg = Val cfg' -> keeps_names cfg cfg'.
Proof.
  unfold ShutdownServer. intros (c1 & H1%disconnectUnlocked_keeps & Hr)%bind_val. transitivity c1; [done|]. clear H1.
  apply bind_val in Hr as (sv & _ & (c3 & H3 & (kv & _ & Hr)%bind_val)%bind_val).
  assert (keeps_names c1 c3) as Hk3 by (destruct sv; [apply bind_val in H3 as (ps & _ & [= <-])|injection H3 as <-]; done).
  transitivity c3; [done|]. destruct kv as [a|]; [|by injection Hr as <-].
  apply bind_val in Hr as (c4 & H4%run_section_keeps & [= <-]). by transitivity c4.
Qed.

Lemma fresh_ends_keeps rnds cfg l cfg' : fresh_ends rnds cfg = Val (l, cfg') -> keeps_names cfg cfg'.
Proof.
  unfold fresh_ends. intros Hr. apply (go_for_inv (fun _ '(_, c) => keeps_names cfg c)) in Hr; [done|done|].
  intros j [l0 c] [l1 c'] _ Hc (e & _ & (rn & Hm & [= _ <-])%bind_val)%bind_val. transitivity c; [done|].
  unfold Labrpc.MakeEnd in Hm. case_decide; [done|]. injection Hm as <-. split_and!; [done|done|]. simpl. set_solver.
Qed.

Lemma ConnectClient_keeps ck to cfg cfg' : ConnectClientUnlocked ck to cfg = Val cfg' -> keeps_names cfg cfg'.
Proof. unfold ConnectClientUnlocked. apply loop_keeps_names. intros j c c' Hc. keeps. Qed.

Lemma DisconnectClient_keeps ck from cfg cfg' : DisconnectClientUnlocked ck from cfg = Val cfg' -> keeps_names cfg cfg'.
Proof. unfold DisconnectClientUnlocked. apply loop_keeps_names. intros j c c' Hc. keeps. Qed.

Lemma makeClient_keeps to rnds rnd cfg ck cfg' : makeClient to rnds rnd cfg = Val (ck, cfg') -> keeps_names cfg cfg'.
Proof.
  unfold makeClient. intros ([l c1] & H1%fresh_ends_keeps & (hs & _ & (c3 & H3 & [= _ <-])%bind_val)%bind_val)%bind_val.
  transitivity c1; [done|]. exact (ConnectClient_keeps _ _ _ _ H3).
Qed.

(** ** Starting a server *)

Context (service_methods raft_methods : nat -> list (Labrpc.methodDesc (App := App))).

Lemma boot_keeps i now rnd cfg cfg' : boot (Cmd := Cmd) service_methods raft_methods i now rnd cfg = Val cfg' -> keeps_names cfg cfg'.
Proof.
  unfold boot. intros (sv & _ & ([p c1] & H1 & Hr)%bind_val)%bind_val.
  assert (keeps_names cfg c1) as Hk by (destruct sv; [apply bind_val in H1 as (ps & _ & [= _ <-])|injection H1 as _ <-]; done).
  transitivity c1; [done|]. by apply bind_val in Hr as (ps & _ & (rf & _ & (rs & _ & [= <-])%bind_val)%bind_val).
Qed.

(** The loop that makes the ends of server [i]: their names are new and distinct. *)
Lemma new_ends i m cfg cfg' :
  go_for 0 m (fun j cfg =>
    e ← endname_at cfg (Z.of_nat i) (Z.of_nat j);
    rn ← Labrpc.MakeEnd (IStr e) (net cfg);
    mret (with_net (Labrpc.Connect (IStr e) (IInt (Z.of_nat j)) rn) cfg)) cfg = Val cfg' ->
  keeps_names cfg cfg' /\
  (forall j e, (j < m)%nat -> endname_at cfg (Z.of_nat i) (Z.of_nat j) = Val e -> IStr e ∉ Labrpc.ends (net cfg) /\ IStr e ∈ Labrpc.ends (net cfg')) /\
  (forall j j' e, (j < m)%nat -> (j' < m)%nat -> endname_at cfg (Z.of_nat i) (Z.of_nat j) = Val e ->
     endname_at cfg (Z.of_nat i) (Z.of_nat j') = Val e -> j = j').
Proof.
  intros Hr. apply (go_for_inv (fun k c => keeps_names cfg c /\
    (forall j e, (j < k)%nat -> endname_at cfg (Z.of_nat i) (Z.of_nat j) = Val e -> IStr e ∉ Labrpc.ends (net cfg) /\ IStr e ∈ Labrpc.ends (net c)) /\
    (forall j j' e, (j < k)%nat -> (j' < k)%nat -> endname_at cfg (Z.of_nat i) (Z.of_nat j) = Val e ->
       endname_at cfg (Z.of_nat i) (Z.of_nat j') = Val e -> j = j'))) in Hr; [done| |].
  - split; [done|]. split; intros; lia.
  - intros k c c' Hk (Hkn & Hnew & Hinj) (e & He & (rn & Hm & [= <-])%bind_val)%bind_val.
    unfold Labrpc.MakeEnd in Hm. case_decide as Hin; [done|]. injection Hm as <-.
    assert (endname_at cfg (Z.of_nat i) (Z.of_nat k) = Val e) as Hek.
    { destruct Hkn as (_ & E & _). unfold endname_at in *. by rewrite <- E. }
    assert (IStr e ∉ Labrpc.ends (net cfg)) as Hold by (intros Hc; apply Hin; by apply Hkn).
    split_and!.
    + transitivity c; [done|]. split_and!; [done|done|]. simpl. set_solver.
    + intros j e' Hj He'. simpl. destruct (decide (j = k)) as [->|Hne].
      * rewrite Hek in He'. injection He' as <-. set_solver.
      * destruct (Hnew j e') as [? ?]; [lia|done|]. set_solver.
    + intros j j' e' Hj Hj' H1 H2. destruct (decide (j = k)) as [->|Hne], (decide (j' = k)) as [->|Hne']; try done.
      * rewrite Hek in H1. injection H1 as <-. destruct (Hnew j' e) as [_ ?]; [lia|done|]. done.
      * rewrite Hek in H2. injection H2 as <-. destruct (Hnew j e) as [_ ?]; [lia|done|]. done.
      * apply (Hinj j j' e'); [lia|lia|done|done].
Qed.

Lemma StartServer_named i rnds now rnd cfg cfg' :
  named cfg -> StartServer (Cmd := Cmd) service_methods raft_methods i rnds now rnd cfg = Val cfg' ->
  named cfg' /\ n cfg' = n cfg /\ exists l, endnames cfg' = <[i := Some l]> (endnames cfg) /\ (i < n cfg)%nat.
Proof.
  intros Hnm. unfold StartServer. intros (l & Hl & (eps & [Hi ->]%go_update_val & (c2 & H2 & Hb%boot_keeps)%bind_val)%bind_val)%bind_val.
  rewrite Nat2Z.id in *. apply new_ends in H2 as (Hk & Hnew & Hinj). simpl in Hnew.
  unfold len in Hi. rewrite (nm_endnames _ Hnm) in Hi.
  apply mapM_val_inv, Forall2_length in Hl. rewrite length_seq in Hl.
  set (c1 := with_endnames (<[i := Some l]> (endnames cfg)) cfg) in *.
  assert (keeps_names c1 cfg') as Hk' by (by transitivity c2).
  assert (forall a b e, endname_at c1 a b = Val e -> if decide (a = Z.of_nat i) then 0 <= b < Z.of_nat (n cfg) else endname_at cfg a b = Val e) as Hat.
  { intros a b e. unfold endname_at, c1. simpl. intros (o & [Ha Ho]%go_index_val & Hr)%bind_val. case_decide as Hd.
    - subst a. rewrite Nat2Z.id, list_lookup_insert_eq in Ho by (rewrite (nm_endnames _ Hnm); lia). injection Ho as <-.
      apply go_index_val in Hr as [? ?%lookup_lt_Some]. lia.
    - rewrite list_lookup_insert_ne in Ho by lia. rewrite (proj2 (go_index_val _ _ _) (conj Ha Ho)). exact Hr. }
  assert (forall b e, endname_at c1 (Z.of_nat i) b = Val e -> IStr e ∉ Labrpc.ends (net cfg) /\ IStr e ∈ Labrpc.ends (net c2)) as Hfr.
  { intros b e He. pose proof (Hat _ _ _ He) as Hb'. rewrite decide_True in Hb' by done.
    apply (Hnew (Z.to_nat b) e); [lia|]. by rewrite Z2Nat.id by lia. }
  split; [|split; [apply Hk'|exists l; split; [apply Hk'|lia]]].
  assert (Labrpc.ends (net c2) ⊆ Labrpc.ends (net cfg')) as Hends by apply Hb.
  destruct Hk' as (E1 & E2 & E3). assert (forall a b, endname_at cfg' a b = endname_at c1 a b) as Hsame by (intros; unfold endname_at; by rewrite E2).
  constructor.
  - rewrite E1, E2. simpl. rewrite length_insert. apply (nm_endnames _ Hnm).
  - rewrite E1, E2. intros a l'. simpl. intros [(_ & [= <-] & _)|[_ Ha]]%list_lookup_insert_Some; [done|by eapply (nm_row _ Hnm)].
  - intros a b a' b' e. rewrite !Hsame. intros H1 H2. pose proof (Hat _ _ _ H1) as A1. pose proof (Hat _ _ _ H2) as A2.
    destruct (decide (a = Z.of_nat i)) as [->|Ha], (decide (a' = Z.of_nat i)) as [->|Ha'].
    + split; [done|]. enough (Z.to_nat b = Z.to_nat b') by lia.
      apply (Hinj _ _ e); [simpl; lia|simpl; lia|by rewrite Z2Nat.id by lia|by rewrite Z2Nat.id by lia].
    + exfalso. destruct (Hfr _ _ H1) as [Hn _]. apply Hn. by eapply (nm_ends _ Hnm).
    + exfalso. destruct (Hfr _ _ H2) as [Hn _]. apply Hn. by eapply (nm_ends _ Hnm).
    + by eapply (nm_inj _ Hnm).
  - intros a b e. rewrite Hsame. intros He. pose proof (Hat _ _ _ He) as A. destruct (decide (a = Z.of_nat i)) as [->|Ha].
    + apply Hends. by eapply Hfr.
    + apply E3. simpl. by eapply (nm_ends _ Hnm).
Qed.

(** The operations of a test *)
Inductive service_op :=
  | OpConnect (i : Z) (to : list Z) | OpDisconnect (i : Z) (from : list Z) | OpConnectAll | OpPartition (p1 p2 : list Z)
  | OpMakeClient (to : list Z) (rnds : nat -> list byte) (rnd : nat -> Z) | OpDeleteClient (ck : nat)
  | OpConnectClient (ck : nat) (to : list Z) | OpDisconnectClient (ck : nat) (from : list Z)
  | OpShutdown (i : nat) | OpStart (i : nat) (rnds : nat -> list byte) (now rnd : Z)
  | OpSection (a : nat) (f : Srv -> res Srv).    (* some goroutine of a server, shut down or not *)

Definition service_step (o : service_op) (cfg : config) : res config :=
  match o with
  | OpConnect i to => connectUnlocked i to cfg
  | OpDisconnect i from => disconnectUnlocked i from cfg
  | OpConnectAll => ConnectAll cfg
  | OpPartition p1 p2 => partition p1 p2 cfg
  | OpMakeClient to rnds rnd => snd <$> makeClient to rnds rnd cfg
  | OpDeleteClient ck => mret (deleteClient ck cfg).2
  | OpConnectClient ck to => ConnectClientUnlocked ck to cfg
  | OpDisconnectClient ck from => DisconnectClientUnlocked ck from cfg
  | OpShutdown i => ShutdownServer (Cmd := Cmd) i cfg
  | OpStart i rnds now rnd => StartServer (Cmd := Cmd) service_methods raft_methods i rnds now rnd cfg
  | OpSection a f => run_section (Cmd := Cmd) a f cfg
  end.

Fixpoint service_run (os : list service_op) (cfg : config) : res config :=
  match os with
  | [] => mret cfg
  | o :: os' => cfg' ← service_step o cfg; service_run os' cfg'
  end.

Lemma ConnectAll_keeps cfg cfg' : ConnectAll cfg = Val cfg' -> keeps_names cfg cfg'.
Proof. unfold ConnectAll. apply loop_keeps_names. intros j c c'. apply connectUnlocked_keeps. Qed.

Lemma service_step_named o cfg cfg' : all_named cfg -> service_step o cfg = Val cfg' -> all_named cfg'.
Proof.
  intros Hnm Hs. destruct o; simpl in Hs.
  - eapply keeps_all_named; [by eapply connectUnlocked_keeps|done].
  - eapply keeps_all_named; [by eapply disconnectUnlocked_keeps|done].
  - eapply keeps_all_named; [by eapply ConnectAll_keeps|done].
  - eapply keeps_all_named; [by eapply partition_keeps|done].
  - destruct (makeClient _ _ _ _) as [[ck c]|] eqn:E; [|done]. injection Hs as <-. eapply keeps_all_named; [by eapply makeClient_keeps|done].
  - injection Hs as <-. by eapply keeps_all_named; [|exact Hnm].
  - eapply keeps_all_named; [by eapply ConnectClient_keeps|done].
  - eapply keeps_all_named; [by eapply DisconnectClient_keeps|done].
  - eapply keeps_all_named; [by eapply ShutdownServer_keeps|done].
  - destruct Hnm as [Hnm Hall]. apply StartServer_named in Hs as (Hnm' & En & l & Ee & Hi); [|done]. split; [done|].
    intros j Hj. rewrite Ee. destruct (decide (j = i)) as [->|Hne]; [exists l; apply list_lookup_insert_eq; rewrite (nm_endnames _ Hnm); lia|].
    rewrite list_lookup_insert_ne by done. apply Hall. lia.
  - eapply keeps_all_named; [by eapply run_section_keeps|done].
Qed.

Lemma service_run_named os cfg cfg' : all_named cfg -> service_run os cfg = Val cfg' -> all_named cfg'.
Proof.
  revert cfg. induction os as [|o os IH]; intros cfg Hnm; simpl; [by intros [= <-]|].
  intros (c1 & H1 & Hr)%bind_val. eapply IH; [|exact Hr]. by eapply service_step_named.
Qed.

Lemma make_config_named k unreliable x now0 rnds now rnd cfg :
  make_config (Cmd := Cmd) service_methods raft_methods k unreliable x now0 rnds now rnd = Val cfg -> all_named cfg.
Proof.
  unfold make_config. intros (c1 & H1 & (c2 & H2%ConnectAll_keeps & [= <-])%bind_val)%bind_val.
  assert (all_named c1) as Hnm; [|eapply keeps_all_named; [|by eapply keeps_all_named; [exact H2|exact Hnm]]; done].
  apply (go_for_inv (fun i c => named c /\ n c = k /\ forall j, (j < i)%nat -> exists l, endnames c !! j = Some (Some l))) in H1 as (Hnm & Hn & Hall).
  - split; [done|]. by rewrite Hn.
  - assert (forall i j e, endname_at ((blank k x now0 : config)) i j <> Val e) as Hno.
    { intros i j e (o & [_ Ho]%go_index_val & Hr)%bind_val. simpl in Ho. apply lookup_replicate in Ho as [-> _]. done. }
    split_and!; [|done|lia]. constructor; simpl.
    + by rewrite length_replicate.
    + intros i l [? _]%lookup_replicate. done.
    + intros i j i' j' e He. by destruct (Hno i j e).
    + intros i j e He. by destruct (Hno i j e).
  - intros i c c' Hi (Hnm & Hn & Hall) (Hnm' & En & l & Ee & Hlt)%StartServer_named; [|done]. split_and!; [done|congruence|].
    intros j Hj. rewrite Ee. destruct (decide (j = i)) as [->|Hne]; [exists l; apply list_lookup_insert_eq; rewrite (nm_endnames _ Hnm); lia|].
    rewrite list_lookup_insert_ne by done. apply Hall. lia.
Qed.

(** C19: [partition] cuts the servers into two groups.  After [make_config] and any sequence of connecting,
    disconnecting, shutting down and starting servers and clients, [partition] on two lists without
    common or repeated servers succeeds, and then one server can send to another exactly if both are in the same
    list. *)
Theorem partition_splits k unreliable x now0 rnds now rnd cfg0 os cfg p1 p2 :
  make_config (Cmd := Cmd) service_methods raft_methods k unreliable x now0 rnds now rnd = Val cfg0 ->
  service_run os cfg0 = Val cfg ->
  NoDup (p1 ++ p2) -> (forall a, a ∈ p1 ++ p2 -> 0 <= a < Z.of_nat (n cfg)) ->
  exists cfg', partition p1 p2 cfg = Val cfg' /\
    forall a b, a ∈ p1 ++ p2 -> b ∈ p1 ++ p2 -> link cfg' a b = true <-> (a ∈ p1 <-> b ∈ p1).
Proof.
  intros H0%make_config_named Hr Hnd Hsrv. pose proof (service_run_named _ _ _ H0 Hr) as Hnm.
  destruct (partition_links p1 p2 cfg Hnm Hsrv Hnd) as (cfg' & Hp & _ & Hl). exists cfg'. split; [done|].
  intros a b Ha Hb. rewrite Hl by done. apply bool_decide_eq_true.
Qed.

End Tester.

(** With an even number of servers a place of the second group keeps its zero, and server 0 is in both groups. *)
Lemma even_partition_overlaps : fill_partitions 4 2 = Val ([0; 1; 3], [0; 0], 3).
Proof. reflexivity. Qed.

End ServicePartition.
