(* ===== verification/ServiceRestart.v ===== *)
(** * Restarting a server of a service

    What [ShutdownServer] and [StartServer] of the service testers promise, for any [RaftService] with its laws. *)

From stdpp Require Import base list gmap strings.
From Stdlib Require Import ZArith Lia Strings.Byte.
From S2P Require Import Prelude RaftNode RaftCodec Labrpc TestRand ServiceTester ServicePartition.
Import RaftNode RaftCodec TestRand ServiceTester ServicePartition.

Open Scope Z_scope.

Module ServiceRestart.

Section Restart.
Context {Cmd Srv X App : Type} `{!Codec Cmd, !RaftService Cmd Srv X, !RaftServiceLaws (Srv := Srv) (X := X)}.
Context (service_methods raft_methods : nat -> list (Labrpc.methodDesc (App := App))).
Notation config := (@config Srv X App).

(** What shutting down and starting look at *)
Definition objects (cfg : config) := (n cfg, settings cfg, servers cfg, saved cfg, instances cfg, persisters cfg).

Lemma loop_objects f i m (cfg cfg' : config) :
  (forall j c c', f j c = Val c' -> objects c' = objects c) -> go_for i m f cfg = Val cfg' -> objects cfg' = objects cfg.
Proof.
  intros Hf Hr. apply (go_for_inv (fun _ c => objects c = objects cfg)) in Hr; [done|done|].
  intros j c c' _ Hc Hs%Hf. congruence.
Qed.

Lemma disconnectUnlocked_objects i from (cfg cfg' : config) : disconnectUnlocked i from cfg = Val cfg' -> objects cfg' = objects cfg.
Proof.
  unfold disconnectUnlocked. intros (c1 & H1 & H2)%bind_val. transitivity (objects c1).
  - apply loop_objects in H2; [done|]. intros j c c' (o & _ & Hc)%bind_val. destruct o; [|by injection Hc as <-].
    by apply bind_val in Hc as (x & _ & (e & _ & [= <-])%bind_val).
  - apply loop_objects in H1; [done|]. intros j c c' (o & _ & Hc)%bind_val. destruct o; [|by injection Hc as <-].
    by apply bind_val in Hc as (x & _ & (e & _ & [= <-])%bind_val).
Qed.

(** Server [i] runs at address [a], and the tester shares its persister, which holds [ps]. *)
Record running_at (cfg : config) (i a : nat) (ins : instance) (ps : Persister) : Prop := {
  ra_server : servers cfg !! i = Some (Some a);
  ra_instance : instances cfg !! a = Some ins;
  ra_saved : saved cfg !! i = Some (Some (in_persister ins));
  ra_persister : persisters cfg !! in_persister ins = Some ps }.

(** The server at address [a] is killed and works on persister [q]; server [i] is to start from [ps]. *)
Record shut_down (cfg : config) (i a q : nat) (ps : Persister) : Prop := {
  sd_server : servers cfg !! i = Some None;
  sd_instance : exists s, instances cfg !! a = Some (mkInstance s q) /\ killed (srv_rf (X := X) s) = true;
  sd_old : (q < length (persisters cfg))%nat;
  sd_saved : exists p, saved cfg !! i = Some (Some p) /\ persisters cfg !! p = Some ps }.

Lemma Copy_id ps : Copy ps = ps.
Proof. by destruct ps. Qed.

Lemma ShutdownServer_shuts i a ins ps (cfg cfg' : config) :
  running_at cfg i a ins ps -> ShutdownServer (Cmd := Cmd) i cfg = Val cfg' ->
  shut_down cfg' i a (in_persister ins) ps /\ n cfg' = n cfg /\ settings cfg' = settings cfg.
Proof.
  intros [Hsv Hin Hsd Hps]. unfold ShutdownServer. intros (c1 & E%disconnectUnlocked_objects & Hr)%bind_val.
  injection E as En Ex Es Ed Ei Ep. destruct c1 as [rn1 n1 sv1 sd1 en1 ck1 nx1 st1 x1 fa1 in1 ps1 co1 ls1]. simpl in *. subst.
  apply bind_val in Hr as (sv & Hsv'%go_index_of_nat & Hr). simpl in Hsv'. rewrite Hsd in Hsv'. injection Hsv' as <-.
  simpl in Hr. rewrite Hps in Hr. simpl in Hr.
  apply bind_val in Hr as (kv & Hkv%go_index_of_nat & Hr). simpl in Hkv. rewrite Hsv in Hkv. injection Hkv as <-.
  apply bind_val in Hr as (c2 & H2 & [= <-]).
  unfold run_section in H2. simpl in H2. rewrite Hin in H2. simpl in H2.
  pose proof (lookup_lt_Some _ _ _ Hps) as Hp. pose proof (lookup_lt_Some _ _ _ Hsd) as Hi.
  rewrite lookup_app_l, Hps in H2 by done. simpl in H2. injection H2 as <-. split; [|done]. constructor; simpl.
  - apply list_lookup_insert_eq. by eapply lookup_lt_Some.
  - eexists. split; [apply list_lookup_insert_eq; by eapply lookup_lt_Some|]. by rewrite srv_rf_Kill, srv_rf_set.
  - rewrite length_insert, length_app. simpl. lia.
  - exists (length (persisters cfg)). rewrite list_lookup_insert_eq by done. split; [done|].
    rewrite list_lookup_insert_ne by lia. rewrite lookup_app_r, Nat.sub_diag by lia. simpl. by rewrite Copy_id.
Qed.

Lemma boot_starts i p ps now rnd (cfg cfg' : config) :
  saved cfg !! i = Some (Some p) -> persisters cfg !! p = Some ps ->
  boot (Cmd := Cmd) service_methods raft_methods i now rnd cfg = Val cfg' ->
  exists s, srv_start (settings cfg) (n cfg) (Z.of_nat i) ps now rnd = Val s /\
    running_at cfg' i (length (instances cfg)) (mkInstance s (length (persisters cfg))) ps /\
    instances cfg' = instances cfg ++ [mkInstance s (length (persisters cfg))].
Proof.
  intros Hsv Hps. unfold boot. intros (sv & Hsv'%go_index_of_nat & Hr)%bind_val. rewrite Hsv in Hsv'. injection Hsv' as <-.
  rewrite Hps in Hr. simpl in Hr. rewrite lookup_app_r, Nat.sub_diag in Hr by lia. simpl in Hr. rewrite Copy_id in Hr.
  apply bind_val in Hr as (s & Hmk & (rs & [Hrs ->]%go_update_val & [= <-])%bind_val). rewrite Nat2Z.id.
  pose proof (lookup_lt_Some _ _ _ Hsv) as Hi.
  exists s. split_and!; [done| |done]. constructor; simpl.
  - apply list_lookup_insert_eq. unfold len in Hrs. lia.
  - by rewrite lookup_app_r, Nat.sub_diag.
  - by apply list_lookup_insert_eq.
  - by rewrite lookup_app_r, Nat.sub_diag.
Qed.

(** Whatever another server does, with another persister, it changes nothing of this one. *)
Lemma section_elsewhere (cfg cfg' : config) i a a' ins ins' ps f :
  running_at cfg i a ins ps -> instances cfg !! a' = Some ins' -> a' <> a -> in_persister ins' <> in_persister ins ->
  run_section (Cmd := Cmd) a' f cfg = Val cfg' -> running_at cfg' i a ins ps.
Proof.
  intros [? ? ? ?] Ha' Hne Hp. unfold run_section. rewrite Ha'. simpl.
  intros (ps' & _ & (rf & _ & [= <-])%bind_val)%bind_val. constructor; simpl; rewrite ?list_lookup_insert_ne by done; done.
Qed.

(** C31: Shutting down server [i] of a service and starting it again keeps its saved state, the snapshot included:
    the new server's Raft is made from what the old one had saved, on a persister of its own.  The old server
    is killed, and whatever its goroutines still do, they change neither the new server nor its persister. *)
Theorem service_restart i a ins ps rnds now rnd (cfg cfg1 cfg2 : config) :
  running_at cfg i a ins ps -> ShutdownServer (Cmd := Cmd) i cfg = Val cfg1 ->
  StartServer (Cmd := Cmd) service_methods raft_methods i rnds now rnd cfg1 = Val cfg2 ->
  exists a' p' s', running_at cfg2 i a' (mkInstance s' p') ps /\
    Make (n cfg) (Z.of_nat i) ps now rnd = Val (srv_rf (X := X) s') /\
    (exists s, instances cfg2 !! a = Some (mkInstance s (in_persister ins)) /\ killed (srv_rf (X := X) s) = true) /\
    forall f cfg3, run_section (Cmd := Cmd) a f cfg2 = Val cfg3 -> running_at cfg3 i a' (mkInstance s' p') ps.
Proof.
  intros Hra H1. destruct (ShutdownServer_shuts _ _ _ _ _ _ Hra H1) as ([_ (s & Hs & Hk) Hq (p & Hp & Hps)] & En & Ex).
  unfold StartServer. intros (names & _ & (eps & _ & (c & Hc & Hb)%bind_val)%bind_val)%bind_val.
  apply loop_objects in Hc; [|intros j c0 c1 (e & _ & (rn & _ & [= <-])%bind_val)%bind_val; done].
  injection Hc as E1 E2 E3 E4 E5 E6. simpl in *.
  apply (boot_starts i p ps) in Hb as (s' & Hst & Hrun & Hin); [|congruence..]. rewrite E1, E2, Ex in Hst.
  apply srv_start_Make in Hst. rewrite En in Hst.
  assert (instances cfg2 !! a = Some (mkInstance s (in_persister ins))) as Ha.
  { rewrite Hin, E5. by apply lookup_app_l_Some. }
  eexists _, _, s'. split_and!; [exact Hrun|exact Hst|by exists s|]. intros f cfg3.
  apply (section_elsewhere _ _ _ _ _ _ _ _ _ Hrun Ha); simpl; [apply lookup_lt_Some in Hs; rewrite E5; lia|rewrite E6; lia].
Qed.

End Restart.

(** ** Three key/value servers *)

Definition no_methods (a : nat) : list (Labrpc.methodDesc (App := unit)) := [].

Definition three_kv : config (Srv := KVServer (Cmd := Z)) (X := kvSettings) (App := unit) :=
  val_or (blank 3 (mkKvSettings (-1) 0 0 0) 0) (make_config (Cmd := Z) no_methods no_methods 3 false (mkKvSettings (-1) 0 0 0) 0 (some_bytes 0) (fun _ => 0) (fun _ => 0)).

Definition kv_demo_ops : list (service_op (Srv := KVServer (Cmd := Z))) :=
  [OpMakeClient [0; 2] (some_bytes 1 0) (fun _ => 0); OpShutdown 1; OpStart 1 (some_bytes 1 1) 5 7; OpPartition [0] [1; 2]; OpConnectAll].

Definition kv_demo_config : config (Srv := KVServer (Cmd := Z)) (X := kvSettings) (App := unit) :=
  val_or (three_kv) (service_run no_methods no_methods kv_demo_ops three_kv).

Lemma three_kv_running : all_running three_kv.
Proof.
  intros i Hi. change (n three_kv) with 3%nat in Hi. assert (servers three_kv = [Some 0; Some 1; Some 2]%nat) as -> by (vm_compute; reflexivity).
  destruct i as [|[|[|i]]]; [by eexists..|lia].
Qed.

(** Server 1 leads; it goes into the smaller group. *)
Lemma make_partition_splits_witness :
  exists p1 p2, make_partition three_kv (fun i => bool_decide (i = 1%nat)) = Val (p1, p2) /\ length p1 = 2%nat /\ length p2 = 1%nat.
Proof.
  destruct (make_partition_splits three_kv (fun i => bool_decide (i = 1%nat)) 1) as (p1 & p2 & Hp & H1 & H2 & _).
  - vm_compute. reflexivity.
  - lia.
  - exact three_kv_running.
  - exists p1, p2. split; [exact Hp|]. split; [exact H1|exact H2].
Defined.

Lemma partition_splits_witness : exists cfg', partition [0; 2] [1] kv_demo_config = Val cfg' /\ link cfg' 0 2 = true.
Proof.
  assert ((0 : Z) ∈ [0; 2] ++ [1]) as M0 by set_solver. assert ((2 : Z) ∈ [0; 2] ++ [1]) as M2 by set_solver.
  assert ((0 : Z) ∈ [0; 2] <-> (2 : Z) ∈ [0; 2]) as Hiff by set_solver.
  destruct (partition_splits no_methods no_methods 3 false (mkKvSettings (-1) 0 0 0) 0 (some_bytes 0) (fun _ => 0) (fun _ => 0)
              three_kv kv_demo_ops kv_demo_config [0; 2] [1]) as (cfg' & Hp & Hl).
  - apply is_val_or. vm_compute. reflexivity.
  - apply is_val_or. vm_compute. reflexivity.
  - apply (bool_decide_unpack _). vm_compute. exact I.
  - intros a Ha. assert (n kv_demo_config = 3%nat) as -> by (vm_compute; reflexivity). simpl in Ha.
    rewrite !elem_of_cons, elem_of_nil in Ha. lia.
  - exists cfg'. split; [exact Hp|]. apply (proj2 (Hl 0 2 M0 M2)). exact Hiff.
Defined.

Definition one_shut : config (Srv := KVServer (Cmd := Z)) (X := kvSettings) (App := unit) :=
  val_or (three_kv) (ShutdownServer (Cmd := Z) 1 three_kv).

Definition one_restarted : config (Srv := KVServer (Cmd := Z)) (X := kvSettings) (App := unit) :=
  val_or (three_kv) (StartServer (Cmd := Z) no_methods no_methods 1 (some_bytes 1 1) 5 7 one_shut).

Definition kv_persister : Persister := default MakePersister (persisters three_kv !! 1%nat).

Lemma service_restart_witness : exists a' p' s', running_at one_restarted 1 a' (mkInstance s' p') kv_persister.
Proof.
  destruct (instances three_kv !! 1%nat) as [ins|] eqn:Hins.
  - assert (fmap in_persister (instances three_kv !! 1%nat) = Some 1%nat) as Hp by (vm_compute; reflexivity).
    rewrite Hins in Hp. injection Hp as Hp.
    destruct (service_restart no_methods no_methods 1 1 ins kv_persister (some_bytes 1 1) 5 7 three_kv one_shut one_restarted)
      as (a' & p' & s' & Hrun & _).
    + constructor; [vm_compute; reflexivity|exact Hins|rewrite Hp; vm_compute; reflexivity|rewrite Hp; vm_compute; reflexivity].
    + apply is_val_or. vm_compute. reflexivity.
    + apply is_val_or. vm_compute. reflexivity.
    + exists a', p', s'. exact Hrun.
  - assert (is_Some (instances three_kv !! 1%nat)) as [? E] by (apply lookup_lt_is_Some_2; apply Nat.ltb_lt; vm_compute; reflexivity).
    congruence.
Defined.

End ServiceRestart.
