(* ===== verification/ShardTester.v ===== *)
(** * The tester of the sharded store (shardkv/config.go, shardkv/server.go)

    Three masters, three groups of servers.  Servers, persisters and clerks are objects on heaps, as in
    ServiceTester.v; the groups are kept in place, since each is pointed to from one place only. *)

From stdpp Require Import base list gmap strings.
From Stdlib Require Import ZArith Lia Strings.Byte.
From S2P Require Import Prelude RaftNode RaftCodec MrWorker Labrpc TestRand Shard ServiceTester.
Import RaftNode RaftCodec TestRand.

Open Scope Z_scope.

Module ShardTester.

Notation Network := Labrpc.Network.
Notation IStr := Labrpc.IStr.
Notation Itoa := MrWorker.Itoa.
Notation ShardMaster := ServiceTester.ShardMaster.

Definition Second : Z := 1000000000.

Section Tester.
Context {Cmd App : Type} `{!Codec Cmd}.

(** What reflection finds of the methods of a store server, of a master, and of their Rafts, by address *)
Context (kv_methods kv_raft_methods master_methods master_raft_methods : nat -> list (Labrpc.methodDesc (App := App))).

Notation Raft := (Raft Cmd).
Notation Server := (Labrpc.Server (App := App)).

(** ** The server *)

(** The function [make_end] it is given is [make_end] below. *)
Record ShardKV := mkShardKV {
  kv_me : Z;
  kv_rf : Raft;
  kv_gid : Z;
  kv_masters : list string;
  kv_maxraftstate : Z }.

Definition ShardKV_Kill (kv : ShardKV) : ShardKV := mkShardKV (kv_me kv) (Kill (kv_rf kv)) (kv_gid kv) (kv_masters kv) (kv_maxraftstate kv).

Definition kv_set_rf (rf : Raft) (kv : ShardKV) : ShardKV := mkShardKV (kv_me kv) rf (kv_gid kv) (kv_masters kv) (kv_maxraftstate kv).

(** [k] is the number of ends in [servers]. *)
Definition StartServer_kv (k : nat) (me : Z) (persister : Persister) (maxraftstate gid : Z) (masters : list string) (now rnd : Z) : res ShardKV :=
  rf ← Make k me persister now rnd;
  mret (mkShardKV me rf gid masters maxraftstate).

(** ** The state *)

Record group := mkGroup {
  gid : Z;
  servers : list (option nat);
  saved : list (option nat);
  endnames : list (option (list string));
  mendnames : list (option (list string)) }.

Record kv_instance := mkKvInstance {
  ki_server : ShardKV;
  ki_persister : nat }.

Record config := mkConfig {
  net : Network;
  start : Z;
  nmasters : nat;
  masterservers : list (option nat);
  mck : option (list string);           (* the ends of the tester's own clerk of the masters *)
  ngroups : nat;
  n : nat;
  groups : list (option group);
  clerks : gmap nat (list string);
  nextClientId : Z;
  maxraftstate : Z;
  failed : bool;                        (* t.Failed() *)
  instances : list kv_instance;
  masters : list (ShardMaster (Cmd := Cmd));
  persisters : list Persister;
  clerk_objects : list (list string);
  lab_servers : list Server }.

Definition with_net (v : Network) (cfg : config) : config :=
  mkConfig v (start cfg) (nmasters cfg) (masterservers cfg) (mck cfg) (ngroups cfg) (n cfg) (groups cfg) (clerks cfg) (nextClientId cfg) (maxraftstate cfg) (failed cfg) (instances cfg) (masters cfg) (persisters cfg) (clerk_objects cfg) (lab_servers cfg).
Definition with_masters (v : list (option nat)) (o : list ShardMaster) (cfg : config) : config :=
  mkConfig (net cfg) (start cfg) (nmasters cfg) v (mck cfg) (ngroups cfg) (n cfg) (groups cfg) (clerks cfg) (nextClientId cfg) (maxraftstate cfg) (failed cfg) (instances cfg) o (persisters cfg) (clerk_objects cfg) (lab_servers cfg).
Definition with_mck (v : option (list string)) (cfg : config) : config :=
  mkConfig (net cfg) (start cfg) (nmasters cfg) (masterservers cfg) v (ngroups cfg) (n cfg) (groups cfg) (clerks cfg) (nextClientId cfg) (maxraftstate cfg) (failed cfg) (instances cfg) (masters cfg) (persisters cfg) (clerk_objects cfg) (lab_servers cfg).
Definition with_groups (v : list (option group)) (cfg : config) : config :=
  mkConfig (net cfg) (start cfg) (nmasters cfg) (masterservers cfg) (mck cfg) (ngroups cfg) (n cfg) v (clerks cfg) (nextClientId cfg) (maxraftstate cfg) (failed cfg) (instances cfg) (masters cfg) (persisters cfg) (clerk_objects cfg) (lab_servers cfg).
Definition with_clerks (v : gmap nat (list string)) (id : Z) (o : list (list string)) (cfg : config) : config :=
  mkConfig (net cfg) (start cfg) (nmasters cfg) (masterservers cfg) (mck cfg) (ngroups cfg) (n cfg) (groups cfg) v id (maxraftstate cfg) (failed cfg) (instances cfg) (masters cfg) (persisters cfg) o (lab_servers cfg).
Definition with_instances (v : list kv_instance) (cfg : config) : config :=
  mkConfig (net cfg) (start cfg) (nmasters cfg) (masterservers cfg) (mck cfg) (ngroups cfg) (n cfg) (groups cfg) (clerks cfg) (nextClientId cfg) (maxraftstate cfg) (failed cfg) v (masters cfg) (persisters cfg) (clerk_objects cfg) (lab_servers cfg).
Definition with_persisters (v : list Persister) (cfg : config) : config :=
  mkConfig (net cfg) (start cfg) (nmasters cfg) (masterservers cfg) (mck cfg) (ngroups cfg) (n cfg) (groups cfg) (clerks cfg) (nextClientId cfg) (maxraftstate cfg) (failed cfg) (instances cfg) (masters cfg) v (clerk_objects cfg) (lab_servers cfg).
Definition with_lab_servers (v : list Server) (cfg : config) : config :=
  mkConfig (net cfg) (start cfg) (nmasters cfg) (masterservers cfg) (mck cfg) (ngroups cfg) (n cfg) (groups cfg) (clerks cfg) (nextClientId cfg) (maxraftstate cfg) (failed cfg) (instances cfg) (masters cfg) (persisters cfg) (clerk_objects cfg) v.
Definition with_size (g k : nat) (gs : list (option group)) (cfg : config) : config :=
  mkConfig (net cfg) (start cfg) (nmasters cfg) (masterservers cfg) (mck cfg) g k gs (clerks cfg) (nextClientId cfg) (maxraftstate cfg) (failed cfg) (instances cfg) (masters cfg) (persisters cfg) (clerk_objects cfg) (lab_servers cfg).

(** [cfg.groups[gi]], which is used at once *)
Definition group_at (cfg : config) (gi : nat) : res group := o ← go_index (groups cfg) (Z.of_nat gi); of_option ENil o.

Definition set_group (gi : nat) (g : group) (cfg : config) : config := with_groups (<[gi := Some g]> (groups cfg)) cfg.

Definition checkTimeout (now : Z) (cfg : config) : res config :=
  if negb (failed cfg) && (120 * Second <? now - start cfg) then Err (EFatal "test took longer than 120 seconds") else mret cfg.

(** [cfg.groups[gi].saved[i]], on which a method is called *)
Definition saved_at (cfg : config) (gi i : nat) : res Persister :=
  gg ← group_at cfg gi;
  sv ← go_index (saved gg) (Z.of_nat i);
  p ← of_option ENil sv;
  of_option ENil (persisters cfg !! p).

Definition checklogs (cfg : config) : res unit :=
  go_for 0 (ngroups cfg) (fun gi _ =>
    go_for 0 (n cfg) (fun i _ =>
      ps ← saved_at cfg gi i;
      let raft := RaftStateSize ps in
      let snap := len (ReadSnapshot ps) in
      if (0 <=? maxraftstate cfg) && (wrap64 (8 * maxraftstate cfg) <? raft) then Err (EFatal "persister.RaftStateSize() too large")
      else if (maxraftstate cfg <? 0) && (0 <? snap) then Err (EFatal "maxraftstate is -1, but snapshot is non-empty!")
      else mret tt) tt) tt.

Definition mastername (i : nat) : string := "master" +:+ Itoa (Z.of_nat i).

Definition servername (gid : Z) (i : nat) : string := "server-" +:+ (Itoa gid +:+ ("-" +:+ Itoa (Z.of_nat i))).

(** ** Ends *)

(** A new end of the given name to a server, enabled *)
Definition open_end (e srv : string) (cfg : config) : res config :=
  rn ← Labrpc.MakeEnd (IStr e) (net cfg);
  mret (with_net (Labrpc.Enable (IStr e) true (Labrpc.Connect (IStr e) (IStr srv) rn)) cfg).

(** The function clerks and servers get as [make_end]; the end's name *)
Definition make_end (rnd : list byte) (srv : string) (cfg : config) : res (string * config) :=
  name ← randstring rnd 20;
  cfg' ← open_end name srv cfg;
  mret (name, cfg').

(** A new end to each of [k] servers; the names *)
Definition open_ends (k : nat) (rnds : nat -> list byte) (srv : nat -> string) (cfg : config) : res (list string * config) :=
  go_for 0 k (fun j '(names, cfg) =>
    '(e, cfg') ← make_end (rnds j) (srv j) cfg;
    mret (names ++ [e], cfg')) ([], cfg).

(** The slice [endnames] has [n] places, the loop runs over the masters. *)
Definition makeClient (rnds : nat -> list byte) (cfg : config) : res (nat * config) :=
  '(names, cfg1) ← go_for 0 (nmasters cfg) (fun j '(names, cfg) =>
    e ← randstring (rnds j) 20;
    names' ← go_update names (Z.of_nat j) e;
    cfg' ← open_end e (mastername j) cfg;
    mret (names', cfg')) (replicate (n cfg) "", cfg);
  let ck := length (clerk_objects cfg1) in
  mret (ck, with_clerks (<[ck := names]> (clerks cfg1)) (wrap64 (nextClientId cfg1 + 1))
         (clerk_objects cfg1 ++ [take (nmasters cfg) names]) cfg1).

(** The files that are removed, and the tester without the clerk *)
Definition deleteClient (ck : nat) (cfg : config) : list string * config :=
  (default [] (clerks cfg !! ck), with_clerks (delete ck (clerks cfg)) (nextClientId cfg) (clerk_objects cfg) cfg).

(** ** Shutting down and starting servers *)

Definition new_persister (ps : Persister) (cfg : config) : nat * config :=
  (length (persisters cfg), with_persisters (persisters cfg ++ [ps]) cfg).

Definition run_section (a : nat) (f : ShardKV -> res ShardKV) (cfg : config) : res config :=
  ins ← of_option ENil (instances cfg !! a);
  ps ← of_option ENil (persisters cfg !! ki_persister ins);
  kv' ← f (kv_set_rf (set_persister ps (kv_rf (ki_server ins))) (ki_server ins));
  mret (with_instances (<[a := mkKvInstance kv' (ki_persister ins)]> (instances cfg))
          (with_persisters (<[ki_persister ins := persister (kv_rf kv')]> (persisters cfg)) cfg)).

(** [names[j]] of a slice that may be nil *)
Definition name_in (names : option (list string)) (j : nat) : res string :=
  match names with Some l => go_index l (Z.of_nat j) | None => Err EIndex end.

Definition disable (e : string) (cfg : config) : config := with_net (Labrpc.Enable (IStr e) false (net cfg)) cfg.

Definition ShutdownServer (gi i : nat) (cfg : config) : res config :=
  gg ← group_at cfg gi;
  cfg1 ← go_for 0 (length (servers gg)) (fun j cfg =>
    row ← go_index (endnames gg) (Z.of_nat i); name ← name_in row j; mret (disable name cfg)) cfg;
  mrow ← go_index (mendnames gg) (Z.of_nat i);
  cfg2 ← go_for 0 (length (default [] mrow)) (fun j cfg => name ← name_in mrow j; mret (disable name cfg)) cfg1;
  let cfg3 := with_net (Labrpc.DeleteServer (IStr (servername (gid gg) i)) (net cfg2)) cfg2 in
  sv ← go_index (saved gg) (Z.of_nat i);
  '(gg1, cfg4) ← match sv with
         | Some p =>
             ps ← of_option ENil (persisters cfg3 !! p);
             let '(p', cfg') := new_persister (Copy ps) cfg3 in
             mret (mkGroup (gid gg) (servers gg) (<[i := Some p']> (saved gg)) (endnames gg) (mendnames gg), cfg')
         | None => mret (gg, cfg3)
         end;
  kv ← go_index (servers gg1) (Z.of_nat i);
  match kv with
  | Some a =>
      cfg5 ← run_section a (fun kv => mret (ShardKV_Kill kv)) cfg4;
      mret (set_group gi (mkGroup (gid gg1) (<[i := None]> (servers gg1)) (saved gg1) (endnames gg1) (mendnames gg1)) cfg5)
  | None => mret (set_group gi gg1 cfg4)
  end.

Definition ShutdownGroup (gi : nat) (cfg : config) : res config := go_for 0 (n cfg) (fun i cfg => ShutdownServer gi i cfg) cfg.

Definition cleanup (now : Z) (cfg : config) : res config :=
  cfg1 ← go_for 0 (ngroups cfg) ShutdownGroup cfg;
  rn ← Labrpc.Cleanup (net cfg1);
  checkTimeout now (with_net rn cfg1).

(** Adding an RPC server with two services *)
Definition add_server (name : string) (svc1 svc2 : Labrpc.Service) (cfg : config) : config :=
  let srv := Labrpc.AddService svc2 (Labrpc.AddService svc1 Labrpc.MakeServer) in
  with_net (Labrpc.AddServer (IStr name) (length (lab_servers cfg)) (net cfg)) (with_lab_servers (lab_servers cfg ++ [srv]) cfg).

(** The second half of [StartServer]: the persister, the server with its ends [mends] to the masters, its RPC
    server; [gg] is the group as the first half leaves it. *)
Definition boot (gi i : nat) (gg : group) (mends : list string) (now rnd : Z) (cfg : config) : res config :=
  sv ← go_index (saved gg) (Z.of_nat i);
  '(p, cfg1) ← match sv with
         | Some p => ps ← of_option ENil (persisters cfg !! p); mret (new_persister (Copy ps) cfg)
         | None => mret (new_persister MakePersister cfg)
         end;
  ps ← of_option ENil (persisters cfg1 !! p);
  kv ← StartServer_kv (n cfg1) (Z.of_nat i) ps (maxraftstate cfg1) (gid gg) mends now rnd;
  let a := length (instances cfg1) in
  let cfg2 := with_instances (instances cfg1 ++ [mkKvInstance kv p]) cfg1 in
  svs ← go_update (servers gg) (Z.of_nat i) (Some a);
  let cfg3 := set_group gi (mkGroup (gid gg) svs (<[i := Some p]> (saved gg)) (endnames gg) (mendnames gg)) cfg2 in
  mret (add_server (servername (gid gg) i) (Labrpc.MakeService "ShardKV" (kv_methods a)) (Labrpc.MakeService "Raft" (kv_raft_methods a)) cfg3).

(** [rnds], [mrnds]: the random bytes of the names of the ends to the group and to the masters *)
Definition StartServer (gi i : nat) (rnds mrnds : nat -> list byte) (now rnd : Z) (cfg : config) : res config :=
  gg ← group_at cfg gi;
  names ← mapM (fun j => randstring (rnds j) 20) (seq 0 (n cfg));
  eps ← go_update (endnames gg) (Z.of_nat i) (Some names);
  cfg1 ← go_for 0 (n cfg) (fun j cfg => e ← go_index names (Z.of_nat j); open_end e (servername (gid gg) j) cfg) cfg;
  _ ← go_index (mendnames gg) (Z.of_nat i);
  '(mnames, cfg2) ← open_ends (nmasters cfg1) mrnds mastername cfg1;
  meps ← go_update (mendnames gg) (Z.of_nat i) (Some mnames);
  boot gi i (mkGroup (gid gg) (servers gg) (saved gg) eps meps) mnames now rnd cfg2.

Definition StartGroup (gi : nat) (rnds mrnds : nat -> nat -> list byte) (now rnd : nat -> Z) (cfg : config) : res config :=
  go_for 0 (n cfg) (fun i cfg => StartServer gi i (rnds i) (mrnds i) (now i) (rnd i) cfg) cfg.

(** ** Masters *)

Definition StartMasterServer (i : nat) (rnds : nat -> list byte) (now rnd : Z) (cfg : config) : res config :=
  '(_, cfg1) ← open_ends (nmasters cfg) rnds mastername cfg;
  sm ← ServiceTester.StartServer_master (nmasters cfg1) (Z.of_nat i) MakePersister now rnd;
  let a := length (masters cfg1) in
  ms ← go_update (masterservers cfg1) (Z.of_nat i) (Some a);
  let cfg2 := with_masters ms (masters cfg1 ++ [sm]) cfg1 in
  mret (add_server (mastername i) (Labrpc.MakeService "ShardMaster" (master_methods a)) (Labrpc.MakeService "Raft" (master_raft_methods a)) cfg2).

(** The ends of a new clerk of the masters *)
Definition shardclerk (rnds : nat -> list byte) (cfg : config) : res (list string * config) := open_ends (nmasters cfg) rnds mastername cfg.

(** The map that [joinm] passes to the masters, and the groups that [leavem] does *)
Definition joinm_servers (gis : list nat) (cfg : config) : res (gmap Z (list string)) :=
  foldl (fun acc g => m ← acc; gg ← group_at cfg g; mret (<[gid gg := servername (gid gg) <$> seq 0 (n cfg)]> m)) (mret ∅) gis.

Definition leavem_gids (gis : list nat) (cfg : config) : res (list Z) := mapM (fun g => gid <$> group_at cfg g) gis.

Section Clerk.
Context {W : Type} `{!Shard.Env W}.

Definition joinm (fuel : nat) (w : W) (gis : list nat) (cfg : config) : res (W * option unit) :=
  m ← joinm_servers gis cfg;
  ck ← of_option ENil (mck cfg);
  mret (Shard.Join fuel (Shard.MakeMasterClerk (length ck)) w m).

Definition join (fuel : nat) (w : W) (gi : nat) (cfg : config) : res (W * option unit) := joinm fuel w [gi] cfg.

Definition leavem (fuel : nat) (w : W) (gis : list nat) (cfg : config) : res (W * option unit) :=
  gids ← leavem_gids gis cfg;
  ck ← of_option ENil (mck cfg);
  mret (Shard.Leave fuel (Shard.MakeMasterClerk (length ck)) w gids).

Definition leave (fuel : nat) (w : W) (gi : nat) (cfg : config) : res (W * option unit) := leavem fuel w [gi] cfg.

End Clerk.

(** ** The whole tester *)

Definition blank (maxraftstate now : Z) : config :=
  mkConfig Labrpc.MakeNetwork now 3 (replicate 3 None) None 0 0 [] ∅ 0 maxraftstate false [] [] [] [] [].

(** The group [gi] as [make_config] makes it, before its servers *)
Definition new_group (gi k nmasters : nat) : group :=
  mkGroup (100 + Z.of_nat gi) (replicate k None) (replicate k None) (replicate k None) (replicate nmasters None).

(** What is random in starting a server *)
Record fortune := mkFortune {
  f_names : nat -> list byte;
  f_mnames : nat -> list byte;
  f_now : Z;
  f_rnd : Z }.

Definition make_config (k : nat) (unreliable : bool) (maxraftstate now0 : Z) (mf : nat -> fortune) (crnds : nat -> list byte)
    (f : nat -> nat -> fortune) : res config :=
  cfg1 ← go_for 0 3 (fun i cfg => StartMasterServer i (f_names (mf i)) (f_now (mf i)) (f_rnd (mf i)) cfg) (blank maxraftstate now0);
  '(ck, cfg2) ← shardclerk crnds cfg1;
  let cfg3 := with_size 3 k (replicate 3 None) (with_mck (Some ck) cfg2) in
  cfg4 ← go_for 0 3 (fun gi cfg =>
    gs ← go_update (groups cfg) (Z.of_nat gi) (Some (new_group gi k (nmasters cfg)));
    go_for 0 (n cfg) (fun i cfg => StartServer gi i (f_names (f gi i)) (f_mnames (f gi i)) (f_now (f gi i)) (f_rnd (f gi i)) cfg) (with_groups gs cfg)) cfg3;
  let cfg5 := with_clerks ∅ (Z.of_nat k + 1000) (clerk_objects cfg4) cfg4 in
  mret (with_net (Labrpc.Reliable (negb unreliable) (net cfg5)) cfg5).

(** ** What a test starts with *)

(** What opening ends leaves alone *)
Definition frame (cfg : config) := (n cfg, nmasters cfg, groups cfg, mck cfg, Labrpc.servers (net cfg), lab_servers cfg).

Lemma open_end_frame e srv cfg cfg' : open_end e srv cfg = Val cfg' -> frame cfg' = frame cfg.
Proof.
  unfold open_end, Labrpc.MakeEnd. intros (rn & Hm & [= <-])%bind_val. case_decide; [done|]. by injection Hm as <-.
Qed.

Lemma open_ends_frame k rnds srv cfg l cfg' : open_ends k rnds srv cfg = Val (l, cfg') -> frame cfg' = frame cfg.
Proof.
  unfold open_ends. intros Hr. apply (go_for_inv (fun _ '(_, c) => frame c = frame cfg)) in Hr; [done|done|].
  intros j [l0 c] [l1 c'] _ Hc ([e c2] & He & [= _ <-])%bind_val. unfold make_end in He.
  apply bind_val in He as (nm & _ & (c3 & H3%open_end_frame & [= _ <-])%bind_val). congruence.
Qed.

(** Starting a server: it is put into its group and added to the network under its name. *)
Lemma StartServer_adds gi i rnds mrnds now rnd cfg cfg' :
  StartServer gi i rnds mrnds now rnd cfg = Val cfg' ->
  exists g g' srv, group_at cfg gi = Val g /\ (i < length (mendnames g))%nat /\
    gid g' = gid g /\ length (mendnames g') = length (mendnames g) /\
    frame cfg' = (n cfg, nmasters cfg, <[gi := Some g']> (groups cfg), mck cfg,
      <[IStr (servername (gid g) i) := Some (length (lab_servers cfg))]> (Labrpc.servers (net cfg)), lab_servers cfg ++ [srv]).
Proof.
  unfold StartServer. intros (g & Hg & (names & _ & (eps & _ & (c1 & H1 & Hr)%bind_val)%bind_val)%bind_val)%bind_val.
  assert (frame c1 = frame cfg) as E1.
  { apply (go_for_inv (fun _ c => frame c = frame cfg)) in H1; [done|done|].
    intros j c c' _ Hc (e & _ & He%open_end_frame)%bind_val. congruence. }
  apply bind_val in Hr as (mrow & [_ Hm%lookup_lt_Some]%go_index_val & ([mnames c2] & H2%open_ends_frame & (meps & [_ ->]%go_update_val & Hb)%bind_val)%bind_val).
  rewrite Nat2Z.id in Hm. unfold boot in Hb. apply bind_val in Hb as (sv & _ & ([p c3] & H3 & Hb)%bind_val).
  assert (frame c3 = frame c2) as E3 by (destruct sv; [apply bind_val in H3 as (ps & _ & [= _ <-])|injection H3 as _ <-]; done).
  apply bind_val in Hb as (ps & _ & (kv & _ & (svs & _ & [= <-])%bind_val)%bind_val).
  assert (frame c3 = frame cfg) as E by congruence. injection E as F1 F2 F3 F4 F5 F6.
  eexists g, _, _. split_and!; [done|done| | |unfold frame; simpl; rewrite F1, F2, F3, F4, F5, F6; reflexivity]; simpl; [done|].
  by rewrite length_insert.
Qed.

(** Group [gi] has its number, three places for ends to the masters, and its first [m] servers are on the network. *)
Record group_up (gi m : nat) (cfg : config) : Prop := {
  gu_group : exists g, groups cfg !! gi = Some (Some g) /\ gid g = 100 + Z.of_nat gi /\ length (mendnames g) = 3%nat;
  gu_servers : forall i, (i < m)%nat -> is_Some (Labrpc.server_at (net cfg) (IStr (servername (100 + Z.of_nat gi) i))) }.

(** Adding a server keeps those that are there. *)
Lemma server_at_add name a (rn : Network) x :
  is_Some (Labrpc.server_at rn x) -> is_Some (mjoin (<[name := Some a]> (Labrpc.servers rn) !! x)).
Proof.
  intros Hx. destruct (decide (x = name)) as [->|Hne]; [by rewrite lookup_insert_eq|by rewrite lookup_insert_ne].
Qed.

Lemma StartServer_up gi i rnds mrnds now rnd cfg cfg' :
  group_up gi i cfg -> StartServer gi i rnds mrnds now rnd cfg = Val cfg' ->
  group_up gi (S i) cfg' /\ (i < 3)%nat /\ forall gi' m, gi' <> gi -> group_up gi' m cfg -> group_up gi' m cfg'.
Proof.
  intros [(g & Hg & Eg & El) Hsv] (g0 & g' & srv & Hg0 & Hi & Egid & Elen & E)%StartServer_adds.
  injection E as _ _ E3 _ E5 _. unfold group_at in Hg0. rewrite (proj2 (go_index_of_nat _ _ _) Hg) in Hg0. injection Hg0 as <-.
  split_and!; [| |].
  - constructor.
    + exists g'. rewrite E3, list_lookup_insert_eq by (by eapply lookup_lt_Some). split_and!; [done|congruence|congruence].
    + intros j Hj. unfold Labrpc.server_at. rewrite E5, Eg. destruct (decide (j = i)) as [->|Hne]; [by rewrite lookup_insert_eq|].
      apply server_at_add, Hsv. lia.
  - lia.
  - intros gi' m Hne [(h & Hh & ? & ?) Hm]. constructor.
    + exists h. rewrite E3, list_lookup_insert_ne by done. done.
    + intros j Hj. unfold Labrpc.server_at. rewrite E5. apply server_at_add. by apply Hm.
Qed.

Lemma StartMasterServer_frame i rnds now rnd cfg cfg' :
  StartMasterServer i rnds now rnd cfg = Val cfg' -> n cfg' = n cfg /\ nmasters cfg' = nmasters cfg.
Proof.
  unfold StartMasterServer. intros ([l c1] & H1%open_ends_frame & (sm & _ & (ms & _ & [= <-])%bind_val)%bind_val)%bind_val.
  injection H1 as E1 E2 _ _ _ _. done.
Qed.

Lemma StartServer_size gi i rnds mrnds now rnd cfg cfg' :
  StartServer gi i rnds mrnds now rnd cfg = Val cfg' -> n cfg' = n cfg /\ nmasters cfg' = nmasters cfg /\ length (groups cfg') = length (groups cfg).
Proof.
  intros (g & g' & srv & _ & _ & _ & _ & E)%StartServer_adds. injection E as E1 E2 E3 _ _ _. split_and!; [done|done|]. by rewrite E3, length_insert.
Qed.

(** After the servers of groups 0 to [g-1] *)
Record started (k g : nat) (cfg : config) : Prop := {
  st_n : n cfg = k;
  st_masters : nmasters cfg = 3%nat;
  st_groups : length (groups cfg) = 3%nat;
  st_up : forall gi, (gi < g)%nat -> group_up gi k cfg;
  st_small : (0 < g)%nat -> (k <= 3)%nat }.

Lemma start_group_started k g cfg cfg' f :
  (g < 3)%nat -> started k g cfg ->
  (gs ← go_update (groups cfg) (Z.of_nat g) (Some (new_group g k (nmasters cfg)));
   go_for 0 (n cfg) (fun i cfg => StartServer g i (f_names (f i)) (f_mnames (f i)) (f_now (f i)) (f_rnd (f i)) cfg) (with_groups gs cfg)) = Val cfg' ->
  started k (S g) cfg'.
Proof.
  intros Hg [Hn Hm Hl Hup Hsm] (gs & [_ ->]%go_update_val & Hr)%bind_val. rewrite Nat2Z.id, Hm, Hn in Hr.
  apply (go_for_inv (fun i c => n c = k /\ nmasters c = 3%nat /\ length (groups c) = 3%nat /\ group_up g i c /\ (i <= 3)%nat /\
    forall gi, (gi < g)%nat -> group_up gi k c)) in Hr as (H1 & H2 & H3 & H4 & H5 & H6).
  - constructor; [done|done|done| |lia]. intros gi Hgi. destruct (decide (gi = g)) as [->|]; [done|apply H6; lia].
  - simpl. split_and!; [done|done|by rewrite length_insert| |lia|].
    + constructor; [|lia]. exists (new_group g k 3). simpl. rewrite list_lookup_insert_eq by lia. done.
    + intros gi Hgi. destruct (Hup gi Hgi) as [(h & Hh & ? & ?) Hs]. constructor; [|exact Hs]. exists h. simpl.
      rewrite list_lookup_insert_ne by lia. done.
  - intros i c c' Hi (H1 & H2 & H3 & H4 & H5 & H6) Hst. destruct (StartServer_up _ _ _ _ _ _ _ _ H4 Hst) as (Hu & Hlt & Hk).
    destruct (StartServer_size _ _ _ _ _ _ _ _ Hst) as (E1 & E2 & E3). split_and!; [congruence|congruence|congruence|done|lia|].
    intros gi Hgi. apply Hk; [lia|by apply H6].
Qed.

Lemma make_config_started k unreliable mrs now0 mf crnds f cfg :
  make_config k unreliable mrs now0 mf crnds f = Val cfg -> started k 3 cfg.
Proof.
  unfold make_config. intros (c1 & H1 & ([ck c2] & H2%open_ends_frame & (c4 & H4 & [= <-])%bind_val)%bind_val)%bind_val.
  apply (go_for_inv (fun _ c => nmasters c = 3%nat)) in H1; [|done|intros i c c' _ Hc [_ ?]%StartMasterServer_frame; congruence].
  injection H2 as E1 E2 _ _ _ _.
  assert (started k 3 c4) as [? ? ? Hup ?].
  { apply (go_for_inv (fun g c => started k g c)) in H4; [done| |].
    - constructor; simpl; [done|congruence|done|lia|lia].
    - intros g c c' Hg Hst Hs. by eapply (start_group_started k g c c' (f g)); [lia|..]. }
  constructor; try done. intros gi Hgi. destruct (Hup gi Hgi). by constructor.
Qed.

Lemma makeClient_size rnds cfg ck cfg' : makeClient rnds cfg = Val (ck, cfg') -> (nmasters cfg <= n cfg)%nat.
Proof.
  unfold makeClient. intros ([names c1] & Hr & _)%bind_val.
  apply (go_for_inv (fun j '(l, _) => length l = n cfg /\ (j <= n cfg)%nat)) in Hr as [_ Hle]; [done| |].
  - rewrite length_replicate. split; [done|lia].
  - intros j [l c] [l' c'] _ [Hl Hj] (e & _ & (l1 & [Hlt ->]%go_update_val & (c2 & _ & [= <- _])%bind_val)%bind_val)%bind_val.
    rewrite length_insert. unfold len in Hlt. lia.
Qed.

(** The tester of the sharded store works with three servers per group only: [make_config] reads and writes
    [mendnames], which has a place per master, at the number of a server, and panics with more than three
    servers; [makeClient] writes [endnames], which has a place per server, at the number of a master, and panics
    with fewer. *)
Theorem shard_tester_size k unreliable mrs now0 mf crnds f cfg rnds ck cfg' :
  make_config k unreliable mrs now0 mf crnds f = Val cfg -> makeClient rnds cfg = Val (ck, cfg') -> k = 3%nat.
Proof.
  intros [Hn Hm _ _ Hs]%make_config_started Hc%makeClient_size. specialize (Hs ltac:(lia)). lia.
Qed.

Lemma joinm_servers_spec gis cfg :
  (forall g, g ∈ gis -> exists h, groups cfg !! g = Some (Some h) /\ gid h = 100 + Z.of_nat g) ->
  exists m, joinm_servers gis cfg = Val m /\
    forall x l, m !! x = Some l <-> exists g, g ∈ gis /\ x = 100 + Z.of_nat g /\ l = servername x <$> seq 0 (n cfg).
Proof.
  unfold joinm_servers. induction gis as [|g gis IH] using rev_ind; intros Hg.
  - exists ∅. split; [done|]. intros x l. rewrite lookup_empty. split; [done|]. intros (g & Hin%elem_of_nil & _). done.
  - rewrite foldl_snoc. destruct IH as (m & -> & Hm); [intros; apply Hg; set_solver|]. simpl.
    destruct (Hg g) as (h & Hh & Eh); [set_solver|]. unfold group_at. rewrite (proj2 (go_index_of_nat _ _ _) Hh). simpl.
    eexists. split; [done|]. intros x l. rewrite Eh. destruct (decide (x = 100 + Z.of_nat g)) as [->|Hne].
    + rewrite lookup_insert_eq. split; [intros [= <-]; exists g; set_solver|]. by intros (g' & _ & _ & ->).
    + rewrite lookup_insert_ne by done. rewrite Hm. split; intros (g' & Hin & -> & ->); exists g'; split_and!; try done; [set_solver|].
      apply elem_of_app in Hin as [?|E%list_elem_of_singleton]; [done|by subst].
Qed.

(** Groups that join are there.  After [make_config] the map [joinm] sends to the masters has exactly the
    numbers of the groups asked for, 100 and up, each with the names of all its servers in order, and each
    of these servers is on the network under that name. *)
Theorem joined_servers_listen k unreliable mrs now0 mf crnds f cfg gis :
  make_config k unreliable mrs now0 mf crnds f = Val cfg -> (forall g, g ∈ gis -> (g < 3)%nat) ->
  exists m, joinm_servers gis cfg = Val m /\
    (forall x, is_Some (m !! x) <-> exists g, g ∈ gis /\ x = 100 + Z.of_nat g) /\
    forall x l, m !! x = Some l -> length l = k /\
      forall i s, l !! i = Some s -> s = servername x i /\ is_Some (Labrpc.server_at (net cfg) (IStr s)).
Proof.
  intros [Hn _ _ Hup _]%make_config_started Hg. destruct (joinm_servers_spec gis cfg) as (m & Hm & Hl).
  - intros g Hin. destruct (gu_group _ _ _ (Hup g (Hg g Hin))) as (h & Hh & Eh & _). by exists h.
  - exists m. split_and!; [done| |].
    + intros x. split; [intros [l (g & ? & ? & _)%Hl]; by exists g|]. intros (g & Hin & ->). eexists. apply Hl. by exists g.
    + intros x l (g & Hin & -> & ->)%Hl. rewrite length_fmap, length_seq. split; [done|]. intros i s.
      rewrite list_lookup_fmap. intros (j & Hj & ->)%fmap_Some. apply lookup_seq in Hj as [-> Hlt]. split; [done|].
      apply (gu_servers _ _ _ (Hup g (Hg g Hin))). lia.
Qed.

End Tester.

(** ** A test with three servers per group *)

Definition no_methods (a : nat) : list (Labrpc.methodDesc (App := unit)) := [].

Definition demo_masters (i : nat) : fortune := mkFortune (some_bytes 0 0 ∘ Nat.add (3 * i)) (some_bytes 0 0) 0 0.
Definition demo_servers (gi i : nat) : fortune :=
  mkFortune (some_bytes 0 2 ∘ Nat.add (18 * gi + 6 * i)) (some_bytes 0 2 ∘ Nat.add (18 * gi + 6 * i + 3)) 0 0.

Notation demo_config k :=
  (make_config (Cmd := Z) (App := unit) no_methods no_methods no_methods no_methods k false (-1) 0 demo_masters (some_bytes 0 1) demo_servers).

Definition three_groups : config (Cmd := Z) (App := unit) :=
  val_or (blank (-1) 0) (demo_config 3).

Definition client_made : nat * config (Cmd := Z) (App := unit) :=
  val_or (0%nat, three_groups) (makeClient (some_bytes 1 0) three_groups).

Lemma demo_config_three : demo_config 3 = Val three_groups.
Proof. apply is_val_or. vm_compute. reflexivity. Qed.

Lemma demo_client : exists ck cfg, makeClient (some_bytes 1 0) three_groups = Val (ck, cfg).
Proof.
  assert (makeClient (some_bytes 1 0) three_groups = Val client_made) as E by (apply is_val_or; vm_compute; reflexivity).
  destruct client_made as [ck c]. by exists ck, c.
Qed.

Lemma shard_tester_size_witness : is_val (demo_config 4) = false /\ exists k, is_val (demo_config k) = true /\ k = 3%nat.
Proof.
  split; [vm_compute; reflexivity|]. exists 3%nat. split; [rewrite demo_config_three; reflexivity|]. destruct demo_client as (ck & cfg & Hck).
  exact (shard_tester_size no_methods no_methods no_methods no_methods 3 false (-1) 0 demo_masters (some_bytes 0 1)
    demo_servers three_groups (some_bytes 1 0) ck cfg demo_config_three Hck).
Defined.

Lemma joined_servers_listen_witness : exists m, joinm_servers [0; 2]%nat three_groups = Val m /\ is_Some (m !! 102).
Proof.
  assert (forall g : nat, g ∈ [0; 2]%nat -> (g < 3)%nat) as Hg by (intros g Hg; rewrite !elem_of_cons, elem_of_nil in Hg; lia).
  assert (exists g : nat, g ∈ [0; 2]%nat /\ 102 = 100 + Z.of_nat g) as H2 by (exists 2%nat; split; [set_solver|done]).
  destruct (joined_servers_listen no_methods no_methods no_methods no_methods 3 false (-1) 0 demo_masters (some_bytes 0 1)
    demo_servers three_groups [0; 2]%nat demo_config_three Hg) as (m & Hm & Hd & _).
  exists m. split; [exact Hm|]. exact (proj2 (Hd 102) H2).
Defined.

End ShardTester.
