(* ===== verification/Labgob.v ===== *)
(** * The checks around encoding/gob (labgob/labgob.go)

    [labgob] wraps the encoder and the decoder of [encoding/gob] and warns of field names that gob skips and of
    values that gob does not overwrite.  A [reflect.Type] is an index into [types], so that types may be
    recursive; the package's variables [checked] and [errorCount] and what it prints are the state.
    The Unicode table of upper case letters beyond ASCII is a parameter, and so are gob's encoder and decoder. *)

From stdpp Require Import base list gmap strings sets.
From Stdlib Require Import ZArith Lia Ascii.
From S2P Require Import Prelude.

Open Scope Z_scope.

Module Labgob.

Record field := mkField { f_Name : string; f_Type : nat }.

(** The kinds [checkType] tells apart *)
Inductive kind :=
  | KStruct (name : string) (fields : list field)
  | KSlice (elem : nat)
  | KArray (elem : nat)
  | KPtr (elem : nat)
  | KMap (key elem : nat)
  | KOther.

Inductive message :=
  | LowerCase (fname tname : string)   (* labgob error: lower-case field ... *)
  | NonDefault (what : string)         (* labgob warning: Decoding into a non-default ... *).

Record State := mkState {
  errorCount : Z;
  checked : gset nat;
  output : list message }.

Definition complain (m : message) (s : State) : State :=
  mkState (wrap64 (errorCount s + 1)) (checked s) (output s ++ [m]).
Definition mark (t : nat) (s : State) : State :=
  mkState (errorCount s) ({[ t ]} ∪ checked s) (output s).

Section Labgob.
Variable types : list kind.
Variable UpperBeyondASCII : string -> bool.

Definition kind_of (t : nat) : kind := default KOther (types !! t).

(** unicode.IsUpper of the first rune of a name *)
Definition IsUpper (name : string) : bool :=
  match name with
  | EmptyString => false
  | String c _ => if Nat.ltb (nat_of_ascii c) 128
                  then Nat.leb 65 (nat_of_ascii c) && Nat.leb (nat_of_ascii c) 90
                  else UpperBeyondASCII name
  end.

(** The loop over a struct's fields; [None] is out of fuel. *)
Fixpoint check_fields (rec : nat -> State -> option State) (tname : string) (fields : list field) (s : State)
    : option State :=
  match fields with
  | [] => Some s
  | f :: fields' =>
      let s1 := if IsUpper (f_Name f) then s else complain (LowerCase (f_Name f) tname) s in
      s2 ← rec (f_Type f) s1;
      check_fields rec tname fields' s2
  end.

Fixpoint checkType (fuel : nat) (t : nat) (s : State) : option State :=
  match fuel with
  | O => None
  | S fuel' =>
      if decide (t ∈ checked s) then Some s
      else
        let s1 := mark t s in
        match kind_of t with
        | KStruct name fields => check_fields (checkType fuel') name fields s1
        | KSlice e | KArray e | KPtr e => checkType fuel' e s1
        | KMap k e => s2 ← checkType fuel' e s1; checkType fuel' k s2
        | KOther => Some s1
        end
  end.

(** Every call marks a type, so as many calls as there are types are nested at most. *)
Definition check_fuel : nat := S (S (length types)).

(** ** Values *)

Inductive gvalue :=
  | GStruct (t : nat) (fields : list (string * gvalue))
  | GPtr (t : nat) (elem : option gvalue)
  | GScalar (t : nat) (tname : string) (isZero : bool)   (* a bool, number or string *)
  | GOther (t : nat).

Definition TypeOf (v : gvalue) : nat :=
  match v with GStruct t _ | GPtr t _ | GScalar t _ _ | GOther t => t end.

Definition checkValue (v : gvalue) (s : State) : option State := checkType check_fuel (TypeOf v) s.

Definition warn (what : string) (s : State) : State :=
  mkState (wrap64 (errorCount s + 1)) (checked s)
    (if errorCount s <? 1 then output s ++ [NonDefault what] else output s).

Definition join_name (name name1 : string) : string :=
  if String.eqb name "" then name1 else String.append name (String.append "." name1).

Fixpoint checkDefault1 (v : gvalue) (depth : Z) (name : string) (s : State) : State :=
  if depth >? 3 then s
  else match v with
  | GStruct _ fields =>
      (fix loop (fs : list (string * gvalue)) (s : State) : State :=
         match fs with
         | [] => s
         | (n, vv) :: fs' => loop fs' (checkDefault1 vv (depth + 1) (join_name name n) s)
         end) fields s
  | GPtr _ None => s
  | GPtr _ (Some e) => checkDefault1 e (depth + 1) name s
  | GScalar _ tname isZero => if isZero then s else warn (if String.eqb name "" then tname else name) s
  | GOther _ => s
  end.

Definition checkDefault (v : option gvalue) (s : State) : State :=
  match v with None => s | Some v => checkDefault1 v 1 "" s end.

(** ** The wrappers *)

(** encoding/gob: encoders on a writer, decoders on a reader, and the types registered *)
Section Wrappers.
Context {Writer Reader GobEncoder GobDecoder Registry Error : Type}.
Context (gob_NewEncoder : Writer -> GobEncoder) (gob_NewDecoder : Reader -> GobDecoder).
Context (gob_Encode gob_EncodeValue : gvalue -> GobEncoder -> GobEncoder * Error) (gob_Decode : gvalue -> GobDecoder -> GobDecoder * (gvalue * Error)).
Context (gob_Register : gvalue -> Registry -> Registry) (gob_RegisterName : string -> gvalue -> Registry -> Registry).

Record LabEncoder := mkLabEncoder { enc_gob : GobEncoder }.
Record LabDecoder := mkLabDecoder { dec_gob : GobDecoder }.

Definition NewEncoder (w : Writer) : LabEncoder := mkLabEncoder (gob_NewEncoder w).
Definition NewDecoder (r : Reader) : LabDecoder := mkLabDecoder (gob_NewDecoder r).

Definition Encode (e : gvalue) (enc : LabEncoder) (s : State) : option (State * (LabEncoder * Error)) :=
  s1 ← checkValue e s; let '(g, err) := gob_Encode e (enc_gob enc) in Some (s1, (mkLabEncoder g, err)).
Definition EncodeValue (e : gvalue) (enc : LabEncoder) (s : State) : option (State * (LabEncoder * Error)) :=
  s1 ← checkValue e s; let '(g, err) := gob_EncodeValue e (enc_gob enc) in Some (s1, (mkLabEncoder g, err)).
(** [Decode] into [e], with what [e] holds then *)
Definition Decode (e : gvalue) (dec : LabDecoder) (s : State) : option (State * (LabDecoder * (gvalue * Error))) :=
  s1 ← checkValue e s; let '(g, r) := gob_Decode e (dec_gob dec) in Some (checkDefault (Some e) s1, (mkLabDecoder g, r)).

Definition Register (v : gvalue) (reg : Registry) (s : State) : option (State * Registry) :=
  s1 ← checkValue v s; Some (s1, gob_Register v reg).
Definition RegisterName (name : string) (v : gvalue) (reg : Registry) (s : State) : option (State * Registry) :=
  s1 ← checkValue v s; Some (s1, gob_RegisterName name v reg).
End Wrappers.

(** ** What [checkType] visits *)

Definition succs (t : nat) : list nat :=
  match kind_of t with
  | KStruct _ fields => f_Type <$> fields
  | KSlice e | KArray e | KPtr e => [e]
  | KMap k e => [e; k]
  | KOther => []
  end.

Definition part_of : nat -> nat -> Prop := rtc (fun t u => u ∈ succs t).

Definition lower_fields (tname : string) (fields : list field) : list message :=
  (fun f => LowerCase (f_Name f) tname) <$> filter (fun f => IsUpper (f_Name f) = false) fields.

(** What is wrong with a type by itself *)
Definition complaints (t : nat) : list message :=
  match kind_of t with KStruct name fields => lower_fields name fields | _ => [] end.

(** From [s] to [s'] the types below [roots] were visited, each new one once, and the messages [pre] printed besides. *)
Record visit (roots : list nat) (pre : list message) (s s' : State) : Prop := {
  v_grow : checked s ⊆ checked s';
  v_roots t : t ∈ roots -> t ∈ checked s';
  v_new x : x ∈ checked s' -> x ∉ checked s ->
    (exists t, t ∈ roots /\ part_of t x) /\ forall y, y ∈ succs x -> y ∈ checked s';
  v_out : output s' ≡ₚ output s ++ pre ++ (elements (checked s' ∖ checked s) ≫= complaints);
  v_count : wrap64 (errorCount s' - len (output s')) = wrap64 (errorCount s - len (output s)) }.

Lemma visit_refl s : visit [] [] s s.
Proof.
  constructor; [done|set_solver|done| |done].
  replace (checked s ∖ checked s) with (∅ : gset nat) by set_solver. rewrite elements_empty. simpl. by rewrite app_nil_r.
Qed.

Lemma visit_known t s : t ∈ checked s -> visit [t] [] s s.
Proof.
  intros Ht. destruct (visit_refl s) as [G _ _ O C]. constructor; [done|set_solver|done|exact O|exact C].
Qed.

Lemma visit_trans r1 r2 p1 p2 s s1 s2 :
  visit r1 p1 s s1 -> visit r2 p2 s1 s2 -> visit (r1 ++ r2) (p1 ++ p2) s s2.
Proof.
  intros [G1 R1 N1 O1 C1] [G2 R2 N2 O2 C2]. constructor.
  - set_solver.
  - intros t [Ht|Ht]%elem_of_app; [by apply G2, R1|by apply R2].
  - intros x Hx Hn. destruct (decide (x ∈ checked s1)) as [H1|H1].
    + destruct (N1 x H1 Hn) as [(t & Ht & Hp) Hs]. split; [exists t; set_solver|]. intros y Hy. by apply G2, Hs.
    + destruct (N2 x Hx H1) as [(t & Ht & Hp) Hs]. split; [exists t; set_solver|done].
  - assert (checked s2 ∖ checked s = (checked s1 ∖ checked s) ∪ (checked s2 ∖ checked s1)) as ->.
    { apply set_eq. intros x. destruct (decide (x ∈ checked s1)); set_solver. }
    rewrite O2, O1, elements_disj_union by set_solver. rewrite bind_app. solve_Permutation.
  - by rewrite C2.
Qed.

Lemma wrap64_shift a b : wrap64 a = wrap64 b -> forall c, wrap64 (a + c) = wrap64 (b + c).
Proof.
  unfold wrap64. intros E c. replace (a + c + 2 ^ 63) with ((a + 2 ^ 63) + c) by lia.
  replace (b + c + 2 ^ 63) with ((b + 2 ^ 63) + c) by lia.
  rewrite (Z.add_mod (a + 2 ^ 63) c), (Z.add_mod (b + 2 ^ 63) c) by (unfold two64; lia).
  replace ((a + 2 ^ 63) mod two64) with ((b + 2 ^ 63) mod two64) by lia. done.
Qed.

Lemma wrap64_wrap a : wrap64 (wrap64 a) = wrap64 a.
Proof. apply wrap64_small, wrap64_range. Qed.

Lemma complain_visit m s : visit [] [m] s (complain m s).
Proof.
  constructor; [done|set_solver|done| |].
  - simpl. replace (checked s ∖ checked s) with (∅ : gset nat) by set_solver. by rewrite elements_empty.
  - simpl. rewrite len_app, <-Z.add_opp_r, (wrap64_shift _ _ (wrap64_wrap (errorCount s + 1)) (- (len (output s) + len [m]))).
    f_equal. unfold len. simpl. lia.
Qed.

Lemma visit_mark t s s' : t ∉ checked s -> visit (succs t) (complaints t) (mark t s) s' -> visit [t] [] s s'.
Proof.
  intros Ht [G R N Out C]. simpl in *. constructor; [set_solver|set_solver| | |done].
  - intros x Hx Hn. destruct (decide (x = t)) as [->|Hne].
    + split; [exists t; split; [set_solver|apply rtc_refl]|]. intros y Hy. by apply R.
    + destruct (N x Hx) as [(u & Hu & Hp) Hs]; [set_solver|]. split; [|done].
      exists t. split; [set_solver|]. eapply rtc_l; [exact Hu|exact Hp].
  - assert (checked s' ∖ checked s = {[ t ]} ∪ (checked s' ∖ ({[ t ]} ∪ checked s))) as ->.
    { apply set_eq. intros x. destruct (decide (x = t)); set_solver. }
    rewrite Out, elements_disj_union, elements_singleton by set_solver. simpl. solve_Permutation.
Qed.

(** ** Termination *)

Definition unseen (s : State) : nat := size (set_seq 0 (length types) ∖ checked s : gset nat).

Lemma unseen_mono s s' : checked s ⊆ checked s' -> (unseen s' <= unseen s)%nat.
Proof. intros Hs. unfold unseen. apply subseteq_size. set_solver. Qed.

Lemma unseen_mark t s : (t < length types)%nat -> t ∉ checked s -> (unseen (mark t s) < unseen s)%nat.
Proof.
  intros Ht Hn. unfold unseen. apply subset_size. simpl. split; [set_solver|]. intros Hsub.
  assert (t ∈ (set_seq 0 (length types) ∖ checked s : gset nat)) as Hin.
  { apply elem_of_difference. split; [apply elem_of_set_seq; lia|done]. }
  apply Hsub in Hin. set_solver.
Qed.

Lemma check_fields_visit rec fuel tname fields s :
  (forall t s, (unseen s < fuel)%nat -> exists s', rec t s = Some s' /\ visit [t] [] s s') ->
  (unseen s < fuel)%nat ->
  exists s', check_fields rec tname fields s = Some s' /\ visit (f_Type <$> fields) (lower_fields tname fields) s s'.
Proof.
  intros Hrec. revert s. induction fields as [|f fields IH]; intros s Hs; simpl; [eexists; split; [done|apply visit_refl]|].
  set (s1 := if IsUpper (f_Name f) then s else _).
  assert (visit [] (if IsUpper (f_Name f) then [] else [LowerCase (f_Name f) tname]) s s1) as H1.
  { subst s1. destruct (IsUpper (f_Name f)); [apply visit_refl|apply complain_visit]. }
  destruct (Hrec (f_Type f) s1) as (s2 & -> & H2). { pose proof (unseen_mono _ _ (v_grow _ _ _ _ H1)). lia. }
  pose proof (visit_trans _ _ _ _ _ _ _ H1 H2) as H12. simpl.
  destruct (IH s2) as (s3 & -> & H3). { pose proof (unseen_mono _ _ (v_grow _ _ _ _ H12)). lia. }
  exists s3. split; [done|]. pose proof (visit_trans _ _ _ _ _ _ _ H12 H3) as H.
  unfold lower_fields. rewrite filter_cons. rewrite app_nil_r in H.
  destruct (IsUpper (f_Name f)); exact H.
Qed.

Lemma checkType_visit fuel t s :
  (unseen s + 1 < fuel)%nat -> exists s', checkType fuel t s = Some s' /\ visit [t] [] s s'.
Proof.
  revert t s. induction fuel as [|fuel IH]; intros t s Hs; [lia|]. simpl.
  destruct (decide (t ∈ checked s)) as [Ht|Ht]; [exists s; split; [done|by apply visit_known]|].
  assert (kind_of t <> KOther -> (unseen (mark t s) + 1 < fuel)%nat) as Hm.
  { unfold kind_of. destruct (types !! t) eqn:E; [|done]. intros _.
    pose proof (unseen_mark t s (lookup_lt_Some _ _ _ E) Ht). lia. }
  assert (exists s', match kind_of t with
    | KStruct name fields => check_fields (checkType fuel) name fields (mark t s)
    | KSlice e | KArray e | KPtr e => checkType fuel e (mark t s)
    | KMap k e => s2 ← checkType fuel e (mark t s); checkType fuel k s2
    | KOther => Some (mark t s) end = Some s' /\ visit (succs t) (complaints t) (mark t s) s') as (s' & E & Hv).
  { unfold succs, complaints. destruct (kind_of t) as [name fields|e|e|e|k e|]; try (apply IH; apply Hm; done).
    - apply (check_fields_visit _ (fuel - 1)); [intros; apply IH; lia|]. specialize (Hm ltac:(done)). lia.
    - specialize (Hm ltac:(done)). destruct (IH e (mark t s) Hm) as (s1 & -> & H1). simpl.
      destruct (IH k s1) as (s2 & -> & H2). { pose proof (unseen_mono _ _ (v_grow _ _ _ _ H1)). lia. }
      exists s2. split; [done|]. exact (visit_trans _ _ _ _ _ _ _ H1 H2).
    - eexists. split; [done|apply visit_refl]. }
  exists s'. split; [exact E|]. by apply visit_mark.
Qed.

(** Between top-level calls the checked types are closed under parts. *)
Definition closed (s : State) : Prop := forall t u, t ∈ checked s -> u ∈ succs t -> u ∈ checked s.

Lemma closed_part s t u : closed s -> t ∈ checked s -> part_of t u -> u ∈ checked s.
Proof. intros Hc Ht Hp. induction Hp as [|t v u Htv _ IH]; [done|]. apply IH. by eapply Hc. Qed.

(** C34: The check of field names visits what it should and ends: on any types, recursive ones included, it returns; afterwards
    exactly the types checked before and those the value's type is made of are marked; each newly marked
    struct type has complained once about each of its lower-case fields, and [errorCount] has grown by the
    number of complaints (modulo 2^64); and checking the same value again changes nothing. *)
Theorem checkValue_complete v s :
  closed s ->
  exists s', checkValue v s = Some s' /\ closed s' /\
    (forall u, u ∈ checked s' <-> u ∈ checked s \/ part_of (TypeOf v) u) /\
    output s' ≡ₚ output s ++ (elements (checked s' ∖ checked s) ≫= complaints) /\
    wrap64 (errorCount s' - len (output s')) = wrap64 (errorCount s - len (output s)) /\
    checkValue v s' = Some s'.
Proof.
  intros Hc. assert (unseen s <= length types)%nat as Hle.
  { pose proof (size_set_seq (C := gset nat) 0 (length types)) as Hsz. unfold unseen. rewrite <-Hsz at 2.
    apply subseteq_size. set_solver. }
  destruct (checkType_visit check_fuel (TypeOf v) s) as (s' & E & [G R N O C]); [unfold check_fuel; lia|].
  exists s'. assert (closed s') as Hc'.
  { intros t u Ht Hu. destruct (decide (t ∈ checked s)) as [H|H]; [by apply G, (Hc t)|]. by apply (N t). }
  split_and!; [exact E|done| |exact O|exact C|].
  - intros u. split.
    + intros Hu. destruct (decide (u ∈ checked s)) as [H|H]; [by left|]. right.
      destruct (N u Hu H) as [(t & ->%list_elem_of_singleton & Hp) _]. exact Hp.
    + intros [H|Hp]; [by apply G|]. apply (closed_part s' (TypeOf v)); [done|apply R; set_solver|done].
  - unfold checkValue, check_fuel. simpl. by rewrite decide_True by (apply R; set_solver).
Qed.

(** ** What [checkDefault] reports *)

(** All the scalars of a value, with their depth and path, and whether they are zero *)
Fixpoint leaves (v : gvalue) (depth : Z) (name : string) : list (Z * string * bool) :=
  match v with
  | GStruct _ fields =>
      (fix loop (fs : list (string * gvalue)) : list (Z * string * bool) :=
         match fs with [] => [] | (n, vv) :: fs' => leaves vv (depth + 1) (join_name name n) ++ loop fs' end) fields
  | GPtr _ None => []
  | GPtr _ (Some e) => leaves e (depth + 1) name
  | GScalar _ tname isZero => [(depth, if String.eqb name "" then tname else name, isZero)]
  | GOther _ => []
  end.

Definition reported (l : Z * string * bool) : bool := (l.1.1 <=? 3) && negb l.2.

Definition warnings (ls : list (Z * string * bool)) : list string := (fun l => l.1.2) <$> filter (fun l => reported l = true) ls.

Definition warn_all (names : list string) (s : State) : State := foldl (fun s n => warn n s) s names.

Lemma warnings_app l1 l2 : warnings (l1 ++ l2) = warnings l1 ++ warnings l2.
Proof. unfold warnings. by rewrite filter_app, fmap_app. Qed.

(** Below depth 3 nothing is reported. *)
Lemma warnings_deep v depth name : 3 < depth -> warnings (leaves v depth name) = [].
Proof.
  revert v depth name. fix IH 1. intros v depth name Hd. destruct v as [t fields|t [e|]|t tname z|t]; simpl; try done.
  - revert fields. fix IHf 1. intros [|[n vv] fs]; simpl; [done|].
    rewrite warnings_app, (IH vv) by lia. simpl. apply IHf.
  - apply IH. lia.
  - unfold warnings. rewrite filter_cons_False; [done|]. unfold reported. simpl.
    destruct (Z.leb_spec depth 3); [lia|done].
Qed.

Lemma checkDefault1_spec v depth name s :
  checkDefault1 v depth name s = warn_all (warnings (leaves v depth name)) s.
Proof.
  revert v depth name s. fix IH 1. intros v depth name s.
  destruct (Z.gtb_spec depth 3) as [Hd|Hd].
  { rewrite warnings_deep by lia. destruct v; simpl; (destruct (Z.gtb_spec depth 3); [done|lia]). }
  destruct v as [t fields|t [e|]|t tname z|t]; simpl; (destruct (Z.gtb_spec depth 3); [lia|]); try done.
  - revert fields s. fix IHf 1. intros [|[n vv] fs] s; [done|].
    rewrite (IH vv), IHf, warnings_app. unfold warn_all. by rewrite foldl_app.
  - destruct z; unfold warnings; [rewrite filter_cons_False; [done|]; unfold reported; simpl; by rewrite andb_false_r|].
    rewrite filter_cons_True; [done|]. unfold reported. simpl. destruct (Z.leb_spec depth 3); [done|lia].
Qed.

Lemma warn_all_spec names s :
  0 <= errorCount s -> errorCount s + len names <= max_int ->
  warn_all names s =
    mkState (errorCount s + len names) (checked s)
      (output s ++ (if errorCount s <? 1 then NonDefault <$> take 1 names else [])).
Proof.
  revert s. induction names as [|n names IH]; intros s H0 Hm.
  - destruct s as [c ch o]. unfold len. simpl. rewrite Z.add_0_r. f_equal. destruct (c <? 1); by rewrite app_nil_r.
  - unfold len in *. simpl length in *. change (warn_all (n :: names) s) with (warn_all names (warn n s)).
    assert (errorCount (warn n s) = errorCount s + 1) as E.
    { simpl. apply wrap64_small. unfold min_int. lia. }
    rewrite IH by (rewrite E; lia). rewrite E. f_equal; [lia|]. simpl.
    destruct (Z.ltb_spec (errorCount s + 1) 1); [lia|]. rewrite app_nil_r.
    destruct (errorCount s <? 1); [done|by rewrite app_nil_r].
Qed.

(** The check of a variable to decode into counts each of its non-zero booleans, numbers and strings that is at most two
    structs or pointers deep, and no other, and prints one warning at most, for the first, and none once an
    error has been counted; so a fresh variable raises no warning. *)
Theorem checkDefault_counts v s :
  let names := warnings (leaves v 1 "") in
  0 <= errorCount s -> errorCount s + len names <= max_int ->
  checkDefault (Some v) s =
    mkState (errorCount s + len names) (checked s)
      (output s ++ (if errorCount s <? 1 then NonDefault <$> take 1 names else [])).
Proof. intros names H0 Hm. simpl. rewrite checkDefault1_spec. by apply warn_all_spec. Qed.

End Labgob.

(** ** A list type with a lower-case field *)

Module Demo.

(** type Node struct { Key string; next *Node } *)
Definition node_types : list kind :=
  [KStruct "Node" [mkField "Key" 1; mkField "next" 2]; KOther; KPtr 0].

Definition no_upper (_ : string) : bool := false.

Definition start : State := mkState 0 ∅ [].

(** A node with the key set, next pointing to one with the key set *)
Definition inner : gvalue := GStruct 0 [("Key", GScalar 1 "string" false); ("next", GPtr 2 None)]%string.
Definition outer : gvalue := GStruct 0 [("Key", GScalar 1 "string" false); ("next", GPtr 2 (Some inner))]%string.

End Demo.

Lemma checkValue_complete_witness :
  closed Demo.node_types Demo.start /\
  exists s', checkValue Demo.node_types Demo.no_upper Demo.outer Demo.start = Some s' /\
             checkValue Demo.node_types Demo.no_upper Demo.outer s' = Some s'.
Proof.
  assert (closed Demo.node_types Demo.start) as Hc by (intros t u Ht; exfalso; revert Ht; apply not_elem_of_empty).
  split; [exact Hc|].
  destruct (checkValue_complete Demo.node_types Demo.no_upper Demo.outer Demo.start Hc)
    as (s' & E & _ & _ & _ & _ & E'). exists s'. split; [exact E|exact E'].
Defined.

(** The inner key is four levels deep and is not reported. *)
Lemma checkDefault_counts_witness :
  checkDefault (Some Demo.outer) Demo.start = mkState 1 ∅ [NonDefault "Key"].
Proof. apply (checkDefault_counts Demo.outer Demo.start); vm_compute; discriminate. Defined.

End Labgob.
