(* ===== verification/Commands.v ===== *)
(** * The commands of the older labs (main/diskvd.go, lockc.go, lockd.go, pbc.go, pbd.go, viewd.go)

    What these commands make of their arguments.  The packages they call (diskv, lockservice, pbservice,
    viewservice) are not in the repository: a command is the call it makes, or the function of what its clerk
    answers.  Printing the usage and exiting is the error [usage]. *)

From stdpp Require Import base list sets strings.
From Stdlib Require Import ZArith Lia.
From S2P Require Import Prelude Strconv.
Import Strconv.

Open Scope Z_scope.

Module Commands.

Definition usage {A} : res A := Err (EFatal "Usage").

(** ** lockc and lockd *)

(** What lockc prints; the clerk is made of two ports. *)
Definition lockc_main (Lock Unlock : string -> string -> string -> bool) (args : list string) : res bool :=
  match args with
  | [_; a1; a2; a3; a4] =>
      if String.eqb a1 "-l" then mret (Lock a2 a3 a4)
      else if String.eqb a1 "-u" then mret (Unlock a2 a3 a4)
      else usage
  | _ => usage
  end.

(** The arguments of lockservice.StartServer *)
Definition lockd_main (args : list string) : res (string * string * bool) :=
  match args with
  | [_; a1; a2; a3] =>
      if String.eqb a1 "-p" then mret (a2, a3, true)
      else if String.eqb a1 "-b" then mret (a2, a3, false)
      else usage
  | _ => usage
  end.

(** ** pbc, pbd and viewd *)

Inductive pbc_call := PbGet (viewport key : string) | PbPut (viewport key value : string).

Definition pbc_main (args : list string) : res pbc_call :=
  match args with
  | [_; a1; a2] => mret (PbGet a1 a2)
  | [_; a1; a2; a3] => mret (PbPut a1 a2 a3)
  | _ => usage
  end.

Definition pbd_main (args : list string) : res (string * string) :=
  match args with [_; a1; a2] => mret (a1, a2) | _ => usage end.

Definition viewd_main (args : list string) : res string :=
  match args with [_; a1] => mret a1 | _ => usage end.

(** ** diskvd *)

(** The variables of [main] *)
Record flags := mkFlags {
  gid : Z;
  masters : list string;
  replicas : list string;
  me : Z;
  unreliable : bool;
  dir : string;
  restart : bool }.

Definition no_flags : flags := mkFlags (-1) [] [] (-1) false "" false.

(** The body of the loop; the errors of strconv are dropped. *)
Definition set_flag (a0 a1 : string) (fl : flags) : res flags :=
  let '(mkFlags g ms rs m u d r) := fl in
  if String.eqb a0 "-g" then mret (mkFlags (ParseInt a1).1 ms rs m u d r)
  else if String.eqb a0 "-m" then mret (mkFlags g (ms ++ [a1]) rs m u d r)
  else if String.eqb a0 "-s" then mret (mkFlags g ms (rs ++ [a1]) m u d r)
  else if String.eqb a0 "-i" then mret (mkFlags g ms rs (Atoi a1).1 u d r)
  else if String.eqb a0 "-u" then mret (mkFlags g ms rs m (ParseBool a1).1 d r)
  else if String.eqb a0 "-d" then mret (mkFlags g ms rs m u a1 r)
  else if String.eqb a0 "-r" then mret (mkFlags g ms rs m u d (ParseBool a1).1)
  else usage.

(** [for i := 1; i+1 < len(os.Args); i += 2], from the argument at [i] on *)
Fixpoint flag_loop (args : list string) (fl : flags) : res flags :=
  match args with
  | a0 :: a1 :: args' => fl' ← set_flag a0 a1 fl; flag_loop args' fl'
  | _ => mret fl
  end.

Definition acceptable (fl : flags) : bool :=
  negb ((gid fl <? 0) || (me fl <? 0) || (len (masters fl) <? 1) || (len (replicas fl) <=? me fl) ||
        String.eqb (dir fl) "").

(** The arguments of diskv.StartServer and Setunreliable *)
Definition diskvd_main (args : list string) : res flags :=
  fl ← flag_loop (drop 1 args) no_flags;
  if acceptable fl then mret fl else usage.

(** ** The flags as a set of options *)

Notation option_pairs := (list (string * string)).

Definition known : list string := ["-g"; "-m"; "-s"; "-i"; "-u"; "-d"; "-r"].

(** The values given for a flag, in order *)
Definition values (flag : string) (ps : option_pairs) : list string := (filter (fun p => p.1 = flag) ps).*2.

(** The last value given for a flag, read by [f] *)
Definition last_value {A} (f : string -> A) (d : A) (flag : string) (ps : option_pairs) : A :=
  from_option f d (last (values flag ps)).

Definition flags_of (ps : option_pairs) : flags :=
  mkFlags (last_value (fun s => (ParseInt s).1) (-1) "-g" ps) (values "-m" ps) (values "-s" ps)
    (last_value (fun s => (Atoi s).1) (-1) "-i" ps) (last_value (fun s => (ParseBool s).1) false "-u" ps)
    (last_value id "" "-d" ps) (last_value (fun s => (ParseBool s).1) false "-r" ps).

Definition as_args (ps : option_pairs) : list string := ps ≫= (fun p => [p.1; p.2]).

Lemma values_snoc flag ps a0 a1 :
  values flag (ps ++ [(a0, a1)]) = if String.eqb a0 flag then values flag ps ++ [a1] else values flag ps.
Proof.
  unfold values. rewrite filter_app, fmap_app, filter_cons, filter_nil. simpl.
  destruct (String.eqb_spec a0 flag) as [->|Hn]; [by rewrite decide_True|by rewrite decide_False, app_nil_r].
Qed.

Lemma last_value_snoc {A} (f : string -> A) d flag ps a0 a1 :
  last_value f d flag (ps ++ [(a0, a1)]) = if String.eqb a0 flag then f a1 else last_value f d flag ps.
Proof. unfold last_value. rewrite values_snoc. destruct (String.eqb a0 flag); [by rewrite last_snoc|done]. Qed.

Lemma set_flag_snoc ps a0 a1 :
  set_flag a0 a1 (flags_of ps) = if bool_decide (a0 ∈ known) then Val (flags_of (ps ++ [(a0, a1)])) else usage.
Proof.
  unfold flags_of at 2. rewrite !values_snoc, !last_value_snoc. unfold set_flag, flags_of.
  destruct (String.eqb_spec a0 "-g") as [->|]; [done|]. destruct (String.eqb_spec a0 "-m") as [->|]; [done|].
  destruct (String.eqb_spec a0 "-s") as [->|]; [done|]. destruct (String.eqb_spec a0 "-i") as [->|]; [done|].
  destruct (String.eqb_spec a0 "-u") as [->|]; [done|]. destruct (String.eqb_spec a0 "-d") as [->|]; [done|].
  destruct (String.eqb_spec a0 "-r") as [->|]; [done|].
  rewrite bool_decide_eq_false_2; [done|]. unfold known. set_solver.
Qed.

Lemma flag_loop_spec ps qs extra :
  (length extra <= 1)%nat ->
  flag_loop (as_args ps ++ extra) (flags_of qs) =
  if forallb (fun p => bool_decide (p.1 ∈ known)) ps then Val (flags_of (qs ++ ps)) else usage.
Proof.
  intros He. revert qs. induction ps as [|[a0 a1] ps IH]; intros qs.
  - simpl. rewrite app_nil_r. by destruct extra as [|? [|? ?]]; [..|simpl in He; lia].
  - change (flag_loop (as_args ((a0, a1) :: ps) ++ extra) (flags_of qs))
      with (fl ← set_flag a0 a1 (flags_of qs); flag_loop (as_args ps ++ extra) fl).
    rewrite set_flag_snoc. cbn [forallb fst]. destruct (bool_decide (a0 ∈ known)); [|done]. cbn [mbind res_bind andb].
    rewrite IH, <- app_assoc. done.
Qed.

(** diskvd reads its options as a table.  Given pairs of a flag and a value in any order, and perhaps one
    argument too many, it starts a server if every flag is one it knows and the options make sense: the last
    value of -g, -i, -u, -d and -r, and all values of -m and -s in order; otherwise it prints the usage.  A
    value that is no number counts as strconv reads it beside its error. *)
Theorem diskvd_reads_options prog ps extra :
  (length extra <= 1)%nat ->
  diskvd_main (prog :: as_args ps ++ extra) =
  if forallb (fun p => bool_decide (p.1 ∈ known)) ps && acceptable (flags_of ps) then Val (flags_of ps) else usage.
Proof.
  intros He. unfold diskvd_main. change (drop 1 (prog :: as_args ps ++ extra)) with (as_args ps ++ extra).
  change no_flags with (flags_of []). rewrite flag_loop_spec by done. by destruct (forallb _ ps).
Qed.

Definition demo_options : option_pairs :=
  [("-g", "100"); ("-m", "m0"); ("-s", "s0"); ("-m", "m1"); ("-s", "s1"); ("-i", "1"); ("-d", "/tmp/d"); ("-r", "true")].

Lemma diskvd_reads_options_witness :
  diskvd_main ("diskvd" :: as_args demo_options ++ ["-u"]) =
  Val (mkFlags 100 ["m0"; "m1"] ["s0"; "s1"] 1 false "/tmp/d" true).
Proof. rewrite (diskvd_reads_options "diskvd" demo_options ["-u"]); [vm_compute; reflexivity|simpl; lia]. Defined.

(** A group id that is no number is group 0. *)
Example diskvd_bad_gid :
  diskvd_main ["diskvd"; "-g"; "one"; "-m"; "m"; "-s"; "s"; "-i"; "0"; "-d"; "d"] =
  Val (mkFlags 0 ["m"] ["s"] 0 false "d" false).
Proof. vm_compute. reflexivity. Qed.

End Commands.
